(* ===== verification/_CoqProject ===== *)
-Q . S2P
Prelude.v
Protocol.v
Sync.v
RecvStream.v
FramedReader.v
LibcRecvStream.v
UringSink.v
UringSingleShot.v
UringMultishot.v
Queue.v
Wire.v
LibcQueue.v
LibcEntry.v
LibcTable.v
UringQueue.v
Tasks.v
SendLock.v
AlignedBuffer.v
Handlers.v
Session.v
Client.v
ClientTeardown.v
ClientApi.v
ServerMain.v
LibcConnection.v
LibcTurns.v
LibcWorker.v
LibcClient.v
LibcClientTurns.v
LibcClientWait.v
LibcClientLife.v
EndToEnd.v
LibcEndToEnd.v
Examples.v
LibcExamples.v
LibcClientExamples.v
UringExamples.v
