(* ===== verification/Prelude.v ===== *)
(** * easybd: a verification development

    easybd serves one file as a network block device. A server process runs one worker
    thread per [--threads], each with its own [easyio] queue; a connection is a coroutine
    that reads requests and spawns one handler coroutine per request. The client library is
    a C API over one connection and one queue, pumped by [easybd_client_wait]. Everything a
    thread does between two suspensions is sequential, so the development models each
    coroutine from suspension to suspension and quantifies over the order of the events
    that resume it.

    ** The parts, bottom up (file: code under src/)

    - [Prelude]: exceptions and [outcome], machine integers ([u64], [i64]), byte lists,
      [memcpy_at], histories by coroutine ([of_id]), reachability of an event system
      ([ts_reach], [ts_exec]).
    - [Protocol]: include/easybd/protocol.h. The packed headers as [memcpy] reads and writes
      them, in either byte order.
    - [Tasks]: easyio/include/easyio/task.hpp. Frames, continuations and symmetric transfer.
    - [Sync]: mutex.hpp, wait_group.hpp.
    - [RecvStream]: recv_stream.hpp. The class [RecvStream] is the four hooks, the class
      [RecvStreamLaws] what a stream promises its reader; the theorems about
      [FramedReader], [Session], [Client] and [EndToEnd] hold for every instance.
    - [FramedReader]: framed_reader.cpp, a reader over any stream.
    - [LibcRecvStream], [UringSingleShot], [UringMultishot]: libc_recv_stream.cpp and the two
      streams of uring_recv_stream.cpp, each an instance of the laws. [UringSink] is what
      the two share: a sink the kernel's completion is addressed to, which outlives its
      stream.
    - [Queue]: queue.cpp, with both [send_all]s. [LibcQueue]: libc_queue.cpp, the table of
      waiting operations, [step], [cancel_fd] and the destructor; what a resumed coroutine
      calls back is a tree of calls, threaded through the table. [LibcTable]: the reference
      of that table, registrations with an identity each, and its refinement. [UringQueue]: uring_queue.cpp
      over a class [SubmissionRing] of what the code uses of liburing.
    - [Wire]: what a socket has taken of a sequence of messages, for both ends. [SendLock]:
      the pattern [lock_guard] then [send_all], as the client uses it.
    - [AlignedBuffer]: server/aligned_buffer.hpp. [Handlers]: the handler coroutines of
      server/session.cpp with the mutex and wait group they share. [Session]:
      [handle_connection], with the events of one connection.
    - [Client]: client/client.cpp, with the events of one client. [ClientTeardown]:
      [~Client] on the poll-driven queue. [ClientApi]: the constructor and client/capi.cpp.
    - [ServerMain]: server/server.cpp and main.cpp: options, sockets, accepting, shutdown.
    - [LibcConnection], [LibcTurns], [LibcWorker]: the server on the libc backend, put
      together. The first runs the coroutines of [Session] as [easyio] does there: [resume]
      is a call, so there is a stack of coroutines ([turn], [run]), and the sends that wait
      are in the table of [LibcQueue] ([dispatch] is the turn of [Queue::step] for one
      descriptor); the second shows that these turns come to rest with the table in order;
      the third is [worker_main]: [accept_loop], the connections it spawns and closes, and
      [step] over all descriptors. [LibcEntry] is what both ends need to know of one entry
      of the table.
    - [LibcClient], [LibcClientTurns], [LibcClientWait], [LibcClientLife]: the client on the
      libc backend, put together in the same way: [reader_loop], the [send_request]s and the
      calls that callbacks make, on the stack of the application, from the end of the
      constructor on ([life]), through [pread], [pwrite] and [wait].
    - [EndToEnd]: a client and a connection joined by the two byte streams of TCP, over any
      backends; [LibcEndToEnd]: the two composed programs on the libc backend, joined.
    - [Examples], [LibcExamples], [LibcClientExamples], [UringExamples]: executions to which
      the theorems are applied.

    ** What the theorems show

    End to end ([EndToEnd]): the requests served are those called, in order, and every
    callback gets the result, and the data, of the file operation run for its own call; and
    when neither end has anything to send and everything is delivered, every call was called
    back ([LibcEndToEnd]): nothing hangs. Server: a connection serves exactly the reference parse of its bytes, its responses are
    atomic on the wire and each request has at most one, and a connection that stops drains
    in a bounded number of steps. Worker ([LibcWorker]): whenever it polls, the table is
    exactly what its coroutines wait for, so no wakeup is lost, and a connection with
    nothing to send has answered everything it received; [step] always returns; and its
    runs are runs of [ServerMain], [Session] and [LibcQueue]; a worker that exits with a
    quiet connection open has no defined behaviour. Client: each call is in exactly one of the
    pending table, the failing vector and the callbacks made; requests go out whole and in
    order; responses are read whole. The composed client ([LibcClientLife]): every call
    returns, [wait] with the number of callbacks it made; it polls exactly what it waits for;
    a socket that flows leaves nothing unsent; the end of the connection calls back exactly
    what was pending; and its runs are runs of [Client] and [LibcQueue]. Streams: the laws, with the safety of the memory behind the spans, the
    conservation of buffers, the life of the sinks and the absence of stalls. Queues: the
    table is at any time the registrations that neither finished nor were cleared or
    cancelled, in order, and [step] polls exactly these ([LibcTable]); rearming, the order
    of sends and cancellations; submission, dispatch and fixed files. Tasks: the machine of frames terminates in the state that direct calls give, and
    frees every frame once. The remaining ones are exact about what goes wrong: what is
    left when a destructor or constructor is cut short, and requests that get no callback.

    ** Conventions, bounds and fuel

    Sizes and indices are [nat]; values the code keeps in 64 bits are [Z] with [u64] and
    [i64] where they can wrap; statements that number the calls of a client assume fewer
    than [2^64 - 1] of them. Ring sizes are those the constructors accept; nothing is
    assumed about their values but what the theorems name. Loops of [read_exact] and
    [read_exact_into] take fuel equal to the bytes still wanted, each turn consuming at
    least one, and the specifications exclude [OutOfFuel] and [RStuck]; [advance] in
    [send_all] has the number of buffers plus one, [parse] the length of its input,
    [sender_run] one unit for every answer of the socket and every coroutine. [run],
    [write_turns] and [accept_loop] of the worker take fuel because a resumed coroutine may
    resume others; [worker_step_returns] shows that some fuel is enough and that any more
    gives the same state ([ends_in]): each turn reads a request of the bytes received, or
    brings a handler closer to its end, or pops the stack. So it is with [run] and
    [write_turns] of the client ([client_wait_returns]), in the lexicographic order of the
    bytes to read, the calls to come from callbacks of requests that fail, the callbacks and
    calls to make, and what the senders have left.

    ** Assumptions, each a named hypothesis or a parameter

    What the kernel may complete ([rs_event_ok], [io_call_ok], [recv_ok], the bound on
    bytes accepted), the laws of the submission ring, the sizes [posix_memalign] returns,
    and that TCP delivers a prefix of what was accepted. For a worker these are [kernel_ok],
    with one more: [accept4] gives descriptors that are not open and, from any moment on,
    some later call would block. An error that lasts breaks the latter, and then [step] does
    not return ([ServerMain.accept_loop_spins]). Callbacks may call [pread] and
    [pwrite] again: they are events of their own in [Client], and turns of the stack in
    [LibcClient]. For a composed client, [setting_ok]: a send takes something or fails; the
    server does not answer a request that it has not received whole; and the application
    calls on buffers it has, and from the callbacks of requests that failed without a
    response makes boundedly many calls ([s_retries]), without which it may never get back
    ([LibcClientExamples.retry_spins]); for [client_end_calls_back] it makes none there. For
    the table of the libc queue, [LibcTable.polite]: a coroutine resumed by a read operation
    does not, before it suspends, both clear or cancel its descriptor and register there to
    read, nor one resumed by a send both cancel its descriptor and send on it. None of this
    program does.

    ** Not modelled

    The kernel, liburing, glibc ([getopt], address resolution) and the allocator are
    parameters or environment events. Threads share only the shutdown flag and the stored
    exception, which [ServerMain] models as atomic steps; relaxed memory order is not
    modelled. Printing, logging and signal registration have no observable result here.
    Tests, benchmarks and packaging are not part of the program.

    Narrow integers of three kinds are kept as they are before the cast: the [unsigned int]
    length and the [unsigned short] index of a buffer entry (uring_recv_stream.cpp:103, 304;
    the program uses 128 KiB and at most 256 entries), and the [int] of [WaitGroup], which
    overflows with 2^31 handlers in flight. Of allocations, those of coroutine frames and of
    the objects a constructor makes first are not modelled as failing; those of buffers,
    streams and rings are. Callbacks that [~Client] makes are assumed to call nothing.

    The composition of the coroutines with their queue on one stack is done for the libc
    backend; on io_uring every operation suspends, and the parts are modelled each on its
    own ([UringQueue], the streams, and [Session], [Client] and [EndToEnd] over any stream).
    [~Client] is modelled on [Client] ([ClientTeardown]), not on the stack of [LibcClient];
    its assumption about the coroutines is a fact there ([LibcClientLife.life_at_rest]). *)

From Stdlib Require Export ZArith Lia.
From stdpp Require Export base tactics strings list gmap relations option numbers.

Declare Scope easybd_scope.
Delimit Scope easybd_scope with easybd.
Open Scope easybd_scope.

(** ** Exceptions and fallible code *)

(** The C++ exception classes the sources throw and tell apart. *)
Inductive exn :=
  | system_error (code : Z)          (** [std::system_error], its [code().value()] *)
  | runtime_error (what : string)    (** [std::runtime_error] *)
  | invalid_argument (what : string) (** [std::invalid_argument] *)
  | bad_alloc                        (** [std::bad_alloc] *)
  | foreign.                         (** anything else: only [catch (...)] sees it *)

#[export] Instance exn_eq_dec : EqDecision exn.
Proof. solve_decision. Defined.

(** What a call leaves: a value, or the exception it ended with. *)
Inductive outcome (A : Type) :=
  | Ok (a : A)
  | Throw (e : exn).
Arguments Ok {A} a.
Arguments Throw {A} e.

#[export] Instance outcome_eq_dec {A} `{EqDecision A} : EqDecision (outcome A).
Proof. solve_decision. Defined.

Definition outcome_bind {A B} (m : outcome A) (f : A -> outcome B) : outcome B :=
  match m with
  | Ok a => f a
  | Throw e => Throw e
  end.

Notation "'let!' x ':=' m 'in' k" := (outcome_bind m (fun x => k))
  (at level 10, x name, m at level 100, k at level 200) : easybd_scope.

Lemma outcome_bind_Ok {A B} (m : outcome A) (f : A -> outcome B) b :
  outcome_bind m f = Ok b -> exists a, m = Ok a /\ f a = Ok b.
Proof. destruct m; naive_solver. Qed.

(** The [errno] values the sources name (Linux). *)
Definition EINTR : Z := 4.
Definition EBADF : Z := 9.
Definition EAGAIN : Z := 11.
Definition ENOMEM : Z := 12.
Definition EINVAL : Z := 22.
Definition EPIPE : Z := 32.
Definition ETIME : Z := 62.
Definition EMSGSIZE : Z := 90.
Definition ECONNRESET : Z := 104.
Definition ENOBUFS : Z := 105.
Definition ECANCELED : Z := 125.

(** A suspended coroutine, as the code holds it: an opaque handle. *)
Abbreviation handle := nat (only parsing).

(** ** Machine integers *)

Definition u8 (z : Z) : Z := z `mod` 2 ^ 8.
Definition u64 (z : Z) : Z := z `mod` 2 ^ 64.
(** [static_cast<int64_t>] of a 64-bit pattern. *)
Definition i64 (z : Z) : Z :=
  let u := u64 z in if bool_decide (u < 2 ^ 63)%Z then u else (u - 2 ^ 64)%Z.

Lemma u64_range z : (0 <= u64 z < 2 ^ 64)%Z.
Proof. unfold u64. apply Z.mod_pos_bound. lia. Qed.

Lemma u64_small z : (0 <= z < 2 ^ 64)%Z -> u64 z = z.
Proof. intros. unfold u64. by apply Z.mod_small. Qed.

Lemma i64_u64 z : (- 2 ^ 63 <= z < 2 ^ 63)%Z -> i64 (u64 z) = z.
Proof.
  intros Hz. unfold i64, u64. rewrite Z.mod_mod by lia.
  destruct (decide (0 <= z)%Z).
  - rewrite (Z.mod_small z) by lia. rewrite bool_decide_true by lia. done.
  - assert (z `mod` 2 ^ 64 = z + 2 ^ 64)%Z as ->.
    { symmetry. apply (Z.mod_unique_pos z (2 ^ 64) (-1)); lia. }
    rewrite bool_decide_false by lia. lia.
Qed.

Lemma i64_range z : (- 2 ^ 63 <= i64 z < 2 ^ 63)%Z.
Proof.
  unfold i64. pose proof (u64_range z).
  case_bool_decide; lia.
Qed.

Lemma u64_i64 z : u64 (i64 z) = u64 z.
Proof.
  unfold i64. case_bool_decide; [apply u64_small, u64_range|].
  unfold u64. rewrite <- (Zminus_mod_idemp_r _ (2 ^ 64)), Z.mod_same by lia.
  rewrite Z.sub_0_r. by rewrite Z.mod_mod by lia.
Qed.

(** ** Byte buffers *)

#[export] Instance byte_eq_dec : EqDecision Byte.byte := Byte.byte_eq_dec.

Abbreviation bytes := (list Byte.byte) (only parsing).

(** [slice off len m] is the span of [len] elements of [m] from [off]. *)
Definition slice {A} (off len : nat) (m : list A) : list A := take len (drop off m).

(** [memcpy] of [d] into the buffer [m] at [off]. *)
Definition memcpy_at {A} (m : list A) (off : nat) (d : list A) : list A :=
  take off m ++ d ++ drop (off + length d) m.

Section buffers.
Context {A : Type}.
Implicit Types m d : list A.

Lemma length_memcpy_at m off d :
  off + length d <= length m -> length (memcpy_at m off d) = length m.
Proof.
  intros. unfold memcpy_at. rewrite !length_app, length_take, length_drop. lia.
Qed.

Lemma length_slice off len m : off + len <= length m -> length (slice off len m) = len.
Proof. intros. unfold slice. rewrite length_take, length_drop. lia. Qed.

Lemma lookup_memcpy_at m off d i :
  off + length d <= length m ->
  memcpy_at m off d !! i =
    (if decide (off <= i < off + length d) then d !! (i - off) else m !! i).
Proof.
  intros Hle. unfold memcpy_at. destruct (decide (i < off)).
  { rewrite decide_False by lia.
    rewrite lookup_app_l by (rewrite length_take; lia).
    by rewrite lookup_take_lt by lia. }
  rewrite lookup_app_r by (rewrite length_take; lia).
  rewrite length_take, Nat.min_l by lia.
  case_decide.
  - by rewrite lookup_app_l by lia.
  - rewrite lookup_app_r by lia. rewrite lookup_drop. f_equal. lia.
Qed.

Lemma slice_memcpy_at_eq m off d :
  off + length d <= length m -> slice off (length d) (memcpy_at m off d) = d.
Proof.
  intros. unfold slice, memcpy_at.
  rewrite drop_app_ge by (rewrite length_take; lia).
  rewrite length_take, Nat.min_l, Nat.sub_diag, drop_0 by lia.
  by rewrite take_app_length.
Qed.

Lemma slice_memcpy_at_ne m off d off' len :
  off + length d <= length m ->
  off' + len <= off \/ off + length d <= off' ->
  slice off' len (memcpy_at m off d) = slice off' len m.
Proof.
  intros Hle Hdisj. unfold slice. apply list_eq. intros i.
  destruct (decide (i < len)).
  - rewrite !lookup_take_lt, !lookup_drop by lia.
    rewrite lookup_memcpy_at, decide_False by lia. done.
  - by rewrite !lookup_take_ge by lia.
Qed.

Lemma memcpy_at_app m off d1 d2 :
  off + length d1 + length d2 <= length m ->
  memcpy_at (memcpy_at m off d1) (off + length d1) d2 = memcpy_at m off (d1 ++ d2).
Proof.
  intros. apply list_eq. intros i.
  rewrite !lookup_memcpy_at by (rewrite ?length_memcpy_at, ?length_app; lia).
  rewrite length_app. repeat case_decide; try lia; try done.
  - rewrite lookup_app_r by lia. f_equal. lia.
  - by rewrite lookup_app_l by lia.
Qed.

Lemma memcpy_at_nil m off : memcpy_at m off [] = m.
Proof. unfold memcpy_at. rewrite Nat.add_0_r. apply take_drop. Qed.

Lemma take_memcpy_at m off d :
  off + length d <= length m ->
  take (off + length d) (memcpy_at m off d) = take off m ++ d.
Proof.
  intros. unfold memcpy_at. rewrite app_assoc.
  apply take_app_length'. rewrite length_app, length_take. lia.
Qed.
End buffers.

(** Appending to what a prefix was dropped from. *)
Lemma drop_app_le {A} (n : nat) (l k : list A) :
  n <= length l -> drop n (l ++ k) = drop n l ++ k.
Proof. intros. rewrite drop_app. by replace (n - length l) with 0 by lia. Qed.

Lemma take_app_le' {A} (n : nat) (l k : list A) :
  n <= length l -> take n (l ++ k) = take n l.
Proof. intros. rewrite take_app. replace (n - length l) with 0 by lia. by rewrite take_0, app_nil_r. Qed.

Lemma Forall_elem {A} (P : A -> Prop) (l : list A) (x : A) : Forall P l -> x ∈ l -> P x.
Proof. intros Hl. by apply list.Forall_forall. Qed.

Lemma mjoin_cons {A} (x : list A) (l : list (list A)) : mjoin (x :: l) = x ++ mjoin l.
Proof. done. Qed.

(** Positions around a ring of [n] slots are distinct within one lap. *)
Lemma ring_inj (n start i j : nat) :
  i < n -> j < n -> (start + i) mod n = (start + j) mod n -> i = j.
Proof.
  intros Hi Hj Heq.
  pose proof (Nat.div_mod_eq (start + i) n). pose proof (Nat.div_mod_eq (start + j) n).
  destruct (Nat.lt_trichotomy ((start + i) / n) ((start + j) / n)) as [?|[?|?]]; nia.
Qed.

Lemma ring_bound (n start i : nat) : i < n -> (start + i) mod n < n.
Proof. intros. apply Nat.mod_upper_bound. lia. Qed.

Lemma ring_next (n k : nat) : (k mod n + 1) mod n = (k + 1) mod n.
Proof. apply Nat.Div0.add_mod_idemp_l. Qed.

(** ** Sums over finite maps *)

Definition map_sum {A} (w : A -> nat) (m : gmap nat A) : nat :=
  sum_list_with (fun kx => w (snd kx)) (map_to_list m).

Section map_sum.
Context {A : Type} (w : A -> nat).
Implicit Types m : gmap nat A.

Lemma map_sum_insert_fresh m i x :
  m !! i = None -> map_sum w (<[i := x]> m) = w x + map_sum w m.
Proof. intros Hi. unfold map_sum. by rewrite map_to_list_insert by done. Qed.

Lemma map_sum_delete m i x :
  m !! i = Some x -> map_sum w m = w x + map_sum w (delete i m).
Proof.
  intros Hi. rewrite <- (map_sum_insert_fresh _ i) by apply lookup_delete_eq.
  by rewrite insert_delete_id.
Qed.

Lemma map_sum_insert m i x y :
  m !! i = Some x -> map_sum w (<[i := y]> m) + w x = map_sum w m + w y.
Proof.
  intros Hi. rewrite (map_sum_delete (<[i := y]> m) i y) by apply lookup_insert_eq.
  rewrite (map_sum_delete m i x) by done. rewrite delete_insert_eq. lia.
Qed.
End map_sum.

(** ** Logs *)

(** The entries of process [id] in a log. *)
Definition of_id {A} (id : nat) (l : list (nat * A)) : list A :=
  omap (fun '(i, a) => if bool_decide (i = id) then Some a else None) l.

Lemma of_id_snoc {A} id i (a : A) l :
  of_id id (l ++ [(i, a)]) = of_id id l ++ (if bool_decide (i = id) then [a] else []).
Proof. unfold of_id. rewrite omap_app. simpl. by case_bool_decide. Qed.

Lemma of_id_snoc_eq {A} id (a : A) l : of_id id (l ++ [(id, a)]) = of_id id l ++ [a].
Proof. rewrite of_id_snoc. by rewrite bool_decide_true. Qed.

Lemma of_id_snoc_ne {A} id i (a : A) l : i <> id -> of_id id (l ++ [(i, a)]) = of_id id l.
Proof. intros. rewrite of_id_snoc, bool_decide_false by done. apply app_nil_r. Qed.

Lemma of_id_elem {A} id (a : A) l : (id, a) ∈ l -> a ∈ of_id id l.
Proof. intros Hl. apply list_elem_of_omap. exists (id, a). by rewrite bool_decide_true. Qed.

Lemma elem_of_id {A} id (a : A) l : a ∈ of_id id l -> (id, a) ∈ l.
Proof. intros ([i b] & Hin & Hb)%list_elem_of_omap. by case_bool_decide; simplify_eq. Qed.

Lemma of_id_cons {A} id i (a : A) l :
  of_id id ((i, a) :: l) = (if bool_decide (i = id) then [a] else []) ++ of_id id l.
Proof. unfold of_id. simpl. by case_bool_decide. Qed.

Lemma of_id_once {A} (l : list (nat * A)) :
  (forall id, length (of_id id l) <= 1) -> NoDup l.*1.
Proof.
  induction l as [|[i a] l IH]; intros Hl; [constructor|]. simpl. apply list.NoDup_cons. split.
  - intros Hi. apply list_elem_of_fmap in Hi as ([i' b] & -> & Hb). apply of_id_elem in Hb.
    specialize (Hl i'). rewrite of_id_cons, bool_decide_true in Hl by done. simpl in Hl.
    destruct (of_id i' l); [by apply not_elem_of_nil in Hb|simpl in Hl; lia].
  - apply IH. intros id. specialize (Hl id). rewrite of_id_cons, length_app in Hl. lia.
Qed.

(** ** [omap] that drops nothing *)

Lemma length_omap_le {A B} (f : A -> option B) l : (length (omap f l) <= length l)%nat.
Proof.
  induction l as [|x l IH]; [done|]. change (omap f (x :: l)) with (match f x with Some y => y :: omap f l | None => omap f l end).
  destruct (f x); cbn [length]; lia.
Qed.

Lemma omap_full {A B} (f : A -> option B) l :
  (length l <= length (omap f l))%nat -> Forall (fun x => is_Some (f x)) l.
Proof.
  induction l as [|x l IH]; [done|]. pose proof (length_omap_le f l).
  change (omap f (x :: l)) with (match f x with Some y => y :: omap f l | None => omap f l end).
  destruct (f x) eqn:Hx; cbn [length]; intros; [|lia]. constructor; [by eexists|]. apply IH. lia.
Qed.

(** ** Transition systems *)

(** An invariant of the initial state and of every step holds of every reachable state. *)
Lemma rtc_invariant {A} (R : relation A) (P : A -> Prop) :
  (forall x y, P x -> R x y -> P y) -> forall x y, rtc R x y -> P x -> P y.
Proof. intros Hstep x y Hxy. induction Hxy; eauto. Qed.

(** Systems driven by events, some of which bring bytes in. *)
Section events.
Context {E A : Type} (enabled : E -> A -> Prop) (apply : E -> A -> A) (received : E -> A -> bytes).

(** [ts_reach s0 recv s]: from [s0], having received [recv], the system can be in [s]. *)
Inductive ts_reach (s0 : A) : bytes -> A -> Prop :=
  | ts_refl : ts_reach s0 [] s0
  | ts_step recv s e :
      ts_reach s0 recv s -> enabled e s -> ts_reach s0 (recv ++ received e s) (apply e s).

(** The same, as an execution. *)
Fixpoint ts_exec (es : list E) (s : A) : bytes * A :=
  match es with
  | [] => ([], s)
  | e :: es => let '(recv, s') := ts_exec es (apply e s) in (received e s ++ recv, s')
  end.

Fixpoint ts_exec_ok (es : list E) (s : A) : Prop :=
  match es with
  | [] => True
  | e :: es => enabled e s /\ ts_exec_ok es (apply e s)
  end.

Lemma ts_trans s0 recv s recv' s' :
  ts_reach s0 recv s -> ts_reach s recv' s' -> ts_reach s0 (recv ++ recv') s'.
Proof.
  intros Hs. induction 1 as [|recv' s' e _ IH He]; [by rewrite app_nil_r|].
  rewrite app_assoc. by constructor.
Qed.

Lemma ts_exec_reach es s : ts_exec_ok es s -> ts_reach s (ts_exec es s).1 (ts_exec es s).2.
Proof.
  revert s. induction es as [|e es IH]; intros s Hes; simpl; [constructor|].
  destruct Hes as [He Hes]. specialize (IH _ Hes).
  destruct (ts_exec es (apply e s)) as [recv' s']. simpl in *.
  apply (ts_trans _ (received e s) (apply e s)); [|done].
  apply (ts_step s [] s e); [constructor|done].
Qed.
Lemma ts_exec_snoc es e s :
  ts_exec (es ++ [e]) s =
    ((ts_exec es s).1 ++ received e (ts_exec es s).2, apply e (ts_exec es s).2) /\
  (ts_exec_ok es s -> enabled e (ts_exec es s).2 -> ts_exec_ok (es ++ [e]) s).
Proof.
  revert s. induction es as [|x es IH]; intros s; simpl; [by rewrite app_nil_r|].
  destruct (IH (apply x s)) as [-> Hok]. destruct (ts_exec es (apply x s)) as [recv s']. simpl in *.
  split; [by rewrite app_assoc|]. intros [? ?] ?. auto.
Qed.

(** What is reached, is reached by an execution. *)
Lemma ts_reach_exec s0 recv s :
  ts_reach s0 recv s -> exists es, ts_exec_ok es s0 /\ ts_exec es s0 = (recv, s).
Proof.
  induction 1 as [|recv s e _ (es & Hok & Hes) He]; [by exists []|].
  exists (es ++ [e]). destruct (ts_exec_snoc es e s0) as [-> Hsnoc]. rewrite Hes in *. auto.
Qed.

Lemma ts_exec_foldl es s : (ts_exec es s).2 = foldl (fun s e => apply e s) s es.
Proof.
  revert s. induction es as [|e es IH]; intros s; simpl; [done|].
  rewrite <- IH. by destruct (ts_exec es (apply e s)).
Qed.
End events.

(** ** Fuel *)

(** With enough fuel, and any more, the result is [r]. *)
Definition ends_in {A} (f : nat -> option A) (r : A) : Prop :=
  exists N, forall fuel, N <= fuel -> f fuel = Some r.

Lemma ends_in_unique {A} (f : nat -> option A) r r' : ends_in f r -> ends_in f r' -> r = r'.
Proof.
  intros [N HN] [N' HN']. pose proof (HN (max N N') ltac:(lia)). pose proof (HN' (max N N') ltac:(lia)). congruence.
Qed.

(** A measure of three parts, the first weighing most. *)
Definition lex3 (x y : nat * nat * nat) : Prop :=
  let '(a, b, c) := x in let '(a', b', c') := y in
  a < a' \/ (a = a' /\ (b < b' \/ (b = b' /\ c < c'))).

Lemma lex3_wf : well_founded lex3.
Proof.
  intros [[a b] c]. revert b c. induction (lt_wf a) as [a _ IHa]. intros b.
  induction (lt_wf b) as [b _ IHb]. intros c. induction (lt_wf c) as [c _ IHc].
  constructor. intros [[a' b'] c'] [?|[-> [?|[-> ?]]]]; auto.
Qed.

(** ** Automation *)

Create HintDb easybd.
Create Rewrite HintDb easybd.
#[export] Hint Resolve u64_range i64_range : easybd.
#[export] Hint Rewrite @length_memcpy_at using lia : easybd.
#[export] Hint Rewrite @length_app @length_take @length_drop : easybd.

(** Lengths of lists, to linear arithmetic. *)
Ltac len := autorewrite with easybd in *; simpl in *; lia.

(** Split every conjunction and existential of the context and clean up equations. *)
Ltac des := repeat (destruct_and! || destruct_or! || match goal with
  | H : exists _, _ |- _ => destruct H
  | H : context [let '(_, _) := ?p in _] |- _ => destruct p eqn:?
  end; simplify_eq/=).

(** Case split on the scrutinee of the goal's innermost [if] or [match]. *)
Ltac split_match := repeat (case_match; simplify_eq/=).
