(* ===== verification/Protocol.v ===== *)
(** * The wire protocol ([include/easybd/protocol.h])

    The request and response headers as the packed structs lay them out, in
    the byte order of the machine ([NativeEndian]): both ends [memcpy] the
    struct to and from the wire. *)

From coqutil Require Import Word.LittleEndianList.
From S2P Require Import Prelude.

Open Scope Z_scope.

(** Byte order of the machine both ends run on. *)
Inductive endian := little_endian | big_endian.

#[export] Instance endian_eq_dec : EqDecision endian.
Proof. solve_decision. Defined.

Class NativeEndian := native_endian : endian.

Definition EASYBD_OP_READ : Z := 0.
Definition EASYBD_OP_WRITE : Z := 1.
Definition EASYBD_OP_WRITE_SYNC : Z := 2.

Definition EASYBD_MAX_PAYLOAD_SIZE : Z := u64 (4 * 1024 * 1024).

Record EasyBDRequestHeader := {
  req_cid : Z;    (** [uint64_t cid] *)
  req_offset : Z; (** [uint64_t offset] *)
  req_size : Z;   (** [uint64_t size] *)
  req_op : Z;     (** [uint8_t op] *)
}.

Record EasyBDResponseHeader := {
  resp_cid : Z; (** [uint64_t cid] *)
  resp_res : Z; (** [int64_t res] *)
}.

#[export] Instance EasyBDRequestHeader_eq_dec : EqDecision EasyBDRequestHeader.
Proof. solve_decision. Defined.
#[export] Instance EasyBDResponseHeader_eq_dec : EqDecision EasyBDResponseHeader.
Proof. solve_decision. Defined.

(** [sizeof] of the two packed structs. *)
Definition sizeof_request : nat := 25.
Definition sizeof_response : nat := 16.

(** An unsigned integer of [n] bytes in memory. *)
Definition store_uint `{NativeEndian} (n : nat) (z : Z) : list Byte.byte :=
  match native_endian with
  | little_endian => le_split n z
  | big_endian => reverse (le_split n z)
  end.

Definition load_uint `{NativeEndian} (bs : list Byte.byte) : Z :=
  match native_endian with
  | little_endian => le_combine bs
  | big_endian => le_combine (reverse bs)
  end.

(** The bytes of the structs, field after field with no padding. *)
Definition encode_request `{NativeEndian} (h : EasyBDRequestHeader) : list Byte.byte :=
  store_uint 8 (req_cid h) ++ store_uint 8 (req_offset h) ++
  store_uint 8 (req_size h) ++ store_uint 1 (req_op h).

Definition decode_request `{NativeEndian} (bs : list Byte.byte) : EasyBDRequestHeader :=
  {| req_cid := load_uint (slice 0 8 bs);
     req_offset := load_uint (slice 8 8 bs);
     req_size := load_uint (slice 16 8 bs);
     req_op := load_uint (slice 24 1 bs) |}.

Definition encode_response `{NativeEndian} (h : EasyBDResponseHeader) : list Byte.byte :=
  store_uint 8 (resp_cid h) ++ store_uint 8 (resp_res h).

Definition decode_response `{NativeEndian} (bs : list Byte.byte) : EasyBDResponseHeader :=
  {| resp_cid := load_uint (slice 0 8 bs);
     resp_res := i64 (load_uint (slice 8 8 bs)) |}.

(** The fields fit their C types. *)
Definition request_wf (h : EasyBDRequestHeader) : Prop :=
  0 <= req_cid h < 2 ^ 64 /\ 0 <= req_offset h < 2 ^ 64 /\
  0 <= req_size h < 2 ^ 64 /\ 0 <= req_op h < 2 ^ 8.

Definition response_wf (h : EasyBDResponseHeader) : Prop :=
  0 <= resp_cid h < 2 ^ 64 /\ - 2 ^ 63 <= resp_res h < 2 ^ 63.

#[export] Instance request_wf_dec h : Decision (request_wf h).
Proof. unfold request_wf. apply _. Defined.
#[export] Instance response_wf_dec h : Decision (response_wf h).
Proof. unfold response_wf. apply _. Defined.

(** Does a request of this op carry a payload? *)
Definition is_write (op : Z) : bool :=
  bool_decide (op = EASYBD_OP_WRITE) || bool_decide (op = EASYBD_OP_WRITE_SYNC).

Section codec.
Context `{NativeEndian}.

Lemma length_store_uint n z : length (store_uint n z) = n.
Proof.
  unfold store_uint. destruct native_endian; [|rewrite length_reverse]; apply length_le_split.
Qed.

Lemma load_store_uint n z : load_uint (store_uint n z) = z mod 2 ^ (Z.of_nat n * 8).
Proof.
  unfold load_uint, store_uint. destruct native_endian;
    rewrite ?reverse_involutive; apply le_combine_split.
Qed.

Lemma store_load_uint n bs : length bs = n -> store_uint n (load_uint bs) = bs.
Proof.
  intros Hn. unfold load_uint, store_uint. destruct native_endian.
  - by apply split_le_combine'.
  - rewrite split_le_combine' by (by rewrite length_reverse).
    apply reverse_involutive.
Qed.

Lemma load_uint_range bs : 0 <= load_uint bs < 2 ^ (8 * Z.of_nat (length bs)).
Proof.
  unfold load_uint. destruct native_endian; [apply le_combine_bound|].
  rewrite <- (length_reverse bs). apply le_combine_bound.
Qed.

Lemma store_uint_mod n z : store_uint n (z mod 2 ^ (Z.of_nat n * 8)) = store_uint n z.
Proof. unfold store_uint. by rewrite <- le_split_mod. Qed.

Lemma length_encode_request h : length (encode_request h) = sizeof_request.
Proof. unfold encode_request. by rewrite !length_app, !length_store_uint. Qed.

Lemma length_encode_response h : length (encode_response h) = sizeof_response.
Proof. unfold encode_response. by rewrite !length_app, !length_store_uint. Qed.
End codec.

(** The field [b] of a struct image, [na] bytes in and [nb] bytes long. *)
Lemma slice_field {A} (na nb : nat) (a b c : list A) :
  length a = na -> length b = nb -> slice na nb (a ++ b ++ c) = b.
Proof. intros <- <-. unfold slice. rewrite drop_app_length. apply take_app_length. Qed.

Lemma slice_field_last {A} (na nb : nat) (a b : list A) :
  length a = na -> length b = nb -> slice na nb (a ++ b) = b.
Proof. rewrite <- (app_nil_r b) at 2. apply slice_field. Qed.

(** Two consecutive spans make the span of both. *)
Lemma slice_slice {A} (bs : list A) a n m :
  slice a n bs ++ slice (a + n) m bs = slice a (n + m) bs.
Proof. unfold slice. rewrite <- drop_drop. apply take_take_drop. Qed.

Lemma slice_all {A} (bs : list A) n : length bs = n -> slice 0 n bs = bs.
Proof. intros <-. unfold slice. rewrite drop_0. apply firstn_all. Qed.

Ltac fields := rewrite ?length_app; simpl; lia.

Section roundtrip.
Context `{NativeEndian}.

Lemma decode_encode_request h :
  request_wf h -> decode_request (encode_request h) = h.
Proof.
  destruct h as [cid off size op]. unfold request_wf. intros (? & ? & ? & ?). simpl in *.
  unfold decode_request, encode_request. simpl.
  pose proof (length_store_uint 8 cid). pose proof (length_store_uint 8 off).
  pose proof (length_store_uint 8 size). pose proof (length_store_uint 1 op).
  set (a := store_uint 8 cid) in *. set (b := store_uint 8 off) in *.
  set (c := store_uint 8 size) in *. set (d := store_uint 1 op) in *.
  assert (slice 0 8 (a ++ b ++ c ++ d) = a) as -> by (apply (slice_field 0 8 []); fields).
  rewrite (slice_field 8 8 a b) by fields.
  assert (slice 16 8 (a ++ b ++ c ++ d) = c) as ->
    by (rewrite (app_assoc a); apply slice_field; fields).
  assert (slice 24 1 (a ++ b ++ c ++ d) = d) as ->
    by (rewrite (app_assoc a), (app_assoc (a ++ b)); apply slice_field_last; fields).
  subst a b c d. rewrite !load_store_uint. simpl. by rewrite !Z.mod_small by lia.
Qed.

Lemma decode_encode_response h :
  response_wf h -> decode_response (encode_response h) = h.
Proof.
  destruct h as [cid res]. unfold response_wf. intros [? ?]. simpl in *.
  unfold decode_response, encode_response. simpl.
  pose proof (length_store_uint 8 cid). pose proof (length_store_uint 8 res).
  set (a := store_uint 8 cid) in *. set (b := store_uint 8 res) in *.
  assert (slice 0 8 (a ++ b) = a) as -> by (apply (slice_field 0 8 []); fields).
  assert (slice 8 8 (a ++ b) = b) as -> by (apply slice_field_last; fields).
  subst a b. rewrite !load_store_uint. simpl.
  rewrite (Z.mod_small cid) by lia. f_equal. by apply i64_u64.
Qed.

(** The other direction: what is decoded from a full header encodes back to it. *)
Lemma encode_decode_request bs :
  length bs = sizeof_request -> encode_request (decode_request bs) = bs.
Proof.
  intros Hlen. unfold sizeof_request in Hlen. unfold encode_request, decode_request. simpl.
  rewrite !store_load_uint by (apply length_slice; lia).
  by rewrite (slice_slice bs 16), (slice_slice bs 8), (slice_slice bs 0), slice_all.
Qed.

Lemma store_uint_i64 z : store_uint 8 (i64 z) = store_uint 8 z.
Proof.
  rewrite <- (store_uint_mod 8 (i64 z)), <- (store_uint_mod 8 z).
  f_equal. apply u64_i64.
Qed.

Lemma encode_decode_response bs :
  length bs = sizeof_response -> encode_response (decode_response bs) = bs.
Proof.
  intros Hlen. unfold sizeof_response in Hlen. unfold encode_response, decode_response. simpl.
  rewrite store_uint_i64, !store_load_uint by (apply length_slice; lia).
  by rewrite (slice_slice bs 0), slice_all.
Qed.

(** Whatever 25 bytes arrive, the decoded fields fit their types. *)
Lemma decode_request_wf bs : length bs = sizeof_request -> request_wf (decode_request bs).
Proof.
  intros Hlen. unfold sizeof_request in Hlen.
  pose proof (load_uint_range (slice 0 8 bs)). pose proof (load_uint_range (slice 8 8 bs)).
  pose proof (load_uint_range (slice 16 8 bs)). pose proof (load_uint_range (slice 24 1 bs)).
  rewrite !length_slice in * by lia. unfold request_wf. simpl. lia.
Qed.

Lemma decode_response_wf bs : length bs = sizeof_response -> response_wf (decode_response bs).
Proof.
  intros Hlen. unfold sizeof_response in Hlen.
  pose proof (load_uint_range (slice 0 8 bs)). pose proof (i64_range (load_uint (slice 8 8 bs))).
  rewrite !length_slice in * by lia. unfold response_wf. simpl. lia.
Qed.
End roundtrip.

#[export] Hint Rewrite @length_encode_request @length_encode_response : easybd.
#[export] Hint Resolve decode_request_wf decode_response_wf : easybd.

(** ** Whole requests *)

(** A request: its header and, for a write, its payload. *)
Record request := Req {
  rq_header : EasyBDRequestHeader;
  rq_payload : bytes;
}.

(** Too large to serve: answered with [EMSGSIZE] (writes never get this far). *)
Definition oversize (req : request) : bool :=
  bool_decide (EASYBD_MAX_PAYLOAD_SIZE < req_size (rq_header req))%Z.

(** A request the client sends and the server serves. *)
Definition request_ok (req : request) : Prop :=
  request_wf (rq_header req) /\
  if is_write (req_op (rq_header req)) then
    oversize req = false /\ Z.of_nat (length (rq_payload req)) = req_size (rq_header req)
  else req_op (rq_header req) = EASYBD_OP_READ /\ rq_payload req = [].

Section images.
Context `{NativeEndian}.

(** The bytes of a request on the wire. *)
Definition request_image (req : request) : bytes :=
  encode_request (rq_header req) ++ rq_payload req.

Definition images (reqs : list request) : bytes := mjoin (request_image <$> reqs).

Lemma images_snoc reqs req : images (reqs ++ [req]) = images reqs ++ request_image req.
Proof. unfold images. rewrite fmap_app, join_app. cbn. by rewrite app_nil_r. Qed.

Lemma length_image req : (sizeof_request <= length (request_image req))%nat.
Proof. unfold request_image. rewrite length_app, length_encode_request. lia. Qed.

End images.

(** C35: the two headers survive the wire. Encoding a header whose fields fit their C
    types and decoding the bytes gives the header back, in either byte order; the image
    is 25 (request) or 16 (response) bytes with no padding; and conversely any 25 or 16
    received bytes decode to in-range fields that encode back to exactly those bytes, so
    the codec loses nothing in either direction. *)
Theorem header_roundtrip `{NativeEndian} :
  (forall h, request_wf h ->
     length (encode_request h) = sizeof_request /\ decode_request (encode_request h) = h) /\
  (forall h, response_wf h ->
     length (encode_response h) = sizeof_response /\ decode_response (encode_response h) = h) /\
  (forall bs, length bs = sizeof_request ->
     request_wf (decode_request bs) /\ encode_request (decode_request bs) = bs) /\
  (forall bs, length bs = sizeof_response ->
     response_wf (decode_response bs) /\ encode_response (decode_response bs) = bs).
Proof.
  split_and!; intros; split; eauto using length_encode_request, length_encode_response,
    decode_encode_request, decode_encode_response, encode_decode_request,
    encode_decode_response, decode_request_wf, decode_response_wf.
Qed.
