(* ===== verification/Sync.v ===== *)
(** * Coroutine synchronisation ([easyio/mutex.hpp], [easyio/wait_group.hpp])

    The FIFO mutex that keeps one multi-part message at a time on a socket, its RAII
    guard, and the wait group a connection drains its handlers with. Resuming a
    coroutine is the result [Some h] of an operation: the caller runs [h] next. *)

From S2P Require Import Prelude.

(** ** [class Mutex] *)
Module Mutex.
Record t := Mk {
  locked : bool;          (** [_locked] *)
  waiters : list handle;  (** [_waiters], front first *)
}.

Definition init : t := Mk false [].

(** [LockAwaiter::await_ready]: takes the lock if it is free. *)
Definition await_ready (m : t) : bool * t :=
  if negb (locked m) then (true, Mk true (waiters m)) else (false, m).

(** [LockAwaiter::await_suspend]. *)
Definition await_suspend (h : handle) (m : t) : t := Mk (locked m) (waiters m ++ [h]).

(** [co_await lock_guard(m)] by coroutine [h]: [true] when it goes on with the lock
    held, [false] when it is suspended. *)
Definition lock (h : handle) (m : t) : bool * t :=
  let '(rdy, m') := await_ready m in
  if rdy then (true, m') else (false, await_suspend h m').

(** [unlock()]: hands the lock to the first waiter, which runs next, or frees it. *)
Definition unlock (m : t) : option handle * t :=
  match waiters m with
  | h :: ws => (Some h, Mk (locked m) ws)
  | [] => (None, Mk false (waiters m))
  end.

(** [class MutexGuard]: [_mutex] is null once moved from. *)
Definition guard := bool.

(** [MutexGuard(MutexGuard&&)]: the new guard, then what is left in [other]. *)
Definition guard_move (other : guard) : guard * guard := (other, false).

(** [~MutexGuard]. *)
Definition guard_drop (g : guard) (m : t) : option handle * t :=
  if g then unlock m else (None, m).

(** *** Specification: the queue of coroutines that asked and have not released *)

(** The head of the queue owns the lock, the rest wait in order. *)
Definition rel (m : t) (q : list handle) : Prop :=
  locked m = bool_decide (q <> []) /\ waiters m = tail q.

Inductive op := Lock (h : handle) | Unlock.

#[export] Instance op_eq_dec : EqDecision op.
Proof. solve_decision. Defined.

(** Who holds the lock as a consequence of the operation. *)
Definition run1 (o : op) (m : t) : option handle * t :=
  match o with
  | Lock h => let '(now, m') := lock h m in (if now then Some h else None, m')
  | Unlock => unlock m
  end.

Definition spec1 (o : op) (q : list handle) : option handle * list handle :=
  match o with
  | Lock h => (if decide (q = []) then Some h else None, q ++ [h])
  | Unlock => (head (tail q), tail q)
  end.

(** The grants, in order, of a sequence of operations. *)
Fixpoint run (os : list op) (m : t) : list handle * t :=
  match os with
  | [] => ([], m)
  | o :: os =>
      let '(g, m') := run1 o m in
      let '(gs, m'') := run os m' in
      (option_list g ++ gs, m'')
  end.

Definition requests (os : list op) : list handle :=
  omap (fun o => match o with Lock h => Some h | Unlock => None end) os.

Definition releases (os : list op) : nat :=
  length (filter (fun o => o = Unlock) os).

(** [unlock()] is only called by a coroutine that holds the lock (through its guard). *)
Fixpoint disciplined (os : list op) (q : list handle) : Prop :=
  match os with
  | [] => True
  | o :: os => (o = Unlock -> q <> []) /\ disciplined os (snd (spec1 o q))
  end.

#[export] Instance disciplined_dec os q : Decision (disciplined os q).
Proof. revert q. induction os; intros; simpl; apply _. Defined.

Lemma rel_init : rel init [].
Proof. done. Qed.

Lemma rel_held m q : rel m q -> (locked m = true <-> q <> []).
Proof. intros [-> _]. apply bool_decide_eq_true. Qed.

Lemma rel_lock m q h :
  rel m q ->
  fst (lock h m) = bool_decide (q = []) /\ rel (snd (lock h m)) (q ++ [h]).
Proof.
  destruct m as [l w]. intros [Hl Hw]. simpl in *. subst l w. by destruct q.
Qed.

Lemma rel_unlock m q :
  rel m q -> q <> [] ->
  fst (unlock m) = head (tail q) /\ rel (snd (unlock m)) (tail q).
Proof.
  destruct m as [l w]. intros [Hl Hw] Hq. simpl in *. subst l w.
  by destruct q as [|h0 [|h1 q]].
Qed.

Lemma rel_run1 o m q :
  rel m q -> (o = Unlock -> q <> []) ->
  fst (run1 o m) = fst (spec1 o q) /\ rel (snd (run1 o m)) (snd (spec1 o q)).
Proof.
  intros Hrel Ho. destruct o as [h|]; simpl.
  - destruct (rel_lock _ _ h Hrel) as [H1 H2]. destruct (lock h m) as [b m']. simpl in *.
    subst b. split; [|done]. destruct q; done.
  - apply rel_unlock; auto.
Qed.

Lemma releases_lock h os : releases (Lock h :: os) = releases os.
Proof. done. Qed.
Lemma releases_unlock os : releases (Unlock :: os) = S (releases os).
Proof. done. Qed.

(** Grants followed by whoever still waits are the requests in order, and the queue
    is what was asked for and not released. *)
Lemma run_grants os m q :
  rel m q -> disciplined os q ->
  exists q', rel (snd (run os m)) q' /\
    option_list (head q) ++ fst (run os m) ++ tail q' = q ++ requests os /\
    length q' + releases os = length q + length (requests os).
Proof.
  revert m q. induction os as [|o os IH]; intros m q Hrel Hd; simpl.
  { exists q. split; [done|]. unfold requests, releases. simpl.
    destruct q; rewrite ?app_nil_r; simpl; split; done || lia. }
  destruct Hd as [Ho Hd]. destruct (rel_run1 o m q Hrel Ho) as [Hg Hrel'].
  destruct (run1 o m) as [g m'] eqn:E1. simpl in *.
  destruct (IH _ _ Hrel' Hd) as (q' & Hrel'' & Hgr & Hlen).
  destruct (run os m') as [gs m''] eqn:E2. simpl in *.
  exists q'. split; [done|]. subst g. clear E1 E2. destruct o as [h|]; simpl in *.
  - rewrite releases_lock. rewrite length_app in Hlen.
    change (requests (Lock h :: os)) with (h :: requests os).
    simpl in *. split; [|lia]. replace (q ++ h :: requests os) with ((q ++ [h]) ++ requests os) by (by rewrite <- app_assoc).
    rewrite <- Hgr. by destruct q.
  - rewrite releases_unlock.
    change (requests (Unlock :: os)) with (requests os).
    destruct q as [|a q]; [by destruct Ho|]. simpl in *.
    split; [|lia]. f_equal. by rewrite <- Hgr, app_assoc.
Qed.

(** *** Where a coroutine stands in the queue of the lock *)

Inductive place := Outside | InLine | Holding.

Definition stands (q : list handle) (h : handle) (pl : place) : Prop :=
  match pl with
  | Outside => h ∉ q
  | InLine => h ∈ tail q
  | Holding => head q = Some h
  end.

(** Joining the line does not move the others. *)
Lemma stands_snoc q h i pl : i <> h -> stands q i pl -> stands (q ++ [h]) i pl.
Proof.
  intros Hne. destruct pl, q; simpl; try done; rewrite ?elem_of_app; try tauto;
    rewrite ?not_elem_of_cons, ?not_elem_of_app, ?list_elem_of_singleton;
    [intros; split; [done|apply not_elem_of_nil]|naive_solver].
Qed.

(** The head leaves: only the next in line moves. *)
Lemma stands_tail h q i pl :
  NoDup (h :: q) -> i <> h -> head q <> Some i -> stands (h :: q) i pl -> stands q i pl.
Proof.
  intros [_ Hnd]%list.NoDup_cons Hne Hhd. destruct pl; simpl; [|destruct q as [|a q]; simpl in *|congruence].
  - rewrite not_elem_of_cons. tauto.
  - done.
  - rewrite elem_of_cons. intros [->|]; [done|done].
Qed.
End Mutex.

(** ** [class WaitGroup] *)
Module WaitGroup.
Record t := Mk {
  remaining : Z;            (** [_remaining], an [int]: within its range below 2^31 handlers *)
  waiter : option handle;   (** [_waiter] *)
}.

Definition init : t := Mk 0 None.

Definition add (n : Z) (wg : t) : t := Mk (remaining wg + n) (waiter wg).

(** [done()]: the coroutine to resume, when this was the last one. *)
Definition done (wg : t) : option handle * t :=
  let r := (remaining wg - 1)%Z in
  match waiter wg with
  | Some h => if bool_decide (r <= 0)%Z then (Some h, Mk r None) else (None, Mk r (Some h))
  | None => (None, Mk r None)
  end.

(** [Awaiter::await_ready]. *)
Definition await_ready (wg : t) : bool := bool_decide (remaining wg <= 0)%Z.

(** [Awaiter::await_suspend]. *)
Definition await_suspend (h : handle) (wg : t) : t := Mk (remaining wg) (Some h).

(** [co_await wg.wait()] by [h]: [true] when it goes on at once. *)
Definition wait (h : handle) (wg : t) : bool * t :=
  if await_ready wg then (true, wg) else (false, await_suspend h wg).

(** [n] tasks finish one after the other. *)
Fixpoint dones (n : nat) (wg : t) : list (option handle) * t :=
  match n with
  | O => ([], wg)
  | S n =>
      let '(r, wg1) := done wg in
      let '(rs, wg2) := dones n wg1 in
      (r :: rs, wg2)
  end.

Lemma done_not_last r h :
  (1 < r)%Z -> done (Mk r (Some h)) = (None, Mk (r - 1) (Some h)).
Proof. intros. unfold done. simpl. by rewrite bool_decide_false by lia. Qed.

Lemma done_last h : done (Mk 1 (Some h)) = (Some h, Mk 0 None).
Proof. done. Qed.

Lemma dones_add n m wg :
  dones (n + m) wg =
    let '(r1, wg1) := dones n wg in
    let '(r2, wg2) := dones m wg1 in
    (r1 ++ r2, wg2).
Proof.
  revert wg. induction n as [|n IH]; intros wg; cbn [dones Nat.add]; [by destruct (dones m wg)|].
  destruct (done wg) as [r wg1]. rewrite IH.
  destruct (dones n wg1) as [r1 wg2]. by destruct (dones m wg2).
Qed.

Lemma done_no_waiter r : done (Mk r None) = (None, Mk (r - 1) None).
Proof. done. Qed.

Lemma dones_no_waiter n r :
  dones n (Mk r None) = (replicate n None, Mk (r - Z.of_nat n) None).
Proof.
  revert r. induction n as [|n IH]; intros r; cbn [dones replicate]; [by rewrite Z.sub_0_r|].
  rewrite done_no_waiter, IH. do 2 f_equal; lia.
Qed.

Lemma dones_waiting n r h :
  (Z.of_nat n < r)%Z ->
  dones n (Mk r (Some h)) = (replicate n None, Mk (r - Z.of_nat n) (Some h)).
Proof.
  revert r. induction n as [|n IH]; intros r Hr; cbn [dones replicate].
  - by rewrite Z.sub_0_r.
  - rewrite done_not_last by lia. rewrite IH by lia. do 2 f_equal; lia.
Qed.
End WaitGroup.

(** C34: the mutex grants in order and to one coroutine at a time. Along any sequence of
    [lock]/[unlock] in which only a holder unlocks, starting from a fresh mutex, the
    grants made so far followed by the coroutines still queued are exactly the lock
    requests in the order they were made (nobody is skipped, duplicated or lost); and the
    grants exceed the releases by one while the mutex is locked and by none while it is
    free, so two coroutines never hold it together. *)
Theorem mutex_fifo_exclusive (os : list Mutex.op) :
  Mutex.disciplined os [] ->
  let '(grants, m) := Mutex.run os Mutex.init in
  grants ++ Mutex.waiters m = Mutex.requests os /\
  length grants = Mutex.releases os + Nat.b2n (Mutex.locked m).
Proof.
  intros Hd. destruct (Mutex.run_grants os _ _ Mutex.rel_init Hd) as (q' & [Hl Hw] & Hg & Hn).
  destruct (Mutex.run os Mutex.init) as [gs m]. simpl in *. rewrite Hw. split; [done|].
  rewrite Hl. rewrite <- Hg, length_app in Hn. destruct q' as [|h q']; simpl in *; lia.
Qed.

Lemma mutex_fifo_exclusive_witness :
  let os := [Mutex.Lock 1; Mutex.Lock 2; Mutex.Lock 3; Mutex.Unlock] in
  Mutex.disciplined os [] /\
  fst (Mutex.run os Mutex.init) ++ Mutex.waiters (snd (Mutex.run os Mutex.init)) = [1; 2; 3] /\
  length (fst (Mutex.run os Mutex.init)) = 2.
Proof.
  split.
  - simpl. naive_solver.
  - apply (mutex_fifo_exclusive [Mutex.Lock 1; Mutex.Lock 2; Mutex.Lock 3; Mutex.Unlock]).
    simpl. naive_solver.
Defined.

(** A wait group wakes its waiter exactly once and exactly at the end. With [k + 1]
    tasks added and a coroutine suspended in [wait], the first [k] calls of [done()]
    resume nobody, the last one resumes that coroutine, and no later [done()] resumes it
    again. *)
Theorem wait_group_wakes_at_last_done (k extra : nat) (h : handle) :
  let '(now, wg) := WaitGroup.wait h (WaitGroup.add (Z.of_nat (S k)) WaitGroup.init) in
  now = false /\
  fst (WaitGroup.dones (S k + extra) wg) =
    replicate k None ++ [Some h] ++ replicate extra None.
Proof.
  unfold WaitGroup.wait, WaitGroup.await_ready.
  cbn [WaitGroup.remaining WaitGroup.add WaitGroup.init].
  rewrite bool_decide_false by lia. split; [done|].
  unfold WaitGroup.await_suspend. cbn [WaitGroup.remaining WaitGroup.add WaitGroup.init].
  replace (S k + extra) with (k + (1 + extra)) by lia.
  rewrite WaitGroup.dones_add.
  rewrite WaitGroup.dones_waiting by lia.
  rewrite WaitGroup.dones_add. replace (0 + Z.of_nat (S k) - Z.of_nat k)%Z with 1%Z by lia.
  cbn [WaitGroup.dones]. rewrite WaitGroup.done_last. by rewrite WaitGroup.dones_no_waiter.
Qed.
