(* ===== verification/RecvStream.v ===== *)
(** * The receive-stream interface ([easyio/recv_stream.hpp])

    [RecvStream] is the abstract class: the four hooks a backend implements and the two
    awaiters built on them. [RecvStreamLaws] is what a backend promises to its reader:
    the stream is a FIFO of received bytes with an optional end, completions only append
    to it, a suspended reader is woken as soon as there is something to take, and the
    bytes behind the spans handed out stay put until the reader comes back. [FramedReader]
    and the connections are proved against the laws; the backends discharge them. *)

From S2P Require Import Prelude.

(** [struct RecvStream::Chunk]: the bytes its span shows when it is handed out. *)
Record Chunk := MkChunk {
  data : list Byte.byte; (** [std::span<const std::byte> data]: empty at EOF *)
  error : Z;             (** [int error]: 0, else [-errno] *)
}.

#[export] Instance Chunk_eq_dec : EqDecision Chunk.
Proof. solve_decision. Defined.

(** The backend hooks: [_ready], [_arm], [_take], [_take_batch] (capacity of [out],
    [max_bytes]). *)
Class RecvStream (St : Type) := {
  rs_ready : St -> bool * St;
  rs_arm : handle -> St -> St;
  rs_take : St -> Chunk * St;
  rs_take_batch : nat -> nat -> St -> list Chunk * St;
}.

(** [co_await stream.next()] by [h] ([Awaiter]): the chunk, or [None] when [h] is
    suspended; a resumed [h] gets its chunk from [rs_take]. *)
Definition await_next `{RecvStream St} (h : handle) (s : St) : option Chunk * St :=
  let '(rdy, s1) := rs_ready s in
  if rdy then let '(c, s2) := rs_take s1 in (Some c, s2)
  else (None, rs_arm h s1).

(** [co_await stream.next_batch(out, max_bytes)] ([BatchAwaiter]). *)
Definition await_next_batch `{RecvStream St} (h : handle) (cap max_bytes : nat) (s : St)
    : option (list Chunk) * St :=
  let '(rdy, s1) := rs_ready s in
  if rdy then let '(cs, s2) := rs_take_batch cap max_bytes s1 in (Some cs, s2)
  else (None, rs_arm h s1).

(** What the terminal chunk of a stream is: [Some 0] at EOF, [Some (-errno)] on failure. *)
Definition end_chunk (e : Z) : Chunk := MkChunk [] e.

Definition chunk_good (c : Chunk) : Prop := data c <> [] /\ error c = 0%Z.

(** A batch only grows while fewer than [max] bytes have been gathered. *)
Fixpoint batch_fits (max : nat) (cs : list Chunk) : Prop :=
  match cs with
  | [] => True
  | c :: cs => 0 < max /\ batch_fits (max - length (data c)) cs
  end.

Definition batch_bytes (cs : list Chunk) : list Byte.byte := mjoin (data <$> cs).

Lemma batch_bytes_nil : batch_bytes [] = [].
Proof. done. Qed.

Lemma batch_bytes_cons c cs : batch_bytes (c :: cs) = data c ++ batch_bytes cs.
Proof. done. Qed.

Lemma batch_bytes_nonempty cs : Forall chunk_good cs -> cs <> [] -> batch_bytes cs <> [].
Proof.
  intros [|c cs' [Hd _] _] Hne; [done|]. unfold batch_bytes. simpl.
  destruct (data c); naive_solver.
Qed.

(** The laws. [rs_queue] are the bytes received and not yet handed out, [rs_final] the
    end seen behind them, [rs_waiter] the armed reader, [rs_lent] what is read through
    the spans handed out since the last [_ready]; [rs_complete] is one completion of the
    backend's operation by the kernel (allowed by [rs_event_ok]), which may resume the
    reader. *)
Class RecvStreamLaws (St : Type) `{RecvStream St} := {
  rs_inv : St -> Prop;
  rs_queue : St -> list Byte.byte;
  rs_final : St -> option Z;
  rs_waiter : St -> option handle;
  rs_lent : St -> list (list Byte.byte);
  rs_event : Type;
  rs_event_ok : rs_event -> St -> Prop;
  rs_complete : rs_event -> St -> St * option handle;

  rs_waiter_idle s : rs_inv s -> is_Some (rs_waiter s) -> rs_queue s = [] /\ rs_final s = None;

  rs_ready_law s : rs_inv s ->
    let '(rdy, s') := rs_ready s in
    rs_inv s' /\ rs_queue s' = rs_queue s /\ rs_final s' = rs_final s /\
    rs_waiter s' = rs_waiter s /\ rs_lent s' = [] /\
    rdy = bool_decide (rs_queue s <> [] \/ is_Some (rs_final s));

  rs_arm_law h s : rs_inv s -> rs_queue s = [] -> rs_final s = None -> rs_lent s = [] ->
    rs_inv (rs_arm h s) /\ rs_queue (rs_arm h s) = [] /\ rs_final (rs_arm h s) = None /\
    rs_waiter (rs_arm h s) = Some h /\ rs_lent (rs_arm h s) = rs_lent s;

  rs_take_batch_law cap max s : rs_inv s -> 0 < cap -> 0 < max -> rs_waiter s = None ->
    let '(cs, s') := rs_take_batch cap max s in
    rs_inv s' /\ rs_final s' = rs_final s /\ rs_waiter s' = None /\
    (rs_queue s <> [] ->
       cs <> [] /\ length cs <= cap /\ Forall chunk_good cs /\ batch_fits max cs /\
       rs_queue s = batch_bytes cs ++ rs_queue s' /\
       rs_lent s' = rs_lent s ++ (data <$> cs)) /\
    (forall e, rs_queue s = [] -> rs_final s = Some e ->
       cs = [end_chunk e] /\ rs_queue s' = []);

  rs_take_law s : rs_inv s -> rs_waiter s = None ->
    let '(c, s') := rs_take s in
    rs_inv s' /\ rs_final s' = rs_final s /\ rs_waiter s' = None /\
    (rs_queue s <> [] ->
       chunk_good c /\ rs_queue s = data c ++ rs_queue s' /\ rs_lent s' = rs_lent s ++ [data c]) /\
    (forall e, rs_queue s = [] -> rs_final s = Some e -> c = end_chunk e /\ rs_queue s' = []);

  rs_complete_law ev s : rs_inv s -> rs_event_ok ev s ->
    let '(s', woken) := rs_complete ev s in
    rs_inv s' /\ rs_lent s' = rs_lent s /\
    (exists d, rs_queue s' = rs_queue s ++ d /\ (is_Some (rs_final s) -> d = [])) /\
    (is_Some (rs_final s) -> rs_final s' = rs_final s) /\
    (forall h, woken = Some h <->
       rs_waiter s = Some h /\ (rs_queue s' <> [] \/ is_Some (rs_final s'))) /\
    rs_waiter s' = (match woken with Some _ => None | None => rs_waiter s end);
}.

(** A stream in use: its reader awaits it, or takes what it was woken for, one call at a
    time; the kernel completes the backend's operations in between. *)
Section use.
Context {St : Type} `{RecvStreamLaws St}.

Inductive use : St -> St -> Prop :=
  | use_next h s : rs_waiter s = None -> use s (await_next h s).2
  | use_next_batch h cap max s :
      rs_waiter s = None -> 0 < cap -> 0 < max -> use s (await_next_batch h cap max s).2
  | use_take s :
      rs_waiter s = None -> rs_queue s <> [] \/ is_Some (rs_final s) -> use s (rs_take s).2
  | use_take_batch cap max s :
      rs_waiter s = None -> rs_queue s <> [] \/ is_Some (rs_final s) -> 0 < cap -> 0 < max ->
      use s (rs_take_batch cap max s).2
  | use_complete ev s : rs_event_ok ev s -> use s (rs_complete ev s).1.

Lemma take_inv s : rs_inv s -> rs_waiter s = None -> rs_inv (rs_take s).2.
Proof. intros Hok Hw. pose proof (rs_take_law s Hok Hw). destruct (rs_take s). naive_solver. Qed.

Lemma take_batch_inv cap max s :
  rs_inv s -> rs_waiter s = None -> 0 < cap -> 0 < max -> rs_inv (rs_take_batch cap max s).2.
Proof.
  intros Hok Hw Hcap Hmax. pose proof (rs_take_batch_law cap max s Hok Hcap Hmax Hw).
  destruct (rs_take_batch cap max s). naive_solver.
Qed.

(** An await runs [_ready] and then takes or suspends. *)
Lemma await_inv {A} h (take : St -> A * St) s :
  rs_inv s -> rs_waiter s = None ->
  (forall s, rs_inv s -> rs_waiter s = None -> rs_inv (take s).2) ->
  rs_inv (let '(rdy, s1) := rs_ready s in
          if rdy then let '(a, s2) := take s1 in (Some a, s2) else (None, rs_arm h s1)).2.
Proof.
  intros Hok Hw Htake. pose proof (rs_ready_law s Hok) as Hready.
  destruct (rs_ready s) as [rdy s1]. destruct Hready as (Hok1 & Hq1 & Hf1 & Hw1 & Hl1 & ->).
  case_bool_decide as Hsome.
  - rewrite Hw in Hw1. pose proof (Htake s1 Hok1 Hw1). by destruct (take s1).
  - rewrite <- Hq1, <- Hf1 in Hsome.
    apply (rs_arm_law h s1 Hok1); [apply dec_stable; auto|apply eq_None_not_Some; auto|done].
Qed.

Lemma use_inv s s' : rs_inv s -> use s s' -> rs_inv s'.
Proof.
  intros Hok Huse. destruct Huse as [h s Hw|h cap max s Hw Hc Hm|s Hw _|cap max s Hw _ Hc Hm|ev s Hev].
  - apply (await_inv h rs_take); auto using take_inv.
  - apply (await_inv h (rs_take_batch cap max)); auto using take_batch_inv.
  - by apply take_inv.
  - by apply take_batch_inv.
  - pose proof (rs_complete_law ev s Hok Hev). destruct (rs_complete ev s). naive_solver.
Qed.

Lemma uses_inv s s' : rs_inv s -> rtc use s s' -> rs_inv s'.
Proof. intros Hok Huse. exact (rtc_invariant use rs_inv use_inv s s' Huse Hok). Qed.
End use.
