(* ===== verification/FramedReader.v ===== *)
(** * Reassembling messages from chunks ([easyio/src/framed_reader.cpp])

    [read_exact] and [read_exact_into] as coroutines over any [RecvStream]: each function
    runs from a call, or from the point where it was resumed, to its end or to the next
    suspension in [next_batch]. *)

From S2P Require Import Prelude RecvStream.

Definition kBatchCapacity : nat := 64.

(** [class FramedReader], the stream apart. *)
Record FramedReader := MkReader {
  fr_buf : list Byte.byte; (** [_buf] *)
  fr_consumed : nat;       (** [_consumed] *)
}.

Definition reader_init : FramedReader := MkReader [] 0.

(** Where a run of a coroutine stopped. *)
Inductive status (A : Type) :=
  | Done (a : A)      (** [co_return] *)
  | Threw (e : exn)   (** an exception left the body *)
  | Suspended         (** waiting for the stream *)
  | OutOfFuel.
Arguments Done {A} a.
Arguments Threw {A} e.
Arguments Suspended {A}.
Arguments OutOfFuel {A}.

(** The two checks both loops make on a chunk. *)
Definition check_chunk (c : Chunk) : option exn :=
  if bool_decide (error c <> 0%Z) then Some (system_error (- error c))
  else if bool_decide (data c = []) then
    Some (runtime_error "easyio: connection closed mid-message")
  else None.

(** [_buf.erase(begin, begin + _consumed); _consumed = 0]. *)
Definition drop_consumed (r : FramedReader) : FramedReader :=
  MkReader (drop (fr_consumed r) (fr_buf r)) 0.

Section read_exact.
Context {St : Type} `{RecvStream St}.

(** The [for] over the batch in [read_exact]. *)
Fixpoint append_chunks (r : FramedReader) (batch : list Chunk) : FramedReader * option exn :=
  match batch with
  | [] => (r, None)
  | c :: batch =>
      match check_chunk c with
      | Some e => (r, Some e)
      | None => append_chunks (MkReader (fr_buf r ++ data c) (fr_consumed r)) batch
      end
  end.

(** [while (_buf.size() < n)] and what follows it. *)
Fixpoint read_exact_loop (fuel : nat) (h : handle) (n : nat) (r : FramedReader) (s : St)
    : status (list Byte.byte) * FramedReader * St :=
  if bool_decide (length (fr_buf r) < n) then
    match fuel with
    | O => (OutOfFuel, r, s)
    | S fuel =>
        match await_next_batch h kBatchCapacity (n - length (fr_buf r)) s with
        | (None, s') => (Suspended, r, s')
        | (Some batch, s') =>
            match append_chunks r batch with
            | (r', Some e) => (Threw e, r', s')
            | (r', None) => read_exact_loop fuel h n r' s'
            end
        end
    end
  else (Done (take n (fr_buf r)), MkReader (fr_buf r) n, s).

(** [co_await reader.read_exact(n)] by [h]. *)
Definition read_exact (h : handle) (n : nat) (r : FramedReader) (s : St)
    : status (list Byte.byte) * FramedReader * St :=
  let r := drop_consumed r in
  read_exact_loop (n - length (fr_buf r)) h n r s.

(** The resumption of a [read_exact(n)] suspended in [next_batch]. *)
Definition read_exact_resume (h : handle) (n : nat) (r : FramedReader) (s : St)
    : status (list Byte.byte) * FramedReader * St :=
  let '(batch, s') := rs_take_batch kBatchCapacity (n - length (fr_buf r)) s in
  match append_chunks r batch with
  | (r', Some e) => (Threw e, r', s')
  | (r', None) => read_exact_loop (n - length (fr_buf r')) h n r' s'
  end.

(** The locals of a running [read_exact_into]: the caller's buffer and [got]. *)
Record into_frame := MkInto {
  into_dest : list Byte.byte;
  into_got : nat;
}.

(** The [for] over the batch in [read_exact_into]. *)
Fixpoint copy_chunks (n : nat) (f : into_frame) (r : FramedReader) (batch : list Chunk)
    : into_frame * FramedReader * option exn :=
  match batch with
  | [] => (f, r, None)
  | c :: batch =>
      match check_chunk c with
      | Some e => (f, r, Some e)
      | None =>
          let t := Nat.min (length (data c)) (n - into_got f) in
          let f' := MkInto (memcpy_at (into_dest f) (into_got f) (take t (data c)))
                           (into_got f + t) in
          let r' := if bool_decide (t < length (data c)) then MkReader (drop t (data c)) 0 else r in
          copy_chunks n f' r' batch
      end
  end.

(** [while (got < n)]. *)
Fixpoint read_exact_into_loop (fuel : nat) (h : handle) (n : nat) (f : into_frame)
    (r : FramedReader) (s : St) : status unit * into_frame * FramedReader * St :=
  if bool_decide (into_got f < n) then
    match fuel with
    | O => (OutOfFuel, f, r, s)
    | S fuel =>
        match await_next_batch h kBatchCapacity (n - into_got f) s with
        | (None, s') => (Suspended, f, r, s')
        | (Some batch, s') =>
            match copy_chunks n f r batch with
            | (f', r', Some e) => (Threw e, f', r', s')
            | (f', r', None) => read_exact_into_loop fuel h n f' r' s'
            end
        end
    end
  else (Done tt, f, r, s).

(** [co_await reader.read_exact_into(dest, n)] by [h]. *)
Definition read_exact_into (h : handle) (dest : list Byte.byte) (n : nat) (r : FramedReader)
    (s : St) : status unit * into_frame * FramedReader * St :=
  let r := drop_consumed r in
  let '(f, r) :=
    if bool_decide (fr_buf r <> []) then
      let got := Nat.min (length (fr_buf r)) n in
      (MkInto (memcpy_at dest 0 (take got (fr_buf r))) got, MkReader (fr_buf r) got)
    else (MkInto dest 0, r) in
  read_exact_into_loop (n - into_got f) h n f r s.

(** The resumption of a [read_exact_into(dest, n)] suspended in [next_batch]. *)
Definition read_exact_into_resume (h : handle) (n : nat) (f : into_frame) (r : FramedReader)
    (s : St) : status unit * into_frame * FramedReader * St :=
  let '(batch, s') := rs_take_batch kBatchCapacity (n - into_got f) s in
  match copy_chunks n f r batch with
  | (f', r', Some e) => (Threw e, f', r', s')
  | (f', r', None) => read_exact_into_loop (n - into_got f') h n f' r' s'
  end.
End read_exact.

(** ** What the hooks of the stream keep, [read_exact] keeps *)

Section keeps.
Context {St : Type} `{RecvStream St} (Q : St -> Prop).
Hypothesis Q_ready : forall s, Q s -> Q (rs_ready s).2.
Hypothesis Q_arm : forall h s, Q s -> Q (rs_arm h s).
Hypothesis Q_take_batch : forall cap max s, Q s -> Q (rs_take_batch cap max s).2.

Lemma await_next_batch_keeps h cap max s : Q s -> Q (await_next_batch h cap max s).2.
Proof using Q_ready Q_arm Q_take_batch.
  intros HQ%Q_ready. unfold await_next_batch. destruct (rs_ready s) as [[] s1]; simpl in *; [|by apply Q_arm].
  apply (Q_take_batch cap max) in HQ. by destruct (rs_take_batch cap max s1).
Qed.

Lemma read_exact_loop_keeps fuel h n r s : Q s -> Q (read_exact_loop fuel h n r s).2.
Proof using Q_ready Q_arm Q_take_batch.
  revert r s. induction fuel as [|fuel IH]; intros r s HQ; simpl; case_bool_decide; try done.
  apply (await_next_batch_keeps h kBatchCapacity (n - length (fr_buf r))) in HQ.
  destruct (await_next_batch _ _ _ s) as [[cs|] s']; [|done].
  destruct (append_chunks r cs) as [r' [e|]]; [done|by apply IH].
Qed.

Lemma read_exact_keeps h n r s : Q s -> Q (read_exact h n r s).2.
Proof using Q_ready Q_arm Q_take_batch. apply read_exact_loop_keeps. Qed.

Lemma read_exact_resume_keeps h n r s : Q s -> Q (read_exact_resume h n r s).2.
Proof using Q_ready Q_arm Q_take_batch.
  intros HQ. unfold read_exact_resume. apply (Q_take_batch kBatchCapacity (n - length (fr_buf r))) in HQ.
  destruct (rs_take_batch _ _ s) as [cs s']. destruct (append_chunks r cs) as [r' [e|]]; [done|].
  by apply read_exact_loop_keeps.
Qed.
End keeps.

(** ** Correctness against the laws of the stream *)

(** Bytes of the reader's own buffer that were not handed out. *)
Definition fr_rest (r : FramedReader) : list Byte.byte := drop (fr_consumed r) (fr_buf r).

(** The exception a stream end turns into. *)
Definition end_exn (e : Z) : exn :=
  if bool_decide (e <> 0%Z) then system_error (- e)
  else runtime_error "easyio: connection closed mid-message".

Lemma check_chunk_good c : chunk_good c -> check_chunk c = None.
Proof.
  intros [Hd He]. unfold check_chunk. rewrite He.
  by rewrite bool_decide_false, bool_decide_false by naive_solver.
Qed.

Lemma check_end_chunk e : check_chunk (end_chunk e) = Some (end_exn e).
Proof. unfold check_chunk, end_exn. simpl. by case_bool_decide. Qed.

Lemma append_chunks_good r cs :
  Forall chunk_good cs ->
  append_chunks r cs = (MkReader (fr_buf r ++ batch_bytes cs) (fr_consumed r), None).
Proof.
  intros Hcs. revert r. induction Hcs as [|c cs Hc _ IH]; intros [buf k]; simpl.
  { unfold batch_bytes. simpl. by rewrite app_nil_r. }
  rewrite check_chunk_good by done. rewrite IH. unfold batch_bytes. simpl. by rewrite app_assoc.
Qed.

Lemma append_chunks_end r e : append_chunks r [end_chunk e] = (r, Some (end_exn e)).
Proof. cbn [append_chunks]. by rewrite check_end_chunk. Qed.

Lemma copy_chunks_end n f r e : copy_chunks n f r [end_chunk e] = (f, r, Some (end_exn e)).
Proof. cbn [copy_chunks]. by rewrite check_end_chunk. Qed.

(** A batch copied whole: the frame got what it still needed, the reader the rest. *)
Lemma copy_chunks_good n f r cs :
  Forall chunk_good cs -> batch_fits (n - into_got f) cs -> n <= length (into_dest f) ->
  into_got f <= n ->
  copy_chunks n f r cs =
    (MkInto (memcpy_at (into_dest f) (into_got f) (take (n - into_got f) (batch_bytes cs)))
       (Nat.min n (into_got f + length (batch_bytes cs))),
     (if bool_decide (n - into_got f < length (batch_bytes cs))
      then MkReader (drop (n - into_got f) (batch_bytes cs)) 0 else r), None).
Proof.
  intros Hcs. revert f r. induction Hcs as [|c cs Hc _ IH]; intros [dest got] r Hfit Hn Hgot.
  { cbn [copy_chunks into_dest into_got] in *. rewrite batch_bytes_nil, take_nil, memcpy_at_nil.
    rewrite bool_decide_false by (simpl; lia). do 3 f_equal. simpl. lia. }
  cbn [copy_chunks into_dest into_got] in *. rewrite check_chunk_good by done.
  destruct Hfit as [Hpos Hfit]. rewrite batch_bytes_cons, length_app.
  destruct (decide (n - got < length (data c))) as [Hover|Hfits].
  - (* the overshoot: the loop guard makes this the last chunk *)
    assert (cs = []) as -> by (destruct cs; [done|destruct Hfit; lia]).
    rewrite batch_bytes_nil. cbn [copy_chunks length].
    rewrite Nat.min_r, app_nil_r by lia. rewrite !bool_decide_true by lia.
    by replace (got + (n - got)) with (Nat.min n (got + (length (data c) + 0))) by lia.
  - rewrite Nat.min_l by lia. rewrite (bool_decide_false (length (data c) < length (data c))) by lia.
    replace (n - got - length (data c)) with (n - (got + length (data c))) in Hfit by lia.
    assert (n <= length (memcpy_at dest got (data c))) by (rewrite length_memcpy_at; lia).
    rewrite firstn_all, IH by (simpl; done || lia). cbn [into_dest into_got].
    rewrite take_app, (take_ge (data c)) by lia.
    rewrite memcpy_at_app by (rewrite ?length_take; lia).
    replace (n - (got + length (data c))) with (n - got - length (data c)) by lia.
    rewrite drop_app_ge by lia. rewrite (bool_decide_ext (n - got < _) (n - got - length (data c) < length (batch_bytes cs))) by lia.
    do 3 f_equal. lia.
Qed.

Section correctness.
Context {St : Type} `{RecvStreamLaws St}.
Implicit Types (s : St) (r : FramedReader) (f : into_frame) (h : handle).

(** Bytes received and not yet returned by a read. *)
Definition unread r s : list Byte.byte := fr_rest r ++ rs_queue s.

(** What [_take_batch] returns when there is something to take. *)
Lemma take_batch_cases cap max s :
  rs_inv s -> rs_waiter s = None -> 0 < cap -> 0 < max ->
  rs_queue s <> [] \/ is_Some (rs_final s) ->
  let '(cs, s') := rs_take_batch cap max s in
  rs_inv s' /\ rs_final s' = rs_final s /\ rs_waiter s' = None /\
  ((Forall chunk_good cs /\ cs <> [] /\ batch_fits max cs /\
    rs_queue s = batch_bytes cs ++ rs_queue s') \/
   (rs_queue s = [] /\ rs_queue s' = [] /\ exists e, rs_final s = Some e /\ cs = [end_chunk e])).
Proof.
  intros Hinv Hw Hcap Hmax Hsome.
  pose proof (rs_take_batch_law cap max s Hinv Hcap Hmax Hw) as Hlaw.
  destruct (rs_take_batch cap max s) as [cs s'].
  destruct Hlaw as (? & ? & ? & Hdata & Hend). split_and!; try done.
  destruct (decide (rs_queue s = [])) as [Hq|Hq].
  - destruct Hsome as [?|[e He]]; [done|]. destruct (Hend e Hq He) as [-> ?]. eauto 10.
  - destruct (Hdata Hq) as (? & _ & ? & ? & ? & _). auto 10.
Qed.

(** What a [co_await next_batch] does: suspend on a silent stream, else take. *)
Lemma await_next_batch_cases h cap max s :
  rs_inv s -> rs_waiter s = None -> 0 < cap -> 0 < max ->
  match await_next_batch h cap max s with
  | (None, s') =>
      rs_queue s = [] /\ rs_final s = None /\ rs_inv s' /\ rs_queue s' = [] /\
      rs_final s' = None /\ rs_waiter s' = Some h
  | (Some cs, s') =>
      rs_inv s' /\ rs_final s' = rs_final s /\ rs_waiter s' = None /\
      ((Forall chunk_good cs /\ cs <> [] /\ batch_fits max cs /\
        rs_queue s = batch_bytes cs ++ rs_queue s') \/
       (rs_queue s = [] /\ rs_queue s' = [] /\
        exists e, rs_final s = Some e /\ cs = [end_chunk e]))
  end.
Proof.
  intros Hinv Hw Hcap Hmax. unfold await_next_batch.
  pose proof (rs_ready_law s Hinv) as Hready.
  destruct (rs_ready s) as [rdy s1]. destruct Hready as (Hinv1 & Hq1 & Hf1 & Hw1 & Hl1 & Hrdy).
  rewrite <- Hq1, <- Hf1, Hw in *. rewrite Hrdy. case_bool_decide as Hsome.
  - pose proof (take_batch_cases cap max s1 Hinv1 Hw1 Hcap Hmax Hsome) as Htb.
    by destruct (rs_take_batch cap max s1).
  - assert (Hq : rs_queue s1 = []) by (apply dec_stable; auto).
    assert (Hf : rs_final s1 = None) by (apply eq_None_not_Some; auto).
    destruct (rs_arm_law h s1 Hinv1 Hq Hf Hl1) as (? & ? & ? & ? & _). by split_and!.
Qed.

(** Outcome of (a segment of) [read_exact(n)] from [u] unread bytes and stream end [fin]. *)
Definition read_post h n (u : list Byte.byte) (fin : option Z)
    (res : status (list Byte.byte) * FramedReader * St) : Prop :=
  let '(st, r', s') := res in
  rs_inv s' /\ rs_final s' = fin /\
  match st with
  | Done bs =>
      n <= length u /\ bs = take n u /\ unread r' s' = drop n u /\ rs_waiter s' = None
  | Threw e =>
      length u < n /\ rs_waiter s' = None /\ exists err, fin = Some err /\ e = end_exn err
  | Suspended =>
      length u < n /\ fin = None /\ rs_waiter s' = Some h /\
      fr_consumed r' = 0 /\ fr_buf r' = u /\ rs_queue s' = []
  | OutOfFuel => False
  end.

Lemma read_exact_loop_spec fuel h n r s :
  rs_inv s -> rs_waiter s = None -> fr_consumed r = 0 -> n - length (fr_buf r) <= fuel ->
  read_post h n (unread r s) (rs_final s) (read_exact_loop fuel h n r s).
Proof.
  revert r s. induction fuel as [|fuel IH]; intros [buf k] s Hinv Hw Hk Hfuel;
    simpl in Hk; subst k; unfold unread, fr_rest; cbn [fr_buf fr_consumed] in *;
    rewrite drop_0; cbn [read_exact_loop fr_buf].
  all: case_bool_decide as Hn; [|cbn; split_and!; try done;
    [by rewrite length_app; lia | by rewrite take_app_le' by lia
    |by unfold unread, fr_rest; simpl; rewrite drop_app_le by lia]].
  { lia. }
  pose proof (await_next_batch_cases h kBatchCapacity (n - length buf) s Hinv Hw) as Hcases.
  destruct (await_next_batch h kBatchCapacity (n - length buf) s) as [[cs|] s'].
  - destruct Hcases as (Hinv' & Hf' & Hw' & [(Hgood & Hne & _ & Hq)|(Hq & Hq' & e & He & ->)]);
      [unfold kBatchCapacity; lia|lia|..].
    + rewrite append_chunks_good by done. cbn [fr_buf fr_consumed].
      rewrite Hq, app_assoc, <- Hf'.
      pose proof (batch_bytes_nonempty _ Hgood Hne).
      assert (0 < length (batch_bytes cs)) by (destruct (batch_bytes cs); simpl; [done|lia]).
      specialize (IH (MkReader (buf ++ batch_bytes cs) 0) s' Hinv' Hw' eq_refl).
      unfold unread, fr_rest in IH. cbn [fr_buf fr_consumed] in IH. rewrite drop_0 in IH.
      apply IH. rewrite length_app. lia.
    + rewrite append_chunks_end. cbn. rewrite Hq, app_nil_r. split_and!; eauto.
  - destruct Hcases as (Hq & Hf & ? & ? & ? & ?); [unfold kBatchCapacity; lia|lia|].
    cbn. rewrite Hq, app_nil_r. split_and!; try done. by rewrite Hf.
Qed.

Lemma unread_drop_consumed r s : unread (drop_consumed r) s = unread r s.
Proof. unfold unread, fr_rest, drop_consumed. simpl. by rewrite drop_0. Qed.

Lemma read_exact_spec h n r s :
  rs_inv s -> rs_waiter s = None ->
  read_post h n (unread r s) (rs_final s) (read_exact h n r s).
Proof.
  intros. unfold read_exact. rewrite <- unread_drop_consumed.
  by apply read_exact_loop_spec.
Qed.

(** A suspended [read_exact(n)] holds all unread bytes in [_buf]; it is resumed when
    the stream has something. *)
Lemma read_exact_resume_spec h n r s :
  rs_inv s -> rs_waiter s = None -> fr_consumed r = 0 -> length (fr_buf r) < n ->
  rs_queue s <> [] \/ is_Some (rs_final s) ->
  read_post h n (unread r s) (rs_final s) (read_exact_resume h n r s).
Proof.
  destruct r as [buf k]. simpl. intros Hinv Hw -> Hn Hsome. unfold read_exact_resume. simpl.
  pose proof (take_batch_cases kBatchCapacity (n - length buf) s Hinv Hw) as Hcases.
  destruct (rs_take_batch kBatchCapacity (n - length buf) s) as [cs s'].
  destruct Hcases as (Hinv' & Hf' & Hw' & [(Hgood & Hne & _ & Hq)|(Hq & Hq' & e & He & ->)]);
    [unfold kBatchCapacity; lia|lia|done|..].
  - rewrite append_chunks_good by done. cbn [fr_buf fr_consumed]. rewrite <- Hf'.
    pose proof (read_exact_loop_spec (n - length (buf ++ batch_bytes cs)) h n
      (MkReader (buf ++ batch_bytes cs) 0) s' Hinv' Hw' eq_refl) as Hloop.
    unfold unread, fr_rest in *. simpl in *. rewrite Hq, app_assoc. auto.
  - rewrite append_chunks_end. unfold unread, fr_rest. simpl.
    rewrite Hq, app_nil_r. split_and!; eauto.
Qed.

(** The same for [read_exact_into]: bytes already copied, then bytes unread. *)
Definition into_total f r s : list Byte.byte := take (into_got f) (into_dest f) ++ unread r s.

(** A [read_exact_into] that still waits has emptied the reader's buffer. *)
Definition into_ok n f r : Prop :=
  into_got f <= n /\ n <= length (into_dest f) /\ (into_got f < n -> fr_rest r = []).

Definition into_post h n (cap : nat) (t : list Byte.byte) (fin : option Z)
    (res : status unit * into_frame * FramedReader * St) : Prop :=
  let '(st, f', r', s') := res in
  rs_inv s' /\ rs_final s' = fin /\ length (into_dest f') = cap /\
  match st with
  | Done _ =>
      n <= length t /\ into_got f' = n /\ take n (into_dest f') = take n t /\
      unread r' s' = drop n t /\ rs_waiter s' = None
  | Threw e =>
      length t < n /\ rs_waiter s' = None /\ exists err, fin = Some err /\ e = end_exn err
  | Suspended =>
      length t < n /\ fin = None /\ rs_waiter s' = Some h /\ into_ok n f' r' /\
      into_got f' < n /\ into_total f' r' s' = t
  | OutOfFuel => False
  end.

(** One batch keeps the bytes in order, and makes progress. *)
Lemma copy_chunks_total n f r s s' cs :
  Forall chunk_good cs -> cs <> [] -> batch_fits (n - into_got f) cs ->
  into_ok n f r -> into_got f < n -> rs_queue s = batch_bytes cs ++ rs_queue s' ->
  exists f' r', copy_chunks n f r cs = (f', r', None) /\ into_ok n f' r' /\
    length (into_dest f') = length (into_dest f) /\ into_got f < into_got f' /\
    into_total f' r' s' = into_total f r s.
Proof.
  intros Hgood Hne Hfit (Hgot & Hn & Hrest) Hlt Hq.
  eexists _, _. split; [by apply copy_chunks_good|].
  pose proof (batch_bytes_nonempty _ Hgood Hne) as Hbs.
  set (bs := batch_bytes cs) in *. clearbody bs.
  assert (0 < length bs) by (destruct bs; simpl; [done|lia]).
  assert (Hl : length (memcpy_at (into_dest f) (into_got f) (take (n - into_got f) bs)) =
               length (into_dest f)) by (rewrite length_memcpy_at; [done|rewrite length_take; lia]).
  unfold into_ok, into_total, unread. cbn [into_dest into_got]. rewrite Hl, Hq, Hrest by done.
  set (k := n - into_got f) in *. split_and!; try lia.
  - case_bool_decide; [lia|auto].
  - replace (Nat.min n (into_got f + length bs)) with (into_got f + length (take k bs))
      by (rewrite length_take; lia).
    rewrite take_memcpy_at by (rewrite length_take; lia). rewrite <- app_assoc. f_equal.
    case_bool_decide.
    + unfold fr_rest. simpl. rewrite drop_0, app_assoc. by rewrite take_drop.
    + rewrite Hrest by done. by rewrite take_ge by lia.
Qed.

Lemma into_loop_spec fuel h n f r s :
  rs_inv s -> rs_waiter s = None -> into_ok n f r -> n - into_got f <= fuel ->
  into_post h n (length (into_dest f)) (into_total f r s) (rs_final s)
    (read_exact_into_loop fuel h n f r s).
Proof.
  revert f r s. induction fuel as [|fuel IH]; intros f r s Hinv Hw Hok Hfuel;
    cbn [read_exact_into_loop]; pose proof Hok as (Hgot & Hn & Hrest).
  all: case_bool_decide as Hlt; [|
    assert (into_got f = n) as Heq by lia; unfold into_total; rewrite Heq; cbn;
    rewrite length_app, length_take; split_and!; try done;
    [lia|rewrite take_app_le', take_take by (rewrite length_take; lia); f_equal; lia
    |by rewrite drop_app_length' by (rewrite length_take; lia)]].
  { lia. }
  pose proof (await_next_batch_cases h kBatchCapacity (n - into_got f) s Hinv Hw) as Hcases.
  destruct (await_next_batch h kBatchCapacity (n - into_got f) s) as [[cs|] s'].
  - destruct Hcases as (Hinv' & Hf' & Hw' & [(Hgood & Hne & Hfit & Hq)|(Hq & Hq' & e & He & ->)]);
      [unfold kBatchCapacity; lia|lia|..].
    + destruct (copy_chunks_total n f r s s' cs) as (f' & r' & -> & Hok' & Hl & Hlt' & <-); auto.
      rewrite <- Hl, <- Hf'. apply IH; auto. lia.
    + rewrite copy_chunks_end. cbn. unfold into_total, unread.
      rewrite Hrest, Hq, app_nil_r, length_take by done. split_and!; eauto; lia.
  - destruct Hcases as (Hq & Hf & ? & ? & ? & ?); [unfold kBatchCapacity; lia|lia|].
    cbn. unfold into_total, unread. rewrite Hrest, Hq, length_app, length_take by done.
    split_and!; try congruence; simpl; lia || done.
Qed.

Lemma read_exact_into_spec h dest n r s :
  rs_inv s -> rs_waiter s = None -> n <= length dest ->
  into_post h n (length dest) (unread r s) (rs_final s) (read_exact_into h dest n r s).
Proof.
  intros Hinv Hw Hn. unfold read_exact_into. rewrite <- unread_drop_consumed.
  destruct (drop_consumed r) as [buf k] eqn:Er.
  assert (k = 0) as -> by (unfold drop_consumed in Er; by simplify_eq).
  unfold unread, fr_rest. cbn [fr_buf fr_consumed]. rewrite drop_0.
  case_bool_decide as Hbuf; cbn [into_got].
  - set (got := Nat.min (length buf) n).
    assert (Hg : length (take got buf) = got) by (rewrite length_take; lia).
    rewrite <- (length_memcpy_at dest 0 (take got buf)) by lia.
    set (f := MkInto (memcpy_at dest 0 (take got buf)) got).
    replace (buf ++ rs_queue s) with (into_total f (MkReader buf got) s).
    2:{ unfold into_total, unread, fr_rest, f. cbn [into_got into_dest fr_buf fr_consumed].
        pose proof (take_memcpy_at dest 0 (take got buf)) as Htm.
        rewrite Hg, Nat.add_0_l in Htm. rewrite Htm, take_0 by lia. simpl. by rewrite app_assoc, take_drop. }
    apply (into_loop_spec _ h n f); auto. split_and!; simpl.
    + lia.
    + by rewrite length_memcpy_at by lia.
    + intros. unfold fr_rest. simpl. apply drop_ge. lia.
  - subst buf.
    apply (into_loop_spec _ h n (MkInto dest 0) (MkReader [] 0)); auto.
    split_and!; simpl; auto with lia.
Qed.

Lemma read_exact_into_resume_spec h n f r s :
  rs_inv s -> rs_waiter s = None -> into_ok n f r -> into_got f < n ->
  rs_queue s <> [] \/ is_Some (rs_final s) ->
  into_post h n (length (into_dest f)) (into_total f r s) (rs_final s)
    (read_exact_into_resume h n f r s).
Proof.
  intros Hinv Hw Hok Hlt Hsome. unfold read_exact_into_resume.
  pose proof Hok as (Hgot & Hn & Hrest).
  pose proof (take_batch_cases kBatchCapacity (n - into_got f) s Hinv Hw) as Hcases.
  destruct (rs_take_batch kBatchCapacity (n - into_got f) s) as [cs s'].
  destruct Hcases as (Hinv' & Hf' & Hw' & [(Hgood & Hne & Hfit & Hq)|(Hq & Hq' & e & He & ->)]);
    [unfold kBatchCapacity; lia|lia|done|..].
  - destruct (copy_chunks_total n f r s s' cs) as (f' & r' & -> & Hok' & Hl & _ & <-); auto.
    rewrite <- Hl, <- Hf'. apply into_loop_spec; auto.
  - rewrite copy_chunks_end. cbn. unfold into_total, unread.
    rewrite Hrest, Hq, app_nil_r, length_take by done. split_and!; eauto; lia.
Qed.
End correctness.

(** ** A client of the reader *)

(** A coroutine that makes a list of reads, one after the other, as the parsers do. *)
Inductive call := CExact (n : nat) | CInto (n : nat).

Definition call_size (c : call) : nat := match c with CExact n | CInto n => n end.

(** What the reads return of the bytes [bs] received so far, whatever the chunking. *)
Fixpoint reference (cs : list call) (bs : list Byte.byte) : list (list Byte.byte) :=
  match cs with
  | [] => []
  | c :: cs =>
      if bool_decide (call_size c <= length bs)
      then take (call_size c) bs :: reference cs (drop (call_size c) bs)
      else []
  end.

(** The read the client is suspended in. *)
Inductive active := AExact (n : nat) | AInto (n : nat) (f : into_frame).

Record client (St : Type) := MkClient {
  cl_stream : St;
  cl_reader : FramedReader;
  cl_active : option active;
  cl_todo : list call;
  cl_out : list (list Byte.byte);
  cl_exn : option exn;
}.
Arguments MkClient {St}.
Arguments cl_stream {St}.
Arguments cl_reader {St}.
Arguments cl_active {St}.
Arguments cl_todo {St}.
Arguments cl_out {St}.
Arguments cl_exn {St}.

Section client.
Context {St : Type} `{RecvStreamLaws St}.
Implicit Types s : St.

(** The coroutine's handle. *)
Definition me : handle := 0.

(** Run the reads [todo] until one suspends or throws. *)
Fixpoint drive (todo : list call) (r : FramedReader) s (out : list (list Byte.byte))
    : client St :=
  match todo with
  | [] => MkClient s r None [] out None
  | CExact n :: todo =>
      match read_exact me n r s with
      | (Done bs, r', s') => drive todo r' s' (out ++ [bs])
      | (Suspended, r', s') => MkClient s' r' (Some (AExact n)) todo out None
      | (Threw e, r', s') => MkClient s' r' None (CExact n :: todo) out (Some e)
      | (OutOfFuel, r', s') => MkClient s' r' None (CExact n :: todo) out None
      end
  | CInto n :: todo =>
      match read_exact_into me (replicate n Byte.x00) n r s with
      | (Done _, f', r', s') => drive todo r' s' (out ++ [into_dest f'])
      | (Suspended, f', r', s') => MkClient s' r' (Some (AInto n f')) todo out None
      | (Threw e, _, r', s') => MkClient s' r' None (CInto n :: todo) out (Some e)
      | (OutOfFuel, _, r', s') => MkClient s' r' None (CInto n :: todo) out None
      end
  end.

(** Resume the read the client waits in, and go on. *)
Definition resume (cl : client St) : client St :=
  match cl_active cl with
  | None => cl
  | Some (AExact n) =>
      match read_exact_resume me n (cl_reader cl) (cl_stream cl) with
      | (Done bs, r', s') => drive (cl_todo cl) r' s' (cl_out cl ++ [bs])
      | (Suspended, r', s') => MkClient s' r' (Some (AExact n)) (cl_todo cl) (cl_out cl) None
      | (Threw e, r', s') => MkClient s' r' None (CExact n :: cl_todo cl) (cl_out cl) (Some e)
      | (OutOfFuel, r', s') => MkClient s' r' None (CExact n :: cl_todo cl) (cl_out cl) None
      end
  | Some (AInto n f) =>
      match read_exact_into_resume me n f (cl_reader cl) (cl_stream cl) with
      | (Done _, f', r', s') => drive (cl_todo cl) r' s' (cl_out cl ++ [into_dest f'])
      | (Suspended, f', r', s') =>
          MkClient s' r' (Some (AInto n f')) (cl_todo cl) (cl_out cl) None
      | (Threw e, _, r', s') => MkClient s' r' None (CInto n :: cl_todo cl) (cl_out cl) (Some e)
      | (OutOfFuel, _, r', s') => MkClient s' r' None (CInto n :: cl_todo cl) (cl_out cl) None
      end
  end.

(** A completion of the backend, and the resumption it causes. *)
Definition deliver (ev : rs_event) (cl : client St) : client St :=
  let '(s', woken) := rs_complete ev (cl_stream cl) in
  let cl' := MkClient s' (cl_reader cl) (cl_active cl) (cl_todo cl) (cl_out cl) (cl_exn cl) in
  match woken with
  | Some _ => resume cl'
  | None => cl'
  end.

(** Any sequence of completions; the index collects the bytes they delivered. *)
Inductive delivers : list Byte.byte -> client St -> client St -> Prop :=
  | delivers_nil cl : delivers [] cl cl
  | delivers_snoc bs d ev cl1 cl2 :
      delivers bs cl1 cl2 ->
      rs_event_ok ev (cl_stream cl2) ->
      rs_queue (fst (rs_complete ev (cl_stream cl2))) = rs_queue (cl_stream cl2) ++ d ->
      delivers (bs ++ d) cl1 (deliver ev cl2).

Definition active_size (a : active) : nat := match a with AExact n | AInto n _ => n end.

(** Bytes received that no completed read returned. *)
Definition cl_rest (cl : client St) : list Byte.byte :=
  match cl_active cl with
  | Some (AInto _ f) => into_total f (cl_reader cl) (cl_stream cl)
  | _ => unread (cl_reader cl) (cl_stream cl)
  end.

(** The calls not completed yet. *)
Definition cl_left (cl : client St) : list call :=
  match cl_active cl with
  | Some (AExact n) => CExact n :: cl_todo cl
  | Some (AInto n _) => CInto n :: cl_todo cl
  | None => cl_todo cl
  end.

(** The first call left cannot be served from the bytes [rest] that no completed call
    returned: it waits for more, or the stream ended on it. *)
Definition cl_stopped (cl : client St) (rest : list Byte.byte) : Prop :=
  match cl_active cl with
  | Some a =>
      length rest < active_size a /\ cl_exn cl = None /\ rs_waiter (cl_stream cl) = Some me /\
      match a with
      | AExact n => fr_consumed (cl_reader cl) = 0
      | AInto n f => into_ok n f (cl_reader cl) /\ into_got f < n /\ length (into_dest f) = n
      end
  | None =>
      rs_waiter (cl_stream cl) = None /\
      match cl_todo cl with
      | [] => cl_exn cl = None
      | c :: _ =>
          length rest < call_size c /\
          exists e, rs_final (cl_stream cl) = Some e /\ cl_exn cl = Some (end_exn e)
      end
  end.

Definition client_inv (calls : list call) (recv : list Byte.byte) (cl : client St) : Prop :=
  rs_inv (cl_stream cl) /\
  exists done rest,
    calls = done ++ cl_left cl /\
    Forall2 (fun c out => length out = call_size c) done (cl_out cl) /\
    mjoin (cl_out cl) ++ rest = recv /\
    (cl_exn cl = None -> rest = cl_rest cl) /\
    cl_stopped cl rest.

Lemma reference_done done outs rest cs :
  Forall2 (fun c out => length out = call_size c) done outs ->
  reference (done ++ cs) (mjoin outs ++ rest) = outs ++ reference cs rest.
Proof.
  induction 1 as [|c out done outs Hc _ IH]; [done|].
  cbn [app reference mjoin list_join]. rewrite <- Hc, !length_app, bool_decide_true by lia.
  rewrite <- app_assoc, take_app_length, drop_app_length. f_equal. exact IH.
Qed.

Lemma length_mjoin_calls done (outs : list (list Byte.byte)) :
  Forall2 (fun c out => length out = call_size c) done outs ->
  length (mjoin outs) = sum_list_with call_size done.
Proof.
  induction 1 as [|c out done outs Hc _ IH]; [done|].
  cbn [mjoin list_join sum_list_with]. rewrite length_app, <- Hc. f_equal. exact IH.
Qed.

Lemma client_inv_reference calls recv cl :
  client_inv calls recv cl -> cl_out cl = reference calls recv.
Proof.
  intros (_ & done & rest & -> & Hdone & <- & _ & Hst). rewrite reference_done by done.
  rewrite <- (app_nil_r (cl_out cl)) at 1. f_equal.
  unfold cl_stopped, cl_left in *. destruct (cl_active cl) as [[n|n f]|].
  - simpl in *. by rewrite bool_decide_false by lia.
  - simpl in *. by rewrite bool_decide_false by lia.
  - destruct (cl_todo cl) as [|c todo]; [done|]. simpl. by rewrite bool_decide_false by lia.
Qed.

Lemma mjoin_snoc (outs : list (list Byte.byte)) bs u n :
  bs = take n u -> mjoin (outs ++ [bs]) ++ drop n u = mjoin outs ++ u.
Proof.
  intros ->. rewrite join_app. cbn. rewrite app_nil_r, <- app_assoc. by rewrite take_drop.
Qed.

Lemma drive_inv calls recv done todo r s out :
  rs_inv s -> rs_waiter s = None -> calls = done ++ todo ->
  Forall2 (fun c out => length out = call_size c) done out ->
  mjoin out ++ unread r s = recv ->
  client_inv calls recv (drive todo r s out).
Proof.
  revert done r s out. induction todo as [|[n|n] todo IH];
    intros done r s out Hinv Hw -> Hdone <-; cbn [drive].
  - split; [done|]. by exists done, (unread r s).
  - pose proof (read_exact_spec me n r s Hinv Hw) as Hread.
    destruct (read_exact me n r s) as [[[bs|e| |] r'] s']; destruct Hread as (Hinv' & Hf & Hread).
    + destruct Hread as (Hn & Hbs & Hu & Hw').
      apply (IH (done ++ [CExact n])); auto using Forall2_app.
      * by rewrite <- app_assoc.
      * apply Forall2_app; [done|]. constructor; [|done]. subst bs. simpl. rewrite length_take. lia.
      * rewrite Hu. by apply mjoin_snoc.
    + destruct Hread as (Hn & Hw' & e' & He' & ->). split; [done|].
      exists done, (unread r s). split_and!; try done. split; [done|]. split; [done|].
      exists e'. simpl. by rewrite Hf.
    + destruct Hread as (Hn & Hf' & Hw' & Hk & Hb & Hq). split; [done|].
      exists done, (unread r s). split_and!; try done.
      intros _. unfold cl_rest, unread at 2, fr_rest. simpl. by rewrite Hk, Hb, Hq, drop_0, app_nil_r.
    + done.
  - pose proof (read_exact_into_spec me (replicate n Byte.x00) n r s Hinv Hw) as Hread.
    rewrite length_replicate in Hread. specialize (Hread ltac:(lia)).
    destruct (read_exact_into me (replicate n Byte.x00) n r s) as [[[[[]|e| |] f'] r'] s'];
      destruct Hread as (Hinv' & Hf & Hl & Hread).
    + destruct Hread as (Hn & Hg & Hbs & Hu & Hw').
      apply (IH (done ++ [CInto n])); auto using Forall2_app.
      * by rewrite <- app_assoc.
      * rewrite Hu. apply mjoin_snoc. rewrite <- Hbs. by rewrite take_ge by lia.
    + destruct Hread as (Hn & Hw' & e' & He' & ->). split; [done|].
      exists done, (unread r s). split_and!; try done. split; [done|]. split; [done|].
      exists e'. simpl. by rewrite Hf.
    + destruct Hread as (Hn & Hf' & Hw' & Hok & Hlt & Ht). split; [done|].
      exists done, (unread r s). by split_and!.
    + done.
Qed.

Definition resumable (cl : client St) : Prop :=
  match cl_active cl with
  | Some (AExact n) => fr_consumed (cl_reader cl) = 0 /\ length (fr_buf (cl_reader cl)) < n
  | Some (AInto n f) => into_ok n f (cl_reader cl) /\ into_got f < n /\ length (into_dest f) = n
  | None => False
  end.

Lemma resume_inv calls done cl :
  rs_inv (cl_stream cl) -> rs_waiter (cl_stream cl) = None ->
  rs_queue (cl_stream cl) <> [] \/ is_Some (rs_final (cl_stream cl)) ->
  resumable cl -> calls = done ++ cl_left cl ->
  Forall2 (fun c out => length out = call_size c) done (cl_out cl) ->
  client_inv calls (mjoin (cl_out cl) ++ cl_rest cl) (resume cl).
Proof.
  destruct cl as [s r [[n|n f]|] todo out ex]; unfold resumable, resume, cl_left, cl_rest; simpl;
    intros Hinv Hw Hsome Hres -> Hdone; [| |done].
  - destruct Hres as [Hk Hlt].
    pose proof (read_exact_resume_spec me n r s Hinv Hw Hk Hlt Hsome) as Hread.
    destruct (read_exact_resume me n r s) as [[[bs|e| |] r'] s']; destruct Hread as (Hinv' & Hf & Hread).
    + destruct Hread as (Hn & Hbs & Hu & Hw').
      apply (drive_inv _ _ (done ++ [CExact n])); auto.
      * by rewrite <- app_assoc.
      * apply Forall2_app; [done|]. constructor; [|done]. subst bs. simpl. rewrite length_take. lia.
      * rewrite Hu. by apply mjoin_snoc.
    + destruct Hread as (Hn & Hw' & e' & He' & ->). split; [done|].
      exists done, (unread r s). split_and!; try done. split; [done|]. split; [done|].
      exists e'. simpl. by rewrite Hf.
    + destruct Hread as (Hn & Hf' & Hw' & Hk' & Hb & Hq). split; [done|].
      exists done, (unread r s). split_and!; try done.
      intros _. unfold cl_rest, unread at 2, fr_rest. simpl. by rewrite Hk', Hb, Hq, drop_0, app_nil_r.
    + done.
  - destruct Hres as (Hok & Hlt & Hl0).
    pose proof (read_exact_into_resume_spec me n f r s Hinv Hw Hok Hlt Hsome) as Hread.
    destruct (read_exact_into_resume me n f r s) as [[[[[]|e| |] f'] r'] s'];
      destruct Hread as (Hinv' & Hf & Hl & Hread); rewrite Hl0 in Hl.
    + destruct Hread as (Hn & Hg & Hbs & Hu & Hw').
      apply (drive_inv _ _ (done ++ [CInto n])); auto.
      * by rewrite <- app_assoc.
      * apply Forall2_app; [done|]. by constructor.
      * rewrite Hu. apply mjoin_snoc. rewrite <- Hbs. by rewrite take_ge by lia.
    + destruct Hread as (Hn & Hw' & e' & He' & ->). split; [done|].
      exists done, (into_total f r s). split_and!; try done. split; [done|]. split; [done|].
      exists e'. simpl. by rewrite Hf.
    + destruct Hread as (Hn & Hf' & Hw' & Hok' & Hlt' & Ht). split; [done|].
      exists done, (into_total f r s). by split_and!.
    + done.
Qed.

Lemma cl_rest_grows cl s d :
  rs_queue s = rs_queue (cl_stream cl) ++ d ->
  cl_rest (MkClient s (cl_reader cl) (cl_active cl) (cl_todo cl) (cl_out cl) (cl_exn cl)) =
    cl_rest cl ++ d.
Proof.
  intros Hq. unfold cl_rest, into_total, unread. simpl. rewrite Hq.
  destruct (cl_active cl) as [[]|]; by rewrite !app_assoc.
Qed.

Lemma deliver_inv calls recv d ev cl :
  client_inv calls recv cl -> rs_event_ok ev (cl_stream cl) ->
  rs_queue (fst (rs_complete ev (cl_stream cl))) = rs_queue (cl_stream cl) ++ d ->
  client_inv calls (recv ++ d) (deliver ev cl).
Proof.
  intros (Hinv & done & rest & Hcalls & Hdone & <- & Hrest & Hst) Hok Hd.
  pose proof (rs_complete_law ev (cl_stream cl) Hinv Hok) as Hlaw. unfold deliver.
  destruct (rs_complete ev (cl_stream cl)) as [s' woken]. simpl in Hd.
  destruct Hlaw as (Hinv' & _ & (d' & Hd' & Hnil) & Hfin & Hwake & Hw').
  assert (d' = d) as -> by (rewrite Hd in Hd'; by simplify_list_eq). clear Hd'.
  set (cl' := MkClient s' (cl_reader cl) (cl_active cl) (cl_todo cl) (cl_out cl) (cl_exn cl)).
  pose proof (cl_rest_grows cl s' d Hd) as Hgrow. fold cl' in Hgrow.
  unfold cl_stopped in Hst. destruct (cl_active cl) as [a|] eqn:Ea.
  - destruct Hst as (Hlt & Hex & Hw & Ha). specialize (Hrest Hex). subst rest.
    destruct (rs_waiter_idle _ Hinv) as [Hq0 Hf0]; [by rewrite Hw|].
    destruct woken as [h|].
    + destruct (proj1 (Hwake h) eq_refl) as [_ Hsome].
      rewrite <- app_assoc, <- Hgrow.
      apply (resume_inv _ done cl'); auto; [|by unfold cl_left in *; rewrite Ea in Hcalls].
      unfold resumable, cl'. simpl. destruct a as [n|n f]; [|done].
      split; [done|]. unfold cl_rest, unread, fr_rest in Hlt. rewrite Ea, Ha, drop_0 in Hlt.
      simpl in Hlt. rewrite length_app in Hlt. lia.
    + (* not woken: nothing arrived *)
      assert (Hidle : rs_queue s' = [] /\ rs_final s' = None).
      { apply rs_waiter_idle; [done|]. by rewrite Hw', Hw. }
      destruct Hidle as [Hq' Hf']. rewrite Hq0, Hq' in Hd. simpl in Hd. subst d.
      rewrite !app_nil_r in *. split; [done|]. exists done, (cl_rest cl).
      unfold cl_left, cl_stopped, cl' in *. simpl. rewrite ?Ea in *. split_and!; auto.
      by rewrite Hw', Hw.
  - destruct Hst as [Hw Htodo]. assert (woken = None) as ->.
    { destruct woken as [h|]; [|done]. destruct (proj1 (Hwake h) eq_refl). congruence. }
    split; [done|]. exists done, (rest ++ d).
    unfold cl_left, cl_stopped, cl' in *. simpl. rewrite ?Ea in *. split_and!; auto.
    + by rewrite app_assoc.
    + intros Hex. rewrite Hrest by done. symmetry. apply Hgrow.
    + congruence.
    + destruct (cl_todo cl) as [|c todo]; [done|].
      destruct Htodo as (Hlt & e & He & Hex). rewrite Hnil, app_nil_r by eauto.
      split; [done|]. exists e. by rewrite Hfin by eauto.
Qed.

Lemma delivers_inv calls recv0 recv cl0 cl :
  delivers recv cl0 cl -> client_inv calls recv0 cl0 -> client_inv calls (recv0 ++ recv) cl.
Proof.
  induction 1 as [cl|bs d ev cl1 cl2 _ IH Hok Hd]; intros H0'; [by rewrite app_nil_r|].
  rewrite app_assoc. apply deliver_inv; auto.
Qed.
End client.

(** C20: the reader is insensitive to chunking. A coroutine makes any list of reads, each
    by [read_exact] or by [read_exact_into], over any stream that keeps the [RecvStream]
    laws; completions deliver bytes in pieces of any size, in any number of batches,
    before, between or in the middle of reads. At every moment the results of the reads
    completed so far are exactly what cutting the received bytes into consecutive pieces
    of the requested sizes gives, as many reads as the bytes suffice for: nothing is
    lost, duplicated or reordered at a message boundary, whichever of the two reads is
    used on either side of it, and no read returns early or waits for bytes it has. *)
Theorem framed_reader_exact `{RecvStreamLaws St} (calls : list call) (s : St)
    (recv : list Byte.byte) (cl : client St) :
  rs_inv s -> rs_waiter s = None ->
  delivers recv (drive calls reader_init s []) cl ->
  cl_out cl = reference calls (rs_queue s ++ recv).
Proof.
  intros Hinv Hw Hrun. apply client_inv_reference.
  apply (delivers_inv _ _ _ _ _ Hrun). by apply (drive_inv _ _ []).
Qed.

(** C21: how reads end. When a call of the list cannot be served the coroutine is, at
    every moment, either suspended in that very read, armed on the stream, with less than
    the call's size received for it and the stream not ended; or it has left the list
    with the documented exception, which happens only when the stream ended short of the
    message ([runtime_error] for EOF mid-message, [system_error(errno)] for a failed
    receive). It never runs out of loop iterations and never sleeps on data. *)
Theorem framed_reader_ends `{RecvStreamLaws St} (calls : list call) (s : St)
    (recv : list Byte.byte) (cl : client St) :
  rs_inv s -> rs_waiter s = None ->
  delivers recv (drive calls reader_init s []) cl ->
  match drop (length (cl_out cl)) calls with
  | [] => cl_active cl = None /\ cl_exn cl = None
  | c :: _ =>
      length (rs_queue s ++ recv) < sum_list_with call_size (take (S (length (cl_out cl))) calls) /\
      match cl_active cl with
      | Some a =>
          active_size a = call_size c /\ cl_exn cl = None /\
          rs_waiter (cl_stream cl) = Some me /\
          rs_queue (cl_stream cl) = [] /\ rs_final (cl_stream cl) = None
      | None =>
          exists e, rs_final (cl_stream cl) = Some e /\ cl_exn cl = Some (end_exn e)
      end
  end.
Proof.
  intros Hinv Hw Hrun.
  assert (Hci : client_inv calls (rs_queue s ++ recv) cl).
  { apply (delivers_inv _ _ _ _ _ Hrun). by apply (drive_inv _ _ []). }
  destruct Hci as (Hinv' & done & rest & -> & Hdone & <- & _ & Hst).
  pose proof (Forall2_length Hdone) as Hlen. rewrite <- Hlen, drop_app_length.
  assert (Hsum : forall c l, cl_left cl = c :: l -> length rest < call_size c ->
    length (mjoin (cl_out cl) ++ rest) <
      sum_list_with call_size (take (S (length done)) (done ++ cl_left cl))).
  { intros c l -> Hlt. rewrite (cons_middle c), app_assoc, take_app_length'
      by (rewrite length_app; simpl; lia).
    rewrite sum_list_with_app, length_app, (length_mjoin_calls done) by done. simpl. lia. }
  unfold cl_stopped, cl_left in *. destruct (cl_active cl) as [[n|n f]|].
  - destruct Hst as (Hlt & Hex & Hwt & _). split; [by eapply Hsum|].
    destruct (rs_waiter_idle _ Hinv'); [by rewrite Hwt|]. by split_and!.
  - destruct Hst as (Hlt & Hex & Hwt & _). split; [by eapply Hsum|].
    destruct (rs_waiter_idle _ Hinv'); [by rewrite Hwt|]. by split_and!.
  - destruct Hst as [_ Hst]. destruct (cl_todo cl) as [|c todo]; [done|].
    destruct Hst as [Hlt Hst]. split; [by eapply Hsum|done].
Qed.
