(* ===== verification/LibcRecvStream.v ===== *)
(** * The poll-driven receive stream ([easyio/src/libc_recv_stream.cpp])

    A ring of fixed-size buffers filled by [::recv] whenever the socket is readable. The
    buffer memory is one flat block, as in the code; chunks are spans into it. *)

From coqutil Require Import Byte.
From S2P Require Import Prelude RecvStream FramedReader.

(** What a non-blocking [::recv] returned. *)
Inductive recv_result :=
  | RecvData (bs : list Byte.byte) (** [r > 0] *)
  | RecvEof                        (** [r == 0] *)
  | RecvErr (e : Z).               (** [r < 0], [errno] *)

Module Libc.
(** [class RecvStreamImpl] of the libc backend. [lent] is for the specification only:
    the spans handed out since the last [_ready]. *)
Record t := Mk {
  entry_size : nat;
  entries : nat;
  buf_base : list Byte.byte;
  write_idx : nat;
  pending : list (nat * nat); (** [{idx, len}], front first *)
  checked_out_count : nat;
  eof : bool;
  err : Z;                    (** [_error] *)
  waiter : option handle;
  lent : list (nat * nat);
}.

Definition some_end (s : t) : bool := eof s || bool_decide (err s <> 0%Z).

(** [!_pending.empty() || _eof || _error != 0]. *)
Definition something (s : t) : bool := bool_decide (pending s <> []) || some_end s.

(** The bytes behind a span: [_buf_base + idx * _entry_size], [len] long. *)
Definition deref (s : t) (p : nat * nat) : list Byte.byte :=
  slice (p.1 * entry_size s) p.2 (buf_base s).

(** [_return_checked_out]. *)
Definition return_checked_out (s : t) : t :=
  Mk (entry_size s) (entries s) (buf_base s) (write_idx s) (pending s) 0
     (eof s) (err s) (waiter s) [].

Definition ready (s : t) : bool * t :=
  let s := return_checked_out s in (something s, s).

Definition arm (h : handle) (s : t) : t :=
  Mk (entry_size s) (entries s) (buf_base s) (write_idx s) (pending s) (checked_out_count s)
     (eof s) (err s) (Some h) (lent s).

(** [_pending.pop_front(); ++_checked_out_count]. *)
Definition check_out (p : nat * nat) (rest : list (nat * nat)) (s : t) : t :=
  Mk (entry_size s) (entries s) (buf_base s) (write_idx s) rest (S (checked_out_count s))
     (eof s) (err s) (waiter s) (lent s ++ [p]).

(** The chunk returned when nothing is pending. *)
Definition terminal (s : t) : Chunk :=
  if bool_decide (err s <> 0%Z) then MkChunk [] (- err s) else MkChunk [] 0.

Definition take (s : t) : Chunk * t :=
  match pending s with
  | p :: rest => (MkChunk (deref s p) 0, check_out p rest s)
  | [] => (terminal s, s)
  end.

(** The [while] of [_take_batch]: [cap] slots of [out] left, [bytes] gathered. *)
Fixpoint take_loop (cap max_bytes bytes : nat) (s : t) : list Chunk * t :=
  match cap with
  | O => ([], s)
  | S cap =>
      if bool_decide (bytes < max_bytes) then
        match pending s with
        | p :: rest =>
            let '(cs, s') := take_loop cap max_bytes (bytes + p.2) (check_out p rest s) in
            (MkChunk (deref s p) 0 :: cs, s')
        | [] => ([], s)
        end
      else ([], s)
  end.

Definition take_batch (cap max_bytes : nat) (s : t) : list Chunk * t :=
  match take_loop cap max_bytes 0 s with
  | ([], s') => ([terminal s'], s')
  | (cs, s') => (cs, s')
  end.

(** The [while] of [on_ready], against the results [::recv] will give; once they are
    exhausted the socket would block ([EAGAIN]). *)
Fixpoint drain (rs : list recv_result) (s : t) : t :=
  if bool_decide (err s = 0%Z) && negb (eof s) &&
     bool_decide (length (pending s) + checked_out_count s < entries s)
  then
    match rs with
    | [] => s
    | RecvErr e :: _ =>
        if bool_decide (e = EAGAIN) then s
        else Mk (entry_size s) (entries s) (buf_base s) (write_idx s) (pending s)
                (checked_out_count s) (eof s) e (waiter s) (lent s)
    | RecvEof :: _ =>
        Mk (entry_size s) (entries s) (buf_base s) (write_idx s) (pending s)
           (checked_out_count s) true (err s) (waiter s) (lent s)
    | RecvData bs :: rs =>
        let idx := write_idx s in
        drain rs
          (Mk (entry_size s) (entries s)
              (memcpy_at (buf_base s) (idx * entry_size s) bs)
              ((idx + 1) mod entries s)
              (pending s ++ [(idx, length bs)])
              (checked_out_count s) (eof s) (err s) (waiter s) (lent s))
    end
  else s.

(** [std::exchange(_waiter, nullptr)], to be resumed. *)
Definition wake (s : t) : t * option handle :=
  (Mk (entry_size s) (entries s) (buf_base s) (write_idx s) (pending s) (checked_out_count s)
      (eof s) (err s) None (lent s), waiter s).

(** [on_ready]: the new state and the coroutine to resume (it never deregisters). *)
Definition on_ready (rs : list recv_result) (s : t) : t * option handle :=
  let s := drain rs s in
  if something s then wake s else (s, None).

(** [cancel]. *)
Definition cancel (s : t) : t * option handle :=
  let s :=
    if bool_decide (err s = 0%Z) && negb (eof s)
    then Mk (entry_size s) (entries s) (buf_base s) (write_idx s) (pending s)
            (checked_out_count s) (eof s) ECANCELED (waiter s) (lent s)
    else s in
  wake s.

(** The constructor: the memory [posix_memalign] gave, if any, and what is already
    buffered in the socket. *)
Definition make (es n : nat) (mem : option (list Byte.byte)) (rs : list recv_result)
    : outcome t :=
  match mem with
  | None => Throw bad_alloc
  | Some mem => Ok (on_ready rs (Mk es n mem 0 [] 0 false 0 None [])).1
  end.

#[global] Instance stream : RecvStream t := {
  rs_ready := ready;
  rs_arm := arm;
  rs_take := take;
  rs_take_batch := take_batch;
}.

(** *** Invariant *)

(** The occupied slots: handed out, then pending. *)
Definition occupied (s : t) : list (nat * nat) := lent s ++ pending s.

Record ring_ok (s : t) : Prop := {
  inv_mem : length (buf_base s) = entries s * entry_size s;
  inv_count : checked_out_count s = length (lent s);
  inv_room : length (occupied s) <= entries s;
  inv_len : Forall (fun p => 0 < p.2 <= entry_size s) (occupied s);
  (** the occupied slots are consecutive around the ring and end at [_write_idx] *)
  inv_ring : exists start,
    (occupied s).*1 = (fun i => (start + i) mod entries s) <$> seq 0 (length (occupied s)) /\
    write_idx s = (start + length (occupied s)) mod entries s;
  inv_end : err s = 0%Z \/ eof s = false;
}.

(** Nothing is there, nor handed out, while the reader waits: the whole ring is free. *)
Definition inv (s : t) : Prop :=
  ring_ok s /\ (is_Some (waiter s) -> something s = false /\ lent s = []).

Definition queue (s : t) : list Byte.byte := mjoin (deref s <$> pending s).

Definition final (s : t) : option Z :=
  if bool_decide (err s <> 0%Z) then Some (- err s)%Z
  else if eof s then Some 0%Z else None.

(** What [::recv] guarantees of its results. *)
Definition recv_ok (es : nat) (r : recv_result) : Prop :=
  match r with
  | RecvData bs => 0 < length bs <= es
  | RecvEof => True
  | RecvErr e => (0 < e)%Z
  end.

Inductive event := EvReady (rs : list recv_result) | EvCancel.

Definition event_ok (ev : event) (s : t) : Prop :=
  match ev with
  | EvReady rs => Forall (recv_ok (entry_size s)) rs
  | EvCancel => True
  end.

Definition complete (ev : event) (s : t) : t * option handle :=
  match ev with
  | EvReady rs => on_ready rs s
  | EvCancel => cancel s
  end.

(** *** The slots *)

Lemma occupied_slot s i p :
  ring_ok s -> occupied s !! i = Some p ->
  exists start, p.1 = (start + i) mod entries s /\
    write_idx s = (start + length (occupied s)) mod entries s /\ i < length (occupied s).
Proof.
  intros Hok Hi. destruct (inv_ring _ Hok) as (start & Hfst & Hw). exists start.
  pose proof (lookup_lt_Some _ _ _ Hi). split_and!; try done.
  assert (Hlk : (occupied s).*1 !! i = Some p.1) by (by rewrite list_lookup_fmap, Hi).
  rewrite Hfst, list_lookup_fmap, lookup_seq_lt in Hlk by done. simpl in Hlk. by simplify_eq.
Qed.

(** While there is room, [_write_idx] is not an occupied slot. *)
Lemma write_idx_free s p :
  ring_ok s -> length (occupied s) < entries s -> p ∈ occupied s -> p.1 <> write_idx s.
Proof.
  intros Hok Hroom [i Hi]%list_elem_of_lookup Heq.
  destruct (occupied_slot s i p Hok Hi) as (start & Hp & Hw & Hlt).
  rewrite Hp, Hw in Heq. apply ring_inj in Heq; lia.
Qed.

Lemma write_idx_bound s : ring_ok s -> 0 < entries s -> write_idx s < entries s.
Proof.
  intros Hok Hn. destruct (inv_ring _ Hok) as (start & _ & ->). apply Nat.mod_upper_bound. lia.
Qed.

Lemma occupied_bound s p : ring_ok s -> p ∈ occupied s -> p.1 < entries s.
Proof.
  intros Hok [i Hi]%list_elem_of_lookup.
  destruct (occupied_slot s i p Hok Hi) as (start & -> & _ & Hlt).
  apply ring_bound. pose proof (inv_room _ Hok). lia.
Qed.

(** One successful [::recv]. *)
Definition push (bs : list Byte.byte) (s : t) : t :=
  Mk (entry_size s) (entries s)
     (memcpy_at (buf_base s) (write_idx s * entry_size s) bs)
     ((write_idx s + 1) mod entries s)
     (pending s ++ [(write_idx s, length bs)])
     (checked_out_count s) (eof s) (err s) (waiter s) (lent s).

Section push.
Context (s : t) (bs : list Byte.byte).
Hypothesis Hok : ring_ok s.
Hypothesis Hroom : length (occupied s) < entries s.
Hypothesis Hbs : 0 < length bs <= entry_size s.

Lemma push_bound : write_idx s * entry_size s + length bs <= length (buf_base s).
Proof using Hok Hroom Hbs.
  rewrite (inv_mem _ Hok). pose proof (write_idx_bound s Hok ltac:(lia)). nia.
Qed.

Lemma push_occupied : occupied (push bs s) = occupied s ++ [(write_idx s, length bs)].
Proof using. unfold occupied. simpl. by rewrite app_assoc. Qed.

(** The spans that are out or pending show the same bytes as before. *)
Lemma push_deref_old p : p ∈ occupied s -> deref (push bs s) p = deref s p.
Proof using Hok Hroom Hbs.
  intros Hp. unfold deref. simpl. apply slice_memcpy_at_ne; [apply push_bound|].
  pose proof (write_idx_free s p Hok Hroom Hp).
  pose proof (Forall_elem _ _ p (inv_len _ Hok) Hp) as Hl. simpl in Hl. nia.
Qed.

Lemma push_deref_new : deref (push bs s) (write_idx s, length bs) = bs.
Proof using Hok Hroom Hbs. unfold deref. simpl. apply slice_memcpy_at_eq, push_bound. Qed.

Lemma push_ok : ring_ok (push bs s).
Proof using Hok Hroom Hbs.
  destruct (inv_ring _ Hok) as (start & Hfst & Hw). split; try rewrite push_occupied.
  - simpl. rewrite length_memcpy_at by apply push_bound. apply (inv_mem _ Hok).
  - apply (inv_count _ Hok).
  - rewrite length_app. simpl. lia.
  - apply Forall_app. split; [apply (inv_len _ Hok)|]. by constructor.
  - exists start. rewrite length_app, fmap_app, Hfst. cbn [length entries push write_idx].
    rewrite seq_app, fmap_app. simpl. split.
    + by rewrite Hw.
    + rewrite Hw, ring_next. f_equal. lia.
  - apply (inv_end _ Hok).
Qed.

Lemma push_queue : queue (push bs s) = queue s ++ bs.
Proof using Hok Hroom Hbs.
  unfold queue. simpl. rewrite fmap_app, join_app. f_equal.
  - f_equal. apply list_fmap_ext. intros i p Hp.
    apply push_deref_old, elem_of_app. right. by eapply list_elem_of_lookup_2.
  - simpl. by rewrite push_deref_new, app_nil_r.
Qed.

Lemma push_lent : deref (push bs s) <$> lent s = deref s <$> lent s.
Proof using Hok Hroom Hbs.
  apply list_fmap_ext. intros i p Hp. apply push_deref_old, elem_of_app. left.
  by eapply list_elem_of_lookup_2.
Qed.
End push.

(** *** The operations keep the ring and the order of the bytes *)

Lemma deref_length s p : ring_ok s -> p ∈ occupied s -> length (deref s p) = p.2.
Proof.
  intros Hok Hp. unfold deref. apply length_slice. rewrite (inv_mem _ Hok).
  pose proof (occupied_bound s p Hok Hp).
  pose proof (Forall_elem _ _ p (inv_len _ Hok) Hp) as Hl. simpl in Hl. nia.
Qed.

Lemma deref_nonempty s p : ring_ok s -> p ∈ occupied s -> deref s p <> [].
Proof.
  intros Hok Hp Hnil. pose proof (deref_length s p Hok Hp) as Hl. rewrite Hnil in Hl.
  pose proof (Forall_elem _ _ p (inv_len _ Hok) Hp) as Hl2. simpl in *. lia.
Qed.

Lemma final_Some s : is_Some (final s) <-> some_end s = true.
Proof.
  unfold final, some_end. case_bool_decide.
  - rewrite orb_true_r. split; [done|by eexists].
  - rewrite orb_false_r. by destruct (eof s).
Qed.

Lemma queue_nil s : ring_ok s -> queue s = [] <-> pending s = [].
Proof.
  intros Hok. unfold queue. split; [|by intros ->].
  destruct (pending s) as [|p ps] eqn:Ep; [done|]. simpl. intros [Hnil _]%app_nil.
  exfalso. apply (deref_nonempty s p Hok); [|done]. unfold occupied. rewrite Ep. apply elem_of_app. right. left.
Qed.

Lemma something_iff s :
  ring_ok s -> something s = true <-> queue s <> [] \/ is_Some (final s).
Proof.
  intros Hok. unfold something. rewrite orb_true_iff, bool_decide_eq_true, final_Some.
  by rewrite (queue_nil s Hok).
Qed.

Lemma terminal_final s e : final s = Some e -> terminal s = end_chunk e.
Proof.
  unfold final, terminal, end_chunk. repeat case_bool_decide; destruct (eof s); naive_solver.
Qed.

(** A change of the fields around the ring keeps it. *)
Lemma ring_ok_ext s s' :
  ring_ok s -> entry_size s' = entry_size s -> entries s' = entries s ->
  buf_base s' = buf_base s -> write_idx s' = write_idx s -> occupied s' = occupied s ->
  checked_out_count s' = length (lent s') -> (err s' = 0%Z \/ eof s' = false) -> ring_ok s'.
Proof.
  intros [] He Hn Hb Hw Ho Hc Hend.
  split; rewrite ?He, ?Hn, ?Hb, ?Hw, ?Ho; auto.
Qed.

Lemma wake_ok s : ring_ok s -> ring_ok (wake s).1.
Proof. intros Hok. apply (ring_ok_ext s); try done; apply Hok. Qed.

Lemma arm_ok h s : ring_ok s -> ring_ok (arm h s).
Proof. intros Hok. apply (ring_ok_ext s); try done; apply Hok. Qed.

Lemma check_out_ok p rest s :
  ring_ok s -> pending s = p :: rest -> ring_ok (check_out p rest s).
Proof.
  intros Hok Hp. apply (ring_ok_ext s); auto.
  - unfold occupied. simpl. by rewrite Hp, <- app_assoc.
  - simpl. rewrite length_app, (inv_count _ Hok). simpl. lia.
  - apply (inv_end _ Hok).
Qed.

Lemma return_checked_out_ok s : ring_ok s -> ring_ok (return_checked_out s).
Proof.
  intros Hok. pose proof (inv_room _ Hok) as Hroom. pose proof (inv_len _ Hok) as Hlen.
  pose proof (inv_mem _ Hok) as Hmem. destruct (inv_ring _ Hok) as (start & Hfst & Hw).
  unfold occupied in *. rewrite length_app in *. apply Forall_app in Hlen as [_ Hlen].
  split; unfold occupied; simpl; try done; [lia| |apply (inv_end _ Hok)].
  exists (start + length (lent s)). split; [|rewrite Hw; f_equal; lia].
  apply list_eq. intros i. destruct (decide (i < length (pending s))) as [Hi|Hi].
  - assert (Hlk : (lent s ++ pending s).*1 !! (length (lent s) + i) = (pending s).*1 !! i).
    { rewrite fmap_app, lookup_app_r by (rewrite length_fmap; lia).
      rewrite length_fmap. f_equal. lia. }
    rewrite <- Hlk, Hfst, !list_lookup_fmap, !lookup_seq_lt by lia. simpl.
    do 2 f_equal. lia.
  - rewrite !lookup_ge_None_2; rewrite ?length_fmap, ?length_seq; done || lia.
Qed.

(** What [drain] does, whatever [::recv] returns. *)
Record drained (s s' : t) : Prop := {
  dr_ok : ring_ok s';
  dr_size : entry_size s' = entry_size s;
  dr_waiter : waiter s' = waiter s;
  dr_lent : lent s' = lent s;
  dr_deref : deref s' <$> lent s' = deref s <$> lent s;
  dr_queue : exists d, queue s' = queue s ++ d /\ (is_Some (final s) -> d = []);
  dr_final : is_Some (final s) -> final s' = final s;
}.

Lemma drained_refl s : ring_ok s -> drained s s.
Proof. split; auto. exists []. by rewrite app_nil_r. Qed.

(** An end discovered behind a live stream. *)
Lemma drained_end s s' :
  ring_ok s -> final s = None -> entry_size s' = entry_size s -> entries s' = entries s ->
  buf_base s' = buf_base s -> write_idx s' = write_idx s -> pending s' = pending s ->
  lent s' = lent s -> checked_out_count s' = checked_out_count s -> waiter s' = waiter s ->
  (err s' = 0%Z \/ eof s' = false) -> drained s s'.
Proof.
  intros Hok Hf He Hn Hb Hwi Hp Hl Hc Hw Hend.
  assert (Hd : forall p, deref s' p = deref s p) by (intros p; unfold deref; by rewrite He, Hb).
  split; auto.
  - apply (ring_ok_ext s); auto; [unfold occupied; by rewrite Hp, Hl|].
    by rewrite Hc, Hl, (inv_count _ Hok).
  - rewrite Hl. by apply list_fmap_ext.
  - exists []. rewrite app_nil_r. split; [|done]. unfold queue. rewrite Hp.
    f_equal. by apply list_fmap_ext.
  - rewrite Hf. by intros [].
Qed.

Lemma drain_spec rs s :
  ring_ok s -> Forall (recv_ok (entry_size s)) rs -> drained s (drain rs s).
Proof.
  revert s. induction rs as [|r rs IH]; intros s Hok Hrs; cbn [drain].
  { destruct (_ && _); by apply drained_refl. }
  destruct (bool_decide (err s = 0%Z) && negb (eof s) && _) eqn:Eg; [|by apply drained_refl].
  rewrite !andb_true_iff, negb_true_iff, !bool_decide_eq_true in Eg. destruct Eg as [[He Hf] Hroom].
  assert (Hfin : final s = None) by (unfold final; by rewrite He, Hf).
  apply Forall_cons_iff in Hrs as [Hr Hrs]. destruct r as [bs| |e].
  - assert (Hroom' : length (occupied s) < entries s).
    { unfold occupied. rewrite length_app, <- (inv_count _ Hok). lia. }
    change (drained s (drain rs (push bs s))).
    destruct (IH (push bs s)) as [? ? ? ? Hdr (d & Hq & Hd) Hdf]; [by apply push_ok|done|].
    split; auto.
    + rewrite Hdr. apply (push_lent s bs Hok Hroom' Hr).
    + exists (bs ++ d). rewrite Hq, (push_queue s bs Hok Hroom' Hr), app_assoc. split; [done|].
      rewrite Hfin. by intros [].
  - apply drained_end; auto.
  - case_bool_decide; [by apply drained_refl|]. apply drained_end; auto.
Qed.

Lemma take_loop_spec cap max bytes s cs s' :
  ring_ok s -> take_loop cap max bytes s = (cs, s') ->
  ring_ok s' /\ final s' = final s /\ waiter s' = waiter s /\ err s' = err s /\
  length cs <= cap /\ Forall chunk_good cs /\ batch_fits (max - bytes) cs /\
  queue s = batch_bytes cs ++ queue s' /\
  deref s' <$> lent s' = (deref s <$> lent s) ++ (data <$> cs) /\
  (cs = [] -> s' = s) /\
  (0 < cap -> bytes < max -> pending s <> [] -> cs <> []).
Proof.
  revert bytes s cs. induction cap as [|cap IH]; intros bytes s cs Hok; cbn [take_loop].
  { intros [= <- <-]. rewrite app_nil_r. split_and!; simpl; auto; lia. }
  case_bool_decide as Hlt; [|intros [= <- <-]; rewrite app_nil_r; split_and!; simpl; auto; lia].
  destruct (pending s) as [|p rest] eqn:Ep.
  { intros [= <- <-]. rewrite app_nil_r. split_and!; simpl; auto; lia || done. }
  destruct (take_loop cap max (bytes + p.2) (check_out p rest s)) as [cs1 s1] eqn:Et.
  intros [= <- <-].
  destruct (IH _ _ _ (check_out_ok p rest s Hok Ep) Et)
    as (Hok1 & Hf & Hw & He & Hcap & Hgood & Hfit & Hq & Hl & _ & _).
  assert (Hin : p ∈ occupied s) by (unfold occupied; rewrite Ep; apply elem_of_app; right; left).
  split_and!; auto.
  - simpl. lia.
  - constructor; [|done]. split; [|done]. by apply deref_nonempty.
  - simpl. split; [lia|]. rewrite deref_length by done.
    by replace (max - bytes - p.2) with (max - (bytes + p.2)) by lia.
  - unfold queue at 1. rewrite Ep. cbn. rewrite <- app_assoc. f_equal. exact Hq.
  - rewrite Hl. simpl. by rewrite fmap_app, <- app_assoc.
  - done.
Qed.

Lemma nothing s : ring_ok s -> something s = false -> queue s = [] /\ final s = None.
Proof.
  intros Hok Hs. split.
  - destruct (decide (queue s = [])) as [|Hq]; [done|].
    by rewrite (proj2 (something_iff s Hok) (or_introl Hq)) in Hs.
  - apply eq_None_not_Some. intros Hf.
    by rewrite (proj2 (something_iff s Hok) (or_intror Hf)) in Hs.
Qed.

Lemma something_dec s :
  ring_ok s -> something s = bool_decide (queue s <> [] \/ is_Some (final s)).
Proof.
  intros Hok. pose proof (something_iff s Hok). case_bool_decide; [tauto|].
  destruct (something s); tauto.
Qed.

Lemma ready_law s :
  inv s ->
  let '(rdy, s') := ready s in
  inv s' /\ queue s' = queue s /\ final s' = final s /\ waiter s' = waiter s /\
  deref s' <$> lent s' = [] /\ rdy = bool_decide (queue s <> [] \/ is_Some (final s)).
Proof.
  intros [Hok Hw]. unfold ready. pose proof (return_checked_out_ok s Hok) as Hok'.
  split_and!; [|done..|apply (something_dec (return_checked_out s) Hok')].
  split; [done|]. intros Hs. by split; [apply Hw|].
Qed.

Lemma take_batch_law cap max s :
  inv s -> 0 < cap -> 0 < max -> waiter s = None ->
  let '(cs, s') := take_batch cap max s in
  inv s' /\ final s' = final s /\ waiter s' = None /\
  (queue s <> [] ->
     cs <> [] /\ length cs <= cap /\ Forall chunk_good cs /\ batch_fits max cs /\
     queue s = batch_bytes cs ++ queue s' /\
     deref s' <$> lent s' = (deref s <$> lent s) ++ (data <$> cs)) /\
  (forall e, queue s = [] -> final s = Some e -> cs = [end_chunk e] /\ queue s' = []).
Proof.
  intros [Hok Hidle] Hcap Hmax Hw. unfold take_batch.
  destruct (take_loop cap max 0 s) as [cs s'] eqn:Et.
  destruct (take_loop_spec _ _ _ _ _ _ Hok Et)
    as (Hok' & Hf & Hw' & _ & Hlen & Hgood & Hfit & Hq & Hl & Hnil & Hne).
  rewrite Nat.sub_0_r in Hfit. rewrite Hw in Hw'.
  assert (Hinv' : inv s') by (split; [done|]; rewrite Hw'; by intros []).
  destruct cs as [|c cs].
  - rewrite (Hnil eq_refl) in *. split_and!; try done.
    + intros Hq'. exfalso. apply Hne; try done. by rewrite <- queue_nil.
    + intros e Hq0 He. split; [by rewrite (terminal_final s e He)|done].
  - split_and!; try done.
    intros e Hq'. rewrite Hq in Hq'. exfalso.
    apply (batch_bytes_nonempty _ Hgood); [done|]. by apply app_nil in Hq' as [? _].
Qed.

Lemma take_law s :
  inv s -> waiter s = None ->
  let '(c, s') := take s in
  inv s' /\ final s' = final s /\ waiter s' = None /\
  (queue s <> [] -> chunk_good c /\ queue s = data c ++ queue s' /\
     deref s' <$> lent s' = (deref s <$> lent s) ++ [data c]) /\
  (forall e, queue s = [] -> final s = Some e -> c = end_chunk e /\ queue s' = []).
Proof.
  intros [Hok Hidle] Hw. unfold take. destruct (pending s) as [|p rest] eqn:Ep.
  - assert (Hq : queue s = []) by (by apply queue_nil).
    split_and!; try done. intros e _ He. split; [by apply terminal_final|done].
  - assert (Hin : p ∈ occupied s) by (unfold occupied; rewrite Ep; apply elem_of_app; right; left).
    assert (Hq : queue s = deref s p ++ queue (check_out p rest s)) by (unfold queue; by rewrite Ep).
    split_and!; try done.
    + split; [by apply check_out_ok|]. simpl. rewrite Hw. by intros [].
    + intros _. split_and!; [split; [by apply deref_nonempty|done]|done|].
      simpl. by rewrite fmap_app.
    + intros e Hq'. rewrite Hq in Hq'. apply app_nil in Hq' as [Hd _].
      exfalso. by apply (deref_nonempty s p).
Qed.

(** What [on_ready] and [cancel] owe the reader, from what they did to the ring. *)
Lemma woken_law s s1 :
  inv s -> drained s s1 ->
  let '(s', woken) := if something s1 then wake s1 else (s1, None) in
  inv s' /\ deref s' <$> lent s' = deref s <$> lent s /\
  (exists d, queue s' = queue s ++ d /\ (is_Some (final s) -> d = [])) /\
  (is_Some (final s) -> final s' = final s) /\
  (forall h, woken = Some h <->
     waiter s = Some h /\ (queue s' <> [] \/ is_Some (final s'))) /\
  waiter s' = (match woken with Some _ => None | None => waiter s end).
Proof.
  intros [Hok Hidle] [Hok1 He1 Hw1 Hl1 Hd1 Hq1 Hf1].
  rewrite Hl1 in Hd1. destruct (something s1) eqn:Es; cbn [wake].
  - pose proof (proj1 (something_iff s1 Hok1) Es) as Hsome.
    split_and!; try done.
    + split; [exact (wake_ok s1 Hok1)|by intros []].
    + simpl. rewrite Hl1. exact Hd1.
    + intros h. rewrite Hw1. split; [by split|by intros []].
    + simpl. rewrite Hw1. by destruct (waiter s).
  - destruct (nothing s1 Hok1 Es) as [Hq Hf].
    split_and!; rewrite ?Hl1; try done.
    { split; [done|]. rewrite Hw1, Hl1. intros Hs. by split; [|apply Hidle]. }
    intros h. rewrite Hq, Hf. split; [done|]. intros (_ & [?|[]]); done.
Qed.

Lemma complete_law ev s :
  inv s -> event_ok ev s ->
  let '(s', woken) := complete ev s in
  inv s' /\ deref s' <$> lent s' = deref s <$> lent s /\
  (exists d, queue s' = queue s ++ d /\ (is_Some (final s) -> d = [])) /\
  (is_Some (final s) -> final s' = final s) /\
  (forall h, woken = Some h <->
     waiter s = Some h /\ (queue s' <> [] \/ is_Some (final s'))) /\
  waiter s' = (match woken with Some _ => None | None => waiter s end).
Proof.
  intros Hinv Hev. destruct ev as [rs|]; cbn [complete].
  - apply woken_law; [done|]. apply drain_spec; [apply Hinv|done].
  - unfold cancel. destruct Hinv as [Hok Hidle].
    destruct (bool_decide (err s = 0%Z) && negb (eof s)) eqn:Ee.
    + apply andb_true_iff in Ee as [He%bool_decide_eq_true Hf%negb_true_iff].
      set (s1 := Mk _ _ _ _ _ _ _ _ _ _).
      assert (Hdr : drained s s1).
      { apply drained_end; try done; [|by right]. unfold final. by rewrite He, Hf. }
      pose proof (woken_law s s1 (conj Hok Hidle) Hdr) as Hlaw.
      assert (something s1 = true) as Hs1.
      { unfold something, some_end, s1. simpl. by rewrite !orb_true_r. }
      by rewrite Hs1 in Hlaw.
    + pose proof (woken_law s s (conj Hok Hidle) (drained_refl s Hok)) as Hlaw.
      assert (something s = true) as Hs1; [|by rewrite Hs1 in Hlaw].
      unfold something, some_end. apply andb_false_iff in Ee as [He|Hf].
      * rewrite (bool_decide_true (err s <> 0%Z)) by (by apply bool_decide_eq_false in He).
        by rewrite !orb_true_r.
      * apply negb_false_iff in Hf. rewrite Hf. by rewrite orb_true_r.
Qed.

(** The constructor establishes the invariant, and nothing waits yet. *)
Lemma make_law es n mem rs s :
  length mem = n * es -> Forall (recv_ok es) rs -> make es n (Some mem) rs = Ok s ->
  inv s /\ waiter s = None.
Proof.
  intros Hmem Hrs [= <-]. set (s0 := Mk es n mem 0 [] 0 false 0 None []).
  assert (Hinv : inv s0).
  { split; [|by intros []]. split; simpl; auto with lia.
    exists 0. split; [done|]. simpl. by rewrite Nat.Div0.mod_0_l. }
  pose proof (complete_law (EvReady rs) s0 Hinv Hrs) as Hlaw. cbn [complete] in Hlaw.
  destruct (on_ready rs s0) as [s' [h|]]; by destruct Hlaw as (? & _ & _ & _ & _ & ?).
Qed.

Lemma make_inv es n mem rs s :
  length mem = n * es -> Forall (recv_ok es) rs -> make es n (Some mem) rs = Ok s -> inv s.
Proof. intros Hmem Hrs Hs. by destruct (make_law es n mem rs s Hmem Hrs Hs). Qed.

#[global] Program Instance stream_laws : RecvStreamLaws t := {
  rs_inv := inv;
  rs_queue := queue;
  rs_final := final;
  rs_waiter := waiter;
  rs_lent s := deref s <$> lent s;
  rs_event := event;
  rs_event_ok := event_ok;
  rs_complete := complete;
  rs_ready_law := ready_law;
  rs_take_batch_law := take_batch_law;
  rs_take_law := take_law;
  rs_complete_law := complete_law;
}.
Next Obligation. intros s [Hok Hidle] Hw. apply nothing; [done|]. by apply Hidle. Qed.
Next Obligation.
  intros h s [Hok Hidle] Hq Hf Hl. split_and!; try done. split.
  - by apply arm_ok.
  - intros _. split; [|by apply fmap_nil_inv in Hl].
    change (something s = false). rewrite something_dec by done.
    apply bool_decide_eq_false. rewrite Hq, Hf. by intros [?|[]].
Qed.
(** *** The ring keeps its size *)

Lemma take_batch_entries cap max s : entries (take_batch cap max s).2 = entries s.
Proof.
  unfold take_batch.
  assert (Hloop : forall bytes, entries (take_loop cap max bytes s).2 = entries s).
  { intros bytes. revert bytes s. induction cap as [|cap IH]; intros bytes s; simpl; [done|].
    case_bool_decide; [|done]. destruct (pending s) as [|p rest]; [done|].
    specialize (IH (bytes + p.2) (check_out p rest s)). by destruct (take_loop cap max _ _). }
  specialize (Hloop 0). by destruct (take_loop cap max 0 s) as [[] ?].
Qed.

Lemma drain_entries rs s : entries (drain rs s) = entries s.
Proof.
  revert s. induction rs as [|r rs IH]; intros s; simpl; destruct (_ && _ && _); try done.
  destruct r as [bs| |e]; [by rewrite IH|done|by case_bool_decide].
Qed.

Lemma complete_entries ev s : entries (complete ev s).1 = entries s.
Proof.
  destruct ev as [rs|]; simpl.
  - unfold on_ready. rewrite <- (drain_entries rs s). by destruct (something _).
  - unfold cancel. by destruct (_ && _).
Qed.

(** The reader waits, and the first [::recv] gives the end. *)
Definition is_end (r : recv_result) : Prop :=
  match r with RecvData _ => False | RecvEof => True | RecvErr e => (0 < e)%Z /\ e <> EAGAIN end.

Lemma on_ready_end r rs s :
  inv s -> is_Some (waiter s) -> 0 < entries s -> is_end r ->
  queue (on_ready (r :: rs) s).1 = queue s /\ is_Some (final (on_ready (r :: rs) s).1).
Proof.
  intros [Hok Hidle] Hw Hn Hr. destruct (Hidle Hw) as [Hs Hl]. destruct (nothing s Hok Hs) as [_ Hf].
  unfold something, some_end in Hs. apply orb_false_iff in Hs as [Hp%bool_decide_eq_false He].
  apply orb_false_iff in He as [Heof Herr%bool_decide_eq_false]. apply dec_stable in Hp, Herr.
  unfold on_ready. cbn [drain]. rewrite Heof, bool_decide_true by done. cbn [andb negb].
  rewrite bool_decide_true by (rewrite Hp, (inv_count _ Hok), Hl; simpl; lia).
  destruct r as [bs| |e]; [done| |].
  - unfold something, some_end. simpl. rewrite orb_true_r. split; [done|]. unfold final. simpl.
    rewrite Herr. by eexists.
  - destruct Hr as [Hpos Hne]. rewrite bool_decide_false by done. unfold something, some_end. simpl.
    rewrite (bool_decide_true (e <> 0%Z)) by lia. rewrite !orb_true_r. split; [done|].
    unfold final. simpl. rewrite bool_decide_true by lia. by eexists.
Qed.
End Libc.

(** The bytes a list of [::recv] results carries. *)
Definition recv_bytes (rs : list recv_result) : list Byte.byte :=
  mjoin ((fun r => match r with RecvData bs => bs | _ => [] end) <$> rs).

Definition is_data (r : recv_result) : Prop :=
  match r with RecvData _ => True | _ => False end.

(** Why [on_ready] stopped calling [::recv], [r] being the result it did not store. *)
Inductive drain_stop (s s' : Libc.t) (r : option recv_result) : Prop :=
  | stop_over : is_Some (Libc.final s) -> Libc.final s' = Libc.final s -> drain_stop s s' r
  | stop_full :
      length (Libc.occupied s') = Libc.entries s -> Libc.final s' = Libc.final s -> drain_stop s s' r
  | stop_block :
      r = None \/ r = Some (RecvErr EAGAIN) -> Libc.final s' = Libc.final s -> drain_stop s s' r
  | stop_eof : r = Some RecvEof -> Libc.final s' = Some 0%Z -> drain_stop s s' r
  | stop_err e :
      r = Some (RecvErr e) -> e <> EAGAIN -> Libc.final s' = Some (- e)%Z -> drain_stop s s' r.

Lemma drain_recv rs s :
  Libc.ring_ok s -> Forall (Libc.recv_ok (Libc.entry_size s)) rs ->
  exists k, let s' := Libc.drain rs s in
    Libc.queue s' = Libc.queue s ++ recv_bytes (take k rs) /\ Forall is_data (take k rs) /\
    length (Libc.pending s') = length (Libc.pending s) + k /\ drain_stop s s' (rs !! k).
Proof.
  assert (Hquiet : forall s rs, drain_stop s s (rs !! 0) -> exists k,
    Libc.queue s = Libc.queue s ++ recv_bytes (take k rs) /\ Forall is_data (take k rs) /\
    length (Libc.pending s) = length (Libc.pending s) + k /\ drain_stop s s (rs !! k)).
  { intros s0 rs0 Hst. exists 0. rewrite take_0. cbn. rewrite app_nil_r. auto. }
  revert s. induction rs as [|r rs IH]; intros s Hok Hrs.
  { cbn [Libc.drain]. destruct (_ && _); apply Hquiet, stop_block; auto. }
  cbn [Libc.drain].
  destruct (bool_decide (Libc.err s = 0%Z) && negb (Libc.eof s) && _) eqn:Eg.
  - rewrite !andb_true_iff, negb_true_iff, !bool_decide_eq_true in Eg.
    destruct Eg as [[He Hf] Hroom].
    assert (Hfin : Libc.final s = None) by (unfold Libc.final; by rewrite He, Hf).
    apply Forall_cons_iff in Hrs as [Hr Hrs]. destruct r as [bs| |e].
    + assert (Hroom' : length (Libc.occupied s) < Libc.entries s).
      { unfold Libc.occupied. rewrite length_app, <- (Libc.inv_count _ Hok). lia. }
      change (Libc.drain rs _) with (Libc.drain rs (Libc.push bs s)).
      destruct (IH (Libc.push bs s) (Libc.push_ok s bs Hok Hroom' Hr) Hrs) as (k & Hq & Hk & Hl & Hst).
      exists (S k). cbn zeta. rewrite Hq, (Libc.push_queue s bs Hok Hroom' Hr), Hl. simpl.
      rewrite length_app. split_and!; [by rewrite <- app_assoc|by constructor|simpl; lia|].
      destruct Hst; [by apply stop_over|by apply stop_full|by apply stop_block
        |by apply stop_eof|by eapply stop_err].
    + exists 0. simpl. rewrite app_nil_r. split_and!; auto.
      apply stop_eof; [done|]. unfold Libc.final. simpl. by rewrite He.
    + case_bool_decide; [subst e; apply Hquiet, stop_block; auto|].
      exists 0. simpl. rewrite app_nil_r. split_and!; auto.
      apply (stop_err _ _ _ e); [done..|]. unfold Libc.final. simpl in *.
      rewrite bool_decide_true by lia. done.
  - apply Hquiet. rewrite andb_false_iff in Eg. destruct Eg as [Eg|Eg].
    + apply stop_over; [|done]. apply Libc.final_Some. unfold Libc.some_end.
      apply andb_false_iff in Eg as [He%bool_decide_eq_false|Hf%negb_false_iff].
      * rewrite bool_decide_true by done. apply orb_true_r.
      * by rewrite Hf.
    + apply stop_full; [|done]. apply bool_decide_eq_false in Eg.
      pose proof (Libc.inv_room _ Hok). pose proof (Libc.inv_count _ Hok).
      unfold Libc.occupied in *. rewrite length_app in *. lia.
Qed.

(** C23: what a readable socket does to the poll-driven stream. For any results [::recv]
    gives, [on_ready] stores exactly a prefix of them, in order, behind the bytes already
    queued, one slot per result; it stops only because the stream had already ended,
    because all slots are occupied by chunks queued or still in the reader's hands (the
    rest stays in the kernel), because the socket would block, or at the EOF or the error
    it then records. The ring stays well formed, and the suspended reader is resumed if
    and only if there is now something for it to take. *)
Theorem libc_on_ready_stores_prefix (s : Libc.t) (rs : list recv_result) :
  Libc.inv s -> Forall (Libc.recv_ok (Libc.entry_size s)) rs ->
  let '(s', woken) := Libc.on_ready rs s in
  Libc.inv s' /\
  (exists k,
     Libc.queue s' = Libc.queue s ++ recv_bytes (take k rs) /\ Forall is_data (take k rs) /\
     length (Libc.pending s') = length (Libc.pending s) + k /\ drain_stop s s' (rs !! k)) /\
  (forall h, woken = Some h <->
     Libc.waiter s = Some h /\ (Libc.queue s' <> [] \/ is_Some (Libc.final s'))) /\
  Libc.waiter s' = (match woken with Some _ => None | None => Libc.waiter s end).
Proof.
  intros Hinv Hrs. pose proof (Libc.complete_law (Libc.EvReady rs) s Hinv Hrs) as Hlaw.
  destruct (drain_recv rs s (proj1 Hinv) Hrs) as (k & Hq & Hk & Hl & Hst).
  cbn [Libc.complete] in Hlaw. unfold Libc.on_ready in *.
  destruct (Libc.something (Libc.drain rs s)); cbn [Libc.wake] in *;
    destruct Hlaw as (? & _ & _ & _ & ? & ?); split_and!; auto; exists k; split_and!; auto.
  destruct Hst; [by apply stop_over|by apply stop_full|by apply stop_block
    |by apply stop_eof|by eapply stop_err].
Qed.

(** Completions one after the other, whoever they wake. *)
Inductive completions : Libc.t -> Libc.t -> Prop :=
  | completions_nil s : completions s s
  | completions_cons ev s s' :
      Libc.event_ok ev s -> completions (Libc.complete ev s).1 s' -> completions s s'.

(** A chunk stays readable until the reader comes back. Take any batch from a
    well-formed poll-driven stream, and let any number of readable events (with any data)
    and cancellations follow: every span of the batch still shows exactly the bytes it
    was handed out with, because no slot in the reader's hands is ever received into. *)
Theorem libc_spans_stable (s s1 s2 : Libc.t) (cap max : nat) (cs : list Chunk) :
  Libc.inv s -> Libc.waiter s = None -> 0 < cap -> 0 < max -> Libc.queue s <> [] ->
  Libc.take_batch cap max s = (cs, s1) -> completions s1 s2 ->
  Libc.deref s2 <$> Libc.lent s2 = (Libc.deref s <$> Libc.lent s) ++ (data <$> cs).
Proof.
  intros Hinv Hw Hcap Hmax Hq Htake Hrun.
  pose proof (Libc.take_batch_law cap max s Hinv Hcap Hmax Hw) as Hlaw. rewrite Htake in Hlaw.
  destruct Hlaw as (Hinv1 & _ & _ & Hdata & _). destruct (Hdata Hq) as (_ & _ & _ & _ & _ & <-).
  clear -Hrun Hinv1. induction Hrun as [s|ev s s' Hok _ IH]; [done|].
  pose proof (Libc.complete_law ev s Hinv1 Hok) as Hlaw.
  destruct (Libc.complete ev s) as [s1 w]. destruct Hlaw as (Hinv & <- & _). by apply IH.
Qed.

(** ** Concrete runs *)

Definition byte_of (n : Z) : Byte.byte := coqutil.Byte.byte.of_Z n.

(** A stream of 2 slots of 4 bytes that already received 5 bytes. *)
Definition example_stream : Libc.t :=
  (Libc.on_ready [RecvData (byte_of <$> [1; 2; 3; 4]%Z); RecvData (byte_of <$> [5]%Z)]
     (Libc.Mk 4 2 (replicate 8 Byte.x00) 0 [] 0 false 0 None [])).1.

Lemma example_stream_inv : Libc.inv example_stream.
Proof.
  apply (Libc.make_inv 4 2 (replicate 8 Byte.x00)
    [RecvData (byte_of <$> [1; 2; 3; 4]%Z); RecvData (byte_of <$> [5]%Z)]); [done| |done].
  repeat constructor; simpl; lia.
Qed.

Lemma libc_on_ready_stores_prefix_witness :
  let '(s', woken) := Libc.on_ready [RecvEof] example_stream in
  Libc.inv s' /\ woken = None /\ Libc.queue s' = byte_of <$> [1; 2; 3; 4; 5]%Z.
Proof.
  pose proof (libc_on_ready_stores_prefix example_stream [RecvEof] example_stream_inv
    ltac:(repeat constructor)) as Hw.
  split; [exact (proj1 Hw)|]. by vm_compute.
Defined.

Lemma libc_spans_stable_witness :
  exists s1 s2, Libc.take_batch 1 2 example_stream =
      ([MkChunk (byte_of <$> [1; 2; 3; 4]%Z) 0], s1) /\
    completions s1 s2 /\
    Libc.deref s2 <$> Libc.lent s2 = [byte_of <$> [1; 2; 3; 4]%Z].
Proof.
  eexists _, (Libc.complete (Libc.EvReady [RecvData (byte_of <$> [9]%Z)])
                (Libc.take_batch 1 2 example_stream).2).1.
  assert (Hrun : completions (Libc.take_batch 1 2 example_stream).2
    (Libc.complete (Libc.EvReady [RecvData (byte_of <$> [9]%Z)])
       (Libc.take_batch 1 2 example_stream).2).1).
  { eapply completions_cons; [|apply completions_nil]. repeat constructor; simpl; lia. }
  split; [by vm_compute|]. split; [exact Hrun|].
  rewrite (libc_spans_stable example_stream _ _ 1 2 _ example_stream_inv
    ltac:(done) ltac:(lia) ltac:(lia) ltac:(by vm_compute) eq_refl Hrun).
  by vm_compute.
Defined.

(** Three reads, of 3, 4 and 2 bytes, over a stream that delivers 5, then 3, then 1. *)
Definition example_calls : list call := [CExact 3; CInto 4; CExact 2].
Definition example_client : client Libc.t := drive example_calls reader_init example_stream [].
Definition example_event (l : list Z) : Libc.event := Libc.EvReady [RecvData (byte_of <$> l)].

Lemma example_delivers1 :
  delivers (byte_of <$> [6; 7; 8]%Z) example_client
    (deliver (example_event [6; 7; 8]%Z) example_client).
Proof.
  refine (delivers_snoc [] (byte_of <$> [6; 7; 8]%Z) (example_event [6; 7; 8]%Z) _ example_client
    (delivers_nil _) _ _); [|by vm_compute].
  repeat constructor; simpl; lia.
Qed.

Lemma example_delivers :
  delivers (byte_of <$> [6; 7; 8; 9]%Z) example_client
    (deliver (example_event [9]%Z) (deliver (example_event [6; 7; 8]%Z) example_client)).
Proof.
  refine (delivers_snoc (byte_of <$> [6; 7; 8]%Z) (byte_of <$> [9]%Z) (example_event [9]%Z) _
    (deliver (example_event [6; 7; 8]%Z) example_client) example_delivers1 _ _); [|by vm_compute].
  repeat constructor; simpl; lia.
Qed.

Lemma framed_reader_exact_witness :
  cl_out (deliver (example_event [9]%Z) (deliver (example_event [6; 7; 8]%Z) example_client)) =
    [byte_of <$> [1; 2; 3]%Z; byte_of <$> [4; 5; 6; 7]%Z; byte_of <$> [8; 9]%Z].
Proof.
  rewrite (framed_reader_exact (H0 := Libc.stream_laws) example_calls example_stream _ _ example_stream_inv
    ltac:(done) example_delivers).
  by vm_compute.
Defined.

Lemma framed_reader_ends_witness :
  let cl := deliver (example_event [6; 7; 8]%Z) example_client in
  cl_active cl = Some (AExact 2) /\ rs_waiter (cl_stream cl) = Some me.
Proof.
  pose proof (framed_reader_ends (H0 := Libc.stream_laws) example_calls example_stream _ _ example_stream_inv
    ltac:(done) example_delivers1) as Hends.
  split; [by vm_compute|]. exact (proj1 (proj2 (proj2 (proj2 Hends)))).
Defined.
