(* ===== verification/UringSink.v ===== *)
(** * The sink of an io_uring receive ([easyio/src/uring_recv_stream.cpp])

    Both io_uring streams split in two objects: the stream the reader holds, and the sink
    the kernel completes into, which owns the receive buffers and outlives a stream
    destroyed while an operation is in flight. This file models the part they share, the
    destructors and [on_cqe], against a kernel that completes what it was asked to, and
    the dispatch loop of the queue that delivers the completions late and in batches. *)

From S2P Require Import Prelude RecvStream.

Open Scope nat_scope.

Definition IORING_CQE_F_BUFFER : Z := 1.
Definition IORING_CQE_F_MORE : Z := 2.
Definition IORING_CQE_BUFFER_SHIFT : Z := 16.

(** An entry of a provided buffer ring: where the kernel may write (an offset in the data
    area of the mapping), how much, and the id it reports back. *)
Record ring_entry := MkEntry { re_addr : nat; re_len : nat; re_bid : nat }.

(** A completion: the two fields the code reads, and what the kernel did for it: the bytes
    it received and the provided buffer it selected for them. *)
Record cqe := MkCqe {
  cq_res : Z;
  cq_flags : Z;
  cq_data : bytes;
  cq_buffer : option ring_entry;
}.

(** [flags & F]. *)
Definition has_flag (F flags : Z) : bool := bool_decide (Z.land flags F <> 0%Z).
Definition more (c : cqe) : bool := has_flag IORING_CQE_F_MORE (cq_flags c).

(** What a stream shares with its sink: [_live], the receives submitted so far (for the
    specification), the update of [_live] at a completion, the whole of [on_cqe] while the
    stream exists, and what the kernel promises of the completions of this operation. *)
Class Sink (St : Type) := {
  sk_live : St -> bool;
  sk_submits : St -> nat;
  sk_still_live : cqe -> bool -> bool;
  sk_on_cqe : cqe -> St -> St * option handle;
  sk_kernel : cqe -> Prop;
}.

Section sink.
Context {St : Type} `{RecvStream St} `{Sink St}.

(** The sink: with its stream, orphaned ([owner == nullptr]; was a cancel queued), freed. *)
Inductive sink :=
  | Owned (s : St)
  | Orphan (live cancelling : bool)
  | Freed.

(** [~RecvStreamImpl], [~SingleShotRecvStreamImpl]; [request_cancel] is best effort, [room]
    is whether it got an SQE. *)
Definition destroy (room : bool) (s : St) : sink :=
  if sk_live s then Orphan true room else Freed.

(** [RecvSink::on_cqe], [SingleShotRecvSink::on_cqe]; [None] when the sink the completion
    is addressed to is no more: a use after free. *)
Definition on_cqe (c : cqe) (k : sink) : option sink :=
  match k with
  | Owned s => Some (Owned (sk_on_cqe c s).1)
  | Orphan live room =>
      let live := sk_still_live c live in
      if live then Some (Orphan live room) else Some Freed
  | Freed => None
  end.

(** [Queue::_dispatch] on the completions of one sink. *)
Fixpoint dispatch (cs : list cqe) (k : sink) : option sink :=
  match cs with
  | [] => Some k
  | c :: cs => match on_cqe c k with Some k => dispatch cs k | None => None end
  end.

Definition sink_live (k : sink) : bool :=
  match k with Owned s => sk_live s | Orphan live _ => live | Freed => false end.

Definition sink_submits (k : sink) : nat :=
  match k with Owned s => sk_submits s | _ => 0 end.

(** The calls of the reader's side. *)
Inductive hook : St -> St -> Prop :=
  | hook_ready s : hook s (rs_ready s).2
  | hook_arm h s : hook s (rs_arm h s)
  | hook_take s : hook s (rs_take s).2
  | hook_take_batch cap max s : hook s (rs_take_batch cap max s).2.

(** The sink between its program and the kernel: the receives in flight, and the
    completions posted and not yet dispatched. *)
Record world := MkWorld {
  w_sink : sink;
  w_flight : nat;
  w_posted : list cqe;
}.

Definition new_submits (k k' : sink) : nat := sink_submits k' - sink_submits k.

(** The kernel completes an operation in flight, which ends it unless it says [MORE]; the
    dispatch loop delivers the oldest completion; the reader uses its stream, or destroys
    it, at any point in between. *)
Inductive step : world -> world -> Prop :=
  | kernel_posts c w :
      0 < w_flight w -> sk_kernel c ->
      step w (MkWorld (w_sink w) (if more c then w_flight w else w_flight w - 1)
                (w_posted w ++ [c]))
  | dispatches c rest k w :
      w_posted w = c :: rest -> on_cqe c (w_sink w) = Some k ->
      step w (MkWorld k (w_flight w + new_submits (w_sink w) k) rest)
  | reader_calls s s' w :
      w_sink w = Owned s -> hook s s' ->
      step w (MkWorld (Owned s') (w_flight w + (sk_submits s' - sk_submits s)) (w_posted w))
  | stream_dies room s w :
      w_sink w = Owned s -> step w (MkWorld (destroy room s) (w_flight w) (w_posted w)).

(** A stream just built: its constructor submitted the first receive. *)
Definition built (s : St) : world := MkWorld (Owned s) 1 [].
End sink.

Arguments sink _ : clear implicits.
Arguments world _ : clear implicits.

(** From a moment when [live] held to [s'], the stream submitted exactly when no operation
    was live. *)
Definition submitted `{Sink St} (live : bool) (s s' : St) : Prop :=
  sk_submits s <= sk_submits s' /\
  Nat.b2n (sk_live s') = Nat.b2n live + (sk_submits s' - sk_submits s).

(** What a stream owes its sink: its calls submit exactly when they turn [_live] on, and a
    completion without [MORE] is the end of the operation. *)
Class SinkLaws (St : Type) `{RecvStream St} `{Sink St} := {
  sk_ok : St -> Prop;
  sk_still_live_law c : sk_kernel c -> sk_still_live c true = more c;
  sk_hook_law s s' : sk_ok s -> hook s s' -> sk_ok s' /\ submitted (sk_live s) s s';
  sk_cqe_law c s : sk_ok s -> sk_live s = true -> sk_kernel c ->
    sk_ok (sk_on_cqe c s).1 /\ submitted (more c) s (sk_on_cqe c s).1;
}.

Section lifetime.
Context {St : Type} `{SinkLaws St}.

Definition owned_ok (k : sink St) : Prop :=
  match k with Owned s => sk_ok s | Orphan live _ => live = true | Freed => True end.

(** [_live] is exact: an operation in flight, or its last completion on the way. *)
Inductive balanced : nat -> list cqe -> bool -> Prop :=
  | flying ms : Forall (fun c => more c = true) ms -> balanced 1 ms true
  | landing ms c : Forall (fun c => more c = true) ms -> more c = false ->
      balanced 0 (ms ++ [c]) true
  | landed : balanced 0 [] false.

Definition world_ok (w : world St) : Prop :=
  owned_ok (w_sink w) /\ Forall sk_kernel (w_posted w) /\
  balanced (w_flight w) (w_posted w) (sink_live (w_sink w)).

Lemma balanced_cons n c cs l :
  balanced n (c :: cs) l ->
  l = true /\ (more c = true /\ balanced n cs true \/ more c = false /\ n = 0 /\ cs = []).
Proof.
  intros Hb. inversion Hb as [ms Hms|ms t Hms Ht Heq|]; subst.
  - apply Forall_cons_iff in Hms as [Hc Hms]. split; [done|]. left. split; [done|]. by constructor.
  - split; [done|]. destruct ms as [|m ms]; simplify_eq/=.
    + by right.
    + apply Forall_cons_iff in Hms as [Hc Hms]. left. split; [done|]. by constructor.
Qed.

Lemma balanced_idle n cs : balanced n cs false -> n = 0 /\ cs = [].
Proof. by inversion 1. Qed.

Lemma balanced_post n cs l c :
  balanced n cs l -> 0 < n -> balanced (if more c then n else n - 1) (cs ++ [c]) l.
Proof.
  intros Hb Hn. inversion Hb as [ms Hms| |]; subst; [|lia..].
  destruct (more c) eqn:Hc; [constructor|by constructor].
  apply Forall_app. split; [done|]. by constructor.
Qed.

Lemma balanced_submit live n cs (s s' : St) :
  balanced n cs live -> submitted live s s' ->
  balanced (n + (sk_submits s' - sk_submits s)) cs (sk_live s').
Proof.
  intros Hb [_ Hsub].
  destruct live, (sk_live s'); simpl in Hsub; try lia.
  - by replace (n + _) with n by lia.
  - apply balanced_idle in Hb as [-> ->]. replace (0 + _) with 1 by lia. by constructor.
  - by replace (n + _) with n by lia.
Qed.

Lemma on_cqe_ok c k n cs :
  owned_ok k -> sk_kernel c -> balanced n (c :: cs) (sink_live k) ->
  exists k', on_cqe c k = Some k' /\ owned_ok k' /\
  balanced (n + new_submits k k') cs (sink_live k').
Proof.
  intros Hk Hc Hb. apply balanced_cons in Hb as [Hl Hcase].
  destruct k as [s|l r|]; simpl in *; [| |done].
  - eexists. split; [done|]. destruct (sk_cqe_law c s Hk Hl Hc) as [Hok Hsub].
    split; [done|]. apply (balanced_submit (more c)); [|done].
    destruct Hcase as [[-> Hcase]|(-> & -> & ->)]; [done|constructor].
  - subst l. rewrite sk_still_live_law by done.
    destruct Hcase as [[-> Hcase]|(-> & -> & ->)];
      eexists; split_and!; try done; unfold new_submits; simpl; [by rewrite Nat.add_0_r|constructor].
Qed.

Lemma step_ok w w' : world_ok w -> step w w' -> world_ok w'.
Proof.
  intros (Hk & Hcs & Hb) Hs. destruct Hs as [c w Hn Hc|c rest k w Hp Hon|s s' w Hs Hh|room s w Hs].
  - split_and!; simpl; [done| |by apply balanced_post]. apply Forall_app. split; [done|by constructor].
  - rewrite Hp in *. apply Forall_cons_iff in Hcs as [Hc Hcs].
    destruct (on_cqe_ok c _ _ _ Hk Hc Hb) as (k' & Hon' & Hk' & Hb').
    rewrite Hon in Hon'. injection Hon' as <-. by split_and!.
  - rewrite Hs in *. simpl in Hk, Hb. destruct (sk_hook_law s s' Hk Hh) as [Hok Hsub].
    split_and!; simpl; [done..|]. by apply (balanced_submit (sk_live s)).
  - rewrite Hs in *. simpl in *. unfold destroy. destruct (sk_live s) eqn:El; split_and!; done.
Qed.

Lemma world_reach_ok s w :
  sk_ok s -> sk_live s = true -> rtc step (built s) w -> world_ok w.
Proof.
  intros Hok Hl Hw. apply (rtc_invariant step world_ok step_ok _ _ Hw).
  split_and!; simpl; [done|constructor|]. rewrite Hl. by constructor.
Qed.

(** The completions still on the way when an orphan has nothing left in flight. *)
Lemma dispatch_frees cs r :
  Forall sk_kernel cs -> balanced 0 cs true -> dispatch cs (Orphan (St := St) true r) = Some Freed.
Proof.
  induction cs as [|c cs IH]; intros Hcs Hb.
  { inversion Hb as [|ms t _ _ Heq|]; subst. by destruct ms. }
  apply Forall_cons_iff in Hcs as [Hc Hcs]. apply balanced_cons in Hb as [_ Hcase].
  simpl. rewrite sk_still_live_law by done.
  destruct Hcase as [[-> Hb]|(-> & _ & ->)]; [by apply IH|done].
Qed.
End lifetime.

(** C24: the lifetime of a receive operation and of the buffers it writes. From the
    construction of an io_uring stream on, whatever the kernel completes, however late and
    in whatever batches the completions are dispatched, whenever the reader calls the
    stream and wherever in between it destroys it: there is never more than one receive in
    flight; no completion is ever dispatched to a freed sink; the sink is not freed before
    its last operation ended and its last completion was dispatched, so the kernel never
    writes into freed buffers; and a sink left behind by a destroyed stream is freed, not
    leaked, by dispatching what is on its way once the kernel ended the operation. *)
Theorem uring_sink_lifetime `{SinkLaws St} (s : St) (w : world St) :
  sk_ok s -> sk_live s = true -> rtc step (built s) w ->
  w_flight w <= 1 /\
  (forall c rest, w_posted w = c :: rest -> is_Some (on_cqe c (w_sink w))) /\
  (w_sink w = Freed -> w_flight w = 0 /\ w_posted w = []) /\
  (forall l r, w_sink w = Orphan l r -> w_flight w = 0 ->
     dispatch (w_posted w) (w_sink w) = Some Freed).
Proof.
  intros Hok Hl Hw. destruct (world_reach_ok s w Hok Hl Hw) as (Hk & Hcs & Hb). split_and!.
  - by inversion Hb; lia.
  - intros c rest Hp. rewrite Hp in *. apply Forall_cons_iff in Hcs as [Hc _].
    destruct (on_cqe_ok c _ _ _ Hk Hc Hb) as (k & Hon & _). by exists k.
  - intros Hf. rewrite Hf in Hb. by apply balanced_idle.
  - intros l r Ho Hn. rewrite Ho, Hn in *. simpl in Hk. subst l. by apply dispatch_frees.
Qed.
