(* ===== verification/UringSingleShot.v ===== *)
(** * The single-shot io_uring stream ([easyio/src/uring_recv_stream.cpp])

    [SingleShotRecvSink] and [SingleShotRecvStreamImpl]: one plain receive in flight at a
    time into one private buffer, submitted again when the reader comes back for more. A
    submission that finds no room in the submission queue throws; out of the constructor
    that is a failure of the construction, out of the [noexcept] hooks it ends the
    process, so the hooks below are those of a process that goes on. *)

From coqutil Require Import Byte.
From S2P Require Import Prelude RecvStream UringSink.

Open Scope nat_scope.

Module SingleShot.
(** [SingleShotRecvStreamImpl] with its sink's [_buf] and [_live]. [submits] counts the
    receives submitted, for the specification only. *)
Record t := Mk {
  entry_size : nat;
  buf : bytes;
  live : bool;
  len : nat;
  has_chunk : bool;
  checked_out : bool;
  eof : bool;
  err : Z;                    (** [_error] *)
  waiter : option handle;
  submits : nat;
}.

Definition some_end (s : t) : bool := eof s || bool_decide (err s <> 0%Z).

(** [_has_chunk || _eof || _error != 0]. *)
Definition something (s : t) : bool := has_chunk s || some_end s.

(** [SingleShotRecvSink::submit_recv]. *)
Definition submit_recv (s : t) : t :=
  Mk (entry_size s) (buf s) true (len s) (has_chunk s) (checked_out s) (eof s) (err s)
     (waiter s) (S (submits s)).

(** [_reclaim]. *)
Definition reclaim (s : t) : t :=
  if checked_out s then
    let s := Mk (entry_size s) (buf s) (live s) (len s) (has_chunk s) false (eof s) (err s)
                (waiter s) (submits s) in
    if bool_decide (err s = 0%Z) && negb (eof s) then submit_recv s else s
  else s.

Definition ready (s : t) : bool * t :=
  let s := reclaim s in (something s, s).

Definition arm (h : handle) (s : t) : t :=
  Mk (entry_size s) (buf s) (live s) (len s) (has_chunk s) (checked_out s) (eof s) (err s)
     (Some h) (submits s).

(** The span of the chunk: [_sink->buf()], [_len] long. *)
Definition span (s : t) : bytes := slice 0 (len s) (buf s).

Definition take (s : t) : Chunk * t :=
  if has_chunk s then
    (MkChunk (span s) 0,
     Mk (entry_size s) (buf s) (live s) (len s) false true (eof s) (err s) (waiter s) (submits s))
  else if bool_decide (err s <> 0%Z) then (MkChunk [] (- err s), s)
  else (MkChunk [] 0, s).

Definition take_batch (cap max_bytes : nat) (s : t) : list Chunk * t :=
  match cap with
  | O => ([], s)
  | S _ => let '(c, s) := take s in ([c], s)
  end.

(** [std::exchange(_waiter, nullptr)], to be resumed. *)
Definition wake (s : t) : t * option handle :=
  (Mk (entry_size s) (buf s) (live s) (len s) (has_chunk s) (checked_out s) (eof s) (err s)
      None (submits s), waiter s).

Definition handle_cqe (res : Z) (s : t) : t * option handle :=
  let s :=
    if bool_decide (res < 0)%Z then
      Mk (entry_size s) (buf s) (live s) (len s) (has_chunk s) (checked_out s) (eof s) (- res)
         (waiter s) (submits s)
    else if bool_decide (res = 0)%Z then
      Mk (entry_size s) (buf s) (live s) (len s) (has_chunk s) (checked_out s) true (err s)
         (waiter s) (submits s)
    else
      Mk (entry_size s) (buf s) (live s) (Z.to_nat res) true (checked_out s) (eof s) (err s)
         (waiter s) (submits s) in
  if something s then wake s else (s, None).

(** [SingleShotRecvSink::on_cqe] with an owner. *)
Definition on_cqe (c : cqe) (s : t) : t * option handle :=
  handle_cqe (cq_res c)
    (Mk (entry_size s) (buf s) false (len s) (has_chunk s) (checked_out s) (eof s) (err s)
        (waiter s) (submits s)).

(** The constructors: the memory [posix_memalign] gave, if any, and [-errno] when the queue
    had no room for the first receive ([system_error] leaves the constructor, and the
    memory it allocated stays: second component). *)
Definition make (es : nat) (mem : option bytes) (no_room : option Z) : outcome t * bool :=
  match mem with
  | None => (Throw bad_alloc, false)
  | Some mem =>
      match no_room with
      | Some e => (Throw (system_error e), true)
      | None => (Ok (submit_recv (Mk es mem false 0 false false false 0 None 0)), true)
      end
  end.

#[global] Instance stream : RecvStream t := {
  rs_ready := ready;
  rs_arm := arm;
  rs_take := take;
  rs_take_batch := take_batch;
}.

(** A plain receive completes exactly once. *)
#[global] Instance sink : Sink t := {
  sk_live := live;
  sk_submits := submits;
  sk_still_live _ _ := false;
  sk_on_cqe := on_cqe;
  sk_kernel c := more c = false;
}.

(** ** Invariant *)

(** The buffer is in exactly one place: with the kernel, holding a chunk, in the reader's
    hands, or out of use because the stream ended. *)
Definition placed (s : t) : Prop :=
  Nat.b2n (live s) + Nat.b2n (has_chunk s) + Nat.b2n (checked_out s) + Nat.b2n (some_end s) = 1.

Record inv (s : t) : Prop := {
  inv_mem : length (buf s) = entry_size s;
  inv_place : placed s;
  inv_len : has_chunk s || checked_out s = true -> 0 < len s <= entry_size s;
  inv_end : err s = 0%Z \/ eof s = false;
  inv_waiter : is_Some (waiter s) -> live s = true;
}.

Definition queue (s : t) : bytes := if has_chunk s then span s else [].

Definition final (s : t) : option Z :=
  if bool_decide (err s <> 0%Z) then Some (- err s)%Z
  else if eof s then Some 0%Z else None.

Definition lent (s : t) : list bytes := if checked_out s then [span s] else [].

(** The kernel wrote what it received at the start of the buffer it was given. *)
Definition kernel_write (d : bytes) (s : t) : t :=
  Mk (entry_size s) (memcpy_at (buf s) 0 d) (live s) (len s) (has_chunk s) (checked_out s)
     (eof s) (err s) (waiter s) (submits s).

(** What the kernel promises of a completion: it is of the operation in flight, reports
    the bytes it stored, and stored no more than it was given room for. *)
Definition event_ok (c : cqe) (s : t) : Prop :=
  live s = true /\ more c = false /\ length (cq_data c) <= entry_size s /\
  (if bool_decide (0 < cq_res c)%Z then cq_res c = Z.of_nat (length (cq_data c))
   else cq_data c = []).

Definition complete (c : cqe) (s : t) : t * option handle :=
  on_cqe c (kernel_write (cq_data c) s).

(** ** The laws *)

Lemma span_length s : inv s -> has_chunk s || checked_out s = true -> length (span s) = len s.
Proof.
  intros Hok Hc. unfold span. apply length_slice. rewrite (inv_mem _ Hok).
  pose proof (inv_len _ Hok Hc). lia.
Qed.

Lemma span_nonempty s : inv s -> has_chunk s || checked_out s = true -> span s <> [].
Proof.
  intros Hok Hc Hnil. pose proof (span_length s Hok Hc) as Hl. rewrite Hnil in Hl.
  pose proof (inv_len _ Hok Hc). simpl in *. lia.
Qed.

Lemma ss_queue_nil s : inv s -> queue s = [] <-> has_chunk s = false.
Proof.
  intros Hok. unfold queue. destruct (has_chunk s) eqn:Hc; [|done]. split; [|done].
  intros Hnil. exfalso. apply (span_nonempty s Hok); [by rewrite Hc|done].
Qed.

Lemma some_end_final s : some_end s = true <-> is_Some (final s).
Proof.
  unfold some_end, final. case_bool_decide; [rewrite orb_true_r; split; [by eexists|done]|].
  rewrite orb_false_r. destruct (eof s); split; naive_solver.
Qed.

Lemma ss_something_dec s : inv s -> something s = bool_decide (queue s <> [] \/ is_Some (final s)).
Proof.
  intros Hok. apply eq_true_iff_eq. unfold something.
  rewrite orb_true_iff, bool_decide_eq_true, some_end_final, (ss_queue_nil s Hok).
  destruct (has_chunk s); naive_solver.
Qed.

(** Where the buffer is, case by case. *)
Inductive place (s : t) : Prop :=
  | with_kernel :
      live s = true -> has_chunk s = false -> checked_out s = false -> final s = None -> place s
  | with_chunk :
      live s = false -> has_chunk s = true -> checked_out s = false -> final s = None -> place s
  | with_reader :
      live s = false -> has_chunk s = false -> checked_out s = true -> final s = None -> place s
  | unused e :
      live s = false -> has_chunk s = false -> checked_out s = false -> final s = Some e -> place s.

Lemma placed_place s : placed s <-> place s.
Proof.
  unfold placed. split.
  - intros Hp. assert (Hf : some_end s = false -> final s = None).
    { intros Hs. apply eq_None_not_Some. rewrite <- some_end_final. by rewrite Hs. }
    pose proof (proj1 (some_end_final s)) as Ht.
    destruct (live s) eqn:?, (has_chunk s) eqn:?, (checked_out s) eqn:?, (some_end s) eqn:?;
      simpl in Hp; try lia.
    + apply with_kernel; auto.
    + apply with_chunk; auto.
    + apply with_reader; auto.
    + destruct (Ht eq_refl) as [e He]. by apply (unused s e).
  - intros Hp. pose proof (some_end_final s) as Hs.
    destruct Hp as [-> -> -> Hf | -> -> -> Hf | -> -> -> Hf | e -> -> -> Hf]; rewrite Hf in Hs;
      destruct (some_end s); simpl; try done; exfalso;
      first [by destruct (proj1 Hs eq_refl)|by discriminate (proj2 Hs (mk_is_Some _ _ eq_refl))].
Qed.

Lemma final_None s : final s = None <-> err s = 0%Z /\ eof s = false.
Proof. unfold final. case_bool_decide; destruct (eof s); naive_solver. Qed.

Lemma reclaim_inv s : inv s -> inv (reclaim s).
Proof.
  intros Hok. unfold reclaim. destruct (checked_out s) eqn:Ho; [|done].
  destruct Hok as [Hm Hp Hl He Hw].
  destruct (proj1 (placed_place s) Hp) as [| |Hlv Hc _ Hf|]; try congruence.
  pose proof (proj1 (final_None s) Hf) as [He0 Hf0]. rewrite He0, Hf0. simpl.
  rewrite Hc. split; simpl; rewrite ?Hc; auto; done.
Qed.

Lemma ss_ready_law s :
  inv s ->
  let '(rdy, s') := ready s in
  inv s' /\ queue s' = queue s /\ final s' = final s /\ waiter s' = waiter s /\
  lent s' = [] /\ rdy = bool_decide (queue s <> [] \/ is_Some (final s)).
Proof.
  intros Hok. unfold ready. pose proof (reclaim_inv s Hok) as Hok'.
  rewrite (ss_something_dec _ Hok').
  assert (queue (reclaim s) = queue s /\ final (reclaim s) = final s /\
    waiter (reclaim s) = waiter s /\ lent (reclaim s) = []) as (Hq & Hf & Hw & Hl).
  { unfold reclaim, lent. destruct (checked_out s) eqn:Ho; [by destruct (_ && _)|by rewrite Ho]. }
  rewrite Hq, Hf. by split_and!.
Qed.

Lemma arm_law h s :
  inv s -> queue s = [] -> final s = None -> lent s = [] ->
  inv (arm h s) /\ live s = true.
Proof.
  intros [Hm Hp Hl He Hw] Hq Hf Hlent. assert (Hlive : live s = true).
  { destruct (proj1 (placed_place s) Hp) as [? ? ? ?|_ Hc _ _|_ _ Ho _|e _ _ _ ?]; try congruence.
    - apply (ss_queue_nil s) in Hq; [congruence|by split].
    - unfold lent in Hlent. by rewrite Ho in Hlent. }
  by split.
Qed.

Lemma ss_take_law s :
  inv s -> waiter s = None ->
  let '(c, s') := take s in
  inv s' /\ final s' = final s /\ waiter s' = None /\
  (queue s <> [] -> chunk_good c /\ queue s = data c ++ queue s' /\ lent s' = lent s ++ [data c]) /\
  (forall e, queue s = [] -> final s = Some e -> c = end_chunk e /\ queue s' = []).
Proof.
  intros Hok Hw. unfold take. destruct (has_chunk s) eqn:Hc.
  - assert (Hsp : span s <> []) by (apply span_nonempty; [done|by rewrite Hc]).
    destruct (proj1 (placed_place s) (inv_place _ Hok)) as [| Hlv _ Ho Hf| |]; try congruence.
    unfold queue, lent. rewrite Hc, Ho. simpl. rewrite app_nil_r.
    split_and!; try done.
    destruct Hok as [Hm Hp Hl He Hw']. split; simpl; auto.
    + apply placed_place, with_reader; done.
    + intros _. apply Hl. by rewrite Hc.
  - assert (Hq : queue s = []) by (by apply ss_queue_nil).
    case_bool_decide as He; split_and!; try done; intros e _ Hf; unfold final in Hf.
    + rewrite bool_decide_true in Hf by done. by simplify_eq.
    + rewrite bool_decide_false in Hf by lia. destruct (eof s); simplify_eq; by split.
Qed.

Lemma ss_take_batch_law cap max s :
  inv s -> 0 < cap -> 0 < max -> waiter s = None ->
  let '(cs, s') := take_batch cap max s in
  inv s' /\ final s' = final s /\ waiter s' = None /\
  (queue s <> [] ->
     cs <> [] /\ length cs <= cap /\ Forall chunk_good cs /\ batch_fits max cs /\
     queue s = batch_bytes cs ++ queue s' /\ lent s' = lent s ++ (data <$> cs)) /\
  (forall e, queue s = [] -> final s = Some e -> cs = [end_chunk e] /\ queue s' = []).
Proof.
  intros Hok Hcap Hmax Hw. destruct cap as [|cap]; [lia|]. simpl.
  pose proof (ss_take_law s Hok Hw) as Hlaw. destruct (take s) as [c s'].
  destruct Hlaw as (? & ? & ? & Hdata & Hend). split_and!; try done.
  - intros Hq. destruct (Hdata Hq) as (? & ? & ?). unfold batch_bytes. simpl.
    rewrite app_nil_r. split_and!; try done; (lia || by constructor).
  - intros e Hq Hf. by destruct (Hend e Hq Hf) as [-> ?].
Qed.

(** A completion moves the buffer from the kernel to the chunk, or ends the stream. *)
Lemma landed_law s s' :
  inv s -> live s = true -> inv s' -> checked_out s' = false -> something s' = true ->
  waiter s' = None ->
  inv s' /\ lent s' = lent s /\
  (exists d, queue s' = queue s ++ d /\ (is_Some (final s) -> d = [])) /\
  (is_Some (final s) -> final s' = final s) /\
  (forall h, waiter s = Some h <->
     waiter s = Some h /\ (queue s' <> [] \/ is_Some (final s'))) /\
  waiter s' = (match waiter s with Some _ => None | None => waiter s end).
Proof.
  intros Hok Hlive Hok' Ho' Hsome Hw'.
  destruct (proj1 (placed_place s) (inv_place _ Hok)) as [_ Hc Ho Hf| | |]; try congruence.
  rewrite ss_something_dec in Hsome by done. apply bool_decide_eq_true in Hsome.
  rewrite Hf. unfold lent. rewrite Ho, Ho'. split_and!; try done.
  - exists (queue s'). split; [|by intros []]. by rewrite (proj2 (ss_queue_nil s Hok) Hc).
  - intros h. tauto. 
  - by destruct (waiter s).
Qed.

Lemma ss_complete_law c s :
  inv s -> event_ok c s ->
  let '(s', woken) := complete c s in
  inv s' /\ lent s' = lent s /\
  (exists d, queue s' = queue s ++ d /\ (is_Some (final s) -> d = [])) /\
  (is_Some (final s) -> final s' = final s) /\
  (forall h, woken = Some h <->
     waiter s = Some h /\ (queue s' <> [] \/ is_Some (final s'))) /\
  waiter s' = (match woken with Some _ => None | None => waiter s end).
Proof.
  intros Hok (Hlive & _ & Hroom & Hres). pose proof (landed_law s) as Hland.
  specialize (fun s' => Hland s' Hok Hlive).
  destruct (proj1 (placed_place s) (inv_place _ Hok)) as [_ Hc Ho Hf| | |]; try congruence.
  pose proof (proj1 (final_None s) Hf) as [He0 Hf0]. pose proof (inv_mem _ Hok) as Hm.
  clear Hok Hf. destruct s as [es bf lv ln ch out ef er w sub]. simpl in *. subst.
  assert (Hmem : length (memcpy_at bf 0 (cq_data c)) = length bf).
  { rewrite length_memcpy_at; simpl; lia. }
  unfold complete, on_cqe, handle_cqe, kernel_write. simpl.
  destruct (bool_decide_reflect (cq_res c < 0)%Z) as [Hneg|Hneg];
    [|destruct (bool_decide_reflect (cq_res c = 0)%Z) as [Hzero|Hzero]];
    unfold something, some_end; simpl.
  - rewrite (bool_decide_true (- cq_res c <> 0)%Z) by lia. apply Hland; try done.
    + split; simpl; auto; try done. unfold placed, some_end. simpl.
      by rewrite bool_decide_true by lia.
    + unfold something, some_end. simpl. by rewrite bool_decide_true by lia.
  - apply Hland; try done. by split; simpl; auto.
  - rewrite bool_decide_true in Hres by lia. apply Hland; try done.
    split; simpl; auto; try done. intros _. lia.
Qed.

(** The constructed stream. *)
Lemma ss_make_inv es mem s :
  length mem = es -> (make es (Some mem) None).1 = Ok s -> inv s /\ live s = true.
Proof. intros Hmem [= <-]. by repeat split; auto. Qed.

#[global] Program Instance stream_laws : RecvStreamLaws t := {
  rs_inv := inv;
  rs_queue := queue;
  rs_final := final;
  rs_waiter := waiter;
  rs_lent := lent;
  rs_event := cqe;
  rs_event_ok := event_ok;
  rs_complete := complete;
  rs_ready_law := ss_ready_law;
  rs_take_batch_law := ss_take_batch_law;
  rs_take_law := ss_take_law;
  rs_complete_law := ss_complete_law;
}.
Next Obligation.
  intros s Hok Hw%(inv_waiter s Hok).
  destruct (proj1 (placed_place s) (inv_place _ Hok)) as [_ Hc Ho Hf| | |]; try congruence.
  by rewrite ss_queue_nil.
Qed.
Next Obligation.
  intros h s Hok Hq Hf Hl. destruct (arm_law h s Hok Hq Hf Hl) as [Hok' _]. by split_and!.
Qed.

(** ** The sink *)

(** A call that does not submit. *)
Lemma quiet s s' : submits s' = submits s -> live s' = live s -> submitted (live s) s s'.
Proof. intros Hs Hl. split; simpl; rewrite ?Hl; lia. Qed.

Lemma reclaim_sink s : placed s -> placed (reclaim s) /\ submitted (live s) s (reclaim s).
Proof.
  intros Hp. unfold reclaim. destruct (checked_out s) eqn:Ho; [|by split; [|apply quiet]].
  destruct (proj1 (placed_place s) Hp) as [| |Hlv Hc _ Hf|]; try congruence.
  pose proof (proj1 (final_None s) Hf) as [He0 Hf0].
  unfold placed, some_end, submitted. rewrite He0, Hf0, Hlv. simpl. rewrite ?Hc, ?He0, ?Hf0.
  simpl. split; [done|]. lia.
Qed.

Lemma take_sink s : placed s -> placed (take s).2 /\ submitted (live s) s (take s).2.
Proof.
  intros Hp. unfold take. destruct (has_chunk s) eqn:Hc.
  - split; [|by apply quiet].
    destruct (proj1 (placed_place s) Hp) as [|Hlv _ Ho Hf| |]; try congruence.
    apply placed_place, with_reader; done.
  - case_bool_decide; (split; [done|by apply quiet]).
Qed.

Lemma on_cqe_sink c s :
  placed s -> live s = true -> placed (on_cqe c s).1 /\ submitted false s (on_cqe c s).1.
Proof.
  intros Hp Hlive. destruct (proj1 (placed_place s) Hp) as [_ Hc Ho Hf| | |]; try congruence.
  pose proof (proj1 (final_None s) Hf) as [He0 Hf0]. clear Hp Hf.
  destruct s as [es bf lv ln ch out ef er w sub]. simpl in *. subst.
  unfold placed, submitted, on_cqe, handle_cqe, something, some_end. simpl.
  destruct (bool_decide_reflect (cq_res c < 0)%Z) as [Hneg|Hneg]; simpl.
  - rewrite (bool_decide_true (- cq_res c <> 0)%Z) by lia. simpl.
    rewrite (bool_decide_true (- cq_res c <> 0)%Z) by lia. simpl. lia.
  - destruct (bool_decide (cq_res c = 0)%Z); simpl; lia.
Qed.

#[global] Program Instance sink_laws : SinkLaws t := { sk_ok := placed }.
Next Obligation. intros c Hc. by rewrite Hc. Qed.
Next Obligation.
  intros s s' Hp Hh. destruct Hh as [s|h s|s|[|cap] max s]; simpl;
    try (split; [done|by apply quiet]); [by apply reclaim_sink|by apply take_sink|].
  pose proof (take_sink s Hp). unfold take_batch. by destruct (take s).
Qed.
Next Obligation. intros c s Hp Hl Hc. rewrite Hc. by apply on_cqe_sink. Qed.
End SingleShot.

Import SingleShot.

(** C27: the one buffer of a single-shot stream is never shared. In every state a reader
    and the kernel can bring the stream to, the buffer is in exactly one place: receiving,
    behind a queued chunk, in the reader's hands, or out of use because the stream ended.
    While the reader holds the chunk the kernel has nothing to complete, so the bytes stay
    put, and coming back for more submits the next receive; and a suspended reader is never
    forgotten: a receive is in flight for it. *)
Theorem single_shot_exclusive (s0 s : t) :
  inv s0 -> rtc use s0 s ->
  Nat.b2n (live s) + Nat.b2n (bool_decide (queue s <> [])) + Nat.b2n (bool_decide (lent s <> [])) +
    Nat.b2n (bool_decide (is_Some (final s))) = 1 /\
  (lent s <> [] -> (forall c, ~ event_ok c s) /\ live (ready s).2 = true) /\
  (is_Some (waiter s) -> live s = true).
Proof.
  intros Hinv Huse. pose proof (uses_inv s0 s Hinv Huse) as Hs.
  assert (Hlent : lent s <> [] <-> checked_out s = true) by (unfold lent; destruct (checked_out s); naive_solver).
  pose proof (ss_queue_nil s Hs) as Hq. split_and!; [| |apply Hs].
  - assert (Hb : forall (b : bool) (P : Prop) `{Decision P}, (P <-> b = true) -> bool_decide P = b).
    { intros b P HP Hiff. destruct b; [by apply bool_decide_true, Hiff|].
      apply bool_decide_false. rewrite Hiff. done. }
    rewrite (Hb (has_chunk s) (queue s <> [])), (Hb (checked_out s) (lent s <> [])),
      (Hb (some_end s) (is_Some (final s))).
    + apply (inv_place _ Hs).
    + by rewrite some_end_final.
    + done.
    + rewrite Hq. by destruct (has_chunk s).
  - intros Ho%Hlent. destruct (proj1 (placed_place s) (inv_place _ Hs)) as [| |Hlv _ _ Hf|]; try congruence.
    split; [intros c [Hl _]; congruence|].
    apply final_None in Hf as [He Hx]. unfold ready, reclaim. by rewrite Ho, He, Hx.
Qed.
