(* ===== verification/UringMultishot.v ===== *)
(** * The multishot io_uring stream ([easyio/src/uring_recv_stream.cpp])

    [RecvSink] and [RecvStreamImpl]: one multishot receive that the kernel keeps completing
    into buffers it selects from a provided buffer ring, until it fails, meets the end of
    the stream or runs out of buffers, and that is submitted again when buffers come back.
    The ring is liburing's and the kernel's: [BufRing] is what the code calls, its laws
    what it relies on. As in [UringSingleShot], the hooks are those of a process that found
    room in the submission queue. *)

From coqutil Require Import Byte.
From S2P Require Import Prelude RecvStream UringSink UringSingleShot.

Open Scope nat_scope.

(** [io_uring_buf_ring_init], [_mask], [_add] (entry, mask, offset), [_advance], and the
    kernel's selection of an entry. *)
Class BufRing (R : Type) := {
  ring_init : R;
  ring_mask : nat -> nat;
  ring_add : ring_entry -> nat -> nat -> R -> R;
  ring_advance : nat -> R -> R;
  ring_select : ring_entry -> R -> R;
}.

(** The loops of the sources: entries added at offsets [i], [i + 1], ... *)
Fixpoint ring_add_all `{BufRing R} (mask i : nat) (es : list ring_entry) (r : R) : R :=
  match es with
  | [] => r
  | e :: es => ring_add_all mask (S i) es (ring_add e mask i r)
  end.

(** The documented behaviour: what was added at offsets [0 .. n-1] becomes available, in
    order, by advancing by [n], in a ring with room for it; the kernel takes an available
    entry out. *)
Class BufRingLaws (R : Type) `{BufRing R} := {
  avail : R -> list ring_entry;
  avail_init : avail ring_init = [];
  avail_publish n r es :
    (exists k, n = 2 ^ k) -> length (avail r) + length es <= n ->
    avail (ring_advance (length es) (ring_add_all (ring_mask n) 0 es r)) = avail r ++ es;
  avail_select e r : e ∈ avail r -> avail r ≡ₚ e :: avail (ring_select e r);
}.

Module Multishot.
Section stream.
Context {R : Type} `{BufRing R}.

(** [RecvStreamImpl] with its sink's buffers, ring and [_live]. For the specification
    only: [submits] counts the receives submitted, [lent] adds to [checked_out] the lengths
    of the spans handed out. *)
Record t := Mk {
  entry_size : nat;
  entries : nat;
  mem : bytes;                  (** the data area, from [_buf_base] on *)
  ring : R;                     (** [_br] *)
  live : bool;
  pending : list (nat * nat);   (** [{buf_idx, len}], front first *)
  checked_out : list nat;
  eof : bool;
  err : Z;                      (** [_error] *)
  needs_resubmit : bool;
  waiter : option handle;
  submits : nat;
  lent : list (nat * nat);
}.

Definition some_end (s : t) : bool := eof s || bool_decide (err s <> 0%Z).

(** [!_pending.empty() || _eof || _error != 0]. *)
Definition something (s : t) : bool := bool_decide (pending s <> []) || some_end s.

(** The entry of buffer [idx]: [_buf_base + idx * _entry_size]. The code casts the length to
    [unsigned int] and the index to [unsigned short], which change nothing at the sizes the
    program uses (128 KiB, at most 256 entries). *)
Definition entry (s : t) (idx : nat) : ring_entry :=
  MkEntry (idx * entry_size s) (entry_size s) idx.

(** The bytes behind a span of buffer [p.1]. *)
Definition deref (s : t) (p : nat * nat) : bytes := slice (p.1 * entry_size s) p.2 (mem s).

(** [RecvSink::submit_recv]. *)
Definition submit_recv (s : t) : t :=
  Mk (entry_size s) (entries s) (mem s) (ring s) true (pending s) (checked_out s) (eof s)
     (err s) (needs_resubmit s) (waiter s) (S (submits s)) (lent s).

Definition set_needs (b : bool) (s : t) : t :=
  Mk (entry_size s) (entries s) (mem s) (ring s) (live s) (pending s) (checked_out s) (eof s)
     (err s) b (waiter s) (submits s) (lent s).

Definition set_eof (s : t) : t :=
  Mk (entry_size s) (entries s) (mem s) (ring s) (live s) (pending s) (checked_out s) true
     (err s) (needs_resubmit s) (waiter s) (submits s) (lent s).

Definition set_error (e : Z) (s : t) : t :=
  Mk (entry_size s) (entries s) (mem s) (ring s) (live s) (pending s) (checked_out s) (eof s)
     e (needs_resubmit s) (waiter s) (submits s) (lent s).

Definition push_pending (p : nat * nat) (s : t) : t :=
  Mk (entry_size s) (entries s) (mem s) (ring s) (live s) (pending s ++ [p]) (checked_out s)
     (eof s) (err s) (needs_resubmit s) (waiter s) (submits s) (lent s).

(** [_maybe_resubmit]. *)
Definition maybe_resubmit (s : t) : t :=
  if needs_resubmit s && bool_decide (checked_out s = []) then submit_recv (set_needs false s)
  else s.

(** [_return_checked_out]. *)
Definition return_checked_out (s : t) : t :=
  let s :=
    if bool_decide (checked_out s <> []) then
      let es := entry s <$> checked_out s in
      let r := ring_add_all (ring_mask (entries s)) 0 es (ring s) in
      Mk (entry_size s) (entries s) (mem s) (ring_advance (length (checked_out s)) r) (live s)
         (pending s) [] (eof s) (err s) (needs_resubmit s) (waiter s) (submits s) []
    else s in
  maybe_resubmit s.

Definition ready (s : t) : bool * t :=
  let s := return_checked_out s in (something s, s).

Definition arm (h : handle) (s : t) : t :=
  Mk (entry_size s) (entries s) (mem s) (ring s) (live s) (pending s) (checked_out s) (eof s)
     (err s) (needs_resubmit s) (Some h) (submits s) (lent s).

(** [_pending.pop_front(); _checked_out.push_back(p.buf_idx)]. *)
Definition check_out (p : nat * nat) (rest : list (nat * nat)) (s : t) : t :=
  Mk (entry_size s) (entries s) (mem s) (ring s) (live s) rest (checked_out s ++ [p.1]) (eof s)
     (err s) (needs_resubmit s) (waiter s) (submits s) (lent s ++ [p]).

(** The chunk returned when nothing is pending. *)
Definition terminal (s : t) : Chunk :=
  if bool_decide (err s <> 0%Z) then MkChunk [] (- err s) else MkChunk [] 0.

Definition take (s : t) : Chunk * t :=
  match pending s with
  | p :: rest => (MkChunk (deref s p) 0, check_out p rest s)
  | [] => (terminal s, s)
  end.

(** The [while] of [_take_batch]: [cap] slots of [out] left, [bytes] gathered. *)
Fixpoint take_loop (cap max_bytes bytes : nat) (s : t) : list Chunk * t :=
  match cap with
  | O => ([], s)
  | S cap =>
      if bool_decide (bytes < max_bytes) then
        match pending s with
        | p :: rest =>
            let '(cs, s') := take_loop cap max_bytes (bytes + p.2) (check_out p rest s) in
            (MkChunk (deref s p) 0 :: cs, s')
        | [] => ([], s)
        end
      else ([], s)
  end.

Definition take_batch (cap max_bytes : nat) (s : t) : list Chunk * t :=
  match take_loop cap max_bytes 0 s with
  | ([], s') => ([terminal s'], s')
  | (cs, s') => (cs, s')
  end.

(** [std::exchange(_waiter, nullptr)], to be resumed. *)
Definition wake (s : t) : t * option handle :=
  (Mk (entry_size s) (entries s) (mem s) (ring s) (live s) (pending s) (checked_out s) (eof s)
      (err s) (needs_resubmit s) None (submits s) (lent s), waiter s).

(** The first part of [handle_cqe]: what the completion says, and [enobufs]. *)
Definition sort_cqe (res flags : Z) (s : t) : t * bool :=
  if bool_decide (res < 0)%Z then
    if bool_decide (- res = ENOBUFS)%Z then (set_needs true s, true)
    else (set_error (- res) s, false)
  else if has_flag IORING_CQE_F_BUFFER flags then
    let s := push_pending (Z.to_nat (Z.shiftr flags IORING_CQE_BUFFER_SHIFT), Z.to_nat res) s in
    if negb (has_flag IORING_CQE_F_MORE flags) then (set_needs true s, true) else (s, false)
  else (set_eof s, false).

(** [handle_cqe] up to the wake-up. *)
Definition settle_cqe (res flags : Z) (s : t) : t :=
  let '(s, enobufs) := sort_cqe res flags s in
  let s := if negb (has_flag IORING_CQE_F_MORE flags) && bool_decide (err s = 0%Z) &&
              negb (eof s) && negb enobufs
           then set_eof s else s in
  if enobufs then maybe_resubmit s else s.

Definition handle_cqe (res flags : Z) (s : t) : t * option handle :=
  let s := settle_cqe res flags s in
  if something s then wake s else (s, None).

(** [RecvSink::on_cqe]: [_live] first, *)
Definition landing (c : cqe) (s : t) : t :=
  Mk (entry_size s) (entries s) (mem s) (ring s) (more c && live s) (pending s)
     (checked_out s) (eof s) (err s) (needs_resubmit s) (waiter s) (submits s) (lent s).

(** then the owner. *)
Definition on_cqe (c : cqe) (s : t) : t * option handle :=
  handle_cqe (cq_res c) (cq_flags c) (landing c s).

(** ** Construction *)

Definition kHugePageSize : Z := Z.shiftl 1 21.

(** [sizeof(io_uring_buf) * _entries + _entry_size * _entries]. *)
Definition mmap_len (es n : nat) : Z := u64 (16 * Z.of_nat n + Z.of_nat es * Z.of_nat n).

(** [(_mmap_len + kHugePageSize - 1) & ~(kHugePageSize - 1)]. *)
Definition huge_len (len : Z) : Z :=
  Z.land (u64 (len + kHugePageSize - 1)) (u64 (Z.lnot (kHugePageSize - 1))).

(** What a constructor acquired and does not give back when it throws. *)
Inductive resource := Mapped (len : Z) | Registered (bgid : Z).

(** [RecvSink::RecvSink], and the stream around it, with what the kernel answers: whether
    each [mmap] succeeds (the pages are zero), the result of [io_uring_register_buf_ring],
    the error of [_get_sqe] if any. The second component is what is held at the end. *)
Definition make (es n : nat) (bgid : Z) (huge plain : bool) (ret : Z) (no_room : option Z)
    : outcome t * list resource :=
  if negb (huge || plain) then (Throw bad_alloc, [])
  else
    let len := if huge then huge_len (mmap_len es n) else mmap_len es n in
    if bool_decide (ret < 0)%Z then (Throw (system_error (- ret)), [])
    else
      let s := Mk es n (replicate (n * es) Byte.x00) ring_init false [] [] false 0 false None 0 [] in
      let r := ring_add_all (ring_mask n) 0 (entry s <$> seq 0 n) ring_init in
      let s := Mk es n (mem s) (ring_advance n r) false [] [] false 0 false None 0 [] in
      match no_room with
      | Some e => (Throw (system_error e), [Mapped len; Registered bgid])
      | None => (Ok (submit_recv s), [Mapped len; Registered bgid])
      end.

#[global] Instance stream : RecvStream t := {
  rs_ready := ready;
  rs_arm := arm;
  rs_take := take;
  rs_take_batch := take_batch;
}.

(** A receive with buffer selection says which buffer it filled, and announces more only
    when it received something. *)
#[global] Instance sink : Sink t := {
  sk_live := live;
  sk_submits := submits;
  sk_still_live c live := more c && live;
  sk_on_cqe := on_cqe;
  sk_kernel c :=
    if bool_decide (0 < cq_res c)%Z then has_flag IORING_CQE_F_BUFFER (cq_flags c) = true
    else more c = false;
}.
End stream.
Arguments t R : clear implicits.

Section proofs.
Context {R : Type} `{BufRingLaws R}.
Implicit Types s : t R.

(** ** Invariant *)

(** The buffers out of the ring: handed out, then pending. *)
Definition occupied (s : t R) : list (nat * nat) := lent s ++ pending s.

(** The operation is live unless it waits for buffers or the stream ended; it waits only
    while the reader holds buffers, whose return submits it again. *)
Record flow_ok (s : t R) : Prop := {
  fl_live : live s = negb (needs_resubmit s) && negb (some_end s);
  fl_ended : some_end s = true -> needs_resubmit s = false;
  fl_needs : needs_resubmit s = true -> checked_out s <> [];
}.

Record buffers_ok (s : t R) : Prop := {
  bf_size : exists k, entries s = 2 ^ k;
  bf_mem : length (mem s) = entries s * entry_size s;
  (** every buffer is in exactly one place *)
  bf_all : (re_bid <$> avail (ring s)) ++ (occupied s).*1 ≡ₚ seq 0 (entries s);
  bf_entries : Forall (fun e => e = entry s (re_bid e)) (avail (ring s));
  bf_out : checked_out s = (lent s).*1;
  bf_len : Forall (fun p => 0 < p.2 <= entry_size s) (occupied s);
}.

Record inv (s : t R) : Prop := {
  inv_flow : flow_ok s;
  inv_buffers : buffers_ok s;
  inv_end : err s = 0%Z \/ eof s = false;
  inv_waiter : is_Some (waiter s) -> checked_out s = [] /\ something s = false;
}.

Definition queue (s : t R) : bytes := mjoin (deref s <$> pending s).

Definition final (s : t R) : option Z :=
  if bool_decide (err s <> 0%Z) then Some (- err s)%Z
  else if eof s then Some 0%Z else None.

(** The kernel received [d] into the buffer it selected, if any. *)
Definition kernel_write (c : cqe) (s : t R) : t R :=
  match cq_buffer c with
  | Some e =>
      Mk (entry_size s) (entries s) (memcpy_at (mem s) (re_addr e) (cq_data c))
         (ring_select e (ring s)) (live s) (pending s) (checked_out s) (eof s) (err s)
         (needs_resubmit s) (waiter s) (submits s) (lent s)
  | None => s
  end.

(** What the kernel promises of a completion of the live operation: with data, the buffer
    is one it was provided and reports, filled within its length; without, the operation
    ended. *)
Definition event_ok (c : cqe) (s : t R) : Prop :=
  live s = true /\
  match cq_buffer c with
  | Some e =>
      e ∈ avail (ring s) /\ 0 < length (cq_data c) <= re_len e /\
      cq_res c = Z.of_nat (length (cq_data c)) /\
      has_flag IORING_CQE_F_BUFFER (cq_flags c) = true /\
      Z.shiftr (cq_flags c) IORING_CQE_BUFFER_SHIFT = Z.of_nat (re_bid e)
  | None =>
      (cq_res c <= 0)%Z /\ more c = false /\ has_flag IORING_CQE_F_BUFFER (cq_flags c) = false
  end.

Definition complete (c : cqe) (s : t R) : t R * option handle := on_cqe c (kernel_write c s).

(** ** The buffers *)

Lemma buffers_distinct s : buffers_ok s -> NoDup ((re_bid <$> avail (ring s)) ++ (occupied s).*1).
Proof. intros Hok. rewrite (bf_all _ Hok). apply NoDup_seq. Qed.

Lemma ms_occupied_bound s p : buffers_ok s -> p ∈ occupied s -> p.1 < entries s.
Proof.
  intros Hok Hp. assert (Hin : p.1 ∈ seq 0 (entries s)).
  { rewrite <- (bf_all _ Hok). apply elem_of_app. right. by apply list_elem_of_fmap_2. }
  apply elem_of_seq in Hin. lia.
Qed.

Lemma avail_bound s e : buffers_ok s -> e ∈ avail (ring s) -> e = entry s (re_bid e) /\ re_bid e < entries s.
Proof.
  intros Hok He. split; [exact (Forall_elem _ _ _ (bf_entries _ Hok) He)|].
  assert (Hin : re_bid e ∈ seq 0 (entries s)).
  { rewrite <- (bf_all _ Hok). apply elem_of_app. left. by apply list_elem_of_fmap_2. }
  apply elem_of_seq in Hin. lia.
Qed.

Lemma avail_free s e p :
  buffers_ok s -> e ∈ avail (ring s) -> p ∈ occupied s -> p.1 <> re_bid e.
Proof.
  intros Hok He Hp Heq. apply buffers_distinct, list.NoDup_app in Hok as (_ & Hdis & _).
  apply (Hdis (re_bid e)); [by apply list_elem_of_fmap_2|]. rewrite <- Heq. by apply list_elem_of_fmap_2.
Qed.

Lemma ms_deref_length s p : buffers_ok s -> p ∈ occupied s -> length (deref s p) = p.2.
Proof.
  intros Hok Hp. unfold deref. apply length_slice. rewrite (bf_mem _ Hok).
  pose proof (ms_occupied_bound s p Hok Hp).
  pose proof (Forall_elem _ _ p (bf_len _ Hok) Hp) as Hl. simpl in Hl. nia.
Qed.

Lemma ms_deref_nonempty s p : buffers_ok s -> p ∈ occupied s -> deref s p <> [].
Proof.
  intros Hok Hp Hnil. pose proof (ms_deref_length s p Hok Hp) as Hl. rewrite Hnil in Hl.
  pose proof (Forall_elem _ _ p (bf_len _ Hok) Hp) as Hl2. simpl in *. lia.
Qed.

(** A change of the fields around the buffers keeps them. *)
Lemma buffers_ok_ext s s' :
  buffers_ok s -> entry_size s' = entry_size s -> entries s' = entries s -> mem s' = mem s ->
  ring s' = ring s -> occupied s' = occupied s -> checked_out s' = (lent s').*1 -> buffers_ok s'.
Proof.
  intros [] He Hn Hm Hr Ho Hc.
  split; rewrite ?He, ?Hn, ?Hm, ?Hr, ?Ho; auto. unfold entry. by rewrite He.
Qed.

(** A buffer selected from the ring and filled becomes the last pending chunk. *)
Section receive.
Context (s : t R) (e : ring_entry) (d : bytes).
Hypothesis Hok : buffers_ok s.
Hypothesis He : e ∈ avail (ring s).
Hypothesis Hd : 0 < length d <= re_len e.

Definition receive : t R :=
  Mk (entry_size s) (entries s) (memcpy_at (mem s) (re_addr e) d) (ring_select e (ring s))
     (live s) (pending s ++ [(re_bid e, length d)]) (checked_out s) (eof s) (err s)
     (needs_resubmit s) (waiter s) (submits s) (lent s).

Lemma receive_room : length d <= entry_size s /\ re_addr e = re_bid e * entry_size s /\
  re_addr e + length d <= length (mem s).
Proof using All.
  destruct (avail_bound s e Hok He) as [Heq Hlt]. rewrite Heq in *. simpl in *.
  rewrite (bf_mem _ Hok). split_and!; [lia|done|nia].
Qed.

Lemma receive_deref_old p : p ∈ occupied s -> deref receive p = deref s p.
Proof using All.
  intros Hp. destruct receive_room as (Hl & Ha & Hm). unfold deref. simpl.
  apply slice_memcpy_at_ne; [done|]. pose proof (avail_free s e p Hok He Hp).
  pose proof (Forall_elem _ _ p (bf_len _ Hok) Hp) as Hl2. simpl in Hl2. rewrite Ha. nia.
Qed.

Lemma receive_deref_new : deref receive (re_bid e, length d) = d.
Proof using All.
  destruct receive_room as (Hl & Ha & Hm). unfold deref. simpl. rewrite <- Ha.
  by apply slice_memcpy_at_eq.
Qed.

Lemma receive_occupied : occupied receive = occupied s ++ [(re_bid e, length d)].
Proof using. unfold occupied. simpl. by rewrite app_assoc. Qed.

Lemma ms_receive_ok : buffers_ok receive.
Proof using All.
  destruct receive_room as (Hl & Ha & Hm). pose proof (avail_select e (ring s) He) as Hperm.
  split.
  - apply (bf_size _ Hok).
  - simpl. rewrite length_memcpy_at by done. apply (bf_mem _ Hok).
  - rewrite receive_occupied, fmap_app. simpl. rewrite <- (bf_all _ Hok), Hperm. simpl.
    by rewrite app_assoc, <- Permutation_cons_append.
  - pose proof (bf_entries _ Hok) as Hall. rewrite Hperm in Hall. by apply Forall_cons_iff in Hall as [_ ?].
  - apply (bf_out _ Hok).
  - rewrite receive_occupied. apply Forall_app. split; [apply (bf_len _ Hok)|]. constructor; [simpl; lia|done].
Qed.

Lemma receive_queue : queue receive = queue s ++ d.
Proof using All.
  unfold queue. simpl. rewrite fmap_app, join_app. f_equal.
  - f_equal. apply list_fmap_ext. intros i p Hp.
    apply receive_deref_old, elem_of_app. right. by eapply list_elem_of_lookup_2.
  - simpl. by rewrite receive_deref_new, app_nil_r.
Qed.

Lemma receive_lent : deref receive <$> lent s = deref s <$> lent s.
Proof using All.
  apply list_fmap_ext. intros i p Hp. apply receive_deref_old, elem_of_app. left.
  by eapply list_elem_of_lookup_2.
Qed.
End receive.

(** *** The ends of the stream *)

Lemma ms_some_end_final s : some_end s = true <-> is_Some (final s).
Proof.
  unfold some_end, final. case_bool_decide; [rewrite orb_true_r; split; [by eexists|done]|].
  rewrite orb_false_r. destruct (eof s); split; naive_solver.
Qed.

Lemma ms_final_None s : final s = None <-> err s = 0%Z /\ eof s = false.
Proof. unfold final. case_bool_decide; destruct (eof s); naive_solver. Qed.

Lemma ms_queue_nil s : buffers_ok s -> queue s = [] <-> pending s = [].
Proof.
  intros Hok. unfold queue. split; [|by intros ->].
  destruct (pending s) as [|p ps] eqn:Ep; [done|]. simpl. intros [Hnil _]%app_nil.
  exfalso. apply (ms_deref_nonempty s p Hok); [|done]. unfold occupied. rewrite Ep.
  apply elem_of_app. right. left.
Qed.

Lemma ms_something_dec s :
  buffers_ok s -> something s = bool_decide (queue s <> [] \/ is_Some (final s)).
Proof.
  intros Hok. apply eq_true_iff_eq. unfold something.
  by rewrite orb_true_iff, !bool_decide_eq_true, ms_some_end_final, (ms_queue_nil s Hok).
Qed.

Lemma ms_nothing s : buffers_ok s -> something s = false -> queue s = [] /\ final s = None.
Proof.
  intros Hok Hs. rewrite ms_something_dec in Hs by done. apply bool_decide_eq_false in Hs.
  split; [apply dec_stable; tauto|]. apply eq_None_not_Some. tauto.
Qed.

Lemma ms_terminal_final s e : final s = Some e -> terminal s = end_chunk e.
Proof.
  unfold final, terminal, end_chunk. repeat case_bool_decide; destruct (eof s); naive_solver.
Qed.

(** *** The operations of the reader *)

(** [_maybe_resubmit] only concerns the operation. *)
Lemma maybe_resubmit_same s :
  let s' := maybe_resubmit s in
  (buffers_ok s -> buffers_ok s') /\ queue s' = queue s /\ final s' = final s /\
  waiter s' = waiter s /\ (deref s' <$> lent s' = deref s <$> lent s) /\
  checked_out s' = checked_out s /\ something s' = something s /\ (err s' = err s) /\ eof s' = eof s /\
  lent s' = lent s.
Proof.
  unfold maybe_resubmit. destruct (_ && _); [|by split_and!].
  split_and!; try done. intros Hok. apply (buffers_ok_ext s); try done. apply (bf_out _ Hok).
Qed.

Lemma maybe_resubmit_flow s :
  live s = negb (needs_resubmit s) && negb (some_end s) ->
  (some_end s = true -> needs_resubmit s = false) -> flow_ok (maybe_resubmit s).
Proof.
  intros Hl He. unfold maybe_resubmit.
  destruct (needs_resubmit s) eqn:En; simpl; [case_bool_decide as Ho|].
  - split; unfold some_end in *; simpl; try done.
    destruct (eof s || bool_decide (err s <> 0%Z)); [by specialize (He eq_refl)|done].
  - split; rewrite ?En; auto.
  - split; rewrite ?En; auto; done.
Qed.

Lemma avail_length s : buffers_ok s -> length (avail (ring s)) + length (occupied s) = entries s.
Proof.
  intros Hok. pose proof (Permutation_length (bf_all _ Hok)) as Hl.
  by rewrite length_app, !length_fmap, length_seq in Hl.
Qed.

Lemma checked_out_entries s : buffers_ok s -> re_bid <$> (entry s <$> checked_out s) = (lent s).*1.
Proof.
  intros Hok. rewrite <- list_fmap_compose, (bf_out _ Hok), <- list_fmap_compose.
  by apply list_fmap_ext.
Qed.

Lemma return_buffers s :
  buffers_ok s -> checked_out s <> [] ->
  let r := ring_add_all (ring_mask (entries s)) 0 (entry s <$> checked_out s) (ring s) in
  buffers_ok (Mk (entry_size s) (entries s) (mem s) (ring_advance (length (checked_out s)) r)
    (live s) (pending s) [] (eof s) (err s) (needs_resubmit s) (waiter s) (submits s) []).
Proof.
  intros Hok Hout r. pose proof (avail_length s Hok) as Hlen. pose proof (bf_len _ Hok) as Hl.
  unfold occupied in *. rewrite length_app in Hlen. apply Forall_app in Hl as [_ Hl].
  assert (Ha : avail (ring_advance (length (checked_out s)) r) =
    avail (ring s) ++ (entry s <$> checked_out s)).
  { unfold r. rewrite <- (length_fmap (entry s)). apply avail_publish; [apply (bf_size _ Hok)|].
    rewrite length_fmap, (bf_out _ Hok), length_fmap. lia. }
  split; unfold occupied; simpl; rewrite ?Ha; try done; try apply Hok.
  - rewrite fmap_app, checked_out_entries, <- app_assoc, <- fmap_app by done.
    apply (bf_all _ Hok).
  - apply Forall_app. split; [apply (bf_entries _ Hok)|].
    apply Forall_fmap, Forall_forall. done.
Qed.

Lemma ms_return_checked_out_ok s :
  inv s ->
  let s' := return_checked_out s in
  inv s' /\ queue s' = queue s /\ final s' = final s /\ waiter s' = waiter s /\
  deref s' <$> lent s' = [] /\ something s' = something s.
Proof.
  intros [Hf Hb He Hw]. unfold return_checked_out.
  set (s1 := if bool_decide (checked_out s <> []) then _ else s).
  assert (Hs1 : buffers_ok s1 /\ lent s1 = [] /\ checked_out s1 = [] /\ live s1 = live s /\
    needs_resubmit s1 = needs_resubmit s /\ some_end s1 = some_end s /\ queue s1 = queue s /\
    final s1 = final s /\ waiter s1 = waiter s /\ something s1 = something s /\
    err s1 = err s /\ eof s1 = eof s).
  { unfold s1. case_bool_decide as Ho.
    - pose proof (return_buffers s Hb Ho). by split_and!.
    - pose proof (bf_out _ Hb) as Hl. rewrite Ho in Hl.
      symmetry in Hl. apply fmap_nil_inv in Hl. by split_and!. }
  clearbody s1. destruct Hs1 as (Hb1 & Hl1 & Ho1 & Hv1 & Hn1 & Hse1 & Hq1 & Hf1 & Hw1 & Hsm1 & He1 & Hx1).
  destruct (maybe_resubmit_same s1) as (Hb2 & Hq2 & Hf2 & Hw2 & _ & Ho2 & Hsm2 & He2 & Hx2 & Hl2).
  cbn zeta. rewrite Hq2, Hf2, Hw2, Hl2, Hl1, Hsm2, Hq1, Hf1, Hw1, Hsm1. split_and!; try done.
  split; [|by apply Hb2| |].
  - apply maybe_resubmit_flow; rewrite Hn1, Hse1, ?Hv1; apply Hf.
  - by rewrite He2, Hx2, He1, Hx1.
  - rewrite Hw2, Hw1, Ho2, Ho1, Hsm2, Hsm1. intros Hsome. split; [done|]. by apply Hw.
Qed.

Lemma ms_check_out_ok p rest s :
  pending s = p :: rest -> flow_ok s -> buffers_ok s ->
  flow_ok (check_out p rest s) /\ buffers_ok (check_out p rest s).
Proof.
  intros Hp [Hl He Hn] Hb. split.
  - split; simpl; auto. intros _. by destruct (checked_out s).
  - apply (buffers_ok_ext s); auto; unfold occupied; simpl.
    + by rewrite Hp, <- app_assoc.
    + by rewrite (bf_out _ Hb), fmap_app.
Qed.

Lemma ms_take_loop_spec cap max bytes s cs s' :
  flow_ok s -> buffers_ok s -> take_loop cap max bytes s = (cs, s') ->
  flow_ok s' /\ buffers_ok s' /\ final s' = final s /\ waiter s' = waiter s /\
  err s' = err s /\ eof s' = eof s /\ length cs <= cap /\ Forall chunk_good cs /\
  batch_fits (max - bytes) cs /\ queue s = batch_bytes cs ++ queue s' /\
  deref s' <$> lent s' = (deref s <$> lent s) ++ (data <$> cs) /\
  (cs = [] -> s' = s) /\
  (0 < cap -> bytes < max -> pending s <> [] -> cs <> []).
Proof.
  revert bytes s cs. induction cap as [|cap IH]; intros bytes s cs Hf Hok; cbn [take_loop].
  { intros [= <- <-]. rewrite app_nil_r. split_and!; simpl; auto; lia. }
  case_bool_decide as Hlt; [|intros [= <- <-]; rewrite app_nil_r; split_and!; simpl; auto; lia].
  destruct (pending s) as [|p rest] eqn:Ep.
  { intros [= <- <-]. rewrite app_nil_r. split_and!; simpl; auto; lia || done. }
  destruct (take_loop cap max (bytes + p.2) (check_out p rest s)) as [cs1 s1] eqn:Et.
  intros [= <- <-]. destruct (ms_check_out_ok p rest s Ep Hf Hok) as [Hf0 Hok0].
  destruct (IH _ _ _ Hf0 Hok0 Et)
    as (Hf1 & Hok1 & Hfin & Hw & He & Hx & Hcap & Hgood & Hfit & Hq & Hl & _ & _).
  assert (Hin : p ∈ occupied s) by (unfold occupied; rewrite Ep; apply elem_of_app; right; left).
  split_and!; auto.
  - simpl. lia.
  - constructor; [|done]. split; [|done]. by apply ms_deref_nonempty.
  - simpl. split; [lia|]. rewrite ms_deref_length by done.
    by replace (max - bytes - p.2) with (max - (bytes + p.2)) by lia.
  - unfold queue at 1. rewrite Ep. cbn. rewrite <- app_assoc. f_equal. exact Hq.
  - rewrite Hl. simpl. by rewrite fmap_app, <- app_assoc.
  - done.
Qed.

Lemma ms_take_batch_law cap max s :
  inv s -> 0 < cap -> 0 < max -> waiter s = None ->
  let '(cs, s') := take_batch cap max s in
  inv s' /\ final s' = final s /\ waiter s' = None /\
  (queue s <> [] ->
     cs <> [] /\ length cs <= cap /\ Forall chunk_good cs /\ batch_fits max cs /\
     queue s = batch_bytes cs ++ queue s' /\
     deref s' <$> lent s' = (deref s <$> lent s) ++ (data <$> cs)) /\
  (forall e, queue s = [] -> final s = Some e -> cs = [end_chunk e] /\ queue s' = []).
Proof.
  intros [Hf Hb He _] Hcap Hmax Hw. unfold take_batch.
  destruct (take_loop cap max 0 s) as [cs s'] eqn:Et.
  destruct (ms_take_loop_spec _ _ _ _ _ _ Hf Hb Et)
    as (Hf' & Hb' & Hfin & Hw' & He' & Hx' & Hlen & Hgood & Hfit & Hq & Hl & Hnil & Hne).
  rewrite Nat.sub_0_r in Hfit. rewrite Hw in Hw'.
  assert (Hinv' : inv s') by (split; [done..|by rewrite He', Hx'|rewrite Hw'; by intros []]).
  destruct cs as [|c cs].
  - rewrite (Hnil eq_refl) in *. split_and!; try done.
    + intros Hq'. exfalso. apply Hne; try done. by rewrite <- ms_queue_nil.
    + intros e Hq0 Hfe. split; [by rewrite (ms_terminal_final s e Hfe)|done].
  - split_and!; try done.
    intros e Hq'. rewrite Hq in Hq'. exfalso.
    apply (batch_bytes_nonempty _ Hgood); [done|]. by apply app_nil in Hq' as [? _].
Qed.

Lemma ms_take_law s :
  inv s -> waiter s = None ->
  let '(c, s') := take s in
  inv s' /\ final s' = final s /\ waiter s' = None /\
  (queue s <> [] -> chunk_good c /\ queue s = data c ++ queue s' /\
     deref s' <$> lent s' = (deref s <$> lent s) ++ [data c]) /\
  (forall e, queue s = [] -> final s = Some e -> c = end_chunk e /\ queue s' = []).
Proof.
  intros Hinv Hw. pose proof Hinv as [Hf Hb He _]. unfold take.
  destruct (pending s) as [|p rest] eqn:Ep.
  - assert (Hq : queue s = []) by (by apply ms_queue_nil).
    split_and!; try done. intros e _ Hfe. split; [by apply ms_terminal_final|done].
  - assert (Hin : p ∈ occupied s) by (unfold occupied; rewrite Ep; apply elem_of_app; right; left).
    assert (Hq : queue s = deref s p ++ queue (check_out p rest s)) by (unfold queue; by rewrite Ep).
    destruct (ms_check_out_ok p rest s Ep Hf Hb). split_and!; try done.
    + split; try done. simpl. rewrite Hw. by intros [].
    + intros _. split_and!; [split; [by apply ms_deref_nonempty|done]|done|].
      simpl. by rewrite fmap_app.
    + intros e Hq'. rewrite Hq in Hq'. apply app_nil in Hq' as [Hd _].
      exfalso. by apply (ms_deref_nonempty s p).
Qed.

Lemma ms_ready_law s :
  inv s ->
  let '(rdy, s') := ready s in
  inv s' /\ queue s' = queue s /\ final s' = final s /\ waiter s' = waiter s /\
  deref s' <$> lent s' = [] /\ rdy = bool_decide (queue s <> [] \/ is_Some (final s)).
Proof.
  intros Hinv. unfold ready. destruct (ms_return_checked_out_ok s Hinv) as (? & ? & ? & ? & ? & ->).
  split_and!; try done. apply ms_something_dec, Hinv.
Qed.

Lemma arm_inv h s :
  inv s -> queue s = [] -> final s = None -> deref s <$> lent s = [] -> inv (arm h s).
Proof.
  intros [[Hl He Hn] Hb Hend _] Hq Hf Hlent. apply fmap_nil_inv in Hlent.
  assert (Ho : checked_out s = []) by (by rewrite (bf_out _ Hb), Hlent).
  split; [by split| |done|].
  - by apply (buffers_ok_ext s); try apply (bf_out _ Hb).
  - intros _. split; [done|]. change (something s = false). rewrite ms_something_dec by done.
    apply bool_decide_eq_false. rewrite Hq, Hf. by intros [?|[]].
Qed.

(** *** Completions *)

(** What a completion does before it resumes the reader. *)
Record moved (s s1 : t R) : Prop := {
  mv_flow : flow_ok s1;
  mv_buffers : buffers_ok s1;
  mv_end : err s1 = 0%Z \/ eof s1 = false;
  mv_waiter : waiter s1 = waiter s;
  mv_out : checked_out s1 = checked_out s;
  mv_lent : deref s1 <$> lent s1 = deref s <$> lent s;
  mv_queue : exists d, queue s1 = queue s ++ d;
}.

Lemma moved_law s s1 :
  inv s -> final s = None -> moved s s1 ->
  let '(s', woken) := if something s1 then wake s1 else (s1, None) in
  inv s' /\ deref s' <$> lent s' = deref s <$> lent s /\
  (exists d, queue s' = queue s ++ d /\ (is_Some (final s) -> d = [])) /\
  (is_Some (final s) -> final s' = final s) /\
  (forall h, woken = Some h <->
     waiter s = Some h /\ (queue s' <> [] \/ is_Some (final s'))) /\
  waiter s' = (match woken with Some _ => None | None => waiter s end).
Proof.
  intros [_ _ _ Hidle] Hfin [Hf Hb He Hw Ho Hl [d Hq]]. rewrite Hfin.
  destruct (something s1) eqn:Es; cbn [wake].
  - assert (Hsome : queue s1 <> [] \/ is_Some (final s1)).
    { rewrite ms_something_dec in Es by done. by apply bool_decide_eq_true in Es. }
    split_and!; try done.
    + split; simpl; [by destruct Hf| |done|by intros []].
      apply (buffers_ok_ext s1); try done. apply (bf_out _ Hb).
    + exists d. split; [exact Hq|by intros []].
    + intros h. rewrite Hw. split; [by split|by intros []].
    + simpl. rewrite Hw. by destruct (waiter s).
  - destruct (ms_nothing s1 Hb Es) as [Hq1 Hf1]. split_and!; try done.
    + split; try done. rewrite Hw, Ho. intros Hsome. split; [by apply Hidle|done].
    + exists d. split; [done|by intros []].
    + intros h. rewrite Hq1, Hf1. split; [done|]. intros (_ & [?|[]]); done.
Qed.

(** [_maybe_resubmit] at the end of a completion that needs buffers. *)
Lemma moved_resubmit s s1 :
  live s1 = negb (needs_resubmit s1) && negb (some_end s1) ->
  (some_end s1 = true -> needs_resubmit s1 = false) ->
  (err s1 = 0%Z \/ eof s1 = false) -> buffers_ok s1 -> waiter s1 = waiter s ->
  checked_out s1 = checked_out s -> deref s1 <$> lent s1 = deref s <$> lent s ->
  (exists d, queue s1 = queue s ++ d) -> moved s (maybe_resubmit s1).
Proof.
  intros Hl He Hend Hb Hw Ho Hlent Hq. pose proof (maybe_resubmit_flow s1 Hl He) as Hf.
  destruct (maybe_resubmit_same s1) as (Hb' & Hq' & _ & Hw' & Hl' & Ho' & _ & He' & Hx' & _).
  split; rewrite ?Hq', ?Hw', ?Hl', ?Ho', ?He', ?Hx'; auto.
Qed.

(** The live operation: nothing pending submission, no end. *)
Lemma live_quiet s :
  inv s -> live s = true ->
  needs_resubmit s = false /\ some_end s = false /\ err s = 0%Z /\ eof s = false /\ final s = None.
Proof.
  intros [[Hl _ _] _ _ _] Hlive. rewrite Hl in Hlive.
  apply andb_true_iff in Hlive as [Hn%negb_true_iff Hs%negb_true_iff].
  assert (Hf : final s = None).
  { apply eq_None_not_Some. rewrite <- ms_some_end_final. by rewrite Hs. }
  pose proof (proj1 (ms_final_None s) Hf) as [? ?]. by split_and!.
Qed.

(** The data case: the chunk is queued; without [MORE] the operation waits for buffers. *)
Lemma data_moved c s e :
  inv s -> live s = true -> e ∈ avail (ring s) -> 0 < length (cq_data c) <= re_len e ->
  let s1 := landing c (receive s e (cq_data c)) in
  moved s (if more c then s1 else maybe_resubmit (set_needs true s1)).
Proof.
  intros Hinv Hlive He Hd. destruct (live_quiet s Hinv Hlive) as (Hn & Hs & He0 & Hf0 & _).
  pose proof (inv_buffers _ Hinv) as Hb. pose proof (ms_receive_ok s e _ Hb He Hd) as Hrb.
  pose proof (receive_queue s e _ Hb He Hd) as Hrq. pose proof (receive_lent s e _ Hb He Hd) as Hrl.
  intros s1. assert (Hs1 : some_end s1 = false) by exact Hs.
  assert (Hb1 : forall b, buffers_ok (set_needs b s1)).
  { intros b. by apply (buffers_ok_ext (receive s e (cq_data c))); try apply (bf_out _ Hrb). }
  destruct (more c) eqn:Hm.
  - split; try done; [|apply (buffers_ok_ext (set_needs false s1)); try done; apply (bf_out _ Hrb)
      |by left|by exists (cq_data c)].
    split; unfold s1, some_end in *; simpl; rewrite ?Hm, ?Hlive, ?Hn, ?Hs; done.
  - apply moved_resubmit; try done.
    + simpl. by rewrite Hm.
    + intros Ht. by rewrite <- Hs1, <- Ht.
    + by left.
    + by exists (cq_data c).
Qed.

(** The operation ran out of buffers before it received anything. *)
Lemma enobufs_moved c s :
  inv s -> live s = true -> more c = false -> moved s (maybe_resubmit (set_needs true (landing c s))).
Proof.
  intros Hinv Hlive Hm. destruct (live_quiet s Hinv Hlive) as (Hn & Hs & He0 & Hf0 & _).
  pose proof (inv_buffers _ Hinv) as Hb. apply moved_resubmit; try done.
  - simpl. by rewrite Hm.
  - intros Ht. by rewrite <- Hs, <- Ht.
  - by left.
  - apply (buffers_ok_ext s); try done. apply (bf_out _ Hb).
  - exists []. by rewrite app_nil_r.
Qed.

(** The end of the stream. *)
Lemma end_moved c s s1 :
  inv s -> live s = true -> more c = false ->
  s1 = set_eof (landing c s) \/ (exists e, (0 < e)%Z /\ s1 = set_error e (landing c s)) ->
  moved s s1.
Proof.
  intros Hinv Hlive Hm Hs1. destruct (live_quiet s Hinv Hlive) as (Hn & Hs & He0 & Hf0 & _).
  pose proof (inv_buffers _ Hinv) as Hb.
  destruct Hs1 as [-> |(e & He & ->)]; split; try done;
    try (apply (buffers_ok_ext s); try done; apply (bf_out _ Hb));
    try (by exists []; rewrite app_nil_r); try (by left); try (by right);
    split; unfold some_end; simpl; rewrite ?Hn, ?Hm, ?Hf0, ?bool_decide_true by lia; done.
Qed.

Lemma complete_moved c s :
  inv s -> event_ok c s ->
  moved s (settle_cqe (cq_res c) (cq_flags c) (landing c (kernel_write c s))).
Proof.
  intros Hinv [Hlive Hc]. pose proof (live_quiet s Hinv Hlive) as (Hn & Hs & He0 & Hf0 & Hfin).
  unfold settle_cqe, sort_cqe, kernel_write. fold (more c).
  destruct (cq_buffer c) as [e|].
  - destruct Hc as (He & Hd & Hres & Hbuf & Hidx).
    rewrite bool_decide_false, Hbuf, Hidx, Hres, !Nat2Z.id by lia.
    pose proof (data_moved c s e Hinv Hlive He Hd) as Hmv.
    destruct (more c); [exact Hmv|]. simpl. by rewrite andb_false_r.
  - destruct Hc as (Hres & Hm & Hbuf). rewrite Hbuf, Hm. simpl.
    case_bool_decide; [case_bool_decide|].
    + rewrite andb_false_r. by apply enobufs_moved.
    + simpl. rewrite bool_decide_false by lia. simpl. apply (end_moved c); try done.
      right. exists (- cq_res c)%Z. split; [lia|done].
    + simpl. rewrite andb_false_r. simpl. apply (end_moved c); auto.
Qed.

Lemma ms_complete_law c s :
  inv s -> event_ok c s ->
  let '(s', woken) := complete c s in
  inv s' /\ deref s' <$> lent s' = deref s <$> lent s /\
  (exists d, queue s' = queue s ++ d /\ (is_Some (final s) -> d = [])) /\
  (is_Some (final s) -> final s' = final s) /\
  (forall h, woken = Some h <->
     waiter s = Some h /\ (queue s' <> [] \/ is_Some (final s'))) /\
  waiter s' = (match woken with Some _ => None | None => waiter s end).
Proof.
  intros Hinv Hc. apply (moved_law s); [done|by apply live_quiet, Hc|by apply complete_moved].
Qed.

#[global] Program Instance stream_laws : RecvStreamLaws (t R) := {
  rs_inv := inv;
  rs_queue := queue;
  rs_final := final;
  rs_waiter := waiter;
  rs_lent s := deref s <$> lent s;
  rs_event := cqe;
  rs_event_ok := event_ok;
  rs_complete := complete;
  rs_ready_law := ms_ready_law;
  rs_take_batch_law := ms_take_batch_law;
  rs_take_law := ms_take_law;
  rs_complete_law := ms_complete_law;
}.
Next Obligation. intros s Hinv [_ Hs]%(inv_waiter s Hinv). by apply ms_nothing, Hs; apply Hinv. Qed.
Next Obligation.
  intros h s Hinv Hq Hf Hl. split; [by apply arm_inv|by split_and!].
Qed.

(** ** The sink *)

(** A call that does not submit. *)
Lemma ms_quiet s s' b : submits s' = submits s -> live s' = b -> submitted b s s'.
Proof. intros Hs Hl. split; simpl; rewrite ?Hl; lia. Qed.

(** [_maybe_resubmit] submits only when the operation is over. *)
Lemma maybe_resubmit_sink s :
  live s = negb (needs_resubmit s) && negb (some_end s) -> submitted (live s) s (maybe_resubmit s).
Proof.
  intros Hl. unfold maybe_resubmit.
  destruct (needs_resubmit s && bool_decide _) eqn:Hn; [|by apply ms_quiet].
  apply andb_true_iff in Hn as [Hn _]. rewrite Hn in Hl. rewrite Hl. split; simpl; lia.
Qed.

Lemma take_loop_flow cap max bytes s :
  flow_ok s ->
  let s' := (take_loop cap max bytes s).2 in
  flow_ok s' /\ submits s' = submits s /\ live s' = live s.
Proof.
  revert bytes s. induction cap as [|cap IH]; intros bytes s Hf; cbn [take_loop]; [done|].
  case_bool_decide; [|done]. destruct (pending s) as [|p rest]; [done|].
  specialize (IH (bytes + p.2) (check_out p rest s)).
  destruct (take_loop cap max (bytes + p.2) (check_out p rest s)) as [cs s']. apply IH.
  destruct Hf as [Hl He Hn]. split; simpl; auto. intros _. by destruct (checked_out s).
Qed.

Lemma take_flow s : flow_ok s -> flow_ok (take s).2 /\ submits (take s).2 = submits s /\ live (take s).2 = live s.
Proof.
  intros Hf. unfold take. destruct (pending s) as [|p rest]; [done|]. split; [|done].
  destruct Hf as [Hl He Hn]. split; simpl; auto. intros _. by destruct (checked_out s).
Qed.

Lemma return_flow s :
  flow_ok s -> flow_ok (return_checked_out s) /\ submitted (live s) s (return_checked_out s).
Proof.
  intros [Hl He Hn]. unfold return_checked_out. case_bool_decide.
  - split; [by apply maybe_resubmit_flow|by apply (maybe_resubmit_sink (Mk _ _ _ _ _ _ _ _ _ _ _ _ _))].
  - split; [by apply maybe_resubmit_flow|by apply maybe_resubmit_sink].
Qed.

Lemma settle_flow c s :
  flow_ok s -> live s = true -> sk_kernel (St := t R) c ->
  let s' := settle_cqe (cq_res c) (cq_flags c) (landing c s) in
  flow_ok s' /\ submitted (more c) s s'.
Proof.
  intros [Hl He Hn] Hlive Hc. pose proof Hlive as Hquiet. rewrite Hl in Hquiet.
  apply andb_true_iff in Hquiet as [Hnr%negb_true_iff Hs%negb_true_iff].
  pose proof Hs as [Hf0 He0]%orb_false_iff. apply bool_decide_eq_false, dec_stable in He0.
  assert (Hland : live (landing c s) = more c) by (simpl; by rewrite Hlive, andb_true_r).
  (* the two ends of a completion: an end of the stream, or buffers to wait for *)
  assert (Hwait : forall s1, live s1 = false -> some_end s1 = false -> submits s1 = submits s ->
    let s2 := maybe_resubmit (set_needs true s1) in flow_ok s2 /\ submitted false s s2).
  { intros s1 Hl1 Hs1 Hsub s2.
    pose proof (maybe_resubmit_sink (set_needs true s1)) as Hsink.
    cbn [live needs_resubmit set_needs negb andb] in Hsink. rewrite Hl1 in Hsink.
    split; [|by destruct (Hsink eq_refl); split; simpl in *; rewrite <- Hsub].
    apply maybe_resubmit_flow; simpl; [done|]. intros Ht. by rewrite <- Hs1, <- Ht. }
  assert (Hend : forall s1, live s1 = false -> some_end s1 = true -> submits s1 = submits s ->
    needs_resubmit s1 = false -> flow_ok s1 /\ submitted false s s1).
  { intros s1 Hl1 Hs1 Hsub Hn1. split; [|by apply ms_quiet]. split; rewrite ?Hs1, ?Hn1; done. }
  unfold settle_cqe, sort_cqe. fold (more c). simpl in Hc.
  destruct (bool_decide_reflect (0 < cq_res c)%Z) as [Hpos|Hpos].
  - rewrite bool_decide_false, Hc by lia. destruct (more c) eqn:Hm; simpl.
    + split; [|by apply ms_quiet]. split; unfold some_end; simpl; rewrite ?Hnr, ?Hf0, ?He0; done.
    + rewrite andb_false_r. apply Hwait; simpl; [by rewrite Hm|exact Hs|done].
  - rewrite Hc. simpl. case_bool_decide; [case_bool_decide|destruct (has_flag _ _)]; simpl;
      rewrite ?andb_false_r.
    + apply Hwait; simpl; [by rewrite Hc|exact Hs|done].
    + rewrite bool_decide_false by lia. simpl. apply Hend; unfold some_end; simpl; try done.
      * by rewrite Hc.
      * by rewrite bool_decide_true, orb_true_r by lia.
    + apply Hwait; simpl; [by rewrite Hc|exact Hs|done].
    + by apply Hend; simpl; rewrite ?Hc.
Qed.

#[global] Program Instance sink_laws : SinkLaws (t R) := { sk_ok := flow_ok }.
Next Obligation. intros c _. apply andb_true_r. Qed.
Next Obligation.
  intros s s' Hf Hh. destruct Hh as [s|h s|s|cap max s]; simpl.
  - by apply return_flow.
  - split; [by destruct Hf|by apply ms_quiet].
  - destruct (take_flow s Hf) as (? & ? & ?). split; [done|by apply ms_quiet].
  - unfold take_batch. destruct (take_loop_flow cap max 0 s Hf) as (? & ? & ?).
    destruct (take_loop cap max 0 s) as [[|c cs] s']; (split; [done|by apply ms_quiet]).
Qed.
Next Obligation.
  intros c s Hf Hl Hc. destruct (settle_flow c s Hf Hl Hc) as [Hf' Hs]. cbn [sk_on_cqe sink].
  unfold on_cqe, handle_cqe. destruct (something _); simpl; [|done].
  split; [by destruct Hf'|exact Hs].
Qed.

(** ** Construction *)

(** The constructor provides every buffer and submits the receive. *)
Lemma make_ok es n bgid huge plain ret no_room s held :
  (exists k, n = 2 ^ k) -> make es n bgid huge plain ret no_room = (Ok s, held) ->
  inv s /\ live s = true /\ submits s = 1 /\ queue s = [] /\ final s = None /\
  avail (ring s) = entry s <$> seq 0 n /\ entry_size s = es /\
  held = [Mapped (if huge then huge_len (mmap_len es n) else mmap_len es n); Registered bgid].
Proof.
  intros Hn Hmake. unfold make in Hmake.
  destruct (negb _); [done|]. case_bool_decide; [done|]. destruct no_room; [done|].
  injection Hmake as <- <-.
  set (s0 := Mk es n (replicate (n * es) Byte.x00) ring_init false [] [] false 0 false None 0 []).
  set (ents := entry s0 <$> seq 0 n).
  assert (Hlen : length ents = n) by (unfold ents; by rewrite length_fmap, length_seq).
  assert (Ha : avail (ring_advance n (ring_add_all (ring_mask n) 0 ents ring_init)) = ents).
  { rewrite <- Hlen at 1. rewrite avail_publish; rewrite ?avail_init; simpl; auto. lia. }
  assert (Hb : re_bid <$> ents = seq 0 n).
  { unfold ents. rewrite <- list_fmap_compose. apply list_fmap_id. }
  split_and!; try done. split; simpl; [by split| |by left|by intros []].
  split; simpl; rewrite ?Ha; try done.
  - by rewrite length_replicate.
  - unfold occupied. simpl. by rewrite app_nil_r, Hb.
  - apply Forall_fmap, Forall_forall. done.
Qed.

(** The length the constructor maps with huge pages: whole pages, enough of them, and not
    one too many. *)
Lemma huge_len_spec len :
  (0 < len <= 2 ^ 64 - kHugePageSize)%Z ->
  (huge_len len `mod` kHugePageSize = 0)%Z /\ (len <= huge_len len < len + kHugePageSize)%Z.
Proof.
  intros Hl. unfold huge_len. change kHugePageSize with (2 ^ 21)%Z in *.
  set (x := (len + 2 ^ 21 - 1)%Z). assert (Hx : u64 x = x) by (apply u64_small; lia).
  assert (Hd : Z.land (u64 x) (u64 (Z.lnot (2 ^ 21 - 1))) = (x / 2 ^ 21 * 2 ^ 21)%Z).
  { rewrite <- Hx at 2. unfold u64 at 2. rewrite <- Z.land_ones, (Z.land_comm (Z.lnot _)) by lia.
    rewrite Z.land_assoc, Z.land_ones by lia. fold (u64 (u64 x)). rewrite !Hx.
    change (2 ^ 21 - 1)%Z with (Z.ones 21). rewrite <- Z.ldiff_land, Z.ldiff_ones_r by lia.
    by rewrite Z.shiftl_mul_pow2, Z.shiftr_div_pow2 by lia. }
  rewrite Hd. split; [by apply Z_mod_mult|].
  pose proof (Z.div_mod x (2 ^ 21)). pose proof (Z.mod_pos_bound x (2 ^ 21)). lia.
Qed.
End proofs.
End Multishot.

(** [next_buffer_group_id]: the id and the counter after it, an [unsigned short]. *)
Definition next_buffer_group_id (counter : Z) : Z * Z := (counter, (counter + 1) `mod` 2 ^ 16)%Z.

Inductive uring_stream (R : Type) :=
  | MultishotStream (s : Multishot.t R)
  | SingleShotStream (s : SingleShot.t).
Arguments MultishotStream {R} s.
Arguments SingleShotStream {R} s.

(** [make_recv_stream], on the process-wide counter; [huge], [plain], [ret] are what the
    multishot constructor is answered, [mem] what [posix_memalign] gives the other. *)
Definition make_recv_stream `{BufRing R} (es n : nat) (multishot huge plain : bool) (ret : Z)
    (mem : option bytes) (no_room : option Z) (counter : Z) : outcome (uring_stream R) * Z :=
  if multishot then
    let '(bgid, counter) := next_buffer_group_id counter in
    (let! s := (Multishot.make es n bgid huge plain ret no_room).1 in Ok (MultishotStream s), counter)
  else
    (let! s := (SingleShot.make es mem no_room).1 in Ok (SingleShotStream s), counter).

(** A process that runs long enough hands the same group id out again. *)
Lemma buffer_group_id_wraps counter :
  (0 <= counter < 2 ^ 16)%Z -> Nat.iter (Z.to_nat (2 ^ 16)) (fun c => (next_buffer_group_id c).2) counter = counter.
Proof.
  intros Hc. assert (Hiter : forall k, Nat.iter k (fun c => (next_buffer_group_id c).2) counter =
    ((counter + Z.of_nat k) `mod` 2 ^ 16)%Z).
  { induction k as [|k IH].
    - simpl. rewrite Z.add_0_r. symmetry. by apply Z.mod_small.
    - rewrite Nat.iter_succ, IH. cbn [next_buffer_group_id snd].
      rewrite Zplus_mod_idemp_l. f_equal. lia. }
  rewrite Hiter, Z2Nat.id by lia. rewrite <- Zplus_mod_idemp_r, Z_mod_same_full, Z.add_0_r.
  by apply Z.mod_small.
Qed.

Import Multishot.

(** C25: no receive buffer is lost, duplicated or shared. In every state a reader and the
    kernel can bring a multishot stream to, each buffer is in exactly one place: available
    to the kernel, behind a queued chunk, or behind a chunk in the reader's hands; every
    entry the kernel may select points at the memory of the buffer it names, all of it and
    nothing else; and every chunk lies within its buffer. *)
Theorem multishot_buffers_conserved `{BufRingLaws R} (s0 s : t R) :
  inv s0 -> rtc use s0 s ->
  (re_bid <$> avail (ring s)) ++ (pending s).*1 ++ checked_out s ≡ₚ seq 0 (entries s) /\
  Forall (fun e => re_bid e < entries s /\ re_addr e = re_bid e * entry_size s /\
            re_len e = entry_size s /\ re_addr e + re_len e <= length (mem s)) (avail (ring s)) /\
  Forall (fun p => p.1 < entries s /\ 0 < p.2 <= entry_size s) (pending s).
Proof.
  intros Hinv Huse. pose proof (uses_inv s0 s Hinv Huse) as [_ Hb _ _]. split_and!.
  - rewrite (bf_out _ Hb), <- (bf_all _ Hb). apply Permutation_app_head.
    unfold occupied. rewrite fmap_app. apply Permutation_app_comm.
  - apply Forall_forall. intros e He%list_elem_of_In. destruct (avail_bound s e Hb He) as [-> Hlt].
    rewrite (bf_mem _ Hb). simpl in *. split_and!; auto. nia.
  - apply Forall_forall. intros p Hp%list_elem_of_In.
    assert (Hin : p ∈ occupied s) by (unfold occupied; set_solver).
    split; [by apply ms_occupied_bound|]. exact (Forall_elem _ _ p (bf_len _ Hb) Hin).
Qed.

(** C26: a suspended reader is never forgotten. Whatever happened before, ENOBUFS included,
    and with however few buffers, when the reader of a multishot stream is suspended the
    receive is in flight and every single buffer of the ring is available to it, so the
    next byte, error or EOF on the socket wakes the reader; and the receive is only ever
    paused while the reader holds buffers, whose return submits it again. *)
Theorem multishot_reader_never_stalls `{BufRingLaws R} (s0 s : t R) :
  inv s0 -> rtc use s0 s ->
  (is_Some (waiter s) -> live s = true /\ re_bid <$> avail (ring s) ≡ₚ seq 0 (entries s)) /\
  (live s = true \/ is_Some (final s) \/
     (checked_out s <> [] /\ live (return_checked_out s) = true)).
Proof.
  intros Hinv Huse. pose proof (uses_inv s0 s Hinv Huse) as Hs.
  pose proof Hs as [[Hl He Hn] Hb _ Hw]. split.
  - intros [Ho Hsm]%Hw. destruct (ms_nothing s Hb Hsm) as [Hq Hf].
    assert (Hp : pending s = []) by (by apply ms_queue_nil).
    assert (Hnr : needs_resubmit s = false).
    { destruct (needs_resubmit s); [|done]. by destruct (Hn eq_refl). }
    rewrite Hl, Hnr. split.
    + destruct (some_end s) eqn:Hse; [|done]. apply ms_some_end_final in Hse. rewrite Hf in Hse. by destruct Hse.
    + rewrite <- (bf_all _ Hb). unfold occupied. pose proof (bf_out _ Hb) as Hlent.
      rewrite Ho in Hlent. symmetry in Hlent. apply fmap_nil_inv in Hlent.
      by rewrite Hlent, Hp, app_nil_r.
  - destruct (needs_resubmit s) eqn:Hnr.
    + right. right. split; [by apply Hn|]. destruct (ms_return_checked_out_ok s Hs) as (Hs' & _ & Hf & _).
      unfold return_checked_out. rewrite bool_decide_true by (by apply Hn).
      unfold maybe_resubmit. simpl. by rewrite Hnr.
    + destruct (some_end s) eqn:Hse; [right; left; by apply ms_some_end_final|]. left. by rewrite Hl.
Qed.

(** C28: the construction of a multishot stream. When it succeeds, all buffers are with the
    kernel in order, the receive is submitted once, nothing else happened yet, and the
    mapping it made covers the ring's descriptors and every buffer behind them, whole huge
    pages when those could be had. A failed mapping or registration leaves nothing behind;
    but a constructor that found no room for the first receive throws out of the sink and
    leaves the mapping and the registered ring behind, with no destructor to release them. *)
Theorem multishot_construction `{BufRingLaws R} (es n : nat) (bgid ret : Z) (huge plain : bool)
    (no_room : option Z) :
  (exists k, n = 2 ^ k) -> (0 < 16 * Z.of_nat n + Z.of_nat es * Z.of_nat n <= 2 ^ 64 - kHugePageSize)%Z ->
  let '(out, held) := make (R := R) es n bgid huge plain ret no_room in
  match out with
  | Ok s =>
      inv s /\ live s = true /\ submits s = 1 /\ queue s = [] /\ final s = None /\
      re_bid <$> avail (ring s) = seq 0 n /\
      exists len, held = [Mapped len; Registered bgid] /\
        Forall (fun e => 16 * Z.of_nat n + Z.of_nat (re_addr e + re_len e) <= len)%Z (avail (ring s)) /\
        (huge = true -> len `mod` kHugePageSize = 0)%Z
  | Throw e =>
      (e = bad_alloc /\ held = []) \/ (e = system_error (- ret) /\ held = []) \/
      (exists err len, no_room = Some err /\ e = system_error err /\ held = [Mapped len; Registered bgid])
  end.
Proof.
  intros Hn Hsize. destruct (make es n bgid huge plain ret no_room) as [[s|e] held] eqn:Hmake.
  - destruct (make_ok es n bgid huge plain ret no_room s held Hn Hmake)
      as (Hinv & Hl & Hsub & Hq & Hf & Ha & Hes & ->).
    assert (Hlen : mmap_len es n = (16 * Z.of_nat n + Z.of_nat es * Z.of_nat n)%Z).
    { apply u64_small. change kHugePageSize with 2097152%Z in Hsize. lia. }
    destruct (huge_len_spec (mmap_len es n)) as [Hmod Hle]; [by rewrite Hlen|].
    split_and!; try done.
    + rewrite Ha, <- list_fmap_compose. apply list_fmap_id.
    + eexists. split; [done|]. split; [|by intros ->].
      rewrite Ha. apply Forall_fmap, Forall_forall. intros i Hi%in_seq. simpl. rewrite Hes.
      destruct huge; nia.
  - unfold make in Hmake. destruct (negb _); [naive_solver|].
    case_bool_decide; [naive_solver|]. destruct no_room; naive_solver.
Qed.
