(* ===== verification/Queue.v ===== *)
(** * The queue interface and [send_all] ([easyio/queue.hpp], [easyio/src/queue.cpp])

    The backend selector, the socket options and the two [send_all] coroutines. A
    suspended [send_all] is a [send_frame]: its offer is what it passed to
    [Queue::send]/[Queue::sendmsg], and it goes on with the count the kernel accepted.
    [frame_rest] abstracts a frame to the bytes still to be sent. *)

From S2P Require Import Prelude.

(** [enum class Backend]. *)
Inductive Backend := IoUring | Libc.

#[export] Instance Backend_eq_dec : EqDecision Backend.
Proof. solve_decision. Defined.

Definition backend_name (b : Backend) : string :=
  match b with
  | IoUring => "io_uring"
  | Libc => "libc"
  end.

(** Is the build configured with liburing? ([EASYIO_WITH_LIBURING]) *)
Class BuildConfig := EASYIO_WITH_LIBURING : bool.

Definition io_uring_available `{BuildConfig} : bool := EASYIO_WITH_LIBURING.

(** What a system call leaves: a value, or -1 and [errno]. *)
Inductive sysret := Ret (v : Z) | Errno (e : Z).

Definition O_NONBLOCK : Z := 2048.

(** [set_nonblocking]: the flags set, from what the two [fcntl] calls return. *)
Definition set_nonblocking (getfl : sysret) (setfl : Z -> sysret) : outcome Z :=
  match getfl with
  | Errno e => Throw (system_error e)
  | Ret flags =>
      match setfl (Z.lor flags O_NONBLOCK) with
      | Errno e => Throw (system_error e)
      | Ret _ => Ok (Z.lor flags O_NONBLOCK)
      end
  end.

Definition set_tcp_nodelay (setsockopt : sysret) : outcome unit :=
  match setsockopt with
  | Errno e => Throw (system_error e)
  | Ret _ => Ok tt
  end.

(** [Queue::create]: the backend whose queue is made; [queue_init] is what the constructor
    of the io_uring queue gets from the kernel ([UringQueue.make]). *)
Definition create `{BuildConfig} (queue_init : sysret) (b : Backend) : outcome Backend :=
  match b with
  | IoUring =>
      if io_uring_available then
        match queue_init with
        | Errno e => Throw (system_error e)
        | Ret _ => Ok IoUring
        end
      else Throw (invalid_argument
        "easyio: io_uring backend requested but this build was configured with --without-liburing")
  | Libc => Ok Libc
  end.

(** ** [send_all] *)

(** The locals of a [send_all] suspended in the queue. An [iovec] is the span it
    designates: advancing [iov_base] by [n] and taking [n] off [iov_len] drops [n] bytes. *)
Inductive send_frame :=
  | SendOne (buf : bytes) (off : nat)
  | SendTwo (iov : list bytes) (first sent total : nat).

Inductive send_state :=
  | SendWaits (f : send_frame) (** suspended in [Queue::send] or [Queue::sendmsg] *)
  | SendDone                   (** [co_return] *)
  | SendUB.                    (** an access past [iov] *)

#[export] Instance send_frame_eq_dec : EqDecision send_frame.
Proof. solve_decision. Defined.

(** [while (off < size)] of the one-buffer [send_all]. *)
Definition send_one (buf : bytes) (off : nat) : send_state :=
  if bool_decide (off < length buf) then SendWaits (SendOne buf off) else SendDone.

(** [send_all(queue, fd, buf, size)] from its call to its first suspension. *)
Definition send_all (buf : bytes) : send_state := send_one buf 0.

(** [while (n > 0)]: skip [n] accepted bytes in the vector. [None] is an access past it. *)
Fixpoint advance (fuel n first : nat) (iov : list bytes) : option (nat * list bytes) :=
  if bool_decide (0 < n) then
    match fuel with
    | O => None
    | S fuel =>
        match iov !! first with
        | None => None
        | Some v =>
            if bool_decide (n < length v) then
              advance fuel 0 first (<[first := drop n v]> iov)
            else advance fuel (n - length v) (S first) iov
        end
    end
  else Some (first, iov).

(** [while (sent < total)] of the two-buffer [send_all]. *)
Definition send_two (iov : list bytes) (first sent total : nat) : send_state :=
  if bool_decide (sent < total) then SendWaits (SendTwo iov first sent total) else SendDone.

(** [send_all(queue, fd, buf1, size1, buf2, size2)] to its first suspension. *)
Definition send_all2 (buf1 buf2 : bytes) : send_state :=
  send_two [buf1; buf2] 0 0 (length buf1 + length buf2).

(** The buffers a suspended [send_all] has passed to the kernel. *)
Definition offer (f : send_frame) : list bytes :=
  match f with
  | SendOne buf off => [drop off buf]
  | SendTwo iov first _ _ => drop first iov
  end.

(** The kernel accepted [n] bytes. *)
Definition send_resume (n : nat) (f : send_frame) : send_state :=
  match f with
  | SendOne buf off => send_one buf (off + n)
  | SendTwo iov first sent total =>
      match advance (S (length iov)) n first iov with
      | None => SendUB
      | Some (first', iov') => send_two iov' first' (sent + n) total
      end
  end.

(** ** Correctness *)

(** The bytes a frame has still to send. *)
Definition frame_rest (f : send_frame) : bytes := mjoin (offer f).

(** A frame that a [send_all] reaches: it has something to send and [sent] counts it. *)
Definition frame_ok (f : send_frame) : Prop :=
  frame_rest f <> [] /\
  match f with
  | SendOne _ _ => True
  | SendTwo iov first sent total => total = sent + length (frame_rest f)
  end.

(** The abstract sender: the bytes left, nothing else. *)
Definition sends (rest : bytes) (st : send_state) : Prop :=
  match st with
  | SendWaits f => frame_ok f /\ frame_rest f = rest
  | SendDone => rest = []
  | SendUB => False
  end.

Lemma send_one_sends buf off : sends (drop off buf) (send_one buf off).
Proof.
  unfold send_one. case_bool_decide as Hoff.
  - assert (Hr : frame_rest (SendOne buf off) = drop off buf).
    { unfold frame_rest. simpl. apply app_nil_r. }
    split; [|done]. split; [|done]. rewrite Hr. intros Hnil.
    apply (f_equal length) in Hnil. rewrite length_drop in Hnil. simpl in Hnil. lia.
  - apply drop_ge. lia.
Qed.

Lemma send_two_sends iov first sent total :
  total = sent + length (mjoin (drop first iov)) ->
  sends (mjoin (drop first iov)) (send_two iov first sent total).
Proof.
  intros Ht. unfold send_two. case_bool_decide as Hs.
  - split; [|done]. split; [|done]. intros Hnil. unfold frame_rest, offer in Hnil.
    rewrite Hnil in Ht. simpl in Ht. lia.
  - apply nil_length_inv. lia.
Qed.

Lemma advance_0 fuel first iov : advance fuel 0 first iov = Some (first, iov).
Proof. destruct fuel; cbn [advance]; by rewrite bool_decide_false by lia. Qed.

(** Advancing skips exactly the accepted bytes, and stays inside the vector. *)
Lemma advance_correct fuel n first iov :
  n <= length (mjoin (drop first iov)) -> length iov - first < fuel ->
  exists first' iov', advance fuel n first iov = Some (first', iov') /\
    mjoin (drop first' iov') = drop n (mjoin (drop first iov)).
Proof.
  revert n first. induction fuel as [|fuel IH]; intros n first Hn Hfuel; [lia|].
  cbn [advance]. case_bool_decide as Hpos.
  2:{ exists first, iov. split; [done|]. replace n with 0 by lia. by rewrite drop_0. }
  destruct (iov !! first) as [v|] eqn:Hv.
  2:{ apply lookup_ge_None in Hv. rewrite drop_ge in Hn by lia. simpl in Hn. lia. }
  pose proof (lookup_lt_Some _ _ _ Hv) as Hlt. rewrite (drop_S _ _ _ Hv), mjoin_cons in Hn |- *.
  rewrite length_app in Hn. case_bool_decide as Hin.
  - rewrite advance_0. eexists _, _. split; [done|].
    rewrite (drop_S _ (drop n v)) by (by rewrite list_lookup_insert_eq).
    rewrite drop_insert_lt, mjoin_cons by lia.
    by rewrite drop_app_le by lia.
  - destruct (IH (n - length v) (S first)) as (f' & iov' & -> & Heq); [lia|lia|].
    exists f', iov'. split; [done|]. rewrite Heq. by rewrite drop_app_ge by lia.
Qed.

Lemma send_all_sends buf : sends buf (send_all buf).
Proof. rewrite <- (drop_0 buf) at 1. apply send_one_sends. Qed.

Lemma send_all2_sends buf1 buf2 : sends (buf1 ++ buf2) (send_all2 buf1 buf2).
Proof.
  pose proof (send_two_sends [buf1; buf2] 0 0 (length buf1 + length buf2)) as H.
  cbn in H. rewrite app_nil_r in H. apply H. rewrite length_app. lia.
Qed.

Lemma send_resume_sends f n :
  frame_ok f -> n <= length (frame_rest f) ->
  sends (drop n (frame_rest f)) (send_resume n f).
Proof.
  intros [Hne Hok] Hn. destruct f as [buf off|iov first sent total]; cbn [send_resume].
  - unfold frame_rest. cbn [offer mjoin list_join]. rewrite app_nil_r, drop_drop.
    apply send_one_sends.
  - destruct (advance_correct (S (length iov)) n first iov) as (f' & iov' & -> & Heq);
      [done|lia|].
    unfold frame_rest, offer in *. rewrite <- Heq. apply send_two_sends.
    rewrite Heq, length_drop. lia.
Qed.

(** The kernel accepts [ns] bytes, call by call: what each call took, and the state left. *)
Fixpoint transmit (ns : list nat) (st : send_state) : bytes * send_state :=
  match ns, st with
  | n :: ns, SendWaits f =>
      let '(out, st') := transmit ns (send_resume n f) in
      (take n (frame_rest f) ++ out, st')
  | _, _ => ([], st)
  end.

(** The kernel never accepts more than it was offered. *)
Fixpoint accepts (ns : list nat) (st : send_state) : Prop :=
  match ns, st with
  | n :: ns, SendWaits f => n <= length (mjoin (offer f)) /\ accepts ns (send_resume n f)
  | _, _ => True
  end.

Lemma transmit_sends ns st rest :
  sends rest st -> accepts ns st ->
  let '(out, st') := transmit ns st in
  exists rest', rest = out ++ rest' /\ sends rest' st'.
Proof.
  revert st rest. induction ns as [|n ns IH]; intros st rest Hs Ha; [by exists rest|].
  destruct st as [f| |]; [|by exists rest|done]. cbn [transmit]. destruct Ha as [Hn Ha].
  destruct Hs as [Hok <-]. pose proof (send_resume_sends f n Hok Hn) as Hs'.
  specialize (IH _ _ Hs' Ha). destruct (transmit ns (send_resume n f)) as [out st'].
  destruct IH as (rest' & Heq & ?). exists rest'. split; [|done].
  by rewrite <- app_assoc, <- Heq, take_drop.
Qed.

Lemma accepts_same ns st1 st2 rest :
  sends rest st1 -> sends rest st2 -> accepts ns st1 -> accepts ns st2.
Proof.
  revert st1 st2 rest. induction ns as [|n ns IH]; intros st1 st2 rest H1 H2 Ha; [done|].
  destruct st2 as [f2| |]; try done. destruct st1 as [f1| |]; try done.
  - destruct H1 as [Hok1 H1], H2 as [Hok2 H2], Ha as [Hn Ha].
    fold (frame_rest f1) in Hn. cbn [accepts]. fold (frame_rest f2).
    rewrite H1 in Hn. rewrite <- H2 in Hn. split; [done|].
    eapply (IH _ _ (drop n rest)); [| |done].
    + rewrite <- H1. apply send_resume_sends; [done|]. by rewrite H1, <- H2.
    + rewrite <- H2. by apply send_resume_sends.
  - destruct H2 as [[? _] ?]. simpl in H1. congruence.
Qed.

(** Two senders of the same message put the same bytes on the wire. *)
Lemma transmit_same ns st1 st2 rest :
  sends rest st1 -> sends rest st2 -> accepts ns st1 -> accepts ns st2 ->
  fst (transmit ns st1) = fst (transmit ns st2).
Proof.
  revert st1 st2 rest. induction ns as [|n ns IH]; intros st1 st2 rest H1 H2 Ha1 Ha2; [done|].
  destruct st1 as [f1| |], st2 as [f2| |]; try done.
  - destruct H1 as [Hok1 H1], H2 as [Hok2 H2], Ha1 as [Hn1 Ha1], Ha2 as [Hn2 Ha2].
    pose proof (send_resume_sends _ _ Hok1 Hn1) as Hs1.
    pose proof (send_resume_sends _ _ Hok2 Hn2) as Hs2. rewrite H1 in Hs1. rewrite H2 in Hs2.
    specialize (IH _ _ _ Hs1 Hs2 Ha1 Ha2). cbn [transmit].
    destruct (transmit ns (send_resume n f1)), (transmit ns (send_resume n f2)).
    simpl in *. congruence.
  - destruct H1 as [[? _] ?]. simpl in H2. congruence.
  - destruct H2 as [[? _] ?]. simpl in H1. congruence.
Qed.

(** C22: [send_all] transmits its message, whole and in order, whatever the kernel
    accepts at each call. For the gathered form with both buffers of any size (empty ones
    included) and for any sequence of accepted counts, each at most what was offered
    (zero too): the bytes accepted so far followed by what the coroutine would still send
    are the first buffer then the second; it never indexes past the two [iovec]s; it has
    returned exactly when everything was accepted, and while it has not, what it offers
    the kernel is not empty. The one-buffer form transmits the same bytes for the same
    counts, so a header sent alone and a header sent with a payload obey one contract. *)
Theorem send_all_transmits (buf1 buf2 : bytes) (ns : list nat) :
  accepts ns (send_all2 buf1 buf2) ->
  let '(out, st) := transmit ns (send_all2 buf1 buf2) in
  fst (transmit ns (send_all (buf1 ++ buf2))) = out /\
  st <> SendUB /\
  match st with
  | SendWaits f => out ++ mjoin (offer f) = buf1 ++ buf2 /\ mjoin (offer f) <> []
  | _ => out = buf1 ++ buf2
  end.
Proof.
  set (st2 := send_all2 buf1 buf2). set (st1 := send_all (buf1 ++ buf2)).
  assert (H2 : sends (buf1 ++ buf2) st2) by apply send_all2_sends.
  assert (H1 : sends (buf1 ++ buf2) st1) by apply send_all_sends.
  intros Ha2. pose proof (accepts_same ns _ _ _ H2 H1 Ha2) as Ha1. pose proof (transmit_sends ns st2 _ H2 Ha2) as Ht.
  pose proof (transmit_same ns st1 st2 _ H1 H2 Ha1 Ha2) as Hsame.
  destruct (transmit ns st2) as [out st]. destruct Ht as (rest' & Heq & Hs).
  split; [done|]. split; [by destruct st|]. destruct st as [f| |]; simpl in Hs.
  - destruct Hs as [[? _] <-]. done.
  - subst rest'. by rewrite Heq, app_nil_r.
  - done.
Qed.

Lemma send_all_transmits_witness :
  let hdr := replicate 16 Byte.x01 in let body := replicate 5 Byte.x02 in
  accepts [10; 0; 8] (send_all2 hdr body) /\
  fst (transmit [10; 0; 8] (send_all2 hdr body)) = hdr ++ take 2 body.
Proof.
  assert (H2 : accepts [10; 0; 8] (send_all2 (replicate 16 Byte.x01) (replicate 5 Byte.x02)))
    by (repeat split; vm_compute; lia).
  split; [exact H2|].
  pose proof (send_all_transmits (replicate 16 Byte.x01) (replicate 5 Byte.x02)
    [10; 0; 8] H2) as H.
  vm_compute in H. vm_compute. destruct H as (H & _). reflexivity.
Defined.
