(* ===== verification/Wire.v ===== *)
(** * What a socket has taken of a sequence of messages

    Both ends write whole messages through [send_all] behind a mutex. The history of such
    a socket is the messages whose sending began, the coroutines whose send failed, and the
    bytes accepted; [wire_ok] relates the three. *)

From S2P Require Import Prelude Queue.

Open Scope nat_scope.

(** What of a message is on the wire once its coroutine stopped sending. *)
Definition part_ok (failed : list nat) (m : nat * bytes) (part : bytes) : Prop :=
  part = m.2 \/ (m.1 ∈ failed /\ part `prefix_of` m.2).

(** The messages begun are on the wire one after the other; [cur] is the one being sent,
    as far as it got. *)
Definition wire_ok (cur : option (nat * send_frame)) (begun : list (nat * bytes)) (failed : list nat)
    (wire : bytes) : Prop :=
  exists prev parts, Forall2 (part_ok failed) prev parts /\
  match cur with
  | Some (id, f) =>
      exists msg part, begun = prev ++ [(id, msg)] /\ wire = mjoin parts ++ part /\
        msg = part ++ frame_rest f /\ frame_ok f
  | None => begun = prev /\ wire = mjoin parts
  end.

Lemma wire_ok_init : wire_ok None [] [] [].
Proof. by exists [], []. Qed.

(** A message is begun. *)
Lemma wire_ok_begin id msg f begun failed wire :
  wire_ok None begun failed wire -> frame_ok f -> frame_rest f = msg ->
  wire_ok (Some (id, f)) (begun ++ [(id, msg)]) failed wire.
Proof.
  intros (prev & parts & Hall & -> & ->) Hf Hrest. exists prev, parts. split; [done|].
  exists msg, []. rewrite app_nil_r, Hrest. auto.
Qed.

(** The socket takes [n] bytes of it. *)
Lemma wire_ok_sent id f n begun failed wire :
  wire_ok (Some (id, f)) begun failed wire -> n <= length (frame_rest f) ->
  match send_resume n f with
  | SendWaits f' => wire_ok (Some (id, f')) begun failed (wire ++ take n (frame_rest f))
  | SendDone => wire_ok None begun failed (wire ++ take n (frame_rest f))
  | SendUB => False
  end.
Proof.
  intros (prev & parts & Hall & msg & part & -> & -> & Hmsg & Hf) Hn.
  pose proof (send_resume_sends f n Hf Hn) as Hs.
  destruct (send_resume n f) as [f'| |]; [| |done].
  - destruct Hs as [Hf' Hrest]. exists prev, parts. split; [done|].
    exists msg, (part ++ take n (frame_rest f)).
    rewrite Hrest, <- !app_assoc, take_drop. auto.
  - exists (prev ++ [(id, msg)]), (parts ++ [part ++ take n (frame_rest f)]). split.
    + apply Forall2_app; [done|]. constructor; [|done]. left. simpl. rewrite Hmsg. f_equal.
      rewrite <- (take_drop n (frame_rest f)) at 2. simpl in Hs. by rewrite Hs, app_nil_r.
    + by rewrite join_app, mjoin_cons, app_nil_r, app_assoc.
Qed.

(** Its send fails: what is there of it stays. *)
Lemma wire_ok_failed id f begun failed wire :
  wire_ok (Some (id, f)) begun failed wire -> wire_ok None begun (failed ++ [id]) wire.
Proof.
  intros (prev & parts & Hall & msg & part & -> & -> & Hmsg & Hf).
  exists (prev ++ [(id, msg)]), (parts ++ [part]). split.
  - apply Forall2_app.
    + eapply Forall2_impl; [|exact Hall]. intros m x [?|[? ?]]; [by left|right].
      rewrite elem_of_app. auto.
    + constructor; [|done]. right. simpl. split; [apply elem_of_app; right; by left|].
      by exists (frame_rest f).
  - by rewrite join_app, mjoin_cons, app_nil_r.
Qed.

(** Without failures every message that is over is there whole. *)
Lemma parts_whole (prev : list (nat * bytes)) parts : Forall2 (part_ok []) prev parts -> parts = prev.*2.
Proof.
  induction 1 as [|m part prev parts Hm _ IH]; [done|]. simpl. f_equal; [|done].
  destruct Hm as [?|[Hn _]]; [done|by apply not_elem_of_nil in Hn].
Qed.

Lemma wire_prefix cur begun wire : wire_ok cur begun [] wire -> wire `prefix_of` mjoin begun.*2.
Proof.
  intros (prev & parts & Hall & Hcur). apply parts_whole in Hall as ->.
  destruct cur as [[id f]|]; [|by destruct Hcur as [-> ->]].
  destruct Hcur as (msg & part & -> & -> & -> & _). exists (frame_rest f).
  rewrite fmap_app, join_app. simpl. by rewrite app_nil_r, <- app_assoc.
Qed.
