(* ===== verification/LibcQueue.v ===== *)
(** * The poll-driven queue ([easyio/src/libc_queue.cpp], [libc_queue.hpp])

    The table of the operations waiting on each descriptor, one cycle of [step], and
    [cancel_fd] and the destructor, which force operations to finish. All three call into
    operations that resume coroutines, which call back into the queue: what a call back
    does to the table is an explicit tree of calls, and the table is threaded through it,
    so every interleaving a reentrant coroutine can produce is covered. An operation is
    the address the code compares, and addresses may be used again. *)

From S2P Require Import Prelude Queue.

Open Scope nat_scope.

(** ** The awaiters *)

(** [_try] of [AcceptAwaiter], [SendAwaiter] and [SendMsgAwaiter]: [_result] once the call
    did not ask to wait. [EWOULDBLOCK] is [EAGAIN]. *)
Definition try_op (r : sysret) : option Z :=
  match r with
  | Errno e => if bool_decide (e = EAGAIN) then None else Some (- e)%Z
  | Ret v => Some v
  end.

Definition EINPROGRESS : Z := 115.

(** [ConnectAwaiter::ConnectAwaiter]. *)
Definition connect_start (r : sysret) : option Z :=
  match r with
  | Ret _ => Some 0%Z
  | Errno e => if bool_decide (e = EINPROGRESS) then None else Some (- e)%Z
  end.

(** [ConnectAwaiter::on_ready], with what [getsockopt(SO_ERROR)] returned, the error being
    stored in the first case. *)
Definition connect_ready (r : sysret) : Z :=
  let err := match r with Errno e => e | Ret stored => stored end in
  if bool_decide (err <> 0%Z) then (- err)%Z else 0%Z.

(** The end of [accept], [connect], [send] and [sendmsg]. *)
Definition op_end (res : Z) : outcome Z :=
  if bool_decide (res < 0)%Z then Throw (system_error (- res)) else Ok res.

(** What can happen to a [SendAwaiter], [SendMsgAwaiter] or [AcceptAwaiter]: its system
    call is tried, in [await_ready] and then whenever the descriptor is ready, or it is
    cancelled. *)
Inductive attempt := Tried (r : sysret) | Cancel.

(** What the awaiting coroutine gets, if it was resumed: the result of [await_resume], as
    [accept], [send] and [sendmsg] pass it on. *)
Fixpoint await_op (es : list attempt) : option (outcome Z) :=
  match es with
  | [] => None
  | Tried r :: es =>
      match try_op r with
      | Some res => Some (op_end res)
      | None => await_op es
      end
  | Cancel :: _ => Some (op_end (- ECANCELED))
  end.

(** [accept], [send] and [sendmsg] are this on [accept4], [send] and [sendmsg]; accepted
    descriptors are non-blocking, sends raise no signal. *)
Definition accept : list attempt -> option (outcome Z) := await_op.
Definition send : list attempt -> option (outcome Z) := await_op.
Definition sendmsg : list attempt -> option (outcome Z) := await_op.

(** The same for [connect]: its constructor, then readiness or cancellation. *)
Definition await_connect (start : sysret) (next : option attempt) : option (outcome Z) :=
  match connect_start start with
  | Some res => Some (op_end res)
  | None =>
      match next with
      | None => None
      | Some (Tried r) => Some (op_end (connect_ready r))
      | Some Cancel => Some (op_end (- ECANCELED))
      end
  end.

(** [open], [close], [pread], [pwrite] and [pwrite_dsync]: one system call. *)
Definition file_op (r : sysret) : outcome Z :=
  match r with
  | Errno e => Throw (system_error e)
  | Ret v => Ok v
  end.

(** ** The table *)

Record FdState := MkFd {
  read_op : option nat;
  read_op_gen : Z;
  write_queue : list nat;
}.

Definition fd_empty (st : FdState) : bool :=
  bool_decide (read_op st = None) && bool_decide (write_queue st = []).

(** What happened to an operation. *)
Inductive note :=
  | Ready (op : nat) (finished : bool) (** [on_ready()] and its result *)
  | Cancelled (op : nat).              (** [cancel()] *)

(** [_fds]; [inserted] counts the insertions, each of which may rehash the table, and
    [notes] logs the calls made to operations, for the specification. *)
Record t := Mk {
  fds : gmap Z FdState;
  inserted : nat;
  notes : list note;
}.

Definition init : t := Mk ∅ 0 [].

Definition log (n : note) (q : t) : t := Mk (fds q) (inserted q) (notes q ++ [n]).

(** [_fds[fd]]: the entry, made if there is none. *)
Definition entry (fd : Z) (q : t) : FdState := default (MkFd None 0 []) (fds q !! fd).

Definition store (fd : Z) (st : FdState) (q : t) : t :=
  Mk (<[fd := st]> (fds q))
     (if bool_decide (is_Some (fds q !! fd)) then inserted q else S (inserted q)) (notes q).

Definition erase (fd : Z) (q : t) : t := Mk (delete fd (fds q)) (inserted q) (notes q).

(** [_set_read_op]. *)
Definition set_read_op (fd : Z) (op : nat) (q : t) : t :=
  let st := entry fd q in
  store fd (MkFd (Some op) (u64 (read_op_gen st + 1)) (write_queue st)) q.

(** [_clear_read_op]. *)
Definition clear_read_op (fd : Z) (op : nat) (q : t) : t :=
  match fds q !! fd with
  | Some st =>
      if bool_decide (read_op st = Some op) then
        let st := MkFd None (read_op_gen st) (write_queue st) in
        if fd_empty st then erase fd q else store fd st q
      else q
  | None => q
  end.

(** [_push_write_op]. *)
Definition push_write_op (fd : Z) (op : nat) (q : t) : t :=
  let st := entry fd q in
  store fd (MkFd (read_op st) (read_op_gen st) (write_queue st ++ [op])) q.

(** A call of a resumed coroutine; [CancelFd] comes with what the coroutines it resumes in
    turn do, in the order of the operations cancelled. *)
Inductive call :=
  | SetRead (fd : Z) (op : nat)
  | ClearRead (fd : Z) (op : nat)
  | PushWrite (fd : Z) (op : nat)
  | CancelFd (fd : Z) (reactions : list (list call)).

(** The operations of an entry, in the order they are cancelled. *)
Definition ops (st : FdState) : list nat := option_list (read_op st) ++ write_queue st.

Fixpoint run_call (c : call) (q : t) : t :=
  let fix run_calls (cs : list call) (q : t) : t :=
    match cs with
    | [] => q
    | c :: cs => run_calls cs (run_call c q)
    end in
  match c with
  | SetRead fd op => set_read_op fd op q
  | ClearRead fd op => clear_read_op fd op q
  | PushWrite fd op => push_write_op fd op q
  | CancelFd fd reactions =>
      match fds q !! fd with
      | None => q
      | Some st =>
          (fix cancel_ops (rs : list (list call)) (os : list nat) (q : t) : t :=
             match rs, os with
             | _, [] => q
             | [], o :: os =>
                 (fix rest (os : list nat) (q : t) : t :=
                    match os with [] => q | o :: os => rest os (log (Cancelled o) q) end)
                   (o :: os) q
             | r :: rs, o :: os => cancel_ops rs os (run_calls r (log (Cancelled o) q))
             end) reactions (ops st) (erase fd q)
      end
  end.

Fixpoint run_calls (cs : list call) (q : t) : t :=
  match cs with
  | [] => q
  | c :: cs => run_calls cs (run_call c q)
  end.

(** [op->cancel()] for each operation in turn, with what each resumes. *)
Fixpoint cancel_ops (rs : list (list call)) (os : list nat) (q : t) : t :=
  match os with
  | [] => q
  | o :: os => cancel_ops (tail rs) os (run_calls (hd [] rs) (log (Cancelled o) q))
  end.

(** [cancel_fd]: the entry is copied out and erased first. *)
Definition cancel_fd (fd : Z) (rs : list (list call)) (q : t) : t :=
  match fds q !! fd with
  | None => q
  | Some st => cancel_ops rs (ops st) (erase fd q)
  end.

Lemma run_call_cancel fd rs q : run_call (CancelFd fd rs) q = cancel_fd fd rs q.
Proof.
  unfold cancel_fd. simpl. destruct (fds q !! fd) as [st|]; [|done].
  generalize (ops st) (erase fd q). induction rs as [|r rs IH]; intros os q'; simpl.
  - destruct os as [|o os]; [done|]. simpl. generalize (log (Cancelled o) q'). clear.
    induction os as [|o os IH]; intros q; simpl; [done|apply IH].
  - destruct os as [|o os]; [done|]. by rewrite IH.
Qed.

(** ** [step] *)

Definition POLLIN : Z := 1.
Definition POLLOUT : Z := 4.
Definition POLLERR : Z := 8.
Definition POLLHUP : Z := 16.
Definition POLLNVAL : Z := 32.

(** [revents & (... | POLLHUP | POLLERR | POLLNVAL)]. *)
Definition has_event (ev revents : Z) : bool :=
  bool_decide (Z.land revents (Z.lor ev (Z.lor POLLHUP (Z.lor POLLERR POLLNVAL))) <> 0%Z).

Definition events (st : FdState) : Z :=
  Z.lor (if bool_decide (read_op st = None) then 0 else POLLIN)
    (if bool_decide (write_queue st = []) then 0 else POLLOUT).

(** The descriptors polled, in the order of the table. *)
Definition poll_set (q : t) : list (Z * Z) :=
  filter (fun p => p.2 <> 0%Z) ((fun p => (p.1, events p.2)) <$> map_to_list (fds q)).

(** What [on_ready] of an operation did: its result, and what it resumed. *)
Definition reaction := (bool * list call)%type.

(** After a read operation finished: its registration goes, unless it was renewed. *)
Definition finish_read (fd gen : Z) (q : t) : t :=
  match fds q !! fd with
  | Some st' =>
      if bool_decide (read_op_gen st' = gen)
      then store fd (MkFd None (read_op_gen st') (write_queue st')) q
      else q
  | None => q
  end.

(** After a write operation finished: it goes if it is still in front. *)
Definition pop_write (fd : Z) (op : nat) (q : t) : t :=
  match fds q !! fd with
  | Some (MkFd ro gen (op' :: wq)) => if bool_decide (op' = op) then store fd (MkFd ro gen wq) q else q
  | _ => q
  end.

(** [if (it->second.empty()) _fds.erase(it)]. *)
Definition drop_empty (fd : Z) (q : t) : t :=
  match fds q !! fd with
  | Some st => if fd_empty st then erase fd q else q
  | None => q
  end.

(** The first block of the loop over [pfds]: the read operation. *)
Definition dispatch_read (fd : Z) (r : reaction) (q : t) : t :=
  match fds q !! fd with
  | Some st =>
      match read_op st with
      | Some op =>
          let gen := read_op_gen st in
          let q := run_calls r.2 (log (Ready op r.1) q) in
          if r.1 then finish_read fd gen q else q
      | None => q
      end
  | None => q
  end.

(** The [for (;;)] of the second block, one reaction for each [on_ready]; without one, the
    socket takes no more. *)
Fixpoint dispatch_writes (fd : Z) (rs : list reaction) (q : t) : t :=
  match fds q !! fd with
  | Some st =>
      match write_queue st, rs with
      | op :: _, r :: rs =>
          let q := run_calls r.2 (log (Ready op r.1) q) in
          if r.1 then dispatch_writes fd rs (pop_write fd op q) else q
      | op :: _, [] => log (Ready op false) q
      | [], _ => q
      end
  | None => q
  end.

(** One turn of the loop over [pfds]. *)
Definition dispatch_fd (fd revents : Z) (rr : reaction) (wr : list reaction) (q : t) : t :=
  if bool_decide (revents = 0%Z) then q
  else
    let q := if has_event POLLIN revents then dispatch_read fd rr q else q in
    let q := if has_event POLLOUT revents then dispatch_writes fd wr q else q in
    drop_empty fd q.

(** What [poll] returns: an error, nothing in time, or [revents] for each descriptor it was
    passed, here with the reactions of the operations called for it. *)
Inductive poll_result :=
  | PollError (e : Z)
  | PollTimeout
  | PollReady (pfds : list (Z * Z * reaction * list reaction)).

(** [step]; [poll_ok] below says the descriptors are those of [poll_set]. *)
Definition step (p : poll_result) (q : t) : outcome t :=
  match p with
  | PollError e => if bool_decide (e = EINTR) then Ok q else Throw (system_error e)
  | PollTimeout => Ok q
  | PollReady pfds =>
      Ok (foldl (fun q x => let '(fd, rev, rr, wr) := x in dispatch_fd fd rev rr wr q) q pfds)
  end.

Definition poll_ok (p : poll_result) (q : t) : Prop :=
  match p with
  | PollReady pfds => ((fun x => x.1.1.1) <$> pfds) = (poll_set q).*1
  | _ => True
  end.

(** ** The destructor *)

(** Does the loop of [~Queue] still stand on the element of [fd]: not erased, and no
    insertion that may have rehashed the table under its iterator. *)
Definition stands (fd : Z) (q q' : t) : bool :=
  bool_decide (is_Some (fds q' !! fd)) && bool_decide (inserted q' = inserted q).

(** The inner loop, over [state.write_queue]; [None] is an access to an erased element or
    through an invalidated iterator. *)
Fixpoint destroy_writes (fd : Z) (rs : list (list call)) (os : list nat) (q : t) : option t :=
  match os with
  | [] => Some q
  | o :: os =>
      let q' := run_calls (hd [] rs) (log (Cancelled o) q) in
      if stands fd q q' && bool_decide (write_queue (entry fd q') = write_queue (entry fd q))
      then destroy_writes fd (tail rs) os q'
      else None
  end.

(** The body of the outer loop, for the element [st] of [fd]. *)
Definition destroy_fd (fd : Z) (rs : list (list call)) (st : FdState) (q : t) : option t :=
  match read_op st with
  | Some o =>
      let q' := run_calls (hd [] rs) (log (Cancelled o) q) in
      if stands fd q q' then destroy_writes fd (tail rs) (write_queue (entry fd q')) q' else None
  | None => destroy_writes fd rs (write_queue st) q
  end.

(** The outer loop, over the elements not erased meanwhile. *)
Fixpoint destroy_loop (order : list Z) (rs : Z -> list (list call)) (q : t) : option t :=
  match order with
  | [] => Some q
  | fd :: order =>
      match fds q !! fd with
      | None => destroy_loop order rs q
      | Some st =>
          match destroy_fd fd (rs fd) st q with
          | Some q => destroy_loop order rs q
          | None => None
          end
      end
  end.

(** [~Queue]: [rs fd] is what the operations of [fd] resume. *)
Definition destroy (rs : Z -> list (list call)) (q : t) : option t :=
  destroy_loop (map_to_list (fds q)).*1 rs q.

(** ** Reasoning about resumed coroutines *)

Lemma call_ind2 (P : call -> Prop) (Q : list call -> Prop) (R : list (list call) -> Prop) :
  (forall fd op, P (SetRead fd op)) -> (forall fd op, P (ClearRead fd op)) ->
  (forall fd op, P (PushWrite fd op)) -> (forall fd rs, R rs -> P (CancelFd fd rs)) ->
  Q [] -> (forall c cs, P c -> Q cs -> Q (c :: cs)) ->
  R [] -> (forall r rs, Q r -> R rs -> R (r :: rs)) ->
  forall cs, Q cs.
Proof.
  intros Hset Hclear Hpush Hcancel Hnil Hcons Rnil Rcons.
  assert (HP : forall c, P c).
  { refine (fix go c := match c return P c with
      | SetRead fd op => Hset fd op
      | ClearRead fd op => Hclear fd op
      | PushWrite fd op => Hpush fd op
      | CancelFd fd rs => Hcancel fd rs
          ((fix gor rs := match rs return R rs with
            | [] => Rnil
            | r :: rs => Rcons r rs
                ((fix goq cs := match cs return Q cs with
                  | [] => Hnil
                  | c :: cs => Hcons c cs (go c) (goq cs)
                  end) r) (gor rs)
            end) rs)
      end). }
  induction cs; auto.
Qed.

(** [P] of a call and of all the calls below it. *)
Fixpoint every (P : call -> Prop) (c : call) : Prop :=
  P c /\
  match c with
  | CancelFd _ rs => foldr (fun r acc => foldr (fun c acc => every P c /\ acc) True r /\ acc) True rs
  | _ => True
  end.

Definition every_call (P : call -> Prop) (cs : list call) : Prop :=
  foldr (fun c acc => every P c /\ acc) True cs.

(** What every single change of the table respects, the calls allowed by [P] respect. *)
Section relation.
Context (P : call -> Prop) (I : relation t) `{!PreOrder I}.
Hypothesis I_set : forall fd op q, P (SetRead fd op) -> I q (set_read_op fd op q).
Hypothesis I_clear : forall fd op q, P (ClearRead fd op) -> I q (clear_read_op fd op q).
Hypothesis I_push : forall fd op q, P (PushWrite fd op) -> I q (push_write_op fd op q).
Hypothesis I_erase : forall fd rs q, P (CancelFd fd rs) -> I q (erase fd q).
Hypothesis I_cancel : forall o q, I q (log (Cancelled o) q).

Lemma run_calls_rel cs q : every_call P cs -> I q (run_calls cs q).
Proof using All.
  revert cs q.
  apply (call_ind2 (fun c => forall q, every P c -> I q (run_call c q))
    (fun cs => forall q, every_call P cs -> I q (run_calls cs q))
    (fun rs => forall os q, foldr (fun r acc => every_call P r /\ acc) True rs ->
       I q (cancel_ops rs os q))).
  - intros fd op q [HP _]. by apply I_set.
  - intros fd op q [HP _]. by apply I_clear.
  - intros fd op q [HP _]. by apply I_push.
  - intros fd rs IH q [HP Hrs]. rewrite run_call_cancel. unfold cancel_fd.
    destruct (fds q !! fd) as [st|]; [|reflexivity].
    etrans; [by eapply I_erase|]. by apply IH.
  - intros q _. reflexivity.
  - intros c cs IHc IHcs q [Hc Hcs]. simpl. etrans; [by apply IHc|by apply IHcs].
  - intros os. induction os as [|o os IH]; intros q _; simpl; [reflexivity|].
    etrans; [apply I_cancel|]. by apply IH.
  - intros r rs IHr IHrs [|o os] q [Hr Hrs]; simpl; [reflexivity|].
    etrans; [apply (I_cancel o)|]. etrans; [by apply IHr|]. by apply IHrs.
Qed.

Lemma cancel_ops_rel rs os q : Forall (every_call P) rs -> I q (cancel_ops rs os q).
Proof using All.
  revert rs q. induction os as [|o os IH]; intros rs q Hrs; simpl; [reflexivity|].
  etrans; [apply (I_cancel o)|].
  destruct Hrs as [|r rs Hr Hrs]; simpl; [by apply IH|].
  etrans; [by apply run_calls_rel|]. by apply IH.
Qed.
End relation.

(** ** The table holds what is pending, and nothing else *)

Definition table_ok (q : t) : Prop := map_Forall (fun _ st => fd_empty st = false) (fds q).

Lemma every_True cs : every_call (fun _ => True) cs.
Proof.
  revert cs. apply (call_ind2 (every (fun _ => True)) (every_call (fun _ => True))
    (foldr (fun r acc => every_call (fun _ => True) r /\ acc) True)); simpl; auto.
Qed.

Lemma store_ok fd st q : table_ok q -> fd_empty st = false -> table_ok (store fd st q).
Proof. intros Hq Hst. by apply map_Forall_insert_2. Qed.

Lemma set_read_op_ok fd op q : table_ok q -> table_ok (set_read_op fd op q).
Proof. intros Hq. by apply store_ok. Qed.

Lemma push_write_op_ok fd op q : table_ok q -> table_ok (push_write_op fd op q).
Proof.
  intros Hq. apply store_ok; [done|]. unfold fd_empty. simpl.
  rewrite (bool_decide_false (_ ++ _ = [])); [apply andb_false_r|]. by destruct (write_queue _).
Qed.

Lemma erase_ok fd q : table_ok q -> table_ok (erase fd q).
Proof. apply map_Forall_delete. Qed.

Lemma clear_read_op_ok fd op q : table_ok q -> table_ok (clear_read_op fd op q).
Proof.
  intros Hq. unfold clear_read_op. repeat case_match; try done; [by apply erase_ok|by apply store_ok].
Qed.

Definition keeps_ok (q q' : t) : Prop := table_ok q -> table_ok q'.

#[export] Instance keeps_ok_preorder : PreOrder keeps_ok.
Proof. split; unfold keeps_ok; [by intros q|intros q1 q2 q3; auto]. Qed.

Lemma run_calls_ok cs q : table_ok q -> table_ok (run_calls cs q).
Proof.
  apply (run_calls_rel (fun _ => True) keeps_ok); unfold keeps_ok;
    auto using set_read_op_ok, clear_read_op_ok, push_write_op_ok, erase_ok, every_True.
Qed.

Lemma cancel_ops_ok rs os q : table_ok q -> table_ok (cancel_ops rs os q).
Proof.
  apply (cancel_ops_rel (fun _ => True) keeps_ok); unfold keeps_ok;
    auto using set_read_op_ok, clear_read_op_ok, push_write_op_ok, erase_ok.
  apply Forall_forall. intros. apply every_True.
Qed.

Lemma cancel_fd_ok fd rs q : table_ok q -> table_ok (cancel_fd fd rs q).
Proof. intros Hq. unfold cancel_fd. case_match; [by apply cancel_ops_ok, erase_ok|done]. Qed.

(** While [fd] is dispatched its entry may be empty, the others not. *)
Definition table_but (fd : Z) (q : t) : Prop :=
  map_Forall (fun k st => k = fd \/ fd_empty st = false) (fds q).

Lemma table_but_ok fd q : table_ok q -> table_but fd q.
Proof. intros Hq k st Hk. right. by eapply Hq. Qed.

Lemma table_but_store fd st q : table_but fd q -> table_but fd (store fd st q).
Proof. intros Hq. apply map_Forall_insert_2; [by left|done]. Qed.

(** With an entry for [fd] that is not empty, nothing is. *)
Lemma table_but_full fd st q :
  table_but fd q -> fds q !! fd = Some st -> fd_empty st = false -> table_ok q.
Proof. intros Hq Hfd Hst k st' Hk. destruct (Hq k st' Hk) as [-> |]; [by simplify_eq|done]. Qed.

Lemma dispatch_read_ok fd r q : table_ok q -> table_but fd (dispatch_read fd r q).
Proof.
  intros Hq. unfold dispatch_read, finish_read. repeat case_match; auto using table_but_ok, run_calls_ok.
  apply table_but_store, table_but_ok, run_calls_ok, Hq.
Qed.

Lemma dispatch_writes_ok fd rs q : table_but fd q -> table_but fd (dispatch_writes fd rs q).
Proof.
  revert q. induction rs as [|r rs IH]; intros q Hq; cbn [dispatch_writes].
  { by repeat case_match. }
  destruct (fds q !! fd) as [st|] eqn:Hfd; [|done].
  destruct (write_queue st) as [|op wq] eqn:Hwq; [done|].
  assert (Hfull : table_ok (log (Ready op r.1) q)).
  { apply (table_but_full fd st); [done|done|]. unfold fd_empty. rewrite Hwq. apply andb_false_r. }
  pose proof (table_but_ok fd _ (run_calls_ok r.2 _ Hfull)) as Hrun.
  destruct (r.1); [|done]. apply IH. unfold pop_write. repeat case_match; auto using table_but_store.
Qed.

Lemma dispatch_fd_ok fd rev rr wr q : table_ok q -> table_ok (dispatch_fd fd rev rr wr q).
Proof.
  intros Hq. unfold dispatch_fd. case_bool_decide; [done|].
  set (q1 := if has_event POLLIN rev then _ else q).
  assert (Hq1 : table_but fd q1).
  { unfold q1. case_match; [by apply dispatch_read_ok|by apply table_but_ok]. }
  clearbody q1. set (q2 := if has_event POLLOUT rev then _ else q1).
  assert (Hq2 : table_but fd q2).
  { unfold q2. case_match; [by apply dispatch_writes_ok|done]. }
  clearbody q2. unfold drop_empty. destruct (fds q2 !! fd) as [st|] eqn:Hfd.
  - destruct (fd_empty st) eqn:Hst; [|by eapply table_but_full].
    intros k st' Hk. simpl in Hk. apply lookup_delete_Some in Hk as [Hne Hk].
    by destruct (Hq2 k st' Hk).
  - intros k st' Hk. destruct (Hq2 k st' Hk); [congruence|done].
Qed.

Lemma libc_step_ok p q q' : table_ok q -> step p q = Ok q' -> table_ok q'.
Proof.
  intros Hq. destruct p as [e| |pfds]; simpl; [case_bool_decide; naive_solver|naive_solver|].
  intros [= <-]. revert q Hq. induction pfds as [|[[[fd rev] rr] wr] pfds IH]; intros q Hq; simpl; [done|].
  apply IH. by apply dispatch_fd_ok.
Qed.

Lemma events_empty st : events st = 0%Z <-> fd_empty st = true.
Proof.
  unfold events, fd_empty. repeat case_bool_decide; by vm_compute.
Qed.

(** [step] polls every descriptor of a well-formed table. *)
Lemma poll_set_all q : table_ok q -> (poll_set q).*1 = (map_to_list (fds q)).*1.
Proof.
  intros Hq. unfold poll_set.
  assert (Hall : Forall (fun p => fd_empty p.2 = false) (map_to_list (fds q))).
  { apply Forall_forall. intros [fd st] Hin. apply list_elem_of_In, elem_of_map_to_list in Hin.
    by eapply Hq. }
  induction Hall as [|[fd st] l Hst _ IH]; [done|]. simpl in *.
  rewrite filter_cons_True; [simpl; f_equal; exact IH|]. simpl.
  intros Hev%events_empty. congruence.
Qed.

Lemma poll_set_entry fd ev q :
  table_ok q -> (fd, ev) ∈ poll_set q <-> exists st, fds q !! fd = Some st /\ ev = events st.
Proof.
  intros Hq. unfold poll_set. rewrite list_elem_of_filter, list_elem_of_fmap. split.
  - intros (Hev & [fd' st] & [= -> ->] & Hin%elem_of_map_to_list). by exists st.
  - intros (st & Hst & ->). split.
    + simpl. intros Hev%events_empty. specialize (Hq _ _ Hst). simpl in Hq. congruence.
    + exists (fd, st). split; [done|]. by apply elem_of_map_to_list.
Qed.

(** ** What a reentrant coroutine does to an entry it leaves in place *)

(** A call that neither clears nor cancels what waits on [fd]. *)
Definition spares (fd : Z) (c : call) : Prop :=
  match c with
  | ClearRead fd' _ | CancelFd fd' _ => fd' <> fd
  | _ => True
  end.

(** [read_op_gen] after [n] assignments of [read_op]. *)
Definition gen_after (g : Z) (n : nat) : Z :=
  match n with O => g | S _ => u64 (g + Z.of_nat n) end.

(** The entry of [fd] after read operations [sets] were armed and [pushes] were queued. *)
Definition rearmed (st : FdState) (sets pushes : list nat) : FdState :=
  MkFd (match list.last sets with Some o => Some o | None => read_op st end)
       (gen_after (read_op_gen st) (length sets))
       (write_queue st ++ pushes).

Lemma rearmed_nil st : rearmed st [] [] = st.
Proof. unfold rearmed. simpl. rewrite app_nil_r. by destruct st. Qed.

Definition evolves (fd : Z) (q q' : t) : Prop :=
  forall st, fds q !! fd = Some st ->
  exists sets pushes, fds q' !! fd = Some (rearmed st sets pushes).

Lemma gen_after_add g n m : gen_after (gen_after g n) m = gen_after g (n + m).
Proof.
  destruct n as [|n]; [done|]. destruct m as [|m]; [by rewrite Nat.add_0_r|].
  simpl gen_after. unfold u64. rewrite Zplus_mod_idemp_l. f_equal. lia.
Qed.

Lemma gen_after_ne g n : (0 <= g < 2 ^ 64)%Z -> 0 < n -> (Z.of_nat n < 2 ^ 64)%Z -> gen_after g n <> g.
Proof.
  intros Hg Hn Hlt. destruct n as [|n]; [lia|]. unfold gen_after, u64. intros Heq.
  destruct (Z_lt_le_dec (g + Z.of_nat (S n)) (2 ^ 64)).
  - rewrite Z.mod_small in Heq by lia. lia.
  - rewrite <- (Z_mod_plus_full _ (-1)), Z.mod_small in Heq by lia. lia.
Qed.

#[export] Instance evolves_preorder fd : PreOrder (evolves fd).
Proof.
  split.
  - intros q st Hst. exists [], []. by rewrite rearmed_nil.
  - intros q1 q2 q3 H12 H23 st Hst.
    destruct (H12 st Hst) as (s1 & p1 & H1). destruct (H23 _ H1) as (s2 & p2 & H2).
    exists (s1 ++ s2), (p1 ++ p2). rewrite H2. unfold rearmed. simpl.
    rewrite gen_after_add, length_app, app_assoc, list.last_app. by destruct (list.last s2).
Qed.

Lemma lookup_store fd fd' st q :
  fds (store fd st q) !! fd' = if decide (fd = fd') then Some st else fds q !! fd'.
Proof. simpl. case_decide; [subst; apply lookup_insert_eq|by apply lookup_insert_ne]. Qed.

Lemma run_calls_evolves fd cs q : every_call (spares fd) cs -> evolves fd q (run_calls cs q).
Proof.
  apply (run_calls_rel (spares fd) (evolves fd)).
  - intros fd' op q' _ st Hst. unfold set_read_op. rewrite lookup_store. case_decide.
    + subst. exists [op], []. unfold entry, rearmed. rewrite Hst. simpl. by rewrite app_nil_r.
    + exists [], []. by rewrite rearmed_nil.
  - intros fd' op q' Hne st Hst. simpl in Hne. exists [], [].
    assert (Heq : fds (clear_read_op fd' op q') !! fd = Some st).
    { unfold clear_read_op. repeat case_match; try done; simpl;
        [by rewrite lookup_delete_ne|by rewrite lookup_insert_ne]. }
    by rewrite Heq, rearmed_nil.
  - intros fd' op q' _ st Hst. unfold push_write_op. rewrite lookup_store. case_decide.
    + subst. exists [], [op]. unfold entry, rearmed. rewrite Hst. by destruct st.
    + exists [], []. by rewrite rearmed_nil.
  - intros fd' rs q' Hne st Hst. simpl in Hne. exists [], []. simpl. rewrite lookup_delete_ne by done.
    by rewrite rearmed_nil.
  - intros o q' st Hst. exists [], []. by rewrite rearmed_nil.
Qed.

(** ** What was called *)

(** The calls of [on_ready], and the operations cancelled, in order. *)
Definition readies (q : t) : list (nat * bool) :=
  omap (fun n => match n with Ready o b => Some (o, b) | _ => None end) (notes q).
Definition cancelled (q : t) : list nat :=
  omap (fun n => match n with Cancelled o => Some o | _ => None end) (notes q).

Definition same_readies (q q' : t) : Prop := readies q' = readies q.

#[export] Instance same_readies_preorder : PreOrder same_readies.
Proof. split; unfold same_readies; congruence. Qed.

Lemma run_calls_readies cs q : readies (run_calls cs q) = readies q.
Proof.
  apply (run_calls_rel (fun _ => True) same_readies); unfold same_readies; try done;
    [|intros o q'; unfold readies; simpl; by rewrite omap_app, app_nil_r|apply every_True].
  intros fd op q' _. unfold clear_read_op. by repeat case_match.
Qed.

(** Cancellations are only ever added. *)
Definition more_cancelled (q q' : t) : Prop := exists l, cancelled q' = cancelled q ++ l.

#[export] Instance more_cancelled_preorder : PreOrder more_cancelled.
Proof.
  split.
  - intros q. exists []. by rewrite app_nil_r.
  - intros q1 q2 q3 [l1 H1] [l2 H2]. exists (l1 ++ l2). by rewrite H2, H1, app_assoc.
Qed.

Lemma more_cancelled_same q q' : notes q' = notes q -> more_cancelled q q'.
Proof. intros Hn. exists []. unfold cancelled. by rewrite Hn, app_nil_r. Qed.

Lemma cancelled_log o q : cancelled (log (Cancelled o) q) = cancelled q ++ [o].
Proof. unfold cancelled. simpl. by rewrite omap_app. Qed.

Lemma clear_read_op_notes fd op q : notes (clear_read_op fd op q) = notes q.
Proof. unfold clear_read_op. by repeat case_match. Qed.

Lemma run_calls_cancelled cs q : more_cancelled q (run_calls cs q).
Proof.
  apply (run_calls_rel (fun _ => True) more_cancelled);
    try (intros; by apply more_cancelled_same); [| |apply every_True].
  - intros. apply more_cancelled_same, clear_read_op_notes.
  - intros o q'. exists [o]. apply cancelled_log.
Qed.

(** A call that cancels nothing. *)
Definition flat (c : call) : Prop := match c with CancelFd _ _ => False | _ => True end.

Definition same_cancelled (q q' : t) : Prop := cancelled q' = cancelled q.

Lemma run_calls_flat cs q : Forall flat cs -> cancelled (run_calls cs q) = cancelled q.
Proof.
  intros Hcs. revert q. induction Hcs as [|c cs Hc _ IH]; intros q; [done|]. simpl. rewrite IH.
  destruct c; try done. unfold cancelled. simpl. by rewrite clear_read_op_notes.
Qed.

(** ** Theorems *)

(** C30: a registration made by a resumed coroutine survives. When a read operation
    finishes in [step], [_fds] ends up with what its coroutine armed last on the same
    descriptor, at whatever address (the finished operation's own included), or with no
    read operation if it armed none; the sends it queued are kept in order; and no other
    descriptor is touched. This covers every coroutine that does not, inside that very
    call, cancel or clear the descriptor itself. *)
Theorem libc_rearm_survives (fd : Z) (op : nat) (calls : list call) (st : FdState) (q : t) :
  fds q !! fd = Some st -> read_op st = Some op -> (0 <= read_op_gen st < 2 ^ 64)%Z ->
  every_call (spares fd) calls ->
  let resumed := run_calls calls (log (Ready op true) q) in
  let q' := dispatch_read fd (true, calls) q in
  exists sets pushes,
    fds resumed !! fd = Some (rearmed st sets pushes) /\
    ((Z.of_nat (length sets) < 2 ^ 64)%Z ->
       fds q' !! fd = Some (MkFd (list.last sets) (gen_after (read_op_gen st) (length sets))
                              (write_queue st ++ pushes))) /\
    (forall fd', fd' <> fd -> fds q' !! fd' = fds resumed !! fd').
Proof.
  intros Hst Hop Hgen Hcalls resumed q'.
  destruct (run_calls_evolves fd calls (log (Ready op true) q) Hcalls st Hst) as (sets & pushes & Hev).
  exists sets, pushes. split; [done|].
  assert (Hq' : q' = if bool_decide (gen_after (read_op_gen st) (length sets) = read_op_gen st)
    then store fd (MkFd None (gen_after (read_op_gen st) (length sets)) (write_queue st ++ pushes)) resumed
    else resumed).
  { unfold q', dispatch_read, finish_read. rewrite Hst, Hop. cbn [fst snd]. by rewrite Hev. }
  rewrite Hq'. split.
  - intros Hlen. destruct sets as [|o sets].
    + rewrite bool_decide_true by done. by rewrite lookup_store, decide_True.
    + rewrite bool_decide_false by (apply gen_after_ne; simpl in *; lia).
      unfold resumed. rewrite Hev. unfold rearmed.
      by destruct (list.last (o :: sets)) eqn:Hl; [|apply last_None in Hl].
  - intros fd' Hne. case_bool_decide; [|done]. by rewrite lookup_store, decide_False.
Qed.

Lemma readies_log o b q : readies (log (Ready o b) q) = readies q ++ [(o, b)].
Proof. unfold readies. simpl. by rewrite omap_app. Qed.

(** One finished send: it is taken off the front, what its coroutine queued stays. *)
Lemma pop_front fd op b calls st wq q :
  fds q !! fd = Some st -> write_queue st = op :: wq -> every_call (spares fd) calls ->
  let q1 := run_calls calls (log (Ready op b) q) in
  exists sets pushes,
    fds q1 !! fd = Some (rearmed st sets pushes) /\
    write_queue (rearmed st sets pushes) = op :: wq ++ pushes /\
    readies q1 = readies q ++ [(op, b)].
Proof.
  intros Hst Hwq Hcalls q1.
  destruct (run_calls_evolves fd calls (log (Ready op b) q) Hcalls st Hst) as (sets & pushes & Hev).
  exists sets, pushes. split; [done|]. unfold q1. rewrite run_calls_readies, readies_log.
  unfold rearmed. simpl. by rewrite Hwq.
Qed.

(** Sends on one descriptor finish in the order they were queued, each exactly once.
    In one cycle, a prefix of the queue finishes, sends queued meanwhile by the resumed
    coroutines included; every send that finished was called once and taken off; the first
    that is not ready is called once and stays in front with everything behind it, in
    order. This covers the coroutines that do not cancel the descriptor themselves. *)
Theorem libc_writes_fifo (fd : Z) (rs : list reaction) (st : FdState) (q : t) :
  fds q !! fd = Some st -> Forall (fun r => every_call (spares fd) r.2) rs ->
  exists k pushes st',
    let q' := dispatch_writes fd rs q in
    let all := write_queue st ++ pushes in
    fds q' !! fd = Some st' /\ write_queue st' = drop k all /\ k <= length all /\
    Forall (fun r => r.1 = true) (take k rs) /\
    readies q' = readies q ++ ((fun o => (o, true)) <$> take k all) ++
      ((fun o => (o, false)) <$> take 1 (drop k all)) /\
    (k < length all -> forall r, rs !! k = Some r -> r.1 = false).
Proof.
  revert q st. induction rs as [|r rs IH]; intros q st Hst Hrs; cbn [dispatch_writes]; rewrite Hst;
    (destruct (write_queue st) as [|op wq] eqn:Hwq;
      [exists 0, [], st; simpl; rewrite ?app_nil_r; split_and!; (lia || done)|]).
  { exists 0, [], st. simpl. rewrite app_nil_r. split_and!; try done; [lia|apply readies_log]. }
  apply Forall_cons_iff in Hrs as [Hr Hrs].
  destruct (pop_front fd op r.1 r.2 st wq q Hst Hwq Hr) as (sets & pushes & Hev & Hq1 & Hread).
  destruct r as [[|] calls]; cbn [fst snd] in *.
  - unfold pop_write. rewrite Hev. unfold rearmed in Hq1 |- *. simpl in Hq1. rewrite Hq1. rewrite bool_decide_true by done.
    set (st2 := MkFd _ _ (wq ++ pushes)). set (q2 := store fd st2 _).
    assert (Hst2 : fds q2 !! fd = Some st2) by (unfold q2; by rewrite lookup_store, decide_True).
    destruct (IH q2 st2 Hst2 Hrs) as (k & ps & st' & H1 & H2 & H3 & H4 & H5 & H6).
    exists (S k), (pushes ++ ps), st'. cbn zeta. simpl. simpl in H2, H3, H5.
    rewrite app_assoc. split_and!; try done.
    + lia.
    + by constructor.
    + rewrite H5. unfold q2, readies at 1. simpl. fold (readies (run_calls calls (log (Ready op true) q))).
      by rewrite Hread, <- app_assoc.
    + intros Hk. apply H6. simpl. lia.
  - exists 0, pushes, (rearmed st sets pushes). rewrite drop_0, take_0. cbn zeta. split_and!; try done.
    + lia.
    + intros _ r [= <-]. done.
Qed.

Lemma cancel_ops_sublist rs os q :
  exists l, cancelled (cancel_ops rs os q) = cancelled q ++ l /\ os `sublist_of` l /\
    (Forall (Forall flat) rs -> l = os).
Proof.
  revert rs q. induction os as [|o os IH]; intros rs q; simpl.
  { exists []. rewrite app_nil_r. by split_and!. }
  destruct (run_calls_cancelled (hd [] rs) (log (Cancelled o) q)) as [l1 Hl1].
  destruct (IH (tail rs) (run_calls (hd [] rs) (log (Cancelled o) q))) as (l2 & Hl2 & Hsub & Hflat).
  exists (o :: l1 ++ l2). rewrite Hl2, Hl1, cancelled_log. split_and!.
  - by rewrite <- !app_assoc.
  - constructor. by apply sublist_inserts_l.
  - intros Hrs. assert (Hl1nil : l1 = []).
    { destruct rs as [|r rs]; simpl in Hl1.
      - rewrite cancelled_log in Hl1. apply (app_inv_head (cancelled q ++ [o])). by rewrite app_nil_r.
      - apply Forall_cons_iff in Hrs as [Hr _]. rewrite run_calls_flat, cancelled_log in Hl1 by done.
        apply (app_inv_head (cancelled q ++ [o])). by rewrite app_nil_r. }
    rewrite Hl1nil. simpl. f_equal. apply Hflat. destruct Hrs; simpl; auto.
Qed.

(** A call that makes nothing wait on [fd]. *)
Definition quits (fd : Z) (c : call) : Prop :=
  match c with SetRead fd' _ | PushWrite fd' _ => fd' <> fd | _ => True end.

Definition stays_out (fd : Z) (q q' : t) : Prop := fds q !! fd = None -> fds q' !! fd = None.

#[export] Instance stays_out_preorder fd : PreOrder (stays_out fd).
Proof. split; unfold stays_out; [by intros q|intros q1 q2 q3; auto]. Qed.

Lemma cancel_ops_out fd rs os q :
  Forall (every_call (quits fd)) rs -> fds q !! fd = None -> fds (cancel_ops rs os q) !! fd = None.
Proof.
  apply (cancel_ops_rel (quits fd) (stays_out fd)); unfold stays_out; try done.
  - intros fd' op q' Hne Hq. unfold set_read_op. by rewrite lookup_store, decide_False.
  - intros fd' op q' _ Hq. unfold clear_read_op.
    repeat case_match; try done; simpl; [|rewrite lookup_insert_ne; [done|by intros ->; congruence]].
    destruct (decide (fd' = fd)) as [->|]; [apply lookup_delete_eq|by rewrite lookup_delete_ne].
  - intros fd' op q' Hne Hq. unfold push_write_op. by rewrite lookup_store, decide_False.
  - intros fd' rs' q' _ Hq. simpl.
    destruct (decide (fd' = fd)) as [->|]; [apply lookup_delete_eq|by rewrite lookup_delete_ne].
Qed.

(** [cancel_fd] forgets the descriptor first and then finishes everything that waited
    on it: each operation registered is cancelled, in order, the read operation first,
    whatever the coroutines resumed in between do; if these cancel nothing themselves
    nothing else is cancelled and nothing twice; and unless one of them registers on the
    descriptor again, nothing is left on it. *)
Theorem libc_cancel_fd_exact (fd : Z) (rs : list (list call)) (st : FdState) (q : t) :
  fds q !! fd = Some st ->
  exists l,
    cancelled (cancel_fd fd rs q) = cancelled q ++ l /\ ops st `sublist_of` l /\
    (Forall (Forall flat) rs -> l = ops st) /\
    (Forall (every_call (quits fd)) rs -> fds (cancel_fd fd rs q) !! fd = None).
Proof.
  intros Hst. unfold cancel_fd. rewrite Hst.
  destruct (cancel_ops_sublist rs (ops st) (erase fd q)) as (l & Hl & Hsub & Hflat).
  exists l. split_and!; try done.
  intros Hrs. apply cancel_ops_out; [done|]. apply lookup_delete_eq.
Qed.

(** *** The destructor *)

Lemma destroy_writes_quiet fd os q :
  is_Some (fds q !! fd) ->
  exists q', destroy_writes fd [] os q = Some q' /\ fds q' = fds q /\ inserted q' = inserted q /\
    cancelled q' = cancelled q ++ os.
Proof.
  revert q. induction os as [|o os IH]; intros q Hfd; simpl.
  { exists q. by rewrite app_nil_r. }
  unfold stands. simpl. rewrite !bool_decide_true by done. simpl.
  destruct (IH (log (Cancelled o) q) Hfd) as (q' & -> & Hf & Hi & Hc). exists q'.
  by rewrite Hc, cancelled_log, <- app_assoc.
Qed.

Lemma destroy_fd_quiet fd st q :
  fds q !! fd = Some st ->
  exists q', destroy_fd fd [] st q = Some q' /\ fds q' = fds q /\ inserted q' = inserted q /\
    cancelled q' = cancelled q ++ ops st.
Proof.
  intros Hst. unfold destroy_fd, ops. destruct (read_op st) as [o|]; simpl.
  - unfold stands. simpl. rewrite !bool_decide_true by (done || by rewrite Hst). simpl.
    unfold entry. simpl. rewrite Hst. simpl.
    destruct (destroy_writes_quiet fd (write_queue st) (log (Cancelled o) q)) as (q' & Hd & Hf & Hi & Hc);
      [by eexists|]. exists q'. by rewrite Hc, cancelled_log, <- app_assoc.
  - apply destroy_writes_quiet. by eexists.
Qed.

(** The stream of [fd] takes itself off the table while the loop stands on its element. *)
Lemma destroy_fd_clears fd op gen rs q :
  fds q !! fd = Some (MkFd (Some op) gen []) ->
  destroy_fd fd ([ClearRead fd op] :: rs) (MkFd (Some op) gen []) q = None.
Proof.
  intros Hst. unfold destroy_fd, stands. simpl. unfold clear_read_op. simpl. rewrite Hst. simpl.
  rewrite (bool_decide_true (Some op = Some op)) by done. simpl.
  rewrite bool_decide_false; [done|]. rewrite lookup_delete_eq. by intros [].
Qed.

Lemma destroy_loop_clears fd op gen order rs q :
  fds q !! fd = Some (MkFd (Some op) gen []) -> fd ∈ order ->
  hd [] (rs fd) = [ClearRead fd op] -> (forall fd', fd' <> fd -> rs fd' = []) ->
  destroy_loop order rs q = None.
Proof.
  intros Hst Hin Hfd Hrs. revert q Hst. induction order as [|fd' order IH]; intros q Hst; simpl.
  { by apply not_elem_of_nil in Hin. }
  destruct (decide (fd' = fd)) as [->|Hne].
  - rewrite Hst. destruct (rs fd) as [|r rest]; simpl in Hfd; [done|]. subst r.
    by rewrite destroy_fd_clears.
  - apply list.elem_of_cons in Hin as [?|Hin]; [congruence|]. rewrite (Hrs fd' Hne).
    destruct (fds q !! fd') as [st|] eqn:Hst'; [|by apply IH].
    destruct (destroy_fd_quiet fd' st q Hst') as (q' & -> & Hf & _ & _). apply IH; [done|].
    by rewrite Hf.
Qed.

(** The destructor of the queue iterates the live table, which [cancel_fd] takes care
    not to do. Where cancelling resumes nothing that calls back, every operation is
    cancelled once. But a connection suspended in its receive stream, when it is cancelled,
    ends and destroys that stream, which takes itself off the table: the loop then stands
    on an erased element, an undefined behaviour, for every such connection open when a
    worker's queue is destroyed. *)
Theorem libc_destructor_live_table (rs : Z -> list (list call)) (q : t) :
  ((forall fd, rs fd = []) -> exists q', destroy rs q = Some q' /\
     cancelled q' = cancelled q ++ mjoin ((fun p => ops p.2) <$> map_to_list (fds q))) /\
  (forall fd op gen, fds q !! fd = Some (MkFd (Some op) gen []) ->
     hd [] (rs fd) = [ClearRead fd op] -> (forall fd', fd' <> fd -> rs fd' = []) ->
     destroy rs q = None).
Proof.
  split.
  - intros Hrs. unfold destroy.
    assert (Hall : Forall (fun p => fds q !! p.1 = Some p.2) (map_to_list (fds q))).
    { apply Forall_forall. intros [fd st] Hin. by apply list_elem_of_In, elem_of_map_to_list in Hin. }
    revert Hall. generalize (map_to_list (fds q)). intros l Hall.
    assert (Hgen : forall q1, fds q1 = fds q -> exists q', destroy_loop l.*1 rs q1 = Some q' /\
      cancelled q' = cancelled q1 ++ mjoin ((fun p => ops p.2) <$> l)); [|by apply Hgen].
    induction Hall as [|[fd st] l Hst _ IH]; intros q1 Hq1; simpl.
    { exists q1. by rewrite app_nil_r. }
    simpl in Hst. rewrite Hq1, Hst, Hrs.
    destruct (destroy_fd_quiet fd st q1) as (q2 & -> & Hf & _ & Hc); [by rewrite Hq1|].
    destruct (IH q2) as (q' & Hd & Hc'); [by rewrite Hf|]. exists q'. split; [done|].
    by rewrite Hc', Hc, <- app_assoc.
  - intros fd op gen Hst Hfd Hrs. apply (destroy_loop_clears fd op gen); try done.
    apply list_elem_of_fmap. exists (fd, MkFd (Some op) gen []). split; [done|].
    by apply elem_of_map_to_list.
Qed.

(** What a system call leaves: no negative value, a positive [errno]. *)
Definition sys_ok (r : sysret) : Prop :=
  match r with Ret v => (0 <= v)%Z | Errno e => (0 < e)%Z end.

Definition again (e : attempt) : Prop := e = Tried (Errno EAGAIN).

(** An operation waiting on a descriptor ends with the first answer that is one. It
    stays suspended exactly while every attempt would block; it returns the value of the
    first call that succeeded, throws the [errno] of the first that failed, and
    [ECANCELED] if it was cancelled before; so neither an error nor a cancellation is
    ever taken for a count, and [EAGAIN] never reaches the coroutine. *)
Theorem libc_op_result (es : list attempt) :
  Forall (fun e => match e with Tried r => sys_ok r | Cancel => True end) es ->
  match await_op es with
  | None => Forall again es
  | Some out => exists k e, es !! k = Some e /\ Forall again (take k es) /\ ~ again e /\
      out = match e with
            | Tried (Ret v) => Ok v
            | Tried (Errno n) => Throw (system_error n)
            | Cancel => Throw (system_error ECANCELED)
            end
  end.
Proof.
  induction 1 as [|e es He _ IH]; simpl; [constructor|].
  assert (Hhere : forall out, ~ again e ->
    out = match e with
          | Tried (Ret v) => Ok v
          | Tried (Errno n) => Throw (system_error n)
          | Cancel => Throw (system_error ECANCELED)
          end ->
    exists k e', (e :: es) !! k = Some e' /\ Forall again (take k (e :: es)) /\ ~ again e' /\
      out = match e' with
            | Tried (Ret v) => Ok v
            | Tried (Errno n) => Throw (system_error n)
            | Cancel => Throw (system_error ECANCELED)
            end).
  { intros out Hna Hout. exists 0, e. by split_and!. }
  destruct e as [[v|n]|]; simpl in *.
  - apply Hhere; [by intros [=]|]. unfold op_end. by rewrite bool_decide_false by lia.
  - case_bool_decide as Hn.
    + subst n. destruct (await_op es) as [out|]; [|by constructor].
      destruct IH as (k & e & Hk & Hall & Hna & Hout). exists (S k), e. split_and!; try done.
      simpl. by constructor.
    + apply Hhere; [by intros [= ->]|]. unfold op_end. rewrite bool_decide_true by lia.
      by rewrite Z.opp_involutive.
  - by apply Hhere.
Qed.

(** ** Concrete tables *)

(** Two descriptors: 3 listens, 4 has a reader and two sends. *)
Definition example_table : t :=
  push_write_op 4 30 (push_write_op 4 20 (set_read_op 4 10 (set_read_op 3 1 init))).

(** An accept that finishes is awaited again at the address of the finished one. *)
Lemma libc_rearm_survives_witness :
  fds (dispatch_read 3 (true, [SetRead 5 7; SetRead 3 1]) example_table) !! 3%Z =
    Some (MkFd (Some 1) 2 []).
Proof.
  destruct (libc_rearm_survives 3 1 [SetRead 5 7; SetRead 3 1] (MkFd (Some 1) 1 []) example_table
    ltac:(by vm_compute) eq_refl ltac:(simpl; lia) ltac:(by simpl)) as (sets & pushes & Hev & Hq' & _).
  by vm_compute.
Defined.

(** The same through an entry that was erased in between is lost: generations start over. *)
Lemma rearm_lost_after_erase :
  fds (dispatch_read 3 (true, [CancelFd 3 []; SetRead 3 2]) example_table) !! 3%Z =
    Some (MkFd None 1 []).
Proof. by vm_compute. Qed.

(** The first send finishes and its coroutine queues another; the second is not ready. *)
Lemma libc_writes_fifo_witness :
  exists st', fds (dispatch_writes 4 [(true, [PushWrite 4 40]); (false, [])] example_table) !! 4%Z = Some st' /\
    write_queue st' = [30; 40].
Proof.
  destruct (libc_writes_fifo 4 [(true, [PushWrite 4 40]); (false, [])] (MkFd (Some 10) 1 [20; 30])
    example_table ltac:(by vm_compute) ltac:(by repeat constructor)) as (k & pushes & st' & Hst' & _).
  exists st'. split; [exact Hst'|]. revert Hst'. vm_compute. by intros [= <-].
Defined.

(** Cancelling descriptor 4: the reader, then both sends; the first send's coroutine puts
    one more operation on descriptor 3. *)
Lemma libc_cancel_fd_exact_witness :
  cancelled (cancel_fd 4 [[]; [PushWrite 3 50]] example_table) = [10; 20; 30] /\
  fds (cancel_fd 4 [[]; [PushWrite 3 50]] example_table) !! 4%Z = None.
Proof.
  destruct (libc_cancel_fd_exact 4 [[]; [PushWrite 3 50]] (MkFd (Some 10) 1 [20; 30]) example_table
    ltac:(by vm_compute)) as (l & Hl & _ & Hflat & Hout).
  rewrite Hl, (Hflat ltac:(by repeat constructor)). split; [by vm_compute|].
  apply Hout. repeat constructor; done.
Defined.

(** Would block twice, then two bytes are taken. *)
Lemma libc_op_result_witness :
  let es := [Tried (Errno EAGAIN); Tried (Errno EAGAIN); Tried (Ret 2)] in
  await_op es = Some (Ok 2%Z) /\
  exists k e, es !! k = Some e /\ Forall again (take k es) /\ ~ again e.
Proof.
  split; [by vm_compute|].
  destruct (libc_op_result [Tried (Errno EAGAIN); Tried (Errno EAGAIN); Tried (Ret 2)]
    ltac:(repeat constructor; simpl; unfold EAGAIN; lia)) as (k & e & Hk & Hagain & He & _).
  exists k, e. auto.
Defined.

(** One connection, whose stream clears itself when it is cancelled. *)
Lemma libc_destructor_live_table_witness :
  destroy (fun fd => if decide (fd = 4%Z) then [[ClearRead 4 10]] else []) (set_read_op 4 10 init) = None.
Proof.
  apply (proj2 (libc_destructor_live_table
    (fun fd => if decide (fd = 4%Z) then [[ClearRead 4 10]] else []) (set_read_op 4 10 init)) 4%Z 10 1%Z);
    [by vm_compute|by vm_compute|]. intros fd' Hne. by rewrite decide_False.
Defined.
