(* ===== verification/LibcEntry.v ===== *)
(** * One entry of the table of the poll-driven queue

    What the operations of [LibcQueue] do to the entry of one descriptor, and that they
    leave the others alone: shared by the refinement of the table ([LibcTable]), the
    connection of a worker ([LibcTurns]) and the client ([LibcClient]). *)

From S2P Require Import Prelude.
From S2P Require LibcQueue.

Open Scope nat_scope.

(** ** The entry of the descriptor *)

Definition entry_is (fd : Z) (ro : option nat) (wq : list nat) (q : LibcQueue.t) : Prop :=
  LibcQueue.read_op (LibcQueue.entry fd q) = ro /\ LibcQueue.write_queue (LibcQueue.entry fd q) = wq.

(** A call about [fd] that cancels nothing. *)
Definition touches (fd : Z) (c : LibcQueue.call) : Prop :=
  match c with
  | LibcQueue.SetRead fd' _ | LibcQueue.ClearRead fd' _ | LibcQueue.PushWrite fd' _ => fd' = fd
  | LibcQueue.CancelFd _ _ => False
  end.

Lemma entry_store fd fd' st q :
  LibcQueue.entry fd' (LibcQueue.store fd st q) = if decide (fd = fd') then st else LibcQueue.entry fd' q.
Proof. unfold LibcQueue.entry. rewrite LibcQueue.lookup_store. by case_decide. Qed.

Lemma entry_erase fd fd' q :
  LibcQueue.entry fd' (LibcQueue.erase fd q) =
    if decide (fd = fd') then LibcQueue.MkFd None 0 [] else LibcQueue.entry fd' q.
Proof.
  unfold LibcQueue.entry. simpl.
  case_decide; [subst; by rewrite lookup_delete_eq|by rewrite lookup_delete_ne].
Qed.

Lemma push_write_entry fd op ro wq q :
  entry_is fd ro wq q -> entry_is fd ro (wq ++ [op]) (LibcQueue.push_write_op fd op q).
Proof.
  intros [Hr Hw]. unfold entry_is, LibcQueue.push_write_op. rewrite entry_store, decide_True by done.
  simpl. by rewrite Hr, Hw.
Qed.

Lemma set_read_entry fd op ro wq q :
  entry_is fd ro wq q -> entry_is fd (Some op) wq (LibcQueue.set_read_op fd op q).
Proof.
  intros [Hr Hw]. unfold entry_is, LibcQueue.set_read_op. by rewrite entry_store, decide_True by done.
Qed.

Lemma clear_read_entry fd op wq q :
  entry_is fd (Some op) wq q -> entry_is fd None wq (LibcQueue.clear_read_op fd op q).
Proof.
  intros [Hr Hw]. unfold LibcQueue.clear_read_op, LibcQueue.entry in *.
  destruct (LibcQueue.fds q !! fd) as [st|] eqn:Hst; simpl in *; [|done].
  rewrite bool_decide_true by done. case_match eqn:He; unfold entry_is.
  - rewrite entry_erase, decide_True by done. split; [done|]. unfold LibcQueue.fd_empty in He. simpl in He.
    apply bool_decide_eq_true in He. simpl. congruence.
  - by rewrite entry_store, decide_True.
Qed.

(** What a finished operation leaves behind. *)
Lemma pop_write_entry fd op ro wq q :
  entry_is fd ro (op :: wq) q -> entry_is fd ro wq (LibcQueue.pop_write fd op q).
Proof.
  intros [Hr Hw]. unfold LibcQueue.pop_write, LibcQueue.entry in *.
  destruct (LibcQueue.fds q !! fd) as [[ro' gen wq']|]; simpl in *; [|done]. subst ro' wq'.
  rewrite bool_decide_true by done. unfold entry_is. by rewrite entry_store, decide_True.
Qed.

Lemma drop_empty_entry fd ro wq q : entry_is fd ro wq q -> entry_is fd ro wq (LibcQueue.drop_empty fd q).
Proof.
  intros [Hr Hw]. unfold LibcQueue.drop_empty. destruct (LibcQueue.fds q !! fd) as [st|] eqn:Hst; [|by split].
  destruct (LibcQueue.fd_empty st) eqn:He; [|by split]. unfold entry_is. rewrite entry_erase, decide_True by done.
  unfold LibcQueue.entry in *. rewrite Hst in *. simpl in *. unfold LibcQueue.fd_empty in He.
  apply andb_prop in He as [He1%bool_decide_eq_true He2%bool_decide_eq_true]. simpl. by split; congruence.
Qed.

Lemma log_entry fd ro wq n q : entry_is fd ro wq (LibcQueue.log n q) <-> entry_is fd ro wq q.
Proof. done. Qed.

(** The entry as the next [step] polls it. *)
Lemma poll_set_entry_is fd ev ro wq q :
  LibcQueue.table_ok q -> entry_is fd ro wq q ->
  (fd, ev) ∈ LibcQueue.poll_set q <->
    (is_Some ro \/ wq <> []) /\ ev = LibcQueue.events (LibcQueue.MkFd ro 0 wq).
Proof.
  intros Ht [Hro Hwq]. rewrite (LibcQueue.poll_set_entry fd ev q Ht). unfold LibcQueue.entry in *.
  destruct (LibcQueue.fds q !! fd) as [[ro' g wq']|] eqn:Hst; simpl in Hro, Hwq; subst.
  - pose proof (Ht fd _ Hst) as He. unfold LibcQueue.fd_empty in He. simpl in He. split.
    + intros (st & [= <-] & ->). split; [|done]. destruct ro; [left; by eexists|right]. by destruct wq.
    + intros [_ ->]. eexists. done.
  - split; [by intros (st & ? & _)|]. by intros [[[? ?]|?] _].
Qed.

(** Another descriptor keeps its entry. *)
Lemma store_elsewhere fd fd' st q :
  fd' <> fd -> LibcQueue.fds (LibcQueue.store fd st q) !! fd' = LibcQueue.fds q !! fd'.
Proof. intros. rewrite LibcQueue.lookup_store. by rewrite decide_False. Qed.

Lemma clear_read_elsewhere fd fd' op q :
  fd' <> fd -> LibcQueue.fds (LibcQueue.clear_read_op fd op q) !! fd' = LibcQueue.fds q !! fd'.
Proof.
  intros Hne. unfold LibcQueue.clear_read_op. repeat case_match; try done;
    [simpl; by rewrite lookup_delete_ne|by apply store_elsewhere].
Qed.

Lemma pop_write_elsewhere fd fd' op q :
  fd' <> fd -> LibcQueue.fds (LibcQueue.pop_write fd op q) !! fd' = LibcQueue.fds q !! fd'.
Proof. intros Hne. unfold LibcQueue.pop_write. repeat case_match; try done; by apply store_elsewhere. Qed.

Lemma finish_read_elsewhere fd fd' gen q :
  fd' <> fd -> LibcQueue.fds (LibcQueue.finish_read fd gen q) !! fd' = LibcQueue.fds q !! fd'.
Proof. intros Hne. unfold LibcQueue.finish_read. repeat case_match; try done; by apply store_elsewhere. Qed.

Lemma drop_empty_elsewhere fd fd' q :
  fd' <> fd -> LibcQueue.fds (LibcQueue.drop_empty fd q) !! fd' = LibcQueue.fds q !! fd'.
Proof. intros Hne. unfold LibcQueue.drop_empty. repeat case_match; try done. simpl. by rewrite lookup_delete_ne. Qed.

Lemma run_calls_app cs cs' q :
  LibcQueue.run_calls (cs ++ cs') q = LibcQueue.run_calls cs' (LibcQueue.run_calls cs q).
Proof. revert q. induction cs as [|c cs IH]; intros q; simpl; [done|apply IH]. Qed.

Lemma run_calls_elsewhere fd fd' cs q :
  Forall (touches fd) cs -> fd' <> fd ->
  LibcQueue.fds (LibcQueue.run_calls cs q) !! fd' = LibcQueue.fds q !! fd'.
Proof.
  intros Hcs Hne. revert q. induction Hcs as [|c cs Hc _ IH]; intros q; simpl; [done|]. rewrite IH.
  destruct c; simpl in Hc; try done; subst;
    [by apply store_elsewhere|by apply clear_read_elsewhere|by apply store_elsewhere].
Qed.

(** ** Reactions about one descriptor *)

Section local.
Context (fd : Z).

(** The operations resumed for [fd] called about [fd] only. *)
Definition local_reaction (r : LibcQueue.reaction) : Prop := Forall (touches fd) r.2.

(** It leaves the other descriptors alone. *)
Lemma dispatch_writes_elsewhere fd' wr q :
  Forall local_reaction wr -> fd' <> fd ->
  LibcQueue.fds (LibcQueue.dispatch_writes fd wr q) !! fd' = LibcQueue.fds q !! fd'.
Proof.
  intros Hwr Hne. revert q. induction Hwr as [|r wr Hr _ IH]; intros q; cbn [LibcQueue.dispatch_writes].
  { by repeat case_match. }
  repeat case_match; try done; rewrite ?IH, ?(pop_write_elsewhere fd) by done;
    by rewrite (run_calls_elsewhere fd).
Qed.

Lemma dispatch_elsewhere fd' revents rr wr q :
  local_reaction rr -> Forall local_reaction wr -> fd' <> fd ->
  LibcQueue.fds (LibcQueue.dispatch_fd fd revents rr wr q) !! fd' = LibcQueue.fds q !! fd'.
Proof.
  intros Hrr Hwr Hne. unfold LibcQueue.dispatch_fd. case_bool_decide; [done|].
  rewrite drop_empty_elsewhere by done.
  assert (Hread : LibcQueue.fds (LibcQueue.dispatch_read fd rr q) !! fd' = LibcQueue.fds q !! fd').
  { unfold LibcQueue.dispatch_read. repeat case_match; try done; rewrite ?finish_read_elsewhere by done;
      by rewrite (run_calls_elsewhere fd). }
  destruct (LibcQueue.has_event LibcQueue.POLLIN _), (LibcQueue.has_event LibcQueue.POLLOUT _);
    rewrite ?dispatch_writes_elsewhere by done; done.
Qed.
End local.
