(* ===== verification/LibcTable.v ===== *)
(** * What waits on the poll-driven queue

    The reference for the table of [LibcQueue]: who waits, in terms of registrations, each
    with an identity of its own ([Waiting]). It has no entries, no generations, no addresses
    to compare: an operation that finished is the registration it was, wherever a new one is
    allocated. The theorem is that the table of the code is this one, after any use of it. *)

From S2P Require Import Prelude Queue LibcEntry LibcQueue.

Open Scope nat_scope.

Module Waiting.
(** The operation that waits to read on each descriptor and those that wait to write, in
    order, with the number of each registration; [made] numbers the next. *)
Record t := Mk {
  reader : gmap Z (nat * nat);
  senders : gmap Z (list (nat * nat));
  made : nat;
  notes : list note;
}.

Definition init : t := Mk ∅ ∅ 0 [].

Definition sends (fd : Z) (w : t) : list (nat * nat) := default [] (senders w !! fd).

Definition log (n : note) (w : t) : t := Mk (reader w) (senders w) (made w) (notes w ++ [n]).

Definition set_read (fd : Z) (op : nat) (w : t) : t :=
  Mk (<[fd := (op, made w)]> (reader w)) (senders w) (S (made w)) (notes w).

Definition clear_read (fd : Z) (op : nat) (w : t) : t :=
  if bool_decide (fst <$> reader w !! fd = Some op)
  then Mk (delete fd (reader w)) (senders w) (made w) (notes w) else w.

Definition push_write (fd : Z) (op : nat) (w : t) : t :=
  Mk (reader w) (<[fd := sends fd w ++ [(op, made w)]]> (senders w)) (S (made w)) (notes w).

(** Who waits on [fd], in the order in which [cancel_fd] finishes them. *)
Definition who (fd : Z) (w : t) : list nat := option_list (fst <$> reader w !! fd) ++ (sends fd w).*1.

Definition forget (fd : Z) (w : t) : t :=
  Mk (delete fd (reader w)) (delete fd (senders w)) (made w) (notes w).

Fixpoint run_call (c : call) (w : t) : t :=
  let fix run_calls (cs : list call) (w : t) : t :=
    match cs with
    | [] => w
    | c :: cs => run_calls cs (run_call c w)
    end in
  match c with
  | SetRead fd op => set_read fd op w
  | ClearRead fd op => clear_read fd op w
  | PushWrite fd op => push_write fd op w
  | CancelFd fd rs =>
      (fix cancel_ops (rs : list (list call)) (os : list nat) (w : t) : t :=
         match rs, os with
         | _, [] => w
         | [], _ :: _ => foldl (fun w o => log (Cancelled o) w) w os
         | r :: rs, o :: os => cancel_ops rs os (run_calls r (log (Cancelled o) w))
         end) rs (who fd w) (forget fd w)
  end.

Fixpoint run_calls (cs : list call) (w : t) : t :=
  match cs with
  | [] => w
  | c :: cs => run_calls cs (run_call c w)
  end.

Fixpoint cancel_ops (rs : list (list call)) (os : list nat) (w : t) : t :=
  match os with
  | [] => w
  | o :: os => cancel_ops (tail rs) os (run_calls (hd [] rs) (log (Cancelled o) w))
  end.

(** The registration numbered [n] finished. *)
Definition finish_read (fd : Z) (n : nat) (w : t) : t :=
  if bool_decide (snd <$> reader w !! fd = Some n)
  then Mk (delete fd (reader w)) (senders w) (made w) (notes w) else w.

Definition finish_send (fd : Z) (n : nat) (w : t) : t :=
  Mk (reader w) (<[fd := filter (fun p => p.2 <> n) (sends fd w)]> (senders w)) (made w) (notes w).

Definition dispatch_read (fd : Z) (r : reaction) (w : t) : t :=
  match reader w !! fd with
  | Some (op, n) =>
      let w := run_calls r.2 (log (Ready op r.1) w) in
      if r.1 then finish_read fd n w else w
  | None => w
  end.

Fixpoint dispatch_writes (fd : Z) (rs : list reaction) (w : t) : t :=
  match sends fd w, rs with
  | (op, n) :: _, r :: rs =>
      let w := run_calls r.2 (log (Ready op r.1) w) in
      if r.1 then dispatch_writes fd rs (finish_send fd n w) else w
  | (op, _) :: _, [] => log (Ready op false) w
  | [], _ => w
  end.

Definition dispatch_fd (fd revents : Z) (rr : reaction) (wr : list reaction) (w : t) : t :=
  if bool_decide (revents = 0%Z) then w
  else
    let w := if has_event POLLIN revents then dispatch_read fd rr w else w in
    if has_event POLLOUT revents then dispatch_writes fd wr w else w.

Definition step (p : poll_result) (w : t) : t :=
  match p with
  | PollReady pfds => foldl (fun w x => let '(fd, rev, rr, wr) := x in dispatch_fd fd rev rr wr w) w pfds
  | _ => w
  end.

(** What [poll] has to be asked for. *)
Definition wants (fd : Z) (w : t) : Z :=
  Z.lor (if bool_decide (reader w !! fd = None) then 0 else POLLIN)
    (if bool_decide (sends fd w = []) then 0 else POLLOUT).

Lemma expect_cancel fd rs w : run_call (CancelFd fd rs) w = cancel_ops rs (who fd w) (forget fd w).
Proof.
  simpl. generalize (who fd w) (forget fd w). induction rs as [|r rs IH]; intros os w'; simpl.
  - assert (Hrest : forall w, foldl (fun w o => log (Cancelled o) w) w os = cancel_ops [] os w).
    { induction os as [|o os IH]; intros w0; simpl; [done|apply IH]. }
    rewrite <- Hrest. by destruct os.
  - destruct os as [|o os]; [done|]. by rewrite IH.
Qed.

(** *** Registrations are numbered upwards *)

Lemma run_calls_made cs w : made w <= made (run_calls cs w).
Proof.
  revert cs w. apply (call_ind2 (fun c => forall w, made w <= made (run_call c w))
    (fun cs => forall w, made w <= made (run_calls cs w))
    (fun rs => forall os w, made w <= made (cancel_ops rs os w))); try (intros; simpl; lia).
  - intros fd op w. simpl. unfold clear_read. by case_bool_decide.
  - intros fd rs IH w. rewrite expect_cancel. etrans; [|apply IH]. done.
  - intros c cs IHc IHcs w. simpl. etrans; [apply IHc|apply IHcs].
  - intros os. induction os as [|o os IH]; intros w; simpl; [done|].
    etrans; [|apply IH]. done.
  - intros r rs IHr IHrs [|o os] w; simpl; [done|].
    etrans; [|apply IHrs]. etrans; [|apply IHr]. done.
Qed.

Lemma dispatch_read_made fd r w : made w <= made (dispatch_read fd r w).
Proof.
  unfold dispatch_read, finish_read. destruct (reader w !! fd) as [[op n]|]; [|done].
  pose proof (run_calls_made r.2 (log (Ready op r.1) w)). simpl in *.
  destruct r.1; [|done]. by case_bool_decide.
Qed.

Lemma dispatch_writes_made fd rs w : made w <= made (dispatch_writes fd rs w).
Proof.
  revert w. induction rs as [|r rs IH]; intros w; cbn [dispatch_writes]; destruct (sends fd w) as [|[op n] l]; try done.
  pose proof (run_calls_made r.2 (log (Ready op r.1) w)) as Hr. simpl in Hr.
  destruct r.1; [|done]. etrans; [exact Hr|]. etrans; [|apply IH]. done.
Qed.

Lemma dispatch_fd_made fd rev rr wr w : made w <= made (dispatch_fd fd rev rr wr w).
Proof.
  unfold dispatch_fd. case_bool_decide; [done|].
  etrans; [|case_match; [apply dispatch_writes_made|reflexivity]].
  case_match; [apply dispatch_read_made|done].
Qed.

Lemma step_made p w : made w <= made (step p w).
Proof.
  destruct p as [e| |pfds]; try done. simpl. revert w. induction pfds as [|[[[fd rev] rr] wr] pfds IH]; intros w; [done|].
  simpl. etrans; [apply dispatch_fd_made|apply IH].
Qed.
End Waiting.

(** ** The table of the code is the reference *)

Record sim (q : t) (w : Waiting.t) : Prop := {
  sim_read fd : read_op (entry fd q) = fst <$> Waiting.reader w !! fd;
  sim_write fd : write_queue (entry fd q) = (Waiting.sends fd w).*1;
  sim_notes : notes q = Waiting.notes w;
  sim_gen fd st : fds q !! fd = Some st -> (0 <= read_op_gen st < 2 ^ 64)%Z;
  sim_reader fd op n : Waiting.reader w !! fd = Some (op, n) -> n < Waiting.made w;
  sim_sends fd : Forall (fun p => p.2 < Waiting.made w) (Waiting.sends fd w);
  sim_nodup fd : NoDup (Waiting.sends fd w).*2;
}.

Lemma sends_insert fd fd' l r m n (s : gmap Z (list (nat * nat))) :
  Waiting.sends fd (Waiting.Mk r (<[fd' := l]> s) m n) =
    if decide (fd' = fd) then l else default [] (s !! fd).
Proof.
  unfold Waiting.sends. simpl. case_decide; [subst; by rewrite lookup_insert_eq|by rewrite lookup_insert_ne].
Qed.

Lemma sends_delete fd fd' r m n (s : gmap Z (list (nat * nat))) :
  Waiting.sends fd (Waiting.Mk r (delete fd' s) m n) = if decide (fd' = fd) then [] else default [] (s !! fd).
Proof.
  unfold Waiting.sends. simpl. case_decide; [subst; by rewrite lookup_delete_eq|by rewrite lookup_delete_ne].
Qed.

(** Two tables that agree entry by entry, with generations in range. *)
Lemma sim_same q q' w :
  sim q w -> (forall fd, read_op (entry fd q') = read_op (entry fd q) /\ write_queue (entry fd q') = write_queue (entry fd q)) ->
  notes q' = notes q -> (forall fd st, fds q' !! fd = Some st -> (0 <= read_op_gen st < 2 ^ 64)%Z) -> sim q' w.
Proof.
  intros [Hr Hw Hn _ H1 H2 H3] He Hn' Hg. split; auto; try congruence; intros fd; destruct (He fd) as [E1 E2]; congruence.
Qed.

Lemma gen_store fd st q :
  (forall fd st, fds q !! fd = Some st -> (0 <= read_op_gen st < 2 ^ 64)%Z) -> (0 <= read_op_gen st < 2 ^ 64)%Z ->
  forall fd' st', fds (store fd st q) !! fd' = Some st' -> (0 <= read_op_gen st' < 2 ^ 64)%Z.
Proof. intros Hq Hst fd' st'. rewrite lookup_store. case_decide; [by intros [= <-]|apply Hq]. Qed.

Lemma gen_erase fd q :
  (forall fd st, fds q !! fd = Some st -> (0 <= read_op_gen st < 2 ^ 64)%Z) ->
  forall fd' st', fds (erase fd q) !! fd' = Some st' -> (0 <= read_op_gen st' < 2 ^ 64)%Z.
Proof. intros Hq fd' st'. simpl. intros [_ Hst]%lookup_delete_Some. by eapply Hq. Qed.

Lemma gen_entry fd q :
  (forall fd st, fds q !! fd = Some st -> (0 <= read_op_gen st < 2 ^ 64)%Z) -> (0 <= read_op_gen (entry fd q) < 2 ^ 64)%Z.
Proof. intros Hq. unfold entry. destruct (fds q !! fd) as [st|] eqn:Hst; [by eapply Hq|done]. Qed.

Lemma sim_init : sim init Waiting.init.
Proof. split; try done; intros; constructor. Qed.

Lemma sim_log n q w : sim q w -> sim (log n q) (Waiting.log n w).
Proof. intros [Hr Hw Hn Hg H1 H2 H3]. split; auto. simpl. by rewrite Hn. Qed.

Lemma sim_set fd op q w : sim q w -> sim (set_read_op fd op q) (Waiting.set_read fd op w).
Proof.
  intros [Hr Hw Hn Hg H1 H2 H3]. unfold set_read_op. split; simpl.
  - intros fd'. rewrite entry_store. case_decide as Hfd; [subst; by rewrite lookup_insert_eq|].
    by rewrite lookup_insert_ne.
  - intros fd'. rewrite entry_store. case_decide; [subst|]; apply Hw.
  - done.
  - apply gen_store; [done|]. apply u64_range.
  - intros fd' op' n. destruct (decide (fd' = fd)) as [->|]; [rewrite lookup_insert_eq; intros [= <- <-]; lia|].
    rewrite lookup_insert_ne by done. intros Hin%H1. lia.
  - intros fd'. eapply list.Forall_impl; [apply (H2 fd')|]. simpl. lia.
  - apply H3.
Qed.

Lemma sim_push fd op q w : sim q w -> sim (push_write_op fd op q) (Waiting.push_write fd op w).
Proof.
  intros [Hr Hw Hn Hg H1 H2 H3]. unfold push_write_op, Waiting.push_write. split.
  - intros fd'. rewrite entry_store. case_decide; [subst|]; apply Hr.
  - intros fd'. rewrite entry_store, sends_insert. case_decide; [subst|apply Hw].
    rewrite fmap_app. simpl. by rewrite Hw.
  - done.
  - apply gen_store; [done|]. simpl. by apply gen_entry.
  - intros fd' op' n Hin%H1. simpl. lia.
  - intros fd'. rewrite sends_insert. simpl. case_decide.
    + apply Forall_app. split; [|by repeat constructor]. eapply list.Forall_impl; [apply (H2 fd)|]. simpl. lia.
    + eapply list.Forall_impl; [apply (H2 fd')|]. simpl. lia.
  - intros fd'. rewrite sends_insert. case_decide; [|apply (H3 fd')]. rewrite fmap_app. simpl.
    apply list.NoDup_app. split_and!; [apply H3| |apply NoDup_singleton].
    intros n (p & -> & Hp)%list_elem_of_fmap Hmade%list_elem_of_singleton.
    pose proof (proj1 (list.Forall_forall _ _) (H2 fd) p Hp). simpl in *. lia.
Qed.

Lemma sim_forget fd q w : sim q w -> sim (erase fd q) (Waiting.forget fd w).
Proof.
  intros [Hr Hw Hn Hg H1 H2 H3]. unfold Waiting.forget. split; simpl.
  - intros fd'. rewrite entry_erase. case_decide; [subst; by rewrite lookup_delete_eq|by rewrite lookup_delete_ne].
  - intros fd'. rewrite entry_erase, sends_delete. case_decide; [done|apply Hw].
  - done.
  - by apply gen_erase.
  - intros fd' op n [_ Hin]%lookup_delete_Some. by eapply H1.
  - intros fd'. rewrite sends_delete. case_decide; [constructor|apply H2].
  - intros fd'. rewrite sends_delete. case_decide; [constructor|apply H3].
Qed.

(** The reader of [fd] goes. *)
Lemma sim_unread fd q q' w :
  sim q w -> (forall fd', read_op (entry fd' q') = (if decide (fd = fd') then None else read_op (entry fd' q)) /\
    write_queue (entry fd' q') = write_queue (entry fd' q)) ->
  notes q' = notes q -> (forall fd st, fds q' !! fd = Some st -> (0 <= read_op_gen st < 2 ^ 64)%Z) ->
  sim q' (Waiting.Mk (delete fd (Waiting.reader w)) (Waiting.senders w) (Waiting.made w) (Waiting.notes w)).
Proof.
  intros [Hr Hw Hn _ H1 H2 H3] He Hn' Hg. split; simpl; auto; try congruence.
  - intros fd'. rewrite (proj1 (He fd')). case_decide; [subst; by rewrite lookup_delete_eq|].
    by rewrite lookup_delete_ne.
  - intros fd'. rewrite (proj2 (He fd')). apply Hw.
  - intros fd' op n [_ Hin]%lookup_delete_Some. by eapply H1.
Qed.

Lemma sim_clear fd op q w : sim q w -> sim (clear_read_op fd op q) (Waiting.clear_read fd op w).
Proof.
  intros Hs. pose proof (sim_read _ _ Hs fd) as Hr. pose proof (sim_gen _ _ Hs) as Hg.
  unfold clear_read_op, Waiting.clear_read. rewrite <- Hr. unfold entry.
  destruct (fds q !! fd) as [st|] eqn:Hst; simpl; [|done]. case_bool_decide as Hop; [|done].
  apply (sim_unread fd q); [done| |by case_match|].
  - intros fd'. destruct (fd_empty _) eqn:He; [rewrite entry_erase|rewrite entry_store]; (case_decide; [subst fd'|done]).
    + unfold fd_empty in He. apply andb_true_iff in He as [_ He%bool_decide_eq_true]. simpl in *.
      unfold entry. by rewrite Hst.
    + unfold entry. by rewrite Hst.
  - case_match; [by apply gen_erase|apply gen_store; [done|]; simpl; by eapply Hg].
Qed.

(** *** Resumed coroutines *)

Lemma cancel_fd_entry fd rs q : cancel_fd fd rs q = cancel_ops rs (ops (entry fd q)) (erase fd q).
Proof.
  unfold cancel_fd, entry. destruct (fds q !! fd) as [st|] eqn:Hst; [done|]. simpl.
  unfold erase. rewrite delete_id by done. by destruct q, rs.
Qed.

Lemma sim_ops fd q w : sim q w -> ops (entry fd q) = Waiting.who fd w.
Proof. intros Hs. unfold ops, Waiting.who. by rewrite (sim_read _ _ Hs), (sim_write _ _ Hs). Qed.

(** Both machines run the same calls; what each change of the pair respects, they do. *)
Section lockstep.
Context (P : call -> Prop) (I : relation (t * Waiting.t)) `{!PreOrder I}.
Hypothesis I_set : forall fd op q w, sim q w -> P (SetRead fd op) ->
  I (q, w) (set_read_op fd op q, Waiting.set_read fd op w).
Hypothesis I_clear : forall fd op q w, sim q w -> P (ClearRead fd op) ->
  I (q, w) (clear_read_op fd op q, Waiting.clear_read fd op w).
Hypothesis I_push : forall fd op q w, sim q w -> P (PushWrite fd op) ->
  I (q, w) (push_write_op fd op q, Waiting.push_write fd op w).
Hypothesis I_forget : forall fd rs q w, sim q w -> P (CancelFd fd rs) ->
  I (q, w) (erase fd q, Waiting.forget fd w).
Hypothesis I_log : forall o q w, I (q, w) (log (Cancelled o) q, Waiting.log (Cancelled o) w).

Definition both (q q' : t) (w w' : Waiting.t) : Prop := sim q w -> sim q' w' /\ I (q, w) (q', w').

Lemma both_trans q1 q2 q3 w1 w2 w3 : both q1 q2 w1 w2 -> both q2 q3 w2 w3 -> both q1 q3 w1 w3.
Proof using PreOrder0.
  intros H12 H23 H1. destruct (H12 H1) as [H2 I12]. destruct (H23 H2) as [H3 I23]. split; [done|]. by etrans.
Qed.

Lemma both_log o q w : both q (log (Cancelled o) q) w (Waiting.log (Cancelled o) w).
Proof using I_log. intros Hs. split; [by apply sim_log|apply I_log]. Qed.

Lemma run_calls_both cs q w : every_call P cs -> both q (run_calls cs q) w (Waiting.run_calls cs w).
Proof using All.
  assert (Hrefl : forall q w, both q q w w) by (intros q' w' Hs; split; [done|reflexivity]).
  revert cs q w. apply (call_ind2
    (fun c => forall q w, every P c -> both q (run_call c q) w (Waiting.run_call c w))
    (fun cs => forall q w, every_call P cs -> both q (run_calls cs q) w (Waiting.run_calls cs w))
    (fun rs => forall os q w, foldr (fun r acc => every_call P r /\ acc) True rs ->
       both q (cancel_ops rs os q) w (Waiting.cancel_ops rs os w))).
  - intros fd op q w [HP _] Hs. split; [by apply sim_set|by apply I_set].
  - intros fd op q w [HP _] Hs. split; [by apply sim_clear|by apply I_clear].
  - intros fd op q w [HP _] Hs. split; [by apply sim_push|by apply I_push].
  - intros fd rs IH q w [HP Hrs] Hs. rewrite run_call_cancel, cancel_fd_entry, Waiting.expect_cancel.
    rewrite (sim_ops fd q w Hs). revert Hs. eapply both_trans; [|by apply IH].
    intros Hs. split; [by apply sim_forget|by eapply I_forget].
  - intros q w _. apply Hrefl.
  - intros c cs IHc IHcs q w [Hc Hcs]. simpl. eapply both_trans; [by apply IHc|by apply IHcs].
  - intros os. induction os as [|o os IH]; intros q w Hrs; simpl; [apply Hrefl|].
    eapply both_trans; [apply both_log|by apply IH].
  - intros r rs IHr IHrs [|o os] q w [Hr Hrs]; simpl; [apply Hrefl|].
    eapply both_trans; [apply both_log|]. eapply both_trans; [by apply IHr|by apply IHrs].
Qed.
End lockstep.

Lemma run_calls_sim cs q w : sim q w -> sim (run_calls cs q) (Waiting.run_calls cs w).
Proof.
  intros Hs. assert (Hpre : PreOrder (fun _ _ : t * Waiting.t => True)) by by split.
  apply (run_calls_both (fun _ => True) (fun _ _ => True)); auto using every_True.
Qed.

(** *** What a resumed coroutine may do to the descriptor it was resumed for *)

(** It makes nothing wait to read on [fd]; it makes nothing wait to write there; it does
    not cancel [fd]. *)
Definition no_read (fd : Z) (c : call) : Prop := match c with SetRead fd' _ => fd' <> fd | _ => True end.
Definition no_push (fd : Z) (c : call) : Prop := match c with PushWrite fd' _ => fd' <> fd | _ => True end.
Definition no_cancel (fd : Z) (c : call) : Prop := match c with CancelFd fd' _ => fd' <> fd | _ => True end.

(** The coroutine of a read operation that finished does not both take what waits to read
    on its descriptor off the table and register there again; that of a send does not both
    cancel its descriptor and send on it again. *)
Definition read_polite (fd : Z) (r : reaction) : Prop :=
  r.1 = true -> every_call (spares fd) r.2 \/ every_call (no_read fd) r.2.
Definition send_polite (fd : Z) (r : reaction) : Prop :=
  r.1 = true -> every_call (no_cancel fd) r.2 \/ every_call (no_push fd) r.2.

(** Registered again [n] times: the generation says so, and so does the number. *)
Definition rereads (fd : Z) (x y : t * Waiting.t) : Prop :=
  exists n, Waiting.made x.2 + n <= Waiting.made y.2 /\
    (forall st, fds x.1 !! fd = Some st ->
       exists st', fds y.1 !! fd = Some st' /\ read_op_gen st' = gen_after (read_op_gen st) n) /\
    (n = 0 -> Waiting.reader y.2 !! fd = Waiting.reader x.2 !! fd) /\
    (0 < n -> exists op m, Waiting.reader y.2 !! fd = Some (op, m) /\ Waiting.made x.2 <= m).

#[export] Instance rereads_preorder fd : PreOrder (rereads fd).
Proof.
  split.
  - intros [q w]. exists 0. split; [lia|]. split; [by intros st Hst; exists st|]. split; [done|lia].
  - intros [q1 w1] [q2 w2] [q3 w3] (n1 & Hm1 & Hg1 & Hz1 & Hp1) (n2 & Hm2 & Hg2 & Hz2 & Hp2). simpl in *.
    exists (n1 + n2). simpl. split; [lia|]. split; [|split].
    + intros st Hst. destruct (Hg1 st Hst) as (st2 & Hst2 & E2). destruct (Hg2 st2 Hst2) as (st3 & Hst3 & E3).
      exists st3. by rewrite E3, E2, gen_after_add.
    + intros Hn. rewrite Hz2, Hz1 by lia. done.
    + intros Hn. destruct n2 as [|n2].
      * rewrite Hz2 by done. apply Hp1. lia.
      * destruct (Hp2 ltac:(lia)) as (op & m & Hr & Hle). exists op, m. split; [done|lia].
Qed.

(** A change that leaves the reader of [fd] and its generation alone. *)
Lemma rereads_none fd q q' w w' :
  Waiting.made w <= Waiting.made w' -> Waiting.reader w' !! fd = Waiting.reader w !! fd ->
  (forall st, fds q !! fd = Some st -> exists st', fds q' !! fd = Some st' /\ read_op_gen st' = read_op_gen st) ->
  rereads fd (q, w) (q', w').
Proof. intros Hm Hr Hg. exists 0. simpl. split; [lia|]. split; [done|]. split; [done|lia]. Qed.

Lemma wclear_elsewhere fd fd' op w :
  fd' <> fd -> Waiting.reader (Waiting.clear_read fd' op w) !! fd = Waiting.reader w !! fd.
Proof. intros Hne. unfold Waiting.clear_read. case_bool_decide; [|done]. simpl. by rewrite lookup_delete_ne. Qed.

Lemma wclear_made fd op w : Waiting.made (Waiting.clear_read fd op w) = Waiting.made w.
Proof. unfold Waiting.clear_read. by case_bool_decide. Qed.

(** The entry after a send was queued. *)
Lemma push_entry fd fd' op st q :
  fds q !! fd = Some st -> exists st', fds (push_write_op fd' op q) !! fd = Some st' /\
    read_op_gen st' = read_op_gen st.
Proof.
  intros Hst. unfold push_write_op. rewrite lookup_store. case_decide; [|by exists st].
  subst. eexists. split; [done|]. simpl. unfold entry. by rewrite Hst.
Qed.

Lemma spares_rereads fd cs q w :
  sim q w -> every_call (spares fd) cs ->
  rereads fd (q, w) (run_calls cs q, Waiting.run_calls cs w).
Proof.
  intros Hs Hcs. eapply (run_calls_both (spares fd) (rereads fd)); [..|exact Hcs|exact Hs]; clear.
  - intros fd' op q w _ _. destruct (decide (fd' = fd)) as [->|Hne].
    + exists 1. simpl. split; [lia|]. split; [|split; [done|]].
      * intros st Hst. eexists. split; [by rewrite lookup_insert_eq|]. unfold entry. by rewrite Hst.
      * intros _. exists op, (Waiting.made w). by rewrite lookup_insert_eq.
    + apply rereads_none; simpl; [lia|by rewrite lookup_insert_ne|]. intros st Hst. exists st.
      by rewrite lookup_insert_ne.
  - intros fd' op q w _ Hne. simpl in Hne. apply rereads_none; [by rewrite wclear_made|by apply wclear_elsewhere|].
    intros st Hst. exists st. by rewrite clear_read_elsewhere.
  - intros fd' op q w _ _. apply rereads_none; [simpl; lia|done|]. intros st. apply push_entry.
  - intros fd' rs q w _ Hne. simpl in Hne. apply rereads_none; [done|simpl; by rewrite lookup_delete_ne|].
    intros st Hst. exists st. simpl. by rewrite lookup_delete_ne.
  - intros o q w. apply rereads_none; [done..|]. intros st Hst. by exists st.
Qed.

(** Nothing registered to read on [fd]: what waited still does, or nothing does. *)
Definition unread (fd : Z) (x y : t * Waiting.t) : Prop :=
  Waiting.reader y.2 !! fd = None \/
  Waiting.reader y.2 !! fd = Waiting.reader x.2 !! fd /\
  forall st, fds x.1 !! fd = Some st -> is_Some (read_op st) ->
    exists st', fds y.1 !! fd = Some st' /\ read_op_gen st' = read_op_gen st /\ is_Some (read_op st').

#[export] Instance unread_preorder fd : PreOrder (unread fd).
Proof.
  split.
  - intros [q w]. right. split; [done|]. intros st Hst Ho. by exists st.
  - intros [q1 w1] [q2 w2] [q3 w3] H12 [H23|[H23 Hg2]]; [by left|]. simpl in *.
    destruct H12 as [H12|[H12 Hg1]]; [left; simpl in *; congruence|right]. simpl in *. split; [congruence|].
    intros st Hst Ho. destruct (Hg1 st Hst Ho) as (st2 & Hst2 & E2 & Ho2).
    destruct (Hg2 st2 Hst2 Ho2) as (st3 & Hst3 & E3 & Ho3). exists st3. split_and!; congruence || done.
Qed.

Lemma unread_none fd q q' w w' :
  Waiting.reader w' !! fd = Waiting.reader w !! fd ->
  (forall st, fds q !! fd = Some st -> exists st', fds q' !! fd = Some st' /\
     read_op_gen st' = read_op_gen st /\ read_op st' = read_op st) ->
  unread fd (q, w) (q', w').
Proof.
  intros Hr Hg. right. split; [done|]. simpl. intros st Hst Ho. destruct (Hg st Hst) as (st' & ? & ? & Ho').
  exists st'. by rewrite Ho'.
Qed.

Lemma no_read_unread fd cs q w :
  sim q w -> every_call (no_read fd) cs ->
  unread fd (q, w) (run_calls cs q, Waiting.run_calls cs w).
Proof.
  intros Hs Hcs. eapply (run_calls_both (no_read fd) (unread fd)); [..|exact Hcs|exact Hs]; clear.
  - intros fd' op q w _ Hne. simpl in Hne. apply unread_none; simpl; [by rewrite lookup_insert_ne|].
    intros st Hst. exists st. by rewrite lookup_insert_ne.
  - intros fd' op q w Hs _. destruct (decide (fd' = fd)) as [->|Hne].
    2:{ apply unread_none; [by apply wclear_elsewhere|]. intros st Hst. exists st. by rewrite clear_read_elsewhere. }
    pose proof (sim_read _ _ Hs fd) as Hr. unfold Waiting.clear_read, clear_read_op. rewrite <- Hr. unfold entry.
    destruct (bool_decide _) eqn:Ho; [left; simpl; apply lookup_delete_eq|]. apply unread_none; [done|].
    intros st Hst. rewrite Hst in *. simpl in *. rewrite Ho. by exists st.
  - intros fd' op q w _ _. apply unread_none; [done|]. intros st Hst. unfold push_write_op. rewrite lookup_store.
    case_decide; [|by exists st]. subst. eexists. split; [done|]. simpl. unfold entry. by rewrite Hst.
  - intros fd' rs q w _ _. simpl. destruct (decide (fd' = fd)) as [->|Hne]; [left; simpl; apply lookup_delete_eq|].
    apply unread_none; simpl; [by rewrite lookup_delete_ne|]. intros st Hst. exists st. by rewrite lookup_delete_ne.
  - intros o q w. apply unread_none; [done|]. intros st Hst. by exists st.
Qed.

(** The sends of [fd] stay where they are, with new ones behind them. *)
Definition resends (fd : Z) (x y : t * Waiting.t) : Prop :=
  Waiting.made x.2 <= Waiting.made y.2 /\
  exists l, Waiting.sends fd y.2 = Waiting.sends fd x.2 ++ l /\ Forall (fun p => Waiting.made x.2 <= p.2) l.

#[export] Instance resends_preorder fd : PreOrder (resends fd).
Proof.
  split.
  - intros x. split; [done|]. exists []. by rewrite app_nil_r.
  - intros x y z (Hm1 & l1 & H1 & F1) (Hm2 & l2 & H2 & F2). split; [lia|]. exists (l1 ++ l2).
    rewrite H2, H1, app_assoc. split; [done|]. apply Forall_app. split; [done|].
    eapply list.Forall_impl; [exact F2|]. simpl. lia.
Qed.

(** Or nothing is sent on it: they stay, or all go. *)
Definition unsent (fd : Z) (x y : t * Waiting.t) : Prop :=
  Waiting.sends fd y.2 = [] \/ Waiting.sends fd y.2 = Waiting.sends fd x.2.

#[export] Instance unsent_preorder fd : PreOrder (unsent fd).
Proof. split; unfold unsent; [by right|]. intros x y z [H1|H1] [H2|H2]; rewrite ?H2; auto. Qed.

Lemma sends_clear fd fd' op w : Waiting.sends fd (Waiting.clear_read fd' op w) = Waiting.sends fd w.
Proof. unfold Waiting.clear_read. by case_bool_decide. Qed.

Lemma no_cancel_resends fd cs q w :
  sim q w -> every_call (no_cancel fd) cs -> resends fd (q, w) (run_calls cs q, Waiting.run_calls cs w).
Proof.
  intros Hs Hcs. eapply (run_calls_both (no_cancel fd) (resends fd)); [..|exact Hcs|exact Hs]; clear.
  - intros fd' op q w _ _. split; simpl; [lia|]. exists []. by rewrite app_nil_r.
  - intros fd' op q w _ _. split; simpl; [by rewrite wclear_made|]. exists []. by rewrite sends_clear, app_nil_r.
  - intros fd' op q w _ _. split; simpl; [lia|]. unfold Waiting.push_write. rewrite sends_insert.
    case_decide; [subst; exists [(op, Waiting.made w)]; split; [done|by repeat constructor]|exists []].
    by rewrite app_nil_r.
  - intros fd' rs q w _ Hne. simpl in Hne. split; simpl; [lia|]. exists []. unfold Waiting.forget.
    by rewrite sends_delete, decide_False, app_nil_r.
  - intros o q w. split; simpl; [lia|]. exists []. by rewrite app_nil_r.
Qed.

Lemma no_push_unsent fd cs q w :
  sim q w -> every_call (no_push fd) cs -> unsent fd (q, w) (run_calls cs q, Waiting.run_calls cs w).
Proof.
  intros Hs Hcs. eapply (run_calls_both (no_push fd) (unsent fd)); [..|exact Hcs|exact Hs]; clear; unfold unsent; simpl.
  - by right.
  - intros fd' op q w _ _. right. apply sends_clear.
  - intros fd' op q w _ Hne. right. unfold Waiting.push_write. by rewrite sends_insert, decide_False.
  - intros fd' rs q w _ _. unfold Waiting.forget. rewrite sends_delete. case_decide; auto.
  - by right.
Qed.

(** *** One turn of [step] *)

(** The operation that finished is the one that waits: it goes from both. *)
Lemma finish_read_same fd op n st q w :
  sim q w -> fds q !! fd = Some st -> Waiting.reader w !! fd = Some (op, n) ->
  sim (finish_read fd (read_op_gen st) q) (Waiting.finish_read fd n w).
Proof.
  intros Hs Hst Hr. unfold finish_read, Waiting.finish_read. rewrite Hst, Hr.
  rewrite !bool_decide_true by done. apply (sim_unread fd q); [done| |done|].
  - intros fd'. rewrite entry_store. case_decide; [subst fd'|done]. unfold entry. by rewrite Hst.
  - apply gen_store; [apply (sim_gen _ _ Hs)|]. simpl. by eapply (sim_gen _ _ Hs).
Qed.

(** Nothing waits: nothing goes. *)
Lemma finish_read_none fd gen n q w :
  sim q w -> Waiting.reader w !! fd = None -> sim (finish_read fd gen q) (Waiting.finish_read fd n w).
Proof.
  intros Hs Hr. unfold finish_read, Waiting.finish_read. rewrite Hr. rewrite bool_decide_false by done.
  pose proof (sim_read _ _ Hs fd) as Ho. rewrite Hr in Ho. unfold entry in Ho.
  destruct (fds q !! fd) as [st|] eqn:Hst; [|done]. case_bool_decide; [|done]. simpl in Ho.
  apply (sim_same q); [done| |done|].
  - intros fd'. rewrite entry_store. case_decide; [subst fd'|done]. unfold entry. by rewrite Hst, <- Ho.
  - apply gen_store; [apply (sim_gen _ _ Hs)|]. simpl. by eapply (sim_gen _ _ Hs).
Qed.

Lemma dispatch_read_sim fd r q w :
  sim q w -> read_polite fd r -> (Z.of_nat (Waiting.made (Waiting.dispatch_read fd r w)) < 2 ^ 64)%Z ->
  sim (dispatch_read fd r q) (Waiting.dispatch_read fd r w).
Proof.
  intros Hs Hp. unfold dispatch_read, Waiting.dispatch_read. pose proof (sim_read _ _ Hs fd) as Ho. unfold entry in Ho.
  destruct (Waiting.reader w !! fd) as [[op n]|] eqn:Hr; simpl in Ho.
  2:{ intros _. destruct (fds q !! fd) as [st|]; [|done]. simpl in Ho. by rewrite Ho. }
  destruct (fds q !! fd) as [st|] eqn:Hst; [|done]. simpl in Ho. rewrite Ho.
  pose proof (sim_log (Ready op r.1) _ _ Hs) as Hs0. pose proof (run_calls_sim r.2 _ _ Hs0) as Hs1.
  destruct r as [[|] calls]; simpl in *; [|done]. intros Hmade.
  set (q1 := run_calls _ _) in *. set (w1 := Waiting.run_calls _ _) in *.
  destruct (Hp eq_refl) as [Hc|Hc]; simpl in Hc.
  - destruct (spares_rereads fd calls _ _ Hs0 Hc) as (k & Hk & Hgen & Hz & Hpos). simpl in *.
    fold q1 w1 in Hk, Hgen, Hz, Hpos. destruct (Hgen st Hst) as (st1 & Hst1 & Hg1). destruct k as [|k].
    + specialize (Hz eq_refl). rewrite Hr in Hz. simpl in Hg1. rewrite <- Hg1. by eapply finish_read_same.
    + destruct (Hpos ltac:(lia)) as (op' & m & Hr1 & Hle). pose proof (sim_reader _ _ Hs fd op n Hr) as Hlt.
      unfold finish_read. unfold Waiting.finish_read in *. rewrite Hst1. rewrite Hr1 in *. simpl in *.
      rewrite bool_decide_false in Hmade by (intros [=]; lia).
      rewrite !bool_decide_false; [done|intros [=]; lia|]. rewrite Hg1. apply (gen_after_ne _ (S k)); [|lia..].
      by eapply (sim_gen _ _ Hs).
  - destruct (no_read_unread fd calls _ _ Hs0 Hc) as [Hnone|[Hsame Hgen]]; [by apply finish_read_none|].
    simpl in *. fold q1 w1 in Hgen, Hsame.
    destruct (Hgen st Hst ltac:(by rewrite Ho)) as (st1 & Hst1 & <- & _). rewrite Hr in Hsame.
    by eapply finish_read_same.
Qed.

(** A registration at the front goes; the numbers of the others are different. *)
Lemma filter_front (op n : nat) (l : list (nat * nat)) :
  NoDup ((op, n) :: l).*2 -> filter (fun p => p.2 <> n) ((op, n) :: l) = l.
Proof.
  simpl. intros [Hn _]%list.NoDup_cons. rewrite filter_cons_False by (simpl; auto).
  assert (Hall : Forall (fun p : nat * nat => p.2 <> n) l); [|induction Hall; [done|]].
  - apply list.Forall_forall. intros p Hin Hpn. apply Hn. rewrite <- Hpn. apply list_elem_of_fmap. by exists p.
  - rewrite filter_cons_True by done. f_equal. apply IHHall. intros Hin. apply Hn. by right.
Qed.

(** The send in front goes from both. *)
Lemma finish_send_same fd op n l q w :
  sim q w -> Waiting.sends fd w = (op, n) :: l -> sim (pop_write fd op q) (Waiting.finish_send fd n w).
Proof.
  intros Hs Hl. pose proof (sim_write _ _ Hs fd) as Hw. rewrite Hl in Hw. simpl in Hw.
  pose proof (sim_nodup _ _ Hs fd) as Hnd. rewrite Hl in Hnd.
  unfold pop_write, Waiting.finish_send. rewrite Hl, filter_front by done. unfold entry in Hw.
  destruct (fds q !! fd) as [[ro g wq]|] eqn:Hst; simpl in Hw; [|done]. subst wq. rewrite bool_decide_true by done.
  destruct Hs as [Hr Hw' Hn Hg H1 H2 H3]. split; auto.
  - intros fd'. rewrite entry_store. case_decide; [subst fd'|apply Hr]. simpl. rewrite <- Hr. unfold entry. by rewrite Hst.
  - intros fd'. rewrite entry_store, sends_insert. case_decide; [done|apply Hw'].
  - apply gen_store; [done|]. by apply (Hg fd _ Hst).
  - intros fd'. rewrite sends_insert. case_decide; [|apply (H2 fd')]. specialize (H2 fd). rewrite Hl in H2. by inversion H2.
  - intros fd'. rewrite sends_insert. case_decide; [|apply (H3 fd')]. simpl in Hnd. by apply list.NoDup_cons in Hnd as [_ ?].
Qed.

(** Nothing waits to send: nothing goes. *)
Lemma finish_send_none fd op n q w :
  sim q w -> Waiting.sends fd w = [] -> sim (pop_write fd op q) (Waiting.finish_send fd n w).
Proof.
  intros Hs Hl. pose proof (sim_write _ _ Hs fd) as Hw. rewrite Hl in Hw. simpl in Hw.
  assert (pop_write fd op q = q) as ->.
  { unfold pop_write. unfold entry in Hw. destruct (fds q !! fd) as [[ro g wq]|]; [|done]. simpl in Hw. by subst wq. }
  unfold Waiting.finish_send. rewrite Hl. destruct Hs as [Hr Hw' Hn Hg H1 H2 H3]. split; auto.
  - intros fd'. rewrite sends_insert. case_decide; [by subst; rewrite Hw', Hl|apply Hw'].
  - intros fd'. rewrite sends_insert. case_decide; [constructor|apply (H2 fd')].
  - intros fd'. rewrite sends_insert. case_decide; [constructor|apply (H3 fd')].
Qed.

Lemma dispatch_writes_sim fd rs q w :
  sim q w -> Forall (send_polite fd) rs -> sim (dispatch_writes fd rs q) (Waiting.dispatch_writes fd rs w).
Proof.
  revert q w. induction rs as [|r rs IH]; intros q w Hs Hp; cbn [dispatch_writes Waiting.dispatch_writes];
    pose proof (sim_write _ _ Hs fd) as Hw; unfold entry in Hw;
    (destruct (Waiting.sends fd w) as [|[op n] l] eqn:Hl; simpl in Hw;
      [destruct (fds q !! fd) as [st|]; [|done]; simpl in Hw; by rewrite Hw|]);
    (destruct (fds q !! fd) as [st|] eqn:Hst; [|done]); simpl in Hw; rewrite Hw; [by apply sim_log|].
  apply list.Forall_cons in Hp as [Hr Hp].
  pose proof (sim_log (Ready op r.1) _ _ Hs) as Hs0. pose proof (run_calls_sim r.2 _ _ Hs0) as Hs1.
  destruct r as [[|] calls]; simpl in *; [|done]. apply IH; [|done].
  destruct (Hr eq_refl) as [Hc|Hc]; simpl in Hc.
  - destruct (no_cancel_resends fd calls _ _ Hs0 Hc) as (_ & l' & Hl' & _). simpl in Hl'.
    change (Waiting.sends fd (Waiting.log (Ready op true) w)) with (Waiting.sends fd w) in Hl'.
    rewrite Hl in Hl'. by eapply finish_send_same.
  - destruct (no_push_unsent fd calls _ _ Hs0 Hc) as [Hn|Hl']; [by apply finish_send_none|]. simpl in Hl'.
    change (Waiting.sends fd (Waiting.log (Ready op true) w)) with (Waiting.sends fd w) in Hl'.
    rewrite Hl in Hl'. by eapply finish_send_same.
Qed.

Lemma drop_empty_sim fd q w : sim q w -> sim (drop_empty fd q) w.
Proof.
  intros Hs. unfold drop_empty. destruct (fds q !! fd) as [st|] eqn:Hst; [|done]. destruct (fd_empty st) eqn:He; [|done].
  apply andb_true_iff in He as [Hr%bool_decide_eq_true Hw%bool_decide_eq_true].
  apply (sim_same q); [done| |done|by apply gen_erase, (sim_gen _ _ Hs)].
  intros fd'. rewrite entry_erase. case_decide; [subst fd'|done]. unfold entry. by rewrite Hst.
Qed.

Definition polite_fd (x : Z * Z * reaction * list reaction) : Prop :=
  let '(fd, _, rr, wr) := x in read_polite fd rr /\ Forall (send_polite fd) wr.

Lemma dispatch_fd_sim fd rev rr wr q w :
  sim q w -> polite_fd (fd, rev, rr, wr) ->
  (Z.of_nat (Waiting.made (Waiting.dispatch_fd fd rev rr wr w)) < 2 ^ 64)%Z ->
  sim (dispatch_fd fd rev rr wr q) (Waiting.dispatch_fd fd rev rr wr w).
Proof.
  intros Hs [Hr Hw]. unfold dispatch_fd, Waiting.dispatch_fd. case_bool_decide; [done|].
  intros Hmade. apply drop_empty_sim.
  assert (Hread : sim (if has_event POLLIN rev then dispatch_read fd rr q else q)
    (if has_event POLLIN rev then Waiting.dispatch_read fd rr w else w)).
  { destruct (has_event POLLIN rev); [|done]. apply dispatch_read_sim; [done..|].
    eapply Z.le_lt_trans; [|exact Hmade]. apply inj_le.
    destruct (has_event POLLOUT rev); [apply Waiting.dispatch_writes_made|done]. }
  destruct (has_event POLLOUT rev); [by apply dispatch_writes_sim|done].
Qed.

(** ** Any use of the queue *)

(** The coroutines of a thread, and its loop, call into the queue one after the other; what
    a call resumes is in the call. *)
Inductive use := Call (c : call) | Step (p : poll_result).

Definition apply (q : t) (u : use) : t :=
  match u with
  | Call c => run_call c q
  | Step p => match step p q with Ok q' => q' | Throw _ => q end
  end.

Definition exec (us : list use) (q : t) : t := foldl apply q us.

Definition expect (w : Waiting.t) (u : use) : Waiting.t :=
  match u with Call c => Waiting.run_call c w | Step p => Waiting.step p w end.

Definition expected (us : list use) (w : Waiting.t) : Waiting.t := foldl expect w us.

Definition polite (u : use) : Prop :=
  match u with Step (PollReady pfds) => Forall polite_fd pfds | _ => True end.

Lemma expect_made w u : Waiting.made w <= Waiting.made (expect w u).
Proof. destruct u as [c|p]; [exact (Waiting.run_calls_made [c] w)|apply Waiting.step_made]. Qed.

Lemma step_sim pfds q w :
  sim q w -> Forall polite_fd pfds ->
  (Z.of_nat (Waiting.made (Waiting.step (PollReady pfds) w)) < 2 ^ 64)%Z ->
  sim (apply q (Step (PollReady pfds))) (Waiting.step (PollReady pfds) w).
Proof.
  intros Hs Hp. revert q w Hs. simpl. induction Hp as [|[[[fd rev] rr] wr] pfds Hx _ IH]; intros q w Hs Hmade; simpl in *; [done|].
  apply IH; [|done]. apply dispatch_fd_sim; [done..|].
  eapply Z.le_lt_trans; [|exact Hmade]. apply inj_le, (Waiting.step_made (PollReady pfds)).
Qed.

Lemma apply_sim q w u :
  sim q w -> polite u -> (Z.of_nat (Waiting.made (expect w u)) < 2 ^ 64)%Z -> sim (apply q u) (expect w u).
Proof.
  intros Hs Hp Hmade. destruct u as [c|[e| |pfds]]; [by apply (run_calls_sim [c])| |done|by apply step_sim].
  simpl. by case_bool_decide.
Qed.

Lemma use_table_ok q u : table_ok q -> table_ok (apply q u).
Proof.
  intros Hq. destruct u as [c|p]; [by apply (run_calls_ok [c])|]. simpl.
  destruct (step p q) as [q'|] eqn:Hp; [by eapply libc_step_ok|done].
Qed.

Lemma exec_sim us q w :
  sim q w -> table_ok q -> Forall polite us -> (Z.of_nat (Waiting.made (expected us w)) < 2 ^ 64)%Z ->
  sim (exec us q) (expected us w) /\ table_ok (exec us q).
Proof.
  intros Hs Hq Hp. revert q w Hs Hq. induction Hp as [|u us Hu _ IH]; intros q w Hs Hq Hmade; simpl in *; [done|].
  apply IH; [|by apply use_table_ok|done]. apply apply_sim; [done..|]. eapply Z.le_lt_trans; [|exact Hmade].
  apply inj_le. generalize (expect w u). clear. induction us as [|u us IH]; intros w; simpl; [done|].
  etrans; [apply expect_made|apply IH].
Qed.

Lemma events_wants fd q w : sim q w -> events (entry fd q) = Waiting.wants fd w.
Proof.
  intros Hs. unfold events, Waiting.wants. rewrite (sim_read _ _ Hs), (sim_write _ _ Hs).
  destruct (Waiting.reader w !! fd) as [[op n]|], (Waiting.sends fd w) as [|[op' n'] l]; reflexivity.
Qed.

(** C29: the table is exactly what waits. After any use of the queue (registrations,
    cancellations and [step]s in any order, with whatever the coroutines they resume call
    in turn), each descriptor has the read operation registered last that has neither
    finished nor been cleared or cancelled since, and the sends registered that have
    neither finished nor been cancelled, in order; the operations called and cancelled were
    those, in that order; there is an entry for a descriptor if and only if something waits
    on it; and the next [step] polls exactly these descriptors, each once and in the
    directions something waits in. The reference [Waiting] knows each registration by a
    number of its own, so an operation allocated where one just finished is not taken for
    it. This covers every coroutine that, resumed by a read operation, does not both clear
    or cancel its descriptor and register to read on it, and, by a send, does not both
    cancel and send on it ([polite]; see [rearm_lost_after_erase]), and a queue of fewer
    than [2^64] registrations, after which [read_op_gen] comes round. *)
Theorem libc_table_exact (us : list use) :
  Forall polite us -> (Z.of_nat (Waiting.made (expected us Waiting.init)) < 2 ^ 64)%Z ->
  let q := exec us init in
  let w := expected us Waiting.init in
  (forall fd, read_op (entry fd q) = fst <$> Waiting.reader w !! fd /\
     write_queue (entry fd q) = (Waiting.sends fd w).*1) /\
  notes q = Waiting.notes w /\
  (forall fd, is_Some (fds q !! fd) <-> Waiting.who fd w <> []) /\
  NoDup (poll_set q).*1 /\
  (forall fd ev, (fd, ev) ∈ poll_set q <-> ev = Waiting.wants fd w /\ Waiting.who fd w <> []).
Proof.
  intros Hp Hmade q w. assert (Hboth : sim q w /\ table_ok q).
  { apply exec_sim; [apply sim_init|apply map_Forall_empty|done..]. }
  destruct Hboth as [Hs Hq].
  assert (Hentry : forall fd, is_Some (fds q !! fd) <-> Waiting.who fd w <> []).
  { intros fd. rewrite <- (sim_ops fd q w Hs). unfold entry. destruct (fds q !! fd) as [st|] eqn:Hst; simpl.
    - split; [|by eexists]. intros _ Ho. pose proof (Hq fd st Hst) as He. unfold fd_empty in He. simpl in He.
      unfold ops in Ho. by destruct (read_op st), (write_queue st).
    - split; [by intros []|done]. }
  split_and!; [|apply (sim_notes _ _ Hs)|done| |].
  - intros fd. split; [apply (sim_read _ _ Hs)|apply (sim_write _ _ Hs)].
  - rewrite poll_set_all by done. apply NoDup_fst_map_to_list.
  - intros fd ev. rewrite poll_set_entry, <- (Hentry fd), <- (events_wants fd q w Hs) by done. unfold entry.
    split; [intros (st & -> & ->); by split|]. intros [-> [st Hst]]. exists st. by rewrite Hst.
Qed.

(** ** Concrete uses *)

(** A listening descriptor, and a connection with a reader and two sends. *)
Definition example_uses : list use :=
  [Call (SetRead 3 1); Call (SetRead 4 10); Call (PushWrite 4 20); Call (PushWrite 4 30)].

(** The accept finishes, spawns a connection and is awaited again at the same address; the
    first send finishes, and its coroutine sends again. *)
Definition example_step : use :=
  Step (PollReady [(3%Z, POLLIN, (true, [SetRead 5 7; SetRead 3 1]), []);
                   (4%Z, POLLOUT, (false, []), [(true, [PushWrite 4 20]); (false, [])])]).

Lemma example_polite : Forall polite (example_uses ++ [example_step]).
Proof.
  repeat (constructor; [done|]). constructor; [|constructor]. simpl.
  constructor; [split|constructor; [split|constructor]]; [|constructor| |].
  - intros _. left. simpl. auto.
  - done.
  - constructor; [|by repeat constructor]. intros _. left. simpl. auto.
Qed.

Lemma libc_table_exact_witness :
  let q := exec (example_uses ++ [example_step]) init in
  (3%Z, POLLIN) ∈ poll_set q /\ (4%Z, Z.lor POLLIN POLLOUT) ∈ poll_set q /\ (5%Z, POLLIN) ∈ poll_set q /\
  write_queue (entry 4 q) = [30; 20].
Proof.
  destruct (libc_table_exact (example_uses ++ [example_step]) example_polite eq_refl) as (He & _ & _ & _ & Hp).
  assert (Hw : forall fd ev, ev = Waiting.wants fd (expected (example_uses ++ [example_step]) Waiting.init) ->
    Waiting.who fd (expected (example_uses ++ [example_step]) Waiting.init) <> [] ->
    (fd, ev) ∈ poll_set (exec (example_uses ++ [example_step]) init)) by (intros fd ev; rewrite Hp; done).
  split_and!; [by apply Hw; vm_compute..|]. rewrite (proj2 (He 4%Z)). reflexivity.
Defined.

(** A coroutine that is not polite: it cancels the descriptor whose send it just finished,
    and its next send, at the same address, is taken for that one. *)
Lemma resend_lost_after_cancel :
  write_queue (entry 4 (exec (example_uses ++
    [Step (PollReady [(4%Z, POLLOUT, (false, []), [(true, [CancelFd 4 []; PushWrite 4 20])])])]) init)) = [].
Proof. by vm_compute. Qed.
