(* ===== verification/UringQueue.v ===== *)
(** * The io_uring queue ([easyio/src/uring_queue.cpp], [uring_queue.hpp])

    How operations become submission entries, how completions resume them, one cycle of
    [step], the fixed file, [cancel_fd] and the destructor. The submission ring is
    liburing's: [SubmissionRing] is what the code calls of it. *)

From S2P Require Import Prelude Queue.

Open Scope nat_scope.

(** ** Submission entries *)

(** The file a read or write names: a descriptor, or slot 0 of the registered files. *)
Inductive file_ref := PlainFd (fd : Z) | FixedSlot0.

Inductive opcode :=
  | OpOpenat (path : string) (flags mode : Z)
  | OpClose (fd : Z)
  | OpRead (f : file_ref) (size : nat) (offset : Z)
  | OpWrite (f : file_ref) (data : bytes) (offset : Z) (rw_flags : Z)
  | OpAccept (fd : Z)
  | OpConnect (fd : Z)
  | OpSend (fd : Z) (data : bytes) (msg_flags : Z)
  | OpSendmsg (fd : Z) (iov : list bytes) (msg_flags : Z)
  | OpCancelFd (fd : Z) (flags : Z).

(** An entry and its user data: the sink its completion is addressed to, or null. *)
Record sqe := MkSqe { sq_op : opcode; sq_sink : option nat }.

Definition RWF_DSYNC : Z := 2.
Definition MSG_NOSIGNAL : Z := 16384.
Definition IORING_ASYNC_CANCEL_ALL : Z := 1.

(** [io_uring_get_sqe] with the preparation of the entry ([None]: the ring is full), and
    [io_uring_submit]. *)
Class SubmissionRing (R : Type) := {
  ring_get : sqe -> R -> option R;
  ring_submit : R -> Z * R;
}.

(** Documented: an entry goes behind those prepared before; submitting hands a first part
    of them to the kernel, in order, or fails and hands over nothing. *)
Class SubmissionRingLaws (R : Type) `{SubmissionRing R} := {
  ring_prepared : R -> list sqe;
  ring_submitted : R -> list sqe;
  ring_get_law e r r' : ring_get e r = Some r' ->
    ring_prepared r' = ring_prepared r ++ [e] /\ ring_submitted r' = ring_submitted r;
  ring_submit_law r : let '(ret, r') := ring_submit r in
    ring_submitted r' ++ ring_prepared r' = ring_submitted r ++ ring_prepared r /\
    (ret < 0 -> r' = r)%Z;
}.

(** A completion in the ring: its user data and result. *)
Record completion := MkCompletion { cp_sink : option nat; cp_res : Z }.

Section queue.
Context {R File : Type} `{SubmissionRing R}.

(** [Queue]: the ring, and the descriptor registered as fixed file (-1: none). For the
    specification: the file in the registered slot, and the sinks resumed, with what. *)
Record t := Mk {
  ring : R;
  cq : list completion;
  registered_fd : Z;
  slot0 : option File;
  resumed : list (nat * Z);
}.

Definition set_ring (r : R) (q : t) : t := Mk r (cq q) (registered_fd q) (slot0 q) (resumed q).

(** [Queue::Queue]: [ret] is what [io_uring_queue_init] returns, [r] the ring it set up. *)
Definition make (ret : Z) (r : R) : outcome t :=
  if bool_decide (ret < 0)%Z then Throw (system_error (- ret)) else Ok (Mk r [] (-1) None []).

(** [_get_sqe], and the preparation of the entry. *)
Definition get_sqe (e : sqe) (q : t) : outcome unit * t :=
  match ring_get e (ring q) with
  | Some r => (Ok tt, set_ring r q)
  | None =>
      let '(ret, r) := ring_submit (ring q) in
      if bool_decide (ret < 0)%Z then (Throw (system_error (- ret)), set_ring r q)
      else
        match ring_get e r with
        | Some r => (Ok tt, set_ring r q)
        | None => (Throw (system_error ENOBUFS), set_ring r q)
        end
  end.

(** [_use_fixed_file]: the answer, with [ret] what [io_uring_register_files] would return
    and [f] the file open on [fd]. *)
Definition use_fixed_file (fd ret : Z) (f : File) (q : t) : bool * t :=
  if bool_decide (registered_fd q = fd) then (true, q)
  else if bool_decide (registered_fd q <> -1)%Z then (false, q)
  else if bool_decide (ret < 0)%Z then (false, q)
  else (true, Mk (ring q) (cq q) fd (Some f) (resumed q)).

(** [fixed ? 0 : fd], with [IOSQE_FIXED_FILE]. *)
Definition file_of (fixed : bool) (fd : Z) : file_ref := if fixed then FixedSlot0 else PlainFd fd.

(** ** The operations up to their suspension in [SqeAwaiter] or [SendMsgAwaiter] [id] *)

Definition open (id : nat) (path : string) (flags mode : Z) : t -> outcome unit * t :=
  get_sqe (MkSqe (OpOpenat path flags mode) (Some id)).

Definition close (id : nat) (fd : Z) : t -> outcome unit * t := get_sqe (MkSqe (OpClose fd) (Some id)).

Definition pread (id : nat) (fd : Z) (size : nat) (offset ret : Z) (f : File) (q : t) : outcome unit * t :=
  let '(fixed, q) := use_fixed_file fd ret f q in
  get_sqe (MkSqe (OpRead (file_of fixed fd) size offset) (Some id)) q.

Definition pwrite (id : nat) (fd : Z) (data : bytes) (offset ret : Z) (f : File) (q : t) : outcome unit * t :=
  let '(fixed, q) := use_fixed_file fd ret f q in
  get_sqe (MkSqe (OpWrite (file_of fixed fd) data offset 0) (Some id)) q.

Definition pwrite_dsync (id : nat) (fd : Z) (data : bytes) (offset ret : Z) (f : File) (q : t) : outcome unit * t :=
  let '(fixed, q) := use_fixed_file fd ret f q in
  get_sqe (MkSqe (OpWrite (file_of fixed fd) data offset (Z.lor 0 RWF_DSYNC)) (Some id)) q.

Definition accept (id : nat) (fd : Z) : t -> outcome unit * t := get_sqe (MkSqe (OpAccept fd) (Some id)).

Definition connect (id : nat) (fd : Z) : t -> outcome unit * t := get_sqe (MkSqe (OpConnect fd) (Some id)).

Definition send (id : nat) (fd : Z) (data : bytes) : t -> outcome unit * t :=
  get_sqe (MkSqe (OpSend fd data MSG_NOSIGNAL) (Some id)).

Definition sendmsg (id : nat) (fd : Z) (iov : list bytes) : t -> outcome unit * t :=
  get_sqe (MkSqe (OpSendmsg fd iov MSG_NOSIGNAL) (Some id)).

(** [cancel_fd]: a submission like the others, whose completion nobody gets. *)
Definition cancel_fd (fd : Z) : t -> outcome unit * t :=
  get_sqe (MkSqe (OpCancelFd fd IORING_ASYNC_CANCEL_ALL) None).

(** The end of each operation, from the result its awaiter was resumed with. *)
Definition op_end (res : Z) : outcome Z :=
  if bool_decide (res < 0)%Z then Throw (system_error (- res)) else Ok res.

(** ** Completions *)

(** What a resumed coroutine submits before it suspends again; one that finds no room
    gets the exception, and the entry is not prepared. *)
Fixpoint submit_all (es : list sqe) (q : t) : t :=
  match es with
  | [] => q
  | e :: es => submit_all es (get_sqe e q).2
  end.

(** [on_cqe] of the sink a completion is addressed to. *)
Definition on_cqe (c : completion) (es : list sqe) (q : t) : t :=
  match cp_sink c with
  | Some id =>
      submit_all es (Mk (ring q) (cq q) (registered_fd q) (slot0 q) (resumed q ++ [(id, cp_res c)]))
  | None => q
  end.

(** [_dispatch]: the loop, and [io_uring_cq_advance]. [react] is what each sink does. *)
Definition dispatch (react : nat -> list sqe) (q : t) : t :=
  let q := foldl (fun q c => on_cqe c (from_option react [] (cp_sink c)) q) q (cq q) in
  Mk (ring q) [] (registered_fd q) (slot0 q) (resumed q).

(** [timeout_ms] as a [__kernel_timespec]. *)
Definition timespec (timeout_ms : Z) : Z * Z :=
  (Z.quot timeout_ms 1000, Z.rem timeout_ms 1000 * 1000000)%Z.

(** [step], with what the wait returned and the completions found in the ring then. *)
Definition step (timeout_ms ret : Z) (arrived : list completion) (r : R) (react : nat -> list sqe) (q : t)
    : outcome t :=
  let q := Mk r (cq q ++ arrived) (registered_fd q) (slot0 q) (resumed q) in
  if negb (bool_decide (timeout_ms < 0)%Z) && bool_decide (ret = - ETIME)%Z then Ok (dispatch react q)
  else if bool_decide (ret < 0)%Z then
    if bool_decide (ret = - EINTR)%Z then Ok q else Throw (system_error (- ret))
  else Ok (dispatch react q).

(** [~Queue]: the prepared entries are submitted, the completions that are there skipped;
    no sink is called. *)
Definition destroy (q : t) : t :=
  let '(_, r) := ring_submit (ring q) in
  Mk r [] (registered_fd q) (slot0 q) (resumed q).
End queue.
Arguments t : clear implicits.

Section proofs.
Context {R File : Type} `{SubmissionRingLaws R}.
Implicit Types q : t R File.

(** ** Submission *)

(** All that was ever given to the ring, in order. *)
Definition given (q : t R File) : list sqe := ring_submitted (ring q) ++ ring_prepared (ring q).

(** All of the queue but its ring. *)
Definition rest (q : t R File) := (cq q, registered_fd q, slot0 q, resumed q).

Lemma given_get e r r' :
  ring_get e r = Some r' ->
  ring_submitted r' ++ ring_prepared r' = (ring_submitted r ++ ring_prepared r) ++ [e].
Proof. intros [-> ->]%ring_get_law. by rewrite app_assoc. Qed.

Lemma get_sqe_spec e q :
  let '(out, q') := get_sqe e q in
  rest q' = rest q /\
  match out with
  | Ok _ => given q' = given q ++ [e]
  | Throw x => given q' = given q /\
      (exists ret, ring_submit (ring q) = (ret, ring q') /\
         ((ret < 0)%Z /\ x = system_error (- ret) \/
          ring_get e (ring q') = None /\ x = system_error ENOBUFS))
  end.
Proof.
  unfold get_sqe, given. destruct (ring_get e (ring q)) as [r|] eqn:Hget.
  { split; [done|]. by apply given_get. }
  pose proof (ring_submit_law (ring q)) as Hlaw. destruct (ring_submit (ring q)) as [ret r] eqn:Hsub.
  destruct Hlaw as [Hgiven _].
  case_bool_decide as Hret; [split; [done|]; split; [done|]; exists ret; auto|].
  destruct (ring_get e r) as [r'|] eqn:Hget'; (split; [done|]).
  - simpl. by rewrite (given_get e r r' Hget'), Hgiven.
  - split; [done|]. exists ret. auto.
Qed.

Lemma submit_all_spec es q :
  rest (submit_all es q) = rest q /\
  exists es', es' `sublist_of` es /\ given (submit_all es q) = given q ++ es'.
Proof.
  revert q. induction es as [|e es IH]; intros q; simpl.
  { split; [done|]. exists []. by rewrite app_nil_r. }
  pose proof (get_sqe_spec e q) as Hspec. destruct (get_sqe e q) as [out q1]. simpl.
  destruct Hspec as [Hrest Hout]. destruct (IH q1) as (Hrest' & es' & Hsub & Hgiven).
  split; [congruence|]. rewrite Hgiven. destruct out as [[]|x].
  - exists (e :: es'). rewrite Hout, <- app_assoc. split; [by constructor|done].
  - destruct Hout as [-> _]. exists es'. split; [by constructor|done].
Qed.

(** ** Completion *)

(** The completions addressed to someone. *)
Definition addressed (cs : list completion) : list (nat * Z) :=
  omap (fun c => (fun id => (id, cp_res c)) <$> cp_sink c) cs.

Lemma on_cqe_spec c es q :
  cq (on_cqe c es q) = cq q /\ registered_fd (on_cqe c es q) = registered_fd q /\
  slot0 (on_cqe c es q) = slot0 q /\ resumed (on_cqe c es q) = resumed q ++ addressed [c] /\
  exists es', es' `sublist_of` es /\ given (on_cqe c es q) = given q ++ es'.
Proof.
  unfold on_cqe, addressed. simpl. destruct (cp_sink c) as [id|]; simpl.
  - destruct (submit_all_spec es (Mk (ring q) (cq q) (registered_fd q) (slot0 q)
      (resumed q ++ [(id, cp_res c)]))) as [[= Hc Hr Hs Hres] Hgiven]. by split_and!.
  - rewrite app_nil_r. split_and!; try done. exists []. rewrite app_nil_r.
    split; [apply sublist_nil_l|done].
Qed.

Lemma dispatch_loop_spec react cs q :
  let q' := foldl (fun q c => on_cqe c (from_option react [] (cp_sink c)) q) q cs in
  cq q' = cq q /\ registered_fd q' = registered_fd q /\ slot0 q' = slot0 q /\
  resumed q' = resumed q ++ addressed cs /\
  exists es', es' `sublist_of` mjoin ((fun p => react p.1) <$> addressed cs) /\
    given q' = given q ++ es'.
Proof.
  revert q. induction cs as [|c cs IH]; intros q; cbn [foldl].
  { split_and!; try done; [by rewrite app_nil_r|]. exists []. by rewrite app_nil_r. }
  destruct (on_cqe_spec c (from_option react [] (cp_sink c)) q) as (H1 & H2 & H3 & H4 & es1 & Hs1 & Hg1).
  destruct (IH (on_cqe c (from_option react [] (cp_sink c)) q)) as (I1 & I2 & I3 & I4 & es2 & Hs2 & Hg2).
  assert (Ha : addressed (c :: cs) = addressed [c] ++ addressed cs).
  { unfold addressed. simpl. by destruct (cp_sink c). }
  cbn zeta. rewrite I1, I2, I3, I4, H4, Hg2, Hg1, Ha. split_and!; try done; [by rewrite app_assoc|].
  exists (es1 ++ es2). split; [|by rewrite app_assoc].
  rewrite fmap_app, join_app. apply sublist_app; [|done].
  unfold addressed. simpl. destruct (cp_sink c); simpl in *; [by rewrite app_nil_r|done].
Qed.
End proofs.

(** Nothing submitted to io_uring is lost or reordered. An operation's entry is put
    behind everything the ring was ever given, whether the ring had room or had to be
    flushed first; when it cannot be, nothing is prepared and the caller gets an exception,
    which happens only because the kernel refused the flush or took nothing from a full
    ring. Nothing else of the queue changes. *)
Theorem uring_submits_in_order `{SubmissionRingLaws R} {File} (e : sqe) (q : t R File) :
  let '(out, q') := get_sqe e q in
  rest q' = rest q /\
  match out with
  | Ok _ => given q' = given q ++ [e]
  | Throw x => given q' = given q /\
      (exists ret, ring_submit (ring q) = (ret, ring q') /\
         ((ret < 0)%Z /\ x = system_error (- ret) \/
          ring_get e (ring q') = None /\ x = system_error ENOBUFS))
  end.
Proof. apply get_sqe_spec. Qed.

(** One cycle of [step]. After a successful wait, or a wait that timed out, every
    completion in the ring resumes the sink it is addressed to, exactly once, in order, and
    is consumed; the entries prepared by what it resumed follow all earlier ones. A wait
    interrupted by a signal, or one that failed, resumes nobody, and only the failure
    throws. The time limit passed to the kernel is the caller's, as a normalised timespec. *)
Theorem uring_step_dispatches `{SubmissionRingLaws R} {File} (timeout_ms ret : Z)
    (arrived : list completion) (r : R) (react : nat -> list sqe) (q : t R File) :
  match step timeout_ms ret arrived r react q with
  | Ok q' =>
      if bool_decide (ret = - EINTR)%Z then resumed q' = resumed q /\ cq q' = cq q ++ arrived
      else
        (0 <= ret \/ 0 <= timeout_ms /\ ret = - ETIME)%Z /\
        resumed q' = resumed q ++ addressed (cq q ++ arrived) /\ cq q' = [] /\
        exists es, es `sublist_of` mjoin ((fun p => react p.1) <$> addressed (cq q ++ arrived)) /\
          given q' = (ring_submitted r ++ ring_prepared r) ++ es
  | Throw x => (ret < 0)%Z /\ x = system_error (- ret)
  end /\
  ((0 <= timeout_ms)%Z ->
     let '(sec, nsec) := timespec timeout_ms in
     (sec * 1000 * 1000000 + nsec = timeout_ms * 1000000 /\ 0 <= sec /\ 0 <= nsec < 1000000000)%Z).
Proof.
  split.
  - unfold step. set (q1 := Mk r (cq q ++ arrived) (registered_fd q) (slot0 q) (resumed q)).
    pose proof (dispatch_loop_spec react (cq q1) q1) as (_ & _ & _ & Hres & es & Hsub & Hgiven).
    assert (Hdisp : (0 <= ret \/ 0 <= timeout_ms /\ ret = - ETIME)%Z ->
      if bool_decide (ret = - EINTR)%Z
      then resumed (dispatch react q1) = resumed q /\ cq (dispatch react q1) = cq q ++ arrived
      else (0 <= ret \/ 0 <= timeout_ms /\ ret = - ETIME)%Z /\
        resumed (dispatch react q1) = resumed q ++ addressed (cq q ++ arrived) /\
        cq (dispatch react q1) = [] /\
        exists es, es `sublist_of` mjoin ((fun p => react p.1) <$> addressed (cq q ++ arrived)) /\
          given (dispatch react q1) = (ring_submitted r ++ ring_prepared r) ++ es).
    { intros Hret. rewrite bool_decide_false by (unfold EINTR, ETIME in *; lia).
      split_and!; try done. by exists es. }
    assert (Hrest : match (if bool_decide (ret < 0)%Z
                           then if bool_decide (ret = - EINTR)%Z then Ok q1 else Throw (system_error (- ret))
                           else Ok (dispatch react q1)) with
      | Ok q' => if bool_decide (ret = - EINTR)%Z then resumed q' = resumed q /\ cq q' = cq q ++ arrived
                 else (0 <= ret \/ 0 <= timeout_ms /\ ret = - ETIME)%Z /\
                   resumed q' = resumed q ++ addressed (cq q ++ arrived) /\ cq q' = [] /\
                   exists es, es `sublist_of` mjoin ((fun p => react p.1) <$> addressed (cq q ++ arrived)) /\
                     given q' = (ring_submitted r ++ ring_prepared r) ++ es
      | Throw x => (ret < 0)%Z /\ x = system_error (- ret)
      end).
    { destruct (bool_decide_reflect (ret < 0)%Z) as [Hr|Hr]; [|apply Hdisp; lia].
      destruct (bool_decide_reflect (ret = - EINTR)%Z) as [Hi|Hi]; [done|done]. }
    destruct (bool_decide_reflect (timeout_ms < 0)%Z) as [Ht|Ht]; simpl; [exact Hrest|].
    destruct (bool_decide_reflect (ret = - ETIME)%Z) as [He|He]; [apply Hdisp; lia|exact Hrest].
  - intros Ht. unfold timespec. pose proof (Z.quot_rem' timeout_ms 1000).
    pose proof (Z.rem_bound_pos timeout_ms 1000). pose proof (Z.quot_pos timeout_ms 1000). lia.
Qed.

(** The file an entry names, given the files open on the descriptors. *)
Definition refers {R File} (fdt : Z -> option File) (q : t R File) (f : file_ref) : option File :=
  match f with
  | PlainFd fd => fdt fd
  | FixedSlot0 => slot0 q
  end.

(** The registered slot holds the file its descriptor is still open on. *)
Definition fixed_ok {R File} (fdt : Z -> option File) (q : t R File) : Prop :=
  registered_fd q = (-1)%Z \/ slot0 q = fdt (registered_fd q).

Lemma use_fixed_file_spec {R File} (fdt : Z -> option File) fd ret f (q : t R File) :
  fd <> (-1)%Z -> fdt fd = Some f -> fixed_ok fdt q ->
  let '(fixed, q') := use_fixed_file fd ret f q in
  fixed_ok fdt q' /\ refers fdt q' (file_of fixed fd) = Some f /\
  ring q' = ring q /\ cq q' = cq q /\ resumed q' = resumed q /\
  (registered_fd q <> -1 -> registered_fd q' = registered_fd q)%Z.
Proof.
  intros Hfd Hf Hok. unfold use_fixed_file.
  case_bool_decide as H1; [|case_bool_decide as H2; [|case_bool_decide as H3]];
    split_and!; try done; simpl.
  - destruct Hok as [?|Hs]; [congruence|]. by rewrite Hs, H1.
  - right. simpl. by rewrite Hf.
Qed.

(** The constructor leaves a queue that registered nothing and resumed nobody. *)
Lemma make_fresh {R File} (fdt : Z -> option File) ret (r : R) q :
  make ret r = Ok q -> (0 <= ret)%Z /\ fixed_ok fdt q /\ resumed q = [] /\ ring q = r.
Proof.
  unfold make. case_bool_decide; [done|]. intros [= <-]. split_and!; try done; [lia|by left].
Qed.

(** C33: file I/O goes to the file it was asked for. As long as a registered descriptor
    stays open on the same file, the entry of a read, a write or a durable write names the
    caller's file, by its descriptor or by the fixed slot, with the caller's offset, size
    and data, durable writes with [RWF_DSYNC] and only they; at most one descriptor is
    ever registered, and a second file falls back to its plain descriptor. *)
Theorem uring_fixed_file `{SubmissionRingLaws R} {File} (fdt : Z -> option File) (id : nat) (fd : Z)
    (size : nat) (data : bytes) (offset ret : Z) (f : File) (q : t R File) :
  fd <> (-1)%Z -> fdt fd = Some f -> fixed_ok fdt q ->
  (forall out q', In (out, q') [pread id fd size offset ret f q; pwrite id fd data offset ret f q;
                                pwrite_dsync id fd data offset ret f q] ->
     fixed_ok fdt q' /\ (registered_fd q <> -1 -> registered_fd q' = registered_fd q)%Z) /\
  (forall q', pread id fd size offset ret f q = (Ok tt, q') ->
     exists ref, refers fdt q' ref = Some f /\
       given q' = given q ++ [MkSqe (OpRead ref size offset) (Some id)]) /\
  (forall q', pwrite id fd data offset ret f q = (Ok tt, q') ->
     exists ref, refers fdt q' ref = Some f /\
       given q' = given q ++ [MkSqe (OpWrite ref data offset 0) (Some id)]) /\
  (forall q', pwrite_dsync id fd data offset ret f q = (Ok tt, q') ->
     exists ref, refers fdt q' ref = Some f /\
       given q' = given q ++ [MkSqe (OpWrite ref data offset RWF_DSYNC) (Some id)]).
Proof.
  intros Hfd Hf Hok. pose proof (use_fixed_file_spec fdt fd ret f q Hfd Hf Hok) as Huse.
  unfold pread, pwrite, pwrite_dsync. destruct (use_fixed_file fd ret f q) as [fixed q1].
  destruct Huse as (Hok1 & Href & Hring & _ & _ & Hreg).
  assert (Hgot : forall e out q', get_sqe e q1 = (out, q') ->
    fixed_ok fdt q' /\ registered_fd q' = registered_fd q1 /\
    refers fdt q' (file_of fixed fd) = Some f /\ (out = Ok tt -> given q' = given q ++ [e])).
  { intros e out q' Hget. pose proof (get_sqe_spec e q1) as Hspec. rewrite Hget in Hspec.
    destruct Hspec as [[= Hcq Hr Hs Hres] Hout]. unfold fixed_ok, refers in *.
    rewrite Hr, Hs. split_and!; try done.
    intros ->. unfold given in *. by rewrite Hout, Hring. }
  split_and!.
  - intros out q' Hin. assert (Hex : exists e, get_sqe e q1 = (out, q')).
    { destruct Hin as [?|[?|[?|[]]]]; by eexists. }
    destruct Hex as [e He]. destruct (Hgot e out q' He) as (? & -> & _). auto.
  - intros q' Hget. destruct (Hgot _ _ _ Hget) as (_ & _ & ? & Hg). exists (file_of fixed fd). auto.
  - intros q' Hget. destruct (Hgot _ _ _ Hget) as (_ & _ & ? & Hg). exists (file_of fixed fd). auto.
  - intros q' Hget. destruct (Hgot _ _ _ Hget) as (_ & _ & ? & Hg). exists (file_of fixed fd). auto.
Qed.

(** Tearing a descriptor or the queue down resumes nobody on io_uring. [cancel_fd] only
    prepares an entry, and the destructor skips the completions it finds: the coroutines
    that wait, a client's reader with its receive stream among them, are not resumed by
    the two calls its destructor makes, and never can be after. *)
Theorem uring_teardown_forgets `{SubmissionRingLaws R} {File} (fd : Z) (q : t R File) :
  let '(out, q1) := cancel_fd fd q in
  resumed q1 = resumed q /\ resumed (destroy q1) = resumed q /\ cq (destroy q1) = [] /\
  given (destroy q1) = given q1 /\
  (out = Ok tt -> given q1 = given q ++ [MkSqe (OpCancelFd fd IORING_ASYNC_CANCEL_ALL) None]).
Proof.
  unfold cancel_fd. pose proof (get_sqe_spec (MkSqe (OpCancelFd fd IORING_ASYNC_CANCEL_ALL) None) q) as Hspec.
  destruct (get_sqe _ q) as [out q1]. destruct Hspec as [[= Hcq Hr Hs Hres] Hout].
  pose proof (ring_submit_law (ring q1)) as Hlaw. unfold destroy, given in *.
  destruct (ring_submit (ring q1)) as [ret r]. simpl. destruct Hlaw as [Hlaw _].
  split_and!; try done. intros ->. done.
Qed.

(** ** A concrete ring *)

Record list_ring := ListRing { lr_room : nat; lr_prepared : list sqe; lr_submitted : list sqe }.

#[global] Instance list_submission_ring : SubmissionRing list_ring := {
  ring_get e r :=
    if bool_decide (length (lr_prepared r) < lr_room r)
    then Some (ListRing (lr_room r) (lr_prepared r ++ [e]) (lr_submitted r)) else None;
  ring_submit r :=
    (Z.of_nat (length (lr_prepared r)), ListRing (lr_room r) [] (lr_submitted r ++ lr_prepared r));
}.

#[global] Program Instance list_submission_ring_laws : SubmissionRingLaws list_ring := {
  ring_prepared := lr_prepared;
  ring_submitted := lr_submitted;
}.
Next Obligation. intros e r r' Hget. cbn in Hget. case_bool_decide; by simplify_eq. Qed.
Next Obligation. intros r. cbn. rewrite app_nil_r. split; [done|lia]. Qed.

(** The backing file is on descriptor 3, a depth of one entry. *)
Definition example_files (fd : Z) : option string := if decide (fd = 3%Z) then Some "disk.img"%string else None.
Definition example_queue : t list_ring string := Mk (ListRing 1 [] []) [] (-1) None [].

(** The read goes through the fixed slot; a write after it flushes the full ring. *)
Lemma uring_fixed_file_witness :
  let q1 := (pread 7 3 512 4096 0 "disk.img"%string example_queue).2 in
  slot0 q1 = Some "disk.img"%string /\
  given (pwrite_dsync 8 3 [Byte.x01] 0 0 "disk.img"%string q1).2 =
    [MkSqe (OpRead FixedSlot0 512 4096) (Some 7); MkSqe (OpWrite FixedSlot0 [Byte.x01] 0 2) (Some 8)].
Proof.
  cbn zeta. split.
  - destruct (uring_fixed_file example_files 7 3 512 [] 4096 0 "disk.img"%string example_queue
      ltac:(lia) eq_refl ltac:(by left)) as [Hok _].
    destruct (Hok (Ok tt) (pread 7 3 512 4096 0 "disk.img"%string example_queue).2 ltac:(by left))
      as [[Hreg|Hs] _]; [discriminate Hreg|]. rewrite Hs. by vm_compute.
  - by vm_compute.
Defined.
