(* ===== verification/Tasks.v ===== *)
(** * Coroutine tasks ([easyio/task.hpp])

    [Task], its promise and [spawn] as a machine on coroutine frames: a task is created
    suspended, awaiting it stores the awaiter as its continuation and transfers to it, its
    end transfers back, and whoever holds the [Task] destroys the frame. [direct] is what
    the code looks like: a coroutine that calls others and waits for I/O. The machine
    implements it. *)

From S2P Require Import Prelude.

Open Scope nat_scope.

(** The body of a coroutine: its result or exception, a suspension in an I/O awaiter, and
    [co_await] of another task, with what follows. *)
Inductive code :=
  | CReturn (v : Z)
  | CThrow (e : exn)
  | CIo (k : Z -> code)
  | CAwait (c : code) (k : outcome Z -> code).

(** ** Reference: the calls taken directly *)

Inductive direct_result := Done (o : outcome Z) (rest : list Z) | Blocked.

(** Run a body on the results of its I/O, in order. *)
Fixpoint direct (c : code) (ins : list Z) : direct_result :=
  match c with
  | CReturn v => Done (Ok v) ins
  | CThrow e => Done (Throw e) ins
  | CIo k => match ins with [] => Blocked | v :: ins => direct (k v) ins end
  | CAwait c k =>
      match direct c ins with
      | Done o ins => direct (k o) ins
      | Blocked => Blocked
      end
  end.

(** ** The machine *)

(** Where a coroutine of a [Task] stands. *)
Inductive body :=
  | Runs (c : code)
  | AtIo (k : Z -> code)
  | Awaits (child : handle) (k : outcome Z -> code) (** the task is held by the [co_await] *)
  | Final.                                          (** suspended in [final_suspend] *)

(** A frame: of a task, with [promise().continuation] and [promise().result]; or of
    [spawn], whose parameter holds the task. *)
Inductive frame :=
  | TaskFrame (b : body) (continuation : option handle) (result : option (outcome Z))
  | Detached (task : handle).

(** The heap of frames; the coroutine running, the one an I/O awaiter would resume,
    whether [std::terminate] was called, and the frames destroyed, in order. *)
Record machine := Mk {
  frames : gmap handle frame;
  next : handle;
  running : option handle;
  waiting : option handle;
  terminated : bool;
  destroyed : list handle;
}.

Definition init : machine := Mk ∅ 0 None None false [].

Definition put (h : handle) (f : frame) (m : machine) : machine :=
  Mk (<[h := f]> (frames m)) (next m) (running m) (waiting m) (terminated m) (destroyed m).

Definition run (h : option handle) (m : machine) : machine :=
  Mk (frames m) (next m) h (waiting m) (terminated m) (destroyed m).

(** A call of a coroutine: the frame, suspended by [initial_suspend], and its [Task]. *)
Definition create (f : frame) (m : machine) : handle * machine :=
  (next m, Mk (<[next m := f]> (frames m)) (S (next m)) (running m) (waiting m) (terminated m)
             (destroyed m)).

(** [Task::destroy], from [~Task]. *)
Definition destroy (h : handle) (m : machine) : machine :=
  Mk (delete h (frames m)) (next m) (running m) (waiting m) (terminated m) (destroyed m ++ [h]).

(** *** [class Task], the object: its [_handle], null when [None] *)

Definition task := option handle.

Definition valid (t : task) : bool := bool_decide (is_Some t).

(** [_handle.done()]: suspended in [final_suspend]. *)
Definition done (h : handle) (m : machine) : bool :=
  match frames m !! h with
  | Some (TaskFrame Final _ _) => true
  | _ => false
  end.

(** [~Task]. *)
Definition task_drop (t : task) (m : machine) : machine :=
  match t with
  | Some h => destroy h m
  | None => m
  end.

(** [Task(Task&&)]: the new object, then what is left in [other]. *)
Definition task_move (other : task) : task * task := (other, None).

(** [operator=(Task&&)]: the object, what is left in [other]. *)
Definition task_assign (same : bool) (t other : task) (m : machine) : task * task * machine :=
  if same then (t, other, m) else (other, None, task_drop t m).

(** [Task::start]. *)
Definition start (t : task) (m : machine) : machine :=
  match t with
  | Some h => if done h m then m else run (Some h) m
  | None => m
  end.

(** [Task::await_ready]. *)
Definition await_ready (t : task) (m : machine) : bool :=
  match t with
  | Some h => done h m
  | None => true
  end.

(** [FinalAwaiter::await_suspend] after the result is stored: to the continuation, or to a
    coroutine that does nothing. *)
Definition final_suspend (h : handle) (cont : option handle) (o : outcome Z) (m : machine) : machine :=
  run cont (put h (TaskFrame Final cont (Some o)) m).

(** [Task::await_suspend]: the awaiter [h] is the continuation, the task runs. *)
Definition await_suspend (h n : handle) (m : machine) : machine :=
  match frames m !! n with
  | Some (TaskFrame b _ r) => run (Some n) (put n (TaskFrame b (Some h) r) m)
  | _ => m
  end.

(** [take_result] of a task that ended. *)
Definition take_result (n : handle) (m : machine) : option (outcome Z) :=
  match frames m !! n with
  | Some (TaskFrame Final _ r) => r
  | _ => None
  end.

(** One step of the running coroutine [h]. *)
Definition step (h : handle) (m : machine) : option machine :=
  match frames m !! h with
  | Some (TaskFrame (Runs (CReturn v)) cont _) => Some (final_suspend h cont (Ok v) m)
  | Some (TaskFrame (Runs (CThrow e)) cont _) => Some (final_suspend h cont (Throw e) m)
  | Some (TaskFrame (Runs (CIo k)) cont r) =>
      Some (Mk (<[h := TaskFrame (AtIo k) cont r]> (frames m)) (next m) None (Some h)
              (terminated m) (destroyed m))
  | Some (TaskFrame (Runs (CAwait c k)) cont r) =>
      let '(n, m) := create (TaskFrame (Runs c) None None) m in
      let m := put h (TaskFrame (Awaits n k) cont r) m in
      Some (if await_ready (Some n) m then m else await_suspend h n m)
  | Some (TaskFrame (Awaits n k) cont r) =>
      match take_result n m with
      | Some o => Some (destroy n (put h (TaskFrame (Runs (k o)) cont r) m))
      | None => None
      end
  | Some (Detached n) =>
      match take_result n m with
      | Some (Ok _) => Some (run None (destroy h (destroy n m)))
      | Some (Throw _) => Some (Mk (frames m) (next m) None (waiting m) true (destroyed m))
      | None => None
      end
  | _ => None
  end.

(** The I/O awaiter of [h] is resumed with its result. *)
Definition resume (h : handle) (v : Z) (m : machine) : machine :=
  match frames m !! h with
  | Some (TaskFrame (AtIo k) cont r) =>
      Mk (<[h := TaskFrame (Runs (k v)) cont r]> (frames m)) (next m) (Some h) None
         (terminated m) (destroyed m)
  | _ => m
  end.

(** [spawn(task)], [task] a call of [c]: the detached frame starts at once. *)
Definition spawn (c : code) (m : machine) : machine :=
  let '(n, m) := create (TaskFrame (Runs c) None None) m in
  let '(h, m) := create (Detached n) m in
  let (t, _) := task_move (Some n) in
  if await_ready t m then run (Some h) m else await_suspend h n m.

(** The machine with the results its I/O will give. *)
Inductive move : machine * list Z -> machine * list Z -> Prop :=
  | move_step h m m' ins :
      running m = Some h -> terminated m = false -> step h m = Some m' -> move (m, ins) (m', ins)
  | move_io h m v ins :
      running m = None -> terminated m = false -> waiting m = Some h ->
      move (m, v :: ins) (resume h v m, ins).

(** ** The machine runs a body as the reference does *)

Definition fresh (m : machine) : Prop := forall id, next m <= id -> frames m !! id = None.

(** [m] is running [c] in frame [h], whose continuation is [cont]. *)
Record runs (c : code) (h : handle) (cont : option handle) (m : machine) : Prop := {
  rn_running : running m = Some h;
  rn_ok : terminated m = false;
  rn_waiting : waiting m = None;
  rn_frame : frames m !! h = Some (TaskFrame (Runs c) cont None);
  rn_fresh : fresh m;
  rn_next : h < next m;
}.

(** From [m], [m'] is what is left when frame [h] ended with [o]: control is with the
    continuation, and every frame made meanwhile was destroyed, once. *)
Record returned (h : handle) (cont : option handle) (o : outcome Z) (m m' : machine) : Prop := {
  rt_frames : frames m' = <[h := TaskFrame Final cont (Some o)]> (frames m);
  rt_running : running m' = cont;
  rt_ok : terminated m' = false;
  rt_waiting : waiting m' = None;
  rt_next : next m <= next m';
  rt_destroyed : exists l, destroyed m' = destroyed m ++ l /\ l ≡ₚ seq (next m) (next m' - next m);
}.

(** Suspended in an I/O awaiter, with no result to come. *)
Definition blocked (m : machine) : Prop :=
  running m = None /\ terminated m = false /\ is_Some (waiting m).

Lemma fresh_insert h f m : fresh m -> h < next m -> fresh (put h f m).
Proof. intros Hf Hh id Hid. simpl in *. rewrite lookup_insert_ne by lia. by apply Hf. Qed.

(** The state of a [co_await] after the transfer to the new task. *)
Lemma step_await c k h cont m :
  runs (CAwait c k) h cont m ->
  exists m1, step h m = Some m1 /\ runs c (next m) (Some h) m1 /\ next m1 = S (next m) /\
    destroyed m1 = destroyed m /\
    frames m1 = <[next m := TaskFrame (Runs c) (Some h) None]>
                  (<[h := TaskFrame (Awaits (next m) k) cont None]> (frames m)).
Proof.
  intros [Hr Ht Hw Hf Hfr Hn]. unfold step. rewrite Hf. cbn [create]. unfold await_suspend, await_ready, done. simpl.
  rewrite lookup_insert_ne, lookup_insert_eq by lia. eexists. split; [done|].
  assert (Heq : <[next m := TaskFrame (Runs c) (Some h) None]>
      (<[h := TaskFrame (Awaits (next m) k) cont None]> (<[next m := TaskFrame (Runs c) None None]> (frames m))) =
    <[next m := TaskFrame (Runs c) (Some h) None]>
      (<[h := TaskFrame (Awaits (next m) k) cont None]> (frames m)) :> gmap handle frame).
  { apply map_eq. intros j. destruct (decide (j = next m)) as [->|]; [by rewrite !lookup_insert_eq|].
    rewrite !(lookup_insert_ne _ (next m)) by done.
    destruct (decide (j = h)) as [->|]; [by rewrite !lookup_insert_eq|].
    by rewrite !lookup_insert_ne by done. }
  split_and!; try done. split; simpl; try done; [|intros id Hid; simpl|lia].
  - by rewrite lookup_insert_eq.
  - simpl in Hid. rewrite !lookup_insert_ne by lia. apply Hfr. lia.
Qed.

(** The awaiter goes on with the result, and the task is destroyed. *)
Lemma step_resume c k h cont o m m1 m2 :
  runs (CAwait c k) h cont m -> next m1 = S (next m) -> destroyed m1 = destroyed m ->
  frames m1 = <[next m := TaskFrame (Runs c) (Some h) None]>
                (<[h := TaskFrame (Awaits (next m) k) cont None]> (frames m)) ->
  returned (next m) (Some h) o m1 m2 ->
  exists m3, step h m2 = Some m3 /\ runs (k o) h cont m3 /\
    frames m3 = <[h := TaskFrame (Runs (k o)) cont None]> (frames m) /\ next m3 = next m2 /\
    exists l, destroyed m3 = destroyed m ++ l /\ l ≡ₚ seq (next m) (next m3 - next m).
Proof.
  intros [Hr Ht Hw Hf Hfr Hn] Hn1 Hd1 Hf1 [Hf2 Hr2 Ht2 Hw2 Hn2 (l & Hd2 & Hl)].
  assert (Hh : frames m2 !! h = Some (TaskFrame (Awaits (next m) k) cont None)).
  { rewrite Hf2, Hf1, !lookup_insert_ne, lookup_insert_eq by lia. done. }
  unfold step. rewrite Hh. unfold take_result. rewrite Hf2, lookup_insert_eq.
  eexists. split; [done|].
  assert (Heq : delete (next m) (<[h := TaskFrame (Runs (k o)) cont None]> (frames m2)) =
    <[h := TaskFrame (Runs (k o)) cont None]> (frames m)).
  { apply map_eq. intros j. rewrite Hf2, Hf1.
    destruct (decide (j = next m)) as [->|].
    { rewrite lookup_delete_eq, lookup_insert_ne by lia. symmetry. by apply Hfr. }
    rewrite lookup_delete_ne by done. destruct (decide (j = h)) as [->|]; [by rewrite !lookup_insert_eq|].
    by rewrite !lookup_insert_ne by done. }
  split_and!; try done.
  - split; simpl; try done; [by rewrite Heq, lookup_insert_eq| |lia].
    intros id Hid. simpl in *. rewrite Heq, lookup_insert_ne by lia. apply Hfr. lia.
  - exists (l ++ [next m]). simpl. rewrite Hd2, Hd1, app_assoc. split; [done|].
    rewrite Hl, Hn1. replace (next m2 - next m) with (S (next m2 - S (next m))) by lia.
    simpl. by rewrite <- Permutation_cons_append.
Qed.

(** The body suspends at an operation, and goes on when its result arrives. *)
Lemma step_io k h cont m :
  runs (CIo k) h cont m ->
  exists m1, (forall ins, move (m, ins) (m1, ins)) /\ blocked m1 /\
    forall v, (forall ins, move (m1, v :: ins) (resume h v m1, ins)) /\
      runs (k v) h cont (resume h v m1) /\
      next (resume h v m1) = next m /\ destroyed (resume h v m1) = destroyed m /\
      frames (resume h v m1) = <[h := TaskFrame (Runs (k v)) cont None]> (frames m).
Proof.
  intros [Hr Ht Hw Hf Hfr Hn].
  exists (Mk (<[h := TaskFrame (AtIo k) cont None]> (frames m)) (next m) None (Some h)
             (terminated m) (destroyed m)).
  split_and!; [|split_and!; simpl; eauto|].
  { intros ins. apply (move_step h); [done..|]. unfold step. by rewrite Hf. }
  intros v. split; [intros ins; by apply (move_io h)|].
  unfold resume. simpl. rewrite lookup_insert_eq. simpl. split_and!; try done; [|by rewrite insert_insert_eq].
  split; simpl; try done; [by rewrite lookup_insert_eq|].
  intros id Hid. simpl in *. rewrite !lookup_insert_ne by lia. by apply Hfr.
Qed.

Lemma run_direct c h cont m ins :
  runs c h cont m ->
  match direct c ins with
  | Done o rest => exists m', rtc move (m, ins) (m', rest) /\ returned h cont o m m'
  | Blocked => exists m', rtc move (m, ins) (m', []) /\ blocked m'
  end.
Proof.
  revert h cont m ins. induction c as [v|e|k IH|c IHc k IHk]; intros h cont m ins Hrun;
    pose proof Hrun as [Hr Ht Hw Hf Hfr Hn]; cbn [direct].
  - eexists. split; [apply rtc_once, (move_step h); [done..|]; unfold step; by rewrite Hf|].
    split; simpl; try done. exists []. rewrite app_nil_r, Nat.sub_diag. done.
  - eexists. split; [apply rtc_once, (move_step h); [done..|]; unfold step; by rewrite Hf|].
    split; simpl; try done. exists []. rewrite app_nil_r, Nat.sub_diag. done.
  - destruct (step_io k h cont m Hrun) as (m1 & Hstep & Hbl & Hres).
    destruct ins as [|v ins]; [exists m1; split; [apply rtc_once, Hstep|done]|].
    destruct (Hres v) as (Hio & Hrun' & Hnx & Hds & Hfs).
    specialize (IH v h cont (resume h v m1) ins Hrun').
    destruct (direct (k v) ins) as [o rest|]; destruct IH as (m' & Hmove & Hend); exists m';
      (split; [eapply rtc_l; [apply Hstep|]; by eapply rtc_l|]); [|done].
    destruct Hend as [E1 E2 E3 E4 E5 E6]. rewrite Hnx in *. rewrite Hds in E6. split; try done.
    by rewrite E1, Hfs, insert_insert_eq.
  - destruct (step_await c k h cont m Hrun) as (m1 & Hs1 & Hrun1 & Hn1 & Hd1 & Hf1).
    assert (Hmove1 : move (m, ins) (m1, ins)) by (by apply (move_step h)).
    specialize (IHc (next m) (Some h) m1 ins Hrun1).
    destruct (direct c ins) as [o rest|]; destruct IHc as (m2 & Hmove2 & Hend2).
    2: { exists m2. split; [|done]. by eapply rtc_l. }
    destruct (step_resume c k h cont o m m1 m2 Hrun Hn1 Hd1 Hf1 Hend2)
      as (m3 & Hs3 & Hrun3 & Hf3 & Hn3 & l3 & Hd3 & Hl3).
    assert (Hpre : rtc move (m, ins) (m3, rest)).
    { eapply rtc_l; [done|]. etrans; [done|]. apply rtc_once, (move_step h); [|apply Hend2|done].
      by rewrite (rt_running _ _ _ _ _ Hend2). }
    specialize (IHk o h cont m3 rest Hrun3).
    destruct (direct (k o) rest) as [o' rest'|]; destruct IHk as (m4 & Hmove4 & Hend4); exists m4;
      (split; [by etrans|]); [|done].
    destruct Hend4 as [E1 E2 E3 E4 E5 (l4 & E6 & E7)].
    pose proof (rt_next _ _ _ _ _ Hend2). split; try done.
    + by rewrite E1, Hf3, insert_insert_eq.
    + lia.
    + exists (l3 ++ l4). rewrite E6, Hd3, app_assoc. split; [done|]. rewrite Hl3, E7.
      replace (next m4 - next m) with ((next m3 - next m) + (next m4 - next m3)) by lia.
      rewrite seq_app. by replace (next m + (next m3 - next m)) with (next m3) by lia.
Qed.

(** ** Runs of the machine *)

Lemma move_deterministic s s1 s2 : move s s1 -> move s s2 -> s1 = s2.
Proof. intros [h m m1 ins|h m v ins] Hs2; inversion Hs2; subst; congruence. Qed.

Lemma run_confluent s t u : rtc move s t -> nf move t -> rtc move s u -> rtc move u t.
Proof.
  intros Hst Hnf. revert u. induction Hst as [t|s s' t Hss' Hst IH]; intros u Hsu;
    inversion Hsu as [|? s'' ? Hss'' Hs''u]; subst; try done.
  - destruct Hnf. by eexists.
  - by eapply rtc_l.
  - apply IH; [done|]. by rewrite (move_deterministic _ _ _ Hss' Hss'').
Qed.

Lemma run_terminates s t : rtc move s t -> nf move t -> sn move s.
Proof.
  intros Hst Hnf. induction Hst as [t|s s' t Hss' Hst IH]; constructor; intros u Hu.
  - destruct Hnf. by eexists.
  - unfold flip in Hu. rewrite <- (move_deterministic _ _ _ Hss' Hu). by apply IH.
Qed.

(** Every run from [s] is finite and stops in [t]. *)
Definition always_ends (s t : machine * list Z) : Prop :=
  sn move s /\ nf move t /\ forall u, rtc move s u -> rtc move u t.

Lemma ends_always s t : rtc move s t -> nf move t -> always_ends s t.
Proof. intros. split_and!; eauto using run_terminates, run_confluent. Qed.

Lemma nf_idle m ins : running m = None -> waiting m = None -> nf move (m, ins).
Proof. intros Hr Hw [? Hm]. inversion Hm; congruence. Qed.

Lemma nf_terminated m ins : terminated m = true -> nf move (m, ins).
Proof. intros Ht [? Hm]. inversion Hm; congruence. Qed.

Lemma nf_blocked m : running m = None -> nf move (m, []).
Proof. intros Hr [? Hm]. inversion Hm; congruence. Qed.

(** After [spawn]: the detached frame 1 awaits the task's frame 0, which runs. *)
Lemma spawn_runs c :
  runs c 0 (Some 1) (spawn c init) /\ next (spawn c init) = 2 /\ destroyed (spawn c init) = [] /\
  frames (spawn c init) = {[0 := TaskFrame (Runs c) (Some 1) None; 1 := Detached 0]}.
Proof.
  unfold spawn, create, await_suspend, await_ready, done. simpl. rewrite lookup_insert_ne, lookup_insert_eq by done. simpl.
  assert (Heq : <[0 := TaskFrame (Runs c) (Some 1) None]> (<[1 := Detached 0]>
      (<[0 := TaskFrame (Runs c) None None]> ∅)) =
    {[0 := TaskFrame (Runs c) (Some 1) None; 1 := Detached 0]} :> gmap handle frame).
  { rewrite (insert_insert_ne _ 1 0) by done. by rewrite insert_insert_eq. }
  rewrite Heq. split_and!; try done. split; simpl; try done; [|lia].
  intros id Hid. simpl in *. rewrite Heq, lookup_insert_ne by lia. apply lookup_singleton_ne. lia.
Qed.

(** What is left of a spawned task that ended with [o]. *)
Definition spawned_end (o : outcome Z) (m : machine) : Prop :=
  running m = None /\
  match o with
  | Ok _ => terminated m = false /\ waiting m = None /\ frames m = ∅ /\ destroyed m ≡ₚ seq 0 (next m)
  | Throw _ => terminated m = true
  end.

Lemma detached_end c o m :
  returned 0 (Some 1) o (spawn c init) m ->
  exists m', step 1 m = Some m' /\ spawned_end o m'.
Proof.
  destruct (spawn_runs c) as (_ & Hn & Hd & Hf). intros [E1 E2 E3 E4 E5 (l & E6 & E7)].
  rewrite Hn, Hf in *. rewrite Hd in E6. simpl in E6.
  assert (Hfm : frames m = {[0 := TaskFrame Final (Some 1) (Some o); 1 := Detached 0]})
    by (rewrite E1; by rewrite insert_insert_eq).
  unfold step, take_result. rewrite Hfm, lookup_insert_ne, lookup_singleton_eq, lookup_insert_eq by done.
  destruct o as [v|e]; eexists; (split; [done|]); split; try done.
  simpl. split_and!; try done.
  - rewrite Hfm. apply map_eq. intros j. rewrite lookup_empty.
    destruct (decide (j = 1)) as [->|]; [apply lookup_delete_eq|].
    destruct (decide (j = 0)) as [->|]; [by rewrite lookup_delete_ne, lookup_delete_eq|].
    by rewrite !lookup_delete_ne, lookup_insert_ne, lookup_singleton_ne by done.
  - rewrite E6, E7, <- app_assoc. replace (next m) with (2 + (next m - 2)) at 2 by lia.
    rewrite seq_app. simpl. rewrite Permutation_app_comm. simpl. done.
Qed.

(** C32: a coroutine of [Task]s does what the calls it is written as do. For every body [c]
    given to [spawn] and every sequence of I/O results, the machine of frames,
    continuations and symmetric transfers always stops, in one state: when the calls taken
    directly complete, the task has used the same I/O results and every frame that was made
    has been destroyed exactly once, with none left; when they throw out of the task,
    [std::terminate] was called; when they need another result, the machine is suspended in
    an I/O awaiter and nothing runs. *)
Theorem task_runs_like_calls c ins :
  match direct c ins with
  | Done o rest => exists m, always_ends (spawn c init, ins) (m, rest) /\ spawned_end o m
  | Blocked => exists m, always_ends (spawn c init, ins) (m, []) /\ blocked m
  end.
Proof.
  pose proof (run_direct c 0 (Some 1) (spawn c init) ins (proj1 (spawn_runs c))) as Hrun.
  destruct (direct c ins) as [o rest|]; destruct Hrun as (m & Hmove & Hend).
  - destruct (detached_end c o m Hend) as (m' & Hstep & Hm'). exists m'. split; [|done].
    apply ends_always.
    + etrans; [done|]. apply rtc_once, (move_step 1); [apply Hend..|done].
    + destruct Hm' as [Hr Ho]. destruct o; [apply nf_idle|apply nf_terminated]; by try apply Ho.
  - exists m. split; [|done]. apply ends_always; [done|]. apply nf_blocked, Hend.
Qed.
