(* ===== verification/SendLock.v ===== *)
(** * Whole messages through one socket

    The pattern both ends use to write: [auto guard = co_await lock_guard(mtx); try {
    co_await send_all(...); } ...]. A [t] is the mutex with the coroutines that are
    between the [lock_guard] and the end of the guard's scope, each holding its one or two
    buffers, and the history of the socket. [Client] sends its requests through it. *)

From S2P Require Import Prelude Sync Queue Wire.

Open Scope nat_scope.

(** The buffers of one [send_all] call, and the call. *)
Definition message := (bytes * option bytes)%type.

Definition call_send (m : message) : send_state :=
  match m with
  | (buf, None) => send_all buf
  | (buf1, Some buf2) => send_all2 buf1 buf2
  end.

Definition message_bytes (m : message) : bytes :=
  m.1 ++ match m.2 with Some buf2 => buf2 | None => [] end.

(** Where the coroutine is. *)
Inductive proc :=
  | Waits (m : message)   (** in [lock_guard] *)
  | Sends (f : send_frame) (** in [send_all], with the guard *)
  | Leaves                (** done sending: the guard is about to be destroyed *)
  | Undefined.            (** [send_all] went past its buffers *)

Record t := Mk {
  mtx : Mutex.t;
  procs : gmap nat proc;
  begun : list (nat * bytes);  (** messages whose [send_all] was called, in order *)
  failed : list nat;           (** coroutines whose [send_all] threw *)
  wire : bytes;                (** bytes the socket accepted *)
}.

Definition init : t := Mk Mutex.init ∅ [] [] [].

Definition put (id : nat) (pc : proc) (l : t) : t :=
  Mk (mtx l) (<[id := pc]> (procs l)) (begun l) (failed l) (wire l).

Definition after_send (st : send_state) : proc :=
  match st with
  | SendWaits f => Sends f
  | SendDone => Leaves
  | SendUB => Undefined
  end.

(** The coroutine goes on with the lock. *)
Definition begin_send (id : nat) (m : message) (l : t) : t :=
  Mk (mtx l) (<[id := after_send (call_send m)]> (procs l))
    (begun l ++ [(id, message_bytes m)]) (failed l) (wire l).

(** [co_await lock_guard(mtx)], then [send_all] when the lock is free. *)
Definition enter (id : nat) (m : message) (l : t) : t :=
  let '(now, x) := Mutex.lock id (mtx l) in
  let l := Mk x (procs l) (begun l) (failed l) (wire l) in
  if now then begin_send id m l else put id (Waits m) l.

(** The socket accepts [n] bytes. *)
Definition accept (id n : nat) (l : t) : t :=
  match procs l !! id with
  | Some (Sends f) =>
      Mk (mtx l) (<[id := after_send (send_resume n f)]> (procs l))
        (begun l) (failed l) (wire l ++ take n (mjoin (offer f)))
  | _ => l
  end.

(** [send_all] throws. *)
Definition fail (id : nat) (l : t) : t :=
  match procs l !! id with
  | Some (Sends f) => Mk (mtx l) (<[id := Leaves]> (procs l)) (begun l) (failed l ++ [id]) (wire l)
  | _ => l
  end.

(** The coroutine resumed by the mutex. *)
Definition grant (id : nat) (l : t) : t :=
  match procs l !! id with
  | Some (Waits m) => begin_send id m l
  | _ => l
  end.

(** [~MutexGuard], and the end of the coroutine. *)
Definition leave (id : nat) (l : t) : t :=
  match procs l !! id with
  | Some Leaves =>
      let '(woken, x) := Mutex.guard_drop true (mtx l) in
      let l := Mk x (delete id (procs l)) (begun l) (failed l) (wire l) in
      match woken with
      | Some h => grant h l
      | None => l
      end
  | _ => l
  end.

(** ** Specification *)

(** [q] is the abstract lock: the head holds it, the rest wait. *)
Definition queue_ok (q : list handle) (id : nat) (pc : option proc) : Prop :=
  match pc with
  | Some (Waits _) => Mutex.stands q id Mutex.InLine
  | Some (Sends _) | Some Leaves => Mutex.stands q id Mutex.Holding
  | Some Undefined => False
  | None => Mutex.stands q id Mutex.Outside
  end.

(** A coroutine calls [send_all] once. *)
Definition once_ok (pc : option proc) (msgs : list bytes) : Prop :=
  match pc with
  | Some (Waits _) => msgs = []
  | Some (Sends _) | Some Leaves => exists m, msgs = [m]
  | Some Undefined => False
  | None => length msgs <= 1
  end.

Definition sending (q : list handle) (l : t) : option (nat * send_frame) :=
  match head q with
  | Some id => match procs l !! id with Some (Sends f) => Some (id, f) | _ => None end
  | None => None
  end.

Record lock_inv (q : list handle) (l : t) : Prop := {
  li_mtx : Mutex.rel (mtx l) q;
  li_nodup : NoDup q;
  li_queue id : queue_ok q id (procs l !! id);
  li_once id : once_ok (procs l !! id) (of_id id (begun l));
  li_wire : wire_ok (sending q l) (begun l) (failed l) (wire l);
}.
Arguments li_mtx {q l}.
Arguments li_nodup {q l}.
Arguments li_queue {q l}.
Arguments li_once {q l}.
Arguments li_wire {q l}.

Lemma init_inv : lock_inv [] init.
Proof.
  split; try done; [constructor|..].
  - intros id. simpl. apply not_elem_of_nil.
  - intros id. change (0 <= 1). lia.
  - by exists [], [].
Qed.

Lemma sending_at id f q l :
  lock_inv q l -> procs l !! id = Some (Sends f) -> head q = Some id /\ sending q l = Some (id, f).
Proof.
  intros Hl Hid. pose proof (li_queue Hl id) as Hq. rewrite Hid in Hq. simpl in Hq.
  split; [done|]. unfold sending. by rewrite Hq, Hid.
Qed.

(** A call always has something to send, and first waits for the socket. *)
Lemma call_send_waits m :
  message_bytes m <> [] ->
  exists f, call_send m = SendWaits f /\ frame_ok f /\ frame_rest f = message_bytes m.
Proof.
  intros Hne. destruct m as [b1 [b2|]]; unfold message_bytes in *; simpl in *.
  - pose proof (send_all2_sends b1 b2) as Hs. destruct (send_all2 b1 b2); simpl in Hs; [by eexists|done|done].
  - rewrite app_nil_r in *. pose proof (send_all_sends b1) as Hs.
    destruct (send_all b1); simpl in Hs; [by eexists|done|done].
Qed.

(** The head of [q], which is not sending, starts its message. *)
Lemma lock_begin_send_inv q id m l :
  Mutex.rel (mtx l) q -> NoDup q -> head q = Some id -> message_bytes m <> [] ->
  (forall i, i <> id -> queue_ok q i (procs l !! i)) ->
  (forall i, i <> id -> once_ok (procs l !! i) (of_id i (begun l))) ->
  of_id id (begun l) = [] -> wire_ok None (begun l) (failed l) (wire l) -> lock_inv q (begin_send id m l).
Proof.
  intros Hm Hnd Hhd Hne Hq Ho Hid Hw.
  destruct (call_send_waits m Hne) as (f & Hst & Hf & Hrest). unfold begin_send. rewrite Hst.
  split; simpl; auto.
  - intros i. destruct (decide (i = id)) as [->|]; [by rewrite lookup_insert_eq|].
    rewrite lookup_insert_ne by done. auto.
  - intros i. destruct (decide (i = id)) as [->|].
    + rewrite lookup_insert_eq, of_id_snoc_eq, Hid. simpl. eauto.
    + rewrite lookup_insert_ne, of_id_snoc_ne by done. auto.
  - unfold sending. rewrite Hhd. simpl. rewrite lookup_insert_eq. by apply wire_ok_begin.
Qed.

Lemma lock_queue_ok_snoc q id i pc : i <> id -> queue_ok q i pc -> queue_ok (q ++ [id]) i pc.
Proof. intros Hne. destruct pc as [[]|]; cbn [queue_ok]; try done; by apply Mutex.stands_snoc. Qed.

Lemma enter_inv q id m l :
  lock_inv q l -> procs l !! id = None -> of_id id (begun l) = [] -> message_bytes m <> [] ->
  lock_inv (q ++ [id]) (enter id m l).
Proof.
  intros Hl Hid Hb Hne. unfold enter.
  destruct (Mutex.rel_lock _ _ id (li_mtx Hl)) as [Hnow Hrel].
  destruct (Mutex.lock id (mtx l)) as [now x]. simpl in Hnow, Hrel. subst now.
  pose proof (li_queue Hl id) as Hnq. rewrite Hid in Hnq. simpl in Hnq.
  assert (Hnd : NoDup (q ++ [id])).
  { apply list.NoDup_app. split_and!; [apply (li_nodup Hl)| |apply NoDup_singleton].
    intros i Hi ->%list_elem_of_singleton. done. }
  case_bool_decide as Hq.
  - subst q. apply lock_begin_send_inv; simpl; auto.
    + intros i Hi. apply (lock_queue_ok_snoc [] id i); [done|]. apply (li_queue Hl).
    + intros i _. apply (li_once Hl).
    + apply (li_wire Hl).
  - split; simpl; auto.
    + intros i. destruct (decide (i = id)) as [->|].
      * rewrite lookup_insert_eq. simpl. destruct q; [done|]. simpl. apply elem_of_app. right. by left.
      * rewrite lookup_insert_ne by done. apply lock_queue_ok_snoc; [done|]. apply (li_queue Hl).
    + intros i. destruct (decide (i = id)) as [->|].
      * by rewrite lookup_insert_eq.
      * rewrite lookup_insert_ne by done. apply (li_once Hl).
    + pose proof (li_wire Hl) as Hw. unfold sending in *. destruct q as [|h q]; [done|]. simpl in *.
      rewrite lookup_insert_ne; [done|]. intros ->. apply Hnq. left.
Qed.

Lemma accept_inv q id n f l :
  lock_inv q l -> procs l !! id = Some (Sends f) -> n <= length (mjoin (offer f)) ->
  lock_inv q (accept id n l).
Proof.
  intros Hl Hid Hn. destruct (sending_at _ _ _ _ Hl Hid) as [Hhd Hs].
  pose proof (li_wire Hl) as Hw. rewrite Hs in Hw.
  change (mjoin (offer f)) with (frame_rest f) in Hn. pose proof (wire_ok_sent _ _ _ _ _ _ Hw Hn) as Hw'.
  pose proof (li_once Hl id) as Hon. rewrite Hid in Hon.
  unfold accept. rewrite Hid. change (mjoin (offer f)) with (frame_rest f).
  split; simpl; [apply (li_mtx Hl)|apply (li_nodup Hl)|..].
  - intros i. destruct (decide (i = id)) as [->|];
      [|rewrite lookup_insert_ne by done; apply (li_queue Hl)].
    rewrite lookup_insert_eq. by destruct (send_resume n f).
  - intros i. destruct (decide (i = id)) as [->|];
      [|rewrite lookup_insert_ne by done; apply (li_once Hl)].
    rewrite lookup_insert_eq. by destruct (send_resume n f).
  - unfold sending. rewrite Hhd. simpl. rewrite lookup_insert_eq. by destruct (send_resume n f).
Qed.

Lemma fail_inv q id f l :
  lock_inv q l -> procs l !! id = Some (Sends f) -> lock_inv q (fail id l).
Proof.
  intros Hl Hid. destruct (sending_at _ _ _ _ Hl Hid) as [Hhd Hs].
  pose proof (li_wire Hl) as Hw. rewrite Hs in Hw.
  pose proof (li_once Hl id) as Hon. rewrite Hid in Hon. unfold fail. rewrite Hid.
  split; simpl; [apply (li_mtx Hl)|apply (li_nodup Hl)|..].
  - intros i. destruct (decide (i = id)) as [->|];
      [by rewrite lookup_insert_eq|rewrite lookup_insert_ne by done; apply (li_queue Hl)].
  - intros i. destruct (decide (i = id)) as [->|];
      [by rewrite lookup_insert_eq|rewrite lookup_insert_ne by done; apply (li_once Hl)].
  - unfold sending. rewrite Hhd. simpl. rewrite lookup_insert_eq. by eapply wire_ok_failed.
Qed.

Lemma lock_queue_ok_tail id q i pc :
  NoDup (id :: q) -> i <> id -> head q <> Some i -> queue_ok (id :: q) i pc -> queue_ok q i pc.
Proof. intros Hnd Hne Hhd. destruct pc as [[]|]; cbn [queue_ok]; try done; by apply (Mutex.stands_tail id). Qed.

Lemma leave_inv q id l :
  lock_inv q l -> procs l !! id = Some Leaves ->
  (forall i m, procs l !! i = Some (Waits m) -> message_bytes m <> []) ->
  lock_inv (tail q) (leave id l).
Proof.
  intros Hl Hid Hmsgs. pose proof (li_queue Hl id) as Hq. rewrite Hid in Hq. simpl in Hq.
  destruct q as [|i q]; [done|]. simpl in Hq. simplify_eq. cbn [tail].
  pose proof (li_nodup Hl) as Hnd. pose proof (proj1 (list.NoDup_cons _ _) Hnd) as [Hni Hnd'].
  pose proof (li_wire Hl) as Hw. unfold sending in Hw. simpl in Hw. rewrite Hid in Hw.
  pose proof (li_once Hl id) as Hon. rewrite Hid in Hon.
  unfold leave. rewrite Hid. cbn [Mutex.guard_drop].
  destruct (Mutex.rel_unlock _ _ (li_mtx Hl) ltac:(done)) as [Hwk Hrel].
  destruct (Mutex.unlock (mtx l)) as [woken x]. simpl in Hwk, Hrel. subst woken.
  assert (Hqs : forall i, head q <> Some i -> queue_ok q i (delete id (procs l) !! i)).
  { intros i Hi. destruct (decide (i = id)) as [->|]; [by rewrite lookup_delete_eq|].
    rewrite lookup_delete_ne by done. eapply lock_queue_ok_tail; eauto. apply (li_queue Hl). }
  assert (Hos : forall i, once_ok (delete id (procs l) !! i) (of_id i (begun l))).
  { intros i. destruct (decide (i = id)) as [->|].
    - rewrite lookup_delete_eq. simpl in *. destruct Hon as [m ->]. simpl. lia.
    - rewrite lookup_delete_ne by done. apply (li_once Hl). }
  destruct (head q) as [h|] eqn:Hh.
  - assert (Hhq : h ∈ q) by (destruct q; simplify_eq/=; left).
    assert (Hne : id <> h) by congruence.
    pose proof (li_queue Hl h) as Hqh. pose proof (li_once Hl h) as Hoh.
    unfold grant. simpl. rewrite lookup_delete_ne by done.
    destruct (procs l !! h) as [[m|f| |]|] eqn:Hhid; simpl in Hqh, Hoh.
    + apply lock_begin_send_inv; simpl; eauto.
      * intros i Hi. apply Hqs. congruence.
    + congruence.
    + congruence.
    + done.
    + exfalso. apply Hqh. by right.
  - split; simpl; auto.
    + unfold sending. rewrite Hh. done.
Qed.

(** ** The messages of a client: coroutine [id] sends [ms !! id], once *)

Definition known (ms : list message) (l : t) : Prop :=
  (forall id m, procs l !! id = Some (Waits m) -> ms !! id = Some m) /\
  (forall id, is_Some (procs l !! id) -> id < length ms) /\
  (forall id msg, (id, msg) ∈ begun l -> exists m, ms !! id = Some m /\ msg = message_bytes m).

Definition inv (ms : list message) (l : t) : Prop :=
  Forall (fun m => message_bytes m <> []) ms /\ known ms l /\
  exists q, lock_inv q l /\ (begun l).*1 ++ tail q = seq 0 (length ms).

Lemma known_begin_send ms id m l :
  known ms l -> ms !! id = Some m -> known ms (begin_send id m l).
Proof.
  intros (Hw & Hd & Hb) Hid. split_and!; simpl.
  - intros i m' Hi. apply lookup_insert_Some in Hi as [[<- Hi]|[_ Hi]]; [|auto].
    by destruct (call_send m).
  - intros i Hi. destruct (decide (i = id)) as [->|]; [by eapply lookup_lt_Some|].
    rewrite lookup_insert_ne in Hi by done. auto.
  - intros i msg Hi. apply elem_of_app in Hi as [Hi|Hi]; [auto|].
    apply list_elem_of_singleton in Hi. simplify_eq. eauto.
Qed.

(** A process that is sending goes on, or stops. *)
Lemma known_put ms id pc l l' :
  known ms l -> is_Some (procs l !! id) -> (forall m, pc <> Waits m) ->
  procs l' = <[id := pc]> (procs l) -> begun l' = begun l -> known ms l'.
Proof.
  intros (Hw & Hd & Hb) Hid Hpc E1 E2. unfold known. rewrite E1, E2. split_and!; [|..|done].
  - intros i m Hi. apply lookup_insert_Some in Hi as [[_ Hi]|[_ Hi]]; [by destruct (Hpc m)|auto].
  - intros i Hi. destruct (decide (i = id)) as [->|]; [auto|].
    rewrite lookup_insert_ne in Hi by done. auto.
Qed.

Lemma init_ok : inv [] init.
Proof.
  split_and!; [constructor|split_and!; [done|by intros id []|intros ? ? []%not_elem_of_nil]|].
  exists []. split; [apply init_inv|done].
Qed.

Lemma enter_ok ms m l :
  inv ms l -> message_bytes m <> [] -> inv (ms ++ [m]) (enter (length ms) m l).
Proof.
  intros (Hne & Hk & q & Hl & Hseq) Hm. pose proof Hk as (Hw & Hd & Hb).
  assert (Hnone : procs l !! length ms = None).
  { apply eq_None_not_Some. intros Hs%Hd. lia. }
  assert (Hk' : known (ms ++ [m]) l).
  { split_and!.
    - intros id m' Hid. apply lookup_app_l_Some. auto.
    - intros id Hid. rewrite length_app. specialize (Hd id Hid). lia.
    - intros id msg Hid. destruct (Hb id msg Hid) as (m' & ? & ?). exists m'.
      split; [by apply lookup_app_l_Some|done]. }
  split_and!; [apply Forall_app; by split; [|constructor]| |exists (q ++ [length ms]); split].
  - unfold enter. destruct (Mutex.lock (length ms) (mtx l)) as [[] x].
    + apply known_begin_send; [done|]. by apply list_lookup_middle.
    + destruct Hk' as (Hw' & Hd' & Hb'). split_and!; simpl; [| |done].
      * intros i m' Hi. apply lookup_insert_Some in Hi as [[<- Hi]|[_ Hi]]; [|auto].
        simplify_eq. by apply list_lookup_middle.
      * intros i Hi. destruct (decide (i = length ms)) as [->|]; [rewrite length_app; simpl; lia|].
        rewrite lookup_insert_ne in Hi by done. auto.
  - apply enter_inv; [done|done| |done].
    destruct (of_id (length ms) (begun l)) as [|x xs] eqn:Hof; [done|].
    assert (Hx : x ∈ of_id (length ms) (begun l)) by (rewrite Hof; left).
    unfold of_id in Hx. apply list_elem_of_omap in Hx as ([i y] & Hy & Heq).
    case_bool_decide; simplify_eq. destruct (Hb _ _ Hy) as (m' & Hm' & _).
    apply lookup_lt_Some in Hm'. lia.
  - rewrite length_app, seq_app. simpl. rewrite <- Hseq. unfold enter.
    destruct (Mutex.rel_lock _ _ (length ms) (li_mtx Hl)) as [Hnow _].
    destruct (Mutex.lock (length ms) (mtx l)) as [now x]. simpl in Hnow. subst now.
    case_bool_decide as Hq; simpl.
    + subst q. simpl. by rewrite fmap_app, !app_nil_r.
    + destruct q; [done|]. simpl. by rewrite app_assoc.
Qed.

Lemma accept_ok ms id n f l :
  inv ms l -> procs l !! id = Some (Sends f) -> n <= length (mjoin (offer f)) -> inv ms (accept id n l).
Proof.
  intros (Hne & Hk & q & Hl & Hseq) Hid Hn.
  split_and!; [done| |exists q; split; [by eapply accept_inv|unfold accept; by rewrite Hid]].
  unfold accept. rewrite Hid. eapply (known_put _ id); [done|by rewrite Hid| |done|done].
  intros m. by destruct (send_resume n f).
Qed.

Lemma fail_ok ms id f l : inv ms l -> procs l !! id = Some (Sends f) -> inv ms (fail id l).
Proof.
  intros (Hne & Hk & q & Hl & Hseq) Hid.
  split_and!; [done| |exists q; split; [by eapply fail_inv|unfold fail; by rewrite Hid]].
  unfold fail. rewrite Hid. by eapply (known_put _ id); [done|rewrite Hid| |done|done].
Qed.

(** The lock is handed over in order. *)
Lemma leave_order (ms : list message) q id l :
  lock_inv q l -> procs l !! id = Some Leaves -> (begun l).*1 ++ tail q = seq 0 (length ms) ->
  (begun (leave id l)).*1 ++ tail (tail q) = seq 0 (length ms).
Proof.
  intros Hl Hid <-. pose proof (li_queue Hl id) as Hq. rewrite Hid in Hq. simpl in Hq.
  destruct q as [|i q]; [done|]. simpl in Hq. simplify_eq. unfold leave. rewrite Hid. cbn [Mutex.guard_drop].
  destruct (Mutex.rel_unlock _ _ (li_mtx Hl) ltac:(done)) as [Hwk _].
  destruct (Mutex.unlock (mtx l)) as [woken x]. simpl in Hwk. subst woken.
  pose proof (proj1 (list.NoDup_cons _ _) (li_nodup Hl)) as [Hni _].
  destruct q as [|h q]; [done|]. simpl. unfold grant. simpl.
  rewrite lookup_delete_ne by (intros ->; apply Hni; left).
  pose proof (li_queue Hl h) as Hqh.
  destruct (procs l !! h) as [[m|f| |]|] eqn:Hh; simpl in Hqh.
  - simpl. by rewrite fmap_app, <- app_assoc.
  - exfalso. apply Hni. replace id with h by congruence. left.
  - exfalso. apply Hni. replace id with h by congruence. left.
  - done.
  - exfalso. apply Hqh. right. left.
Qed.

Lemma leave_ok ms id l : inv ms l -> procs l !! id = Some Leaves -> inv ms (leave id l).
Proof.
  intros (Hne & Hk & q & Hl & Hseq) Hid. pose proof Hk as (Hw & Hd & Hb).
  assert (Hne' : forall i m, procs l !! i = Some (Waits m) -> message_bytes m <> []).
  { intros i m Hi. apply Hw in Hi. by apply (proj1 (Forall_lookup _ _) Hne i). }
  split_and!; [done| |exists (tail q); split; [by apply leave_inv|by apply leave_order]].
  unfold leave. rewrite Hid. destruct (Mutex.guard_drop true (mtx l)) as [woken x].
  assert (Hk' : known ms (Mk x (delete id (procs l)) (begun l) (failed l) (wire l))).
  { split_and!; simpl; [| |done].
    - intros i m Hi. apply lookup_delete_Some in Hi as [_ Hi]. auto.
    - intros i [pc Hi]. apply lookup_delete_Some in Hi as [_ Hi]. eauto. }
  destruct woken as [h|]; [|done]. unfold grant.
  destruct (procs _ !! h) as [[m|f| |]|] eqn:Hh; try done.
  apply known_begin_send; [done|]. by apply Hk'.
Qed.

(** What the wire holds: the messages in the order of the calls, each once; whole, or cut
    where its own send failed, or, for the last, as far as it got. *)
Definition wire_holds (l : t) : Prop :=
  exists prev last parts, begun l = prev ++ option_list last /\
    Forall2 (part_ok (failed l)) prev parts /\
    match last with
    | None => wire l = mjoin parts /\ forall id f, procs l !! id <> Some (Sends f)
    | Some (id, msg) =>
        exists part f, wire l = mjoin parts ++ part /\ msg = part ++ mjoin (offer f) /\
          mjoin (offer f) <> [] /\ procs l !! id = Some (Sends f) /\
          forall id' f', procs l !! id' = Some (Sends f') -> id' = id
    end.

Lemma inv_wire ms l :
  inv ms l ->
  wire_holds l /\
  exists k, k <= length ms /\ begun l = zip (seq 0 k) (message_bytes <$> take k ms).
Proof.
  intros (Hne & (Hw & Hd & Hb) & q & Hl & Hseq). split.
  - destruct (li_wire Hl) as (prev & parts & Hall & Hcur). exists prev.
    destruct (sending q l) as [[id f]|] eqn:Hs.
    + destruct Hcur as (msg & part & Hbeg & Hwire & Hmsg & Hf). exists (Some (id, msg)), parts.
      split_and!; [done|done|]. unfold sending in Hs. destruct (head q) as [i|] eqn:Hq; [|done].
      destruct (procs l !! i) as [[]|] eqn:Hi; simplify_eq. exists part, f.
      split_and!; try done; [apply Hf|]. intros id' f' Hid'.
      destruct (sending_at _ _ _ _ Hl Hid') as [? _]. congruence.
    + destruct Hcur as [Hbeg Hwire]. exists None, parts. split_and!; [by rewrite app_nil_r|done|done|].
      intros id f Hid. destruct (sending_at _ _ _ _ Hl Hid) as [_ ?]. congruence.
  - exists (length (begun l)). pose proof (f_equal length Hseq) as Hlen.
    rewrite length_app, length_fmap, length_seq in Hlen. split; [lia|].
    apply list_eq. intros k. destruct (begun l !! k) as [[id msg]|] eqn:Hk.
    + pose proof (lookup_lt_Some _ _ _ Hk) as Hlt.
      assert (Hid : id = k).
      { assert (Hf : ((begun l).*1 ++ tail q) !! k = Some id).
        { apply lookup_app_l_Some. by rewrite list_lookup_fmap, Hk. }
        rewrite Hseq in Hf. apply lookup_seq in Hf. lia. }
      subst id. destruct (Hb k msg) as (m & Hm & ->); [by eapply list_elem_of_lookup_2|].
      symmetry. apply lookup_zip_with_Some. exists k, (message_bytes m). split; [done|].
      rewrite lookup_seq, list_lookup_fmap, lookup_take_lt, Hm by done. by split; [split|].
    + symmetry. apply lookup_ge_None. apply lookup_ge_None in Hk.
      rewrite length_zip_with, length_seq. lia.
Qed.

(** With nobody at the lock, every message was sent. *)
Lemma inv_quiet ms l :
  inv ms l -> procs l = ∅ ->
  begun l = zip (seq 0 (length ms)) (message_bytes <$> ms) /\ wire_ok None (begun l) (failed l) (wire l).
Proof.
  intros Hinv Hp. destruct (inv_wire ms l Hinv) as (_ & k & Hk & Hb). destruct Hinv as (_ & _ & q & Hl & Hseq).
  assert (q = []) as ->.
  { destruct q as [|h q]; [done|]. exfalso. pose proof (li_queue Hl h) as Hq. rewrite Hp, lookup_empty in Hq.
    apply Hq. left. }
  apply (f_equal length) in Hseq. rewrite length_app, length_fmap, length_seq in Hseq. simpl in Hseq.
  assert (Hlen : length (begun l) = k).
  { rewrite Hb, length_zip_with_l_eq; rewrite length_seq; [done|]. rewrite length_fmap, length_take. lia. }
  assert (k = length ms) as -> by lia. rewrite firstn_all in Hb. split; [done|]. exact (li_wire Hl).
Qed.

(** A coroutine that is gone stays gone. *)
Lemma grant_gone h id l : procs l !! id = None -> procs (grant h l) !! id = None.
Proof.
  intros Hid. unfold grant. destruct (procs l !! h) as [[]|] eqn:Hh; try done. simpl.
  rewrite lookup_insert_ne; [done|]. congruence.
Qed.

Lemma step_gone id i n l :
  procs l !! id = None ->
  procs (accept i n l) !! id = None /\ procs (fail i l) !! id = None /\ procs (leave i l) !! id = None.
Proof.
  intros Hid. unfold accept, fail, leave.
  destruct (procs l !! i) as [[m|f| |]|] eqn:Hi; try done; split_and!; try done; simpl;
    try (rewrite lookup_insert_ne by congruence; done).
  simpl. destruct (Mutex.unlock (mtx l)) as [[h|] x]; [apply grant_gone|]; simpl;
    apply lookup_delete_None; auto.
Qed.

Lemma enter_gone id i m l : i <> id -> procs l !! id = None -> procs (enter i m l) !! id = None.
Proof.
  intros Hne Hid. unfold enter. destruct (Mutex.lock i (mtx l)) as [[] x]; simpl;
    by rewrite lookup_insert_ne.
Qed.
