(* ===== verification/AlignedBuffer.v ===== *)
(** * Aligned buffers ([server/aligned_buffer.hpp])

    [AlignedBuffer] owns one allocation of [posix_memalign]. The objects of a program and
    the allocations they make, free and pass on by moves; freeing what is not allocated is
    undefined. The handlers use a buffer through [Handlers.aligned_buffer]. *)

From S2P Require Import Prelude.

Open Scope nat_scope.

Definition ptr := nat.

(** [class AlignedBuffer]: [_ptr], null when [None], and [_size]. *)
Record buffer := Mk { ptr_of : option ptr; size_of : nat }.

(** The live objects, and the size of each live allocation. *)
Record store := Store {
  objects : gmap nat buffer;
  allocated : gmap ptr nat;
}.

Definition init : store := Store ∅ ∅.

(** [::free]: of null, of an allocation, or undefined. *)
Definition free (p : option ptr) (s : store) : option store :=
  match p with
  | None => Some s
  | Some p =>
      match allocated s !! p with
      | Some _ => Some (Store (objects s) (delete p (allocated s)))
      | None => None
      end
  end.

Definition put (o : nat) (b : buffer) (s : store) : store := Store (<[o := b]> (objects s)) (allocated s).

(** [AlignedBuffer(size)]: [ret] is the memory [posix_memalign] gives; without it the
    constructor throws and there is no object. *)
Definition construct (o size : nat) (ret : option ptr) (s : store) : outcome store :=
  if bool_decide (size = 0) then Ok (put o (Mk None size) s)
  else
    match ret with
    | None => Throw bad_alloc
    | Some p => Ok (put o (Mk (Some p) size) (Store (objects s) (<[p := size]> (allocated s))))
    end.

(** [~AlignedBuffer]. *)
Definition destroy (o : nat) (b : buffer) (s : store) : option store :=
  match free (ptr_of b) s with
  | Some s => Some (Store (delete o (objects s)) (allocated s))
  | None => None
  end.

(** [AlignedBuffer(AlignedBuffer&&)]. *)
Definition move_construct (o other : nat) (b : buffer) (s : store) : store :=
  put o b (put other (Mk None 0) s).

(** [operator=(AlignedBuffer&&)]. *)
Definition move_assign (o other : nat) (b b' : buffer) (s : store) : option store :=
  if bool_decide (o = other) then Some s
  else
    match free (ptr_of b) s with
    | Some s => Some (put o b' (put other (Mk None 0) s))
    | None => None
    end.

Inductive op :=
  | Construct (o size : nat) (ret : option ptr)
  | Destroy (o : nat)
  | MoveConstruct (o other : nat)
  | MoveAssign (o other : nat).

(** One operation; [None] is undefined behaviour, a use of an object that does not exist
    included. *)
Definition step (x : op) (s : store) : option store :=
  match x with
  | Construct o size ret =>
      Some (match construct o size ret s with Ok s => s | Throw _ => s end)
  | Destroy o => match objects s !! o with Some b => destroy o b s | None => None end
  | MoveConstruct o other =>
      match objects s !! other with Some b => Some (move_construct o other b s) | None => None end
  | MoveAssign o other =>
      match objects s !! o, objects s !! other with
      | Some b, Some b' => move_assign o other b b' s
      | _, _ => None
      end
  end.

Fixpoint run (xs : list op) (s : store) : option store :=
  match xs with
  | [] => Some s
  | x :: xs => match step x s with Some s => run xs s | None => None end
  end.

(** What the language and the allocator see to: an object is made where there is none, and
    used while it lives; memory that is in use is not given out again. *)
Definition op_ok (x : op) (s : store) : Prop :=
  match x with
  | Construct o size ret =>
      objects s !! o = None /\ forall p, ret = Some p -> allocated s !! p = None
  | Destroy o => is_Some (objects s !! o)
  | MoveConstruct o other => objects s !! o = None /\ is_Some (objects s !! other)
  | MoveAssign o other => is_Some (objects s !! o) /\ is_Some (objects s !! other)
  end.

Fixpoint run_ok (xs : list op) (s : store) : Prop :=
  match xs with
  | [] => True
  | x :: xs => op_ok x s /\ forall s', step x s = Some s' -> run_ok xs s'
  end.

(** ** Ownership *)

(** Each allocation has one owner, which knows its size; an object without one is empty. *)
Record owned (s : store) : Prop := {
  ow_object o b : objects s !! o = Some b ->
    match ptr_of b with
    | Some p => allocated s !! p = Some (size_of b) /\ 0 < size_of b
    | None => size_of b = 0
    end;
  ow_unique o1 o2 b1 b2 p : objects s !! o1 = Some b1 -> objects s !! o2 = Some b2 ->
    ptr_of b1 = Some p -> ptr_of b2 = Some p -> o1 = o2;
  ow_owner p n : allocated s !! p = Some n ->
    exists o b, objects s !! o = Some b /\ ptr_of b = Some p;
}.
Arguments ow_object {s}.
Arguments ow_unique {s}.
Arguments ow_owner {s}.

Lemma init_owned : owned init.
Proof. split; simpl; intros *; by rewrite lookup_empty. Qed.

(** An empty object shares no allocation. *)
Lemma empty_unique o s o1 o2 b1 b2 p :
  owned s -> <[o := Mk None 0]> (objects s) !! o1 = Some b1 ->
  <[o := Mk None 0]> (objects s) !! o2 = Some b2 -> ptr_of b1 = Some p -> ptr_of b2 = Some p -> o1 = o2.
Proof.
  intros Hs H1 H2 Hp1 Hp2.
  apply lookup_insert_Some in H1 as [[<- <-]|[_ H1]], H2 as [[<- <-]|[_ H2]]; try done.
  by apply (ow_unique Hs o1 o2 b1 b2 p).
Qed.

(** Dropping the allocation of [o]: the object is empty then. *)
Lemma free_owned o b s :
  owned s -> objects s !! o = Some b ->
  exists s', free (ptr_of b) s = Some s' /\ objects s' = objects s /\ owned (put o (Mk None 0) s').
Proof.
  intros Hs Ho. pose proof (ow_object Hs o b Ho) as Hb. unfold free.
  destruct (ptr_of b) as [p|] eqn:Hp.
  - destruct Hb as [Hp' _]. rewrite Hp'. eexists. split; [done|]. split; [done|].
    assert (Hother : forall o' b', o' <> o -> objects s !! o' = Some b' -> ptr_of b' <> Some p).
    { intros o' b' Hne Ho' Hpb. by apply Hne, (ow_unique Hs o' o b' b p). }
    split; simpl.
    + intros o' b' [[<- <-]|[Hne Ho']]%lookup_insert_Some; [done|].
      pose proof (ow_object Hs o' b' Ho') as Hb'. specialize (Hother o' b' ltac:(done) Ho').
      destruct (ptr_of b') as [p'|]; [|done]. by rewrite lookup_delete_ne by congruence.
    + intros *. by apply empty_unique.
    + intros p0 n [Hne Hp0]%lookup_delete_Some. destruct (ow_owner Hs p0 n Hp0) as (o' & b' & Ho' & Hpo).
      exists o', b'. split; [|done]. rewrite lookup_insert_ne; [done|]. intros <-. congruence.
  - exists s. split; [done|]. split; [done|]. split; simpl.
    + intros o' b' [[<- <-]|[Hne Ho']]%lookup_insert_Some; [done|]. exact (ow_object Hs o' b' Ho').
    + intros *. by apply empty_unique.
    + intros p0 n Hp0. destruct (ow_owner Hs p0 n Hp0) as (o' & b' & Ho' & Hpo).
      exists o', b'. split; [|done]. rewrite lookup_insert_ne; [done|]. intros <-. congruence.
Qed.

(** An empty object can be made where there is none, and removed. *)
Lemma put_empty_owned o s :
  owned s -> objects s !! o = None -> owned (put o (Mk None 0) s).
Proof.
  intros Hs Ho. split; simpl.
  - intros o' b' [[<- <-]|[Hne Ho']]%lookup_insert_Some; [done|]. exact (ow_object Hs o' b' Ho').
  - intros *. by apply empty_unique.
  - intros p0 n Hp0. destruct (ow_owner Hs p0 n Hp0) as (o' & b' & Ho' & Hpo).
    exists o', b'. split; [|done]. rewrite lookup_insert_ne; [done|]. congruence.
Qed.

Lemma remove_empty_owned o s :
  owned (put o (Mk None 0) s) -> owned (Store (delete o (objects s)) (allocated s)).
Proof.
  intros Hs.
  assert (Hin : forall o' b', delete o (objects s) !! o' = Some b' ->
    objects (put o (Mk None 0) s) !! o' = Some b').
  { intros o' b' [Hne Ho']%lookup_delete_Some. simpl. by rewrite lookup_insert_ne. }
  split; simpl.
  - intros o' b' Ho'. exact (ow_object Hs o' b' (Hin _ _ Ho')).
  - intros o1 o2 b1 b2 p H1 H2. exact (ow_unique Hs _ _ _ _ p (Hin _ _ H1) (Hin _ _ H2)).
  - intros p n Hp. destruct (ow_owner Hs p n Hp) as (o' & b' & Ho' & Hpo). simpl in Ho'.
    apply lookup_insert_Some in Ho' as [[<- <-]|[Hne Ho']]; [done|].
    exists o', b'. by rewrite lookup_delete_ne.
Qed.

(** The allocation of [other] becomes that of the empty [o]. *)
Lemma transfer_owned o other b s :
  owned s -> o <> other -> objects s !! o = Some (Mk None 0) -> objects s !! other = Some b ->
  owned (put o b (put other (Mk None 0) s)).
Proof.
  intros Hs Hne Ho Hother.
  assert (Hwhere : forall o' b', <[o := b]> (<[other := Mk None 0]> (objects s)) !! o' = Some b' ->
    o' = o /\ b' = b \/ b' = Mk None 0 \/ o' <> o /\ o' <> other /\ objects s !! o' = Some b').
  { intros o' b' [[<- <-]|[Hn1 [[<- <-]|[Hn2 Ho']]%lookup_insert_Some]]%lookup_insert_Some; auto 6. }
  split; simpl.
  - intros o' b' [[-> ->]|[->|(_ & _ & Ho')]]%Hwhere; [|done|]; by eapply (ow_object Hs).
  - intros o1 o2 b1 b2 p H1%Hwhere H2%Hwhere Hp1 Hp2.
    destruct H1 as [[-> ->]|[->|(? & ? & H1)]], H2 as [[-> ->]|[->|(? & ? & H2)]]; try done.
    + by pose proof (ow_unique Hs other o2 b b2 p Hother H2 Hp1 Hp2).
    + by pose proof (ow_unique Hs o1 other b1 b p H1 Hother Hp1 Hp2).
    + by apply (ow_unique Hs o1 o2 b1 b2 p).
  - intros p n Hp. destruct (ow_owner Hs p n Hp) as (o' & b' & Ho' & Hpo).
    destruct (decide (o' = other)) as [->|Hn].
    + simplify_eq. exists o, b. by rewrite lookup_insert_eq.
    + exists o', b'. rewrite !lookup_insert_ne; [done|congruence|]. intros <-. simplify_eq.
Qed.

Lemma construct_owned o size ret s :
  owned s -> op_ok (Construct o size ret) s ->
  owned (match construct o size ret s with Ok s => s | Throw _ => s end).
Proof.
  intros Hs [Ho Hret]. unfold construct. case_bool_decide as Hz; [subst; by apply put_empty_owned|].
  destruct ret as [p|]; [|done]. specialize (Hret p eq_refl).
  assert (Hnone : forall o' b', objects s !! o' = Some b' -> ptr_of b' <> Some p).
  { intros o' b' Ho' Hp. pose proof (ow_object Hs o' b' Ho') as Hb. rewrite Hp in Hb. destruct Hb. congruence. }
  split; simpl.
  - intros o' b' [[<- <-]|[Hne Ho']]%lookup_insert_Some; simpl.
    + rewrite lookup_insert_eq. split; [done|lia].
    + pose proof (ow_object Hs o' b' Ho') as Hb. specialize (Hnone o' b' Ho').
      destruct (ptr_of b') as [p'|]; [|done]. by rewrite lookup_insert_ne by congruence.
  - intros o1 o2 b1 b2 p0 H1 H2 Hp1 Hp2.
    apply lookup_insert_Some in H1 as [[<- <-]|[Hn1 H1]], H2 as [[<- <-]|[Hn2 H2]]; simplify_eq/=; try done.
    + by destruct (Hnone o2 b2 H2).
    + by destruct (Hnone o1 b1 H1).
    + by apply (ow_unique Hs o1 o2 b1 b2 p0).
  - intros p0 n [[<- <-]|[Hne Hp0]]%lookup_insert_Some.
    + exists o, (Mk (Some p) size). by rewrite lookup_insert_eq.
    + destruct (ow_owner Hs p0 n Hp0) as (o' & b' & Ho' & Hpo). exists o', b'.
      rewrite lookup_insert_ne by congruence. done.
Qed.

Lemma step_owned x s : owned s -> op_ok x s -> exists s', step x s = Some s' /\ owned s'.
Proof.
  intros Hs Hx. destruct x as [o size ret|o|o other|o other]; cbn [step].
  - eexists. split; [done|]. by apply construct_owned.
  - destruct Hx as [b Ho]. rewrite Ho. unfold destroy.
    destruct (free_owned o b s Hs Ho) as (s' & -> & Hobj & Hs'). eexists. split; [done|].
    by apply remove_empty_owned.
  - destruct Hx as [Ho [b Hb]]. rewrite Hb. eexists. split; [done|]. unfold move_construct.
    assert (Hne : o <> other) by congruence.
    pose proof (put_empty_owned o s Hs Ho) as Hs1.
    pose proof (transfer_owned o other b (put o (Mk None 0) s) Hs1 Hne) as Htr.
    unfold put in *. simpl in *. rewrite lookup_insert_eq, lookup_insert_ne in Htr by done.
    specialize (Htr eq_refl Hb). rewrite (insert_insert_ne _ other o), insert_insert_eq in Htr by done.
    exact Htr.
  - destruct Hx as [[b Hb] [b' Hb']]. rewrite Hb, Hb'. unfold move_assign.
    case_bool_decide as Hne; [by eauto|].
    destruct (free_owned o b s Hs Hb) as (s' & -> & Hobj & Hs'). eexists. split; [done|].
    pose proof (transfer_owned o other b' _ Hs' Hne) as Htr.
    unfold put in *. simpl in *. rewrite lookup_insert_eq, lookup_insert_ne, Hobj in Htr by done.
    specialize (Htr eq_refl Hb'). rewrite (insert_insert_ne _ other o), insert_insert_eq in Htr by done.
    by rewrite Hobj.
Qed.

Lemma run_owned xs s : owned s -> run_ok xs s -> exists s', run xs s = Some s' /\ owned s'.
Proof.
  revert s. induction xs as [|x xs IH]; intros s Hs Hok; simpl; [by eauto|].
  destruct Hok as [Hx Hrest]. destruct (step_owned x s Hs Hx) as (s' & Hstep & Hs').
  rewrite Hstep. auto.
Qed.

(** C38: the memory of the aligned buffers is freed exactly once. Whatever objects a program
    makes, moves, assigns to each other or to themselves, and destroys, and whichever
    allocations fail: no destructor or assignment frees memory twice or memory it does not
    own; each allocation belongs to one object, which knows its size, and an object without
    one has size 0, a moved-from one included; when the last object is gone, so is the
    last allocation. *)
Theorem buffers_freed_once (xs : list op) :
  run_ok xs init ->
  exists s, run xs init = Some s /\
    (forall o b, objects s !! o = Some b ->
       match ptr_of b with
       | Some p => allocated s !! p = Some (size_of b) /\
           forall o' b', objects s !! o' = Some b' -> ptr_of b' = Some p -> o' = o
       | None => size_of b = 0
       end) /\
    (objects s = ∅ -> allocated s = ∅).
Proof.
  intros Hok. destruct (run_owned xs init init_owned Hok) as (s & Hrun & Hs). exists s.
  split; [done|]. split.
  - intros o b Ho. pose proof (ow_object Hs o b Ho) as Hb. destruct (ptr_of b) as [p|] eqn:Hp; [|done].
    split; [apply Hb|]. intros o' b' Ho' Hp'. by apply (ow_unique Hs o' o b' b p).
  - intros Hempty. apply map_empty. intros p. apply eq_None_not_Some. intros [n Hp].
    destruct (ow_owner Hs p n Hp) as (o & b & Ho & _). by rewrite Hempty, lookup_empty in Ho.
Qed.

(** A buffer is moved, assigned over another, and everything is destroyed. *)
Lemma buffers_freed_once_witness :
  let xs := [Construct 0 512 (Some 7); MoveConstruct 1 0; Construct 2 4096 (Some 8); MoveAssign 2 1;
             MoveAssign 2 2; Destroy 0; Destroy 1; Destroy 2; Construct 3 512 None] in
  run xs init = Some (Store ∅ ∅) /\ exists s, run xs init = Some s /\ (objects s = ∅ -> allocated s = ∅).
Proof.
  split; [by vm_compute|].
  destruct (buffers_freed_once [Construct 0 512 (Some 7); MoveConstruct 1 0; Construct 2 4096 (Some 8);
    MoveAssign 2 1; MoveAssign 2 2; Destroy 0; Destroy 1; Destroy 2; Construct 3 512 None])
    as (s & Hrun & _ & Hfreed).
  - repeat (split; [vm_compute; repeat split; try (by eexists); intros ? [= <-]; done
                   |intros s' Hs'; vm_compute in Hs'; injection Hs' as <-]). done.
  - exists s. split; [exact Hrun|exact Hfreed].
Defined.
