(* ===== verification/Handlers.v ===== *)
(** * The request handlers of a connection ([server/session.cpp], lines 51-126)

    [send_error], [handle_write], [handle_read] and [tracked] as coroutines sharing the
    send mutex and the wait group of their connection. A [pool] is that shared state with
    the frames of the live handlers, and, for the statements, the history of what the
    handlers were asked, what their I/O returned and what the socket accepted. Every
    operation runs one handler from one suspension point to the next. *)

From S2P Require Import Prelude Protocol Sync RecvStream Queue Wire.

Open Scope nat_scope.

(** Which handler coroutine, with its parameters and its buffer. *)
Inductive job :=
  | HandleWrite (cid offset : Z) (payload : bytes) (durable : bool)
  | HandleRead (cid offset : Z) (buf : bytes)
  | SendError (cid err : Z).

(** Where the coroutine is suspended, or about to run. *)
Inductive handler_pc :=
  | AtIo                               (** in [pread], [pwrite] or [pwrite_dsync] *)
  | AtLock (resp : EasyBDResponseHeader) (** in [lock_guard(send_mtx)] *)
  | AtSend (f : send_frame)            (** in [send_all], holding the guard *)
  | AtUnlock                           (** leaving the scope of the guard *)
  | AtDone                             (** back in [tracked], before [wg.done()] *)
  | AtUB.                              (** [send_all] went past its [iovec]s *)

Record handler := MkHandler {
  hd_job : job;
  hd_pc : handler_pc;
}.

(** The queue operation on the backing file a handler awaits. *)
Inductive io_call :=
  | Pread (size : nat) (offset : Z)
  | Pwrite (data : bytes) (offset : Z)
  | PwriteDsync (data : bytes) (offset : Z).

(** What the file I/O of a handler ends with: the count written, or the bytes read. *)
Inductive io_result :=
  | IoWrite (r : outcome nat)
  | IoRead (r : outcome bytes).

(** The shared state ([send_mtx], [wg], the live coroutine frames, numbered in spawn
    order) and the history. *)
Record pool := Pool {
  mtx : Mutex.t;
  wg : WaitGroup.t;
  handlers : gmap nat handler;
  next : nat;
  spawned : list request;            (** requests spawned, in order *)
  io_log : list (nat * io_result);   (** file I/O completed *)
  begun : list (nat * bytes);        (** responses begun, in order *)
  failed : list nat;                 (** handlers whose send failed *)
  wire : bytes;                      (** bytes the socket accepted *)
}.

Definition pool_init : pool := Pool Mutex.init WaitGroup.init ∅ 0 [] [] [] [] [].

Section handlers.
Context `{NativeEndian}.

(** The memory the [posix_memalign] of handler [id] returns, or its failure. *)
Context (posix_memalign : nat -> nat -> option bytes).

(** [AlignedBuffer(size)]. *)
Definition aligned_buffer (id size : nat) : outcome bytes :=
  if bool_decide (size = 0) then Ok []
  else match posix_memalign id size with
       | Some mem => Ok mem
       | None => Throw bad_alloc
       end.

Definition put (id : nat) (h : handler) (p : pool) : pool :=
  Pool (mtx p) (wg p) (<[id := h]> (handlers p)) (next p)
    (spawned p) (io_log p) (begun p) (failed p) (wire p).

Definition set_mtx (m : Mutex.t) (p : pool) : pool :=
  Pool m (wg p) (handlers p) (next p)
    (spawned p) (io_log p) (begun p) (failed p) (wire p).

(** The history. *)
Definition log_io (id : nat) (r : io_result) (p : pool) : pool :=
  Pool (mtx p) (wg p) (handlers p) (next p)
    (spawned p) (io_log p ++ [(id, r)]) (begun p) (failed p) (wire p).

Definition log_begun (id : nat) (msg : bytes) (p : pool) : pool :=
  Pool (mtx p) (wg p) (handlers p) (next p)
    (spawned p) (io_log p) (begun p ++ [(id, msg)]) (failed p) (wire p).

Definition log_failed (id : nat) (p : pool) : pool :=
  Pool (mtx p) (wg p) (handlers p) (next p)
    (spawned p) (io_log p) (begun p) (failed p ++ [id]) (wire p).

Definition log_wire (accepted : bytes) (p : pool) : pool :=
  Pool (mtx p) (wg p) (handlers p) (next p)
    (spawned p) (io_log p) (begun p) (failed p) (wire p ++ accepted).

(** The [send_all] a handler calls with the lock held. *)
Definition send_response (j : job) (resp : EasyBDResponseHeader) : send_state :=
  match j with
  | HandleRead _ _ buf =>
      if bool_decide (0 < resp_res resp)%Z then
        send_all2 (encode_response resp) (take (Z.to_nat (resp_res resp)) buf)
      else send_all (encode_response resp)
  | _ => send_all (encode_response resp)
  end.

(** The bytes of that response. *)
Definition message (j : job) (resp : EasyBDResponseHeader) : bytes :=
  encode_response resp ++
  match j with
  | HandleRead _ _ buf => take (Z.to_nat (resp_res resp)) buf
  | _ => []
  end.

(** Where a handler goes on from [send_all]. *)
Definition after_send (st : send_state) : handler_pc :=
  match st with
  | SendWaits f => AtSend f
  | SendDone => AtUnlock
  | SendUB => AtUB
  end.

(** The handler goes on with the lock held. *)
Definition begin_send (id : nat) (j : job) (resp : EasyBDResponseHeader) (p : pool) : pool :=
  log_begun id (message j resp)
    (put id (MkHandler j (after_send (send_response j resp))) p).

(** [co_await lock_guard(send_mtx)], and the send when the lock is free. *)
Definition acquire (id : nat) (j : job) (resp : EasyBDResponseHeader) (p : pool) : pool :=
  let '(now, m) := Mutex.lock id (mtx p) in
  let p := set_mtx m p in
  if now then begin_send id j resp p else put id (MkHandler j (AtLock resp)) p.

(** [wg.add(); spawn(tracked(t))], up to the start of [t]. *)
Definition spawn_handler (h : handler) (req : request) (p : pool) : pool :=
  Pool (mtx p) (WaitGroup.add 1 (wg p)) (<[next p := h]> (handlers p)) (S (next p))
    (spawned p ++ [req]) (io_log p) (begun p) (failed p) (wire p).

(** [spawn(tracked(handle_write(...)))]: runs to its [pwrite]. *)
Definition handle_write (req : request) (p : pool) : pool :=
  let h := rq_header req in
  spawn_handler
    (MkHandler (HandleWrite (req_cid h) (req_offset h) (rq_payload req)
                  (bool_decide (req_op h = EASYBD_OP_WRITE_SYNC))) AtIo) req p.

(** [spawn(tracked(handle_read(...)))]: runs to its [pread]; without a buffer the
    exception goes straight to [tracked]. *)
Definition handle_read (req : request) (p : pool) : pool :=
  let h := rq_header req in
  match aligned_buffer (next p) (Z.to_nat (req_size h)) with
  | Ok buf => spawn_handler (MkHandler (HandleRead (req_cid h) (req_offset h) buf) AtIo) req p
  | Throw _ =>
      spawn_handler (MkHandler (HandleRead (req_cid h) (req_offset h) []) AtDone) req p
  end.

(** [spawn(tracked(send_error(...)))]: runs to its [lock_guard], and past it. *)
Definition send_error (req : request) (err : Z) (p : pool) : pool :=
  let cid := req_cid (rq_header req) in
  let j := SendError cid err in
  let resp := {| resp_cid := cid; resp_res := (- err)%Z |} in
  acquire (next p) j resp (spawn_handler (MkHandler j (AtLock resp)) req p).

Definition job_cid (j : job) : Z :=
  match j with HandleWrite cid _ _ _ | HandleRead cid _ _ | SendError cid _ => cid end.

(** The call in the [try] block of a handler. *)
Definition file_io (j : job) : option io_call :=
  match j with
  | HandleWrite _ offset payload durable =>
      Some (if durable then PwriteDsync payload offset else Pwrite payload offset)
  | HandleRead _ offset buf => Some (Pread (length buf) offset)
  | SendError _ _ => None
  end.

(** The file I/O of handler [id] completes: the [try] block, then the lock. *)
Definition io_done (id : nat) (r : io_result) (p : pool) : pool :=
  match handlers p !! id with
  | Some (MkHandler (HandleWrite cid offset payload durable as j) AtIo) =>
      match r with
      | IoWrite (Ok written) => acquire id j {| resp_cid := cid; resp_res := i64 (Z.of_nat written) |} (log_io id r p)
      | IoWrite (Throw (system_error e)) => acquire id j {| resp_cid := cid; resp_res := (- e)%Z |} (log_io id r p)
      | IoWrite (Throw _) => put id (MkHandler j AtDone) (log_io id r p)
      | IoRead _ => p
      end
  | Some (MkHandler (HandleRead cid offset buf as j) AtIo) =>
      match r with
      | IoRead (Ok got) =>
          acquire id (HandleRead cid offset (memcpy_at buf 0 got))
            {| resp_cid := cid; resp_res := i64 (Z.of_nat (length got)) |} (log_io id r p)
      | IoRead (Throw (system_error e)) => acquire id j {| resp_cid := cid; resp_res := (- e)%Z |} (log_io id r p)
      | IoRead (Throw _) => put id (MkHandler j AtDone) (log_io id r p)
      | IoWrite _ => p
      end
  | _ => p
  end.

(** The socket accepts [n] bytes of what handler [id] offered. *)
Definition sent (id n : nat) (p : pool) : pool :=
  match handlers p !! id with
  | Some (MkHandler j (AtSend f)) =>
      log_wire (take n (mjoin (offer f)))
        (put id (MkHandler j (after_send (send_resume n f))) p)
  | _ => p
  end.

(** The send of handler [id] throws: the exception leaves the scope of the guard. *)
Definition send_failed (id : nat) (p : pool) : pool :=
  match handlers p !! id with
  | Some (MkHandler j (AtSend f)) =>
      log_failed id (put id (MkHandler j AtUnlock) p)
  | _ => p
  end.

(** Handler [id] is resumed by the mutex. *)
Definition grant (id : nat) (p : pool) : pool :=
  match handlers p !! id with
  | Some (MkHandler j (AtLock resp)) => begin_send id j resp p
  | _ => p
  end.

(** [~MutexGuard] of handler [id]: the next waiter goes on, then [id] returns. *)
Definition release (id : nat) (p : pool) : pool :=
  match handlers p !! id with
  | Some (MkHandler j AtUnlock) =>
      let '(woken, m) := Mutex.guard_drop true (mtx p) in
      let p := put id (MkHandler j AtDone) (set_mtx m p) in
      match woken with
      | Some h => grant h p
      | None => p
      end
  | _ => p
  end.

(** [wg.done()] in [tracked], after which its frame and the handler's are gone; the
    coroutine it resumes is the connection's. *)
Definition finish (id : nat) (p : pool) : option handle * pool :=
  match handlers p !! id with
  | Some (MkHandler j AtDone) =>
      let '(woken, w) := WaitGroup.done (wg p) in
      (woken, Pool (mtx p) w (delete id (handlers p)) (next p)
                (spawned p) (io_log p) (begun p) (failed p) (wire p))
  | _ => (None, p)
  end.
End handlers.

(** What only the connection's coroutine and [wg.done()] change. *)
Definition keeps (p p' : pool) : Prop := spawned p' = spawned p /\ wg p' = wg p.

Section keeps.
Context `{NativeEndian}.

Lemma begin_send_keeps id j resp p : keeps p (begin_send id j resp p).
Proof. done. Qed.

Lemma acquire_keeps id j resp p : keeps p (acquire id j resp p).
Proof. unfold acquire. by destruct (Mutex.lock id (mtx p)) as [[] m]. Qed.

Lemma grant_keeps id p : keeps p (grant id p).
Proof. unfold grant. by repeat case_match. Qed.

Lemma io_done_keeps id r p : keeps p (io_done id r p).
Proof.
  assert (Hacq : forall j resp, keeps p (acquire id j resp (log_io id r p)))
    by (intros; apply (acquire_keeps id _ _ (log_io id r p))).
  unfold io_done. repeat case_match; simplify_eq; try apply Hacq; done.
Qed.

Lemma sent_keeps id n p : keeps p (sent id n p).
Proof. unfold sent. by repeat case_match. Qed.

Lemma send_failed_keeps id p : keeps p (send_failed id p).
Proof. unfold send_failed. by repeat case_match. Qed.

Lemma release_keeps id p : keeps p (release id p).
Proof.
  unfold release. repeat case_match; try done.
  match goal with |- keeps p (grant ?h ?p1) => apply (grant_keeps h p1) end.
Qed.

Lemma send_error_keeps req err p :
  spawned (send_error req err p) = spawned p ++ [req] /\
  wg (send_error req err p) = WaitGroup.add 1 (wg p).
Proof.
  unfold send_error.
  match goal with |- context [acquire ?i ?j ?r ?p1] => destruct (acquire_keeps i j r p1) as [-> ->] end.
  done.
Qed.

Lemma handle_read_keeps posix_memalign req p :
  spawned (handle_read posix_memalign req p) = spawned p ++ [req] /\
  wg (handle_read posix_memalign req p) = WaitGroup.add 1 (wg p).
Proof. unfold handle_read. by case_match. Qed.
End keeps.

(** ** What a handler owes its request *)

(** The file operation a request asks for. *)
Definition request_io (req : request) : io_call :=
  let h := rq_header req in
  if is_write (req_op h) then
    if bool_decide (req_op h = EASYBD_OP_WRITE_SYNC) then PwriteDsync (rq_payload req) (req_offset h)
    else Pwrite (rq_payload req) (req_offset h)
  else Pread (Z.to_nat (req_size h)) (req_offset h).

(** What the file operations can end with: at most the size asked, and errors are
    [errno] values: positive [int]s. *)
Definition io_call_ok (call : io_call) (r : io_result) : Prop :=
  let errno_ok e := forall c, e = system_error c -> (0 < c < 2 ^ 31)%Z in
  match call, r with
  | Pread size _, IoRead (Ok got) => length got <= size
  | Pwrite data _, IoWrite (Ok n) | PwriteDsync data _, IoWrite (Ok n) => n <= length data
  | Pread _ _, IoRead (Throw e) | Pwrite _ _, IoWrite (Throw e)
  | PwriteDsync _ _, IoWrite (Throw e) => errno_ok e
  | _, _ => False
  end.

(** The same of the request the operation is for. *)
Definition io_ok (req : request) (r : io_result) : Prop :=
  match r with
  | IoWrite (Ok n) => is_write (req_op (rq_header req)) = true /\ n <= length (rq_payload req)
  | IoRead (Ok bs) =>
      is_write (req_op (rq_header req)) = false /\ (Z.of_nat (length bs) <= req_size (rq_header req))%Z
  | IoWrite (Throw e) =>
      is_write (req_op (rq_header req)) = true /\ forall c, e = system_error c -> (0 < c < 2 ^ 31)%Z
  | IoRead (Throw e) =>
      is_write (req_op (rq_header req)) = false /\ forall c, e = system_error c -> (0 < c < 2 ^ 31)%Z
  end.

Lemma io_call_ok_request req r : request_wf (rq_header req) -> io_call_ok (request_io req) r -> io_ok req r.
Proof.
  intros (_ & _ & Hs & _). unfold request_io, io_ok.
  destruct (is_write _); [case_bool_decide|]; destruct r as [[]|[]]; simpl; try done.
  intros. split; [done|]. lia.
Qed.

Section contract.
Context `{NativeEndian}.

(** The response to a request whose file operation ended with [r]: the count and, for a
    read, the bytes; or minus [errno]; none when the exception is not a [system_error]. *)
Definition response_to (req : request) (r : io_result) : option bytes :=
  let reply res := encode_response {| resp_cid := req_cid (rq_header req); resp_res := res |} in
  match r with
  | IoWrite (Ok n) => Some (reply (Z.of_nat n))
  | IoRead (Ok bs) => Some (reply (Z.of_nat (length bs)) ++ bs)
  | IoWrite (Throw (system_error e)) | IoRead (Throw (system_error e)) => Some (reply (- e)%Z)
  | _ => None
  end.

(** [msg] answers [req], given the completed file operations [ios] of its handler. *)
Definition answers (req : request) (ios : list io_result) (msg : bytes) : Prop :=
  if oversize req then
    ios = [] /\ msg = encode_response
      {| resp_cid := req_cid (rq_header req); resp_res := (- EMSGSIZE)%Z |}
  else exists r, ios = [r] /\ io_ok req r /\ response_to req r = Some msg.

(** A request that gets no response: its buffer could not be allocated, or its file
    operation threw something else than a [system_error]. *)
Definition dropped (posix_memalign : nat -> nat -> option bytes) (id : nat) (req : request)
    (ios : list io_result) : Prop :=
  oversize req = false /\
  ((ios = [] /\ posix_memalign id (Z.to_nat (req_size (rq_header req))) = None) \/
   exists r, ios = [r] /\ response_to req r = None).
End contract.

(** ** The invariant of the pool

    [q] is the abstract lock: its head holds it, the rest wait. *)

Definition place_of (oh : option handler) : Mutex.place :=
  match hd_pc <$> oh with
  | Some (AtLock _) => Mutex.InLine
  | Some (AtSend _) | Some AtUnlock => Mutex.Holding
  | _ => Mutex.Outside
  end.

Definition queue_ok (q : list handle) (id : nat) (oh : option handler) : Prop :=
  Mutex.stands q id (place_of oh).

(** The handler that is sending, and its frame. *)
Definition sending (q : list handle) (p : pool) : option (nat * send_frame) :=
  match head q with
  | Some id =>
      match hd_pc <$> handlers p !! id with
      | Some (AtSend f) => Some (id, f)
      | _ => None
      end
  | None => None
  end.

(** The wire is the responses begun, one after the other, the last one so far as sent. *)
Definition pool_wire (cur : option (nat * send_frame)) (p : pool) : Prop :=
  wire_ok cur (begun p) (failed p) (wire p).

(** Membership in the list of exempt handlers. *)
Ltac exempt :=
  rewrite ?not_elem_of_cons, ?elem_of_app, ?list_elem_of_singleton in *; destruct_and?;
  try (split; [|assumption]); (assumption || congruence || lia || intuition congruence).

Section invariant.
Context `{NativeEndian} (posix_memalign : nat -> nat -> option bytes).

(** A handler is where its request, its file operations and its responses say. *)
Definition local_ok (id : nat) (req : request) (oh : option handler)
    (ios : list io_result) (msgs : list bytes) : Prop :=
  let answered := exists msg, msgs = [msg] /\ answers req ios msg in
  match oh with
  | Some (MkHandler j AtIo) =>
      oversize req = false /\ file_io j = Some (request_io req) /\
      job_cid j = req_cid (rq_header req) /\ ios = [] /\ msgs = []
  | Some (MkHandler j (AtLock resp)) => msgs = [] /\ answers req ios (message j resp)
  | Some (MkHandler _ (AtSend _)) | Some (MkHandler _ AtUnlock) => answered
  | Some (MkHandler _ AtDone) | None =>
      answered \/ (msgs = [] /\ dropped posix_memalign id req ios)
  | Some (MkHandler _ AtUB) => False
  end.

#[local] Arguments local_ok : simpl never.
#[local] Arguments queue_ok : simpl never.

(** Everything but the wire, the handlers [ex] excepted. *)
Record pool_but (ex : list nat) (q : list handle) (p : pool) : Prop := {
  pi_wg : WaitGroup.remaining (wg p) = Z.of_nat (size (handlers p));
  pi_mtx : Mutex.rel (mtx p) q;
  pi_nodup : NoDup q;
  pi_queue id : id ∉ ex -> queue_ok q id (handlers p !! id);
  pi_next : next p = length (spawned p);
  pi_fresh id : next p <= id ->
    handlers p !! id = None /\ of_id id (io_log p) = [] /\ of_id id (begun p) = [];
  pi_req : Forall request_ok (spawned p);
  pi_local id req : id ∉ ex -> spawned p !! id = Some req ->
    local_ok id req (handlers p !! id) (of_id id (io_log p)) (of_id id (begun p));
}.

Arguments pi_next {ex q p}.
Arguments pi_fresh {ex q p}.
Arguments pi_req {ex q p}.
Arguments pi_wg {ex q p}.
Arguments pi_mtx {ex q p}.
Arguments pi_nodup {ex q p}.
Arguments pi_queue {ex q p}.
Arguments pi_local {ex q p}.

Definition pool_inv (q : list handle) (p : pool) : Prop :=
  pool_but [] q p /\ pool_wire (sending q p) p.

Lemma pool_but_weaken id ex q p : pool_but ex q p -> pool_but (id :: ex) q p.
Proof.
  intros []. split; auto; intros; [apply pi_queue0|apply pi_local0]; exempt.
Qed.

Lemma live_lt ex q p id h : pool_but ex q p -> handlers p !! id = Some h -> id < next p.
Proof.
  intros Hp Hid. destruct (decide (next p <= id)) as [Hge|]; [|lia].
  destruct (pi_fresh Hp id Hge) as [? _]. congruence.
Qed.

Lemma live_request ex q p id h :
  pool_but ex q p -> handlers p !! id = Some h ->
  exists req, spawned p !! id = Some req /\ request_ok req.
Proof.
  intros Hp Hid. pose proof (live_lt _ _ _ _ _ Hp Hid) as Hlt.
  rewrite (pi_next Hp) in Hlt. destruct (lookup_lt_is_Some_2 _ _ Hlt) as [req Hreq].
  exists req. split; [done|]. pose proof (pi_req Hp) as Hall.
  by apply (proj1 (Forall_lookup _ _) Hall _ _ Hreq).
Qed.

(** The exempt handler is where it belongs. *)
Lemma settle id h ex q p :
  pool_but (id :: ex) q p -> handlers p !! id = Some h -> queue_ok q id (Some h) ->
  (forall req, spawned p !! id = Some req ->
     local_ok id req (Some h) (of_id id (io_log p)) (of_id id (begun p))) ->
  pool_but ex q p.
Proof.
  intros [Hwg Hm Hnd Hqs Hn Hf Hr Hl] Hid Hq Hloc. split; auto.
  - intros id' Hne. destruct (decide (id' = id)) as [->|]; [by rewrite Hid|].
    apply Hqs. exempt.
  - intros id' req Hne Hreq. destruct (decide (id' = id)) as [->|]; [rewrite Hid; auto|].
    apply Hl; [exempt|done].
Qed.

Lemma put_but id h ex q p :
  pool_but (id :: ex) q p -> is_Some (handlers p !! id) -> pool_but (id :: ex) q (put id h p).
Proof.
  intros Hp [h0 Hid]. pose proof (live_lt _ _ _ _ _ Hp Hid) as Hlt.
  destruct Hp as [Hwg Hm Hnd Hqs Hn Hf Hr Hl]. split; simpl; auto.
  - by rewrite map_size_insert_Some by eauto.
  - intros id' Hne. rewrite lookup_insert_ne by exempt. auto.
  - intros id' Hge. rewrite lookup_insert_ne by lia. auto.
  - intros id' req Hne Hreq. rewrite lookup_insert_ne by exempt. auto.
Qed.

Lemma log_io_but id r ex q p :
  pool_but (id :: ex) q p -> id < next p -> pool_but (id :: ex) q (log_io id r p).
Proof.
  intros [Hwg Hm Hnd Hqs Hn Hf Hr Hl] Hlt. split; simpl; auto.
  - intros id' Hge. rewrite of_id_snoc_ne by lia. auto.
  - intros id' req Hne Hreq. rewrite of_id_snoc_ne by exempt. auto.
Qed.

Lemma log_begun_but id msg ex q p :
  pool_but (id :: ex) q p -> id < next p -> pool_but (id :: ex) q (log_begun id msg p).
Proof.
  intros [Hwg Hm Hnd Hqs Hn Hf Hr Hl] Hlt. split; simpl; auto.
  - intros id' Hge. rewrite of_id_snoc_ne by lia. auto.
  - intros id' req Hne Hreq. rewrite of_id_snoc_ne by exempt. auto.
Qed.

Lemma log_failed_but ex id q p : pool_but ex q p -> pool_but ex q (log_failed id p).
Proof. intros []. by split. Qed.

Lemma log_wire_but ex d q p : pool_but ex q p -> pool_but ex q (log_wire d p).
Proof. intros []. by split. Qed.

(** Changing the abstract lock without moving anybody but the exempt handlers. *)
Lemma set_mtx_but ex m q q' p :
  pool_but ex q p -> Mutex.rel m q' -> NoDup q' ->
  (forall id' h, id' ∉ ex -> queue_ok q id' h -> queue_ok q' id' h) ->
  pool_but ex q' (set_mtx m p).
Proof. intros [Hwg Hm Hnd Hqs Hn Hf Hr Hl] Hrel Hnd' Hq. split; simpl; auto. Qed.

Lemma spawn_handler_but h req ex q p :
  pool_but ex q p -> request_ok req -> pool_but (next p :: ex) q (spawn_handler h req p).
Proof.
  intros [Hwg Hm Hnd Hqs Hn Hf Hr Hl] Hok. destruct (Hf (next p) ltac:(lia)) as (Hnone & _ & _).
  split; simpl; auto.
  - rewrite map_size_insert_None by done. lia.
  - intros id' Hne. rewrite lookup_insert_ne by exempt. apply Hqs. exempt.
  - rewrite length_app. simpl. lia.
  - intros id' Hge. rewrite lookup_insert_ne by lia. apply Hf. lia.
  - apply Forall_app. auto.
  - intros id' req' Hne Hreq. rewrite lookup_insert_ne by exempt. apply Hl; [exempt|].
    rewrite lookup_app_l in Hreq; [done|]. apply lookup_lt_Some in Hreq.
    rewrite length_app in Hreq. simpl in Hreq. exempt.
Qed.

(** *** The wire *)

Lemma sending_put_head q id h p :
  head q = Some id ->
  sending q (put id h p) = match hd_pc h with AtSend f => Some (id, f) | _ => None end.
Proof. intros Hq. unfold sending. rewrite Hq. simpl. by rewrite lookup_insert_eq. Qed.

Lemma sending_put_ne q id h p : head q <> Some id -> sending q (put id h p) = sending q p.
Proof.
  intros Hq. unfold sending. destruct (head q) as [i|]; [|done]. simpl.
  rewrite lookup_insert_ne; [done|congruence].
Qed.

Lemma sending_outside id q p p' :
  id ∉ q -> (forall i, i <> id -> handlers p' !! i = handlers p !! i) -> sending q p' = sending q p.
Proof.
  intros Hid Heq. unfold sending. destruct q as [|i q]; [done|]. simpl.
  rewrite Heq; [done|]. intros ->. apply Hid. left.
Qed.

(** *** The operations *)

Lemma send_response_sends j resp : sends (message j resp) (send_response j resp).
Proof.
  unfold message, send_response.
  destruct j as [| |]; rewrite ?app_nil_r; try apply send_all_sends.
  case_bool_decide as Hres; [apply send_all2_sends|].
  replace (Z.to_nat (resp_res resp)) with 0 by lia. rewrite take_0, app_nil_r.
  apply send_all_sends.
Qed.

(** A response is never empty, so its send always waits for the socket first. *)
Lemma send_response_waits j resp :
  exists f, send_response j resp = SendWaits f /\ frame_ok f /\ frame_rest f = message j resp.
Proof.
  pose proof (send_response_sends j resp) as Hs.
  destruct (send_response j resp) as [f| |]; simpl in Hs; [by exists f| |done].
  apply (f_equal length) in Hs. unfold message in Hs.
  rewrite length_app, length_encode_response in Hs. done.
Qed.

Lemma begin_send_inv id j resp q p :
  pool_but [id] q p -> is_Some (handlers p !! id) -> head q = Some id -> pool_wire None p ->
  of_id id (begun p) = [] ->
  (forall req, spawned p !! id = Some req -> answers req (of_id id (io_log p)) (message j resp)) ->
  pool_inv q (begin_send id j resp p).
Proof.
  intros Hp Hlive Hq Hw Hmsgs Hans. unfold begin_send.
  destruct (send_response_waits j resp) as (f & -> & Hf & Hrest). simpl after_send.
  destruct Hlive as [h0 Hid]. split.
  - apply (settle id (MkHandler j (AtSend f))).
    + apply log_begun_but; [apply put_but; eauto|]. by apply (live_lt _ _ _ _ _ Hp Hid).
    + simpl. by rewrite lookup_insert_eq.
    + done.
    + intros req Hreq. exists (message j resp). simpl. rewrite of_id_snoc_eq, Hmsgs. auto.
  - change (sending q (log_begun id (message j resp) (put id (MkHandler j (AtSend f)) p)))
      with (sending q (put id (MkHandler j (AtSend f)) p)).
    rewrite sending_put_head by done. by apply wire_ok_begin.
Qed.

Lemma acquire_inv id j resp q p :
  pool_but [id] q p -> is_Some (handlers p !! id) -> id ∉ q -> pool_wire (sending q p) p ->
  of_id id (begun p) = [] ->
  (forall req, spawned p !! id = Some req -> answers req (of_id id (io_log p)) (message j resp)) ->
  exists q', pool_inv q' (acquire id j resp p).
Proof.
  intros Hp Hlive Hid Hw Hmsgs Hans. exists (q ++ [id]). unfold acquire.
  destruct (Mutex.rel_lock _ _ id (pi_mtx Hp)) as [Hnow Hrel].
  destruct (Mutex.lock id (mtx p)) as [now m]. simpl in Hnow, Hrel. subst now.
  assert (Hp' : pool_but [id] (q ++ [id]) (set_mtx m p)).
  { apply (set_mtx_but _ _ _ _ _ Hp Hrel).
    - apply list.NoDup_app. split_and!; [apply (pi_nodup Hp)|set_solver|apply NoDup_singleton].
    - intros id' h Hne. apply Mutex.stands_snoc. exempt. }
  case_bool_decide as Hq.
  - subst q. apply begin_send_inv; auto.
  - split.
    + apply (settle id (MkHandler j (AtLock resp))).
      * by apply put_but.
      * simpl. by rewrite lookup_insert_eq.
      * unfold queue_ok. simpl. destruct q; [done|]. simpl. set_solver.
      * intros req Hreq. split; auto.
    + rewrite sending_put_ne; [|destruct q; simpl in *; set_solver].
      destruct q; done.
Qed.

(** The error response of a handler. *)
Lemma message_error j e cid :
  (0 < e)%Z -> message j {| resp_cid := cid; resp_res := (- e)%Z |} =
    encode_response {| resp_cid := cid; resp_res := (- e)%Z |}.
Proof.
  intros He. unfold message. destruct j as [| |]; rewrite ?app_nil_r; try done. simpl resp_res.
  replace (Z.to_nat (- e)) with 0 by lia. by rewrite take_0, app_nil_r.
Qed.

(** The payloads are small: their sizes survive the trip through [int64_t]. *)
Lemma i64_payload n req :
  oversize req = false -> (Z.of_nat n <= req_size (rq_header req))%Z ->
  i64 (Z.of_nat n) = Z.of_nat n.
Proof.
  unfold oversize. rewrite bool_decide_eq_false. intros Hs Hn.
  rewrite <- (i64_u64 (Z.of_nat n)) at 2 by (change EASYBD_MAX_PAYLOAD_SIZE with 4194304%Z in *; lia).
  unfold i64. pose proof (u64_range (Z.of_nat n)).
  by rewrite (u64_small (u64 (Z.of_nat n))) by done.
Qed.

(** The response a handler prepares after its file operation is the one it owes. *)
Definition responds (r : io_result) (j j' : job) (resp : EasyBDResponseHeader) : Prop :=
  match j, r with
  | HandleWrite cid _ _ _, IoWrite (Ok n) => j' = j /\ resp = {| resp_cid := cid; resp_res := i64 (Z.of_nat n) |}
  | HandleRead cid offset buf, IoRead (Ok got) =>
      j' = HandleRead cid offset (memcpy_at buf 0 got) /\
      resp = {| resp_cid := cid; resp_res := i64 (Z.of_nat (length got)) |}
  | _, IoWrite (Throw (system_error e)) | _, IoRead (Throw (system_error e)) =>
      j' = j /\ resp = {| resp_cid := job_cid j; resp_res := (- e)%Z |}
  | _, _ => False
  end.

Lemma responds_answers req r j j' resp :
  request_ok req -> oversize req = false -> file_io j = Some (request_io req) ->
  job_cid j = req_cid (rq_header req) -> io_ok req r -> responds r j j' resp ->
  answers req [r] (message j' resp).
Proof.
  intros [_ Hreq] Hsize Hio Hcid Hr Hresp. unfold answers. rewrite Hsize. exists r. split; [done|]. split; [done|].
  destruct r as [[n|e]|[got|e]]; unfold responds in Hresp; simpl in Hr.
  - destruct j as [cid off pl d| |]; try done. destruct Hresp as [-> ->]. destruct Hr as [Hw Hn].
    rewrite Hw in Hreq. simpl in Hcid. subst cid. unfold message. simpl. rewrite app_nil_r.
    rewrite (i64_payload n req) by (done || lia). done.
  - destruct e; try (destruct j; done). assert (j' = j /\ resp = {| resp_cid := job_cid j; resp_res := (- code)%Z |}) as [-> ->] by (by destruct j).
    rewrite message_error by (by apply Hr). by rewrite Hcid.
  - destruct j as [|cid off buf|]; try done. destruct Hresp as [-> ->]. destruct Hr as [Hw Hn].
    simpl in Hcid. subst cid. unfold message. simpl resp_res.
    rewrite (i64_payload _ req) by done. rewrite Nat2Z.id. simpl.
    unfold request_io in Hio. rewrite Hw in Hio. simplify_eq/=.
    pose proof (take_memcpy_at buf 0 got) as Htake. simpl in Htake. by rewrite Htake by lia.
  - destruct e; try (destruct j; done). assert (j' = j /\ resp = {| resp_cid := job_cid j; resp_res := (- code)%Z |}) as [-> ->] by (by destruct j).
    rewrite message_error by (by apply Hr). by rewrite Hcid.
Qed.

(** A completed file operation leads to the lock, or straight back to [tracked]. *)
Lemma io_done_cases id r j req p :
  handlers p !! id = Some (MkHandler j AtIo) -> file_io j = Some (request_io req) -> io_ok req r ->
  (exists j' resp, responds r j j' resp /\ io_done id r p = acquire id j' resp (log_io id r p)) \/
  (response_to req r = None /\ io_done id r p = put id (MkHandler j AtDone) (log_io id r p)).
Proof.
  intros Hid Hio Hr. unfold io_done. rewrite Hid. unfold request_io in Hio.
  destruct j as [cid off pl d|cid off buf|]; [| |done]; destruct r as [[n|e]|[got|e]]; simpl in Hr;
    destruct Hr as [Hw _]; rewrite Hw in Hio; simpl in Hio;
    try (exfalso; repeat case_match; discriminate);
    try (destruct e; try (right; split; reflexivity));
    left; eexists _, _; (split; [split; reflexivity|reflexivity]).
Qed.

Lemma io_done_inv id r j req q p :
  pool_inv q p -> handlers p !! id = Some (MkHandler j AtIo) -> spawned p !! id = Some req ->
  io_ok req r -> exists q', pool_inv q' (io_done id r p).
Proof.
  intros [Hp Hw] Hid Hreq Hr. pose proof (pi_local Hp id req (not_elem_of_nil id) Hreq) as Hloc.
  pose proof (pi_queue Hp id (not_elem_of_nil id)) as Hq. rewrite Hid in Hloc, Hq.
  destruct Hloc as (Hsize & Hio & Hcid & Hios & Hmsgs). unfold queue_ok in Hq. simpl in Hq.
  destruct (live_request _ _ _ _ _ Hp Hid) as (req' & Hreq' & Hok). simplify_eq.
  pose proof (live_lt _ _ _ _ _ Hp Hid) as Hlt.
  pose proof (log_io_but id r [] q p (pool_but_weaken id _ _ _ Hp) Hlt) as Hp'.
  destruct (io_done_cases id r j req p Hid Hio Hr) as [(j' & resp & Hresp & ->)|[Hnone ->]].
  - apply (acquire_inv id j' resp q); auto.
    intros req' Hreq'. simpl in Hreq'. simplify_eq. simpl. rewrite of_id_snoc_eq, Hios.
    by eapply responds_answers.
  - exists q. split.
    + apply (settle id (MkHandler j AtDone)).
      * apply put_but; [done|]. simpl. by rewrite Hid.
      * simpl. by rewrite lookup_insert_eq.
      * done.
      * intros req' Hreq'. simpl in Hreq'. simplify_eq. right. simpl.
        rewrite of_id_snoc_eq, Hios. split; [done|]. split; [done|]. right. by exists r.
    + rewrite sending_put_ne; [done|]. destruct q; simpl; [done|]. set_solver.
Qed.

(** A handler that holds the lock moves on and keeps it. *)
Lemma hold_but id j j' pc pc' q p :
  pool_but [] q p -> handlers p !! id = Some (MkHandler j pc) ->
  (match pc with AtSend _ => True | _ => False end) ->
  (match pc' with AtSend _ | AtUnlock => True | _ => False end) ->
  pool_but [] q (put id (MkHandler j' pc') p).
Proof.
  intros Hp Hid Hpc Hpc'. apply (settle id (MkHandler j' pc')).
  - apply put_but; [by apply pool_but_weaken|eauto].
  - simpl. by rewrite lookup_insert_eq.
  - pose proof (pi_queue Hp id (not_elem_of_nil id)) as Hq. rewrite Hid in Hq.
    unfold queue_ok in *. simpl in *. by destruct pc, pc'.
  - intros req Hreq. pose proof (pi_local Hp id req (not_elem_of_nil id) Hreq) as Hloc.
    rewrite Hid in Hloc. unfold local_ok in *. simpl in *. by destruct pc, pc'.
Qed.

Lemma sender_at id j f q p :
  pool_but [] q p -> handlers p !! id = Some (MkHandler j (AtSend f)) ->
  head q = Some id /\ sending q p = Some (id, f).
Proof.
  intros Hp Hid. pose proof (pi_queue Hp id (not_elem_of_nil id)) as Hq.
  rewrite Hid in Hq. unfold queue_ok in Hq. simpl in Hq. split; [done|].
  unfold sending. by rewrite Hq, Hid.
Qed.

Lemma sent_inv id n j f q p :
  pool_inv q p -> handlers p !! id = Some (MkHandler j (AtSend f)) ->
  n <= length (mjoin (offer f)) -> pool_inv q (sent id n p).
Proof.
  intros [Hp Hw] Hid Hn. destruct (sender_at _ _ _ _ _ Hp Hid) as [Hq Hs]. rewrite Hs in Hw.
  unfold sent. rewrite Hid. change (mjoin (offer f)) with (frame_rest f) in *.
  pose proof (wire_ok_sent _ _ _ _ _ _ Hw Hn) as Hw'.
  set (h' := MkHandler j (after_send (send_resume n f))). split.
  - apply log_wire_but. apply (hold_but id j j (AtSend f)); [done|done|done|].
    by destruct (send_resume n f).
  - change (sending q (log_wire (take n (frame_rest f)) (put id h' p)))
      with (sending q (put id h' p)).
    rewrite sending_put_head by done. subst h'. by destruct (send_resume n f).
Qed.

Lemma send_failed_inv id j f q p :
  pool_inv q p -> handlers p !! id = Some (MkHandler j (AtSend f)) ->
  pool_inv q (send_failed id p).
Proof.
  intros [Hp Hw] Hid. destruct (sender_at _ _ _ _ _ Hp Hid) as [Hq Hs]. rewrite Hs in Hw.
  unfold send_failed. rewrite Hid. split.
  - apply log_failed_but. by apply (hold_but id j j (AtSend f)).
  - change (sending q (log_failed id (put id (MkHandler j AtUnlock) p)))
      with (sending q (put id (MkHandler j AtUnlock) p)).
    rewrite sending_put_head by done. by eapply wire_ok_failed.
Qed.

Lemma release_inv id j q p :
  pool_inv q p -> handlers p !! id = Some (MkHandler j AtUnlock) ->
  pool_inv (tail q) (release id p).
Proof.
  intros [Hp Hw] Hid. pose proof (pi_queue Hp id (not_elem_of_nil id)) as Hq.
  rewrite Hid in Hq. unfold queue_ok in Hq. simpl in Hq.
  destruct q as [|i q]; [done|]. simpl in Hq. simplify_eq.
  assert (Hs : sending (id :: q) p = None) by (unfold sending; simpl; by rewrite Hid).
  rewrite Hs in Hw. unfold release. rewrite Hid. cbn [Mutex.guard_drop].
  destruct (Mutex.rel_unlock _ _ (pi_mtx Hp) ltac:(done)) as [Hwk Hrel].
  destruct (Mutex.unlock (mtx p)) as [woken m]. simpl in Hwk, Hrel |- *. subst woken.
  pose proof (pi_nodup Hp) as Hnd. pose proof (proj1 (list.NoDup_cons _ _) Hnd) as [Hni Hnd'].
  set (p1 := put id (MkHandler j AtDone) (set_mtx m p)).
  assert (Hp1 : forall h, head q = h -> pool_but (option_list h) q p1).
  { intros h Hh. apply (settle id (MkHandler j AtDone)).
    - apply put_but; [|simpl; eauto]. apply (set_mtx_but _ _ (id :: q)); auto.
      + apply pool_but_weaken. destruct h; [by apply pool_but_weaken|done].
      + intros id' oh Hex. apply (Mutex.stands_tail id); [done|exempt|].
        rewrite Hh. destruct h; simpl in Hex; exempt.
    - simpl. by rewrite lookup_insert_eq.
    - done.
    - intros req Hreq. pose proof (pi_local Hp id req (not_elem_of_nil id) Hreq) as Hloc.
      rewrite Hid in Hloc. by left. }
  destruct (head q) as [h|] eqn:Hh; simpl.
  - (* the next in line was waiting *)
    assert (Hhq : h ∈ q) by (destruct q; simplify_eq/=; set_solver).
    assert (Hne : h <> id) by congruence.
    pose proof (pi_queue Hp h (not_elem_of_nil h)) as Hqh. unfold queue_ok in Hqh. simpl in Hqh.
    unfold grant, p1. simpl. rewrite lookup_insert_ne by done.
    destruct (handlers p !! h) as [[jh pch]|] eqn:Hhid; simpl in Hqh; [|set_solver].
    destruct pch; simpl in Hqh; try (exfalso; set_solver).
    apply begin_send_inv; auto.
    + by apply (Hp1 (Some h)).
    + simpl. rewrite lookup_insert_ne by done. eauto.
    + destruct (live_request _ _ _ _ _ Hp Hhid) as (req & Hreq & _).
      pose proof (pi_local Hp h req (not_elem_of_nil h) Hreq) as Hloc.
      rewrite Hhid in Hloc. by destruct Hloc.
    + intros req Hreq. simpl in Hreq.
      pose proof (pi_local Hp h req (not_elem_of_nil h) Hreq) as Hloc.
      rewrite Hhid in Hloc. by destruct Hloc.
  - destruct q; [|done]. split; [by apply (Hp1 None)|done].
Qed.

Lemma fresh_not_queued q p : pool_but [] q p -> next p ∉ q.
Proof.
  intros Hp. pose proof (pi_queue Hp (next p) (not_elem_of_nil _)) as Hq.
  by destruct (pi_fresh Hp (next p) ltac:(lia)) as [Hnone _]; rewrite Hnone in Hq.
Qed.

(** A handler spawned away from the lock. *)
Lemma spawn_inv h req q p :
  pool_inv q p -> request_ok req -> (match hd_pc h with AtIo | AtDone => True | _ => False end) ->
  local_ok (next p) req (Some h) [] [] -> pool_inv q (spawn_handler h req p).
Proof.
  intros [Hp Hw] Hok Hpc Hloc. pose proof (fresh_not_queued _ _ Hp) as Hfresh.
  destruct (pi_fresh Hp (next p) ltac:(lia)) as (_ & Hio & Hb). split.
  - apply (settle (next p) h).
    + by apply spawn_handler_but.
    + simpl. by rewrite lookup_insert_eq.
    + unfold queue_ok, place_of. simpl. by destruct (hd_pc h).
    + intros req' Hreq. simpl in Hreq. rewrite (list_lookup_middle _ _ _ _ (pi_next Hp)) in Hreq.
      simplify_eq. simpl. by rewrite Hio, Hb.
  - rewrite (sending_outside (next p) q p); [done|done|]. simpl. intros. by apply lookup_insert_ne.
Qed.

Lemma handle_write_inv req q p :
  pool_inv q p -> request_ok req -> is_write (req_op (rq_header req)) = true ->
  pool_inv q (handle_write req p).
Proof.
  intros Hp Hok Hw. apply spawn_inv; [done|done|done|]. destruct Hok as [_ Hok]. rewrite Hw in Hok.
  unfold local_ok, request_io. rewrite Hw. simpl. by case_bool_decide; split_and!; try apply Hok.
Qed.

Hypothesis posix_memalign_size : forall id n mem, posix_memalign id n = Some mem -> length mem = n.

Lemma aligned_buffer_cases id n :
  match aligned_buffer posix_memalign id n with
  | Ok buf => length buf = n
  | Throw e => e = bad_alloc /\ posix_memalign id n = None
  end.
Proof.
  unfold aligned_buffer. case_bool_decide; [done|].
  destruct (posix_memalign id n) eqn:Hm; [by eapply posix_memalign_size|done].
Qed.

Lemma handle_read_inv req q p :
  pool_inv q p -> request_ok req -> is_write (req_op (rq_header req)) = false ->
  oversize req = false -> pool_inv q (handle_read posix_memalign req p).
Proof.
  intros Hp Hok Hw Hs. unfold handle_read.
  pose proof (aligned_buffer_cases (next p) (Z.to_nat (req_size (rq_header req)))) as Hbuf.
  destruct (aligned_buffer _ _ _) as [buf|e]; apply spawn_inv; try done.
  - unfold local_ok, request_io. rewrite Hw. simpl. rewrite Hbuf. auto.
  - right. split; [done|]. split; [done|]. left. by destruct Hbuf.
Qed.

Lemma send_error_inv req q p :
  pool_inv q p -> request_ok req -> oversize req = true ->
  exists q', pool_inv q' (send_error req EMSGSIZE p).
Proof.
  intros [Hp Hw] Hok Hs. unfold send_error. pose proof (fresh_not_queued _ _ Hp) as Hfresh.
  destruct (pi_fresh Hp (next p) ltac:(lia)) as (_ & Hio & Hb).
  apply (acquire_inv _ _ _ q); try done.
  - by apply spawn_handler_but.
  - simpl. rewrite lookup_insert_eq. eauto.
  - rewrite (sending_outside (next p) q p); [done|done|]. simpl. intros. by apply lookup_insert_ne.
  - intros req' Hreq. simpl in Hreq. rewrite (list_lookup_middle _ _ _ _ (pi_next Hp)) in Hreq.
    simplify_eq. simpl. unfold answers. rewrite Hs. split; [done|].
    unfold message. apply app_nil_r.
Qed.

Lemma finish_inv id j q p :
  pool_inv q p -> handlers p !! id = Some (MkHandler j AtDone) ->
  let '(woken, p') := finish id p in
  pool_inv q p' /\ handlers p' = delete id (handlers p) /\
  (woken, WaitGroup.waiter (wg p')) =
    (if bool_decide (handlers p' = ∅) then (WaitGroup.waiter (wg p), None)
     else (None, WaitGroup.waiter (wg p))).
Proof.
  intros [Hp Hw] Hid. unfold finish. rewrite Hid.
  pose proof (pi_queue Hp id (not_elem_of_nil id)) as Hq. rewrite Hid in Hq.
  change (id ∉ q) in Hq. pose proof (pi_wg Hp) as Hwg.
  pose proof (map_size_delete_Some _ _ (mk_is_Some _ _ Hid)) as Hsize.
  assert (Hpos : 0 < size (handlers p)).
  { destruct (decide (size (handlers p) = 0)) as [H0|]; [|lia].
    apply map_size_empty_inv in H0. by rewrite H0 in Hid. }
  destruct (WaitGroup.done (wg p)) as [woken w] eqn:Hdone.
  assert (Hrem : WaitGroup.remaining w = Z.of_nat (size (delete id (handlers p))) /\
    (woken, WaitGroup.waiter w) =
      (if bool_decide (delete id (handlers p) = ∅) then (WaitGroup.waiter (wg p), None)
       else (None, WaitGroup.waiter (wg p)))).
  { unfold WaitGroup.done in Hdone. rewrite Hwg in Hdone.
    assert (Hiff : (Z.of_nat (size (handlers p)) - 1 <= 0)%Z <-> delete id (handlers p) = ∅).
    { rewrite <- map_size_empty_iff. lia. }
    rewrite <- (bool_decide_ext _ _ Hiff).
    destruct (WaitGroup.waiter (wg p)); [case_bool_decide|]; simplify_eq/=; split;
      try lia; try done. by case_bool_decide. }
  destruct Hrem as [Hrem Hwoken]. split_and!; [|done|exact Hwoken]. split.
  - destruct Hp as [_ Hm Hnd Hqs Hn Hf Hr Hl]. split; simpl; auto.
    + intros id' Hex. destruct (decide (id' = id)) as [->|Hne];
        [by rewrite lookup_delete_eq|rewrite lookup_delete_ne by done; auto].
    + intros id' Hge. destruct (decide (id' = id)) as [->|Hne];
        [|rewrite lookup_delete_ne by done; auto].
      rewrite lookup_delete_eq. destruct (Hf id Hge). congruence.
    + intros id' req Hex Hreq. destruct (decide (id' = id)) as [->|Hne];
        [|rewrite lookup_delete_ne by done; auto].
      rewrite lookup_delete_eq. specialize (Hl id req Hex Hreq). by rewrite Hid in Hl.
  - rewrite (sending_outside id q p); [done|done|]. simpl. intros. by apply lookup_delete_ne.
Qed.

(** *** Progress *)

(** A handler that some completion, or its own next step, moves. *)
Definition can_move (pc : handler_pc) : Prop :=
  match pc with
  | AtIo | AtUnlock | AtDone => True
  | AtSend f => mjoin (offer f) <> []
  | AtLock _ | AtUB => False
  end.

(** While handlers live, one of them can move: they are never all waiting for the lock. *)
Lemma pool_progress q p :
  pool_inv q p -> handlers p <> ∅ ->
  exists id j pc, handlers p !! id = Some (MkHandler j pc) /\ can_move pc.
Proof.
  intros [Hp Hw] Hne. destruct (map_choose _ Hne) as (id & [j pc] & Hid).
  assert (Hsend : forall i j f, handlers p !! i = Some (MkHandler j (AtSend f)) -> mjoin (offer f) <> []).
  { intros i j' f Hi. destruct (sender_at _ _ _ _ _ Hp Hi) as [_ Hs]. rewrite Hs in Hw.
    destruct Hw as (? & ? & _ & ? & ? & _ & _ & _ & [Hf _]). done. }
  destruct (live_request _ _ _ _ _ Hp Hid) as (req & Hreq & _).
  pose proof (pi_local Hp id req (not_elem_of_nil id) Hreq) as Hloc. rewrite Hid in Hloc.
  pose proof (pi_queue Hp id (not_elem_of_nil id)) as Hq. rewrite Hid in Hq. unfold queue_ok in Hq.
  destruct pc as [|resp|f| | |];
    [by exists id, j, AtIo| |by exists id, j, (AtSend f); split; [|eapply Hsend]|by exists id, j, AtUnlock
    |by exists id, j, AtDone|done].
  (* it waits: whoever holds the lock moves *)
  simpl in Hq. destruct q as [|i q]; [by apply not_elem_of_nil in Hq|].
  pose proof (proj1 (list.NoDup_cons _ _) (pi_nodup Hp)) as [Hni _].
  pose proof (pi_queue Hp i (not_elem_of_nil i)) as Hqi. unfold queue_ok in Hqi. simpl in Hqi.
  destruct (handlers p !! i) as [[ji pci]|] eqn:Hi; simpl in Hqi; [|exfalso; apply Hqi; left].
  destruct pci as [|respi|f| | |]; try contradiction; try (exfalso; apply Hqi; left).
  - exists i, ji, (AtSend f). split; [done|by eapply Hsend].
  - by exists i, ji, AtUnlock.
Qed.

(** What is left to do of a handler: an upper bound on its steps. *)
Definition weight (h : handler) : nat :=
  match hd_pc h with
  | AtIo => 21 + match hd_job h with HandleRead _ _ buf => length buf | _ => 0 end
  | AtLock resp => 4 + length (message (hd_job h) resp)
  | AtSend f => 3 + length (frame_rest f)
  | AtUnlock => 2
  | AtDone => 1
  | AtUB => 0
  end.

Definition steps_left (p : pool) : nat := map_sum weight (handlers p).

Lemma steps_left_put id h h' p :
  handlers p !! id = Some h -> steps_left (put id h' p) + weight h = steps_left p + weight h'.
Proof. intros. by apply map_sum_insert. Qed.

Lemma begin_send_steps id h j resp p :
  handlers p !! id = Some h ->
  steps_left (begin_send id j resp p) + weight h = steps_left p + 3 + length (message j resp).
Proof.
  intros Hid. destruct (send_response_waits j resp) as (f & Hst & _ & Hrest). unfold begin_send.
  rewrite Hst. cbn [after_send].
  pose proof (steps_left_put id h (MkHandler j (AtSend f)) p Hid) as Hs.
  unfold weight at 2 in Hs. simpl in Hs. rewrite Hrest in Hs.
  change (steps_left (log_begun ?i ?d ?p')) with (steps_left p'). lia.
Qed.

Lemma acquire_steps id h j resp p :
  handlers p !! id = Some h ->
  steps_left (acquire id j resp p) + weight h <= steps_left p + 4 + length (message j resp).
Proof.
  intros Hid. unfold acquire. destruct (Mutex.lock id (mtx p)) as [[] m].
  - pose proof (begin_send_steps id h j resp (set_mtx m p) Hid) as Hs.
    change (steps_left (set_mtx m p)) with (steps_left p) in Hs. lia.
  - pose proof (steps_left_put id h (MkHandler j (AtLock resp)) (set_mtx m p) Hid) as Hs.
    change (steps_left (set_mtx m p)) with (steps_left p) in Hs. unfold weight at 2 in Hs.
    simpl in Hs. lia.
Qed.

(** A response is at most the header and the buffer. *)
Lemma responds_length call r j j' resp :
  file_io j = Some call -> io_call_ok call r -> responds r j j' resp ->
  length (message j' resp) <= 16 + match j with HandleRead _ _ buf => length buf | _ => 0 end.
Proof.
  intros Hio Hok Hresp.
  unfold message. rewrite length_app, length_encode_response. unfold sizeof_response.
  destruct j as [cid off pl d|cid off buf|]; simpl in Hio; simplify_eq;
    destruct r as [[n|[]]|[got|[]]]; simpl in Hresp; try done; destruct Hresp as [-> ->]; simpl; try lia;
    rewrite length_take; try lia.
  simpl in Hok. rewrite length_memcpy_at by (simpl; lia). lia.
Qed.

Lemma io_done_steps id r j req p :
  handlers p !! id = Some (MkHandler j AtIo) -> file_io j = Some (request_io req) ->
  io_call_ok (request_io req) r -> io_ok req r -> steps_left (io_done id r p) < steps_left p.
Proof.
  intros Hid Hio Hcall Hr.
  destruct (io_done_cases id r j req p Hid Hio Hr) as [(j' & resp & Hresp & ->)|[_ ->]].
  - pose proof (acquire_steps id _ j' resp (log_io id r p) Hid) as Hs.
    pose proof (responds_length _ _ _ _ _ Hio Hcall Hresp) as Hl.
    change (steps_left (log_io id r p)) with (steps_left p) in Hs. unfold weight in Hs. simpl in Hs. lia.
  - pose proof (steps_left_put id _ (MkHandler j AtDone) (log_io id r p) Hid) as Hs.
    change (steps_left (log_io id r p)) with (steps_left p) in Hs. unfold weight in Hs. simpl in Hs. lia.
Qed.

Lemma sent_steps id n j f q p :
  pool_inv q p -> handlers p !! id = Some (MkHandler j (AtSend f)) ->
  0 < n -> n <= length (mjoin (offer f)) -> steps_left (sent id n p) < steps_left p.
Proof.
  intros [Hp Hw] Hid Hpos Hn. destruct (sender_at _ _ _ _ _ Hp Hid) as [_ Hs]. rewrite Hs in Hw.
  destruct Hw as (_ & _ & _ & _ & _ & _ & _ & _ & Hf). change (mjoin (offer f)) with (frame_rest f) in Hn.
  pose proof (send_resume_sends f n Hf Hn) as Hsends. unfold sent. rewrite Hid.
  pose proof (steps_left_put id _ (MkHandler j (after_send (send_resume n f))) p Hid) as Hst.
  change (steps_left (log_wire ?d ?p')) with (steps_left p'). unfold weight in Hst. simpl in Hst.
  destruct (send_resume n f) as [f'| |]; cbn [after_send] in *; [|lia|done].
  destruct Hsends as [_ Hrest]. rewrite Hrest, length_drop in Hst. lia.
Qed.

Lemma send_failed_steps id j f p :
  handlers p !! id = Some (MkHandler j (AtSend f)) -> steps_left (send_failed id p) < steps_left p.
Proof.
  intros Hid. unfold send_failed. rewrite Hid.
  pose proof (steps_left_put id _ (MkHandler j AtUnlock) p Hid) as Hs.
  change (steps_left (log_failed ?i ?p')) with (steps_left p'). unfold weight in Hs. simpl in Hs. lia.
Qed.

Lemma grant_steps id p : steps_left (grant id p) <= steps_left p.
Proof.
  unfold grant. destruct (handlers p !! id) as [[j []]|] eqn:Hid; try lia.
  pose proof (begin_send_steps id _ j resp p Hid) as Hs. unfold weight in Hs. simpl in Hs. lia.
Qed.

Lemma release_steps id j p :
  handlers p !! id = Some (MkHandler j AtUnlock) -> steps_left (release id p) < steps_left p.
Proof.
  intros Hid. unfold release. rewrite Hid. destruct (Mutex.guard_drop true (mtx p)) as [woken m].
  pose proof (steps_left_put id _ (MkHandler j AtDone) (set_mtx m p) Hid) as Hs.
  change (steps_left (set_mtx m p)) with (steps_left p) in Hs. unfold weight in Hs. simpl in Hs.
  destruct woken as [h|]; [|lia].
  pose proof (grant_steps h (put id (MkHandler j AtDone) (set_mtx m p))). lia.
Qed.

Lemma finish_steps id j p :
  handlers p !! id = Some (MkHandler j AtDone) -> steps_left (snd (finish id p)) < steps_left p.
Proof.
  intros Hid. unfold finish. rewrite Hid. destruct (WaitGroup.done (wg p)). simpl.
  unfold steps_left. simpl. rewrite (map_sum_delete weight (handlers p) id _ Hid). unfold weight at 2. simpl. lia.
Qed.

(** *** What the history says *)

(** The responses of a handler: at most one, and the one its request is owed. *)
Lemma begun_answers q p id msgs :
  pool_inv q p -> of_id id (begun p) = msgs ->
  msgs = [] \/ exists req msg, msgs = [msg] /\ spawned p !! id = Some req /\
    answers req (of_id id (io_log p)) msg.
Proof.
  intros [Hp _] <-. destruct (decide (next p <= id)) as [Hge|Hlt].
  { left. by destruct (pi_fresh Hp id Hge) as (_ & _ & ?). }
  rewrite (pi_next Hp) in Hlt. destruct (lookup_lt_is_Some_2 (spawned p) id) as [req Hreq]; [lia|].
  pose proof (pi_local Hp id req (not_elem_of_nil id) Hreq) as Hloc. unfold local_ok in Hloc.
  destruct (handlers p !! id) as [[j []]|]; destruct_and?; auto; try done;
    try (right; destruct Hloc as (msg & ? & ?); exists req, msg; done);
    (destruct Hloc as [(msg & ? & ?)|[? _]]; [right; exists req, msg; done|by left]).
Qed.
End invariant.

Arguments pi_next {_ _ _ _ _}.
Arguments pi_fresh {_ _ _ _ _}.
Arguments pi_req {_ _ _ _ _}.
Arguments pi_wg {_ _ _ _ _}.
Arguments pi_mtx {_ _ _ _ _}.
Arguments pi_nodup {_ _ _ _ _}.
Arguments pi_queue {_ _ _ _ _}.
Arguments pi_local {_ _ _ _ _}.
