(* ===== verification/Session.v ===== *)
(** * A connection of the server ([server/session.cpp], [handle_connection])

    The connection's coroutine, its stream, its reader and the pool of handlers it
    spawns. The state machine is driven by the completions of the event loop and by the
    handlers' own steps, in any order: [apply] runs one of them, [enabled] says which can
    happen. It is parametric in the backend ([RecvStreamLaws]). *)

From S2P Require Import Prelude Protocol Sync RecvStream FramedReader Queue Handlers.

Open Scope nat_scope.

(** Sizing of the [recv_stream]. *)
Definition kRecvEntrySize : nat := 2 ^ 17.
Definition kRecvEntries : nat := 4.

(** Where the connection's coroutine is. *)
Inductive conn_pc :=
  | CTop                                            (** at the head of [for (;;)] *)
  | CHeader                                         (** in [read_exact(sizeof(header))] *)
  | CBody (req : EasyBDRequestHeader) (f : into_frame) (** in [read_exact_into(buf, size)] *)
  | CWait                                           (** in [wg.wait()] *)
  | CEnd                                            (** returned *)
  | CEscaped (e : exn)                              (** left by an exception *)
  | CStuck.                                         (** a read of the loop never ended *)

Section session.
Context `{NativeEndian} {St : Type} `{RecvStream St}.
Context (posix_memalign : nat -> nat -> option bytes).

Record session := Session {
  ss_stream : St;            (** [*stream] *)
  ss_reader : FramedReader;  (** [reader] *)
  ss_pc : conn_pc;
  ss_pool : pool;            (** [send_mtx], [wg] and the handlers *)
}.

(** The connection once its stream is made. *)
Definition session_init (st : St) : session := Session st reader_init CTop pool_init.

(** [handle_connection]: the socket options, then the loop. *)
Definition handle_connection (getfl : sysret) (setfl : Z -> sysret) (setsockopt : sysret) (st : St)
    : outcome session :=
  let! _ := set_nonblocking getfl setfl in
  let! _ := set_tcp_nodelay setsockopt in
  Ok (session_init st).

Definition set_wg (w : WaitGroup.t) (p : pool) : pool :=
  Pool (mtx p) w (handlers p) (next p)
    (spawned p) (io_log p) (begun p) (failed p) (wire p).

(** [co_await wg.wait()], after the loop. *)
Definition drain (st : St) (r : FramedReader) (p : pool) : session :=
  let '(now, w) := WaitGroup.wait me (wg p) in
  Session st r (if now then CEnd else CWait) (set_wg w p).

(** [catch (const std::exception&)]: all but a foreign exception. *)
Definition conn_throw (e : exn) (st : St) (r : FramedReader) (p : pool) : session :=
  match e with
  | foreign => Session st r (CEscaped e) p
  | _ => drain st r p
  end.

(** After [read_exact_into] of a payload. *)
Definition on_body (req : EasyBDRequestHeader)
    (res : status unit * into_frame * FramedReader * St) (p : pool) : session :=
  match res with
  | (Done _, f, r, st) => Session st r CTop (handle_write (Req req (into_dest f)) p)
  | (Suspended, f, r, st) => Session st r (CBody req f) p
  | (Threw e, f, r, st) => conn_throw e st r p
  | (OutOfFuel, f, r, st) => Session st r CStuck p
  end.

(** A parsed header: the body of the loop. *)
Definition on_request (req : EasyBDRequestHeader) (st : St) (r : FramedReader) (p : pool) : session :=
  if bool_decide (req_op req = EASYBD_OP_WRITE) || bool_decide (req_op req = EASYBD_OP_WRITE_SYNC) then
    if bool_decide (EASYBD_MAX_PAYLOAD_SIZE < req_size req)%Z then
      conn_throw (runtime_error "easybd: write request exceeds EASYBD_MAX_PAYLOAD_SIZE") st r p
    else
      match aligned_buffer posix_memalign (next p) (Z.to_nat (req_size req)) with
      | Throw e => conn_throw e st r p
      | Ok buf => on_body req (read_exact_into me buf (Z.to_nat (req_size req)) r st) p
      end
  else if bool_decide (req_op req = EASYBD_OP_READ) then
    Session st r CTop
      (if bool_decide (EASYBD_MAX_PAYLOAD_SIZE < req_size req)%Z
       then send_error (Req req []) EMSGSIZE p
       else handle_read posix_memalign (Req req []) p)
  else conn_throw (runtime_error "easybd: invalid request op") st r p.

(** After [read_exact] of a header. *)
Definition on_header (res : status bytes * FramedReader * St) (p : pool) : session :=
  match res with
  | (Done hdr, r, st) => on_request (decode_request hdr) st r p
  | (Suspended, r, st) => Session st r CHeader p
  | (Threw e, r, st) => conn_throw e st r p
  | (OutOfFuel, r, st) => Session st r CStuck p
  end.

(** The connection's coroutine runs from the head of the loop. *)
Definition conn_run (s : session) : session :=
  match ss_pc s with
  | CTop => on_header (read_exact me sizeof_request (ss_reader s) (ss_stream s)) (ss_pool s)
  | _ => s
  end.

(** The stream resumes the connection's coroutine. *)
Definition conn_resume (s : session) : session :=
  match ss_pc s with
  | CHeader => on_header (read_exact_resume me sizeof_request (ss_reader s) (ss_stream s)) (ss_pool s)
  | CBody req f =>
      on_body req (read_exact_into_resume me (Z.to_nat (req_size req)) f (ss_reader s) (ss_stream s))
        (ss_pool s)
  | _ => s
  end.

Definition set_pool (p : pool) (s : session) : session :=
  Session (ss_stream s) (ss_reader s) (ss_pc s) p.

(** [wg.done()] of a handler, which may resume the connection's coroutine to its end. *)
Definition finish_handler (id : nat) (s : session) : session :=
  let '(woken, p) := finish id (ss_pool s) in
  match woken, ss_pc s with
  | Some _, CWait => Session (ss_stream s) (ss_reader s) CEnd p
  | _, _ => set_pool p s
  end.
End session.
Arguments session : clear implicits.

Section events.
Context `{NativeEndian} {St : Type} `{RecvStreamLaws St}.
Context (posix_memalign : nat -> nat -> option bytes).

(** One completion of the connection's stream. *)
Definition receive (ev : rs_event) (s : session St) : session St :=
  let '(st, woken) := rs_complete ev (ss_stream s) in
  let s := Session st (ss_reader s) (ss_pc s) (ss_pool s) in
  match woken with
  | Some _ => conn_resume posix_memalign s
  | None => s
  end.

(** What can happen next on a connection. *)
Inductive event :=
  | Receive (ev : rs_event)
  | Run                          (** the connection's coroutine goes on *)
  | Io (id : nat) (r : io_result)
  | Accept (id n : nat)          (** the socket takes [n] bytes of a response *)
  | SendFails (id : nat)
  | Release (id : nat)
  | Finish (id : nat).

Definition apply (e : event) (s : session St) : session St :=
  match e with
  | Receive ev => receive ev s
  | Run => conn_run posix_memalign s
  | Io id r => set_pool (io_done id r (ss_pool s)) s
  | Accept id n => set_pool (sent id n (ss_pool s)) s
  | SendFails id => set_pool (send_failed id (ss_pool s)) s
  | Release id => set_pool (release id (ss_pool s)) s
  | Finish id => finish_handler id s
  end.

(** The contract of the kernel, and which coroutine can run. *)
Definition enabled (e : event) (s : session St) : Prop :=
  let at_pc id pc := exists j, handlers (ss_pool s) !! id = Some (MkHandler j pc) in
  match e with
  | Receive ev => ss_pc s <> CEnd /\ rs_event_ok ev (ss_stream s)
  | Run => ss_pc s = CTop
  | Io id r =>
      exists j call, handlers (ss_pool s) !! id = Some (MkHandler j AtIo) /\
        file_io j = Some call /\ io_call_ok call r
  | Accept id n => exists f, at_pc id (AtSend f) /\ n <= length (mjoin (offer f))
  | SendFails id => exists f, at_pc id (AtSend f)
  | Release id => at_pc id AtUnlock
  | Finish id => at_pc id AtDone
  end.

(** The bytes a completion appends to the stream. *)
Definition received (e : event) (s : session St) : bytes :=
  match e with
  | Receive ev => drop (length (rs_queue (ss_stream s))) (rs_queue (fst (rs_complete ev (ss_stream s))))
  | _ => []
  end.

(** From one state, having received some bytes, the connection can be in another. *)
Definition reach : session St -> bytes -> session St -> Prop := ts_reach enabled apply received.
Definition exec : list event -> session St -> bytes * session St := ts_exec apply received.
Definition exec_ok : list event -> session St -> Prop := ts_exec_ok enabled apply.

Lemma exec_reach es s : exec_ok es s -> reach s (exec es s).1 (exec es s).2.
Proof. apply ts_exec_reach. Qed.
End events.

(** ** The requests in a byte stream *)

(** What the reader makes of the bytes that begin a message. *)
Inductive parsed :=
  | NeedMore                              (** the message is not complete *)
  | Refused                               (** the connection has to end here *)
  | Got (req : request) (rest : bytes).

Section parse.
Context `{NativeEndian}.

Definition next_request (bs : bytes) : parsed :=
  if bool_decide (length bs < sizeof_request) then NeedMore
  else
    let h := decode_request (take sizeof_request bs) in
    let rest := drop sizeof_request bs in
    if is_write (req_op h) then
      if bool_decide (EASYBD_MAX_PAYLOAD_SIZE < req_size h)%Z then Refused
      else
        let n := Z.to_nat (req_size h) in
        if bool_decide (length rest < n) then NeedMore
        else Got (Req h (take n rest)) (drop n rest)
    else if bool_decide (req_op h = EASYBD_OP_READ) then Got (Req h []) rest
    else Refused.

Fixpoint parse_loop (fuel : nat) (bs : bytes) : list request :=
  match fuel with
  | O => []
  | S fuel =>
      match next_request bs with
      | Got req rest => req :: parse_loop fuel rest
      | _ => []
      end
  end.

(** The requests of a byte stream, in order, up to the first incomplete or refused one. *)
Definition parse (bs : bytes) : list request := parse_loop (length bs) bs.

(** The header at the head of some bytes. *)
Lemma next_header h tl :
  request_wf h ->
  next_request (encode_request h ++ tl) =
    if is_write (req_op h) then
      if bool_decide (EASYBD_MAX_PAYLOAD_SIZE < req_size h)%Z then Refused
      else if bool_decide (length tl < Z.to_nat (req_size h)) then NeedMore
      else Got (Req h (take (Z.to_nat (req_size h)) tl)) (drop (Z.to_nat (req_size h)) tl)
    else if bool_decide (req_op h = EASYBD_OP_READ) then Got (Req h []) tl
    else Refused.
Proof.
  intros Hwf. unfold next_request. rewrite length_app, length_encode_request.
  rewrite bool_decide_false by lia.
  rewrite take_app_length', drop_app_length' by (by rewrite length_encode_request).
  by rewrite decode_encode_request.
Qed.

Lemma next_image req rest :
  request_ok req -> next_request (request_image req ++ rest) = Got req rest.
Proof.
  intros [Hwf Hok]. unfold request_image. rewrite <- app_assoc, next_header by done.
  destruct req as [h pl]. simpl in *. destruct (is_write (req_op h)).
  - destruct Hok as [Hs Hlen]. unfold oversize in Hs. simpl in Hs. rewrite Hs.
    rewrite <- Hlen, Nat2Z.id, bool_decide_false by (rewrite length_app; lia).
    by rewrite take_app_length, drop_app_length.
  - destruct Hok as [-> ->]. by rewrite bool_decide_true.
Qed.

(** A prefix of [sizeof_request] bytes is a header. *)
Lemma header_image bs :
  sizeof_request <= length bs ->
  request_wf (decode_request (take sizeof_request bs)) /\
  bs = encode_request (decode_request (take sizeof_request bs)) ++ drop sizeof_request bs.
Proof.
  intros Hlen. assert (Ht : length (take sizeof_request bs) = sizeof_request)
    by (rewrite length_take; lia).
  split; [by apply decode_request_wf|]. by rewrite encode_decode_request, take_drop.
Qed.

Lemma next_got bs req rest :
  next_request bs = Got req rest -> bs = request_image req ++ rest /\ request_ok req.
Proof.
  intros Hn. destruct (decide (length bs < sizeof_request)) as [Hlt|Hge].
  { unfold next_request in Hn. by rewrite bool_decide_true in Hn. }
  destruct (header_image bs) as [Hwf Hbs]; [lia|].
  set (h := decode_request (take sizeof_request bs)) in *.
  set (tl := drop sizeof_request bs) in *. clearbody h tl. subst bs.
  rewrite next_header in Hn by done. unfold request_image.
  destruct (is_write (req_op h)) eqn:Hw.
  - case_bool_decide as Hmax; [done|]. case_bool_decide as Hl; [done|]. simplify_eq. simpl.
    split; [by rewrite <- app_assoc, take_drop|]. split; [done|]. simpl. rewrite Hw.
    unfold oversize. simpl. rewrite bool_decide_false by done. split; [done|].
    rewrite length_take. destruct Hwf as (_ & _ & ? & _). lia.
  - case_bool_decide; [|done]. simplify_eq. simpl. rewrite app_nil_r. split; [done|].
    split; [done|]. simpl. by rewrite Hw.
Qed.

Lemma next_refused_app bs d : next_request bs = Refused -> next_request (bs ++ d) = Refused.
Proof.
  intros Hn. destruct (decide (length bs < sizeof_request)) as [Hlt|Hge].
  { unfold next_request in Hn. by rewrite bool_decide_true in Hn. }
  destruct (header_image bs) as [Hwf Hbs]; [lia|].
  set (h := decode_request (take sizeof_request bs)) in *.
  set (tl := drop sizeof_request bs) in *. clearbody h tl. subst bs.
  rewrite <- app_assoc, !next_header in * by done. destruct (is_write (req_op h)).
  - case_bool_decide; [done|]. by case_bool_decide.
  - by case_bool_decide.
Qed.

Lemma parse_loop_fuel n m bs :
  length bs <= n -> length bs <= m -> parse_loop n bs = parse_loop m bs.
Proof.
  revert m bs. induction n as [|n IH]; intros [|m] bs Hn Hm; [done|..].
  1,2: destruct bs; [|simpl in *; lia]; cbn [parse_loop]; by rewrite ?(eq_refl : next_request [] = NeedMore).
  cbn [parse_loop]. destruct (next_request bs) as [| |req rest] eqn:Hnext; [done|done|].
  f_equal. apply next_got in Hnext as [-> _]. rewrite length_app in *.
  pose proof (length_image req). unfold sizeof_request in *. apply IH; lia.
Qed.

(** The stream of well-formed requests parses to them. *)
Lemma parse_images reqs rest :
  Forall request_ok reqs -> parse (images reqs ++ rest) = reqs ++ parse rest.
Proof.
  induction 1 as [|req reqs Hok _ IH]; [done|].
  change (images (req :: reqs)) with (request_image req ++ images reqs).
  rewrite <- app_assoc. cbn [app]. rewrite <- IH. unfold parse.
  pose proof (length_image req) as Hl. unfold sizeof_request in Hl.
  destruct (length (request_image req ++ _)) as [|n] eqn:Hn; rewrite length_app in Hn; [lia|].
  cbn [parse_loop]. rewrite next_image by done. f_equal. apply parse_loop_fuel; lia.
Qed.

Lemma parse_stop bs : next_request bs = NeedMore \/ next_request bs = Refused -> parse bs = [].
Proof. unfold parse. destruct bs; [done|]. cbn [length parse_loop]. by intros [-> | ->]. Qed.
End parse.

(** ** The invariant of a connection *)

Section correctness.
Context `{NativeEndian} {St : Type} `{RecvStreamLaws St}.
Context (posix_memalign : nat -> nat -> option bytes).
Hypothesis posix_memalign_size : forall id n mem, posix_memalign id n = Some mem -> length mem = n.
Implicit Types (st : St) (r : FramedReader) (p : pool) (rest recv : bytes).

(** Why the reader stopped: the stream ended on an incomplete message, it has to refuse
    the next message, or an allocation failed. *)
Definition dead (fin : option Z) (rest : bytes) : Prop :=
  (is_Some fin /\ next_request rest = NeedMore) \/ next_request rest = Refused \/
  exists id n, posix_memalign id n = None.

(** The bytes received are the requests spawned, then what the coroutine is reading. *)
Definition conn_ok (recv : bytes) (s : session St) : Prop :=
  let '(Session st r pc p) := s in
  exists rest, recv = images (spawned p) ++ rest /\
  match pc with
  | CTop => rest = unread r st /\ rs_waiter st = None /\ WaitGroup.waiter (wg p) = None
  | CHeader =>
      rest = unread r st /\ length rest < sizeof_request /\ fr_consumed r = 0 /\
      rs_waiter st = Some me /\ WaitGroup.waiter (wg p) = None
  | CBody req f =>
      let n := Z.to_nat (req_size req) in
      request_wf req /\ is_write (req_op req) = true /\ (req_size req <= EASYBD_MAX_PAYLOAD_SIZE)%Z /\
      rest = encode_request req ++ into_total f r st /\ length (into_total f r st) < n /\
      into_ok n f r /\ into_got f < n /\ length (into_dest f) = n /\
      rs_waiter st = Some me /\ WaitGroup.waiter (wg p) = None
  | CWait =>
      dead (rs_final st) rest /\ rs_waiter st = None /\
      WaitGroup.waiter (wg p) = Some me /\ (0 < WaitGroup.remaining (wg p))%Z
  | CEnd =>
      dead (rs_final st) rest /\ rs_waiter st = None /\
      WaitGroup.waiter (wg p) = None /\ WaitGroup.remaining (wg p) = 0%Z
  | CEscaped _ | CStuck => False
  end.

Definition session_inv (recv : bytes) (s : session St) : Prop :=
  rs_inv (ss_stream s) /\ conn_ok recv s /\ exists q, pool_inv posix_memalign q (ss_pool s).

Lemma set_wg_inv q w p :
  WaitGroup.remaining w = WaitGroup.remaining (wg p) ->
  pool_inv posix_memalign q p -> pool_inv posix_memalign q (set_wg w p).
Proof. intros Hw [[] ?]. split; [|done]. split; simpl; auto. congruence. Qed.

Lemma drain_ok recv rest st r p q :
  rs_inv st -> rs_waiter st = None -> pool_inv posix_memalign q p ->
  WaitGroup.waiter (wg p) = None -> recv = images (spawned p) ++ rest ->
  dead (rs_final st) rest -> session_inv recv (drain st r p).
Proof.
  intros Hst Hw Hp Hwg -> Hdead. pose proof (pi_wg (proj1 Hp)) as Hrem. unfold drain, WaitGroup.wait, WaitGroup.await_ready.
  case_bool_decide as Hle; (split; [done|]); (split; [exists rest; simpl; split; [done|]|exists q; by apply set_wg_inv]).
  - split_and!; try done. lia.
  - split_and!; try done. lia.
Qed.

Lemma conn_throw_ok recv rest e st r p q :
  rs_inv st -> rs_waiter st = None -> pool_inv posix_memalign q p ->
  WaitGroup.waiter (wg p) = None -> recv = images (spawned p) ++ rest ->
  dead (rs_final st) rest -> e <> foreign -> session_inv recv (conn_throw e st r p).
Proof. intros. destruct e; try done; by eapply drain_ok. Qed.

Lemma end_exn_foreign e : end_exn e <> foreign.
Proof. unfold end_exn. by case_bool_decide. Qed.

(** Reading a payload: what is spawned is the write with exactly the bytes behind it. *)
Lemma on_body_ok recv req t st0 res p q :
  rs_inv st0 -> pool_inv posix_memalign q p -> WaitGroup.waiter (wg p) = None ->
  request_wf req -> is_write (req_op req) = true -> (req_size req <= EASYBD_MAX_PAYLOAD_SIZE)%Z ->
  recv = images (spawned p) ++ encode_request req ++ t ->
  into_post me (Z.to_nat (req_size req)) (Z.to_nat (req_size req)) t (rs_final st0) res ->
  session_inv recv (on_body req res p).
Proof.
  intros Hst0 Hp Hwg Hwf Hw Hmax -> Hpost.
  assert (Hneed : length t < Z.to_nat (req_size req) -> next_request (encode_request req ++ t) = NeedMore).
  { intros Hlt. rewrite next_header, Hw by done. by rewrite bool_decide_false, bool_decide_true by lia. }
  destruct res as [[[[[]|e| |] f] r] st]; destruct Hpost as (Hst & Hfin & Hcap & Hpost).
  - destruct Hpost as (Hn & Hgot & Hdest & Hun & Hwt).
    assert (Hpl : into_dest f = take (Z.to_nat (req_size req)) t)
      by (rewrite <- Hdest; by rewrite take_ge by lia).
    assert (Hok : request_ok (Req req (into_dest f))).
    { split; [done|]. simpl. rewrite Hw. unfold oversize. simpl.
      rewrite bool_decide_false by lia. split; [done|].
      destruct Hwf as (_ & _ & ? & _). rewrite Hcap. lia. }
    split; [done|]. split; [|exists q; by apply handle_write_inv].
    exists (unread r st). simpl. rewrite images_snoc. unfold request_image. simpl.
    rewrite Hpl, Hun, <- !app_assoc, take_drop. done.
  - destruct Hpost as (Hlt & Hwt & err & Herr & ->).
    eapply conn_throw_ok; eauto using end_exn_foreign. left. rewrite Hfin, Herr. auto.
  - destruct Hpost as (Hlt & Hnone & Hwt & Hok & Hgot & Ht).
    split; [done|]. split; [|by exists q]. exists (encode_request req ++ t). simpl.
    rewrite Ht. done.
  - done.
Qed.

Lemma spawned_read_ok recv req rest st r p p' q :
  rs_inv st -> rs_waiter st = None -> pool_inv posix_memalign q p' ->
  WaitGroup.waiter (wg p) = None ->
  spawned p' = spawned p ++ [Req req []] /\ wg p' = WaitGroup.add 1 (wg p) ->
  rest = unread r st -> recv = images (spawned p) ++ encode_request req ++ rest ->
  session_inv recv (Session st r CTop p').
Proof.
  intros Hst Hwt Hp Hwg [Hsp Hwg'] -> ->. split; [done|]. split; [|by exists q].
  exists (unread r st). split; [|split_and!; try done; by rewrite Hwg'].
  rewrite Hsp, images_snoc. unfold request_image. simpl. by rewrite app_nil_r, <- app_assoc.
Qed.

(** The body of the loop, on a whole header. *)
Lemma on_request_ok recv req st r p q :
  rs_inv st -> rs_waiter st = None -> pool_inv posix_memalign q p ->
  WaitGroup.waiter (wg p) = None -> request_wf req ->
  recv = images (spawned p) ++ encode_request req ++ unread r st ->
  session_inv recv (on_request posix_memalign req st r p).
Proof.
  intros Hst Hwt Hp Hwg Hwf Hrecv. unfold on_request.
  change (bool_decide (req_op req = EASYBD_OP_WRITE) || _) with (is_write (req_op req)).
  pose proof (next_header req (unread r st) Hwf) as Hnext.
  destruct (is_write (req_op req)) eqn:Hw; [|case_bool_decide as Hr].
  - case_bool_decide as Hmax.
    { eapply conn_throw_ok; eauto. by right; left. }
    pose proof (aligned_buffer_cases _ posix_memalign_size (next p) (Z.to_nat (req_size req))) as Hbuf.
    destruct (aligned_buffer _ _ _) as [buf|e].
    + eapply (on_body_ok _ _ (unread r st) st); eauto; [lia|]. rewrite <- Hbuf.
      apply read_exact_into_spec; auto.
    + destruct Hbuf as [-> Hnone]. eapply conn_throw_ok; eauto. right; right. eauto.
  - assert (Hok : request_ok (Req req [])) by (split; [done|]; simpl; by rewrite Hw).
    case_bool_decide as Hmax.
    + destruct (send_error_inv posix_memalign (Req req []) q p Hp Hok) as [q' Hp'].
      { unfold oversize. by rewrite bool_decide_true. }
      eapply spawned_read_ok; eauto using send_error_keeps.
    + eapply spawned_read_ok; eauto; [|apply handle_read_keeps].
      apply handle_read_inv; try done. unfold oversize. by rewrite bool_decide_false.
  - eapply conn_throw_ok; eauto. by right; left.
Qed.

Lemma on_header_ok recv u st0 res p q :
  rs_inv st0 -> pool_inv posix_memalign q p -> WaitGroup.waiter (wg p) = None ->
  recv = images (spawned p) ++ u -> read_post me sizeof_request u (rs_final st0) res ->
  session_inv recv (on_header posix_memalign res p).
Proof.
  intros Hst0 Hp Hwg Hrecv Hpost.
  assert (Hneed : length u < sizeof_request -> next_request u = NeedMore).
  { intros. unfold next_request. by rewrite bool_decide_true. }
  destruct res as [[[bs|e| |] r] st]; destruct Hpost as (Hst & Hfin & Hpost).
  - destruct Hpost as (Hn & -> & Hun & Hwt). destruct (header_image u Hn) as [Hwf Hu].
    eapply on_request_ok; eauto. by rewrite Hun, <- Hu.
  - destruct Hpost as (Hlt & Hwt & err & Herr & ->).
    eapply conn_throw_ok; eauto using end_exn_foreign. left. rewrite Hfin, Herr. auto.
  - destruct Hpost as (Hlt & Hnone & Hwt & Hcons & Hbuf & Hq).
    split; [done|]. split; [|by exists q]. exists u. split; [done|]. simpl.
    split_and!; try done. unfold unread, fr_rest. by rewrite Hcons, Hbuf, Hq, drop_0, app_nil_r.
  - done.
Qed.

Lemma conn_run_ok recv s : session_inv recv s -> session_inv recv (conn_run posix_memalign s).
Proof.
  destruct s as [st r pc p]. intros (Hst & Hconn & q & Hp). unfold conn_run. simpl in *.
  destruct pc; try (by split; [|split; eauto]).
  destruct Hconn as (rest & Hrecv & -> & Hwt & Hwg).
  eapply (on_header_ok _ (unread r st) st); eauto. by apply read_exact_spec.
Qed.

(** A pool that did not touch the requests and the wait group. *)
Lemma set_pool_ok recv s p q :
  session_inv recv s -> pool_inv posix_memalign q p -> keeps (ss_pool s) p ->
  session_inv recv (set_pool p s).
Proof.
  destruct s as [st r pc p0]. intros (Hst & Hconn & _) Hp [Hsp Hwg]. split; [done|].
  split; [|by exists q]. simpl in *. rewrite Hsp, Hwg. done.
Qed.

Lemma finish_handler_ok recv id j s :
  session_inv recv s -> handlers (ss_pool s) !! id = Some (MkHandler j AtDone) ->
  session_inv recv (finish_handler id s).
Proof.
  destruct s as [st r pc p]. intros (Hst & Hconn & q & Hp) Hid. simpl in *.
  pose proof (finish_inv posix_memalign id j q p Hp Hid) as Hfin. unfold finish_handler. simpl.
  assert (Hsp : spawned (snd (finish id p)) = spawned p)
    by (unfold finish; rewrite Hid; by destruct (WaitGroup.done (wg p))).
  destruct (finish id p) as [woken p'] eqn:Hf. simpl in Hsp. destruct Hfin as (Hp' & Hh & Hwk).
  pose proof (pi_wg (proj1 Hp')) as Hrem.
  rewrite <- Hsp in Hconn. destruct Hconn as (rest & Hrecv & Hconn).
  case_bool_decide as Hempty; injection Hwk as Hwoken Hwaiter.
  - rewrite Hempty, map_size_empty in Hrem. destruct pc; try done; destruct_and!.
    1-3: replace woken with (@None handle) by congruence; split; [done|]; split; [|by exists q];
         exists rest; split; [done|]; split_and!; done.
    + replace woken with (Some me) by congruence. split; [done|]. split; [|by exists q].
      exists rest. split; [done|]. by split_and!.
    + replace woken with (@None handle) by congruence. split; [done|]. split; [|by exists q].
      exists rest. split; [done|]. by split_and!.
  - subst woken. assert (Hne : size (handlers p') <> 0) by (by rewrite map_size_empty_iff).
    split; [done|]. split; [|by exists q]. exists rest. split; [done|]. simpl in *.
    rewrite Hwaiter. destruct pc; try done; destruct_and!; split_and!; try done; try lia.
    (* a finished connection has no handler left *)
    exfalso. pose proof (pi_wg (proj1 Hp)) as Hrem0.
    assert (size (handlers p) = 0) as Hz by lia. apply map_size_empty_inv in Hz.
    by rewrite Hz in Hid.
Qed.

Lemma unread_grows r st st' d :
  rs_queue st' = rs_queue st ++ d -> unread r st' = unread r st ++ d.
Proof. intros Hq. unfold unread. by rewrite Hq, app_assoc. Qed.

Lemma dead_grows fin fin' rest d :
  dead fin rest -> (is_Some fin -> d = []) -> (is_Some fin -> fin' = fin) -> dead fin' (rest ++ d).
Proof.
  intros [[Hf Hn]|[Hr|Ha]] Hd Hf'.
  - left. by rewrite Hd, app_nil_r, Hf'.
  - right; left. by apply next_refused_app.
  - by right; right.
Qed.

Lemma receive_ok recv ev s :
  session_inv recv s -> ss_pc s <> CEnd -> rs_event_ok ev (ss_stream s) ->
  session_inv (recv ++ received (Receive ev) s) (receive posix_memalign ev s).
Proof.
  destruct s as [st r pc p]. intros (Hst & Hconn & q & Hp) Hpc Hev. unfold receive, received.
  simpl in *. pose proof (rs_complete_law ev st Hst Hev) as Hlaw.
  destruct (rs_complete ev st) as [st' woken]. simpl.
  destruct Hlaw as (Hst' & _ & (d & Hq & Hd) & Hfin & Hwoken & Hwt').
  rewrite Hq, drop_app_length. destruct Hconn as (rest & -> & Hconn).
  assert (Hidle : woken = None -> is_Some (rs_waiter st) -> d = [] /\ rs_final st' = None).
  { intros -> Hw. destruct (rs_waiter_idle st Hst Hw) as [Hq0 _].
    destruct (rs_waiter_idle st' Hst') as [Hq1 ?]; [by rewrite Hwt'|].
    rewrite Hq0, Hq1 in Hq. by destruct d. }
  rewrite <- app_assoc. destruct pc as [| |req f| | | |]; try done; destruct_and!.
  - (* running: nobody is woken *)
    assert (woken = None) as -> by (destruct woken as [h|]; [|done]; destruct (Hwoken h) as [Hwk _]; destruct Hwk; congruence).
    split; [done|]. split; [|by exists q]. subst rest. exists (unread r st ++ d).
    split; [done|]. split_and!; try done; [by symmetry; apply unread_grows|congruence].
  - destruct woken as [h|]; simpl.
    + destruct (proj1 (Hwoken h) eq_refl) as [_ Hsome]. subst rest.
      apply (on_header_ok _ (unread r st') st' _ _ q); auto.
      * by rewrite (unread_grows r st st' d).
      * apply read_exact_resume_spec; auto.
        unfold unread, fr_rest in *. destruct (rs_waiter_idle st Hst) as [Hq0 _]; [eauto|].
        replace (fr_consumed r) with 0 in * by congruence.
        rewrite Hq0, app_nil_r, drop_0 in *. done.
    + destruct Hidle as [-> _]; [done|eauto|]. rewrite !app_nil_r in *.
      split; [done|]. split; [|by exists q]. exists rest. split; [done|].
      subst rest. split_and!; try done; [|congruence].
      unfold unread. by rewrite Hq.
  - destruct woken as [h|]; simpl.
    + destruct (proj1 (Hwoken h) eq_refl) as [_ Hsome]. subst rest.
      apply (on_body_ok _ req (into_total f r st') st' _ _ q); auto.
      * unfold into_total. rewrite (unread_grows r st st' d) by done. by rewrite <- !app_assoc.
      * match goal with Hl : length (into_dest f) = _ |- _ => rewrite <- Hl at 2 end.
        by apply read_exact_into_resume_spec.
    + destruct Hidle as [-> _]; [done|eauto|]. rewrite !app_nil_r in *.
      split; [done|]. split; [|by exists q]. exists rest. split; [done|]. subst rest.
      assert (Ht : into_total f r st' = into_total f r st)
        by (unfold into_total, unread; by rewrite Hq).
      simpl. rewrite Ht. split_and!; try done. congruence.
  - assert (woken = None) as -> by (destruct woken as [h|]; [|done]; destruct (Hwoken h) as [Hwk _]; destruct Hwk; congruence).
    split; [done|]. split; [|by exists q]. exists (rest ++ d). split; [done|].
    split_and!; try done; [|congruence]. by eapply dead_grows.
Qed.

(** A stream that ends under a waiting connection makes it leave its loop. *)
Lemma receive_end recv ev s :
  session_inv recv s -> match ss_pc s with CHeader | CBody _ _ => True | _ => False end ->
  rs_event_ok ev (ss_stream s) -> received (Receive ev) s = [] ->
  is_Some (rs_final (rs_complete ev (ss_stream s)).1) ->
  exists st r, receive posix_memalign ev s = drain st r (ss_pool s).
Proof.
  destruct s as [st r pc p]. intros (Hst & (rest & _ & Hconn) & q & Hp) Hpc Hev Hrecv Hend.
  unfold receive, received in *. simpl in *. pose proof (rs_complete_law ev st Hst Hev) as Hlaw.
  destruct (rs_complete ev st) as [st' woken]. simpl in *.
  destruct Hlaw as (Hst' & _ & (d & Hq & _) & _ & Hwoken & Hwt').
  rewrite Hq, drop_app_length in Hrecv. subst d. rewrite app_nil_r in Hq.
  assert (Hu : unread r st' = unread r st) by (unfold unread; by rewrite Hq).
  assert (Hthrow : forall err st0 r0, exists st r, conn_throw (end_exn err) st0 r0 p = drain st r p)
    by (intros err st0 r0; exists st0, r0; unfold end_exn; by case_bool_decide).
  destruct pc as [| |req f| | | |]; try done; destruct_and!;
    (assert (woken = Some me) as -> by (apply Hwoken; auto)); subst rest; unfold conn_resume; simpl.
  - assert (Hbuf : length (fr_buf r) < sizeof_request).
    { unfold unread, fr_rest in *. replace (fr_consumed r) with 0 in * by congruence.
      rewrite drop_0, length_app in *. lia. }
    pose proof (read_exact_resume_spec me sizeof_request r st' Hst' Hwt' ltac:(done) Hbuf ltac:(auto)) as Hpost.
    rewrite Hu in Hpost. destruct (read_exact_resume me sizeof_request r st') as [[[bs|e| |] r'] st0];
      destruct Hpost as (_ & _ & Hpost); [destruct Hpost; lia| | |done].
    + destruct Hpost as (_ & _ & err & _ & ->). apply Hthrow.
    + destruct Hpost as (_ & Hnone & _). rewrite Hnone in Hend. by destruct Hend.
  - pose proof (read_exact_into_resume_spec me (Z.to_nat (req_size req)) f r st' Hst' Hwt' ltac:(done) ltac:(done)
      ltac:(auto)) as Hpost.
    assert (Htot : into_total f r st' = into_total f r st) by (unfold into_total; by rewrite Hu).
    rewrite Htot in Hpost.
    destruct (read_exact_into_resume me (Z.to_nat (req_size req)) f r st') as [[[[[]|e| |] f'] r'] st0];
      destruct Hpost as (_ & _ & _ & Hpost); [destruct Hpost; lia| | |done].
    + destruct Hpost as (_ & _ & err & _ & ->). apply Hthrow.
    + destruct Hpost as (_ & Hnone & _). rewrite Hnone in Hend. by destruct Hend.
Qed.

Lemma apply_ok recv e s :
  session_inv recv s -> enabled e s ->
  session_inv (recv ++ received e s) (apply posix_memalign e s).
Proof.
  intros Hs He. destruct e as [ev| |id r|id n|id|id|id]; cbn [enabled] in He.
  { destruct He. by apply receive_ok. }
  all: cbn [received apply]; rewrite app_nil_r; pose proof Hs as (_ & _ & q & Hp).
  - by apply conn_run_ok.
  - destruct He as (j & call & Hid & Hcall & Hok). pose proof (io_done_keeps id r (ss_pool s)).
    destruct (live_request _ _ _ _ _ _ (proj1 Hp) Hid) as (req & Hreq & Hrok).
    pose proof (pi_local (proj1 Hp) id req (not_elem_of_nil id) Hreq) as Hloc.
    rewrite Hid in Hloc. destruct Hloc as (_ & Hio & _). rewrite Hcall in Hio. simplify_eq.
    apply io_call_ok_request in Hok; [|apply Hrok].
    destruct (io_done_inv posix_memalign id r j req q _ Hp Hid Hreq Hok) as [q' Hp'].
    by eapply set_pool_ok.
  - destruct He as (f & (j & Hid) & Hn). eapply set_pool_ok; [done| |apply sent_keeps].
    by eapply sent_inv.
  - destruct He as (f & j & Hid). eapply set_pool_ok; [done| |apply send_failed_keeps].
    by eapply send_failed_inv.
  - destruct He as (j & Hid). eapply set_pool_ok; [done| |apply release_keeps].
    by eapply release_inv.
  - destruct He as (j & Hid). by eapply finish_handler_ok.
Qed.

Lemma session_init_ok st :
  rs_inv st -> rs_waiter st = None -> session_inv (rs_queue st) (session_init st).
Proof.
  intros Hst Hw. split; [done|]. split.
  - exists (rs_queue st). done.
  - exists []. split; [|by exists [], []]. split; simpl; auto; try done; constructor.
Qed.

Lemma reach_ok st recv s :
  rs_inv st -> rs_waiter st = None -> reach posix_memalign (session_init st) recv s ->
  session_inv (rs_queue st ++ recv) s.
Proof.
  intros Hst Hw. induction 1 as [|recv s e _ IH He].
  - rewrite app_nil_r. by apply session_init_ok.
  - rewrite app_assoc. by apply apply_ok.
Qed.
End correctness.

(** The connection that waits for its stream spawned every complete request. *)
Lemma waiting_parses `{NativeEndian} `{RecvStreamLaws St} posix_memalign recv (s : session St) :
  session_inv posix_memalign recv s ->
  match ss_pc s with CHeader | CBody _ _ => True | _ => False end -> spawned (ss_pool s) = parse recv.
Proof.
  intros (_ & Hconn & q & [Hp _]) Hpc. destruct s as [st' r pc p].
  destruct Hconn as (rest & -> & Hconn). simpl in *. rewrite (parse_images _ rest (pi_req Hp)).
  rewrite parse_stop; [by rewrite app_nil_r|]. destruct pc as [| |req f| | | |]; try done; destruct_and!.
  - left. unfold next_request. by rewrite bool_decide_true.
  - left. subst rest. rewrite next_header by done.
    destruct (is_write (req_op req)); [|done]. by rewrite bool_decide_false, bool_decide_true by lia.
Qed.

(** C1: the connection serves exactly the requests of the bytes it received. At every
    moment of every run, over any backend stream and whatever the interleaving of
    completions, handler steps and mutex hand-overs, the requests for which handlers were
    spawned are a prefix of the reference parse of the received bytes, payloads included.
    When the coroutine waits for the socket they are all of them: no complete request is
    held back. When it has left the loop they still are, unless an allocation failed, and
    it left because the stream ended on an incomplete message or the next message is one
    to refuse (an oversized write, an unknown op). So a write over the limit ends the
    connection, and has no handler and no response, although protocol.h:55-58 promises it
    an [EMSGSIZE] response; it is the oversized read that gets one. No exception escapes, no
    read loop spins, and every handler in its file operation performs the one its request asks for,
    [pwrite_dsync] exactly for the durable write. *)
Theorem session_parses `{NativeEndian} `{RecvStreamLaws St}
    (posix_memalign : nat -> nat -> option bytes) (st : St) (recv : bytes) (s : session St) :
  (forall id n mem, posix_memalign id n = Some mem -> length mem = n) ->
  rs_inv st -> rs_waiter st = None -> reach posix_memalign (session_init st) recv s ->
  let all := rs_queue st ++ recv in
  let reqs := spawned (ss_pool s) in
  reqs `prefix_of` parse all /\
  match ss_pc s with
  | CTop => True
  | CHeader | CBody _ _ => reqs = parse all
  | CWait | CEnd =>
      exists rest, all = images reqs ++ rest /\
        ((exists id n, posix_memalign id n = None) \/
         (reqs = parse all /\
          (next_request rest = Refused \/
           (next_request rest = NeedMore /\ is_Some (rs_final (ss_stream s))))))
  | CEscaped _ | CStuck => False
  end /\
  (forall id j, handlers (ss_pool s) !! id = Some (MkHandler j AtIo) ->
     exists req, reqs !! id = Some req /\ file_io j = Some (request_io req)).
Proof.
  intros Hsize Hst Hw Hreach.
  pose proof (reach_ok posix_memalign Hsize st recv s Hst Hw Hreach) as Hinv.
  pose proof (waiting_parses posix_memalign _ s Hinv) as Hwaits. destruct Hinv as (_ & Hconn & q & [Hp _]).
  destruct s as [st' r pc p]. destruct Hconn as (rest & Hall & Hconn). simpl in *.
  pose proof (parse_images _ rest (pi_req Hp)) as Hparse. rewrite <- Hall in Hparse.
  split_and!.
  - exists (parse rest). done.
  - assert (Hstop : next_request rest = NeedMore \/ next_request rest = Refused ->
      spawned p = parse (rs_queue st ++ recv)) by (intros; rewrite Hparse, parse_stop, app_nil_r; auto).
    destruct pc as [| |req f| | | |]; try done; auto; destruct_and!.
    + exists rest. split; [done|].
      match goal with Hd : dead _ _ _ |- _ => destruct Hd as [[? ?]|[?|?]] end; auto 7.
    + exists rest. split; [done|].
      match goal with Hd : dead _ _ _ |- _ => destruct Hd as [[? ?]|[?|?]] end; auto 7.
  - intros id j Hid. destruct (live_request _ _ _ _ _ _ Hp Hid) as (req & Hreq & _).
    exists req. split; [done|].
    pose proof (pi_local Hp id req (not_elem_of_nil id) Hreq) as Hloc. rewrite Hid in Hloc.
    by destruct Hloc as (_ & ? & _).
Qed.

(** C2: responses are atomic on the wire, and each answers its request. At every moment
    of every run the bytes the socket accepted are the concatenation, in the order the
    responses were begun, of one piece per response: a response whose [send_all] returned
    is there whole, one whose send failed is cut to a prefix, and only the last can be
    unfinished, its handler being the one that is sending: no two responses ever
    interleave. No request gets two responses, and each is the one its request is owed:
    its [cid], and the result of the handler's single file operation, followed by exactly
    the bytes read when there are any, or [-errno]; [-EMSGSIZE] for an oversized read,
    which is answered without any file operation. *)
Theorem session_responses `{NativeEndian} `{RecvStreamLaws St}
    (posix_memalign : nat -> nat -> option bytes) (st : St) (recv : bytes) (s : session St) :
  (forall id n mem, posix_memalign id n = Some mem -> length mem = n) ->
  rs_inv st -> rs_waiter st = None -> reach posix_memalign (session_init st) recv s ->
  let p := ss_pool s in
  (exists prev last parts, begun p = prev ++ option_list last /\
     Forall2 (fun '(id, msg) part => part = msg \/ (id ∈ failed p /\ part `prefix_of` msg)) prev parts /\
     match last with
     | None => wire p = mjoin parts /\
         forall id j f, handlers p !! id <> Some (MkHandler j (AtSend f))
     | Some (id, msg) =>
         exists part rest j f, wire p = mjoin parts ++ part /\ msg = part ++ rest /\ rest <> [] /\
           handlers p !! id = Some (MkHandler j (AtSend f)) /\ mjoin (offer f) = rest /\
           forall id' j' f', handlers p !! id' = Some (MkHandler j' (AtSend f')) -> id' = id
     end) /\
  NoDup (begun p).*1 /\
  (forall id msg, (id, msg) ∈ begun p ->
     exists req, spawned p !! id = Some req /\ answers req (of_id id (io_log p)) msg).
Proof.
  intros Hsize Hst Hw Hreach.
  destruct (reach_ok posix_memalign Hsize st recv s Hst Hw Hreach) as (_ & _ & q & Hinv).
  set (p := ss_pool s) in *. clearbody p. cbv zeta. pose proof Hinv as [Hp Hwire]. split_and!.
  - destruct Hwire as (prev & parts & Hall & Hcur). exists prev.
    assert (Hall' : Forall2 (fun '(id, msg) part => part = msg \/ (id ∈ failed p /\ part `prefix_of` msg)) prev parts).
    { eapply Forall2_impl; [|exact Hall]. by intros [id msg] part. }
    destruct (sending q p) as [[id f]|] eqn:Hs.
    + destruct Hcur as (msg & part & Hb & Hwp & Hmsg & Hf). exists (Some (id, msg)), parts.
      split_and!; [done|done|]. exists part, (frame_rest f).
      unfold sending in Hs. destruct (head q) as [i|] eqn:Hq; [|done].
      destruct (handlers p !! i) as [[j []]|] eqn:Hi; simplify_eq/=.
      exists j, f. split_and!; try done; [apply Hf|]. intros id' j' f' Hid'.
      destruct (sender_at _ _ _ _ _ _ Hp Hid') as [Hq' _]. congruence.
    + destruct Hcur as [Hb Hwp]. exists None, parts. split_and!; [by rewrite app_nil_r|done|done|].
      intros id j f Hid. destruct (sender_at _ _ _ _ _ _ Hp Hid) as [_ ?]. congruence.
  - apply of_id_once. intros id.
    destruct (begun_answers posix_memalign q p id _ Hinv eq_refl) as [-> |(req & msg & -> & _)]; simpl; lia.
  - intros id msg Hmsg. apply of_id_elem in Hmsg.
    destruct (begun_answers posix_memalign q p id _ Hinv eq_refl) as [Hn|(req & msg' & Hn & Hreq & Hans)];
      rewrite Hn in Hmsg; [by apply not_elem_of_nil in Hmsg|].
    apply list_elem_of_singleton in Hmsg as ->. by exists req.
Qed.

(** A step of the handlers, with a socket that takes something. *)
Definition drains `{RecvStreamLaws St} (e : event) (s : session St) : Prop :=
  enabled e s /\ match e with Receive _ | Run => False | Accept _ n => 0 < n | _ => True end.

Fixpoint drain_run `{NativeEndian} `{RecvStreamLaws St} (posix_memalign : nat -> nat -> option bytes)
    (es : list event) (s : session St) : Prop :=
  match es with
  | [] => True
  | e :: es => drains e s /\ drain_run posix_memalign es (apply posix_memalign e s)
  end.

Section draining.
Context `{NativeEndian} {St : Type} `{RecvStreamLaws St}.
Context (posix_memalign : nat -> nat -> option bytes).
Hypothesis posix_memalign_size : forall id n mem, posix_memalign id n = Some mem -> length mem = n.

(** Every such step brings the handlers closer to their end. *)
Lemma drains_decreases recv e (s : session St) :
  session_inv posix_memalign recv s -> drains e s ->
  steps_left (ss_pool (apply posix_memalign e s)) < steps_left (ss_pool s).
Proof.
  intros (_ & _ & q & Hp) [He Hok]. destruct e as [ev| |id r|id n|id|id|id]; try done; cbn [enabled] in He.
  - destruct He as (j & call & Hid & Hcall & Hio).
    destruct (live_request _ _ _ _ _ _ (proj1 Hp) Hid) as (req & Hreq & Hrok).
    pose proof (pi_local (proj1 Hp) id req (not_elem_of_nil id) Hreq) as Hloc.
    rewrite Hid in Hloc. destruct Hloc as (_ & Hf & _). rewrite Hcall in Hf. simplify_eq.
    eapply (io_done_steps id r j req); eauto.
    apply io_call_ok_request; [apply Hrok|done].
  - destruct He as (f & (j & Hid) & Hn). by eapply sent_steps.
  - destruct He as (f & j & Hid). by eapply send_failed_steps.
  - destruct He as (j & Hid). by eapply release_steps.
  - destruct He as (j & Hid). simpl. unfold finish_handler.
    pose proof (finish_steps id j (ss_pool s) Hid) as Hs.
    destruct (finish id (ss_pool s)) as [[h|] p'] eqn:Hf; [|done]. by destruct (ss_pc s).
Qed.

(** A live handler gives a step. *)
Lemma can_move_drains (s : session St) id j pc :
  handlers (ss_pool s) !! id = Some (MkHandler j pc) -> can_move pc ->
  (pc = AtIo -> is_Some (file_io j)) -> exists e, drains e s.
Proof.
  intros Hid Hmove Hio. destruct pc as [|resp|f| | |]; try done.
  - destruct Hio as [call Hcall]; [done|].
    exists (Io id (match call with Pread _ _ => IoRead (Ok []) | _ => IoWrite (Ok 0) end)).
    split; [|done]. exists j, call. split_and!; try done. destruct call; simpl; lia.
  - exists (Accept id (length (mjoin (offer f)))). split; [exists f; split; [by exists j|done]|].
    simpl in *. destruct (mjoin (offer f)); [done|simpl; lia].
  - exists (Release id). split; [by exists j|done].
  - exists (Finish id). split; [by exists j|done].
Qed.

(** Draining never goes back to reading. *)
Definition draining (s : session St) : Prop := ss_pc s = CWait \/ ss_pc s = CEnd.

Lemma drains_draining e s : drains e s -> draining s -> draining (apply posix_memalign e s).
Proof.
  intros [_ He] Hs. destruct s as [st r pc p]. unfold draining in *. simpl in *.
  destruct e; try done. simpl. unfold finish_handler. simpl.
  destruct (finish id p) as [[h|] p'], Hs as [-> | ->]; simpl; auto.
Qed.
End draining.

(** C3: the connection always finishes its drain, and never before its handlers. A
    returned [handle_connection] has no live handler, so no handler can touch the mutex,
    the wait group or the stream of a connection that is gone, and every request it
    accepted was answered exactly once, unless its buffer could not be allocated or its
    file operation threw something else than a [system_error]. While it waits in
    [wg.wait()], with the socket taking at least a byte per send: the number of steps
    before it returns is bounded, whatever their order, and it is never stuck, so it does
    return: no wakeup is lost between the mutex, the wait group and the handlers. *)
Theorem session_drains `{NativeEndian} `{RecvStreamLaws St}
    (posix_memalign : nat -> nat -> option bytes) (st : St) (recv : bytes) (s : session St) :
  (forall id n mem, posix_memalign id n = Some mem -> length mem = n) ->
  rs_inv st -> rs_waiter st = None -> reach posix_memalign (session_init st) recv s ->
  ss_pc s = CWait \/ ss_pc s = CEnd ->
  (ss_pc s = CEnd ->
     handlers (ss_pool s) = ∅ /\
     forall id req, spawned (ss_pool s) !! id = Some req ->
       let ios := of_id id (io_log (ss_pool s)) in
       (exists msg, of_id id (begun (ss_pool s)) = [msg] /\ answers req ios msg) \/
       (of_id id (begun (ss_pool s)) = [] /\ dropped posix_memalign id req ios)) /\
  forall es, drain_run posix_memalign es s ->
    length es <= steps_left (ss_pool s) /\
    let s' := snd (exec posix_memalign es s) in
    ss_pc s' = CEnd \/ exists e, drains e s'.
Proof.
  intros Hsize Hst Hw Hreach Hpc.
  pose proof (reach_ok posix_memalign Hsize st recv s Hst Hw Hreach) as Hinv.
  generalize dependent (rs_queue st ++ recv). clear Hreach. intros all Hinv. split.
  - intros Hend. destruct s as [st' r pc p]. destruct Hinv as (_ & (rest & _ & Hconn) & q & Hp & _).
    simpl in *. subst pc. destruct Hconn as (_ & _ & _ & Hrem).
    pose proof (pi_wg Hp) as Hwg. rewrite Hrem in Hwg.
    assert (Hempty : handlers p = ∅) by (apply map_size_empty_inv; lia). split; [done|].
    intros id req Hreq. pose proof (pi_local Hp id req (not_elem_of_nil id) Hreq) as Hloc.
    by rewrite Hempty, lookup_empty in Hloc.
  - intros es. revert s all Hpc Hinv. induction es as [|e es IH]; intros s all Hpc Hinv; cbn [drain_run exec ts_exec].
    + intros _. simpl. split; [lia|]. destruct Hpc as [Hwait|]; [right|by left].
      destruct s as [st' r pc p]. destruct Hinv as (_ & (rest & _ & Hconn) & q & Hp).
      simpl in *. subst pc. destruct Hconn as (_ & _ & _ & Hrem).
      pose proof (pi_wg (proj1 Hp)) as Hwg.
      destruct (pool_progress _ q p Hp) as (id & j & pc & Hid & Hmove).
      { intros Hempty. rewrite Hempty, map_size_empty in Hwg. lia. }
      apply (can_move_drains _ id j pc); [done|done|]. intros ->.
      destruct (live_request _ _ _ _ _ _ (proj1 Hp) Hid) as (req & Hreq & _).
      pose proof (pi_local (proj1 Hp) id req (not_elem_of_nil id) Hreq) as Hloc.
      rewrite Hid in Hloc. destruct Hloc as (_ & -> & _). eauto.
    + intros [He Hes]. pose proof (drains_decreases posix_memalign _ e s Hinv He) as Hdec.
      pose proof (drains_draining posix_memalign e s He Hpc) as Hpc'.
      pose proof (apply_ok posix_memalign Hsize _ e s Hinv (proj1 He)) as Hinv'.
      destruct (IH _ _ Hpc' Hinv' Hes) as [Hlen Hend].
      destruct (exec posix_memalign es (apply posix_memalign e s)) as [recv' s']. simpl in *.
      split; [lia|done].
Qed.
