(* ===== verification/Client.v ===== *)
(** * The client ([client/client.cpp], [client/client.hpp])

    [easybd::Client]: the pending table, the reader coroutine, the [send_request]
    coroutines behind the send mutex, and the calls of the application. As for the
    server, [apply] runs one coroutine from one suspension point to the next, and events
    come in any order; the application may call [pread] and [pwrite] at any time, from
    inside a callback too. *)

From S2P Require Import Prelude Protocol Sync RecvStream FramedReader Queue.
From S2P Require SendLock.

Open Scope nat_scope.

Definition kRecvEntrySize : nat := 2 ^ 17.
Definition kRecvEntries : nat := 64 * 4.

(** [struct Pending]; [cb] and [user_data] are the application's callback. *)
Record Pending := MkPending {
  is_read : bool;
  buf : nat;      (** the application's buffer; unused for writes *)
  cb : nat;
}.

(** A callback invocation: what it is passed and, for the statements, the contents of
    the request's buffer then and the response that caused it, if one did. *)
Record callback := MkCall {
  ca_cid : Z;
  ca_res : Z;
  ca_cb : nat;
  ca_buf : bytes;
  ca_resp : option (EasyBDResponseHeader * bytes);
}.

(** Where [reader_loop] is. *)
Inductive reader_pc :=
  | RTop                                              (** at the head of [for (;;)] *)
  | RHeader                                           (** in [read_exact(sizeof(header))] *)
  | RBody (resp : EasyBDResponseHeader) (pd : Pending) (** in [read_exact(resp.res)] *)
  | RFailing (l : list (Z * Pending))                 (** in the loop of [fail_all_pending] *)
  | REnd                                              (** returned *)
  | RStuck                                            (** a read of the loop never ended *)
  | ROverflow (resp : EasyBDResponseHeader) (pd : Pending). (** [memcpy] past [pending.buf] *)

(** [class Client]; the frames of the [send_request] coroutines are in [cl_out], their
    parameters in [cl_issued], numbered in the order of the calls. *)
Record client (St : Type) := MkClient {
  sync_writes : bool;              (** [_sync_writes] *)
  next_cid : Z;                    (** [_next_cid] *)
  pending : gmap Z Pending;        (** [_pending] *)
  out : SendLock.t;                (** [_send_mtx] and the senders *)
  total_dispatched : Z;            (** [_total_dispatched] *)
  issued : list request;
  mem : gmap nat bytes;            (** the application's buffers *)
  calls : list callback;           (** callbacks invoked *)
  stream : St;                     (** [*stream] of [reader_loop] *)
  reader : FramedReader;
  pc : reader_pc;
}.
Arguments MkClient {St}.
Arguments sync_writes {St}. Arguments next_cid {St}. Arguments pending {St}.
Arguments out {St}. Arguments total_dispatched {St}. Arguments issued {St}.
Arguments mem {St}. Arguments calls {St}. Arguments stream {St}.
Arguments reader {St}. Arguments pc {St}.

Section client.
Context `{NativeEndian} {St : Type} `{RecvStream St}.
Implicit Types c : client St.

Definition set_pc (p : reader_pc) c : client St :=
  MkClient (sync_writes c) (next_cid c) (pending c) (out c) (total_dispatched c) (issued c)
    (mem c) (calls c) (stream c) (reader c) p.

Definition set_stream (st : St) (r : FramedReader) (p : reader_pc) c : client St :=
  MkClient (sync_writes c) (next_cid c) (pending c) (out c) (total_dispatched c) (issued c)
    (mem c) (calls c) st r p.

Definition set_out (o : SendLock.t) c : client St :=
  MkClient (sync_writes c) (next_cid c) (pending c) o (total_dispatched c) (issued c)
    (mem c) (calls c) (stream c) (reader c) (pc c).

Definition set_mem (m : gmap nat bytes) c : client St :=
  MkClient (sync_writes c) (next_cid c) (pending c) (out c) (total_dispatched c) (issued c)
    m (calls c) (stream c) (reader c) (pc c).

Definition set_pending (m : gmap Z Pending) c : client St :=
  MkClient (sync_writes c) (next_cid c) m (out c) (total_dispatched c) (issued c)
    (mem c) (calls c) (stream c) (reader c) (pc c).

(** The contents of the buffer a callback's owner looks at. *)
Definition buffer c (pd : Pending) : bytes := default [] (mem c !! buf pd).

(** [++_total_dispatched; pending.cb(res, pending.user_data)]. *)
Definition invoke (cid : Z) (pd : Pending) (res : Z) (why : option (EasyBDResponseHeader * bytes)) c
    : client St :=
  MkClient (sync_writes c) (next_cid c) (pending c) (out c) (u64 (total_dispatched c + 1)) (issued c)
    (mem c) (calls c ++ [MkCall cid res (cb pd) (buffer c pd) why]) (stream c) (reader c) (pc c).

(** A client on a connected socket, its [reader_loop] spawned. *)
Definition client_init (sync : bool) (buffers : gmap nat bytes) (st : St) : client St :=
  MkClient sync 1 ∅ SendLock.init 0 [] buffers [] st reader_init RTop.

(** *** [send_request] *)

(** The buffers it passes to [send_all]. *)
Definition request_message (req : request) : SendLock.message :=
  (encode_request (rq_header req),
   if bool_decide (req_op (rq_header req) = EASYBD_OP_WRITE)
      || bool_decide (req_op (rq_header req) = EASYBD_OP_WRITE_SYNC)
   then Some (rq_payload req) else None).

(** [spawn(send_request(...))]: runs to the lock, or to the send. *)
Definition send_request (req : request) c : client St :=
  MkClient (sync_writes c) (next_cid c) (pending c)
    (SendLock.enter (length (issued c)) (request_message req) (out c))
    (total_dispatched c) (issued c ++ [req]) (mem c) (calls c) (stream c) (reader c) (pc c).

(** Its [catch (...)]. *)
Definition send_failed (id : nat) c : client St :=
  let c := set_out (SendLock.fail id (out c)) c in
  match issued c !! id with
  | Some req =>
      let cid := req_cid (rq_header req) in
      match pending c !! cid with
      | Some pd => invoke cid pd (- ECONNRESET) None (set_pending (delete cid (pending c)) c)
      | None => c
      end
  | None => c
  end.

(** *** The calls of the application *)

(** [pread(buf, size, offset, cb, user_data)]. *)
Definition pread (b : nat) (size : Z) (offset : Z) (k : nat) c : Z * client St :=
  if bool_decide (EASYBD_MAX_PAYLOAD_SIZE < size)%Z then ((- EMSGSIZE)%Z, c)
  else
    let cid := next_cid c in
    let c := MkClient (sync_writes c) (u64 (cid + 1)) (<[cid := MkPending true b k]> (pending c))
               (out c) (total_dispatched c) (issued c) (mem c) (calls c) (stream c) (reader c) (pc c) in
    (0%Z, send_request (Req {| req_cid := cid; req_offset := offset; req_size := size;
                               req_op := EASYBD_OP_READ |} []) c).

(** [pwrite(buf, size, offset, cb, user_data)]: [data] are the [size] bytes at [buf]. *)
Definition pwrite (data : bytes) (offset : Z) (k : nat) c : Z * client St :=
  let size := Z.of_nat (length data) in
  if bool_decide (EASYBD_MAX_PAYLOAD_SIZE < size)%Z then ((- EMSGSIZE)%Z, c)
  else
    let cid := next_cid c in
    let op := if sync_writes c then EASYBD_OP_WRITE_SYNC else EASYBD_OP_WRITE in
    let c := MkClient (sync_writes c) (u64 (cid + 1)) (<[cid := MkPending false 0 k]> (pending c))
               (out c) (total_dispatched c) (issued c) (mem c) (calls c) (stream c) (reader c) (pc c) in
    (0%Z, send_request (Req {| req_cid := cid; req_offset := offset; req_size := size;
                               req_op := op |} data) c).

(** *** [reader_loop] *)

(** [fail_all_pending]: the vector is filled and the table cleared; the callbacks come
    one by one, in the order the table lists them. *)
Definition fail_all_pending c : client St :=
  set_pc (RFailing (map_to_list (pending c))) (set_pending ∅ c).

(** One turn of its loop, and its return, which ends [reader_loop]. *)
Definition fail_next c : client St :=
  match pc c with
  | RFailing [] => set_pc REnd c
  | RFailing ((cid, pd) :: l) => invoke cid pd (- ECONNRESET) None (set_pc (RFailing l) c)
  | _ => c
  end.

(** The end of an iteration: forget the request, then its callback. *)
Definition dispatch (resp : EasyBDResponseHeader) (pd : Pending) (body : bytes) c : client St :=
  invoke (resp_cid resp) pd (resp_res resp) (Some (resp, body))
    (set_pc RTop (set_pending (delete (resp_cid resp) (pending c)) c)).

(** After [read_exact] of a body: [memcpy] to the application's buffer. *)
Definition on_body (resp : EasyBDResponseHeader) (pd : Pending)
    (res : status bytes * FramedReader * St) c : client St :=
  match res with
  | (Done body, r, st) =>
      let c := set_stream st r RTop c in
      if bool_decide (length body <= length (buffer c pd)) then
        dispatch resp pd body (set_mem (<[buf pd := memcpy_at (buffer c pd) 0 body]> (mem c)) c)
      else set_pc (ROverflow resp pd) c
  | (Suspended, r, st) => set_stream st r (RBody resp pd) c
  | (Threw e, r, st) => fail_all_pending (set_stream st r RTop c)
  | (OutOfFuel, r, st) => set_stream st r RStuck c
  end.

(** After [read_exact] of a header. *)
Definition on_header (res : status bytes * FramedReader * St) c : client St :=
  match res with
  | (Done hdr, r, st) =>
      let resp := decode_response hdr in
      match pending c !! resp_cid resp with
      | None => fail_all_pending (set_stream st r RTop c)
      | Some pd =>
          if is_read pd && bool_decide (0 < resp_res resp)%Z then
            on_body resp pd (read_exact me (Z.to_nat (resp_res resp)) r st) c
          else dispatch resp pd [] (set_stream st r RTop c)
      end
  | (Suspended, r, st) => set_stream st r RHeader c
  | (Threw e, r, st) => fail_all_pending (set_stream st r RTop c)
  | (OutOfFuel, r, st) => set_stream st r RStuck c
  end.

(** [reader_loop] from the head of its loop. *)
Definition reader_run c : client St :=
  match pc c with
  | RTop => on_header (read_exact me sizeof_response (reader c) (stream c)) c
  | _ => c
  end.

(** The stream resumes it. *)
Definition reader_resume c : client St :=
  match pc c with
  | RHeader => on_header (read_exact_resume me sizeof_response (reader c) (stream c)) c
  | RBody resp pd =>
      on_body resp pd (read_exact_resume me (Z.to_nat (resp_res resp)) (reader c) (stream c)) c
  | _ => c
  end.
End client.

Section events.
Context `{NativeEndian} {St : Type} `{RecvStreamLaws St}.
Implicit Types c : client St.

Definition receive (ev : rs_event) c : client St :=
  let '(st, woken) := rs_complete ev (stream c) in
  let c := set_stream st (reader c) (pc c) c in
  match woken with
  | Some _ => reader_resume c
  | None => c
  end.

Inductive event :=
  | Pread (b : nat) (size offset : Z) (k : nat)      (** the application calls *)
  | Pwrite (data : bytes) (offset : Z) (k : nat)
  | Receive (ev : rs_event)
  | Run                                              (** [reader_loop] goes on *)
  | FailNext                                         (** so does [fail_all_pending] *)
  | Accept (id n : nat)                              (** the socket takes [n] bytes *)
  | SendFails (id : nat)
  | Leave (id : nat).                                (** a [send_request] returns *)

Definition apply (e : event) c : client St :=
  match e with
  | Pread b size offset k => (pread b size offset k c).2
  | Pwrite data offset k => (pwrite data offset k c).2
  | Receive ev => receive ev c
  | Run => reader_run c
  | FailNext => fail_next c
  | Accept id n => set_out (SendLock.accept id n (out c)) c
  | SendFails id => send_failed id c
  | Leave id => set_out (SendLock.leave id (out c)) c
  end.

(** [wait]: the events one [step] dispatches, and the number of callbacks it reports. *)
Definition wait (es : list event) c : Z * client St :=
  let before := total_dispatched c in
  let c := foldl (fun c e => apply e c) c es in
  (u64 (total_dispatched c - before), c).

(** The contract of the application (its buffers exist and hold [size] bytes), of the
    kernel, and of the server: it does not answer a request it has not received whole, so
    a request whose response is being read does not fail to be sent. *)
Definition enabled (e : event) c : Prop :=
  match e with
  | Pread b size offset k =>
      (0 <= size < 2 ^ 64)%Z /\ (0 <= offset < 2 ^ 64)%Z /\
      exists m, mem c !! b = Some m /\ (size <= Z.of_nat (length m))%Z
  | Pwrite data offset k => (0 <= offset < 2 ^ 64)%Z
  | Receive ev => pc c <> REnd /\ rs_event_ok ev (stream c)
  | Run => pc c = RTop
  | FailNext => exists l, pc c = RFailing l
  | Accept id n => exists f, SendLock.procs (out c) !! id = Some (SendLock.Sends f) /\ n <= length (mjoin (offer f))
  | SendFails id =>
      (exists f, SendLock.procs (out c) !! id = Some (SendLock.Sends f)) /\
      forall resp pd req, pc c = RBody resp pd -> issued c !! id = Some req ->
        resp_cid resp <> req_cid (rq_header req)
  | Leave id => SendLock.procs (out c) !! id = Some SendLock.Leaves
  end.

Definition received (e : event) c : bytes :=
  match e with
  | Receive ev => drop (length (rs_queue (stream c))) (rs_queue (rs_complete ev (stream c)).1)
  | _ => []
  end.

(** From one state, having received some bytes, the client can be in another. *)
Definition reach : client St -> bytes -> client St -> Prop := ts_reach enabled apply received.
Definition exec : list event -> client St -> bytes * client St := ts_exec apply received.
Definition exec_ok : list event -> client St -> Prop := ts_exec_ok enabled apply.

Lemma client_exec_reach es c : exec_ok es c -> reach c (exec es c).1 (exec es c).2.
Proof. apply ts_exec_reach. Qed.
End events.

(** ** The books: which request is where *)

Section books.
Context `{NativeEndian} {St : Type}.
Implicit Types (c : client St) (fl : list (Z * Pending)).

(** The request of a [cid]. *)
Definition request_of c (cid : Z) : option request :=
  if bool_decide (1 <= cid)%Z then issued c !! Z.to_nat (cid - 1) else None.

Definition is_write_req (req : request) : bool := is_write (req_op (rq_header req)).

(** A table entry is that of its request, and a read's buffer can hold what was asked. *)
Definition pending_ok c (cid : Z) (pd : Pending) : Prop :=
  exists req, request_of c cid = Some req /\ is_read pd = negb (is_write_req req) /\
    (is_read pd = true -> exists m, mem c !! buf pd = Some m /\
       (req_size (rq_header req) <= Z.of_nat (length m))%Z).

(** A callback got the response to its request, with the data in its buffer, or
    [-ECONNRESET]. *)
Definition callback_ok c (ca : callback) : Prop :=
  exists req, request_of c (ca_cid ca) = Some req /\
  match ca_resp ca with
  | None => ca_res ca = (- ECONNRESET)%Z
  | Some (resp, body) =>
      response_wf resp /\ resp_cid resp = ca_cid ca /\ ca_res ca = resp_res resp /\
      if is_write_req req then body = []
      else length body = Z.to_nat (resp_res resp) /\ take (length body) (ca_buf ca) = body
  end.

(** Every request issued is in exactly one place: the table, the vector [fl] of
    [fail_all_pending], or the callbacks already made. *)
Record books fl c : Prop := {
  bk_cid : next_cid c = (Z.of_nat (length (issued c)) + 1)%Z;
  bk_issued i req : issued c !! i = Some req ->
    req_cid (rq_header req) = (Z.of_nat i + 1)%Z /\ request_ok req;
  bk_where : (map_to_list (pending c)).*1 ++ fl.*1 ++ (ca_cid <$> calls c) ≡ₚ
    seqZ 1 (Z.of_nat (length (issued c)));
  bk_pending cid pd : pending c !! cid = Some pd \/ (cid, pd) ∈ fl -> pending_ok c cid pd;
  bk_calls : Forall (callback_ok c) (calls c);
  bk_total : total_dispatched c = u64 (Z.of_nat (length (calls c)));
}.
Arguments bk_cid {fl c}.
Arguments bk_issued {fl c}.
Arguments bk_where {fl c}.
Arguments bk_pending {fl c}.
Arguments bk_calls {fl c}.
Arguments bk_total {fl c}.

Lemma u64_succ z : u64 (u64 z + 1) = u64 (z + 1).
Proof. unfold u64. by rewrite Zplus_mod_idemp_l. Qed.

Lemma request_of_issued c cid req : request_of c cid = Some req ->
  issued c !! Z.to_nat (cid - 1) = Some req /\ (1 <= cid)%Z.
Proof. unfold request_of. case_bool_decide; naive_solver. Qed.

(** A callback takes its request off the table, or off the vector. *)
Lemma books_invoke fl cid pd res why c :
  books fl c -> pending c !! cid = Some pd ->
  callback_ok c (MkCall cid res (cb pd) (buffer c pd) why) ->
  books fl (invoke cid pd res why (set_pending (delete cid (pending c)) c)).
Proof.
  intros [Hcid Hiss Hwh Hpd Hcalls Htot] Hid Hca. split; simpl; auto.
  - rewrite <- Hwh. rewrite fmap_app. simpl.
    rewrite <- (insert_delete_id (pending c) cid pd Hid) at 2.
    rewrite map_to_list_insert by apply lookup_delete_eq. rewrite fmap_cons. simpl.
    rewrite !app_assoc. by rewrite (Permutation_app_comm _ [cid]).
  - intros cid' pd' [Hl|Hl]; apply Hpd; [left|by right].
    by apply lookup_delete_Some in Hl as [_ ?].
  - apply Forall_app. split; [done|]. by constructor.
  - rewrite Htot, u64_succ, length_app. f_equal. simpl. lia.
Qed.

Lemma books_fail_next fl cid pd c :
  books ((cid, pd) :: fl) c -> books fl (invoke cid pd (- ECONNRESET) None c).
Proof.
  intros [Hcid Hiss Hwh Hpd Hcalls Htot].
  destruct (Hpd cid pd (or_intror (list_elem_of_here _ _))) as (req & Hreq & _). split; simpl; auto.
  - rewrite <- Hwh. rewrite fmap_app. simpl. rewrite !app_assoc.
    rewrite (Permutation_app_comm _ [cid]). simpl. rewrite <- Permutation_middle.
    by rewrite app_assoc.
  - intros cid' pd' [Hl|Hl]; apply Hpd; [by left|right]. by right.
  - apply Forall_app. split; [done|]. constructor; [|done]. by exists req.
  - rewrite Htot, u64_succ, length_app. f_equal. simpl. lia.
Qed.

Lemma books_fail_all c : books [] c -> books (map_to_list (pending c)) (set_pending ∅ c).
Proof.
  intros [Hcid Hiss Hwh Hpd Hcalls Htot]. split; simpl; auto.
  intros cid pd [Hl|Hl]; [by rewrite lookup_empty in Hl|]. apply Hpd. left.
    by apply elem_of_map_to_list.
Qed.

(** Writing to a buffer keeps its size. *)
Lemma books_mem fl b m d c :
  books fl c -> mem c !! b = Some m -> length d = length m -> books fl (set_mem (<[b := d]> (mem c)) c).
Proof.
  intros [Hcid Hiss Hwh Hpd Hcalls Htot] Hm Hd. split; simpl; auto.
  intros cid pd Hin. destruct (Hpd cid pd Hin) as (req & Hreq & Hr & Hbuf). exists req.
  split_and!; [done|done|]. intros Hread. destruct (Hbuf Hread) as (m' & Hm' & Hs). simpl.
  destruct (decide (buf pd = b)) as [<-|].
  - exists d. rewrite lookup_insert_eq. split; [done|]. rewrite Hm in Hm'. simplify_eq. lia.
  - exists m'. by rewrite lookup_insert_ne.
Qed.

(** A new request takes the next [cid]. *)
Lemma books_issue fl req pd c c' :
  books fl c -> (Z.of_nat (S (length (issued c))) < 2 ^ 64 - 1)%Z ->
  req_cid (rq_header req) = next_cid c -> request_ok req ->
  is_read pd = negb (is_write_req req) ->
  (is_read pd = true -> exists m, mem c !! buf pd = Some m /\
     (req_size (rq_header req) <= Z.of_nat (length m))%Z) ->
  next_cid c' = u64 (next_cid c + 1) -> pending c' = <[next_cid c := pd]> (pending c) ->
  issued c' = issued c ++ [req] -> mem c' = mem c -> calls c' = calls c ->
  total_dispatched c' = total_dispatched c -> books fl c'.
Proof.
  intros [Hcid Hiss Hwh Hpd Hcalls Htot] Hn Hrc Hok Hrd Hbuf E1 E2 E3 E4 E5 E6.
  assert (Hkeep : forall cid r, request_of c cid = Some r -> request_of c' cid = Some r).
  { intros cid r Hr. apply request_of_issued in Hr as [Hr Hle]. unfold request_of.
    rewrite bool_decide_true, E3 by done. rewrite lookup_app_l; [done|]. by eapply lookup_lt_Some. }
  assert (Hnew : request_of c' (next_cid c) = Some req).
  { unfold request_of. rewrite bool_decide_true, E3 by lia. apply list_lookup_middle. lia. }
  assert (Hfresh : pending c !! next_cid c = None).
  { apply eq_None_not_Some. intros [pd' Hp]. destruct (Hpd _ _ (or_introl Hp)) as (r & Hr & _).
    apply request_of_issued in Hr as [Hr _]. apply lookup_lt_Some in Hr. lia. }
  split; rewrite ?E1, ?E2, ?E3, ?E4, ?E5, ?E6; auto.
  - rewrite length_app, u64_small; simpl; lia.
  - intros i r Hi. apply lookup_app_Some in Hi as [Hi|[Hge Hi]]; [auto|].
    apply list_lookup_singleton_Some in Hi as [Hi <-]. split; [lia|done].
  - rewrite map_to_list_insert by done. simpl. rewrite Hwh, length_app. simpl.
    rewrite Nat2Z.inj_add, seqZ_app by lia. simpl. rewrite Hcid.
    rewrite (Permutation_app_comm _ (seqZ _ _)). simpl. f_equiv. lia.
  - intros cid pd' Hin. assert (Hp' : cid = next_cid c /\ pd' = pd \/ pending_ok c cid pd').
    { destruct Hin as [Hl|Hl]; [|right; auto].
      apply lookup_insert_Some in Hl as [[<- <-]|[_ Hl]]; auto. }
    unfold pending_ok. rewrite E4. destruct Hp' as [[-> ->]|(r & Hr & ?)]; eauto.
  - eapply Forall_impl; [|exact Hcalls]. intros ca (r & Hr & ?). exists r. auto.
Qed.

(** The rest of the client does not matter to the books. *)
Lemma books_same fl c c' :
  books fl c -> next_cid c' = next_cid c -> pending c' = pending c -> issued c' = issued c ->
  mem c' = mem c -> calls c' = calls c -> total_dispatched c' = total_dispatched c -> books fl c'.
Proof.
  intros [Hcid Hiss Hwh Hpd Hcalls Htot] E1 E2 E3 E4 E5 E6.
  assert (Hreq : forall cid, request_of c' cid = request_of c cid) by (intros; unfold request_of; by rewrite E3).
  split; rewrite ?E1, ?E2, ?E3, ?E5, ?E6; auto.
  - intros cid pd Hin. unfold pending_ok. rewrite Hreq, E4. by apply Hpd.
  - eapply Forall_impl; [|exact Hcalls]. intros ca. unfold callback_ok. by rewrite Hreq.
Qed.
End books.

Arguments bk_cid {_ _ _}.
Arguments bk_issued {_ _ _}.
Arguments bk_where {_ _ _}.
Arguments bk_pending {_ _ _}.
Arguments bk_calls {_ _ _}.
Arguments bk_total {_ _ _}.

(** ** The invariant of a client *)

(** The bytes of a response on the wire. *)
Definition response_image `{NativeEndian} (r : EasyBDResponseHeader * bytes) : bytes :=
  encode_response r.1 ++ r.2.

(** The responses the reader made callbacks for, in order. *)
Definition answered {St} (c : client St) : list (EasyBDResponseHeader * bytes) := omap ca_resp (calls c).

Definition failing (p : reader_pc) : list (Z * Pending) :=
  match p with RFailing l => l | _ => [] end.

Section correctness.
Context `{NativeEndian} {St : Type} `{RecvStreamLaws St}.
Implicit Types (c : client St) (recv rest : bytes).

(** Why [reader_loop] left its loop: the stream ended, or a header named no request of
    the table. *)
Definition over c rest : Prop := is_Some (rs_final (stream c)) \/ sizeof_response <= length rest.

(** The bytes received are the responses answered, then what the reader is reading. *)
Definition conn_ok recv c : Prop :=
  exists rest, recv = mjoin (response_image <$> answered c) ++ rest /\
  match pc c with
  | RTop => rest = unread (reader c) (stream c) /\ rs_waiter (stream c) = None
  | RHeader =>
      rest = unread (reader c) (stream c) /\ length rest < sizeof_response /\
      fr_consumed (reader c) = 0 /\ rs_waiter (stream c) = Some me
  | RBody resp pd =>
      rest = encode_response resp ++ unread (reader c) (stream c) /\
      response_wf resp /\ pending c !! resp_cid resp = Some pd /\ is_read pd = true /\
      (0 < resp_res resp)%Z /\ length (unread (reader c) (stream c)) < Z.to_nat (resp_res resp) /\
      fr_consumed (reader c) = 0 /\ rs_waiter (stream c) = Some me
  | RFailing _ | REnd => rs_waiter (stream c) = None /\ over c rest
  | ROverflow resp pd =>
      rs_waiter (stream c) = None /\ response_wf resp /\
      (exists body rest', rest = encode_response resp ++ body ++ rest' /\
        length body = Z.to_nat (resp_res resp)) /\
      exists req, request_of c (resp_cid resp) = Some req /\ is_write_req req = false /\
        (req_size (rq_header req) < resp_res resp)%Z
  | RStuck => False
  end.

Definition client_inv recv c : Prop :=
  books (failing (pc c)) c /\ SendLock.inv (request_message <$> issued c) (out c) /\
  rs_inv (stream c) /\ conn_ok recv c.

(** A response has been read whole: its request's callback. *)
Lemma dispatch_ok recv resp pd body c :
  books [] c -> SendLock.inv (request_message <$> issued c) (out c) -> rs_inv (stream c) ->
  rs_waiter (stream c) = None -> response_wf resp -> pending c !! resp_cid resp = Some pd ->
  (if is_read pd && bool_decide (0 < resp_res resp)%Z
   then length body = Z.to_nat (resp_res resp) /\ take (length body) (buffer c pd) = body
   else body = []) ->
  recv = mjoin (response_image <$> answered c) ++ response_image (resp, body) ++ unread (reader c) (stream c) ->
  client_inv recv (dispatch resp pd body c).
Proof.
  intros Hb Hs Hst Hw Hwf Hpd Hbody ->. split_and!; [|done|done|].
  - apply (books_invoke [] _ _ _ _ (set_pc RTop c)); [by eapply books_same| done|].
    destruct (bk_pending Hb _ _ (or_introl Hpd)) as (req & Hreq & Hread & _). exists req.
    split; [done|]. simpl. split_and!; try done.
    unfold buffer in *. simpl. rewrite Hread in Hbody. destruct (is_write_req req); [done|]. simpl in Hbody.
    case_bool_decide as Hpos; [done|]. subst body. simpl. split; [lia|by rewrite take_0].
  - exists (unread (reader c) (stream c)). split; [|done]. simpl.
    unfold answered. simpl. rewrite omap_app, fmap_app, join_app. simpl.
    by rewrite app_nil_r, <- app_assoc.
Qed.

Lemma fail_all_pending_ok recv rest c :
  books [] c -> SendLock.inv (request_message <$> issued c) (out c) -> rs_inv (stream c) ->
  rs_waiter (stream c) = None -> over c rest ->
  recv = mjoin (response_image <$> answered c) ++ rest -> client_inv recv (fail_all_pending c).
Proof.
  intros Hb Hs Hst Hw Hover ->. split_and!; [|done|done|by exists rest].
  eapply books_same; [by apply books_fail_all|done..].
Qed.

(** The body of a response. *)
Lemma client_on_body_ok recv resp pd u st0 res c :
  books [] c -> SendLock.inv (request_message <$> issued c) (out c) ->
  response_wf resp -> pending c !! resp_cid resp = Some pd -> is_read pd = true ->
  (0 < resp_res resp)%Z ->
  recv = mjoin (response_image <$> answered c) ++ encode_response resp ++ u ->
  read_post me (Z.to_nat (resp_res resp)) u (rs_final st0) res ->
  client_inv recv (on_body resp pd res c).
Proof.
  intros Hb Hs Hwf Hpd Hread Hpos Hrecv Hpost.
  destruct (bk_pending Hb _ _ (or_introl Hpd)) as (req & Hreq & Hrd & Hbuf).
  destruct (Hbuf Hread) as (m & Hm & Hsize).
  destruct res as [[[body|e| |] r] st]; destruct Hpost as (Hst & Hfin & Hpost).
  - destruct Hpost as (Hn & Hbody & Hun & Hw). cbn [on_body].
    assert (Hl : length body = Z.to_nat (resp_res resp)) by (subst body; rewrite length_take; lia).
    assert (Hu : u = body ++ unread r st) by (by rewrite Hun, Hbody, take_drop).
    assert (Hbm : buffer c pd = m) by (unfold buffer; by rewrite Hm).
    change (buffer (set_stream st r RTop c) pd) with (buffer c pd). rewrite Hbm.
    case_bool_decide as Hfit.
    + apply dispatch_ok; simpl; auto.
      * apply (books_mem [] (buf pd) m _ (set_stream st r RTop c)); [by eapply books_same|exact Hm|].
        by rewrite length_memcpy_at.
      * rewrite Hread, bool_decide_true by done. split; [done|].
        unfold buffer. simpl. rewrite lookup_insert_eq. simpl.
        exact (take_memcpy_at m 0 body Hfit).
      * by rewrite Hrecv, Hu, (app_assoc (encode_response resp)).
    + split_and!; [by eapply books_same|done|done|].
      exists (encode_response resp ++ u). split; [done|]. simpl. split_and!; try done.
      * exists body, (unread r st). by rewrite Hu.
      * exists req. split_and!; [done|by destruct (is_write_req req); rewrite Hread in Hrd|lia].
  - destruct Hpost as (Hlt & Hw & err & Herr & ->).
    eapply (fail_all_pending_ok _ _ (set_stream st r RTop c)); simpl; eauto.
    + by eapply books_same.
    + left. simpl. rewrite Hfin, Herr. eauto.
  - destruct Hpost as (Hlt & Hnone & Hw & Hcons & Hbufs & Hq).
    assert (Hu : unread r st = u) by (unfold unread, fr_rest; by rewrite Hcons, Hbufs, Hq, drop_0, app_nil_r).
    split_and!; [by eapply books_same|done|done|].
    exists (encode_response resp ++ u). split; [done|]. simpl. rewrite Hu. by split_and!.
  - done.
Qed.

Lemma client_on_header_ok recv u st0 res c :
  books [] c -> SendLock.inv (request_message <$> issued c) (out c) ->
  recv = mjoin (response_image <$> answered c) ++ u ->
  read_post me sizeof_response u (rs_final st0) res -> client_inv recv (on_header res c).
Proof.
  intros Hb Hs Hrecv Hpost.
  destruct res as [[[hdr|e| |] r] st]; destruct Hpost as (Hst & Hfin & Hpost).
  - destruct Hpost as (Hn & -> & Hun & Hw). cbn [on_header].
    assert (Ht : length (take sizeof_response u) = sizeof_response) by (rewrite length_take; lia).
    set (resp := decode_response (take sizeof_response u)).
    assert (Hwf : response_wf resp) by (by apply decode_response_wf).
    assert (Hu : u = encode_response resp ++ unread r st).
    { unfold resp. by rewrite encode_decode_response, Hun, take_drop. }
    clearbody resp. destruct (pending c !! resp_cid resp) as [pd|] eqn:Hpd.
    + destruct (is_read pd && bool_decide (0 < resp_res resp)%Z) eqn:Hread.
      * apply andb_prop in Hread as [Hread Hpos%bool_decide_eq_true].
        eapply (client_on_body_ok _ resp pd (unread r st) st); eauto; [by rewrite Hrecv, Hu|].
        by apply read_exact_spec.
      * apply dispatch_ok; simpl; auto; [by eapply books_same|by rewrite Hread|].
        rewrite Hrecv. rewrite Hu at 1. unfold response_image at 3. simpl. by rewrite app_nil_r.
    + eapply (fail_all_pending_ok _ u (set_stream st r RTop c)); simpl; eauto.
      * by eapply books_same.
      * by right.
  - destruct Hpost as (Hlt & Hw & err & Herr & ->).
    eapply (fail_all_pending_ok _ u (set_stream st r RTop c)); simpl; eauto.
    + by eapply books_same.
    + left. simpl. rewrite Hfin, Herr. eauto.
  - destruct Hpost as (Hlt & Hnone & Hw & Hcons & Hbufs & Hq).
    assert (Hu : unread r st = u) by (unfold unread, fr_rest; by rewrite Hcons, Hbufs, Hq, drop_0, app_nil_r).
    split_and!; [by eapply books_same|done|done|].
    exists u. split; [done|]. simpl. rewrite Hu. by split_and!.
  - done.
Qed.

(** Registering a request and spawning its [send_request]. *)
Definition issue (req : request) (pd : Pending) c : client St :=
  send_request req
    (MkClient (sync_writes c) (u64 (next_cid c + 1)) (<[next_cid c := pd]> (pending c))
       (out c) (total_dispatched c) (issued c) (mem c) (calls c) (stream c) (reader c) (pc c)).

Lemma request_message_nonempty req : SendLock.message_bytes (request_message req) <> [].
Proof.
  intros Hnil. apply (f_equal length) in Hnil. unfold SendLock.message_bytes in Hnil.
  rewrite length_app in Hnil. simpl in Hnil. rewrite length_encode_request in Hnil. done.
Qed.

Lemma issue_ok recv req pd c :
  client_inv recv c -> (Z.of_nat (S (length (issued c))) < 2 ^ 64 - 1)%Z ->
  req_cid (rq_header req) = next_cid c -> request_ok req ->
  is_read pd = negb (is_write_req req) ->
  (is_read pd = true -> exists m, mem c !! buf pd = Some m /\
     (req_size (rq_header req) <= Z.of_nat (length m))%Z) ->
  client_inv recv (issue req pd c).
Proof.
  intros (Hb & Hs & Hst & rest & Hrecv & Hconn) Hn Hcid Hok Hread Hbuf.
  assert (Hkeep : forall cid r, request_of c cid = Some r -> request_of (issue req pd c) cid = Some r).
  { intros cid r Hr. apply request_of_issued in Hr as [Hr Hle]. unfold request_of.
    rewrite bool_decide_true by done. by apply lookup_app_l_Some. }
  split_and!; [| |done|].
  - by eapply (books_issue _ req pd c).
  - simpl. rewrite fmap_app. rewrite <- (length_fmap request_message (issued c)).
    apply SendLock.enter_ok; [done|apply request_message_nonempty].
  - exists rest. split; [done|]. simpl. destruct (pc c) as [| |resp pd'|l| | |resp pd']; try done.
    + destruct_and!. split_and!; try done. rewrite lookup_insert_ne; [done|]. intros Heq.
      destruct (bk_pending Hb (resp_cid resp) pd') as (r & Hr & _); [by left|].
      apply request_of_issued in Hr as [Hr%lookup_lt_Some _]. rewrite <- Heq, (bk_cid Hb) in Hr. lia.
    + destruct Hconn as (Hw & Hwf & Hbody & r & Hr & ?). split_and!; try done. exists r. auto.
Qed.

Lemma pread_ok recv b size offset k c :
  client_inv recv c -> enabled (Pread b size offset k) c ->
  (Z.of_nat (length (issued (apply (Pread b size offset k) c))) < 2 ^ 64 - 1)%Z ->
  client_inv recv (apply (Pread b size offset k) c).
Proof.
  intros Hc (Hsize & Hoff & m & Hm & Hl). cbn [apply]. unfold pread. case_bool_decide as Hmax; [done|].
  intros Hn. simpl in Hn. rewrite length_app, Nat.add_comm in Hn. simpl in Hn.
  pose proof (bk_cid (proj1 Hc)) as Hcid.
  apply (issue_ok _ _ (MkPending true b k)); simpl; eauto.
  split; [split_and!; simpl; unfold EASYBD_OP_READ; lia|done].
Qed.

Lemma pwrite_ok recv data offset k c :
  client_inv recv c -> enabled (Pwrite data offset k) c ->
  (Z.of_nat (length (issued (apply (Pwrite data offset k) c))) < 2 ^ 64 - 1)%Z ->
  client_inv recv (apply (Pwrite data offset k) c).
Proof.
  intros Hc Hoff. cbn [apply enabled] in *. unfold pwrite. case_bool_decide as Hmax; [done|].
  intros Hn. simpl in Hn. rewrite length_app, Nat.add_comm in Hn. simpl in Hn.
  pose proof (bk_cid (proj1 Hc)) as Hcid.
  change EASYBD_MAX_PAYLOAD_SIZE with 4194304%Z in Hmax.
  apply (issue_ok _ _ (MkPending false 0 k)); simpl; try done.
  - split; [split_and!; simpl; try lia; destruct (sync_writes c); done|].
    simpl. unfold oversize. simpl. rewrite bool_decide_false by done.
    by destruct (sync_writes c).
  - unfold is_write_req. simpl. by destruct (sync_writes c).
Qed.

Lemma set_out_ok recv o c :
  client_inv recv c -> SendLock.inv (request_message <$> issued c) o -> client_inv recv (set_out o c).
Proof. intros (Hb & Hs & Hst & Hconn) Ho. split_and!; [by eapply books_same|done|done|done]. Qed.

(** A failed send takes its request off the table, if it is still there. *)
Lemma send_failed_ok recv id c :
  client_inv recv c -> enabled (SendFails id) c -> client_inv recv (send_failed id c).
Proof.
  intros Hc [[f Hf] Hhonest]. unfold send_failed. set (c1 := set_out (SendLock.fail id (out c)) c).
  assert (Hc1 : client_inv recv c1).
  { apply set_out_ok; [done|]. eapply SendLock.fail_ok; [apply Hc|done]. }
  change (issued c1) with (issued c). destruct (issued c !! id) as [req|] eqn:Hreq; [|done].
  set (cid := req_cid (rq_header req)) in *. change (pending c1) with (pending c).
  destruct (pending c !! cid) as [pd|] eqn:Hpd; [|done].
  destruct Hc1 as (Hb & Hs & Hst & rest & Hrecv & Hconn). split_and!; [|done|done|].
  - apply (books_invoke _ cid pd _ _ c1); [done|done|].
    destruct (bk_pending Hb cid pd) as (r & Hr & _); [by left|]. by exists r.
  - exists rest. split.
    + rewrite Hrecv. unfold answered. simpl. by rewrite omap_app, app_nil_r.
    + simpl in *. destruct (pc c) as [| |resp pd'|l| | |resp pd'] eqn:Hpc; try done.
      destruct_and!. split_and!; try done. rewrite lookup_delete_ne; [done|].
      intros Heq. by apply (Hhonest resp pd' req).
Qed.

Lemma fail_next_ok recv c : client_inv recv c -> client_inv recv (fail_next c).
Proof.
  intros Hc. unfold fail_next. pose proof Hc as (Hb & Hs & Hst & rest & Hrecv & Hconn).
  destruct (pc c) as [| |resp pd'|[|[cid pd] l]| | |] eqn:Hpc; try done.
  - split_and!; [by eapply books_same|done|done|by exists rest].
  - split_and!; [|done|done|].
    + apply (books_fail_next l cid pd (set_pc (RFailing l) c)). by eapply books_same.
    + exists rest. split; [|done]. rewrite Hrecv. unfold answered. simpl.
      by rewrite omap_app, app_nil_r.
Qed.

Lemma reader_run_ok recv c : client_inv recv c -> client_inv recv (reader_run c).
Proof.
  intros Hc. unfold reader_run. pose proof Hc as (Hb & Hs & Hst & rest & Hrecv & Hconn).
  destruct (pc c) eqn:Hpc; try done. destruct Hconn as [-> Hw].
  eapply (client_on_header_ok _ _ (stream c)); eauto. by apply read_exact_spec.
Qed.

Lemma client_receive_ok recv ev c :
  client_inv recv c -> pc c <> REnd -> rs_event_ok ev (stream c) ->
  client_inv (recv ++ received (Receive ev) c) (receive ev c).
Proof.
  intros (Hb & Hs & Hst & rest & -> & Hconn) Hpc Hev. unfold receive, received.
  pose proof (rs_complete_law ev (stream c) Hst Hev) as Hlaw.
  destruct (rs_complete ev (stream c)) as [st woken]. simpl.
  destruct Hlaw as (Hst' & _ & (d & Hq & Hd) & Hfin & Hwoken & Hwt').
  rewrite Hq, drop_app_length. set (c' := set_stream st (reader c) (pc c) c).
  assert (Hgrow : unread (reader c) st = unread (reader c) (stream c) ++ d)
    by (unfold unread; by rewrite Hq, app_assoc).
  assert (Hidle : woken = None -> is_Some (rs_waiter (stream c)) -> d = []).
  { intros -> Hw. destruct (rs_waiter_idle (stream c) Hst Hw) as [Hq0 _].
    destruct (rs_waiter_idle st Hst') as [Hq1 ?]; [by rewrite Hwt'|].
    rewrite Hq0, Hq1 in Hq. by destruct d. }
  assert (Hbusy : rs_waiter (stream c) = None -> woken = None).
  { intros Hw. destruct woken as [h|]; [|done]. destruct (proj1 (Hwoken h) eq_refl). congruence. }
  assert (Hb' : forall l, failing (pc c) = l -> books l c') by (intros l <-; by eapply books_same).
  assert (Hbuf : fr_consumed (reader c) = 0 -> is_Some (rs_waiter (stream c)) ->
    length (fr_buf (reader c)) = length (unread (reader c) (stream c))).
  { intros Hcons Hw. destruct (rs_waiter_idle (stream c) Hst Hw) as [Hq0 _].
    unfold unread, fr_rest. by rewrite Hq0, Hcons, app_nil_r, drop_0. }
  rewrite <- app_assoc. destruct (pc c) as [| |resp pd|l| | |resp pd] eqn:E; try done; destruct_and!.
  - rewrite Hbusy in * by done. split_and!; [by apply Hb'|done|done|]. exists (rest ++ d).
    split; [done|]. simpl. split; congruence.
  - destruct woken as [h|].
    + destruct (proj1 (Hwoken h) eq_refl) as [_ Hsome]. unfold reader_resume. simpl.
      apply (client_on_header_ok _ (rest ++ d) st); [by apply Hb'|done|done|].
      subst rest. rewrite <- Hgrow. apply read_exact_resume_spec; auto. rewrite Hbuf; eauto.
    + rewrite Hidle, !app_nil_r in * by eauto. split_and!; [by apply Hb'|done|done|].
      exists rest. split; [done|]. simpl. split_and!; try congruence.
  - destruct woken as [h|].
    + destruct (proj1 (Hwoken h) eq_refl) as [_ Hsome]. unfold reader_resume. simpl.
      apply (client_on_body_ok _ _ _ (unread (reader c) st) st); auto.
      * subst rest. rewrite Hgrow. by rewrite <- !app_assoc.
      * apply read_exact_resume_spec; auto. rewrite Hbuf; eauto.
    + rewrite Hidle, !app_nil_r in * by eauto. split_and!; [by apply Hb'|done|done|].
      exists rest. split; [done|]. simpl. rewrite Hgrow. split_and!; try congruence.
  - rewrite Hbusy in * by done. split_and!; [by apply Hb'|done|done|]. exists (rest ++ d).
    split; [done|]. simpl. split; [congruence|].
    match goal with Ho : over c rest |- _ => destruct Ho as [Ho|Ho] end;
      [left; simpl; by rewrite Hfin|right; rewrite length_app; lia].
  - rewrite Hbusy in * by done. split_and!; [by apply Hb'|done|done|]. exists (rest ++ d).
    split; [done|]. simpl. split_and!; try done; [congruence|].
    match goal with Hx : exists body rest', _ |- _ => destruct Hx as (body & rest' & -> & ?) end.
    exists body, (rest' ++ d). by rewrite <- !app_assoc.
Qed.

Lemma client_apply_ok recv e c :
  client_inv recv c -> enabled e c -> (Z.of_nat (length (issued (apply e c))) < 2 ^ 64 - 1)%Z ->
  client_inv (recv ++ received e c) (apply e c).
Proof.
  intros Hc He Hn. destruct e as [b size offset k|data offset k|ev| | |id n|id|id];
    try (destruct He; by apply client_receive_ok); cbn [received]; rewrite app_nil_r.
  - by apply pread_ok.
  - by apply pwrite_ok.
  - by apply reader_run_ok.
  - by apply fail_next_ok.
  - destruct He as (f & Hf & Hl). apply set_out_ok; [done|]. eapply SendLock.accept_ok; [apply Hc|done|done].
  - by apply send_failed_ok.
  - apply set_out_ok; [done|]. apply SendLock.leave_ok; [apply Hc|done].
Qed.

Lemma client_init_ok sync buffers st :
  rs_inv st -> rs_waiter st = None -> client_inv (rs_queue st) (client_init sync buffers st).
Proof.
  intros Hst Hw. split_and!; [|apply SendLock.init_ok|done|by exists (rs_queue st)].
  split; simpl; try done.
  intros cid pd [Hl|Hl]; [by rewrite lookup_empty in Hl|by apply not_elem_of_nil in Hl].
Qed.

(** Requests are never forgotten. *)
Lemma issued_grows e c : length (issued c) <= length (issued (apply e c)).
Proof.
  assert (Hb : forall resp pd res c, issued (on_body resp pd res c) = issued c).
  { intros resp pd [[[] ?] ?] c0; simpl; try done. by case_bool_decide. }
  assert (Hh : forall res c, issued (on_header res c) = issued c).
  { intros [[[] ?] ?] c0; simpl; try done. repeat case_match; first [done|apply Hb]. }
  destruct e; simpl; try done.
  - unfold pread. case_bool_decide; simpl; rewrite ?length_app; lia.
  - unfold pwrite. case_bool_decide; simpl; rewrite ?length_app; lia.
  - unfold receive. destruct (rs_complete ev (stream c)) as [st [h|]]; [|done].
    unfold reader_resume. destruct (pc _); rewrite ?Hb, ?Hh; done.
  - unfold reader_run. destruct (pc c); rewrite ?Hh; done.
  - unfold fail_next. by destruct (pc c) as [| | |[|[]]| | |].
  - unfold send_failed. repeat case_match; done.
Qed.

(** Nor are callbacks. *)
Lemma calls_grow e c : calls c `prefix_of` calls (apply e c).
Proof.
  assert (Hb : forall resp pd res c, calls c `prefix_of` calls (on_body resp pd res c)).
  { intros resp pd [[[] ?] ?] c0; simpl; try done. case_bool_decide; [by apply prefix_app_r|done]. }
  assert (Hh : forall res c, calls c `prefix_of` calls (on_header res c)).
  { intros [[[] ?] ?] c0; simpl; try done.
    repeat case_match; first [done|by apply prefix_app_r|apply (Hb _ _ _ c0)]. }
  destruct e; simpl; try done.
  - unfold pread. by case_bool_decide.
  - unfold pwrite. by case_bool_decide.
  - unfold receive. destruct (rs_complete ev (stream c)) as [st [h|]]; [|done].
    unfold reader_resume. destruct (pc _); first [done|apply (Hh _ (set_stream st _ _ c))|apply (Hb _ _ _ (set_stream st _ _ c))].
  - unfold reader_run. destruct (pc c); first [done|apply Hh].
  - unfold fail_next. destruct (pc c) as [| | |[|[]]| | |]; first [done|by apply prefix_app_r].
  - unfold send_failed. repeat case_match; first [done|by apply prefix_app_r].
Qed.

(** What the stream keeps, the client keeps. *)
Lemma apply_stream_keeps (Q : St -> Prop) e c :
  (forall s, Q s -> Q (rs_ready s).2) -> (forall h s, Q s -> Q (rs_arm h s)) ->
  (forall cap max s, Q s -> Q (rs_take_batch cap max s).2) -> (forall ev s, Q s -> Q (rs_complete ev s).1) ->
  Q (stream c) -> Q (stream (apply e c)).
Proof.
  intros Hr Ha Ht Hc HQ.
  assert (Hb : forall resp pd res c, Q res.2 -> Q (stream (on_body resp pd res c))).
  { intros resp pd [[[] ?] ?] c0; simpl; try done. by case_bool_decide. }
  assert (Hh : forall res c, Q res.2 -> Q (stream (on_header res c))).
  { intros [[[] ?] ?] c0; simpl; try done. intros HQ0.
    repeat case_match; first [done|by apply Hb, read_exact_keeps]. }
  destruct e; simpl; try done.
  - unfold pread. by case_bool_decide.
  - unfold pwrite. by case_bool_decide.
  - unfold receive. pose proof (Hc ev _ HQ) as HQ1. destruct (rs_complete ev (stream c)) as [st [h|]]; [|done].
    unfold reader_resume. destruct (pc _); first [done|by apply Hh, read_exact_resume_keeps|by apply Hb, read_exact_resume_keeps].
  - unfold reader_run. destruct (pc c); first [done|by apply Hh, read_exact_keeps].
  - unfold fail_next. by destruct (pc c) as [| | |[|[]]| | |].
  - unfold send_failed. repeat case_match; done.
Qed.

Lemma reach_calls c recv c' : reach c recv c' -> calls c `prefix_of` calls c'.
Proof. induction 1 as [|recv c' e _ IH _]; [done|]. etrans; [done|apply calls_grow]. Qed.

Lemma reach_issued c recv c' : reach c recv c' -> length (issued c) <= length (issued c').
Proof. induction 1 as [|recv c' e _ IH _]; [done|]. etrans; [done|apply issued_grows]. Qed.

Lemma reach_stream_keeps (Q : St -> Prop) c recv c' :
  (forall s, Q s -> Q (rs_ready s).2) -> (forall h s, Q s -> Q (rs_arm h s)) ->
  (forall cap max s, Q s -> Q (rs_take_batch cap max s).2) -> (forall ev s, Q s -> Q (rs_complete ev s).1) ->
  reach c recv c' -> Q (stream c) -> Q (stream c').
Proof. intros Hr Ha Ht Hc. induction 1 as [|recv c' e _ IH _]; [done|]. intros HQ. apply apply_stream_keeps; auto. Qed.

Lemma client_reach_ok sync buffers st recv c :
  rs_inv st -> rs_waiter st = None -> reach (client_init sync buffers st) recv c ->
  (Z.of_nat (length (issued c)) < 2 ^ 64 - 1)%Z -> client_inv (rs_queue st ++ recv) c.
Proof.
  intros Hst Hw. induction 1 as [|recv c e _ IH He]; intros Hn.
  - rewrite app_nil_r. by apply client_init_ok.
  - rewrite app_assoc. pose proof (issued_grows e c). apply client_apply_ok; [apply IH; lia|done|done].
Qed.
End correctness.

(** What [send_request] hands to [send_all] is the image of the request. *)
Lemma request_message_image `{NativeEndian} req :
  request_ok req -> SendLock.message_bytes (request_message req) = request_image req.
Proof.
  intros [_ Hok]. unfold SendLock.message_bytes, request_message, request_image. simpl.
  change (bool_decide (req_op (rq_header req) = EASYBD_OP_WRITE) || _) with (is_write (req_op (rq_header req))).
  destruct (is_write _); [done|]. by destruct Hok as [_ ->].
Qed.

(** C15: every request is answered at most once, and none is lost from the books. At every
    moment of every run, over any backend stream and with any interleaving of calls,
    completions, failures and callbacks, the [cid]s handed out (1, 2, 3, ...) are split
    between the pending table, the requests [fail_all_pending] is about to fail, and the
    callbacks already made: each is in exactly one of the three, once. A callback was made
    either for a response to that very request, with its result and, for a read, with the
    data in the request's buffer, or with [-ECONNRESET]. [_total_dispatched], whose
    difference [wait] returns, counts them. *)
Theorem client_accounts `{NativeEndian} `{RecvStreamLaws St} (sync : bool)
    (buffers : gmap nat bytes) (st : St) (recv : bytes) (c : client St) :
  rs_inv st -> rs_waiter st = None -> reach (client_init sync buffers st) recv c ->
  (Z.of_nat (length (issued c)) < 2 ^ 64 - 1)%Z ->
  (map_to_list (pending c)).*1 ++ (failing (pc c)).*1 ++ (ca_cid <$> calls c) ≡ₚ
    seqZ 1 (Z.of_nat (length (issued c))) /\
  Forall (callback_ok c) (calls c) /\
  total_dispatched c = u64 (Z.of_nat (length (calls c))).
Proof.
  intros Hst Hw Hreach Hn. destruct (client_reach_ok _ _ _ _ _ Hst Hw Hreach Hn) as ([] & _). done.
Qed.

(** C18: the client reads its responses whole and in order. At every moment the bytes
    received are the responses callbacks were made for, each header with its body, in
    order, followed by what the reader is reading. When it waits for the socket it has
    less than a header, or less than the body of the response whose header it read, for a
    read that is still pending and of which something was read; it never sleeps on a whole
    response. It leaves its loop only when the stream ended or on a header that it cannot
    match. The copy into the application's buffer goes past its end only if the server
    sent more than was asked for, which the reader does not check. *)
Theorem client_reads_responses `{NativeEndian} `{RecvStreamLaws St} (sync : bool)
    (buffers : gmap nat bytes) (st : St) (recv : bytes) (c : client St) :
  rs_inv st -> rs_waiter st = None -> reach (client_init sync buffers st) recv c ->
  (Z.of_nat (length (issued c)) < 2 ^ 64 - 1)%Z ->
  exists rest, rs_queue st ++ recv = mjoin (response_image <$> answered c) ++ rest /\
  match pc c with
  | RTop => True
  | RHeader => length rest < sizeof_response /\ rs_waiter (stream c) = Some me
  | RBody resp pd =>
      exists part, rest = encode_response resp ++ part /\
        (Z.of_nat (length part) < resp_res resp)%Z /\ is_read pd = true /\
        pending c !! resp_cid resp = Some pd /\ rs_waiter (stream c) = Some me
  | RFailing _ | REnd => is_Some (rs_final (stream c)) \/ sizeof_response <= length rest
  | ROverflow resp pd =>
      exists req, request_of c (resp_cid resp) = Some req /\ (req_size (rq_header req) < resp_res resp)%Z
  | RStuck => False
  end.
Proof.
  intros Hst Hw Hreach Hn.
  destruct (client_reach_ok _ _ _ _ _ Hst Hw Hreach Hn) as (_ & _ & _ & rest & Hrecv & Hconn).
  exists rest. split; [done|]. destruct (pc c) as [| |resp pd|l| | |resp pd]; destruct_and?; try done.
  - exists (unread (reader c) (stream c)). split_and!; try done. lia.
  - match goal with Hr : exists req : request, _ |- _ => destruct Hr as (req & ? & _ & ?) end.
    by exists req.
Qed.

(** C19: requests go on the wire whole and in the order of the calls. At every moment the
    messages whose sending began are those of the first [k] calls, each request once, its
    header followed by its payload; the bytes the socket accepted are these messages one
    after the other, whole, except one whose own send failed, which is cut to a prefix,
    and the last one while it is being sent. *)
Theorem client_sends_in_order `{NativeEndian} `{RecvStreamLaws St} (sync : bool)
    (buffers : gmap nat bytes) (st : St) (recv : bytes) (c : client St) :
  rs_inv st -> rs_waiter st = None -> reach (client_init sync buffers st) recv c ->
  (Z.of_nat (length (issued c)) < 2 ^ 64 - 1)%Z ->
  SendLock.wire_holds (out c) /\
  exists k, k <= length (issued c) /\
    SendLock.begun (out c) = zip (seq 0 k) (request_image <$> take k (issued c)).
Proof.
  intros Hst Hw Hreach Hn.
  destruct (client_reach_ok _ _ _ _ _ Hst Hw Hreach Hn) as (Hb & Hs & _).
  destruct (SendLock.inv_wire _ _ Hs) as (Hwire & k & Hk & Hbegun). split; [done|].
  rewrite length_fmap in Hk. exists k. split; [done|]. rewrite Hbegun. f_equal.
  rewrite <- fmap_take, <- list_fmap_compose. apply list_fmap_ext. intros i req Hi. simpl.
  apply lookup_take_Some in Hi as [Hi _]. apply request_message_image, (bk_issued Hb i req Hi).
Qed.

(** *** After the end of [reader_loop] *)

Section stranded.
Context `{NativeEndian} {St : Type} `{RecvStreamLaws St}.

(** A sent request that is pending once the reader is gone: nothing touches it. *)
Definition stranded (c : client St) (id : nat) (req : request) (pd : Pending) : Prop :=
  pc c = REnd /\ issued c !! id = Some req /\ SendLock.procs (out c) !! id = None /\
  pending c !! req_cid (rq_header req) = Some pd.

Lemma stranded_step recv e (c : client St) id req pd :
  client_inv recv c -> enabled e c -> stranded c id req pd -> stranded (apply e c) id req pd.
Proof.
  intros (Hb & _) He (Hpc & Hreq & Hgone & Hpd). pose proof (bk_cid Hb) as Hcid.
  destruct (bk_issued Hb id req Hreq) as [Hreqid _].
  pose proof (lookup_lt_Some _ _ _ Hreq) as Hlt. unfold stranded.
  destruct e as [b size offset k|data offset k|ev| | |i n|i|i]; cbn [apply].
  - unfold pread. case_bool_decide; [done|]. simpl. split_and!; [done|by apply lookup_app_l_Some|..].
    + apply SendLock.enter_gone; [lia|done].
    + rewrite lookup_insert_ne; [done|lia].
  - unfold pwrite. case_bool_decide; [done|]. simpl. split_and!; [done|by apply lookup_app_l_Some|..].
    + apply SendLock.enter_gone; [lia|done].
    + rewrite lookup_insert_ne; [done|lia].
  - by destruct He.
  - unfold reader_run. rewrite Hpc. done.
  - destruct He as [l He]. congruence.
  - simpl. split_and!; try done. by apply SendLock.step_gone.
  - destruct He as [[f Hf] _]. unfold send_failed. change (issued (set_out _ c)) with (issued c).
    destruct (issued c !! i) as [req'|] eqn:Hreq'.
    2:{ simpl. split_and!; try done. by apply (SendLock.step_gone _ _ 0). }
    destruct (bk_issued Hb i req' Hreq') as [Hreqid' _].
    assert (Hne : i <> id) by congruence.
    destruct (pending (set_out _ c) !! _) as [pd'|]; simpl; split_and!; try done;
      try (by apply (SendLock.step_gone _ _ 0)).
    rewrite lookup_delete_ne; [done|lia].
  - simpl. split_and!; try done. by apply (SendLock.step_gone _ _ 0).
Qed.
End stranded.

(** C36: a request made after the reader returned, and whose send succeeded, is stranded:
    from any state in which [reader_loop] has returned and the request is in the table
    with its [send_request] over, no further event, whatever the application, the socket
    or [wait] do, ever takes it out of the table or invokes its callback. ([client.h]
    promises that the callback of a queued request will eventually fire.) *)
Theorem client_strands_late_requests `{NativeEndian} `{RecvStreamLaws St} (sync : bool)
    (buffers : gmap nat bytes) (st : St) (recv recv' : bytes) (c c' : client St)
    (id : nat) (req : request) (pd : Pending) :
  rs_inv st -> rs_waiter st = None -> reach (client_init sync buffers st) recv c ->
  pc c = REnd -> issued c !! id = Some req -> SendLock.procs (out c) !! id = None ->
  pending c !! req_cid (rq_header req) = Some pd ->
  reach c recv' c' -> (Z.of_nat (length (issued c')) < 2 ^ 64 - 1)%Z ->
  pending c' !! req_cid (rq_header req) = Some pd /\
  req_cid (rq_header req) ∉ ca_cid <$> calls c'.
Proof.
  intros Hst Hw Hc Hpc Hreq Hgone Hpd Hc' Hn.
  assert (Hs : stranded c' id req pd).
  { induction Hc' as [|recv' c' e Hc' IH He]; [done|].
    pose proof (issued_grows e c'). apply (stranded_step (rs_queue st ++ recv ++ recv')); [|done|apply IH; lia].
    eapply client_reach_ok; [done|done|by eapply ts_trans|lia]. }
  destruct Hs as (_ & _ & _ & Hpd'). split; [done|]. intros Hin.
  destruct (client_reach_ok _ _ _ _ _ Hst Hw (ts_trans _ _ _ _ _ _ _ _ Hc Hc') Hn) as (Hb & _).
  pose proof (NoDup_seqZ 1 (Z.of_nat (length (issued c')))) as Hnd.
  rewrite <- (bk_where Hb) in Hnd. apply list.NoDup_app in Hnd as (_ & Hdis & _).
  apply (Hdis (req_cid (rq_header req))).
  - apply list_elem_of_fmap. exists (req_cid (rq_header req), pd). split; [done|]. by apply elem_of_map_to_list.
  - apply elem_of_app. by right.
Qed.
