(* ===== verification/ClientTeardown.v ===== *)
(** * Destroying a client on the poll-driven queue ([Client::~Client], [client/client.cpp])

    [~Client] calls [cancel_fd], which cancels the receive stream and then the send that
    waits for the socket; each resumes a coroutine of the client, up to its next
    suspension. What is left in the queue afterwards is resumed by the destructor of the
    queue, when the members the coroutines use are already destroyed. The callbacks made
    meanwhile call nothing: a [pread] from one of them would be on a client whose destructor
    has begun. *)

From S2P Require Import Prelude Protocol Sync RecvStream FramedReader LibcRecvStream Queue.
From S2P Require LibcQueue SendLock.
From S2P Require Import Client.

Open Scope nat_scope.

Section teardown.
Context `{NativeEndian}.
Implicit Types c : client Libc.t.

(** [reader_loop] in [fail_all_pending], to its return. *)
Definition end_reader c : client Libc.t := Nat.iter (S (length (failing (pc c)))) fail_next c.

(** [read_op->cancel()]: the stream resumes the reader. A reader that returned has
    deregistered its stream. *)
Definition cancel_reader c : client Libc.t :=
  match pc c with
  | REnd => c
  | _ => end_reader (apply (H1 := Libc.stream_laws) (Receive (Libc.EvCancel : rs_event (RecvStreamLaws := Libc.stream_laws))) c)
  end.

(** The [send_request] whose send waits for the socket. *)
Definition writer c : option nat :=
  head (omap (fun '(id, p) => match p with SendLock.Sends _ => Some id | _ => None end)
    (map_to_list (SendLock.procs (out c)))).

(** [send_request] number [id], resumed or granted the lock, up to its suspension, and
    those its guard wakes when it returns. [tries] answers [send] and [sendmsg], given how
    much they are offered; after them the socket takes no more. *)
Fixpoint sender_run (fuel : nat) (tries : list (nat -> sysret)) (id : nat) c : client Libc.t :=
  match fuel with
  | O => c
  | S fuel =>
      match SendLock.procs (out c) !! id with
      | Some (SendLock.Sends f) =>
          match tries with
          | [] => c
          | try :: tries =>
              match LibcQueue.try_op (try (length (mjoin (offer f)))) with
              | None => c
              | Some res =>
                  match LibcQueue.op_end res with
                  | Ok n => sender_run fuel tries id (set_out (SendLock.accept id (Z.to_nat n) (out c)) c)
                  | Throw _ => sender_run fuel tries id (send_failed id c)
                  end
              end
          end
      | Some SendLock.Leaves =>
          let next := (Mutex.guard_drop true (SendLock.mtx (out c))).1 in
          let c := set_out (SendLock.leave id (out c)) c in
          match next with
          | Some h => sender_run fuel tries h c
          | None => c
          end
      | _ => c
      end
  end.

(** Every turn uses up a try or ends a coroutine. *)
Definition sender_fuel (tries : list (nat -> sysret)) c : nat :=
  S (length tries + size (SendLock.procs (out c))).

(** [op->cancel()] of its [SendAwaiter] or [SendMsgAwaiter]: [send_all] throws. *)
Definition cancel_writer (tries : list (nat -> sysret)) c : client Libc.t :=
  match writer c with
  | Some id => sender_run (sender_fuel tries c) tries id (send_failed id c)
  | None => c
  end.

(** [~Client] up to its members: [cancel_fd(_fd)], then [close(_fd)]. *)
Definition Client_dtor (tries : list (nat -> sysret)) c : client Libc.t :=
  cancel_writer tries (cancel_reader c).

(** Between two calls of the application: every coroutine is suspended. *)
Definition at_rest c : Prop :=
  (pc c = RHeader \/ (exists resp pd, pc c = RBody resp pd) \/ pc c = REnd) /\
  forall id, SendLock.procs (out c) !! id <> Some SendLock.Leaves.

(** Does the socket take no more? *)
Definition socket_full (tries : list (nat -> sysret)) : Prop :=
  match tries with
  | [] => True
  | try :: _ => forall n, try n = Errno EAGAIN
  end.

(** ** The reader *)

Lemma cancel_final (s : Libc.t) :
  Libc.queue (Libc.cancel s).1 = Libc.queue s /\ is_Some (Libc.final (Libc.cancel s).1).
Proof.
  unfold Libc.cancel, Libc.wake, Libc.queue, Libc.final. destruct s as [es n b w p co e er wt l]. simpl.
  destruct (bool_decide_reflect (er = 0%Z)) as [->|Hne]; simpl.
  - destruct e; simpl; (split; [done|eauto]).
  - split; [done|]. rewrite bool_decide_true by done. eauto.
Qed.

(** [c'] has made the same callbacks, and is the same towards the socket. *)
Definition same_out c c' : Prop := out c' = out c /\ issued c' = issued c.

Lemma iter_fail_next l c :
  pc c = RFailing l ->
  let c' := Nat.iter (S (length l)) fail_next c in
  pc c' = REnd /\ pending c' = pending c /\ same_out c c' /\
  exists more, calls c' = calls c ++ more /\ Forall (fun ca => ca_res ca = (- ECONNRESET)%Z) more.
Proof.
  revert c. induction l as [|[cid pd] l IH]; intros c Hpc; cbv zeta.
  - simpl. unfold fail_next. rewrite Hpc. split_and!; try done. exists []. by rewrite app_nil_r.
  - rewrite Nat.iter_succ_r. cbn [length].
    assert (Hnext : pc (fail_next c) = RFailing l /\ pending (fail_next c) = pending c /\
        same_out c (fail_next c) /\
        calls (fail_next c) = calls c ++ [MkCall cid (- ECONNRESET) (cb pd) (buffer c pd) None])
      by (unfold fail_next; by rewrite Hpc).
    destruct Hnext as (Hpc1 & Hpd1 & [Ho1 Hi1] & Hc1).
    destruct (IH (fail_next c) Hpc1) as (E1 & E2 & [E3 E4] & more & E5 & E6).
    split; [done|]. split; [congruence|]. split; [split; congruence|].
    rewrite E5, Hc1, <- app_assoc. eexists. split; [done|]. simpl. by constructor.
Qed.

Lemma fail_next_recv recv k c : client_inv recv c -> client_inv recv (Nat.iter k fail_next c).
Proof. intros Hc. induction k as [|k IH]; [done|]. by apply fail_next_ok. Qed.

(** The end of the stream makes the reader leave its loop: the data it waits for are
    missing. *)
Lemma receive_ended recv (ev : Libc.event) c :
  client_inv recv c -> (pc c = RHeader \/ exists resp pd, pc c = RBody resp pd) ->
  Libc.event_ok ev (stream c) -> Libc.queue (Libc.complete ev (stream c)).1 = Libc.queue (stream c) ->
  is_Some (Libc.final (Libc.complete ev (stream c)).1) ->
  let c' := receive (H1 := Libc.stream_laws) ev c in
  pc c' = RFailing (map_to_list (pending c)) /\ pending c' = ∅ /\ same_out c c' /\ calls c' = calls c.
Proof.
  intros (_ & _ & Hst & rest & _ & Hconn) Hpc Hev Hq Hfin. unfold receive.
  pose proof (rs_complete_law (RecvStreamLaws := Libc.stream_laws) ev (stream c) Hst Hev) as Hlaw.
  change (rs_complete (RecvStreamLaws := Libc.stream_laws) ev (stream c)) with (Libc.complete ev (stream c)) in *.
  destruct (Libc.complete ev (stream c)) as [st woken]. simpl in Hq, Hfin.
  destruct Hlaw as (Hst' & _ & _ & _ & Hwoken & Hwt).
  assert (Hsome : rs_waiter (RecvStreamLaws := Libc.stream_laws) (stream c) = Some me -> woken = Some me).
  { intros Hw. apply Hwoken. split; [done|by right]. }
  assert (Hun : unread (reader c) st = unread (reader c) (stream c)).
  { unfold unread. f_equal. exact Hq. }
  assert (Hread : forall n, fr_consumed (reader c) = 0 -> length (unread (reader c) (stream c)) < n ->
    woken = Some me ->
    exists e r st', read_exact_resume me n (reader c) st = (Threw e, r, st')).
  { intros n Hcons Hlt ->.
    assert (Hbuf : length (fr_buf (reader c)) < n).
    { unfold unread, fr_rest in Hlt. rewrite Hcons, drop_0, length_app in Hlt. lia. }
    pose proof (read_exact_resume_spec (H0 := Libc.stream_laws) me n (reader c) st Hst' Hwt Hcons Hbuf (or_intror Hfin)) as Hpost.
    destruct (read_exact_resume me n (reader c) st) as [[[bs|e| |] r] st']; destruct Hpost as (_ & _ & Hpost).
    - destruct Hpost as [Hle _]. rewrite Hun in Hle. lia.
    - by eexists _, _, _.
    - destruct Hpost as (_ & Hnone & _). exfalso. destruct Hfin as [e He].
      change (Libc.final st = None) in Hnone. congruence.
    - done. }
  destruct Hpc as [Hpc|(resp & pd & Hpc)]; rewrite Hpc in Hconn; destruct_and!.
  - match goal with Hw : rs_waiter _ = Some me |- _ => specialize (Hsome Hw) end. subst woken.
    destruct (Hread sizeof_response) as (e & r & st' & Hre); [done|congruence|done|].
    unfold reader_resume. cbn [pc set_stream]. rewrite Hpc. cbn [reader stream set_stream]. by rewrite Hre.
  - match goal with Hw : rs_waiter _ = Some me |- _ => specialize (Hsome Hw) end. subst woken.
    destruct (Hread (Z.to_nat (resp_res resp))) as (e & r & st' & Hre); [done|done|done|].
    unfold reader_resume. cbn [pc set_stream]. rewrite Hpc. cbn [reader stream set_stream]. by rewrite Hre.
Qed.

Lemma receive_cancel recv c :
  client_inv recv c -> (pc c = RHeader \/ exists resp pd, pc c = RBody resp pd) ->
  let c' := receive (H1 := Libc.stream_laws) Libc.EvCancel c in
  pc c' = RFailing (map_to_list (pending c)) /\ pending c' = ∅ /\ same_out c c' /\ calls c' = calls c.
Proof.
  intros Hc Hpc. destruct (cancel_final (stream c)) as [Hq Hfin].
  by apply (receive_ended recv Libc.EvCancel c Hc Hpc I Hq Hfin).
Qed.

(** After the first half of [~Client] the reader returned and nothing is pending. *)
Lemma cancel_reader_ok recv c :
  client_inv recv c -> at_rest c ->
  let c' := cancel_reader c in
  (exists recv', client_inv recv' c') /\ pc c' = REnd /\ same_out c c' /\
  (pc c = REnd \/ pending c' = ∅) /\
  exists more, calls c' = calls c ++ more /\ Forall (fun ca => ca_res ca = (- ECONNRESET)%Z) more.
Proof.
  intros Hc [Hpc _]. unfold cancel_reader. destruct Hpc as [Hpc|[(resp & pd & Hpc)|Hpc]].
  3: { rewrite Hpc. split; [by exists recv|]. split; [done|]. split; [done|]. split; [by left|].
       exists []. by rewrite app_nil_r. }
  all: rewrite Hpc; cbn [apply].
  all: pose proof (receive_cancel recv c Hc) as Hrec; cbv zeta in Hrec.
  all: pose proof (client_receive_ok (H1 := Libc.stream_laws) recv Libc.EvCancel c Hc
    ltac:(congruence) I) as Hok.
  all: set (c1 := receive (H1 := Libc.stream_laws) Libc.EvCancel c) in *.
  all: destruct Hrec as (Hpc1 & Hpd1 & [Ho1 Hi1] & Hc1); [eauto|].
  all: unfold end_reader; rewrite Hpc1; cbn [failing].
  all: destruct (iter_fail_next _ c1 Hpc1) as (E1 & E2 & [E3 E4] & more & E5 & E6).
  all: split; [eexists; by apply fail_next_recv|]; split; [done|]; split; [split; congruence|].
  all: split; [right; congruence|]; exists more; split; [congruence|done].
Qed.

(** ** The senders *)

Lemma writer_sends c q :
  SendLock.lock_inv q (out c) -> (forall id, SendLock.procs (out c) !! id <> Some SendLock.Leaves) ->
  match q with
  | [] => writer c = None /\ SendLock.procs (out c) = ∅
  | h :: _ => writer c = Some h /\ exists f, SendLock.procs (out c) !! h = Some (SendLock.Sends f)
  end.
Proof.
  intros Hl Hrest. pose proof (SendLock.li_queue Hl) as Hq. unfold writer.
  assert (Hsome : forall id f, SendLock.procs (out c) !! id = Some (SendLock.Sends f) -> head q = Some id).
  { intros id f Hid. specialize (Hq id). by rewrite Hid in Hq. }
  destruct q as [|h q].
  - assert (Hnone : SendLock.procs (out c) = ∅).
    { apply map_empty. intros id. specialize (Hq id). unfold SendLock.queue_ok in Hq.
      destruct (SendLock.procs (out c) !! id) as [[]|]; try done. by apply not_elem_of_nil in Hq. }
    rewrite Hnone. split; [by rewrite map_to_list_empty|done].
  - assert (Hh : exists f, SendLock.procs (out c) !! h = Some (SendLock.Sends f)).
    { specialize (Hq h). specialize (Hrest h). unfold SendLock.queue_ok in Hq.
      destruct (SendLock.procs (out c) !! h) as [[m|f| |]|]; try done; [|by eexists|].
      - exfalso. by apply (proj1 (proj1 (list.NoDup_cons _ _) (SendLock.li_nodup Hl))).
      - exfalso. apply Hq. left. }
    split; [|done]. destruct Hh as [f Hh]. apply elem_of_map_to_list in Hh as Hin.
    set (l := map_to_list (SendLock.procs (out c))) in *.
    destruct (omap _ l) as [|i l1] eqn:Ho.
    + exfalso. assert (Hx : h ∈ omap (fun '(id, p) => match p with SendLock.Sends _ => Some id | _ => None end) l)
        by (apply list_elem_of_omap; by exists (h, SendLock.Sends f)).
      rewrite Ho in Hx. by apply not_elem_of_nil in Hx.
    + simpl. f_equal. assert (Hi : i ∈ omap (fun '(id, p) => match p with SendLock.Sends _ => Some id | _ => None end) l)
        by (rewrite Ho; left).
      apply list_elem_of_omap in Hi as ([j p] & Hj & Heq). destruct p; simplify_eq.
      apply elem_of_map_to_list, Hsome in Hj. by simplify_eq/=.
Qed.

(** With nothing pending, the end of a sender changes nothing but the lock. *)
Lemma send_failed_out id c : pending c = ∅ -> send_failed id c = set_out (SendLock.fail id (out c)) c.
Proof.
  intros Hpd. unfold send_failed. cbn [pending issued set_out]. rewrite Hpd.
  destruct (issued c !! id); [|done]. by rewrite lookup_empty.
Qed.

(** Running senders changes only the lock. *)
Lemma sender_run_out fuel tries id c : pending c = ∅ -> exists o, sender_run fuel tries id c = set_out o c.
Proof.
  revert tries id c. induction fuel as [|fuel IH]; intros tries id c Hpd; simpl; [by exists (out c); destruct c|].
  assert (Hself : exists o, c = set_out o c) by (exists (out c); by destruct c).
  assert (Hnext : forall tries id o, exists o', sender_run fuel tries id (set_out o c) = set_out o' c).
  { intros tries' id' o. destruct (IH tries' id' (set_out o c) Hpd) as [o' ->]. by exists o'. }
  destruct (SendLock.procs (out c) !! id) as [[m|f| |]|]; try done.
  - destruct tries as [|try tries]; [done|]. destruct (LibcQueue.try_op _) as [res|]; [|done].
    destruct (LibcQueue.op_end res) as [n|e]; [apply Hnext|]. rewrite send_failed_out by done. apply Hnext.
  - destruct (Mutex.unlock (SendLock.mtx (out c))).1; [apply Hnext|by eexists].
Qed.

(** The second in line gets the lock, and starts its message. *)
Lemma leave_grants h h' q l :
  SendLock.lock_inv (h :: h' :: q) l -> SendLock.procs l !! h = Some SendLock.Leaves ->
  (forall i m, SendLock.procs l !! i = Some (SendLock.Waits m) -> SendLock.message_bytes m <> []) ->
  exists m f, SendLock.procs l !! h' = Some (SendLock.Waits m) /\ frame_rest f = SendLock.message_bytes m /\
    SendLock.procs (SendLock.leave h l) = <[h' := SendLock.Sends f]> (delete h (SendLock.procs l)).
Proof.
  intros Hl Hh Hmsgs. pose proof (SendLock.li_queue Hl h') as Hq.
  pose proof (SendLock.li_nodup Hl) as Hnd. apply list.NoDup_cons in Hnd as [Hni _].
  assert (Hne : h <> h') by (intros ->; apply Hni; left).
  unfold SendLock.leave. rewrite Hh. cbn [Mutex.guard_drop].
  destruct (Mutex.rel_unlock _ _ (SendLock.li_mtx Hl) ltac:(done)) as [Hwk _].
  destruct (Mutex.unlock (SendLock.mtx l)) as [woken x]. simpl in Hwk. subst woken.
  unfold SendLock.grant. simpl. rewrite lookup_delete_ne by done.
  destruct (SendLock.procs l !! h') as [[m|f| |]|] eqn:Hh'; simpl in Hq; try congruence; try done.
  - destruct (SendLock.call_send_waits m (Hmsgs h' m Hh')) as (f & Hcall & _ & Hrest).
    exists m, f. unfold SendLock.begin_send. rewrite Hcall. done.
  - exfalso. apply Hq. right. left.
Qed.

(** The writer, cancelled, leaves; the next in line finds the socket full. *)
Lemma cancel_writer_left ms tries c q f h :
  SendLock.inv ms (out c) -> SendLock.lock_inv (h :: q) (out c) ->
  SendLock.procs (out c) !! h = Some (SendLock.Sends f) -> pending c = ∅ -> writer c = Some h ->
  match q with
  | [] => SendLock.procs (out (cancel_writer tries c)) = delete h (SendLock.procs (out c))
  | h' :: _ =>
      socket_full tries ->
      exists m f', SendLock.procs (out c) !! h' = Some (SendLock.Waits m) /\
        frame_rest f' = SendLock.message_bytes m /\
        SendLock.procs (out (cancel_writer tries c)) =
          <[h' := SendLock.Sends f']> (delete h (SendLock.procs (out c)))
  end.
Proof.
  intros Hinv Hl Hh Hpd Hw. unfold cancel_writer. rewrite Hw, send_failed_out by done.
  pose proof (SendLock.fail_inv _ _ _ _ Hl Hh) as Hl1.
  set (o1 := SendLock.fail h (out c)) in *. cbn [sender_fuel sender_run out set_out].
  assert (Hprocs : SendLock.procs o1 = <[h := SendLock.Leaves]> (SendLock.procs (out c)))
    by (unfold o1, SendLock.fail; by rewrite Hh).
  assert (Hleaves : SendLock.procs o1 !! h = Some SendLock.Leaves) by (by rewrite Hprocs, lookup_insert_eq).
  assert (Hdel : delete h (SendLock.procs o1) = delete h (SendLock.procs (out c)))
    by (by rewrite Hprocs, delete_insert_eq).
  rewrite Hleaves.
  pose proof (Mutex.rel_unlock _ _ (SendLock.li_mtx Hl1) ltac:(done)) as [Hwk _].
  change ((Mutex.guard_drop true (SendLock.mtx o1)).1) with ((Mutex.unlock (SendLock.mtx o1)).1).
  rewrite Hwk. cbn [head tail]. destruct q as [|h' q]; cbn [head].
  - cbn [out set_out]. unfold SendLock.leave. rewrite Hleaves. cbn [Mutex.guard_drop].
    destruct (Mutex.unlock (SendLock.mtx o1)) as [woken x]. simpl in Hwk. by subst woken.
  - intros Hfull. destruct (leave_grants h h' q o1 Hl1 Hleaves) as (m & f' & Hm & Hrest & Hleave).
    { intros i m Hi. rewrite Hprocs in Hi. apply lookup_insert_Some in Hi as [[_ ?]|[_ Hi]]; [done|].
      destruct Hinv as (Hne & (Hwaits & _) & _). apply Hwaits in Hi.
      by apply (proj1 (Forall_lookup _ _) Hne i). }
    exists m, f'. assert (Hne : h <> h') by congruence.
    rewrite Hprocs, lookup_insert_ne in Hm by done. split; [done|]. split; [done|].
    rewrite <- Hdel, <- Hleave.
    destruct (length tries + size (SendLock.procs (out c))) as [|fuel]; [done|].
    cbn [sender_run out set_out]. rewrite Hleave, lookup_insert_eq.
    destruct tries as [|try tries]; [done|]. simpl in Hfull. rewrite Hfull. done.
Qed.

(** Who waits for the lock is who is behind the head. *)
Lemma waits_tail q l id :
  SendLock.lock_inv q l -> SendLock.procs l !! id <> Some SendLock.Leaves ->
  id ∈ tail q <-> exists m, SendLock.procs l !! id = Some (SendLock.Waits m).
Proof.
  intros Hl Hleaves. pose proof (SendLock.li_queue Hl id) as Hq. unfold SendLock.queue_ok in Hq. split.
  - intros Hin. destruct q as [|h q]; [by apply not_elem_of_nil in Hin|]. simpl in *.
    pose proof (proj1 (proj1 (list.NoDup_cons _ _) (SendLock.li_nodup Hl))) as Hni.
    destruct (SendLock.procs l !! id) as [[]|]; try done; [by eexists|..].
    + congruence.
    + exfalso. apply Hq. by right.
  - intros [m Hm]. by rewrite Hm in Hq.
Qed.
End teardown.

(** C37: destroying a client on the poll-driven queue ends its requests, but not always its
    coroutines. For every client at rest, no request having been made after its reader
    returned, and whatever the socket answers meanwhile, [~Client] leaves the reader returned and every [cid] ever handed out called back exactly
    once, those still in flight with [-ECONNRESET]. When no [send_request] waits for the send lock, none
    is left either. When one does and the socket stays full, the next in line gets the lock
    from the cancelled one, finds that it has to wait, and is left registered in the queue
    with those behind it: the queue's destructor resumes it, after [_pending] and
    [_send_mtx], which it then uses, have been destroyed. *)
Theorem client_destroyed_libc `{NativeEndian} (sync : bool) (buffers : gmap nat bytes) (st : Libc.t)
    (recv : bytes) (c : client Libc.t) (tries : list (nat -> sysret)) :
  Libc.inv st -> Libc.waiter st = None ->
  reach (H1 := Libc.stream_laws) (client_init sync buffers st) recv c ->
  (Z.of_nat (length (issued c)) < 2 ^ 64 - 1)%Z -> at_rest c -> (pc c = REnd -> pending c = ∅) ->
  let c' := Client_dtor tries c in
  let procs c := SendLock.procs (out c) in
  pc c' = REnd /\ issued c' = issued c /\
  ca_cid <$> calls c' ≡ₚ seqZ 1 (Z.of_nat (length (issued c))) /\
  (exists more, calls c' = calls c ++ more /\ Forall (fun ca => ca_res ca = (- ECONNRESET)%Z) more) /\
  ((forall id m, procs c !! id <> Some (SendLock.Waits m)) -> procs c' = ∅) /\
  (socket_full tries -> (exists id m, procs c !! id = Some (SendLock.Waits m)) ->
     exists id f m, procs c !! id = Some (SendLock.Waits m) /\
       procs c' !! id = Some (SendLock.Sends f) /\ frame_rest f = SendLock.message_bytes m /\
       forall id' m', id' <> id -> procs c !! id' = Some (SendLock.Waits m') ->
         procs c' !! id' = Some (SendLock.Waits m')).
Proof.
  intros Hst Hw Hreach Hn Hrest Hlate. cbv zeta.
  pose proof (client_reach_ok (H1 := Libc.stream_laws) _ _ _ _ _ Hst Hw Hreach Hn) as Hc.
  destruct (cancel_reader_ok _ c Hc Hrest) as ([recv1 Hc1] & Hpc1 & [Ho1 Hi1] & Hpd1 & more & Hcalls & Hmore).
  unfold Client_dtor. set (c1 := cancel_reader c) in *.
  assert (Hpd : pending c1 = ∅).
  { destruct Hpd1 as [Hend|?]; [|done]. unfold c1, cancel_reader. rewrite Hend. auto. }
  assert (Hout : exists o, cancel_writer tries c1 = set_out o c1).
  { unfold cancel_writer. destruct (writer c1); [|exists (out c1); by destruct c1].
    rewrite send_failed_out by done. destruct (sender_run_out (sender_fuel tries c1) tries n
      (set_out (SendLock.fail n (out c1)) c1) Hpd) as [o ->]. by exists o. }
  split_and!; [by destruct Hout as [o ->]|by destruct Hout as [o ->]| | | |].
  - destruct Hout as [o ->]. destruct Hc1 as (Hb & _). pose proof (bk_where Hb) as Hwh.
    rewrite Hpc1, Hpd, map_to_list_empty, Hi1 in Hwh. exact Hwh.
  - exists more. by destruct Hout as [o ->].
  - intros Hnone. destruct Hc1 as (_ & Hs & _). pose proof Hs as (_ & _ & q & Hl & _).
    destruct Hrest as [_ Hrest]. rewrite <- Ho1 in Hrest, Hnone.
    pose proof (writer_sends c1 q Hl Hrest) as Hwr. destruct q as [|h q].
    + unfold cancel_writer. by destruct Hwr as [-> ->].
    + destruct Hwr as [Hwr [f Hf]]. pose proof (cancel_writer_left _ tries c1 q f h Hs Hl Hf Hpd Hwr) as Hleft.
      assert (Hq : q = []).
      { destruct q as [|h' q]; [done|]. exfalso.
        destruct (proj1 (waits_tail _ _ h' Hl (Hrest h')) ltac:(left)) as [m Hm]. by apply (Hnone h' m). }
      subst q. rewrite Hleft. apply map_empty. intros i. destruct (decide (i = h)) as [->|Hne];
        [by rewrite lookup_delete_eq|rewrite lookup_delete_ne by done].
      pose proof (SendLock.li_queue Hl i) as Hq. unfold SendLock.queue_ok in Hq. specialize (Hrest i).
      destruct (SendLock.procs (out c1) !! i) as [[]|]; simpl in Hq; try done; [|congruence].
      by apply not_elem_of_nil in Hq.
  - intros Hfull (id0 & m0 & Hid0). destruct Hc1 as (_ & Hs & _). pose proof Hs as (_ & _ & q & Hl & _).
    destruct Hrest as [_ Hrest]. rewrite <- Ho1 in Hrest, Hid0 |- *.
    pose proof (writer_sends c1 q Hl Hrest) as Hwr.
    pose proof (proj2 (waits_tail q _ id0 Hl (Hrest id0)) (ex_intro _ m0 Hid0)) as Hin.
    destruct q as [|h [|h' q]]; [by apply not_elem_of_nil in Hin..|].
    destruct Hwr as [Hwr [f Hf]].
    destruct (cancel_writer_left _ tries c1 (h' :: q) f h Hs Hl Hf Hpd Hwr Hfull) as (m & f' & Hm & Hfr & ->).
    exists h', f', m. split; [done|]. split; [by rewrite lookup_insert_eq|]. split; [done|].
    intros i mi Hne Hi. rewrite lookup_insert_ne, lookup_delete_ne by congruence. done.
Qed.
