(* ===== verification/ClientApi.v ===== *)
(** * Connecting, and the C API ([client/client.cpp], [client/capi.cpp])

    The constructor of [Client] over the results of the system calls it makes, with the
    descriptor it owns, and the C entry points, which turn exceptions into [errno]s. *)

From S2P Require Import Prelude Protocol RecvStream Queue Client.

Open Scope Z_scope.

(** [resolve_ipv4(host)]: [inet_pton] recognised the address, or else [getaddrinfo]
    gives an error or the first address. *)
Definition resolve_ipv4 (inet_pton : option Z) (getaddrinfo : Z + Z) : outcome Z :=
  match inet_pton with
  | Some addr => Ok addr
  | None =>
      match getaddrinfo with
      | inl gai_err => Throw (invalid_argument "easybd: could not resolve host")
      | inr addr => Ok addr
      end
  end.

(** One [_queue->step(-1)] of the constructor's loop. *)
Inductive connect_step :=
  | StepIdle                          (** [connect_task] is still waiting *)
  | StepConnected (err : option exn)  (** [connect_task] ended: [done], [err] *)
  | StepThrows (e : exn).             (** [step] itself threw *)

(** [spawn(connect_task(...))], which may end at once, and [while (!connected)
    _queue->step(-1)]: [None] while it goes on. *)
Fixpoint pump (spawned : option (option exn)) (steps : list connect_step) : option (outcome (option exn)) :=
  match spawned, steps with
  | Some err, _ => Some (Ok err)
  | None, [] => None
  | None, StepIdle :: steps => pump None steps
  | None, StepConnected err :: steps => pump (Some err) steps
  | None, StepThrows e :: _ => Some (Throw e)
  end.

(** What the system answers to the constructor. *)
Record connect_env := {
  ce_ring : sysret;                     (** [io_uring_queue_init] *)
  ce_socket : sysret;
  ce_getfl : sysret;
  ce_setfl : Z -> sysret;
  ce_nodelay : sysret;
  ce_inet_pton : option Z;
  ce_getaddrinfo : Z + Z;
  ce_connect : option (option exn);     (** [connect_task], if it does not suspend *)
  ce_steps : list connect_step;
  ce_stream : option exn;               (** what [recv_stream] throws in [reader_loop] *)
}.

(** How a call ends: it may wait for the connection, or end the process. *)
Inductive call_end (A : Type) := Waits | Ends (a : A) | Terminates.
Arguments Waits {A}.
Arguments Ends {A} a.
Arguments Terminates {A}.

(** [Client::Client]: how it ends, with the descriptors it opened and left open.
    [reader_loop] makes its stream outside of its [try], and it is detached: what that
    throws ends in [std::terminate]. *)
Definition Client_ctor `{BuildConfig} (backend : Backend) (env : connect_env)
    : call_end (outcome Z * list Z) :=
  match create (ce_ring env) backend with
  | Throw e => Ends (Throw e, [])
  | Ok _ =>
      match ce_socket env with
      | Errno e => Ends (Throw (system_error e), [])
      | Ret fd =>
          match set_nonblocking (ce_getfl env) (ce_setfl env) with
          | Throw e => Ends (Throw e, [fd])
          | Ok _ =>
              match set_tcp_nodelay (ce_nodelay env) with
              | Throw e => Ends (Throw e, [fd])
              | Ok _ =>
                  match resolve_ipv4 (ce_inet_pton env) (ce_getaddrinfo env) with
                  | Throw e => Ends (Throw e, [])
                  | Ok addr =>
                      match pump (ce_connect env) (ce_steps env) with
                      | None => Waits
                      | Some (Throw e) => Ends (Throw e, [fd])
                      | Some (Ok (Some e)) => Ends (Throw e, [])
                      | Some (Ok None) =>
                          match ce_stream env with
                          | Some _ => Terminates
                          | None => Ends (Ok fd, [fd])
                          end
                      end
                  end
              end
          end
      end
  end.

(** ** The C API *)

(** The [catch] clauses: the same [errno] for the same exception in every entry point. *)
Definition errno_of (e : exn) : Z :=
  match e with
  | system_error code => - code
  | bad_alloc => - ENOMEM
  | runtime_error _ | invalid_argument _ | foreign => - EINVAL
  end.

Definition guarded (m : outcome Z) : Z :=
  match m with
  | Ok r => r
  | Throw e => errno_of e
  end.

(** [to_easyio_backend]. *)
Definition to_easyio_backend (backend : Z) : outcome Backend :=
  if bool_decide (backend = 0) then Ok IoUring
  else if bool_decide (backend = 1) then Ok Libc
  else Throw (invalid_argument "easybd: unknown backend").

Definition easybd_io_uring_available `{BuildConfig} : Z := if io_uring_available then 1 else 0.

(** [easybd_client_create]: what it returns and what it stores in [*out]. *)
Definition easybd_client_create `{BuildConfig} (backend : Z) (env : connect_env)
    : call_end (Z * option Z) :=
  match to_easyio_backend backend with
  | Throw e => Ends (errno_of e, None)
  | Ok b =>
      match Client_ctor b env with
      | Waits => Waits
      | Ends (Ok client, _) => Ends (0, Some client)
      | Ends (Throw e, _) => Ends (errno_of e, None)
      | Terminates => Terminates
      end
  end.

Section entry_points.
Context `{NativeEndian} {St : Type}.

Definition easybd_client_pread (b : nat) (size offset : Z) (k : nat) (c : client St) : Z * client St :=
  let '(r, c) := pread b size offset k c in (guarded (Ok r), c).

Definition easybd_client_pwrite (data : bytes) (offset : Z) (k : nat) (c : client St) : Z * client St :=
  let '(r, c) := pwrite data offset k c in (guarded (Ok r), c).
End entry_points.

(** [easybd_client_wait]: the count [wait] returns, or its exception. *)
Definition easybd_client_wait (dispatched : outcome Z) : Z := guarded dispatched.

(** ** Properties *)

(** The system reports failures with positive [errno]s. *)
Definition errno_positive (e : exn) : Prop :=
  match e with system_error code => 0 < code | _ => True end.

Definition sysret_ok (r : sysret) : Prop :=
  match r with Ret v => 0 <= v | Errno e => 0 < e end.

Definition ended_ok (err : option exn) : Prop :=
  match err with Some e => errno_positive e | None => True end.

Definition env_ok (env : connect_env) : Prop :=
  sysret_ok (ce_ring env) /\ sysret_ok (ce_socket env) /\ sysret_ok (ce_getfl env) /\
  (forall v, sysret_ok (ce_setfl env v)) /\ sysret_ok (ce_nodelay env) /\
  (forall err, ce_connect env = Some err -> ended_ok err) /\
  Forall (fun s => match s with
                   | StepIdle => True
                   | StepConnected err => ended_ok err
                   | StepThrows e => errno_positive e
                   end) (ce_steps env).

Lemma errno_of_negative e : errno_positive e -> errno_of e < 0.
Proof. destruct e; simpl; unfold ENOMEM, EINVAL; lia. Qed.

Lemma pump_ok env r :
  env_ok env -> pump (ce_connect env) (ce_steps env) = Some r ->
  match r with Ok err => ended_ok err | Throw e => errno_positive e end.
Proof.
  intros (_ & _ & _ & _ & _ & Hsp & Hst). revert Hsp. generalize (ce_connect env).
  induction Hst as [|s steps Hs _ IH]; intros [err|] Hsp; simpl; try done; try (intros [= <-]; by apply Hsp).
  destruct s as [|err|e]; [by apply IH| |by intros [= <-]]. apply IH. by intros ? [= <-].
Qed.

(** The socket was made and set up, and the address resolved: the constructor connects. *)
Definition ready_to_connect `{BuildConfig} (b : Backend) (env : connect_env) (fd : Z) : Prop :=
  create (ce_ring env) b = Ok b /\ ce_socket env = Ret fd /\
  (exists fl, set_nonblocking (ce_getfl env) (ce_setfl env) = Ok fl) /\
  set_tcp_nodelay (ce_nodelay env) = Ok tt /\
  exists addr, resolve_ipv4 (ce_inet_pton env) (ce_getaddrinfo env) = Ok addr.

(** It fails with [e] at a moment when nothing closes the socket. *)
Definition leaks `{BuildConfig} (b : Backend) (env : connect_env) (fd : Z) (e : exn) : Prop :=
  create (ce_ring env) b = Ok b /\ ce_socket env = Ret fd /\
  (set_nonblocking (ce_getfl env) (ce_setfl env) = Throw e \/
   (exists fl, set_nonblocking (ce_getfl env) (ce_setfl env) = Ok fl) /\
     set_tcp_nodelay (ce_nodelay env) = Throw e \/
   ready_to_connect b env fd /\ pump (ce_connect env) (ce_steps env) = Some (Throw e)).

Lemma create_same `{BuildConfig} ring b b' : create ring b = Ok b' -> b' = b.
Proof. unfold create. by repeat case_match; intros; simplify_eq. Qed.

(** Every way through the constructor. *)
Lemma ctor_cases `{BuildConfig} b env :
  match Client_ctor b env with
  | Waits => exists fd, ready_to_connect b env fd /\ pump (ce_connect env) (ce_steps env) = None
  | Terminates => (exists fd, ready_to_connect b env fd) /\
      pump (ce_connect env) (ce_steps env) = Some (Ok None) /\ is_Some (ce_stream env)
  | Ends (Ok client, open) => open = [client] /\ ready_to_connect b env client /\
      pump (ce_connect env) (ce_steps env) = Some (Ok None) /\ ce_stream env = None
  | Ends (Throw e, open) =>
      (exists fd, open = [fd] /\ leaks b env fd e) \/ (open = [] /\ forall fd e, ~ leaks b env fd e)
  end.
Proof.
  unfold Client_ctor, leaks, ready_to_connect.
  destruct (create _ b) as [b'|] eqn:Hc; [apply create_same in Hc as ->|right; naive_solver].
  destruct (ce_socket env) as [fd|]; [|right; naive_solver].
  destruct (set_nonblocking _ _) as [fl|]; [|left; eauto 10].
  destruct (set_tcp_nodelay _) as [[]|]; [|left; naive_solver].
  destruct (resolve_ipv4 _ _) as [addr|]; [|right; naive_solver].
  destruct (pump _ _) as [[[ec|]|ep]|]; [right; naive_solver| |left; naive_solver|naive_solver].
  destruct (ce_stream env) eqn:Hs; naive_solver.
Qed.

Lemma ctor_connected `{BuildConfig} b env fd :
  ready_to_connect b env fd -> pump (ce_connect env) (ce_steps env) = Some (Ok None) ->
  Client_ctor b env = match ce_stream env with Some _ => Terminates | None => Ends (Ok fd, [fd]) end.
Proof. intros (Hc & Hf & [fl Hn] & Ht & [addr Hr]) Hp. unfold Client_ctor. by rewrite Hc, Hf, Hn, Ht, Hr, Hp. Qed.

(** The exceptions of the constructor carry positive [errno]s. *)
Lemma ctor_throws `{BuildConfig} b env e open :
  env_ok env -> Client_ctor b env = Ends (Throw e, open) -> errno_positive e.
Proof.
  intros Henv. pose proof (pump_ok env) as Hpump. unfold Client_ctor.
  pose proof Henv as (Hring & Hsock & Hget & Hset & Hnd & _).
  destruct (create _ b) eqn:Hc; [|unfold create in Hc; repeat case_match; by intros; simplify_eq/=].
  destruct (ce_socket env); [|by intros; simplify_eq].
  destruct (set_nonblocking _ _) eqn:Hnb.
  2:{ intros [= <- <-]. unfold set_nonblocking in Hnb. destruct (ce_getfl env) as [fl|]; simplify_eq; [|done].
      pose proof (Hset (Z.lor fl O_NONBLOCK)) as Hs. by destruct (ce_setfl env _); simplify_eq. }
  destruct (set_tcp_nodelay _) eqn:Hno; [|unfold set_tcp_nodelay in Hno; by destruct (ce_nodelay env); intros; simplify_eq].
  destruct (resolve_ipv4 _ _) eqn:Hres; [|unfold resolve_ipv4 in Hres; by repeat case_match; intros; simplify_eq].
  destruct (pump _ _) as [[[ec|]|ep]|]; intros Hend; try done; simplify_eq;
    [|by case_match|]; by apply (Hpump _ Henv eq_refl).
Qed.

(** C39: [easybd_client_create] gives a client that owns the one open socket, or a negative
    [errno], and leaks the socket in exactly three cases. For every answer of the system:
    it returns 0 and stores a client if and only if the queue, the socket, its options, the
    address, the connection and the stream of [reader_loop] all succeed; the socket of that
    client is then the one descriptor open. A failure of the stream, and nothing else, ends
    the process ([std::terminate]). Every other end is a negative [errno] with [*out] left
    alone; the socket stays open then if and only if [set_nonblocking] failed,
    [set_tcp_nodelay] failed, or [step] itself threw while connecting, and in no other case
    does any descriptor stay open. *)
Theorem create_owns_socket `{BuildConfig} (backend : Z) (env : connect_env) :
  env_ok env ->
  match to_easyio_backend backend with
  | Throw _ => easybd_client_create backend env = Ends (- EINVAL, None)
  | Ok b =>
      let connected fd :=
        ready_to_connect b env fd /\ pump (ce_connect env) (ce_steps env) = Some (Ok None) in
      (forall fd, easybd_client_create backend env = Ends (0, Some fd) <->
         connected fd /\ ce_stream env = None) /\
      (easybd_client_create backend env = Terminates <->
         (exists fd, connected fd) /\ is_Some (ce_stream env)) /\
      forall ret stored, easybd_client_create backend env = Ends (ret, stored) ->
        match stored with
        | Some fd => ret = 0 /\ Client_ctor b env = Ends (Ok fd, [fd])
        | None =>
            ret < 0 /\ exists e open, Client_ctor b env = Ends (Throw e, open) /\ ret = errno_of e /\
              match open with
              | [] => forall fd e', ~ leaks b env fd e'
              | fd :: others => others = [] /\ leaks b env fd e
              end
        end
  end.
Proof.
  intros Henv. unfold easybd_client_create.
  destruct (to_easyio_backend backend) as [b|eb] eqn:Hb.
  2:{ unfold to_easyio_backend in Hb. by repeat case_bool_decide; simplify_eq. }
  pose proof (ctor_cases b env) as Hc. pose proof (ctor_throws b env) as Ht.
  pose proof (ctor_connected b env) as Hconn. cbv zeta. split; [|split].
  - intros fd. split.
    + destruct (Client_ctor b env) as [|[[fd'|e] open]|]; intros [= <-]. destruct Hc as (_ & ? & ? & ?). done.
    + intros [[Hr Hp] Hs]. by rewrite (Hconn fd Hr Hp), Hs.
  - split.
    + destruct (Client_ctor b env) as [|[[fd'|e] open]|]; try done. intros _.
      destruct Hc as ([fd Hr] & Hp & Hs). eauto.
    + intros [(fd & Hr & Hp) [e Hs]]. by rewrite (Hconn fd Hr Hp), Hs.
  - intros ret stored. destruct (Client_ctor b env) as [|[[fd|e] open]|]; intros [= <- <-].
    + by destruct Hc as (-> & _).
    + split; [by apply errno_of_negative, (Ht e open)|]. exists e, open.
      split_and!; [done..|]. by destruct Hc as [(fd & -> & ?)|[-> ?]].
Qed.

(** Connecting takes one [step] that brings nothing, and succeeds. *)
Definition example_env : connect_env :=
  {| ce_ring := Ret 0; ce_socket := Ret 3; ce_getfl := Ret 2; ce_setfl := fun _ => Ret 0; ce_nodelay := Ret 0;
     ce_inet_pton := None; ce_getaddrinfo := inr 16777343; ce_connect := None;
     ce_steps := [StepIdle; StepConnected None]; ce_stream := None |}.

(** The same, but the socket does not take [TCP_NODELAY]. *)
Definition leaking_env : connect_env :=
  {| ce_ring := Ret 0; ce_socket := Ret 3; ce_getfl := Ret 2; ce_setfl := fun _ => Ret 0; ce_nodelay := Errno EBADF;
     ce_inet_pton := None; ce_getaddrinfo := inr 16777343; ce_connect := None;
     ce_steps := [StepIdle; StepConnected None]; ce_stream := None |}.

Lemma example_env_ok : env_ok example_env /\ env_ok leaking_env.
Proof. split; split_and!; simpl; try lia; try done; repeat constructor. Qed.

Lemma create_owns_socket_witness :
  (easybd_client_create (H := true) 1 example_env = Ends (0, Some 3) /\
   Client_ctor (H := true) Libc example_env = Ends (Ok 3, [3])) /\
  exists e open, Client_ctor (H := true) Libc leaking_env = Ends (Throw e, open) /\
    match open with
    | [] => forall fd e', ~ leaks (H := true) Libc leaking_env fd e'
    | fd :: others => others = [] /\ leaks (H := true) Libc leaking_env fd e
    end.
Proof.
  split.
  - split; [by vm_compute|].
    destruct (create_owns_socket (H := true) 1 example_env (proj1 example_env_ok)) as (_ & _ & Hend).
    by apply (Hend 0 (Some 3) eq_refl).
  - destruct (create_owns_socket (H := true) 1 leaking_env (proj2 example_env_ok)) as (_ & _ & Hend).
    destruct (Hend (- EBADF) None eq_refl) as (_ & e & open & Hc & _ & Hl). by exists e, open.
Defined.
