(* ===== verification/ServerMain.v ===== *)
(** * The server program ([server/main.cpp], [server/server.cpp])

    The command line, the sockets and files it opens with the descriptors they own, the
    accept loop, and the workers' shutdown protocol. Strings are lists of characters. *)

From Stdlib Require Import Ascii.
From S2P Require Import Prelude Queue.
From S2P Require LibcQueue.

Open Scope Z_scope.

Abbreviation chars := (list ascii) (only parsing).

(** ** Parsing ([main.cpp]) *)

Definition isdigit (c : ascii) : bool :=
  bool_decide (48 <= Z.of_nat (nat_of_ascii c) <= 57).

Definition digit (c : ascii) : Z := Z.of_nat (nat_of_ascii c) - 48.

Definition isspace (c : ascii) : bool :=
  bool_decide (nat_of_ascii c = 32%nat) || bool_decide (9 <= Z.of_nat (nat_of_ascii c) <= 13).

(** The leading digits of a string, as a number. *)
Fixpoint digits (acc : Z) (s : chars) : Z :=
  match s with
  | c :: s => if isdigit c then digits (acc * 10 + digit c) s else acc
  | [] => acc
  end.

Fixpoint skip_spaces (s : chars) : chars :=
  match s with
  | c :: s' => if isspace c then skip_spaces s' else s
  | [] => []
  end.

Definition minus : ascii := "-"%char.
Definition plus : ascii := "+"%char.
Definition colon : ascii := ":"%char.

(** A number with an optional sign: is it negative, and its magnitude. *)
Definition signed (s : chars) : bool * Z :=
  match skip_spaces s with
  | c :: s' =>
      if bool_decide (c = minus) then (true, digits 0 s')
      else if bool_decide (c = plus) then (false, digits 0 s')
      else (false, digits 0 (c :: s'))
  | [] => (false, 0)
  end.

(** [strtol(s, nullptr, 10)]: saturates. *)
Definition strtol (s : chars) : Z :=
  let '(neg, n) := signed s in
  if neg then Z.max (- 2 ^ 63) (- n) else Z.min (2 ^ 63 - 1) n.

(** [strtoul(s, nullptr, 10)]: saturates too; a minus sign negates the result. *)
Definition strtoul (s : chars) : Z :=
  let '(neg, n) := signed s in
  if bool_decide (2 ^ 64 <= n) then 2 ^ 64 - 1 else if neg then u64 (- n) else n.

(** [static_cast<unsigned int>]. *)
Definition u32 (z : Z) : Z := z `mod` 2 ^ 32.

(** [s.rfind(':')]. *)
Fixpoint rfind (ch : ascii) (s : chars) : option nat :=
  match s with
  | [] => None
  | c :: s =>
      match rfind ch s with
      | Some i => Some (S i)
      | None => if bool_decide (c = ch) then Some 0%nat else None
      end
  end.

(** [parse_bind_addr]: the host and the port. *)
Definition parse_bind_addr (s : chars) : outcome (chars * Z) :=
  match rfind colon s with
  | None => Throw (invalid_argument "easybd-server: --bind must be HOST:PORT")
  | Some pos =>
      if bool_decide (pos = 0%nat) || bool_decide ((pos + 1)%nat = length s) then
        Throw (invalid_argument "easybd-server: --bind must be HOST:PORT")
      else
        let port_str := drop (pos + 1) s in
        if forallb isdigit port_str then
          let p := strtol port_str in
          if bool_decide (p <= 0) || bool_decide (65535 < p) then
            Throw (invalid_argument "easybd-server: --bind port out of range")
          else Ok (take pos s, p)
        else Throw (invalid_argument "easybd-server: --bind port must be numeric")
  end.

Definition chars_of (s : string) : chars := String.list_ascii_of_string s.

Definition parse_queue_type `{BuildConfig} (s : chars) : outcome Backend :=
  if bool_decide (s = chars_of "io_uring") then
    if negb io_uring_available then
      Throw (invalid_argument
        "easybd-server: queue-type io_uring requested but this build was configured with --without-liburing")
    else Ok IoUring
  else if bool_decide (s = chars_of "libc") then Ok Libc
  else Throw (invalid_argument "easybd-server: --queue-type must be io_uring or libc").

Definition parse_direct (s : chars) : outcome bool :=
  if bool_decide (s = chars_of "1") then Ok true
  else if bool_decide (s = chars_of "0") then Ok false
  else Throw (invalid_argument "easybd-server: --direct must be 0 or 1").

(** ** [main] *)

(** [struct ServerConfig] ([server.hpp]). *)
Record ServerConfig := MkConfig {
  bind_host : chars;
  bind_port : Z;
  file_path : chars;
  backend : Backend;
  queue_depth : Z;
  threads : Z;
  multishot_recv : bool;
  direct_io : bool;
}.

Definition kDefaultQueueDepth : Z := 128.

(** What [getopt_long] returns at each call: an option of the table with its argument, or
    ['?']. *)
Inductive option_read :=
  | OptBind (arg : chars) | OptFile (arg : chars) | OptQueueType (arg : chars)
  | OptQueueDepth (arg : chars) | OptThreads (arg : chars) | OptMultishot
  | OptDirect (arg : chars) | OptHelp | OptVersion | OptUnknown.

(** The locals of [main]. *)
Record args := Args {
  ar_config : ServerConfig;
  ar_bind : bool;
  ar_file : bool;
}.

Inductive parse_result :=
  | Exits (code : Z)      (** [return code] from the switch *)
  | Parsed (a : args).    (** the options are exhausted *)

(** One turn of the switch. *)
Definition main_option `{BuildConfig} (o : option_read) (a : args) : outcome parse_result :=
  let '(Args (MkConfig h p f b q t m d) hb hf) := a in
  match o with
  | OptBind s =>
      let! hp := parse_bind_addr s in
      Ok (Parsed (Args (MkConfig hp.1 hp.2 f b q t m d) true hf))
  | OptFile s => Ok (Parsed (Args (MkConfig h p s b q t m d) hb true))
  | OptQueueType s =>
      let! b' := parse_queue_type s in Ok (Parsed (Args (MkConfig h p f b' q t m d) hb hf))
  | OptQueueDepth s => Ok (Parsed (Args (MkConfig h p f b (u32 (strtoul s)) t m d) hb hf))
  | OptThreads s => Ok (Parsed (Args (MkConfig h p f b q (u32 (strtoul s)) m d) hb hf))
  | OptMultishot => Ok (Parsed (Args (MkConfig h p f b q t true d) hb hf))
  | OptDirect s =>
      let! d' := parse_direct s in Ok (Parsed (Args (MkConfig h p f b q t m d') hb hf))
  | OptHelp | OptVersion => Ok (Exits 0)
  | OptUnknown => Ok (Exits 2)
  end.

(** [while ((opt = getopt_long(...)) != -1)]. *)
Fixpoint main_options `{BuildConfig} (os : list option_read) (a : args) : outcome parse_result :=
  match os with
  | [] => Ok (Parsed a)
  | o :: os =>
      let! r := main_option o a in
      match r with
      | Exits code => Ok (Exits code)
      | Parsed a => main_options os a
      end
  end.

(** The defaults; [hardware] is [hardware_concurrency()]. *)
Definition default_args `{BuildConfig} (hardware : Z) : args :=
  Args (MkConfig [] 0 [] (if io_uring_available then IoUring else Libc) kDefaultQueueDepth
          (Z.max 1 hardware) false true) false false.

(** Does [main] start the server, and with what, or its exit code? [positional]: are there
    arguments left after the options? *)
Inductive main_result := MExits (code : Z) | MServes (config : ServerConfig).

Definition main `{BuildConfig} (hardware : Z) (os : list option_read) (positional : bool) : main_result :=
  match main_options os (default_args hardware) with
  | Throw _ => MExits 1
  | Ok (Exits code) => MExits code
  | Ok (Parsed a) =>
      if positional then MExits 2
      else if negb (ar_bind a) || negb (ar_file a) then MExits 2
      else if bool_decide (threads (ar_config a) = 0) then MExits 2
      else MServes (ar_config a)
  end.

(** *** Correctness *)

Lemma rfind_None ch s : rfind ch s = None -> ch ∉ s.
Proof.
  induction s as [|c s IH]; simpl; [by intros _ ?%not_elem_of_nil|].
  destruct (rfind ch s); [done|]. case_bool_decide; [done|]. intros _.
  rewrite not_elem_of_cons. split; [congruence|auto].
Qed.

Lemma rfind_Some ch s i :
  rfind ch s = Some i <-> exists a b, s = a ++ ch :: b /\ length a = i /\ ch ∉ b.
Proof.
  revert i. induction s as [|c s IH]; intros i; simpl.
  { split; [done|]. intros ([|] & b & Heq & _); done. }
  destruct (rfind ch s) as [j|] eqn:Hj.
  - split.
    + intros [= <-]. destruct (proj1 (IH j) eq_refl) as (a & b & -> & <- & Hb).
      by exists (c :: a), b.
    + intros ([|c' a] & b & Heq & <- & Hb); simplify_eq/=.
      * destruct (proj1 (IH j) eq_refl) as (a & b' & -> & _ & _). exfalso. apply Hb.
        apply elem_of_app. right. left.
      * f_equal. f_equal. assert (Some j = Some (length a)) by (apply IH; eauto). congruence.
  - pose proof (rfind_None _ _ Hj) as Hn. case_bool_decide as Hc.
    + subst c. split.
      * intros [= <-]. by exists [], s.
      * intros ([|c' a] & b & Heq & <- & Hb); simplify_eq/=; [done|].
        exfalso. apply Hn. apply elem_of_app. right. left.
    + split; [done|]. intros ([|c' a] & b & Heq & <- & Hb); simplify_eq/=.
      exfalso. apply Hn. apply elem_of_app. right. left.
Qed.

(** The value of a string of digits. *)
Definition value (s : chars) : Z := fold_left (fun acc c => acc * 10 + digit c) s 0.

Lemma digits_all acc s :
  forallb isdigit s = true -> digits acc s = fold_left (fun acc c => acc * 10 + digit c) s acc.
Proof.
  revert acc. induction s as [|c s IH]; intros acc; simpl; [done|].
  intros [-> Hs]%andb_prop. auto.
Qed.

Lemma isdigit_plain c : isdigit c = true -> isspace c = false /\ c <> minus /\ c <> plus /\ c <> colon.
Proof.
  unfold isdigit, isspace. intros Hd%bool_decide_eq_true. split_and!.
  - rewrite !bool_decide_false by lia. done.
  - intros ->. vm_compute in Hd. by destruct Hd.
  - intros ->. vm_compute in Hd. by destruct Hd.
  - intros ->. vm_compute in Hd. by destruct Hd.
Qed.

Lemma strtol_digits s :
  s <> [] -> forallb isdigit s = true -> strtol s = Z.min (2 ^ 63 - 1) (value s).
Proof.
  intros Hne Hs. unfold strtol, signed. destruct s as [|c s]; [done|]. pose proof Hs as Hs'.
  simpl in Hs'. apply andb_prop in Hs' as [Hc _]. destruct (isdigit_plain c Hc) as (Hsp & Hm & Hp & _).
  cbn [skip_spaces]. rewrite Hsp, !bool_decide_false by done. by rewrite digits_all.
Qed.

(** [--bind HOST:PORT] is accepted exactly when it is one. The address parses to host
    [h] and port [p] if and only if it is [h], a colon and digits of value [p], with [h]
    not empty and [1 <= p <= 65535]; numbers too long for a [long] included, and the host
    is everything before the last colon. *)
Theorem parse_bind_addr_correct (s h : list ascii) (p : Z) :
  parse_bind_addr s = Ok (h, p) <->
  exists ds, s = h ++ colon :: ds /\ h <> [] /\ ds <> [] /\ forallb isdigit ds = true /\
    value ds = p /\ 1 <= p <= 65535.
Proof.
  unfold parse_bind_addr. split.
  - destruct (rfind colon s) as [pos|] eqn:Hr; [|done].
    apply rfind_Some in Hr as (a & b & -> & <- & Hb).
    rewrite length_app. simpl.
    destruct (bool_decide (length a = 0%nat)) eqn:E1; [done|]. apply bool_decide_eq_false in E1.
    destruct (bool_decide ((length a + 1)%nat = (length a + S (length b))%nat)) eqn:E2; [done|].
    apply bool_decide_eq_false in E2. simpl.
    replace (drop (length a + 1) (a ++ colon :: b)) with b by (by rewrite drop_app_add).
    destruct (forallb isdigit b) eqn:Hd; [|done].
    assert (Hne : b <> []) by (destruct b; simpl in *; [lia|done]).
    rewrite strtol_digits by done.
    destruct (bool_decide (_ <= 0)) eqn:E3; [done|]. apply bool_decide_eq_false in E3.
    destruct (bool_decide (65535 < _)) eqn:E4; [done|]. apply bool_decide_eq_false in E4. simpl.
    rewrite take_app_length. intros [= <- <-]. exists b. split_and!; try done; try lia.
    by destruct a.
  - intros (ds & -> & Hh & Hds & Hd & <- & Hp).
    assert (Hr : rfind colon (h ++ colon :: ds) = Some (length h)).
    { apply rfind_Some. exists h, ds. split_and!; try done. intros Hin.
      rewrite forallb_forall in Hd. destruct (isdigit_plain colon) as (_ & _ & _ & ?); [|done].
      apply Hd. by apply list_elem_of_In. }
    rewrite Hr, length_app. simpl. rewrite !bool_decide_false by (destruct h, ds; simpl; done || lia). simpl.
    replace (drop (length h + 1) (h ++ colon :: ds)) with ds by (by rewrite drop_app_add).
    rewrite Hd, strtol_digits by done.
    rewrite !bool_decide_false by lia. simpl. rewrite take_app_length. do 2 f_equal. lia.
Qed.

(** What the options parsed so far guarantee. *)
Definition args_ok `{BuildConfig} (a : args) : Prop :=
  let cfg := ar_config a in
  (ar_bind a = true -> bind_host cfg <> [] /\ 1 <= bind_port cfg <= 65535) /\
  (backend cfg = IoUring -> io_uring_available = true) /\
  0 <= threads cfg < 2 ^ 32 /\ 0 <= queue_depth cfg < 2 ^ 32.

Lemma u32_range z : 0 <= u32 z < 2 ^ 32.
Proof. apply Z.mod_pos_bound. lia. Qed.

Lemma main_option_ok `{BuildConfig} o a a' :
  args_ok a -> main_option o a = Ok (Parsed a') -> args_ok a'.
Proof.
  intros (Hb & Hq & Ht & Hd) Ho. destruct a as [[h p f b q t m d] hb hf].
  destruct o as [s|s|s|s|s| |s| | |]; simpl in Ho; simplify_eq; try done.
  - destruct (parse_bind_addr s) as [[h' p']|e] eqn:Hs; simplify_eq/=.
    apply parse_bind_addr_correct in Hs as (ds & _ & ? & _ & _ & _ & ?).
    split; [by intros _; split|]. split; [exact Hq|]. by split.
  - destruct (parse_queue_type s) as [b'|e] eqn:Hs; simplify_eq/=.
    split; [exact Hb|]. split; [|by split]. simpl. intros ->. unfold parse_queue_type in Hs.
    destruct io_uring_available; [done|]. by repeat case_bool_decide.
  - split; [exact Hb|]. split; [exact Hq|]. split; [exact Ht|apply u32_range].
  - split; [exact Hb|]. split; [exact Hq|]. split; [apply u32_range|exact Hd].
  - destruct (parse_direct s); by simplify_eq/=.
Qed.

Lemma main_options_ok `{BuildConfig} os a a' :
  args_ok a -> main_options os a = Ok (Parsed a') -> args_ok a'.
Proof.
  revert a. induction os as [|o os IH]; intros a Ha; cbn [main_options]; [by intros [= <-]|].
  destruct (main_option o a) as [[code|a1]|e] eqn:Ho; simpl; [done| |done].
  apply IH. by eapply main_option_ok.
Qed.

(** The server only starts on a sane configuration. Whatever the options and their
    arguments, if [main] gets to [run_server] then there is a bind host, a port between 1
    and 65535, at least one worker thread, and the backend is one this build has, so that
    [Queue::create] only fails if the kernel gives no ring. *)
Theorem main_serves_sane `{BuildConfig} (hardware : Z) (os : list option_read) (positional : bool)
    (cfg : ServerConfig) :
  0 <= hardware < 2 ^ 32 -> main hardware os positional = MServes cfg ->
  bind_host cfg <> [] /\ 1 <= bind_port cfg <= 65535 /\ 1 <= threads cfg < 2 ^ 32 /\
  forall ring, create (Ret ring) (backend cfg) = Ok (backend cfg).
Proof.
  intros Hhw. unfold main.
  destruct (main_options os (default_args hardware)) as [[code|a]|e] eqn:Ho; [done| |done].
  apply main_options_ok in Ho as (Hb & Hq & Ht & _).
  2:{ split; [done|]. split; [simpl; by destruct io_uring_available|].
      split; simpl; unfold kDefaultQueueDepth; lia. }
  destruct positional; [done|]. destruct (ar_bind a); [|done]. destruct (ar_file a); [|done]. simpl.
  case_bool_decide; [done|]. intros [= <-]. destruct (Hb eq_refl). split_and!; try done; try lia.
  intros ring. unfold create. destruct (backend (ar_config a)); [|done]. by rewrite Hq.
Qed.

Lemma main_serves_sane_witness :
  exists cfg, main (H := true) 8 [OptBind (chars_of "localhost:9000"); OptFile (chars_of "/dev/vdb");
      OptThreads (chars_of "4")] false = MServes cfg /\
    bind_port cfg = 9000 /\ 1 <= threads cfg < 2 ^ 32.
Proof.
  eexists. split; [by vm_compute|]. split; [done|].
  apply (main_serves_sane (H := true) 8 [OptBind (chars_of "localhost:9000"); OptFile (chars_of "/dev/vdb");
      OptThreads (chars_of "4")] false); [lia|by vm_compute].
Defined.

(** ** Sockets and files ([server.cpp]) *)

(** [open_listen_socket]: how it ends, and the descriptors left open. *)
Definition open_listen_socket (sock : sysret) (inet_pton : bool) (bind listen getfl : sysret)
    (setfl : Z -> sysret) : outcome Z * list Z :=
  match sock with
  | Errno e => (Throw (system_error e), [])
  | Ret fd =>
      if negb inet_pton then (Throw (invalid_argument "easybd: invalid bind address"), [fd])
      else
        match bind with
        | Errno e => (Throw (system_error e), [])
        | Ret _ =>
            match listen with
            | Errno e => (Throw (system_error e), [])
            | Ret _ =>
                match set_nonblocking getfl setfl with
                | Throw e => (Throw e, [fd])
                | Ok _ => (Ok fd, [fd])
                end
            end
        end
  end.

Definition O_RDWR : Z := 2.
Definition O_DIRECT : Z := 16384.

(** [open_backing_file]: descriptor and size; [open] is given the flags. *)
Definition open_backing_file (open : Z -> sysret) (fstat : sysret) (direct_io : bool)
    : outcome (Z * Z) * list Z :=
  let flags := Z.lor O_RDWR (if direct_io then O_DIRECT else 0) in
  match open flags with
  | Errno e => (Throw (system_error e), [])
  | Ret fd =>
      match fstat with
      | Errno e => (Throw (system_error e), [])
      | Ret st_size => (Ok (fd, u64 st_size), [fd])
      end
  end.

(** [run_server] up to the threads: the backing file and the listening socket, given how
    [open_backing_file] and [open_listen_socket] end, with the descriptors left open. *)
Definition start_server (file : outcome (Z * Z) * list Z) (listen : outcome Z * list Z)
    : outcome (Z * Z) * list Z :=
  match file with
  | (Throw e, fds) => (Throw e, fds)
  | (Ok (file_fd, _), fds) =>
      match listen with
      | (Throw e, fds') => (Throw e, fds ++ fds')
      | (Ok listen_fd, fds') => (Ok (file_fd, listen_fd), fds ++ fds')
      end
  end.

(** A server that starts holds its two descriptors; one that does not leaves the backing
    file open when it was opened, and the socket when its address or mode was the
    problem. *)
Lemma start_server_fds open fstat direct_io sock inet_pton bind listen getfl setfl :
  let r := start_server (open_backing_file open fstat direct_io)
             (open_listen_socket sock inet_pton bind listen getfl setfl) in
  match r.1 with
  | Ok (file_fd, listen_fd) => r.2 = [file_fd; listen_fd]
  | Throw _ =>
      r.2 = [] \/
      exists file_fd size, open_backing_file open fstat direct_io = (Ok (file_fd, size), [file_fd]) /\
        (r.2 = [file_fd] \/ exists fd, sock = Ret fd /\ r.2 = [file_fd; fd] /\
           (inet_pton = false \/ exists e, set_nonblocking getfl setfl = Throw e))
  end.
Proof.
  unfold start_server, open_backing_file, open_listen_socket.
  destruct (open _) as [fd|e]; [|by left]. destruct fstat as [size|e]; [|by left]. simpl.
  destruct sock as [lfd|e]; [|right; exists fd, (u64 size); auto].
  destruct inet_pton; simpl; [|right; exists fd, (u64 size); split; [done|right; exists lfd; auto]].
  destruct bind as [?|e]; [|right; exists fd, (u64 size); auto].
  destruct listen as [?|e]; [|right; exists fd, (u64 size); auto].
  destruct (set_nonblocking getfl setfl) as [?|e] eqn:Hnb; [done|].
  right. exists fd, (u64 size). split; [done|]. right. exists lfd. eauto.
Qed.

(** ** Accepting connections *)

(** One worker: is its [accept_loop] still accepting, the connections its [accept_one]s
    drive, the descriptors they closed, and did an exception get out of a spawned one,
    which terminates the process. *)
Record worker := Worker {
  accepting : bool;
  conns : list Z;
  closed : list Z;
  terminated : bool;
}.

Inductive worker_event :=
  | Accepted (r : outcome Z)                            (** [queue.accept] completes *)
  | Ended (fd : Z) (handled close : outcome unit).      (** a connection does, then its close *)

(** [try { co_await ...; } catch (...) {}]. *)
Definition swallow (m : outcome unit) : outcome unit :=
  match m with
  | Ok u => Ok u
  | Throw _ => Ok tt
  end.

(** [accept_one], given how [handle_connection] and [close] end: what gets out of it, and
    the descriptors it closed. A [close] that fails has released the descriptor too. *)
Definition accept_one (fd : Z) (handled close : outcome unit) : outcome unit * list Z :=
  match swallow handled with
  | Throw e => (Throw e, [])
  | Ok _ => (swallow close, [fd])
  end.

(** [accept_loop], with the shutdown flag as it is at that moment. *)
Definition worker_step (shutdown : bool) (ev : worker_event) (w : worker) : worker :=
  match ev with
  | Accepted (Ok fd) => if accepting w then Worker true (conns w ++ [fd]) (closed w) (terminated w) else w
  | Accepted (Throw _) =>
      if accepting w then Worker (negb shutdown) (conns w) (closed w) (terminated w) else w
  | Ended fd handled close =>
      match list_find (fun x => x = fd) (conns w) with
      | Some (i, _) =>
          let '(out, fds) := accept_one fd handled close in
          Worker (accepting w) (delete i (conns w)) (closed w ++ fds)
            (terminated w || match out with Ok _ => false | Throw _ => true end)
      | None => w
      end
  end.

Fixpoint worker_run (evs : list (bool * worker_event)) (w : worker) : worker :=
  match evs with
  | [] => w
  | (shutdown, ev) :: evs => worker_run evs (worker_step shutdown ev w)
  end.

(** The descriptors [accept] returned to a worker that was accepting. *)
Fixpoint accepted (evs : list (bool * worker_event)) (w : worker) : list Z :=
  match evs with
  | [] => []
  | (shutdown, ev) :: evs =>
      match ev with
      | Accepted (Ok fd) => if accepting w then [fd] else []
      | _ => []
      end ++ accepted evs (worker_step shutdown ev w)
  end.

Lemma accept_one_closes fd handled close : accept_one fd handled close = (Ok tt, [fd]).
Proof. by destruct handled as [[]|], close as [[]|]. Qed.

Lemma worker_run_fds evs w :
  closed (worker_run evs w) ++ conns (worker_run evs w) ≡ₚ closed w ++ conns w ++ accepted evs w.
Proof.
  revert w. induction evs as [|[sh ev] evs IH]; intros w; simpl; [by rewrite app_nil_r|].
  rewrite IH. destruct ev as [[fd|e]|fd handled close]; simpl.
  - destruct (accepting w); simpl; [|done]. by rewrite <- app_assoc.
  - by destruct (accepting w).
  - rewrite accept_one_closes. destruct (list_find _ (conns w)) as [[i x]|] eqn:Hf; [|done]. simpl.
    apply list_find_Some in Hf as (Hi & -> & _).
    pose proof (delete_Permutation (conns w) i fd Hi) as Hp.
    generalize (accepted evs (Worker (accepting w) (delete i (conns w)) (closed w ++ [fd]) (terminated w || false))).
    generalize dependent (delete i (conns w)). intros l Hp acc. rewrite Hp. simpl. by rewrite <- !app_assoc.
Qed.

Lemma worker_run_terminated evs w : terminated (worker_run evs w) = terminated w.
Proof.
  revert w. induction evs as [|[sh ev] evs IH]; intros w; simpl; [done|]. rewrite IH.
  destruct ev as [[fd|e]|fd handled close]; simpl; [by destruct (accepting w)..|].
  rewrite accept_one_closes. destruct (list_find _ (conns w)) as [[i x]|]; [|done]. apply orb_false_r.
Qed.

(** An [accept_loop] that returned found the flag set after a failed accept. *)
Lemma worker_run_stops evs w :
  accepting w = true -> accepting (worker_run evs w) = false -> exists e, (true, Accepted (Throw e)) ∈ evs.
Proof.
  revert w. induction evs as [|[sh ev] evs IH]; intros w Hw; simpl; [congruence|].
  destruct (accepting (worker_step sh ev w)) eqn:Hs.
  - intros Hf. destruct (IH _ Hs Hf) as [e ?]. exists e. by right.
  - intros _. destruct ev as [[fd|e]|fd handled close]; simpl in Hs; rewrite ?Hw in Hs; simpl in Hs.
    + done.
    + destruct sh; [|done]. exists e. left.
    + rewrite accept_one_closes in Hs. destruct (list_find _ _) as [[]|]; simpl in Hs; congruence.
Qed.

Lemma worker_run_app evs evs' w : worker_run (evs ++ evs') w = worker_run evs' (worker_run evs w).
Proof. revert w. induction evs as [|[sh ev] evs IH]; intros w; simpl; [done|apply IH]. Qed.

(** A connection that ended is closed, and only it. *)
Lemma worker_step_ended sh fd handled close w l :
  conns w ≡ₚ fd :: l ->
  let w' := worker_step sh (Ended fd handled close) w in
  accepting w' = accepting w /\ conns w' ≡ₚ l /\ closed w' = closed w ++ [fd] /\ terminated w' = terminated w.
Proof.
  intros Hl. simpl. rewrite accept_one_closes.
  destruct (list_find (fun x => x = fd) (conns w)) as [[i x]|] eqn:Hf.
  - apply list_find_Some in Hf as (Hi & -> & _). simpl. split_and!; try done; [|apply orb_false_r].
    rewrite (delete_Permutation (conns w) i fd Hi) in Hl. by apply Permutation_cons_inv in Hl.
  - apply list_find_None in Hf. rewrite list.Forall_forall in Hf. exfalso. apply (Hf fd); [|done].
    rewrite Hl. left.
Qed.

(** A worker never stops accepting before shutdown, and never loses a descriptor.
    After any sequence of completed accepts, failed accepts with any exception, and
    connections that ended, however they and their [close] did: the worker still accepts
    unless some accept failed while shutdown was already requested; the descriptors it
    accepted are, each once, either those of its live connections or those it closed; and
    no exception of a connection ever terminated the process. *)
Theorem worker_accepts (evs : list (bool * worker_event)) :
  let w := worker_run evs (Worker true [] [] false) in
  (accepting w = false -> exists e, (true, Accepted (Throw e)) ∈ evs) /\
  closed w ++ conns w ≡ₚ accepted evs (Worker true [] [] false) /\
  terminated w = false.
Proof.
  split; [|split; [apply worker_run_fds|apply worker_run_terminated]]. by apply worker_run_stops.
Qed.

(** *** The loop between two suspensions, on the poll-driven queue *)

(** Where [accept_loop] is after some answers of [accept4], with the descriptors it passed
    to [accept_one]. *)
Inductive loop_state :=
  | Waiting (fds : list Z)    (** suspended in [accept] *)
  | Returned (fds : list Z)
  | Running (fds : list Z).   (** about to call [accept4] again *)

(** [accept] only suspends when its first [accept4] would block. *)
Fixpoint accept_loop (shutdown : bool) (answers : list sysret) (fds : list Z) : loop_state :=
  match answers with
  | [] => Running fds
  | r :: answers =>
      match LibcQueue.try_op r with
      | None => Waiting fds
      | Some res =>
          match LibcQueue.op_end res with
          | Ok fd => accept_loop shutdown answers (fds ++ [fd])
          | Throw _ => if shutdown then Returned fds else accept_loop shutdown answers fds
          end
      end
  end.

(** An error that lasts, as [EMFILE] does until a descriptor is closed, never suspends the
    loop: [step] does not return, and no connection of this worker is served. *)
Lemma accept_loop_spins e n fds :
  (0 < e)%Z -> e <> EAGAIN -> accept_loop false (replicate n (Errno e)) fds = Running fds.
Proof.
  intros He Hne. induction n as [|n IH]; [done|]. simpl. rewrite bool_decide_false by done.
  unfold LibcQueue.op_end. rewrite bool_decide_true by lia. exact IH.
Qed.

(** ** Shutdown *)

Definition kShutdownPollTimeoutMs : Z := 200.

(** *** One worker thread *)

Inductive worker_end :=
  | StillRunning
  | Exits_loop                (** the loop condition read the flag *)
  | Stashes (e : exn).        (** the [catch (...)] of [worker_main] *)

(** [while (!g_shutdown_requested) queue->step(kShutdownPollTimeoutMs)]: at each turn the
    flag it reads, and how [step] ends when it is called. *)
Fixpoint worker_loop (turns : list (bool * outcome unit)) : worker_end :=
  match turns with
  | [] => StillRunning
  | (shutdown, stepped) :: turns =>
      if shutdown then Exits_loop
      else match stepped with
           | Ok _ => worker_loop turns
           | Throw e => Stashes e
           end
  end.

(** [worker_main]: [created] is how [Queue::create] ends. *)
Definition worker_main (created : outcome Backend) (turns : list (bool * outcome unit)) : worker_end :=
  match created with
  | Throw e => Stashes e
  | Ok _ => worker_loop turns
  end.

(** No exception leaves the thread: it is stashed when the queue could not be made or a
    [step] threw; otherwise the thread ends only by reading the flag. *)
Lemma worker_main_ends created turns :
  match worker_main created turns with
  | StillRunning => (exists b, created = Ok b) /\ Forall (fun t => exists u, t = (false, Ok u)) turns
  | Exits_loop => exists pre stepped post, turns = pre ++ (true, stepped) :: post /\
      Forall (fun t => exists u, t = (false, Ok u)) pre
  | Stashes e => created = Throw e \/ (false, Throw e) ∈ turns
  end.
Proof.
  destruct created as [b|e]; [|by left]. simpl.
  assert (Hloop : match worker_loop turns with
    | StillRunning => Forall (fun t => exists u, t = (false, Ok u)) turns
    | Exits_loop => exists pre stepped post, turns = pre ++ (true, stepped) :: post /\
        Forall (fun t => exists u, t = (false, Ok u)) pre
    | Stashes e => (false, Throw e) ∈ turns
    end).
  { induction turns as [|[[] [u|e]] turns IH]; simpl; [constructor|..].
    - by exists [], (Ok u), turns.
    - by exists [], (Throw e), turns.
    - destruct (worker_loop turns) as [| |e].
      + constructor; [by exists u|done].
      + destruct IH as (pre & st & post & -> & Hpre). exists ((false, Ok u) :: pre), st, post.
        split; [done|]. constructor; [by exists u|done].
      + by right.
    - left. }
  destruct (worker_loop turns); eauto.
Qed.

(** *** The workers together *)

(** The globals, and which workers still run. *)
Record server := Server {
  g_shutdown_requested : bool;
  g_worker_exception : option exn;
  running : list bool;
}.

Inductive server_event :=
  | SigTerm                         (** [handle_shutdown_signal] *)
  | WorkerThrows (i : nat) (e : exn) (** [worker_main]'s [catch (...)] *)
  | WorkerPolls (i : nat).          (** its loop condition, at most every 200 ms *)

Definition server_step (ev : server_event) (s : server) : server :=
  match ev with
  | SigTerm => Server true (g_worker_exception s) (running s)
  | WorkerThrows i e =>
      if default false (running s !! i) then
        Server true (match g_worker_exception s with Some e0 => Some e0 | None => Some e end)
          (<[i := false]> (running s))
      else s
  | WorkerPolls i =>
      if g_shutdown_requested s then
        Server true (g_worker_exception s) (<[i := false]> (running s))
      else s
  end.

(** [workers.emplace_back] for each thread, from how each construction ends. When one
    throws, [workers] is destroyed on the way out, and destroying a joinable thread
    terminates the process. *)
Inductive start_end := Started | Escapes (e : exn) | Aborts.

Fixpoint start_workers (constructed : list (outcome unit)) (joinable : nat) : start_end :=
  match constructed with
  | [] => Started
  | Ok _ :: constructed => start_workers constructed (S joinable)
  | Throw e :: _ => if bool_decide (joinable = 0%nat) then Escapes e else Aborts
  end.

(** How [run_server] ends, with the descriptors it opened and left open. *)
Inductive run_end := RunEnds (r : outcome unit) (left_open : list Z) | Terminated.

(** The end of [run_server]: the workers joined, the descriptors closed, then the stashed
    exception rethrown. *)
Definition finish_server (file_fd listen_fd : Z) (fds : list Z) (s : server) : option run_end :=
  if g_shutdown_requested s && forallb negb (running s) then
    Some (RunEnds (match g_worker_exception s with Some e => Throw e | None => Ok tt end)
            (filter (fun fd => fd <> listen_fd /\ fd <> file_fd) fds))
  else None.

(** [run_server], from how its first two calls, [workers.reserve] and the constructions of
    the threads end, when the globals and the workers are as [s] says; [None]: it waits. *)
Definition run_server (opened : outcome (Z * Z) * list Z) (reserved : outcome unit)
    (constructed : list (outcome unit)) (s : server) : option run_end :=
  match opened with
  | (Throw e, fds) => Some (RunEnds (Throw e) fds)
  | (Ok (file_fd, listen_fd), fds) =>
      match reserved with
      | Throw e => Some (RunEnds (Throw e) fds)
      | Ok _ =>
          match start_workers constructed 0 with
          | Escapes e => Some (RunEnds (Throw e) fds)
          | Aborts => Some Terminated
          | Started => finish_server file_fd listen_fd fds s
          end
      end
  end.

Lemma start_workers_all n k : start_workers (replicate n (Ok tt)) k = Started.
Proof. revert k. by induction n; simpl. Qed.

(** A thread that cannot be created after another one was aborts the server. *)
Lemma start_workers_aborts n e later :
  start_workers (replicate n (Ok tt) ++ Throw e :: later) 0 =
    if bool_decide (n = 0%nat) then Escapes e else Aborts.
Proof.
  assert (Hgen : forall k, start_workers (replicate n (Ok tt) ++ Throw e :: later) k =
    if bool_decide (n + k = 0)%nat then Escapes e else Aborts).
  { induction n as [|n IH]; intros k; [done|]. simpl. rewrite IH.
    by rewrite !bool_decide_false by lia. }
  rewrite Hgen. by rewrite Nat.add_0_r.
Qed.

Definition server_run (evs : list server_event) (s : server) : server :=
  foldl (fun s ev => server_step ev s) s evs.

(** The exceptions of running workers, in order. *)
Fixpoint thrown (evs : list server_event) (s : server) : list exn :=
  match evs with
  | [] => []
  | ev :: evs =>
      match ev with
      | WorkerThrows i e => if default false (running s !! i) then [e] else []
      | _ => []
      end ++ thrown evs (server_step ev s)
  end.

Definition server_ok (s : server) : Prop :=
  g_shutdown_requested s = false -> g_worker_exception s = None /\ Forall (eq true) (running s).

Lemma server_step_ok ev s : server_ok s -> server_ok (server_step ev s).
Proof.
  intros Hs. destruct ev; simpl; [done| |]; by case_match.
Qed.

Lemma server_run_spec evs s :
  server_ok s ->
  server_ok (server_run evs s) /\
  g_worker_exception (server_run evs s) =
    match g_worker_exception s with Some e => Some e | None => head (thrown evs s) end /\
  length (running (server_run evs s)) = length (running s).
Proof.
  revert s. induction evs as [|ev evs IH]; intros s Hs; [split; [done|]; split; [simpl; by destruct (g_worker_exception s)|done]|].
  change (server_run (ev :: evs) s) with (server_run evs (server_step ev s)).
  destruct (IH (server_step ev s) (server_step_ok ev s Hs)) as (Hok & -> & ->).
  split; [done|]. destruct ev as [|i e|i]; simpl.
  - done.
  - destruct (default false (running s !! i)); simpl; [|done].
    rewrite length_insert. by destruct (g_worker_exception s).
  - destruct (g_shutdown_requested s); simpl; [|done]. by rewrite length_insert.
Qed.

(** One poll of each worker, once shutdown is requested. *)
Lemma poll_all k s :
  g_shutdown_requested s = true ->
  let s' := server_run (WorkerPolls <$> seq 0 k) s in
  g_shutdown_requested s' = true /\ g_worker_exception s' = g_worker_exception s /\
  length (running s') = length (running s) /\
  forall i, (i < k)%nat -> (i < length (running s))%nat -> running s' !! i = Some false.
Proof.
  intros Hs. induction k as [|k IHk]; [by split_and!; try done; lia|].
  rewrite seq_S, fmap_app. unfold server_run. rewrite foldl_app. simpl.
  destruct IHk as (Hf' & He' & Hl' & Hi'). unfold server_run in *. rewrite Hf'. simpl.
  split_and!; [done|done|by rewrite length_insert|]. intros i Hi Hlt.
  destruct (decide (i = k)) as [->|]; [apply list_lookup_insert_eq; lia|].
  rewrite list_lookup_insert_ne by done. apply Hi'; lia.
Qed.

(** C40: the shutdown protocol. From the start of the workers, along any sequence of
    signals, worker failures and worker polls: as long as no shutdown is requested no
    worker has exited and [run_server] waits; once it is, each worker exits at its next
    poll, and polling all of them makes [run_server] end. However it ends, it closed both
    descriptors, after the last worker was joined, and what it rethrows is the exception of
    the first worker that failed, and nothing if none did. *)
Theorem shutdown_protocol (n : nat) (evs : list server_event) (file_fd listen_fd : Z) :
  let s0 := Server false None (replicate n true) in
  let s := server_run evs s0 in
  let run := run_server (Ok (file_fd, listen_fd), [file_fd; listen_fd]) (Ok tt) (replicate n (Ok tt)) in
  let ended := RunEnds (match head (thrown evs s0) with Some e => Throw e | None => Ok tt end) [] in
  (g_shutdown_requested s = false -> run s = None /\ running s = replicate n true) /\
  (g_shutdown_requested s = true -> run (server_run (WorkerPolls <$> seq 0 n) s) = Some ended) /\
  (forall r, run s = Some r -> r = ended /\ Forall (eq false) (running s)).
Proof.
  intros s0 s. assert (H0 : server_ok s0).
  { intros _. split; [done|]. simpl. by apply Forall_replicate. }
  destruct (server_run_spec evs s0 H0) as (Hok & Hexc & Hlen). fold s in Hok, Hexc, Hlen. simpl in Hexc, Hlen.
  rewrite length_replicate in Hlen. cbn zeta. unfold run_server. rewrite start_workers_all.
  assert (Hclosed : filter (fun fd => fd <> listen_fd /\ fd <> file_fd) [file_fd; listen_fd] = []).
  { rewrite filter_cons_False, filter_cons_False by (intros [? ?]; done). done. }
  unfold finish_server. rewrite Hclosed. split_and!.
  - intros Hf. destruct (Hok Hf) as [_ Hall]. rewrite Hf. split; [done|].
    symmetry. apply replicate_as_elem_of. split; [done|]. intros x Hx.
    pose proof (Forall_elem _ _ _ Hall Hx). done.
  - intros Hf. destruct (poll_all n s Hf) as (Hf' & He' & Hl' & Hi'). rewrite Hf'. simpl.
    assert (Hall : forallb negb (running (server_run (WorkerPolls <$> seq 0 n) s)) = true).
    { apply forallb_forall. intros b Hb. apply list_elem_of_In, list_elem_of_lookup in Hb as [i Hb].
      pose proof (lookup_lt_Some _ _ _ Hb). rewrite Hi' in Hb by lia. by simplify_eq. }
    by rewrite Hall, He', Hexc.
  - intros r. destruct (_ && _) eqn:Hj; [|done]. intros [= <-]. rewrite Hexc. split; [done|].
    apply andb_prop in Hj as [_ Hj]. apply list.Forall_forall. intros x Hx.
    rewrite forallb_forall in Hj. specialize (Hj x (proj1 (list_elem_of_In _ _) Hx)). by destruct x.
Qed.
