(* ===== verification/LibcConnection.v ===== *)
(** * A server connection on the poll-driven queue

    [Session] says what the coroutines of a connection do between suspensions, in any
    order. Here they run as [easyio] runs them on the libc backend: [resume] is a call,
    so a resumed coroutine, and whatever it spawns or hands the lock to, runs on the stack
    of the one that resumed it; file operations do not suspend; a send that would block
    puts its awaiter into the table of [LibcQueue]. [run] is that stack, [dispatch] the
    turn of [Queue::step] for the connection's descriptor. Every turn is a sequence of
    [Session] events and of calls into the queue. *)

From S2P Require Import Prelude Protocol Sync RecvStream FramedReader LibcRecvStream Queue Handlers Session.
From S2P Require LibcQueue.

Open Scope nat_scope.

Abbreviation table_t := LibcQueue.t (only parsing).

(** A coroutine that can be on the stack. *)
Inductive coroutine :=
  | Reader               (** [handle_connection], and [accept_one] around it *)
  | Handler (id : nat).  (** [tracked], and the handler in it *)

#[export] Instance coroutine_eq_dec : EqDecision coroutine.
Proof. solve_decision. Defined.

(** One connection: its coroutines, the address of its stream, and the awaiters of the
    sends that wait, each with the coroutine it resumes. [memory] is what the allocator
    gives its handlers, [got] the bytes received, for the specification. *)
Record conn := Conn {
  sess : session Libc.t;
  stream_op : nat;
  awaiting : list (nat * nat);
  gone : bool;                  (** the locals of [handle_connection] were destroyed *)
  memory : nat -> nat -> option bytes;
  got : bytes;
}.

(** A connection, the table of its queue, and a clock of the system calls made. *)
Record machine := Machine { cn : conn; table : LibcQueue.t; clock : nat }.

Section machine.
Context `{NativeEndian}.

(** The kernel and the allocator, by the clock: [::send] or [::sendmsg] on the buffers
    offered, the calls on the backing file, and the address of a new awaiter. *)
Context (sys_send : nat -> list bytes -> sysret).
Context (sys_file : nat -> io_call -> io_result).
Context (address : nat -> nat).
Context (fd : Z).

Definition pool_of (m : machine) : pool := ss_pool (sess (cn m)).
Definition pc_of (m : machine) : conn_pc := ss_pc (sess (cn m)).

(** The coroutines of the connection take one step. *)
Definition act (e : event) (m : machine) : machine :=
  let '(Conn s op aw g mem bs) := cn m in
  Machine (Conn (Session.apply mem e s) op aw g mem (bs ++ received e s)) (table m) (clock m).

Definition tick (m : machine) : machine := Machine (cn m) (table m) (S (clock m)).

Definition with_awaiting (aw : list (nat * nat)) (m : machine) : machine :=
  let '(Conn s op _ g mem bs) := cn m in Machine (Conn s op aw g mem bs) (table m) (clock m).

Definition with_table (q : LibcQueue.t) (m : machine) : machine := Machine (cn m) q (clock m).

(** [await_suspend] of the awaiter of handler [id]. *)
Definition suspend_send (id : nat) (m : machine) : machine :=
  let op := address (clock m) in
  with_table (LibcQueue.push_write_op fd op (table m))
    (with_awaiting (awaiting (cn m) ++ [(op, id)]) m).

(** [~RecvStreamImpl] among the locals of a [handle_connection] that returned. *)
Definition leave (m : machine) : machine :=
  let '(Conn s op aw _ mem bs) := cn m in
  Machine (Conn s op aw true mem bs) (LibcQueue.clear_read_op fd op (table m)) (clock m).

(** The result of a send, as [Queue::send] and [Queue::sendmsg] pass it on. *)
Definition send_event (id : nat) (res : Z) : event :=
  match LibcQueue.op_end res with
  | Ok n => Accept id (Z.to_nat n)
  | Throw _ => SendFails id
  end.

(** The handler that was spawned between [m] and [m']. *)
Definition spawned_by (m m' : machine) : list coroutine :=
  if bool_decide (next (pool_of m) < next (pool_of m')) then [Handler (next (pool_of m))] else [].

(** The coroutine of the connection, when [wg.done()] resumed it. *)
Definition ended_by (m m' : machine) : list coroutine :=
  match pc_of m, pc_of m' with
  | CWait, CEnd => [Reader]
  | _, _ => []
  end.

(** One step of the coroutine on top of the stack, and what is there in its place. *)
Definition turn (c : coroutine) (m : machine) : list coroutine * machine :=
  match c with
  | Reader =>
      match pc_of m with
      | CTop => let m' := act Run m in (spawned_by m m' ++ [Reader], m')
      | CEnd => ([], leave m)
      | _ => ([], m)
      end
  | Handler id =>
      match handlers (pool_of m) !! id with
      | Some (MkHandler j AtIo) =>
          match file_io j with
          | Some call => ([c], tick (act (Io id (sys_file (clock m) call)) m))
          | None => ([], m)
          end
      | Some (MkHandler j (AtSend f)) =>
          match LibcQueue.try_op (sys_send (clock m) (offer f)) with
          | None => ([], suspend_send id (tick m))
          | Some res => ([c], act (send_event id res) (tick m))
          end
      | Some (MkHandler j AtUnlock) =>
          ((Handler <$> option_list (Mutex.guard_drop true (mtx (pool_of m))).1) ++ [c], act (Release id) m)
      | Some (MkHandler j AtDone) => let m' := act (Finish id) m in (ended_by m m', m')
      | _ => ([], m)
      end
  end.

Fixpoint run (fuel : nat) (stack : list coroutine) (m : machine) : option machine :=
  match stack with
  | [] => Some m
  | c :: stack =>
      match fuel with
      | O => None
      | S fuel => let '(cs, m') := turn c m in run fuel (cs ++ stack) m'
      end
  end.

(** [on_ready] of the stream: [rs] is what [::recv] returns. *)
Definition read_ready (fuel : nat) (rs : list recv_result) (m : machine) : option machine :=
  let m' := act (Receive (Libc.EvReady rs : rs_event (RecvStreamLaws := Libc.stream_laws))) m in
  match (Libc.on_ready rs (ss_stream (sess (cn m)))).2 with
  | None => Some m'
  | Some _ => run fuel (spawned_by m m' ++ [Reader]) m'
  end.

(** [cancel] of the stream. *)
Definition cancel_read (fuel : nat) (m : machine) : option machine :=
  let m' := act (Receive (Libc.EvCancel : rs_event (RecvStreamLaws := Libc.stream_laws))) m in
  match (Libc.cancel (ss_stream (sess (cn m)))).2 with
  | None => Some m'
  | Some _ => run fuel (spawned_by m m' ++ [Reader]) m'
  end.

(** [on_ready] of the awaiter at [op]: its result; [None] also when there is none. *)
Definition write_ready (fuel : nat) (op : nat) (m : machine) : option (bool * machine) :=
  match list_find (fun p => p.1 = op) (awaiting (cn m)) with
  | Some (i, (_, id)) =>
      match handlers (pool_of m) !! id with
      | Some (MkHandler j (AtSend f)) =>
          match LibcQueue.try_op (sys_send (clock m) (offer f)) with
          | None => Some (false, with_table (LibcQueue.log (LibcQueue.Ready op false) (table m)) (tick m))
          | Some res =>
              let m := with_table (LibcQueue.log (LibcQueue.Ready op true) (table m)) (tick m) in
              let m := with_awaiting (delete i (awaiting (cn m))) m in
              m' ← run fuel [Handler id] (act (send_event id res) m); Some (true, m')
          end
      | _ => None
      end
  | None => None
  end.

(** The [for (;;)] of the second block of [step]. *)
Fixpoint write_turns (n fuel : nat) (m : machine) : option machine :=
  match LibcQueue.write_queue (LibcQueue.entry fd (table m)) with
  | [] => Some m
  | op :: _ =>
      match n with
      | O => None
      | S n =>
          r ← write_ready fuel op m;
          let '(finished, m') := r in
          if finished : bool then write_turns n fuel (with_table (LibcQueue.pop_write fd op (table m')) m')
          else Some m'
      end
  end.

(** The first block. *)
Definition read_turn (fuel : nat) (rs : list recv_result) (m : machine) : option machine :=
  match LibcQueue.read_op (LibcQueue.entry fd (table m)) with
  | None => Some m
  | Some op =>
      if bool_decide (op = stream_op (cn m))
      then read_ready fuel rs (with_table (LibcQueue.log (LibcQueue.Ready op false) (table m)) m)
      else None
  end.

(** One turn of the loop over [pfds], for the descriptor of the connection. *)
Definition dispatch (fuel : nat) (revents : Z) (rs : list recv_result) (m : machine) : option machine :=
  if bool_decide (revents = 0%Z) then Some m
  else
    m ← (if LibcQueue.has_event LibcQueue.POLLIN revents then read_turn fuel rs m else Some m);
    m ← (if LibcQueue.has_event LibcQueue.POLLOUT revents then write_turns fuel fuel m else Some m);
    Some (with_table (LibcQueue.drop_empty fd (table m)) m).
End machine.

(** ** What an event changes in the pool *)

Section frame.
Context `{NativeEndian}.
Implicit Types p : pool.

(** Only handler [id] moved, and it still lives. *)
Definition moves (id : nat) (p p' : pool) : Prop :=
  next p' = next p /\ is_Some (handlers p' !! id) /\
  forall i, i <> id -> handlers p' !! i = handlers p !! i.

Lemma put_moves id h p : moves id p (put id h p).
Proof.
  split; [done|]. simpl. split; [rewrite lookup_insert_eq; by eexists|].
  intros i Hi. by rewrite lookup_insert_ne.
Qed.

Lemma acquire_moves id j resp p : moves id p (acquire id j resp p).
Proof.
  unfold acquire. destruct (Mutex.lock id (mtx p)) as [[] m]; [|apply (put_moves id _ (set_mtx m p))].
  unfold begin_send. split; [done|]. simpl. split; [rewrite lookup_insert_eq; by eexists|].
  intros i Hi. by rewrite lookup_insert_ne.
Qed.

Lemma io_done_moves id r p : is_Some (handlers p !! id) -> moves id p (io_done id r p).
Proof.
  intros Hid. assert (Hsame : moves id p p) by done.
  assert (Hacq : forall j resp, moves id p (acquire id j resp (log_io id r p)))
    by (intros; apply (acquire_moves id _ _ (log_io id r p))).
  assert (Hput : forall h, moves id p (put id h (log_io id r p)))
    by (intros; apply (put_moves id _ (log_io id r p))).
  unfold io_done. repeat case_match; simplify_eq; auto.
Qed.

Lemma send_event_moves id res f j p :
  handlers p !! id = Some (MkHandler j (AtSend f)) ->
  match LibcQueue.op_end res with
  | Ok n => moves id p (sent id (Z.to_nat n) p)
  | Throw _ => moves id p (send_failed id p)
  end.
Proof.
  intros Hid. destruct (LibcQueue.op_end res); unfold sent, send_failed; rewrite Hid.
  - apply (put_moves id (MkHandler j (after_send (send_resume (Z.to_nat a) f))) p).
  - apply (put_moves id (MkHandler j AtUnlock) p).
Qed.

(** Handing the lock over moves the releasing handler to its end, and the next one into
    its send. *)
Lemma release_moves id j q p posix_memalign :
  pool_inv posix_memalign q p -> handlers p !! id = Some (MkHandler j AtUnlock) ->
  let p' := release id p in
  next p' = next p /\ handlers p' !! id = Some (MkHandler j AtDone) /\
  match (Mutex.guard_drop true (mtx p)).1 with
  | None => forall i, i <> id -> handlers p' !! i = handlers p !! i
  | Some h =>
      h <> id /\ (exists j' resp, handlers p !! h = Some (MkHandler j' (AtLock resp))) /\
      is_Some (handlers p' !! h) /\
      forall i, i <> id -> i <> h -> handlers p' !! i = handlers p !! i
  end.
Proof.
  intros [Hp _] Hid. unfold release. rewrite Hid.
  pose proof (pi_queue Hp id (not_elem_of_nil id)) as Hq. rewrite Hid in Hq. unfold queue_ok in Hq. simpl in Hq.
  destruct q as [|i q]; [done|]. simpl in Hq. simplify_eq. cbn [Mutex.guard_drop].
  destruct (Mutex.rel_unlock _ _ (pi_mtx Hp) ltac:(done)) as [Hwk _].
  destruct (Mutex.unlock (mtx p)) as [woken m]. simpl in Hwk |- *. subst woken.
  pose proof (proj1 (list.NoDup_cons _ _) (pi_nodup Hp)) as [Hni _].
  destruct q as [|h q]; simpl.
  { split_and!; [done|by rewrite lookup_insert_eq|]. intros i Hi. by rewrite lookup_insert_ne. }
  assert (Hne : h <> id) by (intros ->; apply Hni; left).
  pose proof (pi_queue Hp h (not_elem_of_nil h)) as Hqh. unfold queue_ok in Hqh.
  destruct (handlers p !! h) as [[jh pch]|] eqn:Hh; simpl in Hqh; [|exfalso; apply Hqh; right; left].
  destruct pch as [|resp|f| | |]; simpl in Hqh; try congruence; try (exfalso; apply Hqh; right; left).
  unfold grant. simpl. rewrite lookup_insert_ne, Hh by done. simpl. split_and!; try done.
  - by rewrite lookup_insert_ne, lookup_insert_eq.
  - by eexists _, _.
  - rewrite lookup_insert_eq. by eexists.
  - intros i Hi Hih. by rewrite !lookup_insert_ne.
Qed.

Lemma finish_moves id j p :
  handlers p !! id = Some (MkHandler j AtDone) ->
  next (finish id p).2 = next p /\ handlers (finish id p).2 = delete id (handlers p).
Proof. intros Hid. unfold finish. rewrite Hid. by destruct (WaitGroup.done (wg p)). Qed.

(** What the connection's coroutine does to the pool until it suspends or is back at the
    head of its loop: one handler more, or nothing. *)
Definition spawns (s s' : session Libc.t) : Prop :=
  let p := ss_pool s in let p' := ss_pool s' in
  (ss_pc s' = CTop /\ next p' = S (next p) /\ (exists req, spawned p' = spawned p ++ [req]) /\
   is_Some (handlers p' !! next p) /\ forall i, i <> next p -> handlers p' !! i = handlers p !! i) \/
  (ss_pc s' <> CTop /\ next p' = next p /\ handlers p' = handlers p).

Lemma conn_throw_spawns e st st' r r' pc p :
  spawns (Session st' r' pc p) (conn_throw e st r p).
Proof.
  right. unfold conn_throw, drain. destruct e; simpl; try done;
    destruct (WaitGroup.wait me (wg p)) as [[] w]; done.
Qed.

Lemma spawn_handler_spawns h req st st' r r' pc p :
  spawns (Session st' r' pc p) (Session st r CTop (spawn_handler h req p)).
Proof.
  left. simpl. split_and!; try done; [by eexists|rewrite lookup_insert_eq; by eexists|].
  intros i Hi. by rewrite lookup_insert_ne.
Qed.

Lemma on_body_spawns req res st' r' pc p :
  spawns (Session st' r' pc p) (on_body req res p).
Proof.
  destruct res as [[[[[]|e| |] f] r] st]; simpl; [apply spawn_handler_spawns|apply conn_throw_spawns|by right|by right].
Qed.

Lemma on_request_spawns posix_memalign req st r st' r' pc p :
  spawns (Session st' r' pc p) (on_request posix_memalign req st r p).
Proof.
  unfold on_request. repeat case_match; try apply conn_throw_spawns; try apply on_body_spawns.
  - left. simpl. unfold send_error.
    destruct (acquire_moves (next p) (SendError (req_cid req) EMSGSIZE)
      {| resp_cid := req_cid req; resp_res := (- EMSGSIZE)%Z |}
      (spawn_handler (MkHandler (SendError (req_cid req) EMSGSIZE)
        (AtLock {| resp_cid := req_cid req; resp_res := (- EMSGSIZE)%Z |})) (Req req []) p)) as (Hn & Hs & Hi).
    split_and!; try done.
    + exists (Req req []). apply (send_error_keeps (Req req []) EMSGSIZE p).
    + intros i Hne. rewrite Hi by done. simpl. by rewrite lookup_insert_ne.
  - unfold handle_read. case_match; apply spawn_handler_spawns.
Qed.

Lemma on_header_spawns posix_memalign res st' r' pc p :
  spawns (Session st' r' pc p) (on_header posix_memalign res p).
Proof.
  destruct res as [[[hdr|e| |] r] st]; simpl; [apply on_request_spawns|apply conn_throw_spawns|by right|by right].
Qed.

Lemma conn_run_spawns posix_memalign s : ss_pc s = CTop -> spawns s (conn_run posix_memalign s).
Proof. destruct s as [st r pc p]. intros Hpc. simpl in Hpc. subst pc. apply on_header_spawns. Qed.

(** A completion of the stream: the same when it wakes the coroutine, nothing otherwise. *)
Lemma receive_spawns posix_memalign rs s :
  ss_pc s <> CTop ->
  let s' := receive posix_memalign (Libc.EvReady rs : rs_event (RecvStreamLaws := Libc.stream_laws)) s in
  match (Libc.on_ready rs (ss_stream s)).2 with
  | Some _ => spawns s s'
  | None => ss_pc s' = ss_pc s /\ ss_pool s' = ss_pool s
  end.
Proof.
  destruct s as [st r pc p]. intros Hpc. unfold receive. simpl.
  destruct (Libc.on_ready rs st) as [st' [h|]]; simpl; [|done].
  unfold conn_resume. simpl. destruct pc; try done;
    [apply on_header_spawns|apply on_body_spawns|right; done..].
Qed.
End frame.

(** ** The stack *)

(** The connection is a [Session], and [got] is what it received. *)
Definition reached `{NativeEndian} (c : conn) : Prop :=
  (forall id n mem, memory c id n = Some mem -> length mem = n) /\
  exists st recv, Libc.inv st /\ Libc.waiter st = None /\ got c = Libc.queue st ++ recv /\
    reach (memory c) (session_init st) recv (sess c).

(** Where a coroutine can rest: the connection waits for its stream or its handlers, or is
    gone; a handler waits for the lock, or its send for the socket. *)
Definition reader_rests (c : conn) : Prop :=
  match ss_pc (sess c) with
  | CHeader | CBody _ _ | CWait => True
  | CEnd => gone c = true
  | _ => False
  end.

Definition handler_rests (c : conn) (id : nat) : Prop :=
  match hd_pc <$> handlers (ss_pool (sess c)) !! id with
  | Some (AtLock _) | None => True
  | Some (AtSend _) => exists op, awaiting c = [(op, id)]
  | _ => False
  end.

Definition rests (c : conn) (co : coroutine) : Prop :=
  match co with Reader => reader_rests c | Handler id => handler_rests c id end.

(** A coroutine in the middle of the stack: the connection in [spawn], or a handler in the
    [unlock()] of its guard. *)
Definition below (c : conn) (co : coroutine) : Prop :=
  match co with
  | Reader => ss_pc (sess c) = CTop
  | Handler id => exists j, handlers (ss_pool (sess c)) !! id = Some (MkHandler j AtDone)
  end.

Definition live (c : conn) (co : coroutine) : Prop :=
  match co with Reader => True | Handler id => is_Some (handlers (ss_pool (sess c)) !! id) end.

Record running (stack : list coroutine) (c : conn) : Prop := {
  rn_nodup : NoDup stack;
  rn_below co : co ∈ tail stack -> below c co;
  rn_bottom : Reader ∈ stack -> list.last stack = Some Reader;
  rn_live co : co ∈ stack -> live c co;
  rn_rests co : co ∉ stack -> rests c co;
  rn_waits : awaiting c = [] \/ exists op id j f, awaiting c = [(op, id)] /\ (Handler id ∉ stack) /\
    handlers (ss_pool (sess c)) !! id = Some (MkHandler j (AtSend f));
  rn_gone : gone c = true -> ss_pc (sess c) = CEnd;
}.
Arguments rn_nodup {stack c}.
Arguments rn_below {stack c}.
Arguments rn_bottom {stack c}.
Arguments rn_live {stack c}.
Arguments rn_rests {stack c}.
Arguments rn_waits {stack c}.
Arguments rn_gone {stack c}.

Section stack.
Context `{NativeEndian}.
Implicit Types (c : conn) (co : coroutine) (stack : list coroutine).

Lemma reached_inv c : reached c -> session_inv (memory c) (got c) (sess c).
Proof. intros (Hmem & st & recv & Hst & Hw & -> & Hr). exact (reach_ok _ Hmem st recv _ Hst Hw Hr). Qed.

(** A connection that ended has no handler left. *)
Lemma ended_empty c : reached c -> ss_pc (sess c) = CEnd -> handlers (ss_pool (sess c)) = ∅.
Proof.
  intros Hc%reached_inv Hpc. destruct c as [[st r pc p]]. simpl in *. subst pc.
  destruct Hc as (_ & (rest & _ & _ & _ & _ & Hrem) & q & Hp & _).
  pose proof (pi_wg Hp) as Hwg. simpl in *. rewrite Hrem in Hwg. apply map_size_empty_inv. lia.
Qed.

Lemma live_not_ended c id :
  reached c -> is_Some (handlers (ss_pool (sess c)) !! id) -> ss_pc (sess c) <> CEnd.
Proof. intros Hc [h Hid] Hpc. rewrite (ended_empty c Hc Hpc) in Hid. done. Qed.

Lemma next_not_live c : reached c -> handlers (ss_pool (sess c)) !! next (ss_pool (sess c)) = None.
Proof.
  intros Hc%reached_inv. destruct Hc as (_ & _ & q & Hp & _).
  by destruct (pi_fresh Hp (next (ss_pool (sess c))) ltac:(lia)).
Qed.

(** The coroutine on top suspends. *)
Lemma running_pop co stack c : running (co :: stack) c -> rests c co -> running stack c.
Proof.
  intros Hr Hco. destruct Hr as [Hnd Hb Hbot Hl Hre Hw Hg]. split; auto.
  - by apply list.NoDup_cons in Hnd as [_ ?].
  - intros co' Hin. apply Hb. simpl. destruct stack; [done|]. by right.
  - intros Hin. specialize (Hbot ltac:(by right)). destruct stack; [by apply not_elem_of_nil in Hin|done].
  - intros co' Hin. apply Hl. by right.
  - intros co' Hin. destruct (decide (co' = co)) as [->|]; [done|].
    apply Hre. rewrite not_elem_of_cons. auto.
  - destruct Hw as [?|(op & id & j & f & Ha & Hin & Hid)]; [by left|right].
    exists op, id, j, f. split_and!; try done. by apply not_elem_of_cons in Hin as [_ ?].
Qed.

(** The handler on top takes a step of its own. *)
Lemma running_moves id stack c c' :
  running (Handler id :: stack) c -> moves id (ss_pool (sess c)) (ss_pool (sess c')) ->
  awaiting c' = awaiting c -> gone c' = gone c -> ss_pc (sess c') = ss_pc (sess c) ->
  running (Handler id :: stack) c'.
Proof.
  intros [Hnd Hb Hbot Hl Hre Hw Hg] (_ & Hlive & Hsame) Ha Hgo Hpc.
  pose proof (proj1 (list.NoDup_cons _ _) Hnd) as [Hni _]. split; auto.
  - intros [|i] Hin; simpl; [rewrite Hpc; by apply (Hb Reader)|].
    rewrite Hsame by (intros ->; done). by apply (Hb (Handler i)).
  - intros [|i] Hin; simpl; [done|]. destruct (decide (i = id)) as [->|]; [done|].
    rewrite Hsame by done. by apply (Hl (Handler i)).
  - intros [|i] Hin; simpl.
    + unfold reader_rests. rewrite Hpc, Hgo. by apply (Hre Reader).
    + apply not_elem_of_cons in Hin as Hin'. unfold handler_rests. rewrite Hsame, Ha by naive_solver.
      by apply (Hre (Handler i)).
  - rewrite Ha. destruct Hw as [?|(op & i & j & f & Haw & Hin & Hi)]; [by left|right].
    exists op, i, j, f. split_and!; try done. rewrite Hsame; [done|].
    apply not_elem_of_cons in Hin. naive_solver.
  - rewrite Hgo, Hpc. done.
Qed.

(** The handler on top is done: it goes, and the connection may go on in its place. *)
Lemma running_finish id j stack c c' :
  reached c -> reached c' -> running (Handler id :: stack) c ->
  handlers (ss_pool (sess c)) !! id = Some (MkHandler j AtDone) ->
  handlers (ss_pool (sess c')) = delete id (handlers (ss_pool (sess c))) ->
  awaiting c' = awaiting c -> gone c' = gone c ->
  (ss_pc (sess c') = ss_pc (sess c) -> running stack c') /\
  (ss_pc (sess c) = CWait -> ss_pc (sess c') = CEnd -> running (Reader :: stack) c').
Proof.
  intros Hc Hc' [Hnd Hb Hbot Hl Hre Hw Hg] Hid Hh Ha Hgo.
  pose proof (proj1 (list.NoDup_cons _ _) Hnd) as [Hni Hnd'].
  assert (Hne : forall i, Handler i ∈ stack -> i <> id) by (intros i Hin ->; done).
  assert (Hsame : forall i, i <> id -> handlers (ss_pool (sess c')) !! i = handlers (ss_pool (sess c)) !! i)
    by (intros i Hi; by rewrite Hh, lookup_delete_ne).
  assert (Hg' : gone c' <> true).
  { rewrite Hgo. intros Hgone%Hg. by apply (live_not_ended c id Hc ltac:(by rewrite Hid)). }
  assert (Hrest : forall i, Handler i ∉ stack -> handler_rests c' i).
  { intros i Hin. unfold handler_rests. destruct (decide (i = id)) as [->|Hi].
    - by rewrite Hh, lookup_delete_eq.
    - rewrite Hsame, Ha by done. apply (Hre (Handler i)). rewrite not_elem_of_cons. split; [congruence|done]. }
  assert (Hlive : forall co, co ∈ stack -> live c' co).
  { intros [|i] Hin; simpl; [done|]. rewrite Hsame by auto. apply (Hl (Handler i)). by right. }
  assert (Hwaits : forall st' : list coroutine, (forall i, (Handler i ∈ st') -> Handler i ∈ stack) ->
    awaiting c' = [] \/ exists op i j f, awaiting c' = [(op, i)] /\ (Handler i ∉ st') /\
      handlers (ss_pool (sess c')) !! i = Some (MkHandler j (AtSend f))).
  { intros st' Hst'. rewrite Ha. destruct Hw as [?|(op & i & j' & f & Haw & Hin & Hi)]; [by left|right].
    apply not_elem_of_cons in Hin as [Hin1 Hin2]. exists op, i, j', f. split_and!; try done; [auto|].
    rewrite Hsame; [done|congruence]. }
  split.
  - intros Hpc. split; auto; try done.
    + intros [|i] Hin; simpl.
      * rewrite Hpc. apply (Hb Reader). simpl. destruct stack; [done|]. by right.
      * rewrite Hsame by (apply Hne; destruct stack; [done|]; by right).
        apply (Hb (Handler i)). simpl. destruct stack; [done|]. by right.
    + intros Hin. specialize (Hbot ltac:(by right)). destruct stack; [by apply not_elem_of_nil in Hin|done].
    + intros [|i] Hin; simpl; [|auto]. unfold reader_rests. rewrite Hpc, Hgo.
      apply (Hre Reader). by rewrite not_elem_of_cons.
  - intros Hwait Hend. pose proof (ended_empty c' Hc' Hend) as Hend'. assert (Hnr : Reader ∉ stack).
    { intros Hin. pose proof (Hb Reader Hin) as Htop. simpl in Htop. congruence. }
    split; try done; simpl.
    + by apply list.NoDup_cons.
    + intros [|i] Hin; [done|]. simpl. rewrite Hsame by auto. by apply (Hb (Handler i)).
    + intros _. destruct stack as [|[|i] stack]; [done|exfalso; apply Hnr; left|].
      destruct (Hlive (Handler i) ltac:(left)) as [h Hi]. simpl in Hi. rewrite Hend' in Hi. done.
    + intros co Hin. apply list.elem_of_cons in Hin as [->|Hin]; [done|auto].
    + intros [|i] Hin; apply not_elem_of_cons in Hin as [? Hin]; [done|]. by apply Hrest.
    + apply Hwaits. intros i Hin. by apply list.elem_of_cons in Hin as [?|?].
Qed.

(** The lock is handed over: the next holder runs on top of the one that releases. *)
Lemma running_release id j stack c c' q :
  running (Handler id :: stack) c -> pool_inv (memory c) q (ss_pool (sess c)) ->
  handlers (ss_pool (sess c)) !! id = Some (MkHandler j AtUnlock) ->
  ss_pool (sess c') = release id (ss_pool (sess c)) ->
  awaiting c' = awaiting c -> gone c' = gone c -> ss_pc (sess c') = ss_pc (sess c) ->
  running ((Handler <$> option_list (Mutex.guard_drop true (mtx (ss_pool (sess c)))).1) ++
    Handler id :: stack) c'.
Proof.
  intros Hrun Hp Hid Hpool Ha Hgo Hpc.
  destruct (release_moves id j q _ _ Hp Hid) as (Hn & Hdone & Hmv). rewrite <- Hpool in Hn, Hdone, Hmv.
  destruct (Mutex.guard_drop true (mtx (ss_pool (sess c)))).1 as [h|]; simpl.
  2:{ apply (running_moves id stack c c'); try done. }
  destruct Hmv as (Hne & (j' & resp & Hh) & Hlive & Hsame).
  destruct Hrun as [Hnd Hb Hbot Hl Hre Hw Hg]. pose proof (proj1 (list.NoDup_cons _ _) Hnd) as [Hni Hnd'].
  assert (Hhs : Handler h ∉ Handler id :: stack).
  { rewrite not_elem_of_cons. split; [congruence|]. intros Hin.
    destruct (Hb (Handler h) Hin) as [j0 Hj0]. congruence. }
  assert (Hst : forall i, Handler i ∈ stack -> handlers (ss_pool (sess c')) !! i = handlers (ss_pool (sess c)) !! i).
  { intros i Hin. apply Hsame; [by intros ->|]. intros ->. apply Hhs. by right. }
  split.
  - by apply list.NoDup_cons.
  - intros co Hin. simpl in Hin. apply list.elem_of_cons in Hin as [->|Hin]; [by exists j|].
    destruct co as [|i]; simpl; [rewrite Hpc; by apply (Hb Reader)|]. rewrite Hst by done. by apply (Hb (Handler i)).
  - intros Hin. apply list.elem_of_cons in Hin as [?|Hin]; [done|]. rewrite <- (Hbot Hin). done.
  - intros co Hin. apply list.elem_of_cons in Hin as [->|Hin]; [done|].
    apply list.elem_of_cons in Hin as [->|Hin]; [simpl; by rewrite Hdone|].
    destruct co as [|i]; simpl; [done|]. rewrite Hst by done. apply (Hl (Handler i)). by right.
  - intros co Hin. apply not_elem_of_cons in Hin as [Hin1 Hin].
    pose proof (Hre co Hin) as Hco. destruct co as [|i]; simpl in *.
    + unfold reader_rests in *. by rewrite Hpc, Hgo.
    + apply not_elem_of_cons in Hin as [Hin2 _]. unfold handler_rests in *. rewrite Hsame, Ha by congruence. done.
  - rewrite Ha. destruct Hw as [?|(op & i & j0 & f & Haw & Hin & Hi)]; [by left|right].
    exists op, i, j0, f. split_and!; try done.
    + rewrite not_elem_of_cons. split; [|done]. intros [= ->]. congruence.
    + rewrite Hsame; [done| |]; [|congruence]. intros ->. congruence.
  - rewrite Hgo, Hpc. done.
Qed.

(** The connection ran to its next suspension, or spawned a handler, which runs first. *)
Lemma running_spawns stack c c' :
  reached c -> running (Reader :: stack) c -> spawns (sess c) (sess c') ->
  awaiting c' = awaiting c -> gone c' = gone c -> ss_pc (sess c) <> CEnd ->
  running (if bool_decide (next (ss_pool (sess c)) < next (ss_pool (sess c')))
           then Handler (next (ss_pool (sess c))) :: Reader :: stack else Reader :: stack) c'.
Proof.
  intros Hc [Hnd Hb Hbot Hl Hre Hw Hg] Hsp Ha Hgo Hpc.
  assert (Hg' : gone c' <> true) by (rewrite Hgo; auto).
  assert (Hstack : forall co, co ∈ stack -> False).
  { pose proof (proj1 (list.NoDup_cons _ _) Hnd) as [Hni _]. specialize (Hbot ltac:(left)).
    destruct stack as [|co stack]; [by intros co ?%not_elem_of_nil|].
    exfalso. apply Hni. by apply last_Some_elem_of. }
  destruct Hsp as [(Htop & Hn & _ & Hlive & Hsame)|(Htop & Hn & Hh)]; rewrite Hn.
  - rewrite bool_decide_true by lia. set (i := next (ss_pool (sess c))) in *.
    assert (Hi : Handler i ∉ Reader :: stack) by (rewrite not_elem_of_cons; split; [done|by intros ?%Hstack]).
    split; try done; simpl.
    + by apply list.NoDup_cons.
    + intros co Hin. apply list.elem_of_cons in Hin as [->|?%Hstack]; done.
    + intros _. destruct stack as [|co stack]; [done|]. by destruct (Hstack co ltac:(left)).
    + intros co Hin. apply list.elem_of_cons in Hin as [->|Hin]; [done|].
      apply list.elem_of_cons in Hin as [->|?%Hstack]; done.
    + intros co Hin. apply not_elem_of_cons in Hin as [Hin1 Hin]. destruct co as [|k]; [set_solver|].
      pose proof (Hre (Handler k) Hin) as Hk. simpl in *. unfold handler_rests in *.
      rewrite Hsame, Ha by congruence. done.
    + rewrite Ha. destruct Hw as [?|(op & k & j & f & Haw & Hin & Hk)]; [by left|right].
      assert (k <> i) by (intros ->; unfold i in Hk; rewrite next_not_live in Hk by done; done).
      exists op, k, j, f. split_and!; try done; [|by rewrite Hsame].
      rewrite not_elem_of_cons. split; [congruence|done].
  - rewrite bool_decide_false by lia. split; try done; simpl.
    + intros co Hin. by destruct (Hstack co Hin).
    + intros co Hin. apply list.elem_of_cons in Hin as [->|?%Hstack]; done.
    + intros co Hin. pose proof (Hre co Hin) as Hco. destruct co as [|k]; [set_solver|]. simpl in *.
      unfold handler_rests in *. by rewrite Hh, Ha.
    + rewrite Ha, Hh. done.
Qed.
End stack.
