(* ===== verification/LibcTurns.v ===== *)
(** * The turns of a connection on the poll-driven queue

    What [LibcConnection] does to the table, and that it comes to rest: the invariant
    [good] of a connection with its stack, one [turn], [run], and [dispatch], which is also
    the turn of [LibcQueue] on reactions that only call about this descriptor. *)

From S2P Require Import Prelude Protocol Sync RecvStream FramedReader LibcRecvStream Queue Handlers Session LibcEntry LibcConnection.
From S2P Require LibcQueue.

Open Scope nat_scope.

(** ** One turn *)

(** The entry of [fd]: the stream until it is destroyed, and the sends that wait, behind
    those being finished, [pre]. *)
Definition registered (fd : Z) (pre : list nat) (m : machine) : Prop :=
  entry_is fd (if gone (cn m) then None else Some (stream_op (cn m))) (pre ++ (awaiting (cn m)).*1) (table m).

Definition good `{NativeEndian} (fd : Z) (pre : list nat) (stack : list coroutine) (m : machine) : Prop :=
  reached (cn m) /\ running stack (cn m) /\ registered fd pre m.

(** The connection made some calls about its descriptor, and is the same connection. *)
Definition follows (fd : Z) (m m' : machine) : Prop :=
  stream_op (cn m') = stream_op (cn m) /\ memory (cn m') = memory (cn m) /\
  exists cs, Forall (touches fd) cs /\ table m' = LibcQueue.run_calls cs (table m).

#[export] Instance follows_preorder fd : PreOrder (follows fd).
Proof.
  split.
  - intros m. split_and!; try done. by exists [].
  - intros m1 m2 m3 (Ho & Hm & cs & Hcs & Ht) (Ho' & Hm' & cs' & Hcs' & Ht').
    split_and!; try congruence. exists (cs ++ cs'). rewrite run_calls_app, Ht', Ht.
    split; [by apply Forall_app|done].
Qed.

Section turn.
Context `{NativeEndian}.
Context (sys_send : nat -> list bytes -> sysret).
Context (sys_file : nat -> io_call -> io_result).
Context (address : nat -> nat).
Context (fd : Z).

(** The kernel: a send of something takes some of it, or fails with an [errno]; the calls
    on the file end as [io_call_ok] says. *)
Definition sends_ok : Prop := forall k iov, mjoin iov <> [] ->
  match sys_send k iov with
  | Ret v => (0 < v <= Z.of_nat (length (mjoin iov)))%Z
  | Errno e => (0 < e)%Z
  end.
Definition files_ok : Prop := forall k call, io_call_ok call (sys_file k call).

Hypothesis Hsends : sends_ok.
Hypothesis Hfiles : files_ok.

Abbreviation go := (turn sys_send sys_file address fd).
Abbreviation go_on := (run sys_send sys_file address fd).

Lemma reached_act e m : reached (cn m) -> enabled e (sess (cn m)) -> reached (cn (act e m)).
Proof.
  intros (Hmem & st & recv & Hst & Hw & Hgot & Hr) He. destruct m as [[s op aw g mem bs] q k]. simpl in *.
  split; [done|]. exists st, (recv ++ received e s). split_and!; try done.
  - simpl. by rewrite Hgot, <- app_assoc.
  - simpl. by constructor.
Qed.

(** What the event of a handler leaves of the connection. *)
Definition same_conn (m m' : machine) : Prop :=
  stream_op (cn m') = stream_op (cn m) /\ awaiting (cn m') = awaiting (cn m) /\
  gone (cn m') = gone (cn m) /\ memory (cn m') = memory (cn m) /\ table m' = table m.

Lemma act_same e m : same_conn m (act e m).
Proof. by destruct m as [[]]. Qed.

Lemma same_registered pre m m' : same_conn m m' -> registered fd pre m -> registered fd pre m'.
Proof. intros (Ho & Ha & Hg & _ & Ht). unfold registered. by rewrite Ho, Ha, Hg, Ht. Qed.

Lemma same_follows m m' : same_conn m m' -> follows fd m m'.
Proof. intros (Ho & _ & _ & Hm & Ht). split_and!; try done. by exists []. Qed.

Lemma act_sess e m : sess (cn (act e m)) = Session.apply (memory (cn m)) e (sess (cn m)).
Proof. by destruct m as [[]]. Qed.

(** The event of a handler with a step of its own. *)
Lemma act_moves e id stack pre m m' :
  good fd pre (Handler id :: stack) m -> m' = act e m \/ m' = tick (act e m) ->
  enabled e (sess (cn m)) ->
  moves id (pool_of m) (ss_pool (Session.apply (memory (cn m)) e (sess (cn m)))) ->
  ss_pc (Session.apply (memory (cn m)) e (sess (cn m))) = pc_of m ->
  good fd pre (Handler id :: stack) m' /\ follows fd m m'.
Proof.
  intros (Hr & Hrun & Hreg) Hm' He Hmv Hpc.
  assert (Hsame : same_conn m m') by (destruct Hm' as [-> | ->]; exact (act_same e m)).
  assert (Hs : sess (cn m') = Session.apply (memory (cn m)) e (sess (cn m)))
    by (destruct Hm' as [-> | ->]; exact (act_sess e m)).
  split; [|by apply same_follows]. split; [|split].
  - destruct Hm' as [-> | ->]; by apply (reached_act e m).
  - destruct Hsame as (_ & Ha & Hg & _). apply (running_moves id stack (cn m)); try done; by rewrite Hs.
  - by eapply same_registered.
Qed.

(** The handler of a live coroutine on top: where it is in its request. *)
Lemma handler_local m id j pc :
  reached (cn m) -> handlers (pool_of m) !! id = Some (MkHandler j pc) ->
  exists q req, pool_inv (memory (cn m)) q (pool_of m) /\ spawned (pool_of m) !! id = Some req /\
    local_ok (memory (cn m)) id req (Some (MkHandler j pc)) (of_id id (io_log (pool_of m)))
      (of_id id (begun (pool_of m))).
Proof.
  intros Hr Hid. destruct (reached_inv _ Hr) as (_ & _ & q & Hp).
  destruct (live_request _ _ _ _ _ _ (proj1 Hp) Hid) as (req & Hreq & _).
  exists q, req. split_and!; try done. rewrite <- Hid.
  exact (pi_local (proj1 Hp) id req (not_elem_of_nil id) Hreq).
Qed.

(** The frame of a sending handler is not empty, and it is the only one. *)
Lemma sender_frame m id j f :
  reached (cn m) -> handlers (pool_of m) !! id = Some (MkHandler j (AtSend f)) ->
  mjoin (offer f) <> [] /\
  forall id' j' f', handlers (pool_of m) !! id' = Some (MkHandler j' (AtSend f')) -> id' = id.
Proof.
  intros Hr Hid. destruct (reached_inv _ Hr) as (_ & _ & q & Hp & Hw).
  destruct (sender_at _ _ _ _ _ _ Hp Hid) as [Hq Hs]. rewrite Hs in Hw. split.
  - destruct Hw as (? & ? & _ & ? & ? & _ & _ & _ & [Hf _]). done.
  - intros id' j' f' Hid'. destruct (sender_at _ _ _ _ _ _ Hp Hid') as [Hq' _].
    unfold pool_of in *. congruence.
Qed.

(** What a send returned is an event of its handler, and progress. *)
Lemma send_drains m id j f k res :
  reached (cn m) -> handlers (pool_of m) !! id = Some (MkHandler j (AtSend f)) ->
  LibcQueue.try_op (sys_send k (offer f)) = Some res -> drains (send_event id res) (sess (cn m)).
Proof.
  intros Hr Hid Hres. destruct (sender_frame m id j f Hr Hid) as [Hf _].
  pose proof (Hsends k (offer f) Hf) as Hk. unfold send_event, LibcQueue.op_end.
  destruct (sys_send k (offer f)) as [v|e]; simpl in Hres.
  - simplify_eq. rewrite bool_decide_false by lia. split; [|simpl; lia].
    exists f. split; [by exists j|lia].
  - case_bool_decide; simplify_eq. rewrite bool_decide_true by lia. split; [|done]. exists f, j. done.
Qed.

Lemma file_drains m id j call k :
  handlers (pool_of m) !! id = Some (MkHandler j AtIo) -> file_io j = Some call ->
  drains (Io id (sys_file k call)) (sess (cn m)).
Proof. intros Hid Hcall. split; [|done]. exists j, call. split_and!; try done. Qed.

(** Doing what a handler drains brings it closer to its end. *)
Lemma act_decreases e m :
  reached (cn m) -> drains e (sess (cn m)) -> steps_left (pool_of (act e m)) < steps_left (pool_of m).
Proof.
  intros Hr He. unfold pool_of. rewrite act_sess. destruct Hr as [Hmem Hr'].
  apply (drains_decreases (memory (cn m)) (got (cn m))); [|done]. by apply reached_inv.
Qed.

(** A send of the handler on top, in [await_ready] or in [on_ready]. *)
Lemma send_good m m' id j f k res stack pre :
  good fd pre (Handler id :: stack) m -> handlers (pool_of m) !! id = Some (MkHandler j (AtSend f)) ->
  LibcQueue.try_op (sys_send k (offer f)) = Some res -> m' = act (send_event id res) m ->
  good fd pre (Handler id :: stack) m' /\ follows fd m m' /\
  steps_left (pool_of m') < steps_left (pool_of m) /\ pc_of m' = pc_of m.
Proof.
  intros Hg Hid Hres ->. pose proof (send_drains m id j f k res (proj1 Hg) Hid Hres) as Hd.
  assert (Hmv : moves id (pool_of m) (ss_pool (Session.apply (memory (cn m)) (send_event id res) (sess (cn m)))) /\
    ss_pc (Session.apply (memory (cn m)) (send_event id res) (sess (cn m))) = pc_of m).
  { unfold send_event. pose proof (send_event_moves id res f j _ Hid).
    by destruct (LibcQueue.op_end res). }
  destruct Hmv as [Hmv Hpc].
  destruct (act_moves _ id stack pre m _ Hg (or_introl eq_refl) (proj1 Hd) Hmv Hpc) as [Hg' Hf].
  split_and!; try done; [by apply act_decreases; [apply Hg|]|]. unfold pc_of. by rewrite act_sess.
Qed.

(** The awaiter of a send that would block is put into the table. *)
Lemma suspend_good m id j f stack pre :
  good fd pre (Handler id :: stack) m -> handlers (pool_of m) !! id = Some (MkHandler j (AtSend f)) ->
  good fd pre stack (suspend_send address fd id (tick m)) /\ follows fd m (suspend_send address fd id (tick m)).
Proof.
  intros (Hr & Hrun & Hreg) Hid.
  assert (Haw : awaiting (cn m) = []).
  { destruct (rn_waits Hrun) as [?|(op & i & j' & f' & _ & Hin & Hi)]; [done|].
    destruct (sender_frame m id j f Hr Hid) as [_ Huniq]. specialize (Huniq i j' f' Hi). subst i.
    exfalso. apply Hin. left. }
  assert (Hgone : gone (cn m) = false).
  { destruct (gone (cn m)) eqn:Hg; [|done]. pose proof (rn_gone Hrun Hg) as Hpc.
    by destruct (live_not_ended (cn m) id Hr ltac:(unfold pool_of in Hid; by rewrite Hid)). }
  destruct m as [[s op aw g mem bs] q k]. unfold pool_of in Hid. simpl in *. subst aw g.
  unfold registered in Hreg. simpl in Hreg. split.
  - split; [exact Hr|]. split; [|rewrite app_nil_r in Hreg; by apply push_write_entry].
    destruct Hrun as [Hnd Hb Hbot Hl Hre _ _]. simpl in *.
    apply list.NoDup_cons in Hnd as [Hni Hnd]. split; simpl; auto.
    + intros co Hin. apply Hb. destruct stack; [done|]. by right.
    + intros Hin. specialize (Hbot ltac:(by right)). destruct stack; [by apply not_elem_of_nil in Hin|done].
    + intros co Hin. apply Hl. by right.
    + intros co Hin. destruct (decide (co = Handler id)) as [->|Hne].
      * unfold rests, handler_rests. simpl. rewrite Hid. simpl. by eexists.
      * assert (Hin' : co ∉ Handler id :: stack) by (by apply not_elem_of_cons).
        specialize (Hre co Hin'). destruct co as [|i]; [done|]. unfold rests, handler_rests in *. simpl in *.
        destruct (handlers (ss_pool s) !! i) as [[ji []]|]; simpl in *; try done. by destruct Hre.
    + right. by exists (address (S k)), id, j, f.
    + done.
  - split_and!; try done. exists [LibcQueue.PushWrite fd (address (S k))]. split; [by repeat constructor|done].
Qed.

(** The locals of the connection are destroyed. *)
Lemma leave_good stack pre m :
  good fd pre (Reader :: stack) m -> pc_of m = CEnd ->
  good fd pre stack (leave fd m) /\ follows fd m (leave fd m).
Proof.
  intros (Hr & Hrun & Hreg) Hpc. destruct m as [[s op aw g mem bs] q k]. unfold pc_of, registered in *. simpl in *.
  split.
  - split; [exact Hr|]. split; simpl.
    + destruct Hrun as [Hnd Hb Hbot Hl Hre Hw _].
      apply list.NoDup_cons in Hnd as [Hni Hnd]. split; simpl in *; auto.
      * intros co Hin. apply Hb. destruct stack; [done|]. by right.
      * by intros ?%Hni.
      * intros co Hin. apply Hl. by right.
      * intros [|i] Hin; simpl; [unfold reader_rests; simpl; by rewrite Hpc|].
        apply (Hre (Handler i)). by rewrite not_elem_of_cons.
      * destruct Hw as [?|(op' & i & j & f & -> & Hin & Hi)]; [by left|right].
        apply not_elem_of_cons in Hin as [_ Hin]. by exists op', i, j, f.
    + unfold registered. simpl. destruct g; [|by apply clear_read_entry].
      destruct Hreg as [Hro Hwq]. unfold LibcQueue.clear_read_op. unfold LibcQueue.entry in *.
      destruct (LibcQueue.fds q !! fd) as [st|] eqn:Hst; [|unfold entry_is, LibcQueue.entry; by rewrite Hst].
      simpl in Hro. rewrite Hro. simpl. unfold entry_is, LibcQueue.entry. by rewrite Hst.
  - split_and!; try done. exists [LibcQueue.ClearRead fd op]. split; [by repeat constructor|done].
Qed.

(** The connection goes round its loop. *)
Lemma reader_good stack pre m :
  good fd pre (Reader :: stack) m -> pc_of m = CTop ->
  good fd pre ((spawned_by m (act Run m) ++ [Reader]) ++ stack) (act Run m) /\ follows fd m (act Run m).
Proof.
  intros (Hr & Hrun & Hreg) Hpc. pose proof (act_same Run m) as Hsame.
  split; [|by apply same_follows]. split; [by apply reached_act|]. split; [|by eapply same_registered].
  destruct Hsame as (_ & Ha & Hg & _).
  assert (Hsp : spawns (sess (cn m)) (sess (cn (act Run m))))
    by (rewrite act_sess; by apply (conn_run_spawns (memory (cn m)))).
  pose proof (running_spawns stack (cn m) (cn (act Run m)) Hr Hrun Hsp Ha Hg) as Hrun'.
  unfold spawned_by, pool_of. unfold pc_of in Hpc. rewrite Hpc in Hrun'.
  specialize (Hrun' ltac:(done)). by case_bool_decide.
Qed.

(** The handler on top leaves the scope of its guard. *)
Lemma release_good id j stack pre m :
  good fd pre (Handler id :: stack) m -> handlers (pool_of m) !! id = Some (MkHandler j AtUnlock) ->
  good fd pre (((Handler <$> option_list (Mutex.guard_drop true (mtx (pool_of m))).1) ++ [Handler id]) ++ stack)
    (act (Release id) m) /\ follows fd m (act (Release id) m).
Proof.
  intros (Hr & Hrun & Hreg) Hid. pose proof (act_same (Release id) m) as Hsame.
  split; [|by apply same_follows]. split; [apply reached_act; [done|]; by exists j|].
  split; [|by eapply same_registered]. destruct Hsame as (_ & Ha & Hg & _).
  destruct (reached_inv _ Hr) as (_ & _ & q & Hp). rewrite <- app_assoc. simpl.
  apply (running_release id j stack (cn m) _ q); try done; by rewrite act_sess.
Qed.

(** It ends, and may resume the connection. *)
Lemma finish_good id j stack pre m :
  good fd pre (Handler id :: stack) m -> handlers (pool_of m) !! id = Some (MkHandler j AtDone) ->
  good fd pre (ended_by m (act (Finish id) m) ++ stack) (act (Finish id) m) /\ follows fd m (act (Finish id) m).
Proof.
  intros (Hr & Hrun & Hreg) Hid. pose proof (act_same (Finish id) m) as Hsame.
  assert (Hr' : reached (cn (act (Finish id) m))) by (apply reached_act; [done|]; by exists j).
  split; [|by apply same_follows]. split; [done|]. split; [|by eapply same_registered].
  destruct Hsame as (_ & Ha & Hg & _). destruct (finish_moves id j _ Hid) as [_ Hh].
  assert (Hs : sess (cn (act (Finish id) m)) = finish_handler id (sess (cn m))) by (by rewrite act_sess).
  assert (Hh' : handlers (ss_pool (finish_handler id (sess (cn m)))) = delete id (handlers (pool_of m))).
  { unfold finish_handler, pool_of in *. destruct (finish id (ss_pool (sess (cn m)))) as [w p']. simpl in Hh.
    by destruct w, (ss_pc (sess (cn m))). }
  destruct (running_finish id j stack (cn m) (cn (act (Finish id) m)) Hr Hr' Hrun Hid) as [Hstay Hend];
    [by rewrite Hs|done|done|]. rewrite Hs in Hstay, Hend. unfold ended_by, pc_of. rewrite Hs.
  unfold finish_handler in *. destruct (finish id (ss_pool (sess (cn m)))) as [[h|] p'];
    destruct (ss_pc (sess (cn m))) eqn:Hpc; simpl in *; rewrite ?Hpc in *; simpl; auto.
Qed.

(** Every turn of the stack keeps the connection in order. *)
Lemma turn_good co stack pre m :
  good fd pre (co :: stack) m ->
  good fd pre ((go co m).1 ++ stack) (go co m).2 /\ follows fd m (go co m).2.
Proof.
  intros Hg. pose proof Hg as (Hr & Hrun & Hreg).
  assert (Hpop : rests (cn m) co -> good fd pre stack m /\ follows fd m m)
    by (intros; split; [|done]; split; [done|split; [by eapply running_pop|done]]).
  destruct (reached_inv _ Hr) as (_ & Hconn & _). unfold turn. destruct co as [|id].
  - pose proof (reader_good stack pre m Hg) as Hrun1. pose proof (leave_good stack pre m Hg) as Hleave.
    unfold rests, reader_rests in Hpop. unfold pc_of in *. destruct (sess (cn m)) as [st r pc p]. simpl in *.
    destruct pc; auto; by destruct Hconn as (? & _ & []).
  - pose proof (rn_live Hrun (Handler id) ltac:(left)) as [[j pc] Hid]. unfold pool_of. rewrite Hid.
    unfold rests, handler_rests in Hpop. rewrite Hid in Hpop. simpl in Hpop.
    destruct (handler_local m id j pc Hr Hid) as (q & req & Hp & Hreq & Hloc).
    destruct pc as [|resp|f| | |]; simpl in Hpop |- *.
    + destruct Hloc as (_ & Hio & _). rewrite Hio. simpl.
      destruct (file_drains m id j _ (clock m) Hid Hio) as [He _].
      apply (act_moves (Io id (sys_file (clock m) (request_io req)))); [done|by right|done| |done].
      apply io_done_moves. unfold pool_of. by rewrite Hid.
    + by apply Hpop.
    + destruct (LibcQueue.try_op _) as [res|] eqn:Hres; simpl; [|by eapply suspend_good].
      destruct (send_good (tick m) _ id j f _ res stack pre Hg Hid Hres eq_refl) as (Hg' & Hf & _). done.
    + by eapply release_good.
    + by eapply finish_good.
    + done.
Qed.

(** *** Running ends *)

(** What the connection can still read without waiting: at most this many requests. *)
Definition left_to_read (m : machine) : nat :=
  match pc_of m with
  | CTop => S (length (got (cn m)) - length (images (spawned (pool_of m))))
  | _ => 0
  end.

Definition load (stack : list coroutine) (m : machine) : nat := 2 * steps_left (pool_of m) + length stack.

(** A turn reads a request, or brings a handler closer to its end, or pops. *)
Definition progress (stack stack' : list coroutine) (m m' : machine) : Prop :=
  left_to_read m' < left_to_read m \/
  (left_to_read m' = left_to_read m /\ steps_left (pool_of m') <= steps_left (pool_of m) /\
   load stack' m' < load stack m).

Lemma progress_act e m m' stack stack' :
  reached (cn m) -> drains e (sess (cn m)) -> m' = act e m \/ m' = tick (act e m) ->
  length stack' <= S (length stack) -> progress stack stack' m m'.
Proof.
  intros Hr He Hm' Hlen. right. pose proof (act_decreases e m Hr He) as Hdec.
  assert (Hpool : pool_of m' = pool_of (act e m)) by (by destruct Hm' as [-> | ->]).
  unfold load. rewrite Hpool. split; [|lia].
  assert (Hpc : pc_of m' = CTop <-> pc_of m = CTop).
  { assert (pc_of m' = ss_pc (Session.apply (memory (cn m)) e (sess (cn m)))) as ->
      by (destruct Hm' as [-> | ->]; unfold pc_of; simpl; by rewrite act_sess).
    destruct He as [_ He]. unfold pc_of. destruct e; try done. simpl. unfold finish_handler.
    destruct (finish id (ss_pool (sess (cn m)))) as [[h|] p']; destruct (ss_pc (sess (cn m))) eqn:Hpc;
      simpl; rewrite ?Hpc; done. }
  assert (Hgot : got (cn m') = got (cn m)).
  { destruct He as [_ He]. destruct m as [[s op aw g mem bs] q k].
    destruct Hm' as [-> | ->]; simpl; destruct e; try done; apply app_nil_r. }
  assert (Hsp : spawned (pool_of m') = spawned (pool_of m)).
  { rewrite Hpool. unfold pool_of. rewrite act_sess. destruct He as [He Hk]. destruct e; try done; simpl.
    - apply io_done_keeps.
    - apply sent_keeps.
    - apply send_failed_keeps.
    - apply release_keeps.
    - destruct He as [j Hj]. unfold finish_handler, finish. rewrite Hj.
      destruct (WaitGroup.done (wg (ss_pool (sess (cn m))))) as [[h|] w]; by destruct (ss_pc (sess (cn m))). }
  unfold left_to_read. rewrite Hgot, Hsp. destruct Hpc as [Hto Hfrom].
  destruct (pc_of m), (pc_of m'); try done; by (specialize (Hto eq_refl) || specialize (Hfrom eq_refl)).
Qed.

Lemma progress_run stack m stack' :
  reached (cn m) -> pc_of m = CTop -> progress stack stack' m (act Run m).
Proof.
  intros Hr Hpc. left. unfold left_to_read. rewrite Hpc.
  assert (Hgot : got (cn (act Run m)) = got (cn m))
    by (destruct m as [[s op aw g mem bs] q k]; apply app_nil_r).
  assert (Hs : spawns (sess (cn m)) (sess (cn (act Run m))))
    by (rewrite act_sess; by apply conn_run_spawns).
  destruct Hs as [(Htop & _ & (req & Hsp) & _)|(Htop & _)]; unfold pc_of, pool_of.
  2:{ destruct (ss_pc (sess (cn (act Run m)))); try done; lia. }
  pose proof (reached_inv _ (reached_act Run m Hr Hpc)) as (_ & Hconn & _).
  rewrite Htop, Hsp. destruct (sess (cn (act Run m))) as [st r pc p]. simpl in *.
  destruct Hconn as (rest & Hrest & _). apply (f_equal length) in Hrest.
  rewrite Hgot, Hsp, length_app in Hrest. rewrite Hgot. rewrite images_snoc, length_app in *.
  pose proof (length_image req). unfold sizeof_request in *. lia.
Qed.

Lemma turn_progress co stack pre m :
  good fd pre (co :: stack) m -> progress (co :: stack) ((go co m).1 ++ stack) m (go co m).2.
Proof.
  intros (Hr & Hrun & _).
  assert (Hpop : forall m', pool_of m' = pool_of m -> pc_of m' = pc_of m -> got (cn m') = got (cn m) ->
    progress (co :: stack) ([] ++ stack) m m').
  { intros m' Hp Hc Hgt. right. unfold load, left_to_read. rewrite Hp, Hc, Hgt. simpl. lia. }
  unfold turn. destruct co as [|id].
  - pose proof (progress_run (Reader :: stack) m ((spawned_by m (act Run m) ++ [Reader]) ++ stack) Hr).
    destruct (pc_of m) eqn:Hpc; auto; apply Hpop; try done; by destruct m as [[]].
  - destruct (handlers (pool_of m) !! id) as [[j pc]|] eqn:Hid; [|by apply Hpop].
    destruct pc as [|resp|f| | |]; try by apply Hpop.
    + destruct (file_io j) as [call|] eqn:Hcall; [|by apply Hpop].
      apply (progress_act (Io id (sys_file (clock m) call))); auto. by apply (file_drains m id j).
    + destruct (LibcQueue.try_op _) as [res|] eqn:Hres; [|apply Hpop; by destruct m as [[]]].
      destruct (send_drains m id j f _ res Hr Hid Hres) as [He Hp].
      eapply (progress_act (send_event id res) (tick m)); auto. by split.
    + apply (progress_act (Release id)); auto; [split; [by exists j|done]|].
      destruct (Mutex.guard_drop true (mtx (pool_of m))).1; simpl; lia.
    + apply (progress_act (Finish id)); auto; [split; [by exists j|done]|].
      rewrite length_app. unfold ended_by. repeat case_match; simpl; lia.
Qed.

(** Resumed coroutines run to their suspension. *)
Lemma run_ok pre stack m :
  good fd pre stack m ->
  exists n m', (forall fuel, n <= fuel -> go_on fuel stack m = Some m') /\
    good fd pre [] m' /\ follows fd m m' /\
    (left_to_read m = 0 -> steps_left (pool_of m') <= steps_left (pool_of m)).
Proof.
  remember (left_to_read m) as r eqn:Hrd. revert stack m Hrd.
  induction r as [r IHr] using lt_wf_ind. intros stack m.
  remember (load stack m) as l eqn:Hl. revert stack m Hl.
  induction l as [l IHl] using lt_wf_ind. intros [|co stack] m Hl Hrd Hg.
  { exists 0, m. split_and!; try done. by intros []. }
  destruct (turn_good co stack pre m Hg) as [Hg' Hf]. pose proof (turn_progress co stack pre m Hg) as Hp.
  assert (Hnext : exists n m', (forall fuel, n <= fuel -> go_on fuel ((go co m).1 ++ stack) (go co m).2 = Some m') /\
    good fd pre [] m' /\ follows fd (go co m).2 m' /\
    (r = 0 -> steps_left (pool_of m') <= steps_left (pool_of m))).
  { destruct Hp as [Hlt|(Heq & Hsl & Hlt)].
    - destruct (IHr (left_to_read (go co m).2) ltac:(lia) _ _ eq_refl Hg') as (n & m' & Hn & H1 & H2 & _).
      exists n, m'. split_and!; try done. intros ->. lia.
    - destruct (IHl (load ((go co m).1 ++ stack) (go co m).2) ltac:(lia) _ _ eq_refl ltac:(congruence) Hg')
        as (n & m' & Hn & H1 & H2 & H3). exists n, m'. split_and!; try done. intros Hr0.
      specialize (H3 Hr0). lia. }
  destruct Hnext as (n & m' & Hn & Hgm & Hfm & Hsl). exists (S n), m'. split_and!; try done.
  - intros [|fuel] Hfuel; [lia|]. cbn [run]. specialize (Hn fuel ltac:(lia)).
    by destruct (go co m) as [cs m1].
  - by etrans.
Qed.

(** ** [step], for this descriptor *)

(** The connection's coroutine is resumed. *)
Lemma running_resume c : running [] c -> running [Reader] c.
Proof.
  intros [_ _ _ _ Hre Hw Hg]. split; simpl; auto.
  - apply NoDup_singleton.
  - by intros co ?%not_elem_of_nil.
  - by intros co ->%list_elem_of_singleton.
  - intros co _. apply Hre, not_elem_of_nil.
  - destruct Hw as [?|(op & id & j & f & ? & _ & ?)]; [by left|right].
    exists op, id, j, f. split_and!; try done. by intros ?%list_elem_of_singleton.
Qed.

(** What a connection at rest is. *)
Lemma at_rest_pc m :
  good fd [] [] m -> gone (cn m) = false ->
  pc_of m <> CTop /\ pc_of m <> CEnd /\ left_to_read m = 0.
Proof.
  intros (_ & Hrun & _) Hg. pose proof (rn_rests Hrun Reader (not_elem_of_nil _)) as Hre.
  unfold rests, reader_rests, left_to_read, pc_of in *. rewrite Hg in Hre. by destruct (ss_pc (sess (cn m))).
Qed.

Lemma read_ready_ok rs m :
  good fd [] [] m -> gone (cn m) = false ->
  Forall (Libc.recv_ok (Libc.entry_size (ss_stream (sess (cn m))))) rs ->
  exists n m', (forall fuel, n <= fuel -> read_ready sys_send sys_file address fd fuel rs m = Some m') /\
    good fd [] [] m' /\ follows fd m m'.
Proof.
  intros Hg Hgone Hrs. destruct (at_rest_pc m Hg Hgone) as (Htop & Hend & _).
  destruct Hg as (Hr & Hrun & Hreg).
  set (ev := Receive (Libc.EvReady rs : rs_event (RecvStreamLaws := Libc.stream_laws))).
  pose proof (act_same ev m) as Hsame.
  assert (Hr' : reached (cn (act ev m))) by (by apply reached_act).
  assert (Hreg' : registered fd [] (act ev m)) by (by eapply same_registered).
  pose proof (same_follows m (act ev m) Hsame) as Hf. destruct Hsame as (_ & Ha & Hgo & _).
  pose proof (receive_spawns (memory (cn m)) rs (sess (cn m)) Htop) as Hsp.
  pose proof (act_sess ev m) as Hs. change (Session.apply (memory (cn m)) ev (sess (cn m)))
    with (receive (memory (cn m)) (Libc.EvReady rs : rs_event (RecvStreamLaws := Libc.stream_laws)) (sess (cn m))) in Hs.
  rewrite <- Hs in Hsp. unfold read_ready. fold ev.
  destruct (Libc.on_ready rs (ss_stream (sess (cn m)))).2 as [h|].
  - pose proof (running_spawns [] (cn m) (cn (act ev m)) Hr (running_resume _ Hrun) Hsp Ha Hgo Hend) as Hrun'.
    destruct (run_ok [] (spawned_by m (act ev m) ++ [Reader]) (act ev m)) as (n & m' & Hn & Hg' & Hf' & _).
    { split; [done|]. split; [|done]. unfold spawned_by, pool_of. by case_bool_decide. }
    exists n, m'. split_and!; try done. by etrans.
  - exists 0, (act ev m). split_and!; try done. destruct Hsp as [Hpc Hpool].
    split; [done|]. split; [|done]. destruct Hrun as [Hnd Hb Hbot Hl Hre Hw Hgn].
    split; auto; rewrite ?Hpc, ?Hpool, ?Ha, ?Hgo; auto.
    + by intros co ?%not_elem_of_nil.
    + by intros co ?%not_elem_of_nil.
    + intros [|i] Hin; specialize (Hre _ Hin); unfold rests, reader_rests, handler_rests in *;
        by rewrite ?Hpc, ?Hpool, ?Ha, ?Hgo.
Qed.

(** Whoever is queued in the table is the sender. *)
Lemma queued_sender m op wq :
  good fd [] [] m -> LibcQueue.write_queue (LibcQueue.entry fd (table m)) = op :: wq ->
  wq = [] /\ exists id j f, awaiting (cn m) = [(op, id)] /\
    handlers (pool_of m) !! id = Some (MkHandler j (AtSend f)).
Proof.
  intros (_ & Hrun & [_ Hwq]) Hq. rewrite Hwq in Hq.
  destruct (rn_waits Hrun) as [Ha|(op' & id & j & f & Ha & _ & Hid)]; rewrite Ha in *; simplify_eq/=.
  split; [done|]. eauto.
Qed.

(** The sender leaves the table, resumed. *)
Lemma running_send op id j f c c' :
  reached c -> running [] c -> awaiting c = [(op, id)] ->
  handlers (ss_pool (sess c)) !! id = Some (MkHandler j (AtSend f)) ->
  sess c' = sess c -> awaiting c' = [] -> gone c' = gone c -> running [Handler id] c'.
Proof.
  intros Hr [Hnd Hb Hbot Hl Hre Hw Hg] Ha Hid Hs Ha' Hg'.
  assert (Huniq : forall i j' f', handlers (ss_pool (sess c)) !! i = Some (MkHandler j' (AtSend f')) -> i = id)
    by (destruct (sender_frame (Machine c LibcQueue.init 0) id j f Hr Hid) as [_ Hu]; exact Hu).
  split; rewrite ?Hs, ?Hg'; auto.
  - apply NoDup_singleton.
  - by intros co ?%not_elem_of_nil.
  - by intros ?%list_elem_of_singleton.
  - intros co ->%list_elem_of_singleton. simpl. by rewrite Hs, Hid.
  - intros [|i] Hin.
    + pose proof (Hre Reader (not_elem_of_nil _)) as Hrd. simpl in *. unfold reader_rests in *. by rewrite Hs, Hg'.
    + pose proof (Hre (Handler i) (not_elem_of_nil _)) as Hh. simpl in *. unfold handler_rests in *. rewrite Hs.
      destruct (handlers (ss_pool (sess c)) !! i) as [[ji pci]|] eqn:Hi; [|done]. simpl in *.
      destruct pci; try done. rewrite (Huniq _ _ _ Hi) in Hin. exfalso. apply Hin. left.
Qed.

Lemma write_ready_ok op wq m :
  good fd [] [] m -> LibcQueue.write_queue (LibcQueue.entry fd (table m)) = op :: wq ->
  exists n b m', (forall fuel, n <= fuel -> write_ready sys_send sys_file address fd fuel op m = Some (b, m')) /\
    stream_op (cn m') = stream_op (cn m) /\ memory (cn m') = memory (cn m) /\
    (exists cs, Forall (touches fd) cs /\
       table m' = LibcQueue.run_calls cs (LibcQueue.log (LibcQueue.Ready op b) (table m))) /\
    if b : bool then good fd [op] [] m' /\ steps_left (pool_of m') < steps_left (pool_of m)
    else good fd [] [] m'.
Proof.
  intros Hg Hq. destruct (queued_sender m op wq Hg Hq) as [-> (id & j & f & Ha & Hid)].
  assert (Hpc : left_to_read m = 0).
  { apply at_rest_pc; [done|]. destruct (gone (cn m)) eqn:Hgone; [|done].
    destruct Hg as (Hr & Hrun & _). pose proof (rn_gone Hrun Hgone).
    by destruct (live_not_ended (cn m) id Hr ltac:(unfold pool_of in Hid; by rewrite Hid)). }
  unfold write_ready. rewrite Ha. cbn [list_find].
  rewrite decide_True by done. rewrite Hid.
  destruct (LibcQueue.try_op _) as [res|] eqn:Hres.
  - destruct Hg as (Hr & Hrun & Hreg). simpl.
    set (m1 := with_awaiting (delete 0 (awaiting (cn m))) (with_table (LibcQueue.log (LibcQueue.Ready op true) (table m)) (tick m))).
    assert (Hm1 : sess (cn m1) = sess (cn m) /\ awaiting (cn m1) = [] /\ gone (cn m1) = gone (cn m) /\
      stream_op (cn m1) = stream_op (cn m) /\ memory (cn m1) = memory (cn m) /\ got (cn m1) = got (cn m)).
    { unfold m1. destruct m as [[s op' aw g mem bs] q k]. simpl in *. by rewrite Ha. }
    destruct Hm1 as (Hs1 & Ha1 & Hg1 & Ho1 & Hmem1 & Hgot1).
    assert (Ht1 : table m1 = LibcQueue.log (LibcQueue.Ready op true) (table m)) by (by destruct m as [[]]).
    assert (Hgood1 : good fd [op] [Handler id] m1).
    { split; [|split].
      - destruct Hr as (Hmem & st & recv & Hr). unfold reached. rewrite Hmem1, Hgot1, Hs1. split; [done|]. by exists st, recv.
      - by apply (running_send op id j f (cn m)).
      - unfold registered in *. rewrite Ha1, Hg1, Ho1, Ht1. rewrite Ha in Hreg. done. }
    assert (Hid1 : handlers (pool_of m1) !! id = Some (MkHandler j (AtSend f))) by (unfold pool_of in *; by rewrite Hs1).
    destruct (send_good m1 _ id j f (clock m) res [] [op] Hgood1 Hid1 Hres eq_refl) as (Hg2 & Hf2 & Hdec & Hpc2).
    destruct (run_ok [op] [Handler id] _ Hg2) as (n & m' & Hn & Hg' & Hf' & Hsl).
    exists n, true, m'. split.
    { intros fuel Hfuel. fold m1. by rewrite (Hn fuel Hfuel). }
    destruct Hf2 as (Ho2 & Hmem2 & cs2 & Hcs2 & Ht2). destruct Hf' as (Ho' & Hmem' & cs' & Hcs' & Ht').
    split_and!; try congruence.
    + exists (cs2 ++ cs'). split; [by apply Forall_app|]. by rewrite run_calls_app, Ht', Ht2, Ht1.
    + assert (left_to_read (act (send_event id res) m1) = 0).
      { unfold left_to_read in *. rewrite Hpc2. unfold pc_of in *. rewrite Hs1. by destruct (ss_pc (sess (cn m))). }
      assert (steps_left (pool_of m1) = steps_left (pool_of m)) by (unfold pool_of; by rewrite Hs1).
      specialize (Hsl ltac:(done)). lia.
  - exists 0, false, (with_table (LibcQueue.log (LibcQueue.Ready op false) (table m)) (tick m)).
    split_and!; try done. by exists [].
Qed.
(** The finished operation goes. *)
Lemma pop_good op m :
  good fd [op] [] m -> good fd [] [] (with_table (LibcQueue.pop_write fd op (table m)) m).
Proof.
  intros (Hr & Hrun & Hreg). split; [done|]. split; [done|]. by apply pop_write_entry in Hreg.
Qed.

(** The loop over the write queue: the sends that can go on do, and what they resume runs
    to its suspension. *)
Lemma write_turns_ok m :
  good fd [] [] m ->
  exists N m' wr, (forall n fuel, N <= n -> N <= fuel ->
      write_turns sys_send sys_file address fd n fuel m = Some m') /\
    good fd [] [] m' /\ stream_op (cn m') = stream_op (cn m) /\ memory (cn m') = memory (cn m) /\
    Forall (local_reaction fd) wr /\ table m' = LibcQueue.dispatch_writes fd wr (table m).
Proof.
  remember (steps_left (pool_of m)) as l eqn:Hl. revert m Hl.
  induction l as [l IH] using lt_wf_ind. intros m Hl Hg.
  destruct (LibcQueue.write_queue (LibcQueue.entry fd (table m))) as [|op wq] eqn:Hq.
  { exists 0, m, []. split_and!; try done.
    - intros n fuel _ _. destruct n; simpl; by rewrite Hq.
    - simpl. unfold LibcQueue.entry in Hq. destruct (LibcQueue.fds (table m) !! fd); [|done].
      simpl in Hq. by rewrite Hq. }
  destruct (write_ready_ok op wq m Hg Hq) as (n1 & b & m1 & Hn1 & Ho1 & Hm1 & (cs & Hcs & Ht1) & Hb).
  assert (Hst : exists st, LibcQueue.fds (table m) !! fd = Some st /\ LibcQueue.write_queue st = op :: wq).
  { unfold LibcQueue.entry in Hq. destruct (LibcQueue.fds (table m) !! fd) as [st|]; [|done]. by exists st. }
  destruct Hst as (st & Hst & Hwq).
  assert (Hdisp : forall wr, LibcQueue.dispatch_writes fd ((b, cs) :: wr) (table m) =
    if b then LibcQueue.dispatch_writes fd wr (LibcQueue.pop_write fd op (table m1)) else table m1).
  { intros wr. simpl. rewrite Hst, Hwq. by rewrite Ht1. }
  destruct b.
  - destruct Hb as [Hg1 Hlt]. set (m2 := with_table (LibcQueue.pop_write fd op (table m1)) m1).
    destruct (IH (steps_left (pool_of m2)) ltac:(subst l; exact Hlt) m2 eq_refl (pop_good op m1 Hg1))
      as (N & m' & wr & Hrun & Hg' & Ho' & Hm' & Hwr & Ht').
    exists (S (max n1 N)), m', ((true, cs) :: wr). split_and!; try done; try congruence.
    + intros [|n] fuel Hn Hf; [lia|]. cbn [write_turns]. rewrite Hq, (Hn1 fuel) by lia. simpl.
      apply Hrun; lia.
    + rewrite Ho'. exact Ho1.
    + rewrite Hm'. exact Hm1.
    + by constructor.
    + by rewrite Hdisp.
  - exists (S n1), m1, [(false, cs)]. split_and!; try done.
    + intros [|n] fuel Hn Hf; [lia|]. cbn [write_turns]. rewrite Hq, (Hn1 fuel) by lia. done.
    + by constructor.
Qed.

(** What [::recv] may return to this connection. *)
Definition recvs_ok (rs : list recv_result) (c : conn) : Prop :=
  Forall (Libc.recv_ok (Libc.entry_size (ss_stream (sess c)))) rs.

Lemma read_turn_ok rs m :
  good fd [] [] m -> gone (cn m) = false -> recvs_ok rs (cn m) ->
  exists N m' cs, (forall fuel, N <= fuel -> read_turn sys_send sys_file address fd fuel rs m = Some m') /\
    good fd [] [] m' /\ stream_op (cn m') = stream_op (cn m) /\ memory (cn m') = memory (cn m) /\
    Forall (touches fd) cs /\ table m' = LibcQueue.dispatch_read fd (false, cs) (table m).
Proof.
  intros Hg Hgone Hrs. pose proof Hg as (Hr & Hrun & Hreg).
  assert (Hop : LibcQueue.read_op (LibcQueue.entry fd (table m)) = Some (stream_op (cn m))).
  { destruct Hreg as [Hro _]. by rewrite Hgone in Hro. }
  set (m1 := with_table (LibcQueue.log (LibcQueue.Ready (stream_op (cn m)) false) (table m)) m).
  destruct (read_ready_ok rs m1 Hg Hgone Hrs) as (N & m' & HN & Hg' & Ho & Hm & cs & Hcs & Ht).
  exists N, m', cs. split_and!; try done.
  - intros fuel Hf. unfold read_turn. rewrite Hop, bool_decide_true by done. by apply HN.
  - rewrite Ht. unfold LibcQueue.dispatch_read, LibcQueue.entry in *.
    destruct (LibcQueue.fds (table m) !! fd) as [st|]; [|done]. simpl in Hop. by rewrite Hop.
Qed.

(** The turn of [step] for the descriptor of a connection at rest: it ends, the connection
    is at rest again, and to the table it is the turn of [LibcQueue]. *)
Lemma dispatch_rests revents rs m :
  good fd [] [] m -> gone (cn m) = false -> recvs_ok rs (cn m) ->
  exists N m' rr wr,
    (forall fuel, N <= fuel -> dispatch sys_send sys_file address fd fuel revents rs m = Some m') /\
    good fd [] [] m' /\ stream_op (cn m') = stream_op (cn m) /\ memory (cn m') = memory (cn m) /\
    local_reaction fd rr /\ Forall (local_reaction fd) wr /\
    table m' = LibcQueue.dispatch_fd fd revents rr wr (table m).
Proof.
  intros Hg Hgone Hrs. unfold dispatch, LibcQueue.dispatch_fd. case_bool_decide.
  { exists 0, m, (false, []), []. split_and!; try done. by apply Forall_nil. }
  assert (Hread : exists N m1 cs, (forall fuel, N <= fuel ->
      (if LibcQueue.has_event LibcQueue.POLLIN revents
       then read_turn sys_send sys_file address fd fuel rs m else Some m) = Some m1) /\
    good fd [] [] m1 /\ stream_op (cn m1) = stream_op (cn m) /\ memory (cn m1) = memory (cn m) /\
    Forall (touches fd) cs /\
    table m1 = (if LibcQueue.has_event LibcQueue.POLLIN revents
                then LibcQueue.dispatch_read fd (false, cs) (table m) else table m)).
  { destruct (LibcQueue.has_event LibcQueue.POLLIN revents); [by apply read_turn_ok|].
    exists 0, m, []. split_and!; try done; by constructor. }
  destruct Hread as (N1 & m1 & cs & HN1 & Hg1 & Ho1 & Hm1 & Hcs & Ht1).
  assert (Hwrite : exists N m2 wr, (forall fuel, N <= fuel ->
      (if LibcQueue.has_event LibcQueue.POLLOUT revents
       then write_turns sys_send sys_file address fd fuel fuel m1 else Some m1) = Some m2) /\
    good fd [] [] m2 /\ stream_op (cn m2) = stream_op (cn m1) /\ memory (cn m2) = memory (cn m1) /\
    Forall (local_reaction fd) wr /\
    table m2 = (if LibcQueue.has_event LibcQueue.POLLOUT revents
                then LibcQueue.dispatch_writes fd wr (table m1) else table m1)).
  { destruct (LibcQueue.has_event LibcQueue.POLLOUT revents);
      [|exists 0, m1, []; split_and!; try done; by constructor].
    destruct (write_turns_ok m1 Hg1) as (N & m2 & wr & HN & ?). exists N, m2, wr.
    split; [|done]. intros. by apply HN. }
  destruct Hwrite as (N2 & m2 & wr & HN2 & (Hr2 & Hrun2 & Hreg2) & Ho2 & Hm2 & Hwr & Ht2).
  exists (max N1 N2), (with_table (LibcQueue.drop_empty fd (table m2)) m2), (false, cs), wr.
  split_and!; try done; try congruence.
  - intros fuel Hf. rewrite HN1 by lia. simpl. rewrite HN2 by lia. done.
  - split; [done|]. split; [done|]. by apply drop_empty_entry.
  - simpl. congruence.
  - simpl. congruence.
  - simpl. by rewrite Ht2, Ht1.
Qed.
End turn.

(** ** The clock *)


(** What every turn keeps, [run] keeps. *)
Lemma run_keeps `{NativeEndian} sys_send sys_file address fd (P : machine -> Prop) fuel stack m m' :
  (forall co m, P m -> P (turn sys_send sys_file address fd co m).2) ->
  run sys_send sys_file address fd fuel stack m = Some m' -> P m -> P m'.
Proof.
  intros Hturn. revert stack m. induction fuel as [|fuel IH]; intros [|co stack] m; simpl; try (by intros [= <-]).
  intros Hrun Hm. pose proof (Hturn co m Hm) as Hm1.
  destruct (turn sys_send sys_file address fd co m) as [cs m1]. by eapply IH.
Qed.

Section clock.
Context `{NativeEndian}.
Context (sys_send : nat -> list bytes -> sysret).
Context (sys_file : nat -> io_call -> io_result).
Context (address : nat -> nat).
Context (fd : Z).

Lemma act_clock e m : clock (act e m) = clock m.
Proof. by destruct m as [[]]. Qed.

Lemma turn_clock co m : clock m <= clock (turn sys_send sys_file address fd co m).2.
Proof.
  unfold turn. repeat case_match; simpl; rewrite ?act_clock; simpl; auto with lia; destruct m as [[]]; simpl; lia.
Qed.

Lemma run_clock fuel stack m m' :
  run sys_send sys_file address fd fuel stack m = Some m' -> clock m <= clock m'.
Proof.
  intros Hrun. apply (run_keeps _ _ _ _ (fun m1 => clock m <= clock m1) _ _ _ _ (fun co m1 H1 => Nat.le_trans _ _ _ H1 (turn_clock co m1)) Hrun). done.
Qed.

Lemma write_turns_clock n fuel m m' :
  write_turns sys_send sys_file address fd n fuel m = Some m' -> clock m <= clock m'.
Proof.
  revert m. induction n as [|n IH]; intros m; cbn [write_turns];
    destruct (LibcQueue.write_queue _) as [|op wq]; try (intros; by simplify_eq).
  destruct (write_ready _ _ _ _ _ _ m) as [[b m1]|] eqn:Hr; simpl; [|done]. intros Hrun.
  assert (Hle : clock m <= clock m1).
  { unfold write_ready in Hr. destruct (list_find _ _) as [[i [op' id]]|]; [|done].
    destruct (handlers (pool_of m) !! id) as [[j []]|]; try done.
    destruct (LibcQueue.try_op _) as [res|]; [|simplify_eq; simpl; lia].
    destruct (run _ _ _ _ _ _ _) as [m2|] eqn:Hrun2; simplify_eq/=. apply run_clock in Hrun2.
    rewrite act_clock in Hrun2. destruct m as [[]]. simpl in *. lia. }
  destruct b; [|by simplify_eq]. specialize (IH _ Hrun). simpl in IH. lia.
Qed.

Lemma dispatch_clock fuel revents rs m m' :
  dispatch sys_send sys_file address fd fuel revents rs m = Some m' -> clock m <= clock m'.
Proof.
  unfold dispatch. case_bool_decide; [by intros [= <-]|]. intros Hrun.
  destruct (if LibcQueue.has_event LibcQueue.POLLIN revents then _ else _) as [m1|] eqn:H1; simpl in Hrun; [|done].
  destruct (if LibcQueue.has_event LibcQueue.POLLOUT revents then _ else _) as [m2|] eqn:H2; simplify_eq/=.
  assert (Hle : clock m <= clock m1).
  { destruct (LibcQueue.has_event LibcQueue.POLLIN revents); [|by simplify_eq].
    unfold read_turn, read_ready in H1. destruct (LibcQueue.read_op _); [|by simplify_eq].
    case_bool_decide; [|done]. destruct (Libc.on_ready rs _).2; [apply run_clock in H1|simplify_eq];
      rewrite act_clock in *; done. }
  destruct (LibcQueue.has_event LibcQueue.POLLOUT revents); [|by simplify_eq].
  apply write_turns_clock in H2. lia.
Qed.
End clock.

(** ** A socket that takes everything *)

Section flows.
Context `{NativeEndian}.
Context (sys_send : nat -> list bytes -> sysret).
Context (sys_file : nat -> io_call -> io_result).
Context (address : nat -> nat).
Context (fd : Z).

(** From [since] on, no send would block. *)
Context (since : nat).
Hypothesis Hflows : forall k iov, since <= k -> sys_send k iov <> Errno EAGAIN.

(** Then no send is put into the table any more. *)
Definition flowing (aw : list (nat * nat)) (m : machine) : Prop :=
  since <= clock m /\ awaiting (cn m) = aw.

Lemma flows_try k iov : since <= k -> is_Some (LibcQueue.try_op (sys_send k iov)).
Proof.
  intros Hk. pose proof (Hflows k iov Hk). destruct (sys_send k iov) as [v|e]; simpl; [by eexists|].
  rewrite bool_decide_false by congruence. by eexists.
Qed.

Lemma act_flowing aw e m : flowing aw m -> flowing aw (act e m).
Proof. by destruct m as [[]]. Qed.

Lemma tick_flowing aw m : flowing aw m -> flowing aw (tick m).
Proof. intros [Hk Ha]. split; [simpl; lia|done]. Qed.

Lemma turn_flowing aw co m : flowing aw m -> flowing aw (turn sys_send sys_file address fd co m).2.
Proof.
  intros Hm. unfold turn. destruct co as [|id].
  - destruct (pc_of m); simpl; auto using act_flowing. by destruct m as [[]].
  - destruct (handlers (pool_of m) !! id) as [[j [|resp|f| | |]]|]; simpl; auto using act_flowing.
    + destruct (file_io j); simpl; auto using act_flowing, tick_flowing.
    + destruct (flows_try (clock m) (offer f) (proj1 Hm)) as [res ->]. simpl.
      by apply act_flowing, tick_flowing.
Qed.

Lemma run_flowing aw fuel stack m m' :
  run sys_send sys_file address fd fuel stack m = Some m' -> flowing aw m -> flowing aw m'.
Proof. apply run_keeps. intros co m0. apply turn_flowing. Qed.

Lemma read_turn_flowing aw fuel rs m m' :
  read_turn sys_send sys_file address fd fuel rs m = Some m' -> flowing aw m -> flowing aw m'.
Proof.
  unfold read_turn, read_ready. intros Hrun Hm.
  destruct (LibcQueue.read_op _) as [op|]; [|by simplify_eq].
  case_bool_decide; [|done]. set (m1 := with_table _ m) in Hrun.
  assert (Hm1 : flowing aw m1) by exact Hm.
  destruct (Libc.on_ready rs _).2 as [h|]; [|simplify_eq; by apply act_flowing].
  apply (run_flowing aw _ _ _ _ Hrun). by apply act_flowing.
Qed.

(** A ready sender goes on, and nobody is left waiting. *)
Lemma write_ready_flowing op id j f fuel b m m' :
  awaiting (cn m) = [(op, id)] -> handlers (pool_of m) !! id = Some (MkHandler j (AtSend f)) ->
  since <= clock m -> write_ready sys_send sys_file address fd fuel op m = Some (b, m') ->
  b = true /\ flowing [] m'.
Proof.
  intros Ha Hid Hk. unfold write_ready. rewrite Ha. cbn [list_find]. rewrite decide_True, Hid by done.
  destruct (flows_try (clock m) (offer f) Hk) as [res ->].
  destruct (run _ _ _ _ _ _ _) as [m1|] eqn:Hrun; simpl; [|done]. intros [= <- <-]. split; [done|].
  apply (run_flowing [] _ _ _ _ Hrun), act_flowing. destruct m as [[s op' aw g mem bs] q k]. simpl in *.
  rewrite Ha. split; [simpl; lia|done].
Qed.

Hypothesis Hsends : sends_ok sys_send.
Hypothesis Hfiles : files_ok sys_file.

Lemma write_turns_flowing aw N m m' :
  good fd [] [] m -> flowing aw m ->
  (forall n fuel, N <= n -> N <= fuel -> write_turns sys_send sys_file address fd n fuel m = Some m') ->
  flowing [] m'.
Proof.
  intros Hg [Hk Haw] Hrun. pose proof Hg as (_ & _ & [_ Hwq]).
  destruct (awaiting (cn m)) as [|[op id] l] eqn:Ha; simpl in Hwq.
  { specialize (Hrun N N (le_n N) (le_n N)). destruct N; cbn [write_turns] in Hrun; rewrite Hwq in Hrun;
      simplify_eq; by split. }
  destruct (queued_sender fd m op _ Hg Hwq) as [Hl (id' & j & f & Ha' & Hid)].
  rewrite Ha in Ha'. simplify_eq.
  destruct (write_ready_ok _ _ address fd Hsends Hfiles op _ m Hg Hwq) as (N1 & b & m1 & Hready & _ & _ & _ & Hb).
  set (n := max N N1). destruct (write_ready_flowing op id' j f n b m m1 Ha Hid Hk (Hready n ltac:(lia))) as [-> Hf1].
  destruct Hb as [Hg1 _]. pose proof (pop_good fd op m1 Hg1) as (_ & _ & [_ Hwq1]).
  rewrite (proj2 Hf1 : awaiting (cn (with_table _ m1)) = []) in Hwq1.
  specialize (Hrun (S n) n ltac:(lia) ltac:(lia)). cbn [write_turns] in Hrun.
  rewrite Hwq, (Hready n) in Hrun by lia. simpl in Hrun.
  destruct n; cbn [write_turns] in Hrun; rewrite Hwq1 in Hrun; simpl in Hrun; simplify_eq; exact Hf1.
Qed.

(** The turn of [step] leaves no response waiting: if one waited, the socket has to be
    reported writable. *)
Lemma dispatch_flowing N revents rs m m' :
  good fd [] [] m -> gone (cn m) = false -> recvs_ok rs (cn m) -> since <= clock m ->
  (awaiting (cn m) = [] \/ LibcQueue.has_event LibcQueue.POLLOUT revents = true) ->
  (forall fuel, N <= fuel -> dispatch sys_send sys_file address fd fuel revents rs m = Some m') ->
  flowing [] m'.
Proof.
  intros Hg Hgone Hrs Hk Hout. unfold dispatch. case_bool_decide as Hz.
  { intros Hrun. specialize (Hrun N (le_n N)). simplify_eq. split; [done|].
    destruct Hout as [?|Hout]; [done|]. by vm_compute in Hout. }
  intros Hrun.
  assert (Hread : exists N1 m1, (forall fuel, N1 <= fuel ->
      (if LibcQueue.has_event LibcQueue.POLLIN revents
       then read_turn sys_send sys_file address fd fuel rs m else Some m) = Some m1) /\
    good fd [] [] m1 /\ flowing (awaiting (cn m)) m1).
  { destruct (LibcQueue.has_event LibcQueue.POLLIN revents); [|by exists 0, m].
    destruct (read_turn_ok _ _ address fd Hsends Hfiles rs m Hg Hgone Hrs) as (N1 & m1 & cs & Hr1 & Hg1 & _).
    exists N1, m1. split_and!; try done; apply (read_turn_flowing _ _ _ _ _ (Hr1 N1 (le_n N1))); by split. }
  destruct Hread as (N1 & m1 & Hr1 & Hg1 & Hf1).
  destruct (LibcQueue.has_event LibcQueue.POLLOUT revents) eqn:Hev.
  - destruct (write_turns_ok _ _ address fd Hsends Hfiles m1 Hg1) as (N2 & m2 & wr & Hr2 & _).
    pose proof (write_turns_flowing _ N2 m1 m2 Hg1 Hf1 Hr2) as Hf2.
    specialize (Hrun (max N (max N1 N2)) ltac:(lia)). rewrite Hr1 in Hrun by lia. simpl in Hrun.
    rewrite Hr2 in Hrun by lia. simpl in Hrun. simplify_eq. exact Hf2.
  - destruct Hout as [Ha|]; [|done]. rewrite Ha in Hf1.
    specialize (Hrun (max N N1) ltac:(lia)). rewrite Hr1 in Hrun by lia. simpl in Hrun. simplify_eq. exact Hf1.
Qed.
End flows.
