(* ===== verification/LibcWorker.v ===== *)
(** * A worker thread of the server on the poll-driven queue

    [worker_main] on the libc backend: [accept_loop] on the listening socket and the
    connections of [LibcConnection] it spawns, all in one table, driven by [step]. Each
    runs in turn on the thread's stack; [accept4] gives a descriptor that is not open, with
    what the kernel and the allocator will give its connection. *)

From S2P Require Import Prelude Protocol Sync RecvStream FramedReader LibcRecvStream Queue Handlers Session LibcEntry LibcConnection LibcTurns.
From S2P Require LibcQueue ServerMain.

Open Scope nat_scope.

(** What a new connection meets before its first suspension: [fcntl], [setsockopt], the
    memory of its ring, what its socket holds already; the address of its stream, and what
    the allocator gives its handlers. *)
Record setup := Setup {
  su_getfl : sysret;
  su_setfl : Z -> sysret;
  su_nodelay : sysret;
  su_mem : option bytes;
  su_recvs : list recv_result;
  su_stream : nat;
  su_memory : nat -> nat -> option bytes;
}.

(** [accept4]. *)
Inductive accept_answer := Refused (e : Z) | Connected (fd : Z) (su : setup).

Definition accept_ret (a : accept_answer) : sysret :=
  match a with Refused e => Errno e | Connected fd _ => Ret fd end.

(** The kernel and the allocator: [accept4] by the calls made so far and the descriptors
    open, the address of its awaiter; the rest by the clock of [LibcConnection]. *)
Record kernel := Kernel {
  k_send : Z -> nat -> list bytes -> sysret;
  k_file : nat -> io_call -> io_result;
  k_close : Z -> nat -> sysret;
  k_address : nat -> nat;
  k_accept : nat -> list Z -> accept_answer;
  k_acceptor : nat -> nat;
}.

(** A worker: its queue, its connections, and the awaiter of its [accept_loop] until that
    returns; [closed] logs the descriptors it closed. *)
Record worker := Worker {
  queue : LibcQueue.t;
  time : nat;
  accepts : nat;
  conns : gmap Z conn;
  accepting : option nat;
  closed : list Z;
}.

(** What [poll] returns, with what each ready connection will read. *)
Inductive polled :=
  | PollError (e : Z)
  | PollTimeout
  | PollReady (pfds : list (Z * Z * list recv_result)).

Section worker.
Context `{NativeEndian} (K : kernel) (es n : nat) (listen_fd : Z).

(** [g_shutdown_requested], as the [accept_loop] reads it after its accepts. *)
Context (shutdown : nat -> bool).

Definition open_fds (w : worker) : list Z := listen_fd :: (map_to_list (conns w)).*1.

Definition set_queue (q : LibcQueue.t) (w : worker) : worker :=
  let '(Worker _ t a cs op cl) := w in Worker q t a cs op cl.

(** [handle_connection] to its loop; [es] and [n] are [kRecvEntrySize] and
    [kRecvEntries]. *)
Definition open_session (su : setup) : outcome (session Libc.t) :=
  let! _ := set_nonblocking (su_getfl su) (su_setfl su) in
  let! _ := set_tcp_nodelay (su_nodelay su) in
  let! st := Libc.make es n (su_mem su) (su_recvs su) in
  Ok (session_init st).

(** The end of [accept_one]: the descriptor is closed. *)
Definition close_conn (fd : Z) (handled : outcome unit) (w : worker) : worker :=
  let '(Worker q t a cs op cl) := w in
  let close := let! _ := LibcQueue.file_op (k_close K fd t) in Ok tt in
  Worker q t a (delete fd cs) op (cl ++ (ServerMain.accept_one fd handled close).2).

(** The connection of [fd] ran: it is suspended again, or [handle_connection] returned. *)
Definition settle (fd : Z) (m : machine) (w : worker) : worker :=
  let '(Worker _ _ a cs op cl) := w in
  let w := Worker (table m) (clock m) a (<[fd := cn m]> cs) op cl in
  if gone (cn m) then close_conn fd (Ok tt) w else w.

(** [easyio::spawn(accept_one(...))]. *)
Definition spawn_conn (fuel : nat) (fd : Z) (su : setup) (w : worker) : option worker :=
  match open_session su with
  | Throw e => Some (close_conn fd (Throw e) w)
  | Ok s =>
      let c := Conn s (su_stream su) [] false (su_memory su) (Libc.queue (ss_stream s)) in
      let q := LibcQueue.set_read_op fd (su_stream su) (queue w) in
      m ← run (k_send K fd) (k_file K) (k_address K) fd fuel [Reader] (Machine c q (time w));
      Some (settle fd m w)
  end.

(** [::accept4]. *)
Definition next_accept (w : worker) : accept_answer := k_accept K (accepts w) (open_fds w).
Definition count_accept (w : worker) : worker :=
  let '(Worker q t a cs op cl) := w in Worker q t (S a) cs op cl.

(** [AcceptAwaiter::await_suspend]. *)
Definition await_accept (w : worker) : worker :=
  let '(Worker q t a cs _ cl) := w in
  let op := k_acceptor K a in
  Worker (LibcQueue.set_read_op listen_fd op q) t a cs (Some op) cl.

(** One turn of [accept_loop], once [accept4] did not ask to wait; does it go on? *)
Definition accepted (fuel : nat) (a : accept_answer) (res : Z) (w : worker) : option (bool * worker) :=
  match LibcQueue.op_end res with
  | Ok fd =>
      match a with
      | Connected _ su => w' ← spawn_conn fuel fd su w; Some (true, w')
      | Refused _ => None
      end
  | Throw _ =>
      if shutdown (accepts w)
      then let '(Worker q t a cs _ cl) := w in Some (false, Worker q t a cs None cl)
      else Some (true, w)
  end.

(** [accept_loop], until it suspends or returns. *)
Fixpoint accept_loop (turns fuel : nat) (w : worker) : option worker :=
  match turns with
  | O => None
  | S turns =>
      let a := next_accept w in
      let w := count_accept w in
      match LibcQueue.try_op (accept_ret a) with
      | None => Some (await_accept w)
      | Some res =>
          r ← accepted fuel a res w;
          if r.1 : bool then accept_loop turns fuel r.2 else Some r.2
      end
  end.

(** [AcceptAwaiter::on_ready], with what it resumes. *)
Definition accept_ready (fuel op : nat) (w : worker) : option (bool * worker) :=
  let a := next_accept w in
  let w := count_accept w in
  match LibcQueue.try_op (accept_ret a) with
  | None => Some (false, set_queue (LibcQueue.log (LibcQueue.Ready op false) (queue w)) w)
  | Some res =>
      r ← accepted fuel a res (set_queue (LibcQueue.log (LibcQueue.Ready op true) (queue w)) w);
      w ← (if r.1 : bool then accept_loop fuel fuel r.2 else Some r.2);
      Some (true, w)
  end.

(** The two blocks of [step], for the listening socket. *)
Definition listen_read (fuel : nat) (w : worker) : option worker :=
  let st := LibcQueue.entry listen_fd (queue w) in
  match LibcQueue.read_op st with
  | None => Some w
  | Some op =>
      if bool_decide (accepting w = Some op) then
        r ← accept_ready fuel op w;
        Some (if r.1 : bool
              then set_queue (LibcQueue.finish_read listen_fd (LibcQueue.read_op_gen st) (queue r.2)) r.2
              else r.2)
      else None
  end.

Definition dispatch_listen (fuel : nat) (revents : Z) (w : worker) : option worker :=
  if bool_decide (revents = 0%Z) then Some w
  else
    w ← (if LibcQueue.has_event LibcQueue.POLLIN revents then listen_read fuel w else Some w);
    if LibcQueue.has_event LibcQueue.POLLOUT revents &&
       bool_decide (LibcQueue.write_queue (LibcQueue.entry listen_fd (queue w)) <> [])
    then None
    else Some (set_queue (LibcQueue.drop_empty listen_fd (queue w)) w).

(** The turn of [step] for the connection of [fd]. *)
Definition dispatch_conn (fuel : nat) (fd revents : Z) (rs : list recv_result) (w : worker) : option worker :=
  match conns w !! fd with
  | Some c =>
      m ← dispatch (k_send K fd) (k_file K) (k_address K) fd fuel revents rs (Machine c (queue w) (time w));
      Some (settle fd m w)
  | None => if bool_decide (LibcQueue.fds (queue w) !! fd = None) then Some w else None
  end.

(** The loop over [pfds]. *)
Fixpoint dispatch_all (fuel : nat) (pfds : list (Z * Z * list recv_result)) (w : worker) : option worker :=
  match pfds with
  | [] => Some w
  | (fd, revents, rs) :: pfds =>
      w ← (if bool_decide (fd = listen_fd) then dispatch_listen fuel revents w
           else dispatch_conn fuel fd revents rs w);
      dispatch_all fuel pfds w
  end.

(** [step]. *)
Definition step (fuel : nat) (p : polled) (w : worker) : option (outcome worker) :=
  match p with
  | PollError e => Some (if bool_decide (e = EINTR) then Ok w else Throw (system_error e))
  | PollTimeout => Some (Ok w)
  | PollReady pfds => w ← dispatch_all fuel pfds w; Some (Ok w)
  end.

(** [worker_main] to its loop: the queue is empty, and [accept_loop] is spawned. *)
Definition start (fuel : nat) : option worker :=
  accept_loop fuel fuel (Worker LibcQueue.init 0 0 ∅ None []).
End worker.

(** ** The environment *)

(** What the kernel and the allocator promise a new connection: memory of the size asked
    for, and what [::recv] may return. *)
Record setup_ok (es n : nat) (su : setup) : Prop := {
  so_mem mem : su_mem su = Some mem -> length mem = n * es;
  so_recvs : Forall (Libc.recv_ok es) (su_recvs su);
  so_memory id size mem : su_memory su id size = Some mem -> length mem = size;
}.

(** Descriptors accepted are not open, errors are positive, and the backlog is finite: the
    accepts that do not ask to wait come to an end. *)
Record kernel_ok (K : kernel) (es n : nat) : Prop := {
  ko_sends fd : sends_ok (k_send K fd);
  ko_files : files_ok (k_file K);
  ko_accept k open fd su : k_accept K k open = Connected fd su ->
    (0 <= fd)%Z /\ (fd ∉ open) /\ setup_ok es n su;
  ko_refused k open e : k_accept K k open = Refused e -> (0 < e)%Z;
  ko_backlog k : exists k', k <= k' /\ forall open, k_accept K k' open = Refused EAGAIN;
}.

(** [poll] answers for the descriptors it was given, and the sockets read as sockets do. *)
Definition polled_ok (p : polled) (w : worker) : Prop :=
  match p with
  | PollReady pfds =>
      (pfds.*1).*1 = (LibcQueue.poll_set (queue w)).*1 /\
      forall fd revents rs c, (fd, revents, rs) ∈ pfds -> conns w !! fd = Some c -> recvs_ok rs c
  | _ => True
  end.

Section laws.
Context `{NativeEndian} (K : kernel) (es n : nat) (listen_fd : Z) (shutdown : nat -> bool).
Hypothesis HK : kernel_ok K es n.

Abbreviation spawn_conn := (spawn_conn K es n).
Abbreviation accept_loop := (accept_loop K es n listen_fd shutdown).
Abbreviation step := (step K es n listen_fd shutdown).

(** ** What holds between the turns of the thread *)

(** The connections are at rest, and the table holds what they wait for. *)
Record conns_ok (w : worker) : Prop := {
  co_conn fd c : conns w !! fd = Some c ->
    fd <> listen_fd /\ gone c = false /\ good fd [] [] (Machine c (queue w) (time w));
  co_table : LibcQueue.table_ok (queue w);
  co_known fd : is_Some (LibcQueue.fds (queue w) !! fd) -> fd = listen_fd \/ is_Some (conns w !! fd);
}.

(** The worker did what [ServerMain]'s does on some events; [b]: is it still accepting? *)
Definition traced (b : bool) (w : worker) : Prop :=
  exists evs,
    Forall (fun ev => ev.1 = true -> exists k, shutdown k = true) evs /\
    let a := ServerMain.worker_run evs (ServerMain.Worker true [] [] false) in
    ServerMain.accepting a = b /\ ServerMain.conns a ≡ₚ (map_to_list (conns w)).*1 /\
    ServerMain.closed a = closed w /\ ServerMain.terminated a = false.

(** The [accept_loop] waits in the table until it returns. *)
Definition listening (w : worker) : Prop :=
  entry_is listen_fd (accepting w) [] (queue w) /\
  (0 <= LibcQueue.read_op_gen (LibcQueue.entry listen_fd (queue w)) < 2 ^ 64)%Z.

Definition worker_ok (w : worker) : Prop :=
  conns_ok w /\ traced (bool_decide (is_Some (accepting w))) w /\ listening w.

(** Calls that cancel nothing, seen from the table. *)
Definition calls_to (q q' : LibcQueue.t) : Prop :=
  exists cs, Forall LibcQueue.flat cs /\ q' = LibcQueue.run_calls cs q.

#[export] Instance calls_to_preorder : PreOrder calls_to.
Proof.
  split.
  - intros q. by exists [].
  - intros q1 q2 q3 (cs & Hcs & ->) (cs' & Hcs' & ->). exists (cs ++ cs').
    rewrite run_calls_app. split; [by apply Forall_app|done].
Qed.

Lemma touches_flat fd cs : Forall (touches fd) cs -> Forall LibcQueue.flat cs.
Proof. intros Hcs. eapply list.Forall_impl; [exact Hcs|]. by intros []. Qed.

(** *** One connection ran *)

Lemma good_table fd c q q' k k' :
  good fd [] [] (Machine c q k) -> LibcQueue.fds q' !! fd = LibcQueue.fds q !! fd ->
  good fd [] [] (Machine c q' k').
Proof.
  intros (Hr & Hrun & Hreg) Hq. split; [done|]. split; [done|].
  unfold registered, entry_is, LibcQueue.entry in *. simpl in *. by rewrite Hq.
Qed.

(** A connection that is gone left nothing in the table. *)
Lemma gone_unknown fd m :
  good fd [] [] m -> gone (cn m) = true -> LibcQueue.table_ok (table m) ->
  LibcQueue.fds (table m) !! fd = None.
Proof.
  intros (Hr & Hrun & Hreg) Hg Ht. unfold registered in Hreg. rewrite Hg in Hreg.
  assert (Ha : awaiting (cn m) = []).
  { destruct (rn_waits Hrun) as [?|(op & id & j & f & _ & _ & Hid)]; [done|].
    by rewrite (ended_empty _ Hr (rn_gone Hrun Hg)) in Hid. }
  rewrite Ha in Hreg. destruct Hreg as [Hro Hwq]. unfold LibcQueue.entry in *.
  destruct (LibcQueue.fds (table m) !! fd) as [st|] eqn:Hst; [|done].
  pose proof (Ht fd st Hst) as He. unfold LibcQueue.fd_empty in He. simpl in Hro, Hwq.
  by rewrite Hro, Hwq in He.
Qed.

Lemma settle_ok fd m w :
  conns_ok w -> fd <> listen_fd -> good fd [] [] m -> LibcQueue.table_ok (table m) ->
  (forall fd', fd' <> fd -> LibcQueue.fds (table m) !! fd' = LibcQueue.fds (queue w) !! fd') ->
  let w' := settle K fd m w in
  conns_ok w' /\ queue w' = table m /\
  conns w' = (if gone (cn m) then delete fd (conns w) else <[fd := cn m]> (conns w)).
Proof.
  intros [Hc _ Hk] Hne Hg Ht Helse. pose proof (gone_unknown fd m Hg) as Hgone.
  destruct w as [q k a cs op cl]. simpl in *.
  assert (Hothers : forall fd' c, fd' <> fd -> cs !! fd' = Some c ->
    fd' <> listen_fd /\ gone c = false /\ good fd' [] [] (Machine c (table m) (clock m))).
  { intros fd' c Hfd' Hcs. destruct (Hc fd' c Hcs) as (? & ? & Hgood). split_and!; try done.
    apply (good_table _ _ q _ k); auto. }
  assert (Hknown : forall fd', fd' <> fd -> is_Some (LibcQueue.fds (table m) !! fd') ->
    fd' = listen_fd \/ is_Some (cs !! fd')) by (intros fd' Hfd'; rewrite Helse by done; apply Hk).
  destruct (gone (cn m)) eqn:Hgm; simpl.
  - rewrite delete_insert_eq. split_and!; try done. split; simpl; [|done|].
    + intros fd' c [Hfd' Hcs]%lookup_delete_Some. by apply Hothers.
    + intros fd' Hin. destruct (decide (fd' = fd)) as [->|Hfd'].
      * rewrite Hgone in Hin by done. by destruct Hin.
      * destruct (Hknown fd' Hfd' Hin); [by left|right]. by rewrite lookup_delete_ne.
  - split_and!; try done. split; simpl; [|done|].
    + intros fd' c [[<- <-]|[Hfd' Hcs]]%lookup_insert_Some; [|by apply Hothers].
      by split_and!.
    + intros fd' Hin. destruct (decide (fd' = fd)) as [->|Hfd'].
      * right. by rewrite lookup_insert_eq.
      * destruct (Hknown fd' Hfd' Hin); [by left|right]. by rewrite lookup_insert_ne.
Qed.

(** *** The trace *)

Lemma traced_same b w w' :
  traced b w -> (map_to_list (conns w')).*1 ≡ₚ (map_to_list (conns w)).*1 -> closed w' = closed w ->
  traced b w'.
Proof. intros (evs & ? & ? & ? & ? & ?) Hc Hcl. exists evs. cbn zeta. rewrite Hcl. split_and!; try done. by etrans. Qed.

Lemma traced_step ev b b' w w' :
  (ev.1 = true -> exists k, shutdown k = true) -> traced b w ->
  (forall a, ServerMain.accepting a = b -> ServerMain.conns a ≡ₚ (map_to_list (conns w)).*1 ->
     ServerMain.closed a = closed w -> ServerMain.terminated a = false ->
     let a' := ServerMain.worker_step ev.1 ev.2 a in
     ServerMain.accepting a' = b' /\ ServerMain.conns a' ≡ₚ (map_to_list (conns w')).*1 /\
     ServerMain.closed a' = closed w' /\ ServerMain.terminated a' = false) ->
  traced b' w'.
Proof.
  intros Hev (evs & Hevs & Ha & Hc & Hcl & Ht) Hstep. exists (evs ++ [ev]).
  split; [apply Forall_app; split; [done|by constructor]|]. rewrite ServerMain.worker_run_app.
  destruct ev as [sh ev]. by apply Hstep.
Qed.

(** A connection is accepted. *)
Lemma traced_accept fd c w w' :
  traced true w -> conns w !! fd = None -> conns w' = <[fd := c]> (conns w) -> closed w' = closed w ->
  traced true w'.
Proof.
  intros Ht Hfd Hc Hcl. apply (traced_step (false, ServerMain.Accepted (Ok fd)) true true w w'); [done|done|].
  intros a Ha Hca Hcla Hta. simpl. rewrite Ha. simpl. rewrite Hcl. split_and!; try done.
  rewrite Hca, Hc, map_to_list_insert by done. simpl. by rewrite Permutation_app_comm.
Qed.

(** A connection ends. *)
Lemma traced_end fd b w w' :
  traced b w -> is_Some (conns w !! fd) -> conns w' = delete fd (conns w) -> closed w' = closed w ++ [fd] ->
  traced b w'.
Proof.
  intros Ht [c Hfd] Hc Hcl.
  apply (traced_step (false, ServerMain.Ended fd (Ok tt) (Ok tt)) b b w w'); [done|done|].
  intros a Ha Hca Hcla Hta. cbn [fst snd].
  destruct (ServerMain.worker_step_ended false fd (Ok tt) (Ok tt) a (map_to_list (delete fd (conns w))).*1)
    as (H1 & H2 & H3 & H4).
  { rewrite Hca. by rewrite <- (map_to_list_delete (conns w) fd c Hfd). }
  cbn zeta. rewrite H1, H3, H4, Hc, Hcl, Hcla. by split_and!.
Qed.

(** An accept fails. *)
Lemma traced_refused (e : exn) w w' k :
  traced true w -> conns w' = conns w -> closed w' = closed w ->
  traced (negb (shutdown k)) w'.
Proof.
  intros Ht Hc Hcl.
  apply (traced_step (shutdown k, ServerMain.Accepted (Throw e)) true (negb (shutdown k)) w w');
    [intros; by exists k|done|].
  intros a Ha Hca Hcla Hta. simpl. rewrite Ha. simpl. rewrite Hc, Hcl. by split_and!.
Qed.

Lemma close_conn_fields fd h w :
  queue (close_conn K fd h w) = queue w /\ accepts (close_conn K fd h w) = accepts w /\
  accepting (close_conn K fd h w) = accepting w /\ conns (close_conn K fd h w) = delete fd (conns w) /\
  closed (close_conn K fd h w) = closed w ++ [fd].
Proof. destruct w. simpl. by rewrite ServerMain.accept_one_closes. Qed.

Lemma settle_fields fd m w :
  accepts (settle K fd m w) = accepts w /\ accepting (settle K fd m w) = accepting w.
Proof. destruct w. simpl. by destruct (gone (cn m)). Qed.

(** The connection that ran was [w]'s, or is a new one. *)
Lemma settle_traced fd m b w :
  traced b w -> is_Some (conns w !! fd) \/ b = true -> traced b (settle K fd m w).
Proof.
  intros Ht Hfd. destruct w as [q k a cs op cl].
  assert (Hrun : traced b (Worker (table m) (clock m) a (<[fd := cn m]> cs) op cl)).
  { destruct (cs !! fd) as [c|] eqn:Hc.
    - apply (traced_same b (Worker q k a cs op cl)); [done| |done]. simpl.
      rewrite <- (insert_delete_eq cs), map_to_list_insert by apply lookup_delete_eq.
      by rewrite <- (map_to_list_delete cs fd c Hc).
    - destruct Hfd as [[? ?]| ->]; [simpl in *; congruence|].
      by apply (traced_accept fd (cn m) (Worker q k a cs op cl)). }
  simpl. destruct (gone (cn m)); [|done].
  apply (traced_end fd b _ _ Hrun); simpl; [|done|done].
  by rewrite lookup_insert_eq.
Qed.

(** *** A connection is spawned *)

Lemma open_session_ok su s :
  setup_ok es n su -> open_session es n su = Ok s ->
  exists st, Libc.inv st /\ Libc.waiter st = None /\ s = session_init st.
Proof.
  intros Hsu. unfold open_session. destruct (set_nonblocking _ _); [|done].
  destruct (set_tcp_nodelay _); [|done]. simpl.
  destruct (su_mem su) as [mem|] eqn:Hmem; [|done].
  destruct (Libc.make es n (Some mem) (su_recvs su)) as [st|] eqn:Hst; [|done]. intros [= <-].
  exists st. destruct (Libc.make_law es n mem (su_recvs su) st) as [? ?]; try done; apply Hsu. done.
Qed.

Lemma new_conn_good fd su st q k :
  setup_ok es n su -> Libc.inv st -> Libc.waiter st = None -> entry_is fd (Some (su_stream su)) [] q ->
  good fd [] [Reader]
    (Machine (Conn (session_init st) (su_stream su) [] false (su_memory su) (Libc.queue st)) q k).
Proof.
  intros Hsu Hst Hw Hq. split; [|split; [|exact Hq]].
  - split; [intros id size mem; apply Hsu|]. exists st, []. simpl. rewrite app_nil_r. split_and!; try done.
    constructor.
  - split; simpl; try done.
    + apply NoDup_singleton.
    + by intros co ?%not_elem_of_nil.
    + by intros co ->%list_elem_of_singleton.
    + intros [|i] Hin; [|done]. exfalso. apply Hin. left.
    + by left.
Qed.

(** What running a connection does to the rest of the worker. *)
Definition spared (w w' : worker) : Prop :=
  accepts w' = accepts w /\ conns w ⊆ conns w' /\
  LibcQueue.fds (queue w') !! listen_fd = LibcQueue.fds (queue w) !! listen_fd /\
  calls_to (queue w) (queue w').

Lemma spawn_conn_ok fd su w :
  conns_ok w -> traced true w -> fd ∉ open_fds listen_fd w -> setup_ok es n su ->
  exists N w', (forall fuel, N <= fuel -> spawn_conn fuel fd su w = Some w') /\
    conns_ok w' /\ traced true w' /\ accepting w' = accepting w /\ spared w w'.
Proof.
  intros Hw Ht [Hne Hfresh]%not_elem_of_cons Hsu. unfold LibcWorker.spawn_conn.
  assert (Hfd : conns w !! fd = None).
  { apply eq_None_not_Some. intros [c Hc]. apply Hfresh. apply list_elem_of_fmap. exists (fd, c).
    split; [done|]. by apply elem_of_map_to_list. }
  destruct (open_session es n su) as [s|e] eqn:Hopen.
  - destruct (open_session_ok su s Hsu Hopen) as (st & Hst & Hwt & ->).
    set (q := LibcQueue.set_read_op fd (su_stream su) (queue w)).
    assert (Hentry : entry_is fd (Some (su_stream su)) [] q).
    { apply (set_read_entry fd _ None). unfold entry_is, LibcQueue.entry.
      destruct (LibcQueue.fds (queue w) !! fd) eqn:Hq; [|done].
      destruct (co_known w Hw fd) as [?|[? ?]]; [by rewrite Hq|done|congruence]. }
    destruct (run_ok _ _ (k_address K) fd (ko_sends K es n HK fd) (ko_files K es n HK) [] [Reader] _
      (new_conn_good fd su st q (time w) Hsu Hst Hwt Hentry)) as (N & m & Hrun & Hgood & Hf & _).
    destruct Hf as (_ & _ & cs & Hcs & Htab). simpl in Htab.
    assert (Helse : forall fd', fd' <> fd -> LibcQueue.fds (table m) !! fd' = LibcQueue.fds (queue w) !! fd').
    { intros fd' Hfd'. rewrite Htab, (run_calls_elsewhere fd) by done. by apply store_elsewhere. }
    destruct (settle_ok fd m w Hw Hne Hgood) as (Hok & Hq & Hc); [|done|].
    { rewrite Htab. apply LibcQueue.run_calls_ok, LibcQueue.set_read_op_ok, Hw. }
    destruct (settle_fields fd m w) as [Ha Hop].
    exists N, (settle K fd m w). unfold spared. split_and!; try done.
    + intros fuel Hfuel. fold q. cbn [ss_stream session_init]. by rewrite (Hrun fuel Hfuel).
    + apply settle_traced; auto.
    + rewrite Hc. destruct (gone (cn m)); [by rewrite delete_id|]. by apply insert_subseteq.
    + rewrite Hq. by apply Helse.
    + exists (LibcQueue.SetRead fd (su_stream su) :: cs). split; [|by rewrite Hq, Htab].
      constructor; [done|]. by eapply touches_flat.
  - destruct (close_conn_fields fd (Throw e) w) as (Hq & Ha & Hop & Hc & Hcl).
    rewrite delete_id in Hc by done.
    exists 0, (close_conn K fd (Throw e) w). unfold spared. split_and!; try done.
    + destruct Hw as [H1 H2 H3]. split; rewrite ?Hq, ?Hc; auto.
    + set (c0 := Conn (session_init (Libc.Mk 0 0 [] 0 [] 0 false 0 None [])) 0 [] false (su_memory su) []).
      apply (traced_end fd true (Worker (queue w) (time w) (accepts w) (<[fd := c0]> (conns w)) (accepting w) (closed w))).
      * by apply (traced_accept fd c0 w).
      * simpl. by rewrite lookup_insert_eq.
      * simpl. by rewrite delete_insert_id, Hc.
      * done.
    + by rewrite Hc.
    + by rewrite Hq.
    + by rewrite Hq.
Qed.

(** *** The accept loop *)

(** The entry of the listening socket is not the connections' concern. *)
Lemma conns_ok_listen w w' :
  conns_ok w -> conns w' = conns w -> LibcQueue.table_ok (queue w') ->
  (forall fd, fd <> listen_fd -> LibcQueue.fds (queue w') !! fd = LibcQueue.fds (queue w) !! fd) ->
  conns_ok w'.
Proof.
  intros [H1 H2 H3] Hc Ht Hq. split; [|done|].
  - intros fd c. rewrite Hc. intros Hfd. destruct (H1 fd c Hfd) as (? & ? & Hg). split_and!; try done.
    apply (good_table _ _ (queue w) _ (time w)); [done|]. by apply Hq.
  - intros fd Hfd. destruct (decide (fd = listen_fd)); [by left|]. rewrite Hc. rewrite Hq in Hfd by done. by apply H3.
Qed.

Lemma conns_ok_ext w w' :
  conns_ok w -> conns w' = conns w -> LibcQueue.fds (queue w') = LibcQueue.fds (queue w) -> conns_ok w'.
Proof.
  intros Hw Hc Hq. apply (conns_ok_listen w); [done..| |intros; by rewrite Hq].
  unfold LibcQueue.table_ok. rewrite Hq. apply Hw.
Qed.

Lemma accepted_ok k a res w :
  conns_ok w -> traced true w -> a = k_accept K k (open_fds listen_fd w) ->
  LibcQueue.try_op (accept_ret a) = Some res ->
  exists N b w', (forall fuel, N <= fuel -> accepted K es n shutdown fuel a res w = Some (b, w')) /\
    conns_ok w' /\ traced b w' /\ spared w w' /\ accepting w' = (if b then accepting w else None).
Proof.
  intros Hw Ht Ha Hres. unfold accepted. destruct a as [e|fd su]; simpl in Hres.
  - case_bool_decide; [done|]. injection Hres as <-. pose proof (ko_refused K es n HK _ _ _ (eq_sym Ha)).
    unfold LibcQueue.op_end. rewrite bool_decide_true by lia.
    exists 0. pose proof (traced_refused (system_error (- - e)) w) as Htr.
    destruct (shutdown (accepts w)) eqn:Hs; destruct w as [q t ac cs op cl]; simpl in Hs.
    + exists false, (Worker q t ac cs None cl). split; [done|]. split; [by eapply conns_ok_ext|].
      split; [|by split_and!]. specialize (Htr (Worker q t ac cs None cl) ac Ht eq_refl eq_refl). by rewrite Hs in Htr.
    + exists true, (Worker q t ac cs op cl). by split_and!.
  - injection Hres as <-. destruct (ko_accept K es n HK _ _ _ _ (eq_sym Ha)) as (Hpos & Hfresh & Hsu).
    unfold LibcQueue.op_end. rewrite bool_decide_false by lia.
    destruct (spawn_conn_ok fd su w Hw Ht Hfresh Hsu) as (N & w' & Hrun & ? & ? & ? & ?).
    exists N, true, w'. split_and!; try done. intros fuel Hfuel. by rewrite (Hrun fuel Hfuel).
Qed.

(** The loop is suspended in [accept] again, or it returned. *)
Definition loop_ends (w w' : worker) : Prop :=
  let st := LibcQueue.entry listen_fd (queue w) in
  match accepting w' with
  | Some op => traced true w' /\ LibcQueue.fds (queue w') !! listen_fd =
      Some (LibcQueue.MkFd (Some op) (u64 (LibcQueue.read_op_gen st + 1)) (LibcQueue.write_queue st))
  | None => traced false w' /\ LibcQueue.fds (queue w') !! listen_fd = LibcQueue.fds (queue w) !! listen_fd
  end.

Lemma count_ok b w : conns_ok w -> traced b w -> conns_ok (count_accept w) /\ traced b (count_accept w).
Proof.
  intros Hw Ht. destruct w. split; [by eapply conns_ok_ext|by eapply traced_same].
Qed.

Lemma await_ok w :
  conns_ok w -> traced true w ->
  let w' := await_accept K listen_fd w in
  conns_ok w' /\ conns w ⊆ conns w' /\ calls_to (queue w) (queue w') /\ loop_ends w w'.
Proof.
  intros Hw Ht w'. destruct w as [q t a cs o cl]. set (op := k_acceptor K a).
  assert (Htr : traced true w') by (by eapply traced_same).
  destruct Hw as [H1 H2 H3]. simpl in *. split_and!.
  - split; simpl.
    + intros fd c Hfd. destruct (H1 fd c Hfd) as (Hne & ? & Hg). split_and!; try done.
      apply (good_table _ _ q _ t); [done|]. by apply store_elsewhere.
    + by apply LibcQueue.set_read_op_ok.
    + intros fd. destruct (decide (fd = listen_fd)) as [->|Hne]; [by left|].
      rewrite lookup_insert_ne by done. apply H3.
  - done.
  - exists [LibcQueue.SetRead listen_fd op]. split; [by repeat constructor|done].
  - unfold loop_ends. simpl. split; [done|]. unfold LibcQueue.set_read_op.
    simpl. by rewrite lookup_insert_eq.
Qed.

Lemma accept_loop_ok w :
  conns_ok w -> traced true w ->
  exists N w', (forall turns fuel, N <= turns -> N <= fuel -> accept_loop turns fuel w = Some w') /\
    conns_ok w' /\ conns w ⊆ conns w' /\ calls_to (queue w) (queue w') /\ loop_ends w w'.
Proof.
  destruct (ko_backlog K es n HK (accepts w)) as (k' & Hle & Hback).
  remember (k' - accepts w) as d eqn:Hd. revert w Hle Hd. induction d as [d IH] using lt_wf_ind.
  intros w Hle Hd Hw Ht. destruct (count_ok true w Hw Ht) as [Hcw Hct].
  assert (Hsame : queue (count_accept w) = queue w /\ conns (count_accept w) = conns w /\
    accepts (count_accept w) = S (accepts w) /\ open_fds listen_fd (count_accept w) = open_fds listen_fd w)
    by (by destruct w). destruct Hsame as (Hsq & Hsc & Hsa & Hso).
  destruct (LibcQueue.try_op (accept_ret (next_accept K listen_fd w))) as [res|] eqn:Hres.
  2:{ destruct (await_ok _ Hcw Hct) as (Hw' & Hsub & Hcalls & Hend). rewrite Hsc in Hsub.
      exists 1, (await_accept K listen_fd (count_accept w)). unfold loop_ends in *. rewrite Hsq in *.
      split_and!; try done.
      intros [|turns] fuel Hturns Hfuel; [lia|]. cbn [LibcWorker.accept_loop]. by rewrite Hres. }
  assert (Hlt : accepts w <> k').
  { intros Heq. unfold next_accept in Hres. by rewrite Heq, Hback in Hres. }
  destruct (accepted_ok (accepts w) (next_accept K listen_fd w) res (count_accept w))
    as (N & b & w1 & Hrun & Hw1 & Ht1 & (Hac & Hsub & Hq & Hcalls) & Hop); try done; [by rewrite Hso|].
  rewrite Hsq, ?Hsc, ?Hsa in *. destruct b.
  - destruct (IH (k' - accepts w1)) with (w := w1) as (N' & w' & Hrun' & Hw' & Hsub' & Hcalls' & Hend);
      try done; try lia.
    exists (S (max N N')), w'. split_and!; try done; [|by etrans|by etrans|].
    + intros [|turns] fuel Hturns Hfuel; [lia|]. cbn [LibcWorker.accept_loop].
      rewrite Hres, (Hrun fuel) by lia. simpl. apply Hrun'; lia.
    + unfold loop_ends, LibcQueue.entry in *. by rewrite Hq in Hend.
  - exists (S N), w1. split_and!; try done.
    + intros [|turns] fuel Hturns Hfuel; [lia|]. cbn [LibcWorker.accept_loop].
      by rewrite Hres, (Hrun fuel) by lia.
    + unfold loop_ends. rewrite Hop. by split.
Qed.

(** *** [step], for the listening socket *)

Lemma u64_succ_ne gen : (0 <= gen < 2 ^ 64)%Z -> u64 (gen + 1) <> gen.
Proof.
  intros Hgen. unfold u64. destruct (decide (gen + 1 = 2 ^ 64)%Z) as [He|].
  - rewrite He, Z.mod_same by lia. lia.
  - rewrite Z.mod_small by lia. lia.
Qed.

(** What [on_ready] of the accept awaiter leaves, cleaned up by [step]. *)
Lemma finish_accept op gen q w w' :
  LibcQueue.fds q !! listen_fd = Some (LibcQueue.MkFd (Some op) gen []) -> (0 <= gen < 2 ^ 64)%Z ->
  queue w = q -> loop_ends w w' ->
  let w'' := set_queue (LibcQueue.finish_read listen_fd gen (queue w')) w' in
  traced (bool_decide (is_Some (accepting w''))) w'' /\ listening w''.
Proof.
  intros Hq Hgen Hwq Hend. unfold loop_ends, LibcQueue.entry in Hend. rewrite Hwq, Hq in Hend. simpl in Hend.
  destruct w' as [q' t a cs o cl]. simpl in *. unfold listening, entry_is, LibcQueue.entry, LibcQueue.finish_read.
  destruct o as [op'|]; destruct Hend as [Ht Hq']; rewrite Hq'; simpl.
  - rewrite bool_decide_false by (by apply u64_succ_ne). rewrite Hq'. simpl.
    split; [by apply (traced_same true _ _ Ht)|]. pose proof (Z.mod_pos_bound (gen + 1) (2 ^ 64)). unfold u64. split; [done|lia].
  - rewrite bool_decide_true by done. simpl. rewrite lookup_insert_eq. simpl.
    split; [by apply (traced_same false _ _ Ht)|]. split_and!; done || lia.
Qed.

(** [on_ready] of the accept awaiter, and the loop it resumes. *)
Lemma accept_ready_ok op w :
  conns_ok w -> traced true w ->
  exists N b cs w', (forall fuel, N <= fuel ->
      accept_ready K es n listen_fd shutdown fuel op w = Some (b, w')) /\
    conns_ok w' /\ conns w ⊆ conns w' /\
    queue w' = LibcQueue.run_calls cs (LibcQueue.log (LibcQueue.Ready op b) (queue w)) /\
    if b then loop_ends w w' else traced true w' /\ accepting w' = accepting w /\ cs = [].
Proof.
  intros Hw Ht. destruct (count_ok true w Hw Ht) as [Hcw Hct]. unfold accept_ready.
  destruct (LibcQueue.try_op (accept_ret (next_accept K listen_fd w))) as [res|] eqn:Hres.
  2:{ exists 0, false, [], (set_queue (LibcQueue.log (LibcQueue.Ready op false) (queue w)) (count_accept w)).
      destruct w; split_and!; try done. by eapply conns_ok_ext. }
  set (w0 := set_queue (LibcQueue.log (LibcQueue.Ready op true) (queue (count_accept w))) (count_accept w)).
  assert (Hw0 : conns_ok w0 /\ traced true w0).
  { split; [by eapply conns_ok_ext; [exact Hcw|destruct w..]|].
    by apply (traced_same true (count_accept w)); [done|destruct w..]. }
  assert (Hsame : queue w0 = LibcQueue.log (LibcQueue.Ready op true) (queue w) /\ conns w0 = conns w /\
    open_fds listen_fd w0 = open_fds listen_fd w) by (by destruct w). destruct Hsame as (Hsq & Hsc & Hso).
  destruct (accepted_ok (accepts w) (next_accept K listen_fd w) res w0)
    as (N & b & w1 & Hrun & Hw1 & Ht1 & (_ & Hsub & Hq & Hcalls) & Hacc); try apply Hw0; try done; [by rewrite Hso|].
  rewrite Hsq, Hsc in *.
  assert (Hloop : exists N' w', (forall fuel, N' <= fuel ->
      (if b then accept_loop fuel fuel w1 else Some w1) = Some w') /\
    conns_ok w' /\ conns w ⊆ conns w' /\
    calls_to (LibcQueue.log (LibcQueue.Ready op true) (queue w)) (queue w') /\ loop_ends w1 w').
  { destruct b.
    - destruct (accept_loop_ok w1 Hw1 Ht1) as (N' & w' & Hrun' & Hw' & Hsub' & Hcalls' & Hend).
      exists N', w'. split_and!; try done; [intros; by apply Hrun'|by etrans|by etrans].
    - exists 0, w1. split_and!; try done. unfold loop_ends. rewrite Hacc. by split. }
  destruct Hloop as (N' & w' & Hrun' & Hw' & Hsub' & (cs & _ & Hcs) & Hend).
  exists (max N N'), true, cs, w'. split_and!; try done.
  - intros fuel Hfuel. fold w0. rewrite (Hrun fuel) by lia. simpl. rewrite Hrun' by lia. done.
  - unfold loop_ends, LibcQueue.entry in *. by rewrite Hq in Hend.
Qed.

Lemma listen_read_ok w :
  worker_ok w ->
  exists N w' rr w1, (forall fuel, N <= fuel -> listen_read K es n listen_fd shutdown fuel w = Some w') /\
    conns w ⊆ conns w' /\ traced (bool_decide (is_Some (accepting w'))) w' /\ listening w' /\
    queue w' = LibcQueue.dispatch_read listen_fd rr (queue w) /\
    conns_ok w1 /\ conns w' = conns w1 /\
    forall fd, fd <> listen_fd -> LibcQueue.fds (queue w') !! fd = LibcQueue.fds (queue w1) !! fd.
Proof.
  intros (Hw & Ht & [Hro Hwq] & Hgen). unfold listen_read, LibcQueue.dispatch_read.
  destruct (LibcQueue.read_op (LibcQueue.entry listen_fd (queue w))) as [op|] eqn:Hop.
  2:{ exists 0, w, (false, []), w. split_and!; try done; [by unfold listening, entry_is; rewrite Hop|].
      unfold LibcQueue.entry in Hop. destruct (LibcQueue.fds (queue w) !! listen_fd) as [st|]; [|done].
      simpl in Hop. by rewrite Hop. }
  rewrite <- Hro in Ht. rewrite bool_decide_true by done. rewrite bool_decide_true in Ht by done.
  assert (Hst : LibcQueue.fds (queue w) !! listen_fd =
    Some (LibcQueue.MkFd (Some op) (LibcQueue.read_op_gen (LibcQueue.entry listen_fd (queue w))) [])).
  { unfold LibcQueue.entry in *. destruct (LibcQueue.fds (queue w) !! listen_fd) as [[ro g wq]|]; [|done].
    simpl in *. by subst. }
  set (gen := LibcQueue.read_op_gen (LibcQueue.entry listen_fd (queue w))) in *. rewrite Hst. simpl.
  destruct (accept_ready_ok op w Hw Ht) as (N & b & cs & w' & Hrun & Hw' & Hsub & Hq & Hb).
  exists N, (if b then set_queue (LibcQueue.finish_read listen_fd gen (queue w')) w' else w'), (b, cs), w'.
  split; [intros fuel Hfuel; by rewrite (Hrun fuel Hfuel)|]. destruct b.
  - destruct (finish_accept op gen (queue w) w w' Hst Hgen eq_refl Hb) as [Htr Hlis].
    split_and!; try done; [by destruct w'|simpl; rewrite <- Hq; by destruct w'|by destruct w'|].
    intros fd Hfd. destruct w'. by apply finish_read_elsewhere.
  - destruct Hb as (Htr & Hacc & ->). rewrite Hacc, <- Hro, bool_decide_true by done.
    split_and!; try done. unfold listening, entry_is. rewrite Hq, Hacc, <- Hro. by split.
Qed.

(** What one turn of the loop over [pfds] does: it ends, to the table it is the turn of
    [LibcQueue], and the connections of the other descriptors are as before. *)
Definition turns_to (fd revents : Z) (w w' : worker) : Prop :=
  worker_ok w' /\
  (exists rr wr, queue w' = LibcQueue.dispatch_fd fd revents rr wr (queue w)) /\
  forall fd' c, fd' <> fd -> conns w !! fd' = Some c -> conns w' !! fd' = Some c.

Lemma drop_empty_listening w :
  listening w -> listening (set_queue (LibcQueue.drop_empty listen_fd (queue w)) w).
Proof.
  intros [He Hgen]. destruct w as [q t a cs o cl]. split; [by apply drop_empty_entry|]. simpl in *.
  unfold LibcQueue.drop_empty. destruct (LibcQueue.fds q !! listen_fd) as [st|]; [|done].
  destruct (LibcQueue.fd_empty st); [|done]. rewrite entry_erase, decide_True by done. simpl. lia.
Qed.

Lemma dispatch_listen_ok revents w :
  worker_ok w ->
  exists N w', (forall fuel, N <= fuel ->
      dispatch_listen K es n listen_fd shutdown fuel revents w = Some w') /\
    turns_to listen_fd revents w w'.
Proof.
  intros Hok. unfold dispatch_listen, turns_to, LibcQueue.dispatch_fd. case_bool_decide.
  { exists 0, w. split_and!; try done. by exists (false, []), []. }
  assert (Hread : exists N w' rr w1, (forall fuel, N <= fuel ->
      (if LibcQueue.has_event LibcQueue.POLLIN revents
       then listen_read K es n listen_fd shutdown fuel w else Some w) = Some w') /\
    conns w ⊆ conns w' /\ traced (bool_decide (is_Some (accepting w'))) w' /\ listening w' /\
    queue w' = (if LibcQueue.has_event LibcQueue.POLLIN revents
                then LibcQueue.dispatch_read listen_fd rr (queue w) else queue w) /\
    conns_ok w1 /\ conns w' = conns w1 /\
    forall fd, fd <> listen_fd -> LibcQueue.fds (queue w') !! fd = LibcQueue.fds (queue w1) !! fd).
  { destruct (LibcQueue.has_event LibcQueue.POLLIN revents); [by apply listen_read_ok|].
    exists 0, w, (false, []), w. destruct Hok as (? & ? & ?). by split_and!. }
  destruct Hread as (N & w' & rr & w1 & Hrun & Hsub & Ht & Hlis & Hq & Hw1 & Hc1 & Hq1).
  assert (Hnone : LibcQueue.write_queue (LibcQueue.entry listen_fd (queue w')) = []) by apply Hlis.
  set (w'' := set_queue (LibcQueue.drop_empty listen_fd (queue w')) w').
  assert (Hsame : conns w'' = conns w' /\ accepting w'' = accepting w' /\ closed w'' = closed w' /\
    queue w'' = LibcQueue.drop_empty listen_fd (queue w')) by (by destruct w').
  destruct Hsame as (Hsc & Hso & Hscl & Hsq).
  assert (Hdisp : queue w'' = LibcQueue.dispatch_fd listen_fd revents rr [] (queue w)).
  { unfold LibcQueue.dispatch_fd. rewrite bool_decide_false by done. rewrite Hsq, <- Hq.
    destruct (LibcQueue.has_event LibcQueue.POLLOUT revents); [|done]. simpl.
    unfold LibcQueue.entry in Hnone. destruct (LibcQueue.fds (queue w') !! listen_fd); [|done].
    simpl in Hnone. by rewrite Hnone. }
  exists N, w''. split; [|split; [split; [|split]|split]].
  - intros fuel Hfuel. rewrite Hrun by done. simpl. rewrite Hnone, bool_decide_false by (by intros []).
    by rewrite andb_false_r.
  - apply (conns_ok_listen w1); [done|congruence| |].
    + rewrite Hdisp. apply LibcQueue.dispatch_fd_ok, Hok.
    + intros fd Hfd. rewrite Hsq, drop_empty_elsewhere by done. by apply Hq1.
  - rewrite Hso. apply (traced_same _ w'); [done|by rewrite Hsc|done].
  - by apply drop_empty_listening.
  - exists rr, []. rewrite Hdisp. unfold LibcQueue.dispatch_fd. by rewrite bool_decide_false by done.
  - intros fd' c _ Hc. rewrite Hsc. by eapply lookup_weaken.
Qed.

Lemma dispatch_conn_ok fd revents rs c w :
  worker_ok w -> conns w !! fd = Some c -> recvs_ok rs c ->
  exists N w', (forall fuel, N <= fuel -> dispatch_conn K fuel fd revents rs w = Some w') /\
    turns_to fd revents w w'.
Proof.
  intros (Hw & Ht & Hlis) Hc Hrs. destruct (co_conn w Hw fd c Hc) as (Hne & Hgone & Hg).
  destruct (dispatch_rests _ _ (k_address K) fd (ko_sends K es n HK fd) (ko_files K es n HK) revents rs _ Hg Hgone Hrs)
    as (N & m & rr & wr & Hrun & Hgm & _ & _ & Hrr & Hwr & Htab). simpl in Htab.
  assert (Helse : forall fd', fd' <> fd -> LibcQueue.fds (table m) !! fd' = LibcQueue.fds (queue w) !! fd').
  { intros fd' Hfd'. rewrite Htab. by apply dispatch_elsewhere. }
  destruct (settle_ok fd m w Hw Hne Hgm) as (Hok & Hq & Hcs); [|done|].
  { rewrite Htab. apply LibcQueue.dispatch_fd_ok, Hw. }
  destruct (settle_fields fd m w) as [Ha Hop].
  exists N, (settle K fd m w). split; [|split; [split; [done|split]|split]].
  - intros fuel Hfuel. unfold dispatch_conn. rewrite Hc. by rewrite Hrun.
  - rewrite Hop. apply settle_traced; [done|]. left. by exists c.
  - unfold listening, entry_is, LibcQueue.entry in *. rewrite Hq, Hop, Helse; done.
  - exists rr, wr. by rewrite Hq.
  - intros fd' c' Hfd' Hc'. rewrite Hcs. destruct (gone (cn m)); [by rewrite lookup_delete_ne|by rewrite lookup_insert_ne].
Qed.

(** The descriptors still to be looked at are those of the loop and of live connections. *)
Definition expected (pfds : list (Z * Z * list recv_result)) (w : worker) : Prop :=
  NoDup (pfds.*1).*1 /\
  forall fd revents rs, (fd, revents, rs) ∈ pfds ->
    fd = listen_fd \/ exists c, conns w !! fd = Some c /\ recvs_ok rs c.

Lemma dispatch_head fd revents rs pfds w :
  worker_ok w -> expected ((fd, revents, rs) :: pfds) w ->
  exists N w1, (forall fuel, N <= fuel ->
      (if bool_decide (fd = listen_fd) then dispatch_listen K es n listen_fd shutdown fuel revents w
       else dispatch_conn K fuel fd revents rs w) = Some w1) /\
    turns_to fd revents w w1 /\ expected pfds w1.
Proof.
  intros Hok [Hnd Hexp]. simpl in Hnd. apply list.NoDup_cons in Hnd as [Hni Hnd].
  assert (Hturn : exists N w1, (forall fuel, N <= fuel ->
      (if bool_decide (fd = listen_fd) then dispatch_listen K es n listen_fd shutdown fuel revents w
       else dispatch_conn K fuel fd revents rs w) = Some w1) /\ turns_to fd revents w w1).
  { case_bool_decide as Hfd; [subst fd; by apply dispatch_listen_ok|].
    destruct (Hexp fd revents rs ltac:(left)) as [?|(c & Hc & Hrs)]; [done|]. by eapply dispatch_conn_ok. }
  destruct Hturn as (N & w1 & Hrun & Hw1). exists N, w1. split; [done|]. split; [done|]. split; [done|].
  destruct Hw1 as (_ & _ & Hkeep). intros fd' revents' rs' Hin.
  assert (fd' <> fd).
  { intros ->. apply Hni. apply list_elem_of_fmap. exists (fd, revents'). split; [done|].
    apply list_elem_of_fmap. by exists (fd, revents', rs'). }
  destruct (Hexp fd' revents' rs' ltac:(by right)) as [?|(c & Hc & Hrs)]; [by left|right]. exists c. auto.
Qed.

Lemma dispatch_all_ok pfds w :
  worker_ok w -> expected pfds w ->
  exists N w' reactions, (forall fuel, N <= fuel ->
      dispatch_all K es n listen_fd shutdown fuel pfds w = Some w') /\ worker_ok w' /\
    (fun x => (x.1.1.1, x.1.1.2)) <$> reactions = pfds.*1 /\
    LibcQueue.step (LibcQueue.PollReady reactions) (queue w) = Ok (queue w').
Proof.
  revert w. induction pfds as [|[[fd revents] rs] pfds IH]; intros w Hok Hexp.
  { exists 0, w, []. by split_and!. }
  destruct (dispatch_head fd revents rs pfds w Hok Hexp) as (N & w1 & Hrun & (Hok1 & (rr & wr & Hq) & _) & Hexp1).
  destruct (IH w1 Hok1 Hexp1) as (N' & w' & rs' & Hrun' & Hok' & Hfst & Hstep).
  exists (max N N'), w', ((fd, revents, rr, wr) :: rs'). split_and!; try done.
  - intros fuel Hfuel. simpl. rewrite Hrun by lia. simpl. apply Hrun'. lia.
  - simpl. f_equal. exact Hfst.
  - simpl in *. by rewrite <- Hq.
Qed.

Lemma polled_expected pfds w : worker_ok w -> polled_ok (PollReady pfds) w -> expected pfds w.
Proof.
  intros (Hw & _) [Hfds Hrecv]. split.
  - rewrite Hfds. rewrite (LibcQueue.poll_set_all _ (co_table w Hw)). apply NoDup_fst_map_to_list.
  - intros fd revents rs Hin.
    assert (Hfd : fd ∈ (LibcQueue.poll_set (queue w)).*1).
    { rewrite <- Hfds. apply list_elem_of_fmap. exists (fd, revents). split; [done|].
      apply list_elem_of_fmap. by exists (fd, revents, rs). }
    rewrite (LibcQueue.poll_set_all _ (co_table w Hw)) in Hfd.
    apply list_elem_of_fmap in Hfd as ([fd' st] & -> & Hst%elem_of_map_to_list).
    destruct (co_known w Hw fd' ltac:(by eexists)) as [?|[c Hc]]; [by left|right]. exists c. eauto.
Qed.

(** The answer of [poll] as [LibcQueue] has it: what the operations did. *)
Definition reacts (p : polled) (p' : LibcQueue.poll_result) : Prop :=
  match p, p' with
  | PollError e, LibcQueue.PollError e' => e = e'
  | PollTimeout, LibcQueue.PollTimeout => True
  | PollReady pfds, LibcQueue.PollReady pfds' => (fun x => (x.1.1.1, x.1.1.2)) <$> pfds' = pfds.*1
  | _, _ => False
  end.

Lemma worker_step_ok p w :
  worker_ok w -> polled_ok p w ->
  exists N r p', (forall fuel, N <= fuel -> step fuel p w = Some r) /\
    (forall w', r = Ok w' -> worker_ok w') /\
    reacts p p' /\ LibcQueue.poll_ok p' (queue w) /\
    LibcQueue.step p' (queue w) = match r with Ok w' => Ok (queue w') | Throw e => Throw e end.
Proof.
  intros Hok Hp. destruct p as [e| |pfds]; simpl.
  - exists 0, (if bool_decide (e = EINTR) then Ok w else Throw (system_error e)), (LibcQueue.PollError e).
    unfold LibcQueue.step. case_bool_decide; split_and!; try done. by intros ? [= <-].
  - exists 0, (Ok w), LibcQueue.PollTimeout. split_and!; try done. by intros w' [= <-].
  - destruct (dispatch_all_ok pfds w Hok (polled_expected _ _ Hok Hp)) as (N & w' & rs & Hrun & Hok' & Hfst & Hstep).
    exists N, (Ok w'), (LibcQueue.PollReady rs). split_and!; try done.
    + intros fuel Hfuel. by rewrite Hrun.
    + by intros ? [= <-].
    + simpl. destruct Hp as [<- _]. rewrite <- Hfst. by rewrite <- list_fmap_compose.
Qed.

Lemma start_ok :
  exists N w, (forall fuel, N <= fuel -> start K es n listen_fd shutdown fuel = Some w) /\ worker_ok w.
Proof.
  set (w0 := Worker LibcQueue.init 0 0 ∅ None []).
  assert (Hw0 : conns_ok w0) by (split; [done| |]; by try intros fd [? ?]).
  assert (Ht0 : traced true w0) by (exists []; by split_and!).
  destruct (accept_loop_ok w0 Hw0 Ht0) as (N & w & Hrun & Hw & _ & _ & Hend).
  exists N, w. split; [intros fuel Hfuel; by apply Hrun|]. split; [done|].
  unfold loop_ends in Hend. unfold listening, entry_is, LibcQueue.entry in *.
  destruct (accepting w) as [op|]; destruct Hend as [Ht Hq]; rewrite Hq; by split.
Qed.

(** ** The states of a worker *)

(** The states in which a worker polls, from its start and after any answers of [poll]. *)
Inductive polls : worker -> Prop :=
  | polls_start w : ends_in (start K es n listen_fd shutdown) w -> polls w
  | polls_step w p w' : polls w -> polled_ok p w -> ends_in (fun fuel => step fuel p w) (Ok w') -> polls w'.

Lemma polls_ok w : polls w -> worker_ok w.
Proof.
  induction 1 as [w Hw|w p w' _ IH Hp Hw'].
  - destruct start_ok as (N & w' & Hrun & Hok). by rewrite (ends_in_unique _ w w' Hw (ex_intro _ N Hrun)).
  - destruct (worker_step_ok p w IH Hp) as (N & r & p' & Hrun & Hok & _).
    apply Hok. symmetry. exact (ends_in_unique _ _ _ Hw' (ex_intro _ N Hrun)).
Qed.

(** ** A connection at rest *)

(** A response of the connection waits for its socket. *)
Definition sends (c : conn) : Prop :=
  exists id j f, handlers (ss_pool (sess c)) !! id = Some (MkHandler j (AtSend f)).

Lemma sends_awaiting fd c q k :
  good fd [] [] (Machine c q k) ->
  (sends c /\ exists op, (awaiting c).*1 = [op]) \/ (~ sends c /\ (awaiting c).*1 = []).
Proof.
  intros (_ & Hrun & _). destruct (rn_waits Hrun) as [Ha|(op & id & j & f & Ha & _ & Hid)]; simpl in *.
  - right. rewrite Ha. split; [|done]. intros (id & j & f & Hid).
    pose proof (rn_rests Hrun (Handler id) (not_elem_of_nil _)) as Hre. simpl in Hre.
    unfold handler_rests in Hre. rewrite Hid in Hre. destruct Hre as [op Hop]. simpl in Hop. congruence.
  - left. rewrite Ha. split; [by exists id, j, f|by exists op].
Qed.

(** Who waits for the lock waits for a sender. *)
Lemma busy_sends fd c q k id h :
  good fd [] [] (Machine c q k) -> handlers (ss_pool (sess c)) !! id = Some h -> sends c.
Proof.
  intros (Hr & Hrun & _) Hid. simpl in *. destruct (reached_inv _ Hr) as (_ & _ & hq & Hp & _).
  assert (Hrest : forall i, handler_rests c i) by (intros i; exact (rn_rests Hrun (Handler i) (not_elem_of_nil _))).
  pose proof (pi_queue Hp id (not_elem_of_nil _)) as Hq. unfold queue_ok in Hq. rewrite Hid in Hq.
  pose proof (Hrest id) as Hpc. unfold handler_rests in Hpc. rewrite Hid in Hpc.
  destruct h as [j [|resp|f| | |]]; simpl in Hpc; try done; [|by exists id, j, f].
  simpl in Hq. destruct hq as [|i hq]; simpl in Hq; [by apply not_elem_of_nil in Hq|].
  pose proof (pi_queue Hp i (not_elem_of_nil _)) as Hqi. pose proof (Hrest i) as Hpci.
  unfold queue_ok, handler_rests in *.
  pose proof (proj1 (list.NoDup_cons _ _) (pi_nodup Hp)) as [Hni _].
  destruct (handlers (ss_pool (sess c)) !! i) as [[ji [|resp'|f'| | |]]|] eqn:Hi; simpl in *; try done;
    try (exfalso; apply Hqi; left). by exists i, ji, f'.
Qed.

Lemma quiet_empty fd c q k :
  good fd [] [] (Machine c q k) -> ~ sends c -> handlers (ss_pool (sess c)) = ∅.
Proof.
  intros Hg Hquiet. destruct (decide (handlers (ss_pool (sess c)) = ∅)) as [|(id & h & Hid)%map_choose]; [done|].
  destruct Hquiet. by eapply busy_sends.
Qed.

(** Where the connection is. *)
Lemma conn_waits fd c q k :
  good fd [] [] (Machine c q k) -> gone c = false ->
  match ss_pc (sess c) with
  | CHeader | CBody _ _ => Libc.waiter (ss_stream (sess c)) = Some me /\ Libc.something (ss_stream (sess c)) = false
  | CWait => sends c
  | _ => False
  end.
Proof.
  intros Hg Hgone. destruct (at_rest_pc fd _ Hg Hgone) as (Htop & Hend & _). pose proof Hg as (Hr & Hrun & _).
  pose proof (busy_sends fd c q k) as Hbusy. unfold pc_of in *. simpl in *.
  destruct (reached_inv _ Hr) as (Hst & Hconn & hq & Hp & _).
  pose proof (rn_rests Hrun Reader (not_elem_of_nil _)) as Hrest. simpl in Hrest. unfold reader_rests in Hrest.
  destruct (sess c) as [st r pc p]. simpl in *. destruct Hst as [_ Hidle].
  destruct pc; try done; destruct Hconn as (rest & _ & Hconn).
  - destruct Hconn as (_ & _ & _ & Hw & _). split; [done|]. apply Hidle. rewrite Hw. by eexists.
  - destruct Hconn as (_ & _ & _ & _ & _ & _ & _ & _ & Hw & _). split; [done|]. apply Hidle. rewrite Hw. by eexists.
  - destruct Hconn as (_ & _ & _ & Hrem). pose proof (pi_wg Hp) as Hwg. rewrite Hwg in Hrem.
    destruct (map_choose (handlers p)) as (id & h & Hid); [intros He; rewrite He, map_size_empty in Hrem; lia|].
    by apply (Hbusy id h).
Qed.

(** A connection with nothing to send answered everything it received. *)
Lemma quiet_answers fd c q k :
  good fd [] [] (Machine c q k) -> gone c = false -> ~ sends c ->
  let p := ss_pool (sess c) in
  spawned p = parse (got c) /\ handlers p = ∅ /\
  (forall id req, spawned p !! id = Some req ->
     let ios := of_id id (io_log p) in
     (exists msg, of_id id (begun p) = [msg] /\ answers req ios msg) \/
     (of_id id (begun p) = [] /\ dropped (memory c) id req ios)) /\
  exists parts, wire p = mjoin parts /\
    Forall2 (fun '(id, msg) part => part = msg \/ (id ∈ failed p /\ part `prefix_of` msg)) (begun p) parts.
Proof.
  intros Hg Hgone Hquiet p.
  pose proof (conn_waits fd c _ _ Hg Hgone) as Hpc. pose proof Hg as (Hr & _ & _). simpl in Hr.
  pose proof (quiet_empty fd c q k Hg Hquiet) as Hempty.
  pose proof (reached_inv _ Hr) as Hinv. pose proof Hinv as (_ & _ & hq & [Hp Hwire]).
  fold p in Hempty, Hp, Hwire. split_and!; [|done| |].
  - eapply (waiting_parses (memory c)); [exact Hinv|]. by destruct (ss_pc (sess c)).
  - intros id req Hreq. pose proof (pi_local Hp id req (not_elem_of_nil id) Hreq) as Hloc.
    by rewrite Hempty, lookup_empty in Hloc.
  - assert (Hs : sending hq p = None).
    { unfold sending. destruct (head hq); [|done]. by rewrite Hempty, lookup_empty. }
    unfold pool_wire in Hwire. rewrite Hs in Hwire.
    destruct Hwire as (prev & parts & Hall & Hb & Hwp). exists parts. rewrite Hb. split; [done|].
    eapply list.Forall2_impl; [exact Hall|]. by intros [id msg] part.
Qed.

(** *** A connection is cancelled *)

(** The stream of a quiet connection, cancelled. *)
Lemma cancelled_stream (st : Libc.t) h :
  Libc.inv st -> Libc.waiter st = Some h -> Libc.something st = false ->
  is_Some (Libc.final (Libc.cancel st).1) /\ Libc.queue (Libc.cancel st).1 = Libc.queue st /\
  (Libc.cancel st).2 = Some h.
Proof.
  intros [Hok _] Hw Hs. destruct (Libc.nothing st Hok Hs) as [_ Hf]. unfold Libc.cancel.
  assert (He : bool_decide (Libc.err st = 0%Z) && negb (Libc.eof st) = true).
  { unfold Libc.final in Hf. destruct (Libc.eof st); [by case_bool_decide|].
    case_bool_decide as Herr; [done|]. by rewrite bool_decide_true. }
  rewrite He. split_and!; [by eexists|done|done].
Qed.

(** It ends: [handle_connection] returns and its stream takes itself off the table. *)
Lemma quiet_cancel fd c q k :
  good fd [] [] (Machine c q k) -> gone c = false -> ~ sends c ->
  exists m', (forall fuel, 1 <= fuel ->
      cancel_read (k_send K fd) (k_file K) (k_address K) fd fuel (Machine c q k) = Some m') /\
    gone (cn m') = true /\ table m' = LibcQueue.clear_read_op fd (stream_op c) q.
Proof.
  intros Hg Hgone Hquiet. pose proof Hg as (Hr & _ & _). simpl in Hr.
  pose proof (conn_waits fd c q k Hg Hgone) as Hpc. pose proof (reached_inv _ Hr) as Hinv.
  pose proof (quiet_empty fd c q k Hg Hquiet) as Hempty.
  assert (Hw : match ss_pc (sess c) with CHeader | CBody _ _ => True | _ => False end /\
    Libc.waiter (ss_stream (sess c)) = Some me /\ Libc.something (ss_stream (sess c)) = false)
    by (by destruct (ss_pc (sess c))).
  destruct Hw as (Hloop & Hw & Hidle).
  destruct (cancelled_stream _ _ (proj1 Hinv) Hw Hidle) as (Hfin & Hqueue & Hwake).
  set (ev := Libc.EvCancel : rs_event (RecvStreamLaws := Libc.stream_laws)).
  destruct (receive_end (memory c) (got c) ev (sess c) Hinv Hloop I) as (st & r & Hs); [|done|].
  { unfold received. simpl. etrans; [apply (f_equal (drop _) Hqueue)|]. apply drop_all. }
  set (m' := act (Receive ev) (Machine c q k)).
  assert (Hm' : sess (cn m') = drain st r (ss_pool (sess c)) /\ gone (cn m') = false /\
    stream_op (cn m') = stream_op c /\ table m' = q) by (unfold m'; destruct c; simpl in *; by rewrite Hs).
  destruct Hm' as (Hs' & Hg' & Ho' & Ht').
  assert (Hend : ss_pc (sess (cn m')) = CEnd /\ next (pool_of m') = next (pool_of (Machine c q k))).
  { unfold pool_of. rewrite Hs'. unfold drain, WaitGroup.wait, WaitGroup.await_ready.
    destruct Hinv as (_ & _ & hq & Hp & _). pose proof (pi_wg Hp) as Hwg. rewrite Hempty, map_size_empty in Hwg.
    rewrite bool_decide_true by lia. done. }
  destruct Hend as [Hend Hnext].
  exists (leave fd m'). split_and!.
  - intros [|fuel] Hfuel; [lia|]. unfold cancel_read. fold ev m'.
    change (ss_stream (sess (cn (Machine c q k)))) with (ss_stream (sess c)). rewrite Hwake.
    unfold spawned_by. rewrite Hnext, bool_decide_false by lia. cbn [app run turn]. unfold pc_of. rewrite Hend.
    by destruct fuel.
  - by destruct m' as [[]].
  - rewrite <- Ho', <- Ht'. by destruct m' as [[]].
Qed.

(** What the worker polls. *)
Lemma worker_polled w fd ev :
  worker_ok w ->
  (fd, ev) ∈ LibcQueue.poll_set (queue w) <->
    (fd = listen_fd /\ is_Some (accepting w) /\ ev = LibcQueue.POLLIN) \/
    exists c, conns w !! fd = Some c /\
      ((sends c /\ ev = Z.lor LibcQueue.POLLIN LibcQueue.POLLOUT) \/ (~ sends c /\ ev = LibcQueue.POLLIN)).
Proof.
  intros (Hw & _ & Hlis & _). destruct (decide (fd = listen_fd)) as [->|Hne].
  - rewrite (poll_set_entry_is _ _ _ _ _ (co_table w Hw) Hlis). split.
    + intros [[Hop|[]] ->]; [|done]. left. split_and!; [done|done|]. by destruct Hop as [op ->].
    + intros [(_ & [op Hop] & ->)|(c & Hc & _)]; [|by destruct (co_conn w Hw _ _ Hc)].
      rewrite Hop. split; [left; by eexists|done].
  - destruct (conns w !! fd) as [c|] eqn:Hc.
    + destruct (co_conn w Hw fd c Hc) as (_ & Hgone & Hg). pose proof Hg as (_ & _ & Hreg).
      unfold registered in Hreg. simpl in Hreg. rewrite Hgone in Hreg.
      rewrite (poll_set_entry_is _ _ _ _ _ (co_table w Hw) Hreg).
      destruct (sends_awaiting fd c _ _ Hg) as [(Hs & op & ->)|(Hs & ->)]; split;
        [intros [_ ->]; right; eauto| |intros [_ ->]; right; eauto|];
        (intros [(? & _)|(c' & Hc' & Hev)]; [done|]; simplify_eq; split; [left; by eexists|];
         destruct Hev as [[? ->]|[? ->]]; done).
    + rewrite (LibcQueue.poll_set_entry fd ev _ (co_table w Hw)). split.
      * intros (st & Hst & _). destruct (co_known w Hw fd ltac:(by eexists)) as [?|[? ?]]; congruence.
      * intros [(? & _)|(c & ? & _)]; congruence.
Qed.

(** It only stops accepting on shutdown. *)
Lemma worker_stopped w : worker_ok w -> accepting w = None -> exists k, shutdown k = true.
Proof.
  intros (_ & (evs & Hflags & Hacc & _) & _) Hnone. rewrite Hnone in Hacc.
  destruct (ServerMain.worker_run_stops evs (ServerMain.Worker true [] [] false) eq_refl Hacc) as [e Hin].
  rewrite list.Forall_forall in Hflags. by apply (Hflags _ Hin).
Qed.
End laws.

(** ** A socket that takes everything *)

Section serving.
Context `{NativeEndian} (K : kernel) (es n : nat) (listen_fd : Z) (shutdown : nat -> bool).

(** From [since] on, no send on [fd] would block. *)
Context (fd : Z) (since : nat).
Definition flows : Prop := forall k iov, since <= k -> k_send K fd k iov <> Errno EAGAIN.

(** Then its connection has no response waiting for it. *)
Definition served (w : worker) : Prop :=
  since <= time w /\ (flows -> forall c, conns w !! fd = Some c -> awaiting c = []).

Lemma served_ext w w' : served w -> time w' = time w -> conns w' = conns w -> served w'.
Proof. intros [Ht Hc] Htime Hconns. split; [lia|]. by rewrite Hconns. Qed.

(** A connection ran, this one or another. *)
Lemma settle_served fd' m w :
  since <= clock m -> (flows -> fd' = fd -> awaiting (cn m) = []) -> (fd' <> fd -> served w) ->
  served (settle K fd' m w).
Proof.
  intros Hk Hfd Hother. destruct w as [q t a cs op cl]. unfold settle. destruct (gone (cn m)); simpl.
  - split; [done|]. simpl. rewrite delete_insert_eq. intros Hflows c [Hne Hc]%lookup_delete_Some.
    by apply Hother.
  - split; [done|]. simpl. intros Hflows c [[<- <-]|[Hne Hc]]%lookup_insert_Some; [by apply Hfd|]. by apply Hother.
Qed.

Lemma spawn_conn_served fuel fd' su w w' :
  spawn_conn K es n fuel fd' su w = Some w' -> served w -> served w'.
Proof.
  unfold spawn_conn. intros Hrun Hw. destruct (open_session es n su) as [s|e].
  - destruct (run _ _ _ _ _ _ _) as [m|] eqn:Hm; simplify_eq/=. apply settle_served; [| |done].
    + apply run_clock in Hm. simpl in Hm. destruct Hw. lia.
    + intros Hflows ->. apply (run_flowing _ _ _ _ since Hflows [] _ _ _ _ Hm). split; [apply Hw|done].
  - simplify_eq. destruct w as [q t a cs op cl], Hw as [Ht Hc]. simpl in *. split; [done|]. simpl.
    intros Hflows c [_ Hfd]%lookup_delete_Some. by apply Hc.
Qed.

Lemma accepted_served fuel a res b w w' :
  accepted K es n shutdown fuel a res w = Some (b, w') -> served w -> served w'.
Proof.
  unfold accepted. intros Hrun Hw. destruct (LibcQueue.op_end res) as [fd'|e].
  - destruct a as [e|fd'' su]; [done|]. destruct (spawn_conn _ _ _ _ _ _ w) as [w1|] eqn:Hs; simplify_eq/=.
    by eapply spawn_conn_served.
  - destruct (shutdown _); [|by simplify_eq]. destruct w. simplify_eq. by eapply served_ext.
Qed.

Lemma accept_loop_served turns fuel w w' :
  accept_loop K es n listen_fd shutdown turns fuel w = Some w' -> served w -> served w'.
Proof.
  revert w. induction turns as [|turns IH]; intros w; cbn [accept_loop]; [done|]. intros Hrun Hw.
  assert (Hc : served (count_accept w)) by (by destruct w).
  destruct (LibcQueue.try_op _) as [res|].
  - destruct (accepted _ _ _ _ _ _ _ _) as [[b w1]|] eqn:Ha; simpl in Hrun; [|done].
    pose proof (accepted_served _ _ _ _ _ _ Ha Hc) as Hw1. destruct b; [by eapply IH|by simplify_eq].
  - simplify_eq. by destruct w.
Qed.

Lemma dispatch_listen_served fuel revents w w' :
  dispatch_listen K es n listen_fd shutdown fuel revents w = Some w' -> served w -> served w'.
Proof.
  unfold dispatch_listen. case_bool_decide; [by intros [= <-]|]. intros Hrun Hw.
  destruct (if LibcQueue.has_event LibcQueue.POLLIN revents then _ else _) as [w1|] eqn:Hread; simpl in Hrun; [|done].
  assert (Hw1 : served w1).
  { destruct (LibcQueue.has_event LibcQueue.POLLIN revents); [|by simplify_eq].
    unfold listen_read in Hread. destruct (LibcQueue.read_op _); [|by simplify_eq].
    destruct (bool_decide (accepting w = _)); [|done]. destruct (accept_ready _ _ _ _ _ _ _ w) as [[b w2]|] eqn:Ha; simplify_eq/=.
    assert (Hw2 : served w2); [|destruct b; [by destruct w2|done]].
    unfold accept_ready in Ha. destruct (LibcQueue.try_op _) as [res|]; [|simplify_eq; by destruct w].
    destruct (accepted _ _ _ _ _ _ _ _) as [[b' w3]|] eqn:Hacc; simpl in Ha; [|done].
    assert (Hw3 : served w3) by (eapply accepted_served; [exact Hacc|by destruct w]).
    destruct b'; [|by simplify_eq/=].
    destruct (accept_loop _ _ _ _ _ _ _ w3) as [w4|] eqn:Hl; simplify_eq/=. by eapply accept_loop_served. }
  destruct (_ && _); simplify_eq. by destruct w1.
Qed.

Lemma dispatch_conn_served fuel fd' revents rs w w' :
  dispatch_conn K fuel fd' revents rs w = Some w' -> fd' <> fd -> served w -> served w'.
Proof.
  unfold dispatch_conn. intros Hrun Hne Hw. destruct (conns w !! fd') as [c|].
  - destruct (dispatch _ _ _ _ _ _ _ _) as [m|] eqn:Hm; simplify_eq/=.
    apply settle_served; [|by intros _ ?|done]. apply dispatch_clock in Hm. simpl in Hm. destruct Hw. lia.
  - case_bool_decide; by simplify_eq.
Qed.

Hypothesis HK : kernel_ok K es n.

(** Its own turn. *)
Lemma dispatch_this_served N revents rs c w w' :
  worker_ok listen_fd shutdown w -> conns w !! fd = Some c -> recvs_ok rs c -> since <= time w ->
  (sends c -> LibcQueue.has_event LibcQueue.POLLOUT revents = true) ->
  (forall fuel, N <= fuel -> dispatch_conn K fuel fd revents rs w = Some w') -> served w'.
Proof.
  intros (Hw & _) Hc Hrs Hk Hout Hrun. destruct (co_conn listen_fd w Hw fd c Hc) as (_ & Hgone & Hg).
  destruct (dispatch_rests _ _ (k_address K) fd (ko_sends K es n HK fd) (ko_files K es n HK) revents rs _ Hg Hgone Hrs)
    as (N1 & m & _ & _ & Hm & _).
  specialize (Hrun (max N N1) ltac:(lia)). unfold dispatch_conn in Hrun. rewrite Hc, Hm in Hrun by lia.
  simplify_eq/=. apply settle_served; [|intros Hflows _|done].
  { specialize (Hm N1 (le_n _)). apply dispatch_clock in Hm. simpl in Hm. lia. }
  assert (Hout' : awaiting c = [] \/ LibcQueue.has_event LibcQueue.POLLOUT revents = true).
  { destruct (sends_awaiting fd c _ _ Hg) as [[Hs _]|[_ Ha]]; [right; auto|left; by apply fmap_nil_inv in Ha]. }
  apply (dispatch_flowing _ _ _ fd since Hflows (ko_sends K es n HK fd) (ko_files K es n HK) N1 revents rs
    _ m Hg Hgone Hrs Hk Hout' Hm).
Qed.

Lemma dispatch_all_served fuel pfds w w' :
  dispatch_all K es n listen_fd shutdown fuel pfds w = Some w' -> (fd ∉ (pfds.*1).*1) -> served w -> served w'.
Proof.
  revert w. induction pfds as [|[[fd' revents] rs] pfds IH]; intros w; simpl; [by intros [= <-]|].
  intros Hrun [Hne Hni]%not_elem_of_cons Hw.
  destruct (if bool_decide (fd' = listen_fd) then _ else _) as [w1|] eqn:Hturn; simpl in Hrun; [|done].
  apply (IH w1 Hrun Hni). case_bool_decide; [by eapply dispatch_listen_served|].
  by eapply dispatch_conn_served; [exact Hturn|congruence|].
Qed.
End serving.

(** Time goes on. *)
Lemma turn_time `{NativeEndian} K es n listen_fd shutdown fuel fd revents rs w w' :
  conns_ok listen_fd w ->
  (if bool_decide (fd = listen_fd) then dispatch_listen K es n listen_fd shutdown fuel revents w
   else dispatch_conn K fuel fd revents rs w) = Some w' -> time w <= time w'.
Proof.
  intros Hw Hturn. assert (Hs : served K listen_fd (time w) w).
  { split; [done|]. intros _ c Hc. by destruct (co_conn listen_fd w Hw listen_fd c Hc). }
  case_bool_decide; [eapply dispatch_listen_served|eapply dispatch_conn_served]; eauto.
Qed.

Section served_list.
Context `{NativeEndian} (K : kernel) (es n : nat) (listen_fd : Z) (shutdown : nat -> bool).
Context (fd : Z) (since : nat).
Hypothesis HK : kernel_ok K es n.
Abbreviation served := (served K fd since).

(** The whole loop over [pfds]. *)
Lemma dispatch_list_served N pfds revents rs c w w' :
  worker_ok listen_fd shutdown w -> expected listen_fd pfds w -> (fd, revents, rs) ∈ pfds ->
  conns w !! fd = Some c -> since <= time w ->
  (sends c -> LibcQueue.has_event LibcQueue.POLLOUT revents = true) ->
  (forall fuel, N <= fuel -> dispatch_all K es n listen_fd shutdown fuel pfds w = Some w') -> served w'.
Proof.
  intros Hok Hexp Hin Hc Hk Hout.
  assert (Hne : fd <> listen_fd) by (by destruct (co_conn listen_fd w (proj1 Hok) fd c Hc)).
  revert N w Hok Hexp Hc Hk. induction pfds as [|[[fd' rev'] rs'] pfds IH]; intros N w Hok Hexp Hc Hk Hrun;
    [by apply not_elem_of_nil in Hin|].
  destruct (dispatch_head K es n listen_fd shutdown HK fd' rev' rs' pfds w Hok Hexp)
    as (N1 & w1 & Hturn & (Hok1 & _ & Hkeep) & Hexp1).
  assert (Hrest : forall fuel, max N N1 <= fuel -> dispatch_all K es n listen_fd shutdown fuel pfds w1 = Some w').
  { intros fuel Hfuel. specialize (Hrun fuel ltac:(lia)). simpl in Hrun. by rewrite Hturn in Hrun by lia. }
  destruct (decide (fd' = fd)) as [->|Hother].
  - assert (Hhead : rev' = revents /\ rs' = rs).
    { apply list.elem_of_cons in Hin as [[= -> ->]|Hin]; [done|]. destruct Hexp as [Hnd _]. simpl in Hnd.
      apply list.NoDup_cons in Hnd as [Hni _]. exfalso. apply Hni. apply list_elem_of_fmap. exists (fd, revents).
      split; [done|]. apply list_elem_of_fmap. by exists (fd, revents, rs). }
    destruct Hhead as [-> ->]. rewrite bool_decide_false in Hturn by done.
    assert (Hs : served w1).
    { destruct (proj2 Hexp fd revents rs ltac:(left)) as [?|(c' & Hc' & Hrs)]; [done|]. simplify_eq.
      by apply (dispatch_this_served K es n listen_fd shutdown fd since HK N1 revents rs c w). }
    eapply dispatch_all_served; [exact (Hrest _ (le_n _))| |exact Hs].
    destruct Hexp as [Hnd _]. simpl in Hnd. by apply list.NoDup_cons in Hnd as [? _].
  - apply list.elem_of_cons in Hin as [[= -> -> ->]|Hin]; [done|].
    apply (IH Hin (max N N1) w1 Hok1 Hexp1); [apply Hkeep; congruence| |exact Hrest].
    etrans; [exact Hk|]. apply (turn_time K es n listen_fd shutdown N1 fd' rev' rs' w); [apply Hok|]. by apply Hturn.
Qed.
End served_list.

(** C5: no wakeup is lost. Whenever a worker polls, from its start and after any answers
    of the kernel, the table is exactly what its coroutines wait for: the listening socket
    while [accept_loop] runs, which it does unless an accept failed with the shutdown flag
    set; the socket of every connection, for reading, into its stream; and for writing
    exactly when a response waits to be sent. And nothing else can be waited for: a
    connection in its loop is armed on a stream with nothing to give, one that drains has
    a response to send, and so has one with any handler, the lock's queue included. *)
Theorem worker_no_lost_wakeup `{NativeEndian} (K : kernel) (es n : nat) (listen_fd : Z)
    (shutdown : nat -> bool) (w : worker) :
  kernel_ok K es n -> polls K es n listen_fd shutdown w ->
  (forall fd ev, (fd, ev) ∈ LibcQueue.poll_set (queue w) <->
     (fd = listen_fd /\ is_Some (accepting w) /\ ev = LibcQueue.POLLIN) \/
     exists c, conns w !! fd = Some c /\
       ((sends c /\ ev = Z.lor LibcQueue.POLLIN LibcQueue.POLLOUT) \/ (~ sends c /\ ev = LibcQueue.POLLIN))) /\
  (accepting w = None -> exists k, shutdown k = true) /\
  forall fd c, conns w !! fd = Some c ->
    LibcQueue.ops (LibcQueue.entry fd (queue w)) = stream_op c :: (awaiting c).*1 /\
    (handlers (ss_pool (sess c)) <> ∅ -> sends c) /\
    match ss_pc (sess c) with
    | CHeader | CBody _ _ =>
        Libc.waiter (ss_stream (sess c)) = Some me /\ Libc.something (ss_stream (sess c)) = false
    | CWait => sends c
    | _ => False
    end.
Proof.
  intros HK Hok%(polls_ok K es n listen_fd shutdown HK). split; [|split].
  - intros fd ev. exact (worker_polled listen_fd shutdown w fd ev Hok).
  - apply (worker_stopped listen_fd shutdown w Hok).
  - intros fd c Hc. destruct Hok as (Hw & _).
    destruct (co_conn listen_fd w Hw fd c Hc) as (_ & Hgone & Hg). split_and!.
    + pose proof Hg as (_ & _ & [Hr Hwr]). simpl in *. rewrite Hgone in Hr. unfold LibcQueue.ops. by rewrite Hr, Hwr.
    + intros (id & h & Hid)%map_choose. by eapply busy_sends.
    + by eapply conn_waits.
Qed.

(** C4: a quiet connection is one that was served. Whenever a worker polls, a connection
    with no response waiting for its socket has read every complete request it received,
    has no handler left, and each of those requests was answered once, with the response it
    is owed, unless its buffer could not be allocated or its file operation threw something
    else than a [system_error]; and its socket took every response, in the order they were
    begun, whole unless its send failed. *)
Theorem worker_answers `{NativeEndian} (K : kernel) (es n : nat) (listen_fd : Z)
    (shutdown : nat -> bool) (w : worker) (fd : Z) (c : conn) :
  kernel_ok K es n -> polls K es n listen_fd shutdown w -> conns w !! fd = Some c -> ~ sends c ->
  let p := ss_pool (sess c) in
  spawned p = parse (got c) /\ handlers p = ∅ /\
  (forall id req, spawned p !! id = Some req ->
     let ios := of_id id (io_log p) in
     (exists msg, of_id id (begun p) = [msg] /\ answers req ios msg) \/
     (of_id id (begun p) = [] /\ dropped (memory c) id req ios)) /\
  exists parts, wire p = mjoin parts /\
    Forall2 (fun '(id, msg) part => part = msg \/ (id ∈ failed p /\ part `prefix_of` msg)) (begun p) parts.
Proof.
  intros HK (Hw & _)%(polls_ok K es n listen_fd shutdown HK) Hc Hquiet.
  destruct (co_conn listen_fd w Hw fd c Hc) as (_ & Hgone & Hg). by apply (quiet_answers fd c _ _ Hg Hgone).
Qed.

(** C8: what a worker does is what the separate models say. Whenever it polls: its
    accepts, its connections and the descriptors it closed are those of [ServerMain]'s
    worker after some events; each of its connections is a [Session] over the libc stream,
    in a state that [Session] reaches, with the bytes it received; and for whatever [poll]
    returns, what [step] does to the table is a step of [LibcQueue], on reactions of the
    operations to the very descriptors polled. *)
Theorem worker_refines `{NativeEndian} (K : kernel) (es n : nat) (listen_fd : Z)
    (shutdown : nat -> bool) (w : worker) :
  kernel_ok K es n -> polls K es n listen_fd shutdown w ->
  (exists evs,
     let a := ServerMain.worker_run evs (ServerMain.Worker true [] [] false) in
     ServerMain.accepting a = bool_decide (is_Some (accepting w)) /\
     ServerMain.conns a ≡ₚ (map_to_list (conns w)).*1 /\
     ServerMain.closed a = closed w /\ ServerMain.terminated a = false) /\
  (forall fd c, conns w !! fd = Some c ->
     exists st recv, Libc.inv st /\ Libc.waiter st = None /\ got c = Libc.queue st ++ recv /\
       reach (memory c) (session_init st) recv (sess c)) /\
  forall p r, polled_ok p w -> ends_in (fun fuel => step K es n listen_fd shutdown fuel p w) r ->
    exists p', reacts p p' /\ LibcQueue.poll_ok p' (queue w) /\
      LibcQueue.step p' (queue w) = match r with Ok w' => Ok (queue w') | Throw e => Throw e end.
Proof.
  intros HK Hok%(polls_ok K es n listen_fd shutdown HK). pose proof Hok as (Hw & (evs & _ & Htr) & _).
  split_and!.
  - by exists evs.
  - intros fd c Hc. destruct (co_conn listen_fd w Hw fd c Hc) as (_ & _ & [_ Hr] & _). exact Hr.
  - intros p r Hp Hr. destruct (worker_step_ok K es n listen_fd shutdown HK p w Hok Hp) as (N & r' & p' & Hrun & _ & Hstep).
    rewrite (ends_in_unique _ _ _ Hr (ex_intro _ N Hrun)). by exists p'.
Qed.

(** C6: the thread always comes back to [poll]. Spawning [accept_loop] ends, and so does
    [step], whatever [poll] returned: the resumed coroutines, those they resume in turn,
    the accepts and the loop over the write queue all run to a suspension; and [step]
    throws nothing but an error of [poll] other than [EINTR]. *)
Theorem worker_step_returns `{NativeEndian} (K : kernel) (es n : nat) (listen_fd : Z)
    (shutdown : nat -> bool) :
  kernel_ok K es n ->
  (exists w, ends_in (start K es n listen_fd shutdown) w) /\
  forall w p, polls K es n listen_fd shutdown w -> polled_ok p w ->
    exists r, ends_in (fun fuel => step K es n listen_fd shutdown fuel p w) r /\
      match p, r with
      | PollError e, Ok w' => e = EINTR /\ w' = w
      | PollError e, Throw x => e <> EINTR /\ x = system_error e
      | _, r => exists w', r = Ok w' /\ polls K es n listen_fd shutdown w'
      end.
Proof.
  intros HK. split.
  - destruct (start_ok K es n listen_fd shutdown HK) as (N & w & Hrun & _). exists w. by exists N.
  - intros w p Hw Hp.
    destruct (worker_step_ok K es n listen_fd shutdown HK p w (polls_ok K es n listen_fd shutdown HK w Hw) Hp)
      as (N & r & p' & Hrun & _). exists r. assert (Hends : ends_in (fun fuel => step K es n listen_fd shutdown fuel p w) r)
      by (by exists N). split; [done|].
    assert (Hnext : forall w', r = Ok w' -> polls K es n listen_fd shutdown w')
      by (intros w' ->; by eapply polls_step).
    pose proof (Hrun N ltac:(lia)) as Hr. destruct p as [e| |pfds]; simpl in Hr.
    + case_bool_decide; by simplify_eq.
    + destruct r; simplify_eq. eauto.
    + destruct (dispatch_all K es n listen_fd shutdown N pfds w); simplify_eq/=. eauto.
Qed.

(** C31: a worker that exits while a quiet connection is open has no defined behaviour.
    Whenever a worker polls, and so when it leaves its loop: cancelling the stream of a
    connection with no response waiting for its socket makes [handle_connection] return,
    and the stream takes itself off the table; and this, when [~Queue] gets to the
    descriptor of the connection, leaves its loop on an element that was erased. *)
Theorem worker_exit_undefined `{NativeEndian} (K : kernel) (es n : nat) (listen_fd : Z)
    (shutdown : nat -> bool) (w : worker) (fd : Z) (c : conn) :
  kernel_ok K es n -> polls K es n listen_fd shutdown w -> conns w !! fd = Some c -> ~ sends c ->
  let calls := [LibcQueue.ClearRead fd (stream_op c)] in
  let q := LibcQueue.log (LibcQueue.Cancelled (stream_op c)) (queue w) in
  (exists m', ends_in (fun fuel => cancel_read (k_send K fd) (k_file K) (k_address K) fd fuel
       (Machine c q (time w))) m' /\ gone (cn m') = true /\ table m' = LibcQueue.run_calls calls q) /\
  (forall q' rs, LibcQueue.fds q' !! fd = LibcQueue.fds (queue w) !! fd ->
     LibcQueue.destroy_fd fd (calls :: rs) (LibcQueue.entry fd q') q' = None).
Proof.
  intros HK (Hw & _)%(polls_ok K es n listen_fd shutdown HK) Hc Hquiet calls q.
  destruct (co_conn listen_fd w Hw fd c Hc) as (_ & Hgone & Hg). split.
  - destruct (quiet_cancel K fd c q (time w) Hg Hgone Hquiet) as (m' & Hrun & Hm' & Ht).
    exists m'. split; [by exists 1|done].
  - intros q' rs Hq'. destruct (sends_awaiting fd c _ _ Hg) as [[? _]|[_ Ha]]; [done|].
    pose proof Hg as (_ & _ & [Hro Hwq]). simpl in *. rewrite Hgone, Ha in *.
    unfold LibcQueue.entry in *. rewrite <- Hq' in *.
    destruct (LibcQueue.fds q' !! fd) as [[ro gen wq]|] eqn:Hst; simpl in *; [|done]. subst.
    by apply LibcQueue.destroy_fd_clears.
Qed.

(** C7: nothing waits longer than its socket. When [poll] reports a connection and
    nothing that is sent to its socket would block from then on, and if a response waits
    the socket is reported writable, then at the end of [step] the connection is closed or
    quiet: everything it received is answered, and all of it is sent or has failed. *)
Theorem worker_serves `{NativeEndian} (K : kernel) (es n : nat) (listen_fd : Z)
    (shutdown : nat -> bool) (w w' : worker) (pfds : list (Z * Z * list recv_result))
    (fd revents : Z) (rs : list recv_result) (c : conn) :
  kernel_ok K es n -> polls K es n listen_fd shutdown w -> polled_ok (PollReady pfds) w ->
  (fd, revents, rs) ∈ pfds -> conns w !! fd = Some c ->
  (forall k iov, time w <= k -> k_send K fd k iov <> Errno EAGAIN) ->
  (sends c -> LibcQueue.has_event LibcQueue.POLLOUT revents = true) ->
  ends_in (fun fuel => step K es n listen_fd shutdown fuel (PollReady pfds) w) (Ok w') ->
  match conns w' !! fd with
  | Some c' => ~ sends c' /\ spawned (ss_pool (sess c')) = parse (got c') /\ handlers (ss_pool (sess c')) = ∅
  | None => True
  end.
Proof.
  intros HK Hw Hp Hin Hc Hflows Hout Hends.
  pose proof (polls_ok K es n listen_fd shutdown HK w Hw) as Hok.
  assert (Hok' : worker_ok listen_fd shutdown w')
    by (apply (polls_ok K es n listen_fd shutdown HK); by eapply polls_step).
  destruct Hends as [N Hends]. assert (Hs : served K fd (time w) w').
  { apply (dispatch_list_served K es n listen_fd shutdown fd (time w) HK N pfds revents rs c w w'); try done.
    - by apply (polled_expected listen_fd shutdown).
    - intros fuel Hfuel. specialize (Hends fuel Hfuel). simpl in Hends.
      destruct (dispatch_all _ _ _ _ _ _ _ _); by simplify_eq/=. }
  destruct (conns w' !! fd) as [c'|] eqn:Hc'; [|done].
  destruct (co_conn listen_fd w' (proj1 Hok') fd c' Hc') as (_ & Hgone & Hg).
  assert (Hquiet : ~ sends c').
  { destruct (sends_awaiting fd c' _ _ Hg) as [[_ [op Ha]]|[? _]]; [|done].
    by rewrite (proj2 Hs Hflows c' Hc') in Ha. }
  destruct (quiet_answers fd c' _ _ Hg Hgone Hquiet) as (? & ? & _). by split_and!.
Qed.
