(* ===== verification/LibcClient.v ===== *)
(** * A client on the poll-driven queue

    [Client] says what the coroutines of a client do between suspensions, in any order.
    Here they run as [easyio] runs them on the libc backend, on the one thread of the
    application: [resume] is a call, and so are [spawn], [unlock] and a callback, from
    which the application may call [pread] and [pwrite] again. A stack holds who is in the
    middle of what, the sends that wait are in the table of [LibcQueue], and [step] is the
    [step] of [easybd_client_wait]. Every turn is an event of [Client], with calls into the
    queue. *)

From S2P Require Import Prelude Protocol Sync RecvStream FramedReader LibcRecvStream Queue Client LibcEntry.
From S2P Require LibcQueue SendLock.

Open Scope nat_scope.

(** What runs on the thread of the application. *)
Inductive coroutine :=
  | Main                (** the application, in [easybd_client_pread] or [_pwrite] *)
  | Reader              (** [reader_loop] *)
  | Sender (id : nat).  (** [send_request] *)

#[export] Instance coroutine_eq_dec : EqDecision coroutine.
Proof. solve_decision. Defined.

(** A call of the application. *)
Inductive app_call :=
  | CallRead (b : nat) (size offset : Z) (k : nat)
  | CallWrite (data : bytes) (offset : Z) (k : nat).

(** A coroutine on the stack, with what is left of the callback it is in. *)
Definition frame := (coroutine * list app_call)%type.

(** A client: its coroutines, the address of the stream of [reader_loop], the awaiters of
    the sends that wait, each with the [send_request] it resumes, and the table of its
    queue. [clock] counts its system calls; [got] are the bytes received, for the
    specification. *)
Record machine := Machine {
  cl : client Libc.t;
  stream_op : nat;
  awaiting : list (nat * nat);
  gone : bool;                  (** the locals of [reader_loop] were destroyed *)
  table : LibcQueue.t;
  clock : nat;
  got : bytes;
}.

Section machine.
Context `{NativeEndian}.

(** The kernel: what [::send] or [::sendmsg] do with the buffers offered, given everything
    that happened; the address of a new awaiter; and the application: what it calls from a
    callback. *)
Context (sys_send : machine -> list bytes -> sysret).
Context (address : nat -> nat).
Context (app : client Libc.t -> callback -> list app_call).
Context (fd : Z).

#[local] Existing Instance Libc.stream_laws.

(** The coroutines of the client take one step. *)
Definition act (e : event) (m : machine) : machine :=
  let '(Machine c op aw g q k bs) := m in
  Machine (Client.apply e c) op aw g q k (bs ++ received e c).

Definition tick (m : machine) : machine :=
  let '(Machine c op aw g q k bs) := m in Machine c op aw g q (S k) bs.

Definition with_awaiting (aw : list (nat * nat)) (m : machine) : machine :=
  let '(Machine c op _ g q k bs) := m in Machine c op aw g q k bs.

Definition with_table (q : LibcQueue.t) (m : machine) : machine :=
  let '(Machine c op aw g _ k bs) := m in Machine c op aw g q k bs.

(** [await_suspend] of the awaiter of [send_request] number [id]. *)
Definition suspend_send (id : nat) (m : machine) : machine :=
  let op := address (clock m) in
  with_table (LibcQueue.push_write_op fd op (table m)) (with_awaiting (awaiting m ++ [(op, id)]) m).

(** [~RecvStreamImpl] among the locals of a [reader_loop] that returned. *)
Definition leave (m : machine) : machine :=
  let '(Machine c op aw _ q k bs) := m in
  Machine c op aw true (LibcQueue.clear_read_op fd op q) k bs.

(** The result of a send, as [Queue::send] and [Queue::sendmsg] pass it on. *)
Definition send_event (id : nat) (res : Z) : event :=
  match LibcQueue.op_end res with
  | Ok n => Accept id (Z.to_nat n)
  | Throw _ => SendFails id
  end.

Definition call_event (a : app_call) : event :=
  match a with
  | CallRead b size offset k => Pread b size offset k
  | CallWrite data offset k => Pwrite data offset k
  end.

(** What the callback made between [m] and [m'] calls, if one was made. *)
Definition called (m m' : machine) : list app_call :=
  mjoin (app (cl m') <$> drop (length (calls (cl m))) (calls (cl m'))).

(** The [send_request] spawned between [m] and [m']. *)
Definition started (m m' : machine) : list frame :=
  if bool_decide (length (issued (cl m)) < length (issued (cl m'))) then [(Sender (length (issued (cl m))), [])] else [].

(** The coroutine on top of the stack goes on: what is there in its place. *)
Definition resume (co : coroutine) (m : machine) : list frame * machine :=
  match co with
  | Main => ([], m)
  | Reader =>
      match pc (cl m) with
      | RTop => let m' := act Run m in ([(Reader, called m m')], m')
      | RFailing _ => let m' := act FailNext m in ([(Reader, called m m')], m')
      | REnd => ([], leave m)
      | _ => ([], m)
      end
  | Sender id =>
      match SendLock.procs (out (cl m)) !! id with
      | Some (SendLock.Sends f) =>
          match LibcQueue.try_op (sys_send m (offer f)) with
          | None => ([], suspend_send id (tick m))
          | Some res => let m' := act (send_event id res) (tick m) in ([(Sender id, called m m')], m')
          end
      | Some SendLock.Leaves =>
          let woken := (Mutex.guard_drop true (SendLock.mtx (out (cl m)))).1 in
          ((fun h => (Sender h, [])) <$> option_list woken, act (Leave id) m)
      | _ => ([], m)
      end
  end.

(** A callback makes its next call; then its coroutine goes on. *)
Definition turn (f : frame) (m : machine) : list frame * machine :=
  match f.2 with
  | a :: cs => let m' := act (call_event a) m in (started m m' ++ [(f.1, cs)], m')
  | [] => resume f.1 m
  end.

Fixpoint run (fuel : nat) (stack : list frame) (m : machine) : option machine :=
  match stack with
  | [] => Some m
  | f :: stack =>
      match fuel with
      | O => None
      | S fuel => let '(fs, m') := turn f m in run fuel (fs ++ stack) m'
      end
  end.

(** [on_ready] of the stream: [rs] is what [::recv] returns. *)
Definition read_ready (fuel : nat) (rs : list recv_result) (m : machine) : option machine :=
  let m' := act (Receive (Libc.EvReady rs : rs_event)) m in
  match (Libc.on_ready rs (stream (cl m))).2 with
  | None => Some m'
  | Some _ => run fuel [(Reader, called m m')] m'
  end.

(** [on_ready] of the awaiter at [op]: its result; [None] also when there is none. *)
Definition write_ready (fuel op : nat) (m : machine) : option (bool * machine) :=
  match list_find (fun p => p.1 = op) (awaiting m) with
  | Some (i, (_, id)) =>
      match SendLock.procs (out (cl m)) !! id with
      | Some (SendLock.Sends f) =>
          match LibcQueue.try_op (sys_send m (offer f)) with
          | None => Some (false, with_table (LibcQueue.log (LibcQueue.Ready op false) (table m)) (tick m))
          | Some res =>
              let m := with_table (LibcQueue.log (LibcQueue.Ready op true) (table m)) (tick m) in
              let m := with_awaiting (delete i (awaiting m)) m in
              let m' := act (send_event id res) m in
              m' ← run fuel [(Sender id, called m m')] m'; Some (true, m')
          end
      | _ => None
      end
  | None => None
  end.

(** The [for (;;)] of the second block of [Queue::step]. *)
Fixpoint write_turns (n fuel : nat) (m : machine) : option machine :=
  match LibcQueue.write_queue (LibcQueue.entry fd (table m)) with
  | [] => Some m
  | op :: _ =>
      match n with
      | O => None
      | S n =>
          r ← write_ready fuel op m;
          let '(finished, m') := r in
          if finished : bool then write_turns n fuel (with_table (LibcQueue.pop_write fd op (table m')) m')
          else Some m'
      end
  end.

(** The first block. *)
Definition read_turn (fuel : nat) (rs : list recv_result) (m : machine) : option machine :=
  match LibcQueue.read_op (LibcQueue.entry fd (table m)) with
  | None => Some m
  | Some op =>
      if bool_decide (op = stream_op m)
      then read_ready fuel rs (with_table (LibcQueue.log (LibcQueue.Ready op false) (table m)) m)
      else None
  end.

(** The turn of the loop over [pfds] for the client's descriptor. *)
Definition dispatch (fuel : nat) (revents : Z) (rs : list recv_result) (m : machine) : option machine :=
  if bool_decide (revents = 0%Z) then Some m
  else
    m ← (if LibcQueue.has_event LibcQueue.POLLIN revents then read_turn fuel rs m else Some m);
    m ← (if LibcQueue.has_event LibcQueue.POLLOUT revents then write_turns fuel fuel m else Some m);
    Some (with_table (LibcQueue.drop_empty fd (table m)) m).

(** What [poll] returns for the one descriptor, with what the socket then reads. *)
Inductive polled :=
  | PollError (e : Z)
  | PollTimeout
  | PollReady (revents : Z) (rs : list recv_result).

(** [Queue::step]. *)
Definition step (fuel : nat) (p : polled) (m : machine) : option (outcome machine) :=
  match p with
  | PollError e => Some (if bool_decide (e = EINTR) then Ok m else Throw (system_error e))
  | PollTimeout => Some (Ok m)
  | PollReady revents rs => m ← dispatch fuel revents rs m; Some (Ok m)
  end.

(** [static_cast<int>]. *)
Definition to_int (z : Z) : Z :=
  let u := (z `mod` 2 ^ 32)%Z in if bool_decide (u < 2 ^ 31)%Z then u else (u - 2 ^ 32)%Z.

(** [Client::wait]: its result, and the client after it. *)
Definition client_wait (fuel : nat) (p : polled) (m : machine) : option (outcome (Z * machine)) :=
  let before := total_dispatched (cl m) in
  r ← step fuel p m;
  Some (match r with
        | Ok m' => Ok (to_int (u64 (total_dispatched (cl m') - before)), m')
        | Throw e => Throw e
        end).

(** The application calls [pread] or [pwrite], outside of [wait]: the result, and the
    client after it. *)
Definition call_result (a : app_call) (m : machine) : Z :=
  match a with
  | CallRead b size offset k => (pread b size offset k (cl m)).1
  | CallWrite data offset k => (pwrite data offset k (cl m)).1
  end.

Definition client_call (fuel : nat) (a : app_call) (m : machine) : option (Z * machine) :=
  m' ← run fuel [(Main, [a])] m; Some (call_result a m, m').

(** [spawn(reader_loop())], at the end of the constructor: the stream is registered. *)
Definition spawn_reader (sync : bool) (buffers : gmap nat bytes) (fuel op : nat) (st : Libc.t) : option machine :=
  run fuel [(Reader, [])]
    (Machine (client_init sync buffers st) op [] false (LibcQueue.set_read_op fd op LibcQueue.init) 0 (Libc.queue st)).
End machine.

(** ** What an event changes *)

Section frame.
Context `{NativeEndian}.
#[local] Existing Instance Libc.stream_laws.
Implicit Types c : client Libc.t.

(** The reader went on: it made one callback, or got out of its loop, or waits. *)
Definition reads c c' : Prop :=
  out c' = out c /\ issued c' = issued c /\
  match pc c' with
  | RTop => exists ca, calls c' = calls c ++ [ca] /\ is_Some (ca_resp ca)
  | RFailing _ => calls c' = calls c /\ pending c' = ∅
  | REnd => False
  | _ => calls c' = calls c
  end.

Lemma on_body_reads resp pd res c : reads c (on_body resp pd res c).
Proof.
  destruct res as [[[body|e| |] r] st]; simpl; try done. case_bool_decide; [|done].
  split_and!; try done. simpl. by eexists _.
Qed.

Lemma on_header_reads res c : reads c (on_header res c).
Proof.
  destruct res as [[[hdr|e| |] r] st]; simpl; try done.
  destruct (pending c !! _) as [pd|]; [|done].
  destruct (is_read pd && _); [apply on_body_reads|]. split_and!; try done. by eexists _.
Qed.

Lemma reader_run_reads c : pc c = RTop -> reads c (reader_run c).
Proof. intros Hpc. unfold reader_run. rewrite Hpc. apply on_header_reads. Qed.

(** A completion of the stream: the same when it wakes the reader, nothing otherwise. *)
Lemma receive_reads (ev : rs_event) c :
  pc c = RHeader \/ (exists resp pd, pc c = RBody resp pd) ->
  match (rs_complete ev (stream c)).2 with
  | Some _ => reads c (receive ev c)
  | None => pc (receive ev c) = pc c /\ out (receive ev c) = out c /\
      issued (receive ev c) = issued c /\ calls (receive ev c) = calls c
  end.
Proof.
  intros Hpc. unfold receive. destruct (rs_complete ev (stream c)) as [st [h|]]; simpl; [|done].
  unfold reader_resume. simpl.
  destruct Hpc as [->|(resp & pd & ->)];
    [exact (on_header_reads _ (set_stream st (reader c) _ c))|exact (on_body_reads _ _ _ (set_stream st (reader c) _ c))].
Qed.

(** One turn of [fail_all_pending]. *)
Lemma fail_next_fails l c :
  pc c = RFailing l ->
  out (fail_next c) = out c /\ issued (fail_next c) = issued c /\ pending (fail_next c) = pending c /\
  match l with
  | [] => pc (fail_next c) = REnd /\ calls (fail_next c) = calls c
  | _ :: l => pc (fail_next c) = RFailing l /\
      exists ca, calls (fail_next c) = calls c ++ [ca] /\ ca_resp ca = None
  end.
Proof. intros Hpc. unfold fail_next. rewrite Hpc. destruct l as [|[cid pd] l]; simpl; [done|]. split_and!; eauto. Qed.

(** Only [send_request] number [id] moved, and it is still there. *)
Definition moves (id : nat) (l l' : SendLock.t) : Prop :=
  is_Some (SendLock.procs l' !! id) /\
  forall i, i <> id -> SendLock.procs l' !! i = SendLock.procs l !! i.

Lemma procs_insert_moves id p l l' :
  SendLock.procs l' = <[id := p]> (SendLock.procs l) -> moves id l l'.
Proof.
  intros Hl. unfold moves. rewrite Hl. split; [rewrite lookup_insert_eq; by eexists|].
  intros i Hi. by rewrite lookup_insert_ne.
Qed.

(** A send ends: it may be the next, or the last; when it fails, its request gets its
    callback, unless it had one. *)
Lemma send_failed_fails id f c :
  SendLock.procs (out c) !! id = Some (SendLock.Sends f) ->
  let c' := send_failed id c in
  SendLock.procs (out c') = <[id := SendLock.Leaves]> (SendLock.procs (out c)) /\
  issued c' = issued c /\ pc c' = pc c /\ stream c' = stream c /\ reader c' = reader c /\
  (pending c' = pending c \/ exists cid, pending c' = delete cid (pending c)) /\
  (calls c' = calls c \/ exists ca, calls c' = calls c ++ [ca] /\ ca_resp ca = None).
Proof.
  intros Hid. simpl. unfold send_failed, SendLock.fail. rewrite Hid.
  destruct (issued _ !! id) as [req|]; simpl; [|split_and!; auto].
  destruct (pending c !! _) as [pd|]; simpl; split_and!; eauto.
Qed.

(** The lock is handed over: the sender that leaves is gone, the next one sends. *)
Lemma leave_moves ms q id l :
  SendLock.inv ms l -> SendLock.lock_inv q l -> SendLock.procs l !! id = Some SendLock.Leaves ->
  match (Mutex.guard_drop true (SendLock.mtx l)).1 with
  | None => SendLock.procs (SendLock.leave id l) = delete id (SendLock.procs l)
  | Some h =>
      h <> id /\ exists m f, SendLock.procs l !! h = Some (SendLock.Waits m) /\
      SendLock.procs (SendLock.leave id l) = <[h := SendLock.Sends f]> (delete id (SendLock.procs l))  /\
      length (mjoin (offer f)) = length (SendLock.message_bytes m)
  end.
Proof.
  intros (Hne & (Hw & _) & _) Hl Hid. pose proof (SendLock.li_queue Hl id) as Hq. rewrite Hid in Hq.
  destruct q as [|i q]; [done|]. simpl in Hq. simplify_eq. cbn [Mutex.guard_drop].
  destruct (Mutex.rel_unlock _ _ (SendLock.li_mtx Hl) ltac:(done)) as [Hwk _].
  unfold SendLock.leave. rewrite Hid. cbn [Mutex.guard_drop].
  destruct (Mutex.unlock (SendLock.mtx l)) as [woken x]. simpl in Hwk |- *. subst woken.
  pose proof (proj1 (list.NoDup_cons _ _) (SendLock.li_nodup Hl)) as [Hni _].
  destruct q as [|h q]; simpl; [done|].
  assert (Hne' : h <> id) by (intros ->; apply Hni; left). split; [done|].
  pose proof (SendLock.li_queue Hl h) as Hqh. unfold SendLock.grant. simpl. rewrite lookup_delete_ne by done.
  destruct (SendLock.procs l !! h) as [[m|f| |]|] eqn:Hh; simpl in Hqh; try congruence; try done.
  - assert (Hm : SendLock.message_bytes m <> []) by (apply Hw in Hh; by apply (proj1 (Forall_lookup _ _) Hne h)).
    destruct (SendLock.call_send_waits m Hm) as (f & Hcall & _ & Hrest). exists m, f. split; [done|].
    unfold SendLock.begin_send. rewrite Hcall. split; [done|]. by rewrite <- Hrest.
  - exfalso. apply Hqh. right. left.
Qed.

(** [pread] and [pwrite]: refused, or a new [send_request], at the lock or in its send. *)
Lemma call_issues a ms c :
  SendLock.inv ms (out c) -> length ms = length (issued c) ->
  let c' := Client.apply (call_event a) c in
  pc c' = pc c /\ calls c' = calls c /\ stream c' = stream c /\ reader c' = reader c /\
  (c' = c \/
   length (issued c') = S (length (issued c)) /\
   SendLock.procs (out c) !! length (issued c) = None /\ moves (length (issued c)) (out c) (out c')).
Proof.
  intros (_ & (_ & Hd & _) & _) Hlen.
  assert (Hnone : SendLock.procs (out c) !! length (issued c) = None).
  { apply eq_None_not_Some. intros Hs%Hd. lia. }
  assert (Henter : forall m, moves (length (issued c)) (out c) (SendLock.enter (length (issued c)) m (out c))).
  { intros m. unfold SendLock.enter. destruct (Mutex.lock _ _) as [[] x]; by eapply procs_insert_moves. }
  destruct a as [b size offset k|data offset k]; simpl; unfold pread, pwrite; case_bool_decide; simpl;
    split_and!; auto; right; rewrite length_app; simpl; split_and!; auto; lia.
Qed.
End frame.

(** ** The stack *)

(** What the application may call: its buffers exist and hold [size] bytes. *)
Definition call_ok (buffers : gmap nat bytes) (a : app_call) : Prop :=
  match a with
  | CallRead b size offset _ =>
      (0 <= size < 2 ^ 64)%Z /\ (0 <= offset < 2 ^ 64)%Z /\
      exists m, buffers !! b = Some m /\ (size <= Z.of_nat (length m))%Z
  | CallWrite data offset _ => (0 <= offset < 2 ^ 64)%Z
  end.

(** The client is a [Client], and [got] is what it received. *)
Definition reached `{NativeEndian} (sync : bool) (buffers : gmap nat bytes) (m : machine) : Prop :=
  exists st recv, Libc.inv st /\ Libc.waiter st = None /\ got m = Libc.queue st ++ recv /\
    reach (H1 := Libc.stream_laws) (client_init sync buffers st) recv (cl m).

(** Where a coroutine can rest: the reader waits for its stream, or is gone, or wrote past
    a buffer and has no defined behaviour; a sender waits for the lock, or its send for the
    socket. *)
Definition reader_rests (m : machine) : Prop :=
  match pc (cl m) with
  | RHeader | RBody _ _ | ROverflow _ _ => True
  | REnd => gone m = true
  | _ => False
  end.

Definition sender_rests (m : machine) (id : nat) : Prop :=
  match SendLock.procs (out (cl m)) !! id with
  | Some (SendLock.Waits _) | None => True
  | Some (SendLock.Sends _) => exists op, awaiting m = [(op, id)]
  | _ => False
  end.

Definition rests (m : machine) (co : coroutine) : Prop :=
  match co with Main => True | Reader => reader_rests m | Sender id => sender_rests m id end.

(** A coroutine in a callback, or in the middle of the stack: the reader is back at the
    head of its loop, or in [fail_all_pending]; a sender is about to leave. *)
Definition below (m : machine) (co : coroutine) : Prop :=
  match co with
  | Main => True
  | Reader => match pc (cl m) with RTop | RFailing _ => True | _ => False end
  | Sender id => SendLock.procs (out (cl m)) !! id = Some SendLock.Leaves
  end.

(** The calls left to the callbacks on the stack. *)
Definition calls_left (stack : list frame) : nat := sum_list_with (fun f => length f.2) stack.

(** The requests that failed, with the connection, and had their callback; [retries] is
    how many calls the application makes at most from each of these callbacks, in order,
    and [retries_left] from those to come. *)
Definition failures (c : client Libc.t) : nat := length (filter (fun ca => ca_resp ca = None) (calls c)).

Definition retries_left (retries : list nat) (c : client Libc.t) : nat := sum_list (drop (failures c) retries).

Lemma retries_same retries c c' : calls c' = calls c -> retries_left retries c' = retries_left retries c.
Proof. intros Hc. unfold retries_left, failures. by rewrite Hc. Qed.

Lemma retries_answered retries c c' ca :
  calls c' = calls c ++ [ca] -> is_Some (ca_resp ca) -> retries_left retries c' = retries_left retries c.
Proof.
  intros Hc [r Hr]. unfold retries_left, failures. rewrite Hc, list.filter_app, filter_cons_False by congruence.
  by rewrite app_nil_r.
Qed.

Lemma retries_spent retries c c' ca :
  calls c' = calls c ++ [ca] -> ca_resp ca = None ->
  retries_left retries c' + default 0 (retries !! pred (failures c')) = retries_left retries c.
Proof.
  intros Hc Hr. unfold retries_left, failures. rewrite Hc, list.filter_app, filter_cons_True by done.
  rewrite length_app. simpl. rewrite Nat.add_1_r. simpl. generalize (length (filter (fun ca => ca_resp ca = None) (calls c))).
  clear. intros n. revert retries. induction n as [|n IH]; intros [|r l]; cbn [drop]; rewrite ?drop_0; try done.
  simpl. apply Nat.add_comm.
Qed.

Record running (buffers : gmap nat bytes) (retries : list nat) (stack : list frame) (m : machine) : Prop := {
  rn_nodup : NoDup stack.*1;
  rn_below f : f ∈ tail stack \/ (f ∈ stack /\ f.2 <> []) -> below m f.1;
  rn_bottom : Reader ∈ stack.*1 -> list.last stack.*1 = Some Reader;
  rn_live id : Sender id ∈ stack.*1 -> is_Some (SendLock.procs (out (cl m)) !! id);
  rn_rests co : co ∉ stack.*1 -> rests m co;
  rn_waits : awaiting m = [] \/ exists op id f, awaiting m = [(op, id)] /\ (Sender id ∉ stack.*1) /\
    SendLock.procs (out (cl m)) !! id = Some (SendLock.Sends f);
  rn_gone : gone m = true -> pc (cl m) = REnd;
  rn_calls : Forall (fun f => Forall (call_ok buffers) f.2) stack;
  rn_few : (Z.of_nat (length (issued (cl m)) + calls_left stack + retries_left retries (cl m)) < 2 ^ 64 - 1)%Z;
}.
Arguments rn_nodup {buffers retries stack m}.
Arguments rn_below {buffers retries stack m}.
Arguments rn_bottom {buffers retries stack m}.
Arguments rn_live {buffers retries stack m}.
Arguments rn_rests {buffers retries stack m}.
Arguments rn_waits {buffers retries stack m}.
Arguments rn_gone {buffers retries stack m}.
Arguments rn_calls {buffers retries stack m}.
Arguments rn_few {buffers retries stack m}.

Section stack.
Context `{NativeEndian} (sync : bool) (buffers : gmap nat bytes) (retries : list nat).
#[local] Existing Instance Libc.stream_laws.
Implicit Types (m : machine) (stack : list frame).

Abbreviation running := (running buffers retries).

Lemma client_reached_inv m :
  reached sync buffers m -> (Z.of_nat (length (issued (cl m))) < 2 ^ 64 - 1)%Z -> client_inv (got m) (cl m).
Proof. intros (st & recv & Hst & Hw & -> & Hr) Hn. exact (client_reach_ok _ _ st recv _ Hst Hw Hr Hn). Qed.

Lemma running_inv m stack : reached sync buffers m -> running stack m -> client_inv (got m) (cl m).
Proof. intros Hr Hrun. apply client_reached_inv; [done|]. pose proof (rn_few Hrun). lia. Qed.

(** Buffers keep their sizes. *)
Lemma reached_mem m b d :
  reached sync buffers m -> buffers !! b = Some d ->
  exists d', mem (cl m) !! b = Some d' /\ length d' = length d.
Proof.
  intros (st & recv & _ & _ & _ & Hr) Hb. induction Hr as [|recv' c e _ IH _]; [by exists d|].
  assert (Hbody : forall resp pd res (c0 : client Libc.t), mem c0 = mem c ->
    exists d', mem (on_body resp pd res c0) !! b = Some d' /\ length d' = length d).
  { intros resp pd [[[body|x| |] r] s] c0 Hc0; simpl; rewrite ?Hc0; try done.
    case_bool_decide as Hfit; simpl; rewrite ?Hc0; [|done]. destruct IH as (d' & Hd' & Hlen).
    unfold buffer in *. simpl in *. rewrite ?Hc0 in *. destruct (decide (buf pd = b)) as [<-|Hne].
    - rewrite lookup_insert_eq. rewrite Hd' in *. simpl in *. eexists. split; [done|].
      by rewrite length_memcpy_at.
    - rewrite lookup_insert_ne by done. by exists d'. }
  assert (Hhdr : forall res (c0 : client Libc.t), mem c0 = mem c ->
    exists d', mem (on_header res c0) !! b = Some d' /\ length d' = length d).
  { intros [[[hdr|x| |] r] s] c0 Hc0; simpl; rewrite ?Hc0; try done.
    destruct (pending c0 !! _) as [pd|]; simpl; rewrite ?Hc0; [|done].
    destruct (is_read pd && _); [by apply Hbody|]. simpl. by rewrite Hc0. }
  destruct e; simpl; try done.
  - unfold pread. by case_bool_decide.
  - unfold pwrite. by case_bool_decide.
  - unfold receive. destruct (rs_complete ev (stream c)) as [s [h|]]; [|done].
    unfold reader_resume. destruct (pc _); try done; [by apply Hhdr|by apply Hbody].
  - unfold reader_run. destruct (pc c); try done. by apply Hhdr.
  - unfold fail_next. by destruct (pc c) as [| | |[|[]]| | |].
  - unfold send_failed. repeat case_match; done.
Qed.

(** The clock and the table do not matter to the stack. *)
Lemma running_same stack m m' :
  running stack m -> cl m' = cl m -> awaiting m' = awaiting m -> gone m' = gone m -> running stack m'.
Proof.
  intros [Hnd Hb Hbot Hl Hre Hw Hg Hc Hf] Hcl Ha Hgo. split; rewrite ?Hcl, ?Ha, ?Hgo; auto.
  - intros f Hin. specialize (Hb f Hin). destruct f as [[] ?]; simpl in *; by rewrite ?Hcl.
  - intros co Hin. specialize (Hre co Hin).
    destruct co; simpl in *; unfold reader_rests, sender_rests in *; by rewrite ?Hcl, ?Ha, ?Hgo.
Qed.

(** Of the senders past the lock there is one. *)
Lemma holder_unique m stack i j p p' :
  reached sync buffers m -> running stack m ->
  SendLock.procs (out (cl m)) !! i = Some p -> SendLock.procs (out (cl m)) !! j = Some p' ->
  (forall msg, p <> SendLock.Waits msg) -> (forall msg, p' <> SendLock.Waits msg) -> i = j.
Proof.
  intros Hr Hrun Hi Hj Hp Hp'. destruct (running_inv m stack Hr Hrun) as (_ & (_ & _ & q & Hl & _) & _).
  pose proof (SendLock.li_queue Hl i) as Hqi. pose proof (SendLock.li_queue Hl j) as Hqj.
  rewrite Hi in Hqi. rewrite Hj in Hqj.
  destruct p as [msg| | |], p' as [msg'| | |]; simpl in *; try done; try congruence;
    try (by destruct (Hp msg)); by destruct (Hp' msg').
Qed.

(** The coroutine on top suspends, or ended. *)
Lemma client_running_pop co stack m : running ((co, []) :: stack) m -> rests m co -> running stack m.
Proof.
  intros [Hnd Hb Hbot Hl Hre Hw Hg Hc Hf] Hco. simpl in *. split; auto.
  - by apply list.NoDup_cons in Hnd as [_ ?].
  - intros f [Hin|[Hin Hne]]; apply Hb; left; [|done]. destruct stack; [done|]. by right.
  - intros Hin. specialize (Hbot ltac:(by right)). destruct stack; [by apply not_elem_of_nil in Hin|done].
  - intros id Hin. apply Hl. by right.
  - intros co' Hin. destruct (decide (co' = co)) as [->|]; [done|]. apply Hre. by rewrite not_elem_of_cons.
  - destruct Hw as [?|(op & id & f & Ha & Hin & Hid)]; [by left|right].
    exists op, id, f. split_and!; try done. by apply not_elem_of_cons in Hin as [_ ?].
  - by inversion Hc.
Qed.

(** What is outside the stack keeps its rest. *)
Lemma rests_same m m' co :
  rests m co -> (co = Reader -> pc (cl m') = pc (cl m) /\ gone m' = gone m) -> awaiting m' = awaiting m ->
  (forall id, co = Sender id -> SendLock.procs (out (cl m')) !! id = SendLock.procs (out (cl m)) !! id) ->
  rests m' co.
Proof.
  intros Hco Hpc Ha Hid. destruct co as [| |id]; simpl in *; [done|..].
  - unfold reader_rests in *. by destruct (Hpc eq_refl) as [-> ->].
  - unfold sender_rests in *. by rewrite (Hid id eq_refl), Ha.
Qed.

(** The reader is at the bottom: on top, it is alone. *)
Lemma reader_alone l stack m : running ((Reader, l) :: stack) m -> stack = [].
Proof.
  intros Hrun. pose proof (rn_nodup Hrun) as Hnd. pose proof (rn_bottom Hrun) as Hbot. simpl in *.
  apply list.NoDup_cons in Hnd as [Hni _]. specialize (Hbot ltac:(left)).
  destruct stack as [|f stack]; [done|]. exfalso. apply Hni. by apply last_Some_elem_of.
Qed.

(** The reader on top went on; in a callback only if it is back at the head of its loop, or
    in [fail_all_pending]. *)
Lemma running_reads l stack m m' :
  running ((Reader, []) :: stack) m -> out (cl m') = out (cl m) -> issued (cl m') = issued (cl m) ->
  awaiting m' = awaiting m -> gone m' = gone m -> pc (cl m) <> REnd ->
  (l <> [] -> below m' Reader) ->
  (Z.of_nat (length (issued (cl m)) + length l + retries_left retries (cl m')) < 2 ^ 64 - 1)%Z ->
  Forall (call_ok buffers) l ->
  running ((Reader, l) :: stack) m'.
Proof.
  intros Hrun Ho Hi Ha Hg Hpc Hl Hf Hok. pose proof (reader_alone _ _ _ Hrun) as ->.
  destruct Hrun as [_ _ _ _ Hre Hw Hgo _ _]. simpl in *.
  split; rewrite ?Ho, ?Ha, ?Hg; simpl; auto.
  - apply NoDup_singleton.
  - intros f [Hin|[Hin Hne]]; [by apply not_elem_of_nil in Hin|].
    apply list_elem_of_singleton in Hin as ->. simpl in *. by apply Hl.
  - by intros id ?%list_elem_of_singleton.
  - intros co Hin. apply (rests_same m); auto; [|by intros id ->; rewrite Ho].
    intros ->. exfalso. apply Hin. left.
  - by intros ?%Hgo.
  - unfold calls_left. simpl. rewrite Hi. lia.
Qed.

(** The sender on top takes a step of its own; in a callback only if its send failed. *)
Lemma client_running_moves id l stack m m' :
  running ((Sender id, []) :: stack) m -> moves id (out (cl m)) (out (cl m')) ->
  issued (cl m') = issued (cl m) -> awaiting m' = awaiting m -> gone m' = gone m ->
  pc (cl m') = pc (cl m) -> (l <> [] -> below m' (Sender id)) -> Forall (call_ok buffers) l ->
  length l + retries_left retries (cl m') <= retries_left retries (cl m) ->
  running ((Sender id, l) :: stack) m'.
Proof.
  intros [Hnd Hb Hbot Hl Hre Hw Hgo Hc Hf] [Hlive Hsame] Hi Ha Hg Hpc Hbl Hok Hleft. simpl in *.
  pose proof (proj1 (list.NoDup_cons _ _) Hnd) as [Hni _].
  assert (Hne : forall f, f ∈ stack -> f.1 <> Sender id).
  { intros f Hin Heq. apply Hni. rewrite <- Heq. apply list_elem_of_fmap. by exists f. }
  split; simpl; rewrite ?Ha, ?Hg, ?Hpc, ?Hi; auto.
  - intros f Hin. assert (Hst : f ∈ stack \/ f = (Sender id, l) /\ l <> []).
    { destruct Hin as [Hin|[Hin Hne']]; [by left|]. apply list.elem_of_cons in Hin as [->|?]; [by right|by left]. }
    destruct Hst as [Hst|[-> Hne']]; [|by apply Hbl].
    specialize (Hb f (or_introl Hst)). specialize (Hne f Hst).
    destruct f as [[| |i] cs]; simpl in *; [done|by rewrite Hpc|]. rewrite Hsame; [done|congruence].
  - intros i Hin. destruct (decide (i = id)) as [->|]; [done|]. rewrite Hsame by done. by apply Hl.
  - intros co Hin. apply (rests_same m); auto. intros i ->. apply Hsame. intros ->. apply Hin. left.
  - destruct Hw as [?|(op & i & f & Haw & Hin & Hid)]; [by left|right]. exists op, i, f.
    split_and!; try done. rewrite Hsame; [done|]. intros ->. apply Hin. left.
  - constructor; [done|]. by inversion Hc.
  - unfold calls_left in *. simpl in *. lia.
Qed.

(** A callback, or the application, makes a call that issues a request: its
    [send_request] runs on top. *)
Lemma running_issue co a cs stack m m' :
  let id := length (issued (cl m)) in
  running ((co, a :: cs) :: stack) m -> SendLock.procs (out (cl m)) !! id = None ->
  moves id (out (cl m)) (out (cl m')) -> length (issued (cl m')) = S (length (issued (cl m))) ->
  awaiting m' = awaiting m -> gone m' = gone m -> pc (cl m') = pc (cl m) -> calls (cl m') = calls (cl m) ->
  running ((Sender id, []) :: (co, cs) :: stack) m'.
Proof.
  intros id [Hnd Hb Hbot Hl Hre Hw Hgo Hc Hf] Hnone [Hlive Hsame] Hi Ha Hg Hpc Hca. simpl in *.
  assert (Hfresh : Sender id ∉ co :: stack.*1).
  { intros Hin. specialize (Hl id Hin). rewrite Hnone in Hl. by destruct Hl. }
  apply list.Forall_cons in Hc as [Hc1 Hc2]. apply list.Forall_cons in Hc1 as [_ Hc1].
  split; simpl; rewrite ?Ha, ?Hg, ?Hpc; auto.
  - by apply list.NoDup_cons.
  - intros f Hin. assert (Hst : f.1 ∈ co :: stack.*1 /\ below m f.1).
    { assert (Hf' : f = (co, cs) \/ f ∈ stack).
      { destruct Hin as [Hin|[Hin Hne]]; apply list.elem_of_cons in Hin as [->|Hin]; auto; [done|].
        by apply list.elem_of_cons in Hin. }
      destruct Hf' as [->|Hin']; simpl.
      - split; [left|]. apply (Hb (co, a :: cs)). right. split; [left|done].
      - split; [right; apply list_elem_of_fmap; by exists f|]. apply Hb. by left. }
    destruct Hst as [Hst Hbl]. destruct f as [[| |i] l]; simpl in *; [done|by rewrite Hpc|].
    rewrite Hsame; [done|]. intros ->. done.
  - intros Hin. apply list.elem_of_cons in Hin as [?|Hin]; [done|]. specialize (Hbot Hin).
    destruct (stack.*1); done.
  - intros i Hin. apply list.elem_of_cons in Hin as [[= ->]|Hin]; [done|].
    rewrite Hsame; [by apply Hl|]. intros ->. done.
  - intros co' Hin. apply not_elem_of_cons in Hin as [Hin1 Hin]. apply (rests_same m); auto.
    intros i ->. apply Hsame. congruence.
  - destruct Hw as [?|(op & i & f & Haw & Hin & Hid)]; [by left|right]. exists op, i, f.
    assert (i <> id) by (intros ->; congruence).
    split_and!; try done; [|by rewrite Hsame]. rewrite not_elem_of_cons. split; [congruence|done].
  - rewrite Hi, (retries_same retries _ _ Hca). unfold calls_left in *. simpl in *. lia.
Qed.

(** The call is refused. *)
Lemma running_refused co a cs stack m : running ((co, a :: cs) :: stack) m -> running ((co, cs) :: stack) m.
Proof.
  intros [Hnd Hb Hbot Hl Hre Hw Hgo Hc Hf]. simpl in *.
  apply list.Forall_cons in Hc as [Hc1 Hc2]. apply list.Forall_cons in Hc1 as [_ Hc1]. split; simpl; auto.
  - intros f [Hin|[Hin Hne]]; [by auto|]. apply list.elem_of_cons in Hin as [->|Hin]; [|by auto].
    apply (Hb (co, a :: cs)). right. split; [left|done].
  - unfold calls_left in *. simpl in *. lia.
Qed.

(** The lock is handed over: only the sender that goes and the next holder move, and
    the next holder was waiting, so it is not on the stack. *)
Lemma handed_over id stack m m' :
  reached sync buffers m -> running ((Sender id, []) :: stack) m ->
  SendLock.procs (out (cl m)) !! id = Some SendLock.Leaves ->
  out (cl m') = SendLock.leave id (out (cl m)) ->
  let h := (Mutex.guard_drop true (SendLock.mtx (out (cl m)))).1 in
  (forall i, i <> id -> h <> Some i -> SendLock.procs (out (cl m')) !! i = SendLock.procs (out (cl m)) !! i) /\
  SendLock.procs (out (cl m')) !! id = None /\
  match h with
  | Some h => Sender h ∉ (Sender id :: stack.*1) /\ is_Some (SendLock.procs (out (cl m')) !! h) /\
              exists msg, SendLock.procs (out (cl m)) !! h = Some (SendLock.Waits msg)
  | None => True
  end.
Proof.
  intros Hr Hrun Hid Ho. destruct (running_inv _ _ Hr Hrun) as (_ & Hinv & _).
  pose proof Hinv as (_ & _ & q & Hl0 & _).
  pose proof (leave_moves _ q id _ Hinv Hl0 Hid) as Hmv. rewrite <- Ho in Hmv.
  destruct ((Mutex.guard_drop true (SendLock.mtx (out (cl m)))).1) as [h|].
  - destruct Hmv as (Hne & msg & f & Hh & Hp & _). rewrite Hp. split_and!.
    + intros i Hi1 Hi2. by rewrite lookup_insert_ne, lookup_delete_ne by congruence.
    + rewrite lookup_insert_ne by done. apply lookup_delete_eq.
    + rewrite not_elem_of_cons. split; [congruence|]. intros (fr & Heq & Hin)%list_elem_of_fmap.
      pose proof (rn_below Hrun fr (or_introl Hin)) as Hbl. rewrite <- Heq in Hbl. simpl in Hbl. congruence.
    + rewrite lookup_insert_eq. by eexists.
    + by exists msg.
  - rewrite Hmv. split_and!; [|by rewrite lookup_delete_eq|done].
    intros i Hi1 _. by rewrite lookup_delete_ne.
Qed.

(** The next holder runs in place of the one that is gone. *)
Lemma client_running_release id stack m m' :
  reached sync buffers m -> running ((Sender id, []) :: stack) m ->
  SendLock.procs (out (cl m)) !! id = Some SendLock.Leaves ->
  out (cl m') = SendLock.leave id (out (cl m)) ->
  issued (cl m') = issued (cl m) -> awaiting m' = awaiting m -> gone m' = gone m ->
  pc (cl m') = pc (cl m) -> calls (cl m') = calls (cl m) ->
  running (((fun h => (Sender h, [])) <$> option_list (Mutex.guard_drop true (SendLock.mtx (out (cl m)))).1) ++ stack) m'.
Proof.
  intros Hr Hrun Hid Ho Hi Ha Hg Hpc Hca. pose proof (handed_over _ _ _ _ Hr Hrun Hid Ho) as Hmv.
  destruct Hmv as (Hsame & Hdel & Hh).
  set (h := (Mutex.guard_drop true (SendLock.mtx (out (cl m)))).1) in *. clearbody h.
  destruct Hrun as [Hnd Hb Hbot Hl Hre Hw Hgo Hc Hf]. simpl in *.
  pose proof (proj1 (list.NoDup_cons _ _) Hnd) as [Hni Hnd'].
  assert (Hst : forall i, Sender i ∈ stack.*1 -> SendLock.procs (out (cl m')) !! i = SendLock.procs (out (cl m)) !! i).
  { intros i Hin. apply Hsame; [by intros ->|]. intros ->. destruct Hh as [Hh _]. apply Hh. by right. }
  set (top := (fun h0 => (Sender h0, [])) <$> option_list h).
  assert (Htop : forall f, f ∈ top -> exists i, h = Some i /\ f = (Sender i, [])).
  { intros f. unfold top. destruct h as [i|]; simpl; [|by intros ?%not_elem_of_nil].
    intros ->%list_elem_of_singleton. by exists i. }
  assert (Htail : forall f, f ∈ stack -> below m f.1 /\ f.1 ∈ stack.*1).
  { intros f Hin. split; [apply Hb; by left|]. apply list_elem_of_fmap. by exists f. }
  split; rewrite ?Ha, ?Hg, ?Hpc, ?Hi; auto.
  - rewrite fmap_app. apply list.NoDup_app. split_and!; [|intros co (f & -> & (i & -> & ->)%Htop)%list_elem_of_fmap|done].
    + unfold top. destruct h; simpl; [apply NoDup_singleton|constructor].
    + simpl. intros Hin. destruct Hh as [Hh _]. apply Hh. by right.
  - intros f Hin. assert (Hin' : f ∈ stack).
    { destruct Hin as [Hin|[Hin Hne]].
      - unfold top in Hin. destruct h; simpl in Hin; [done|]. destruct stack; [done|by right].
      - apply elem_of_app in Hin as [(i & _ & ->)%Htop|?]; done. }
    destruct (Htail f Hin') as [Hbl Hfst]. destruct f as [[| |i] l]; simpl in *; [done|by rewrite Hpc|].
    by rewrite Hst.
  - intros Hin. rewrite fmap_app in *. apply elem_of_app in Hin as [(f & Hf' & (i & -> & ->)%Htop)%list_elem_of_fmap|Hin]; [done|].
    assert (Hbot' : list.last (Sender id :: stack.*1) = Some Reader) by (apply Hbot; by right).
    rewrite last_app. destruct (stack.*1) as [|co st]; [by apply not_elem_of_nil in Hin|].
    cbn [list.last] in Hbot'. by rewrite Hbot'.
  - intros i Hin. rewrite fmap_app in Hin.
    apply elem_of_app in Hin as [(f & Hf' & (j & -> & ->)%Htop)%list_elem_of_fmap|Hin].
    + simpl in Hf'. simplify_eq. apply Hh.
    + rewrite Hst by done. apply Hl. by right.
  - intros co Hin. rewrite fmap_app, not_elem_of_app in Hin. destruct Hin as [Hin1 Hin2].
    destruct (decide (co = Sender id)) as [->|Hne]; [simpl; unfold sender_rests; by rewrite Hdel|].
    apply (rests_same m); auto; [apply Hre; by rewrite not_elem_of_cons|].
    intros i ->. apply Hsame; [congruence|]. intros ->. apply Hin1. unfold top. simpl. left.
  - destruct Hw as [?|(op & i & f & Haw & Hin & Hii)]; [by left|right]. exists op, i, f.
    apply not_elem_of_cons in Hin as [Hin1 Hin2].
    assert (Hhi : h <> Some i) by (intros ->; destruct Hh as (_ & _ & msg & Hm); congruence).
    split_and!; try done; [|rewrite Hsame; [done|congruence|done]].
    rewrite fmap_app, not_elem_of_app. split; [|done]. intros (f' & Hf' & (j & -> & ->)%Htop)%list_elem_of_fmap.
    simpl in Hf'. congruence.
  - apply Forall_app. split; [|by inversion Hc]. apply list.Forall_forall. by intros f (i & _ & ->)%Htop.
  - rewrite (retries_same retries _ _ Hca). unfold calls_left in *. rewrite sum_list_with_app. simpl in Hf.
    unfold top. by destruct h.
Qed.
End stack.
