(* ===== verification/LibcClientTurns.v ===== *)
(** * The turns of a client on the poll-driven queue

    That [LibcClient] keeps its table in order and comes to rest: the invariant [good] of a
    client with its stack, one [turn], [run], and [dispatch], which is also the turn of
    [LibcQueue] on reactions that only call about the client's descriptor. The environment
    is [kernel_ok], what the sockets and the server do, and [app_ok], what the application
    may call. *)

From S2P Require Import Prelude Protocol Sync RecvStream FramedReader LibcRecvStream Queue Client LibcEntry LibcClient.
From S2P Require LibcQueue SendLock.

Open Scope nat_scope.

(** A send of something takes some of it, or fails with an [errno]; and the server answers
    no request that it has not received whole: the request whose response is being read is
    not one whose send fails. *)
Record kernel_ok (sys_send : machine -> list bytes -> sysret) : Prop := {
  ko_sends m iov : mjoin iov <> [] ->
    match sys_send m iov with
    | Ret v => (0 < v <= Z.of_nat (length (mjoin iov)))%Z
    | Errno e => (0 < e)%Z
    end;
  ko_whole m id f e resp pd req :
    SendLock.procs (out (cl m)) !! id = Some (SendLock.Sends f) ->
    sys_send m (offer f) = Errno e -> e <> EAGAIN ->
    pc (cl m) = RBody resp pd -> issued (cl m) !! id = Some req ->
    resp_cid resp <> req_cid (rq_header req);
}.

(** From a callback the application makes calls on buffers that exist, of fewer than
    [2^64 - 1] requests in all. The callback of a request that failed with the connection
    may call again, but not without end: at most [retries] times, from the callbacks of the
    first, the second, ... request that fails. *)
Record app_ok (buffers : gmap nat bytes) (retries : list nat)
    (app : client Libc.t -> callback -> list app_call) : Prop := {
  ao_calls c ca : Forall (call_ok buffers) (app c ca);
  ao_total : (Z.of_nat (sum_list retries) < 2 ^ 64 - 1)%Z;
  ao_few c ca : is_Some (ca_resp ca) -> app c ca <> [] ->
    (Z.of_nat (length (issued c) + length (app c ca) + retries_left retries c) < 2 ^ 64 - 1)%Z;
  ao_failed c ca : ca_resp ca = None -> length (app c ca) <= default 0 (retries !! pred (failures c));
}.

(** The entry of the descriptor: the stream until it is destroyed, and the sends that
    wait, behind those being finished, [pre]. *)
Definition registered (fd : Z) (pre : list nat) (m : machine) : Prop :=
  entry_is fd (if gone m then None else Some (stream_op m)) (pre ++ (awaiting m).*1) (table m).

Definition good `{NativeEndian} (sync : bool) (buffers : gmap nat bytes) (retries : list nat) (fd : Z)
    (pre : list nat) (stack : list frame) (m : machine) : Prop :=
  reached sync buffers m /\ running buffers retries stack m /\ registered fd pre m.

(** The client made some calls about its descriptor, and has the same stream. *)
Definition follows (fd : Z) (m m' : machine) : Prop :=
  stream_op m' = stream_op m /\
  exists cs, Forall (touches fd) cs /\ table m' = LibcQueue.run_calls cs (table m).

#[export] Instance client_follows_preorder fd : PreOrder (follows fd).
Proof.
  split.
  - intros m. split; [done|]. by exists [].
  - intros m1 m2 m3 (Ho & cs & Hcs & Ht) (Ho' & cs' & Hcs' & Ht').
    split; [congruence|]. exists (cs ++ cs'). rewrite run_calls_app, Ht', Ht.
    split; [by apply Forall_app|done].
Qed.

Section turn.
Context `{NativeEndian}.
Context (sys_send : machine -> list bytes -> sysret).
Context (address : nat -> nat).
Context (app : client Libc.t -> callback -> list app_call).
Context (fd : Z) (sync : bool) (buffers : gmap nat bytes) (retries : list nat).
#[local] Existing Instance Libc.stream_laws.

Hypothesis Hkernel : kernel_ok sys_send.
Hypothesis Happ : app_ok buffers retries app.

Abbreviation go := (turn sys_send address app fd).
Abbreviation go_on := (run sys_send address app fd).
Abbreviation good := (good sync buffers retries fd).
Abbreviation readable rs := (Libc.EvReady rs : rs_event (RecvStreamLaws := Libc.stream_laws)).

Lemma reached_client_act e m :
  reached sync buffers m -> enabled e (cl m) -> reached sync buffers (act e m).
Proof.
  intros (st & recv & Hst & Hw & Hgot & Hr) He. destruct m as [c op aw g q k bs]. simpl in *.
  exists st, (recv ++ received e c). split_and!; try done.
  - simpl. by rewrite Hgot, <- app_assoc.
  - simpl. by constructor.
Qed.

(** The clock does not matter. *)
Lemma tick_good pre stack m : good pre stack m -> good pre stack (tick m).
Proof.
  destruct m as [c op aw g q k bs]. intros (Hr & Hrun & Hreg). split; [exact Hr|]. split; [|exact Hreg].
  by apply (running_same buffers retries stack (Machine c op aw g q k bs)).
Qed.

(** What an event of the client leaves of the rest. *)
Definition same_rest (m m' : machine) : Prop :=
  stream_op m' = stream_op m /\ awaiting m' = awaiting m /\ gone m' = gone m /\ table m' = table m.

Lemma client_act_same e m : same_rest m (act e m).
Proof. by destruct m. Qed.

Lemma act_cl e m : cl (act e m) = Client.apply e (cl m).
Proof. by destruct m. Qed.

Lemma act_got e m : got (act e m) = got m ++ received e (cl m).
Proof. by destruct m. Qed.

Lemma rest_registered pre m m' : same_rest m m' -> registered fd pre m -> registered fd pre m'.
Proof. intros (Ho & Ha & Hg & Ht). unfold registered. by rewrite Ho, Ha, Hg, Ht. Qed.

Lemma rest_follows m m' : same_rest m m' -> follows fd m m'.
Proof. intros (Ho & _ & _ & Ht). split; [done|]. by exists []. Qed.

(** What a callback calls. *)
Lemma called_same m m' : calls (cl m') = calls (cl m) -> called app m m' = [].
Proof. intros Hc. unfold called. by rewrite Hc, drop_all. Qed.

Lemma called_one m m' ca : calls (cl m') = calls (cl m) ++ [ca] -> called app m m' = app (cl m') ca.
Proof. intros Hc. unfold called. rewrite Hc, drop_app_length. simpl. apply app_nil_r. Qed.

Lemma called_ok m m' :
  calls (cl m') = calls (cl m) \/ (exists ca, calls (cl m') = calls (cl m) ++ [ca]) ->
  Forall (call_ok buffers) (called app m m').
Proof.
  intros [Hc|[ca Hc]]; [rewrite called_same by done; constructor|]. rewrite (called_one m m' ca Hc).
  apply (ao_calls _ _ _ Happ).
Qed.

(** The callback of a request that failed spends retries. *)
Lemma called_failed m m' :
  (calls (cl m') = calls (cl m) \/ exists ca, calls (cl m') = calls (cl m) ++ [ca] /\ ca_resp ca = None) ->
  Forall (call_ok buffers) (called app m m') /\
  length (called app m m') + retries_left retries (cl m') <= retries_left retries (cl m).
Proof.
  intros Hc. split; [apply called_ok; naive_solver|]. destruct Hc as [Hc|(ca & Hc & Hr)].
  - by rewrite called_same, (retries_same retries _ _ Hc).
  - rewrite (called_one m m' ca Hc), <- (retries_spent retries _ _ ca Hc Hr).
    pose proof (ao_failed _ _ _ Happ (cl m') ca Hr). lia.
Qed.

Lemma called_reads m m' :
  reads (cl m) (cl m') ->
  (Z.of_nat (length (issued (cl m)) + retries_left retries (cl m)) < 2 ^ 64 - 1)%Z ->
  (called app m m' <> [] -> pc (cl m') = RTop) /\ Forall (call_ok buffers) (called app m m') /\
  (Z.of_nat (length (issued (cl m)) + length (called app m m') + retries_left retries (cl m')) < 2 ^ 64 - 1)%Z.
Proof.
  intros (_ & Hi & Hc) Hfew.
  assert (Hnone : calls (cl m') = calls (cl m) -> called app m m' = [] /\
    retries_left retries (cl m') = retries_left retries (cl m)) by (split; [by apply called_same|by apply retries_same]).
  destruct (pc (cl m')); try (destruct Hnone as [-> ->]; [tauto|]; split_and!; [done|constructor|simpl; lia]).
  destruct Hc as (ca & Hc & Hr). split; [done|]. split; [apply called_ok; right; by exists ca|].
  rewrite (called_one m m' ca Hc). destruct (app (cl m') ca) as [|a l] eqn:Ha.
  - rewrite (retries_answered retries _ _ ca Hc Hr). simpl. lia.
  - rewrite <- Ha, <- Hi. apply (ao_few _ _ _ Happ); [done|by rewrite Ha].
Qed.

(** *** The coroutines, one by one *)

(** The contract of [Client]: the buffers are there. *)
Lemma call_enabled m a :
  reached sync buffers m -> call_ok buffers a -> enabled (call_event a) (cl m).
Proof.
  intros Hr Ha. destruct a as [b size offset k|data offset k]; [|done]. destruct Ha as (Hs & Ho & d & Hd & Hle).
  split_and!; [apply Hs..|apply Ho|apply Ho|]. destruct (reached_mem _ _ _ _ _ Hr Hd) as (d' & Hd' & Hlen).
  exists d'. split; [done|]. by rewrite Hlen.
Qed.

Lemma next_call_ok co a cs stack m : running buffers retries ((co, a :: cs) :: stack) m -> call_ok buffers a.
Proof.
  intros Hrun. pose proof (rn_calls Hrun) as Hc. apply list.Forall_cons in Hc as [Hc _].
  by apply list.Forall_cons in Hc as [? _].
Qed.

(** The application or a callback makes a call. *)
Lemma call_good co a cs stack pre m :
  good pre ((co, a :: cs) :: stack) m ->
  good pre ((started m (act (call_event a) m) ++ [(co, cs)]) ++ stack) (act (call_event a) m) /\
  follows fd m (act (call_event a) m).
Proof.
  intros (Hr & Hrun & Hreg). set (m' := act (call_event a) m).
  pose proof (client_act_same (call_event a) m) as Hsame. split; [|by apply rest_follows].
  pose proof (call_enabled m a Hr (next_call_ok _ _ _ _ _ Hrun)) as He.
  split; [by apply reached_client_act|]. split; [|by eapply rest_registered].
  destruct (running_inv _ _ _ _ _ Hr Hrun) as (_ & Hinv & _).
  destruct (call_issues a _ (cl m) Hinv) as (Hpc & Hca & _ & _ & Hi); [apply length_fmap|].
  rewrite <- act_cl in Hpc, Hca, Hi. fold m' in Hpc, Hca, Hi. destruct Hsame as (_ & Haw & Hgo & _). unfold started.
  destruct Hi as [Hi|(Hi & Hnone & Hmv)].
  - rewrite Hi, bool_decide_false by lia. apply running_refused in Hrun. by apply (running_same buffers retries _ m).
  - rewrite bool_decide_true by lia. by eapply running_issue.
Qed.

(** The reader goes on in its loop, or in [fail_all_pending]. *)
Lemma reader_goes e stack pre m :
  good pre ((Reader, []) :: stack) m -> enabled e (cl m) -> pc (cl m) <> REnd ->
  out (Client.apply e (cl m)) = out (cl m) -> issued (Client.apply e (cl m)) = issued (cl m) ->
  (called app m (act e m) <> [] -> below (act e m) Reader) ->
  (Z.of_nat (length (issued (cl m)) + length (called app m (act e m)) + retries_left retries (cl (act e m))) < 2 ^ 64 - 1)%Z ->
  Forall (call_ok buffers) (called app m (act e m)) ->
  good pre ((Reader, called app m (act e m)) :: stack) (act e m) /\ follows fd m (act e m).
Proof.
  intros (Hr & Hrun & Hreg) He Hpc Ho Hi Hl Hfew Hok. pose proof (client_act_same e m) as Hsame.
  split; [|by apply rest_follows]. split; [by apply reached_client_act|]. split; [|by eapply rest_registered].
  rewrite <- act_cl in Ho, Hi. destruct Hsame as (_ & Ha & Hg & _). by apply (running_reads buffers retries _ _ m).
Qed.

(** What is left for the calls of a callback. *)
Lemma stack_few stack m :
  running buffers retries stack m -> (Z.of_nat (length (issued (cl m)) + retries_left retries (cl m)) < 2 ^ 64 - 1)%Z.
Proof. intros Hrun. pose proof (rn_few Hrun). lia. Qed.

Lemma client_reader_good stack pre m :
  good pre ((Reader, []) :: stack) m -> pc (cl m) = RTop ->
  good pre ((Reader, called app m (act Run m)) :: stack) (act Run m) /\ follows fd m (act Run m).
Proof.
  intros Hg Hpc. pose proof (reader_run_reads _ Hpc) as Hreads. pose proof Hreads as (Ho & Hi & _).
  change (reader_run (cl m)) with (Client.apply Run (cl m)) in *.
  rewrite <- act_cl in Hreads.
  destruct (called_reads m (act Run m) Hreads) as (Hl & Hok & Hfew); [by destruct Hg as (_ & Hrun & _); eapply stack_few|].
  apply reader_goes; try done; [congruence|]. intros Hne. simpl. by rewrite (Hl Hne).
Qed.

Lemma failing_good l stack pre m :
  good pre ((Reader, []) :: stack) m -> pc (cl m) = RFailing l ->
  good pre ((Reader, called app m (act FailNext m)) :: stack) (act FailNext m) /\ follows fd m (act FailNext m) /\
  length (called app m (act FailNext m)) + retries_left retries (cl (act FailNext m)) <= retries_left retries (cl m).
Proof.
  intros Hg Hpc. destruct (fail_next_fails l _ Hpc) as (Ho & Hi & _ & Hl).
  change (fail_next (cl m)) with (Client.apply FailNext (cl m)) in *.
  destruct (called_failed m (act FailNext m)) as [Hok Hleft].
  { rewrite act_cl. destruct l; [left|right]; apply Hl. }
  assert (Hfew : (Z.of_nat (length (issued (cl m)) + retries_left retries (cl m)) < 2 ^ 64 - 1)%Z)
    by (destruct Hg as (_ & Hrun & _); by eapply stack_few).
  match goal with |- ?A /\ ?B /\ _ => enough (A /\ B) by tauto end. apply reader_goes; try done; [by exists l|congruence| |lia].
  intros Hne. simpl. rewrite act_cl. destruct l as [|x l]; [|by destruct Hl as [-> _]].
  exfalso. apply Hne, called_same. rewrite act_cl. apply Hl.
Qed.

(** The locals of [reader_loop] are destroyed. *)
Lemma client_leave_good stack pre m :
  good pre ((Reader, []) :: stack) m -> pc (cl m) = REnd ->
  good pre stack (leave fd m) /\ follows fd m (leave fd m).
Proof.
  intros (Hr & Hrun & Hreg) Hpc. destruct m as [c op aw g q k bs]. unfold registered in *. simpl in *. split.
  - split; [exact Hr|]. split; [apply (client_running_pop buffers retries Reader); [|simpl; unfold reader_rests; simpl; by rewrite Hpc]|].
    + destruct Hrun as [Hnd Hb Hbot Hl Hre Hw Hg Hc Hf]. split; auto.
      intros co Hin. apply (rests_same (Machine c op aw g q k bs)); auto.
      intros ->. exfalso. apply Hin. left.
    + unfold registered. simpl. destruct g; [|by apply clear_read_entry].
      destruct Hreg as [Hro Hwq]. unfold LibcQueue.clear_read_op. unfold LibcQueue.entry in *.
      destruct (LibcQueue.fds q !! fd) as [st|] eqn:Hst; [|unfold entry_is, LibcQueue.entry; by rewrite Hst].
      simpl in Hro. rewrite Hro. simpl. unfold entry_is, LibcQueue.entry. by rewrite Hst.
  - split; [done|]. exists [LibcQueue.ClearRead fd op]. split; [by repeat constructor|done].
Qed.

(** A request being sent has something left to send. *)
Lemma client_sender_frame m stack id f :
  reached sync buffers m -> running buffers retries stack m ->
  SendLock.procs (out (cl m)) !! id = Some (SendLock.Sends f) -> frame_ok f.
Proof.
  intros Hr Hrun Hid. destruct (running_inv _ _ _ _ _ Hr Hrun) as (_ & (_ & _ & q & Hl & _) & _).
  destruct (SendLock.sending_at _ _ _ _ Hl Hid) as [_ Hs]. pose proof (SendLock.li_wire Hl) as Hw.
  rewrite Hs in Hw. by destruct Hw as (? & ? & _ & ? & ? & _ & _ & _ & Hf).
Qed.

(** *** The senders *)

(** How far they are from their ends. *)
Definition proc_weight (p : SendLock.proc) : nat :=
  match p with
  | SendLock.Waits msg => 3 + length (SendLock.message_bytes msg)
  | SendLock.Sends f => 2 + length (mjoin (offer f))
  | SendLock.Leaves => 1
  | SendLock.Undefined => 0
  end.

Definition senders_left (m : machine) : nat := map_sum proc_weight (SendLock.procs (out (cl m))).

(** [m0] asked the socket, in [await_ready] or in [on_ready]: the result is an event of
    [Client]. *)
Lemma send_enabled m0 m id f res :
  cl m = cl m0 -> SendLock.procs (out (cl m)) !! id = Some (SendLock.Sends f) -> frame_ok f ->
  LibcQueue.try_op (sys_send m0 (offer f)) = Some res ->
  enabled (send_event id res) (cl m) /\ received (send_event id res) (cl m) = [] /\
  match send_event id res with
  | Accept _ n => 0 < n <= length (mjoin (offer f))
  | SendFails _ => True
  | _ => False
  end.
Proof using Hkernel.
  intros Hm0 Hid Hf Hres. pose proof (ko_sends _ Hkernel m0 (offer f) (proj1 Hf)) as Hk.
  unfold send_event, LibcQueue.op_end. destruct (sys_send m0 (offer f)) as [v|e] eqn:Hsys; simpl in Hres.
  - simplify_eq. rewrite bool_decide_false by lia. split; [exists f; split; [done|lia]|]. split; [done|lia].
  - case_bool_decide; simplify_eq. rewrite bool_decide_true by lia. split; [|done].
    split; [by exists f|]. intros resp pd req Hpc Hreq. rewrite Hm0 in Hid, Hpc, Hreq.
    by apply (ko_whole _ Hkernel m0 id f e resp pd req).
Qed.

(** The sender has less to send, or its send failed. *)
Lemma request_event_moves id f res m :
  SendLock.procs (out (cl m)) !! id = Some (SendLock.Sends f) -> frame_ok f ->
  match send_event id res with
  | Accept _ n => 0 < n <= length (mjoin (offer f))
  | SendFails _ => True
  | _ => False
  end ->
  let m' := act (send_event id res) m in
  exists p, SendLock.procs (out (cl m')) = <[id := p]> (SendLock.procs (out (cl m))) /\
    proc_weight p < proc_weight (SendLock.Sends f) /\ issued (cl m') = issued (cl m) /\ pc (cl m') = pc (cl m) /\
    (calls (cl m') = calls (cl m) \/
     p = SendLock.Leaves /\ exists ca, calls (cl m') = calls (cl m) ++ [ca] /\ ca_resp ca = None).
Proof using Type.
  intros Hid Hf Hev. cbv zeta. rewrite act_cl. unfold send_event in *. destruct (LibcQueue.op_end res) as [v|e].
  - exists (SendLock.after_send (send_resume (Z.to_nat v) f)). simpl. unfold SendLock.accept. rewrite Hid.
    split_and!; try done; [|by left].
    assert (Hle : Z.to_nat v <= length (frame_rest f)) by (unfold frame_rest; lia).
    pose proof (send_resume_sends f _ Hf Hle) as Hs. pose proof (proj1 Hf) as Hne.
    destruct (send_resume (Z.to_nat v) f) as [f'| |]; simpl in *; [|lia|done]. destruct Hs as [_ Hs].
    unfold frame_rest in Hs, Hle. rewrite Hs, length_drop. lia.
  - destruct (send_failed_fails id f (cl m) Hid) as (Hp & Hi & Hpc & _ & _ & _ & Hc).
    exists SendLock.Leaves. split_and!; try done; [simpl; lia|]. destruct Hc; auto.
Qed.

(** It brings the sender on top closer to its end, or into the callback of its request. *)
Lemma client_send_good m0 m id f res stack pre :
  good pre ((Sender id, []) :: stack) m -> cl m = cl m0 ->
  SendLock.procs (out (cl m)) !! id = Some (SendLock.Sends f) ->
  LibcQueue.try_op (sys_send m0 (offer f)) = Some res ->
  let m' := act (send_event id res) m in
  good pre ((Sender id, called app m m') :: stack) m' /\ follows fd m m' /\
  length (called app m m') + retries_left retries (cl m') <= retries_left retries (cl m) /\
  senders_left m' < senders_left m /\ pc (cl m') = pc (cl m) /\ got m' = got m /\
  answered (cl m') = answered (cl m).
Proof.
  intros (Hr & Hrun & Hreg) Hm0 Hid Hres m'. pose proof (client_act_same (send_event id res) m) as Hsame.
  pose proof (client_sender_frame m _ id f Hr Hrun Hid) as Hf.
  destruct (send_enabled m0 m id f res Hm0 Hid Hf Hres) as (He & Hrecv & Hev).
  assert (Hgot : got m' = got m) by (unfold m'; rewrite act_got, Hrecv; apply app_nil_r).
  destruct (request_event_moves id f res m Hid Hf Hev) as (p & Hp & Hw & Hi & Hpc & Hc). fold m' in Hp, Hi, Hpc, Hc.
  destruct (called_failed m m') as [Hok Hleft]; [by destruct Hc as [?|[_ ?]]; [left|right]|].
  split; [|split; [by apply rest_follows|split; [done|split]]].
  - split; [by apply reached_client_act|]. split; [|by eapply rest_registered].
    destruct Hsame as (_ & Ha & Hg & _). apply (client_running_moves buffers retries id _ stack m); try done.
    + by eapply procs_insert_moves.
    + intros Hne. destruct Hc as [Hc|[-> _]]; [by rewrite called_same in Hne|]. simpl. by rewrite Hp, lookup_insert_eq.
  - unfold senders_left. rewrite Hp. pose proof (map_sum_insert proc_weight _ id _ p Hid). lia.
  - split_and!; try done. unfold answered. destruct Hc as [-> |(_ & ca & -> & Hca)]; [done|].
    rewrite omap_app. simpl. rewrite Hca. apply app_nil_r.
Qed.

(** The awaiter of a send that would block is put into the table. *)
Lemma client_suspend_good m id f stack pre :
  good pre ((Sender id, []) :: stack) m -> SendLock.procs (out (cl m)) !! id = Some (SendLock.Sends f) ->
  good pre stack (suspend_send address fd id (tick m)) /\ follows fd m (suspend_send address fd id (tick m)).
Proof.
  intros (Hr & Hrun & Hreg) Hid.
  assert (Haw : awaiting m = []).
  { destruct (rn_waits Hrun) as [?|(op & i & f' & _ & Hin & Hi)]; [done|]. exfalso. apply Hin.
    rewrite (holder_unique _ _ _ _ _ i id _ _ Hr Hrun Hi Hid) by done. left. }
  destruct m as [c op aw g q k bs]. unfold registered in *. simpl in *. subst aw.
  split; [|split; [done|exists [LibcQueue.PushWrite fd (address (S k))]; split; [by repeat constructor|done]]].
  split; [exact Hr|]. split; [|unfold registered; simpl in *; rewrite app_nil_r in Hreg; by apply push_write_entry].
  destruct Hrun as [Hnd Hb Hbot Hl Hre Hw Hg Hc Hf]. simpl in *. apply list.NoDup_cons in Hnd as [Hni Hnd].
  split; simpl; auto.
  - intros fr [Hin|[Hin Hne]]; apply Hb; left; [|done]. destruct stack; [done|]. by right.
  - intros Hin. specialize (Hbot ltac:(by right)). destruct stack; [by apply not_elem_of_nil in Hin|done].
  - intros i Hin. apply Hl. by right.
  - intros co Hin. destruct (decide (co = Sender id)) as [->|Hne].
    { simpl. unfold sender_rests. simpl. rewrite Hid. by eexists. }
    pose proof (Hre co ltac:(by rewrite not_elem_of_cons)) as Hco. destruct co as [| |i]; try done. simpl in *.
    unfold sender_rests in *. simpl in *. destruct (SendLock.procs (out c) !! i) as [[]|]; try done. by destruct Hco.
  - right. by exists (address (S k)), id, f.
  - by inversion Hc.
Qed.

(** The sender on top leaves the scope of its guard. *)
Lemma client_release_good id stack pre m :
  good pre ((Sender id, []) :: stack) m -> SendLock.procs (out (cl m)) !! id = Some SendLock.Leaves ->
  let woken := (Mutex.guard_drop true (SendLock.mtx (out (cl m)))).1 in
  good pre (((fun h => (Sender h, [])) <$> option_list woken) ++ stack) (act (Leave id) m) /\
  follows fd m (act (Leave id) m) /\
  2 * senders_left (act (Leave id) m) + length (option_list woken) < 2 * senders_left m.
Proof.
  intros (Hr & Hrun & Hreg) Hid woken. pose proof (client_act_same (Leave id) m) as Hsame.
  split; [|split; [by apply rest_follows|]].
  - split; [by apply reached_client_act|]. split; [|by eapply rest_registered].
    destruct Hsame as (_ & Ha & Hg & _). apply (client_running_release sync buffers retries id stack m); try done; by rewrite act_cl.
  - destruct (running_inv _ _ _ _ _ Hr Hrun) as (_ & Hinv & _). pose proof Hinv as (_ & _ & q & Hl0 & _).
    pose proof (leave_moves _ q id _ Hinv Hl0 Hid) as Hmv. unfold senders_left. rewrite act_cl. simpl.
    pose proof (map_sum_delete proc_weight _ id _ Hid) as Hdel. simpl in Hdel. fold woken in Hmv.
    destruct woken as [h|]; simpl.
    + destruct Hmv as (Hne & msg & f & Hh & -> & Hlen).
      assert (Hh' : delete id (SendLock.procs (out (cl m))) !! h = Some (SendLock.Waits msg))
        by (by rewrite lookup_delete_ne).
      pose proof (map_sum_insert proc_weight _ h _ (SendLock.Sends f) Hh') as Hins. simpl in Hins. lia.
    + rewrite Hmv. lia.
Qed.

(** Every turn of the stack keeps the client in order. *)
Lemma client_turn_good f stack pre m :
  good pre (f :: stack) m -> good pre ((go f m).1 ++ stack) (go f m).2 /\ follows fd m (go f m).2.
Proof.
  destruct f as [co [|a cs]]; [|by apply call_good].
  intros Hg. pose proof Hg as (Hr & Hrun & Hreg). unfold turn. cbn [fst snd].
  assert (Hpop : rests m co -> good pre stack m /\ follows fd m m)
    by (intros; split; [split; [done|split; [by eapply client_running_pop|done]]|done]).
  destruct (running_inv _ _ _ _ _ Hr Hrun) as (_ & (_ & _ & q & Hl0 & _) & _ & rest & _ & Hconn).
  destruct co as [| |id]; simpl; [by apply Hpop|..].
  - simpl in Hpop. unfold reader_rests in Hpop.
    destruct (pc (cl m)) as [| |resp pd|l| | |resp pd] eqn:Hpc; simpl; auto.
    + by apply client_reader_good.
    + by destruct (failing_good l stack pre m Hg Hpc) as (? & ? & _).
    + by apply client_leave_good.
  - destruct (rn_live Hrun id ltac:(left)) as [p Hid]. simpl in Hpop. unfold sender_rests in Hpop. rewrite Hid in *.
    destruct p as [msg|f| |]; simpl; auto.
    + destruct (LibcQueue.try_op _) as [res|] eqn:Hres; simpl; [|by eapply client_suspend_good].
      destruct (client_send_good m (tick m) id f res stack pre (tick_good _ _ _ Hg)) as (Hg' & Hf & _); [by destruct m..|].
      assert (called app m (act (send_event id res) (tick m)) = called app (tick m) (act (send_event id res) (tick m))) as ->
        by (by destruct m).
      split; [exact Hg'|]. by destruct m.
    + by destruct (client_release_good id stack pre m Hg Hid) as (? & ? & _).
    + pose proof (SendLock.li_queue Hl0 id) as Hq. by rewrite Hid in Hq.
Qed.

(** A turn is an event of [Client], if it is not only one of the machine. *)
Definition acted (m m' : machine) : Prop :=
  (cl m' = cl m /\ got m' = got m) \/
  exists e, enabled e (cl m) /\ cl m' = Client.apply e (cl m) /\ got m' = got m ++ received e (cl m).

Lemma act_acted e m m' :
  enabled e (cl m) -> cl m' = cl m -> got m' = got m -> acted m (act e m').
Proof. intros He Hcl Hgot. right. exists e. by rewrite act_cl, act_got, Hcl, Hgot. Qed.

Lemma client_turn_acted f stack pre m : good pre (f :: stack) m -> acted m (go f m).2.
Proof using Hkernel.
  intros (Hr & Hrun & _). unfold turn. destruct f as [co [|a cs]]; cbn [fst snd].
  2:{ apply act_acted; [|done..]. apply call_enabled; [done|]. by eapply next_call_ok. }
  destruct co as [| |id]; simpl; [by left|..].
  - destruct (pc (cl m)) eqn:Hpc; try (by left; destruct m); apply act_acted; try done. by eexists.
  - destruct (SendLock.procs (out (cl m)) !! id) as [[msg|f| |]|] eqn:Hid; try (by left).
    + destruct (LibcQueue.try_op _) as [res|] eqn:Hres; [|by left; destruct m].
      apply act_acted; [|by destruct m..]. by apply (send_enabled m m id f res); [| |eapply client_sender_frame|].
    + by apply act_acted.
Qed.

(** *** Running ends *)

(** What the reader can still do without waiting: read the responses received, and fail
    the requests left. *)
Definition left_to_read (m : machine) : nat :=
  match pc (cl m) with
  | RTop => 2 + (length (got m) - length (mjoin (response_image <$> answered (cl m))))
  | RFailing _ => 1
  | _ => 0
  end.

(** The callbacks of [fail_all_pending] and the calls to come, from the callbacks under way
    and from those of requests that may still fail. *)
Definition left_to_call (stack : list frame) (m : machine) : nat :=
  length (failing (pc (cl m))) + calls_left stack + retries_left retries (cl m).

Definition load (stack : list frame) (m : machine) : nat := 2 * senders_left m + length stack.

Definition measure (stack : list frame) (m : machine) : nat * nat * nat :=
  (left_to_read m, left_to_call stack m, load stack m).

(** A turn reads a response, or makes a callback or a call, or brings a sender closer to
    its end, or pops. *)
Definition progress (stack stack' : list frame) (m m' : machine) : Prop :=
  left_to_read m' < left_to_read m \/
  (left_to_read m' = left_to_read m /\
   (left_to_call stack' m' < left_to_call stack m \/
    (left_to_call stack' m' = left_to_call stack m /\ senders_left m' <= senders_left m /\
     load stack' m' < load stack m))).

Lemma progress_lex stack stack' m m' : progress stack stack' m m' -> lex3 (measure stack' m') (measure stack m).
Proof. unfold progress, measure, lex3. tauto. Qed.

(** A turn that does not touch the reader. *)
Lemma same_read m m' :
  pc (cl m') = pc (cl m) -> got m' = got m -> answered (cl m') = answered (cl m) -> left_to_read m' = left_to_read m.
Proof. intros Hpc Hgot Ha. unfold left_to_read. by rewrite Hpc, Hgot, Ha. Qed.

(** A turn that makes no callback either. *)
Lemma same_left m m' :
  pc (cl m') = pc (cl m) -> got m' = got m -> calls (cl m') = calls (cl m) ->
  left_to_read m' = left_to_read m /\ forall stack, left_to_call stack m' = left_to_call stack m.
Proof.
  intros Hpc Hgot Hc. split; [apply same_read; [done..|]; unfold answered; by rewrite Hc|].
  intros stack. unfold left_to_call. by rewrite Hpc, (retries_same retries _ _ Hc).
Qed.

Lemma progress_pop f stack m m' :
  cl m' = cl m -> got m' = got m -> f.2 = [] -> progress (f :: stack) stack m m'.
Proof.
  intros Hcl Hgot Hf. destruct (same_left m m') as [Hr Hc]; rewrite ?Hcl; auto. right.
  split; [done|]. right. rewrite Hc. unfold left_to_call, calls_left, load, senders_left. rewrite Hcl. simpl.
  rewrite Hf. simpl. lia.
Qed.

Lemma client_progress_run l stack m stack' :
  reached sync buffers m -> running buffers retries ((Reader, l) :: stack) m ->
  reached sync buffers (act Run m) -> (Z.of_nat (length (issued (cl (act Run m)))) < 2 ^ 64 - 1)%Z ->
  pc (cl m) = RTop -> progress ((Reader, l) :: stack) stack' m (act Run m).
Proof.
  intros Hr Hrun Hr' Hn Hpc. left. unfold left_to_read. rewrite Hpc.
  assert (Hgot : got (act Run m) = got m) by (destruct m; apply app_nil_r).
  pose proof (reader_run_reads _ Hpc) as (_ & _ & Hc).
  change (reader_run (cl m)) with (Client.apply Run (cl m)) in Hc. rewrite <- act_cl in Hc.
  destruct (pc (cl (act Run m))) eqn:Hpc'; try lia. destruct Hc as (ca & Hc & [[resp body] Hca]).
  destruct (client_reached_inv _ _ _ Hr' Hn) as (_ & _ & _ & rest & Hrecv & _).
  rewrite Hgot in *. assert (Hans : answered (cl (act Run m)) = answered (cl m) ++ [(resp, body)]).
  { unfold answered. rewrite Hc, omap_app. simpl. by rewrite Hca. }
  apply (f_equal length) in Hrecv. rewrite Hans, fmap_app, join_app, !length_app in *. simpl in *.
  rewrite app_nil_r in *. unfold response_image in *. rewrite length_app, length_encode_response in *. simpl in *.
  unfold sizeof_response in *. lia.
Qed.

Lemma client_turn_progress f stack pre m :
  good pre (f :: stack) m -> progress (f :: stack) ((go f m).1 ++ stack) m (go f m).2.
Proof.
  intros Hg. pose proof (client_turn_good f stack pre m Hg) as [Hg' _]. pose proof Hg as (Hr & Hrun & _).
  destruct f as [co [|a cs]].
  2:{ unfold turn. simpl. set (m' := act (call_event a) m).
    destruct (running_inv _ _ _ _ _ Hr Hrun) as (_ & Hinv & _).
    destruct (call_issues a _ (cl m) Hinv) as (Hpc & Hc & _ & _ & _); [apply length_fmap|].
    rewrite <- act_cl in Hpc, Hc. fold m' in Hpc, Hc.
    destruct (same_left m m') as [Hl Hcl]; [done|destruct m, a; apply app_nil_r|done|].
    right. split; [done|]. left. rewrite Hcl. unfold left_to_call, calls_left, started.
    case_bool_decide; simpl; lia. }
  unfold turn in *. cbn [fst snd] in *.
  assert (Hpop : forall m', cl m' = cl m -> got m' = got m -> progress ((co, []) :: stack) ([] ++ stack) m m')
    by (intros; by apply progress_pop).
  destruct co as [| |id]; simpl in *; [by apply Hpop|..].
  - destruct (pc (cl m)) as [| |resp pd|l| | |resp pd] eqn:Hpc; simpl in *; auto.
    + destruct Hg' as (Hr' & Hrun' & _). apply client_progress_run; try done. pose proof (rn_few Hrun'). lia.
    + destruct (fail_next_fails l _ Hpc) as (Ho & _ & _ & Hl).
      destruct (failing_good l stack pre m Hg Hpc) as (_ & _ & Hleft).
      change (fail_next (cl m)) with (Client.apply FailNext (cl m)) in *. rewrite <- act_cl in *.
      unfold progress, left_to_read, left_to_call, calls_left. rewrite Hpc.
      destruct l as [|x l]; destruct Hl as [-> _]; [left; lia|].
      right. split; [done|]. left. simpl. lia.
    + apply Hpop; by destruct m.
  - destruct (SendLock.procs (out (cl m)) !! id) as [[msg|f| |]|] eqn:Hid; simpl in *; auto.
    + destruct (LibcQueue.try_op _) as [res|] eqn:Hres; simpl in *; [|apply Hpop; by destruct m].
      destruct (client_send_good m (tick m) id f res stack pre (tick_good _ _ _ Hg))
        as (_ & _ & Hleft & Hs & Hpc & Hgot & Ha); [by destruct m..|].
      assert (called app m (act (send_event id res) (tick m)) = called app (tick m) (act (send_event id res) (tick m))) as ->
        by (by destruct m).
      set (m' := act (send_event id res) (tick m)) in *.
      assert (Hcl : cl (tick m) = cl m) by (by destruct m). assert (Hgt : got (tick m) = got m) by (by destruct m).
      rewrite Hcl in Hpc, Ha, Hleft. rewrite Hgt in Hgot. unfold senders_left in Hs. rewrite Hcl in Hs.
      right. split; [by apply same_read|]. unfold left_to_call, calls_left, load, senders_left. rewrite Hpc. simpl. lia.
    + destruct (client_release_good id stack pre m Hg Hid) as (_ & _ & Hs). simpl in Hs.
      destruct (same_left m (act (Leave id) m)) as [Hl Hc]; [by rewrite act_cl|destruct m; apply app_nil_r|by rewrite act_cl|].
      right. split; [done|]. right. rewrite Hc. unfold load. rewrite length_app, length_fmap.
      unfold left_to_call, calls_left. rewrite sum_list_with_app.
      destruct (Mutex.unlock _).1; simpl in *; lia.
Qed.

(** Resumed coroutines, and the callbacks they make, run to their suspension. *)
Lemma client_run_ok pre stack m :
  good pre stack m ->
  exists n m', (forall fuel, n <= fuel -> go_on fuel stack m = Some m') /\
    good pre [] m' /\ follows fd m m' /\
    (left_to_read m = 0 -> left_to_read m' = 0 /\
     (left_to_call [] m' < left_to_call stack m \/
      left_to_call [] m' = left_to_call stack m /\ senders_left m' <= senders_left m)).
Proof.
  remember (measure stack m) as l eqn:Hl. revert stack m Hl.
  induction (lex3_wf l) as [l _ IH]. intros [|f stack] m -> Hg.
  { exists 0, m. split_and!; try done; [by intros []|]. intros Hl0. split; [done|]. by right. }
  destruct (client_turn_good f stack pre m Hg) as [Hg' Hf].
  pose proof (client_turn_progress f stack pre m Hg) as Hp.
  destruct (IH _ (progress_lex _ _ _ _ Hp) _ _ eq_refl Hg') as (n & m' & Hn & H1 & H2 & H3).
  exists (S n), m'. split; [|split; [done|split; [by etrans|]]].
  - intros [|fuel] Hfuel; [lia|]. cbn [run]. specialize (Hn fuel ltac:(lia)). by destruct (go f m) as [fs m1].
  - intros Hl0. destruct Hp as [?|[Hl Hp]]; [lia|].
    destruct (H3 ltac:(congruence)) as [Hr3 Hc3]. split; [done|]. destruct Hp as [?|(Hc & Hs & _)]; lia.
Qed.

(** ** [step] *)

(** Where the reader rests. *)
Lemma client_rest_pc pre m :
  good pre [] m -> gone m = false ->
  pc (cl m) = RHeader \/ (exists resp pd, pc (cl m) = RBody resp pd) \/ exists resp pd, pc (cl m) = ROverflow resp pd.
Proof.
  intros (_ & Hrun & _) Hg. pose proof (rn_rests Hrun Reader (not_elem_of_nil _)) as Hre.
  unfold rests, reader_rests in Hre. rewrite Hg in Hre. destruct (pc (cl m)); eauto; done.
Qed.

Lemma rest_left pre m : good pre [] m -> left_to_read m = 0.
Proof.
  intros (_ & Hrun & _). pose proof (rn_rests Hrun Reader (not_elem_of_nil _)) as Hre.
  unfold rests, reader_rests, left_to_read in *. by destruct (pc (cl m)).
Qed.

(** A coroutine at rest is resumed. *)
Lemma running_enter co m :
  running buffers retries [] m ->
  match co with
  | Sender id => is_Some (SendLock.procs (out (cl m)) !! id) /\ awaiting m = []
  | _ => True
  end -> running buffers retries [(co, [])] m.
Proof.
  intros [_ _ _ _ Hre Hw Hg _ Hf] Hco. split; simpl; auto.
  - apply NoDup_singleton.
  - intros f [?%not_elem_of_nil|[->%list_elem_of_singleton ?]]; done.
  - by intros ->%list_elem_of_singleton.
  - intros id Hin%list_elem_of_singleton. subst co. apply Hco.
  - intros co' _. apply Hre, not_elem_of_nil.
  - destruct Hw as [?|(op & id & f & Ha & _ & Hid)]; [by left|right]. exists op, id, f. split_and!; try done.
    intros Hin%list_elem_of_singleton. subst co. destruct Hco as [_ Hco]. congruence.
Qed.

(** The kernel completes a receive, or the stream is cancelled. *)
Lemma received_good (ev : rs_event) pre m :
  good pre [] m -> gone m = false -> rs_event_ok ev (stream (cl m)) ->
  let m' := act (Receive ev) m in
  follows fd m m' /\
  match (rs_complete ev (stream (cl m))).2 with
  | None => good pre [] m' /\ pc (cl m') = pc (cl m) /\ calls (cl m') = calls (cl m)
  | Some _ => good pre [(Reader, called app m m')] m'
  end.
Proof.
  intros Hg Hgone Hev m'. pose proof (client_rest_pc pre m Hg Hgone) as Hrest. destruct Hg as (Hr & Hrun & Hreg).
  pose proof (client_act_same (Receive ev) m) as Hsame. split; [by apply rest_follows|].
  assert (Hpc : pc (cl m) <> REnd) by (destruct Hrest as [-> |[(? & ? & ->)|(? & ? & ->)]]; done).
  assert (Hr' : reached sync buffers m') by (by apply reached_client_act).
  assert (Hreg' : registered fd pre m') by (by eapply rest_registered).
  destruct Hsame as (_ & Ha & Hgo & _). fold m' in Ha, Hgo.
  assert (Hkeep : pc (cl m') = pc (cl m) -> out (cl m') = out (cl m) -> issued (cl m') = issued (cl m) ->
    calls (cl m') = calls (cl m) -> running buffers retries [] m').
  { intros Hpc' Ho Hi Hca. destruct Hrun as [Hnd Hb Hbot Hl Hre Hw Hgn Hc Hf].
    split; rewrite ?Ho, ?Ha, ?Hgo, ?Hpc', ?Hi, ?(retries_same retries _ _ Hca); auto.
    - intros f [?%not_elem_of_nil|[?%not_elem_of_nil _]]; done.
    - intros co Hin. apply (rests_same m); auto. intros id ->. by rewrite Ho. }
  assert (Hwoken : forall h, (rs_complete ev (stream (cl m))).2 = Some h -> rs_waiter (stream (cl m)) = Some h).
  { destruct (running_inv _ _ _ _ _ Hr Hrun) as (_ & _ & Hst & _). pose proof (rs_complete_law ev _ Hst Hev) as Hlaw.
    destruct (rs_complete ev (stream (cl m))) as [st w]. destruct Hlaw as (_ & _ & _ & _ & Hw & _).
    intros h Hh. by apply Hw. }
  assert (Hover : (exists resp pd, pc (cl m) = ROverflow resp pd) -> (rs_complete ev (stream (cl m))).2 = None).
  { intros (resp & pd & Ho). destruct (rs_complete ev (stream (cl m))).2 as [h|] eqn:Hw; [|done].
    specialize (Hwoken h eq_refl). destruct (running_inv _ _ _ _ _ Hr Hrun) as (_ & _ & _ & rest & _ & Hconn).
    rewrite Ho in Hconn. destruct Hconn as [Hnone _]. congruence. }
  pose proof (act_cl (Receive ev) m) as Hcl. fold m' in Hcl. simpl in Hcl.
  destruct Hrest as [Hrest|[Hrest|Ho]].
  3: { rewrite (Hover Ho). unfold receive in Hcl. specialize (Hover Ho).
       destruct (rs_complete ev (stream (cl m))) as [st w]. simpl in Hover. subst w.
       split; [split; [done|split; [|done]]|]; [apply Hkeep|]; by rewrite Hcl. }
  1: assert (Hrest' : pc (cl m) = RHeader \/ (exists resp pd, pc (cl m) = RBody resp pd)) by (by left).
  2: assert (Hrest' : pc (cl m) = RHeader \/ (exists resp pd, pc (cl m) = RBody resp pd)) by (by right).
  all: pose proof (receive_reads ev (cl m) Hrest') as Hreads; rewrite <- Hcl in Hreads.
  all: destruct (rs_complete ev (stream (cl m))).2 as [h|].
  all: try (destruct Hreads as (Hpc' & Ho & Hi & Hc); split; [split; [done|split; [by apply Hkeep|done]]|done]).
  all: destruct (called_reads m m' Hreads (stack_few _ _ Hrun)) as (Hl & Hok & Hfew); destruct Hreads as (Ho & Hi & _).
  all: split; [done|split; [|done]]; apply (running_reads buffers retries _ [] m); try done; [by apply running_enter|].
  all: intros Hne; simpl; by rewrite (Hl Hne).
Qed.

Lemma client_read_ready_ok rs m :
  good [] [] m -> gone m = false -> Forall (Libc.recv_ok (Libc.entry_size (stream (cl m)))) rs ->
  exists n m', (forall fuel, n <= fuel -> read_ready sys_send address app fd fuel rs m = Some m') /\
    good [] [] m' /\ follows fd m m'.
Proof.
  intros Hg Hgone Hrs. destruct (received_good (readable rs) [] m Hg Hgone Hrs) as [Hf Hok].
  unfold read_ready. change (rs_complete (readable rs) (stream (cl m))) with (Libc.on_ready rs (stream (cl m))) in Hok.
  destruct (Libc.on_ready rs (stream (cl m))).2 as [h|]; [|by exists 0, (act (Receive (readable rs)) m); destruct Hok].
  destruct (client_run_ok [] _ _ Hok) as (n & m' & Hn & Hg' & Hf' & _). exists n, m'. split_and!; try done. by etrans.
Qed.

(** Who is queued in the table is the sender. *)
Lemma queued_request m op wq :
  good [] [] m -> LibcQueue.write_queue (LibcQueue.entry fd (table m)) = op :: wq ->
  wq = [] /\ exists id f, awaiting m = [(op, id)] /\ SendLock.procs (out (cl m)) !! id = Some (SendLock.Sends f).
Proof.
  intros (_ & Hrun & [_ Hwq]) Hq. rewrite Hwq in Hq.
  destruct (rn_waits Hrun) as [Ha|(op' & id & f & Ha & _ & Hid)]; rewrite Ha in *; simplify_eq/=.
  split; [done|]. eauto.
Qed.

(** The sender leaves the table, resumed. *)
Lemma running_ready op id f m m' :
  reached sync buffers m -> running buffers retries [] m -> awaiting m = [(op, id)] ->
  SendLock.procs (out (cl m)) !! id = Some (SendLock.Sends f) ->
  cl m' = cl m -> awaiting m' = [] -> gone m' = gone m -> running buffers retries [(Sender id, [])] m'.
Proof.
  intros Hr Hrun Ha Hid Hcl Ha' Hg'. pose proof Hrun as [Hnd Hb Hbot Hl Hre Hw Hg Hc Hf].
  split; simpl; rewrite ?Hcl, ?Hg'; auto.
  - apply NoDup_singleton.
  - intros f' [?%not_elem_of_nil|[->%list_elem_of_singleton ?]]; done.
  - by intros ?%list_elem_of_singleton.
  - intros i [= ->]%list_elem_of_singleton. by rewrite Hid.
  - intros co Hin. pose proof (Hre co (not_elem_of_nil _)) as Hco. destruct co as [| |i]; simpl in *; [done|..].
    + unfold reader_rests in *. by rewrite Hcl, Hg'.
    + unfold sender_rests in *. rewrite Hcl. destruct (SendLock.procs (out (cl m)) !! i) as [[]|] eqn:Hi; try done.
      exfalso. apply Hin. rewrite (holder_unique _ _ _ _ _ i id _ _ Hr Hrun Hi Hid) by done. left.
Qed.

(** Notes and the clock do not matter. *)
Lemma log_good n stack m :
  good [] stack m ->
  let m' := with_table (LibcQueue.log n (table m)) m in good [] stack m' /\ cl m' = cl m /\ gone m' = gone m.
Proof.
  destruct m as [c o aw g q k bs]. intros (Hr & Hrun & Hreg). split; [|done].
  split; [exact Hr|]. split; [by eapply running_same|exact Hreg].
Qed.

(** The awaiter at [op] got its result, and leaves the table. *)
Lemma ready_good op id f m :
  good [] [] m -> awaiting m = [(op, id)] -> SendLock.procs (out (cl m)) !! id = Some (SendLock.Sends f) ->
  let m0 := with_table (LibcQueue.log (LibcQueue.Ready op true) (table m)) (tick m) in
  let m1 := with_awaiting (delete 0 (awaiting m0)) m0 in
  cl m1 = cl m /\ got m1 = got m /\ awaiting m1 = [] /\ clock m1 = S (clock m) /\ good [op] [(Sender id, [])] m1.
Proof.
  intros (Hr & Hrun & Hreg) Ha Hid m0 m1.
  assert (Hm1 : cl m1 = cl m /\ awaiting m1 = [] /\ clock m1 = S (clock m) /\ gone m1 = gone m /\
    stream_op m1 = stream_op m /\ got m1 = got m /\ table m1 = LibcQueue.log (LibcQueue.Ready op true) (table m)).
  { unfold m1, m0. destruct m as [c o aw g q k bs]. simpl in *. by rewrite Ha. }
  destruct Hm1 as (Hcl1 & Ha1 & Hk1 & Hg1 & Ho1 & Hgot1 & Ht1).
  split; [done|]. split; [done|]. split; [done|]. split; [done|]. split; [|split].
  - unfold reached. rewrite Hcl1, Hgot1. exact Hr.
  - by apply (running_ready op id f m).
  - unfold registered in *. rewrite Ha1, Hg1, Ho1, Ht1. rewrite Ha in Hreg. exact Hreg.
Qed.

Lemma client_write_ready_ok op wq m :
  good [] [] m -> LibcQueue.write_queue (LibcQueue.entry fd (table m)) = op :: wq ->
  exists n b m', (forall fuel, n <= fuel -> write_ready sys_send address app fd fuel op m = Some (b, m')) /\
    stream_op m' = stream_op m /\
    (exists cs, Forall (touches fd) cs /\
       table m' = LibcQueue.run_calls cs (LibcQueue.log (LibcQueue.Ready op b) (table m))) /\
    if b : bool then good [op] [] m' /\ lex3 (0, left_to_call [] m', senders_left m') (0, left_to_call [] m, senders_left m)
    else good [] [] m'.
Proof.
  intros Hg Hq. destruct (queued_request m op wq Hg Hq) as [-> (id & f & Ha & Hid)].
  pose proof (rest_left _ _ Hg) as Hl0.
  unfold write_ready. rewrite Ha. cbn [list_find]. rewrite decide_True by done. rewrite Hid.
  destruct (LibcQueue.try_op _) as [res|] eqn:Hres.
  2:{ exists 0, false, (with_table (LibcQueue.log (LibcQueue.Ready op false) (table m)) (tick m)).
      split; [done|]. split; [by destruct m|]. split; [exists []; split; [done|by destruct m]|].
      destruct (tick_good _ _ _ Hg) as (Hr & Hrun & Hreg). destruct m as [c o aw g q k bs].
      split; [exact Hr|]. split; [by eapply running_same|exact Hreg]. }
  set (m0 := with_table (LibcQueue.log (LibcQueue.Ready op true) (table m)) (tick m)).
  set (m1 := with_awaiting (delete 0 (awaiting m0)) m0).
  destruct (ready_good op id f m Hg Ha Hid) as (Hcl1 & _ & _ & _ & Hgood1). fold m0 m1 in Hcl1, Hgood1.
  assert (Hm1 : stream_op m1 = stream_op m /\ got m1 = got m /\ table m1 = LibcQueue.log (LibcQueue.Ready op true) (table m))
    by (by destruct m).
  destruct Hm1 as (Ho1 & Hgot1 & Ht1).
  rewrite <- Hcl1 in Hid.
  destruct (client_send_good m m1 id f res [] [op] Hgood1 Hcl1 Hid Hres) as (Hg2 & Hf2 & Hleft & Hdec & Hpc2 & Hgot2 & Hans2).
  set (m2 := act (send_event id res) m1) in *.
  destruct (client_run_ok [op] _ m2 Hg2) as (n & m' & Hn & Hg' & Hf' & Hsl).
  exists n, true, m'. split; [intros fuel Hfuel; cbv zeta; fold m0; fold m1; fold m2; by rewrite (Hn fuel Hfuel)|].
  destruct Hf2 as (Ho2 & cs2 & Hcs2 & Ht2). destruct Hf' as (Ho' & cs' & Hcs' & Ht').
  split; [congruence|]. split.
  - exists (cs2 ++ cs'). split; [by apply Forall_app|]. by rewrite run_calls_app, Ht', Ht2, Ht1.
  - split; [done|]. pose proof (same_read m1 m2 Hpc2 Hgot2 Hans2) as Hlr.
    assert (Hm1l : left_to_read m1 = left_to_read m) by (unfold left_to_read; by rewrite Hcl1, Hgot1).
    destruct Hsl as [_ Hsl]; [congruence|]. right. split; [done|]. unfold left_to_call, calls_left, senders_left in *.
    rewrite Hpc2 in Hsl. rewrite Hcl1 in *. simpl in *. lia.
Qed.

(** The finished operation goes. *)
Lemma client_pop_good op m :
  good [op] [] m -> good [] [] (with_table (LibcQueue.pop_write fd op (table m)) m).
Proof.
  intros (Hr & Hrun & Hreg). destruct m as [c o aw g q k bs]. split; [exact Hr|].
  split; [by eapply running_same|]. by apply pop_write_entry in Hreg.
Qed.

(** The loop over the write queue: the sends that can go on do, and what they resume runs
    to its suspension. *)
Lemma client_write_turns_ok m :
  good [] [] m ->
  exists N m' wr, (forall n fuel, N <= n -> N <= fuel ->
      write_turns sys_send address app fd n fuel m = Some m') /\
    good [] [] m' /\ stream_op m' = stream_op m /\
    Forall (local_reaction fd) wr /\ table m' = LibcQueue.dispatch_writes fd wr (table m).
Proof.
  remember (0, left_to_call [] m, senders_left m) as l eqn:Hl. revert m Hl.
  induction (lex3_wf l) as [l _ IH]. intros m Hl Hg.
  destruct (LibcQueue.write_queue (LibcQueue.entry fd (table m))) as [|op wq] eqn:Hq.
  { exists 0, m, []. split; [intros n fuel _ _; destruct n; simpl; by rewrite Hq|]. split; [done|].
    split; [done|]. split; [constructor|]. simpl.
    unfold LibcQueue.entry in Hq. destruct (LibcQueue.fds (table m) !! fd); [|done]. simpl in Hq. by rewrite Hq. }
  destruct (client_write_ready_ok op wq m Hg Hq) as (n1 & b & m1 & Hn1 & Ho1 & (cs & Hcs & Ht1) & Hb).
  assert (Hst : exists st, LibcQueue.fds (table m) !! fd = Some st /\ LibcQueue.write_queue st = op :: wq).
  { unfold LibcQueue.entry in Hq. destruct (LibcQueue.fds (table m) !! fd) as [st|]; [|done]. by exists st. }
  destruct Hst as (st & Hst & Hwq).
  assert (Hdisp : forall wr, LibcQueue.dispatch_writes fd ((b, cs) :: wr) (table m) =
    if b then LibcQueue.dispatch_writes fd wr (LibcQueue.pop_write fd op (table m1)) else table m1).
  { intros wr. simpl. rewrite Hst, Hwq. by rewrite Ht1. }
  destruct b.
  2:{ exists (S n1), m1, [(false, cs)]. split; [|split; [done|split; [done|split; [by repeat constructor|by rewrite Hdisp]]]].
      intros [|n] fuel Hn Hf; [lia|]. cbn [write_turns]. by rewrite Hq, (Hn1 fuel) by lia. }
  destruct Hb as [Hg1 Hlt]. set (m2 := with_table (LibcQueue.pop_write fd op (table m1)) m1).
  assert (Hm2 : cl m2 = cl m1 /\ stream_op m2 = stream_op m1 /\ table m2 = LibcQueue.pop_write fd op (table m1))
    by (by destruct m1). destruct Hm2 as (Hcl2 & Ho2 & Ht2).
  destruct (IH (0, left_to_call [] m2, senders_left m2)
      ltac:(subst l; unfold left_to_call, senders_left in *; by rewrite Hcl2) m2 eq_refl (client_pop_good op m1 Hg1))
    as (N & m' & wr & Hrun & Hg' & Ho' & Hwr & Ht').
  exists (S (max n1 N)), m', ((true, cs) :: wr). split; [|split; [done|split; [congruence|split; [by constructor|]]]].
  - intros [|n] fuel Hn Hf; [lia|]. cbn [write_turns]. rewrite Hq, (Hn1 fuel) by lia. simpl. apply Hrun; lia.
  - rewrite Hdisp. congruence.
Qed.

(** What [::recv] may return to this client. *)
Definition client_recvs_ok (rs : list recv_result) (m : machine) : Prop :=
  Forall (Libc.recv_ok (Libc.entry_size (stream (cl m)))) rs.

Lemma client_read_turn_ok rs m :
  good [] [] m -> client_recvs_ok rs m ->
  exists N m' cs, (forall fuel, N <= fuel -> read_turn sys_send address app fd fuel rs m = Some m') /\
    good [] [] m' /\ stream_op m' = stream_op m /\
    Forall (touches fd) cs /\ table m' = LibcQueue.dispatch_read fd (false, cs) (table m).
Proof.
  intros Hg Hrs. pose proof Hg as (Hr & Hrun & [Hro Hwq]). unfold read_turn. destruct (gone m) eqn:Hgone.
  { rewrite Hro. exists 0, m, []. split; [done|]. split; [done|]. split; [done|]. split; [constructor|].
    unfold LibcQueue.dispatch_read, LibcQueue.entry in *. destruct (LibcQueue.fds (table m) !! fd) as [st|]; [|done].
    simpl in Hro. by rewrite Hro. }
  set (m1 := with_table (LibcQueue.log (LibcQueue.Ready (stream_op m) false) (table m)) m).
  assert (Hm1 : stream_op m1 = stream_op m /\ table m1 = LibcQueue.log (LibcQueue.Ready (stream_op m) false) (table m))
    by (by destruct m).
  destruct Hm1 as (Ho1 & Ht1).
  destruct (log_good (LibcQueue.Ready (stream_op m) false) [] m Hg) as (Hgood1 & Hcl1 & Hg1). fold m1 in Hgood1, Hcl1, Hg1.
  destruct (client_read_ready_ok rs m1 Hgood1) as (N & m' & HN & Hg' & Ho & cs & Hcs & Ht); [congruence|by rewrite Hcl1|].
  exists N, m', cs. rewrite Hro, bool_decide_true by done. split; [done|]. split; [done|]. split; [congruence|].
  split; [done|]. rewrite Ht, Ht1. unfold LibcQueue.dispatch_read, LibcQueue.entry in *.
  destruct (LibcQueue.fds (table m) !! fd) as [st|]; [|done]. simpl in Hro. by rewrite Hro.
Qed.

(** The turn of [step] for the descriptor of a client at rest: it ends, the client is at
    rest again, and to the table it is the turn of [LibcQueue]. *)
Lemma client_dispatch_rests revents rs m :
  good [] [] m -> client_recvs_ok rs m ->
  exists N m' rr wr,
    (forall fuel, N <= fuel -> dispatch sys_send address app fd fuel revents rs m = Some m') /\
    good [] [] m' /\ local_reaction fd rr /\ Forall (local_reaction fd) wr /\
    table m' = LibcQueue.dispatch_fd fd revents rr wr (table m).
Proof.
  intros Hg Hrs. unfold dispatch, LibcQueue.dispatch_fd. case_bool_decide.
  { exists 0, m, (false, []), []. split; [done|]. split; [done|]. split; [by apply Forall_nil|]. split; [constructor|done]. }
  assert (Hread : exists N m1 cs, (forall fuel, N <= fuel ->
      (if LibcQueue.has_event LibcQueue.POLLIN revents
       then read_turn sys_send address app fd fuel rs m else Some m) = Some m1) /\
    good [] [] m1 /\ stream_op m1 = stream_op m /\ Forall (touches fd) cs /\
    table m1 = (if LibcQueue.has_event LibcQueue.POLLIN revents
                then LibcQueue.dispatch_read fd (false, cs) (table m) else table m)).
  { destruct (LibcQueue.has_event LibcQueue.POLLIN revents); [by apply client_read_turn_ok|].
    exists 0, m, []. split; [done|]. split; [done|]. split; [done|]. by split; [constructor|]. }
  destruct Hread as (N1 & m1 & cs & HN1 & Hg1 & _ & Hcs & Ht1).
  assert (Hwrite : exists N m2 wr, (forall fuel, N <= fuel ->
      (if LibcQueue.has_event LibcQueue.POLLOUT revents
       then write_turns sys_send address app fd fuel fuel m1 else Some m1) = Some m2) /\
    good [] [] m2 /\ Forall (local_reaction fd) wr /\
    table m2 = (if LibcQueue.has_event LibcQueue.POLLOUT revents
                then LibcQueue.dispatch_writes fd wr (table m1) else table m1)).
  { destruct (LibcQueue.has_event LibcQueue.POLLOUT revents).
    - destruct (client_write_turns_ok m1 Hg1) as (N & m2 & wr & HN & Hg2 & _ & Hwr & Ht2). exists N, m2, wr.
      split; [intros; by apply HN|done].
    - exists 0, m1, []. split; [done|]. split; [done|]. by split; [constructor|]. }
  destruct Hwrite as (N2 & m2 & wr & HN2 & (Hr2 & Hrun2 & Hreg2) & Hwr & Ht2).
  exists (max N1 N2), (with_table (LibcQueue.drop_empty fd (table m2)) m2), (false, cs), wr.
  split; [intros fuel Hf; rewrite HN1 by lia; simpl; by rewrite HN2 by lia|]. split; [|split; [done|split; [done|]]].
  - destruct m2 as [c o aw g q k bs]. split; [exact Hr2|]. split; [by eapply running_same|by apply drop_empty_entry].
  - simpl. rewrite <- Ht1, <- Ht2. by destruct m2.
Qed.

(** *** What every turn keeps, [step] keeps *)

Section keeps.
Context (P : list frame -> machine -> Prop).
Hypothesis P_turn : forall pre f stack m,
  good pre (f :: stack) m -> P (f :: stack) m -> P ((go f m).1 ++ stack) (go f m).2.
Hypothesis P_receive : forall (ev : rs_event) m,
  good [] [] m -> gone m = false -> rs_event_ok ev (stream (cl m)) -> P [] m ->
  let m' := act (Receive ev) m in
  match (rs_complete ev (stream (cl m))).2 with
  | Some _ => P [(Reader, called app m m')] m'
  | None => P [] m'
  end.
Hypothesis P_ready : forall op id f res m m1,
  good [] [] m -> awaiting m = [(op, id)] -> SendLock.procs (out (cl m)) !! id = Some (SendLock.Sends f) ->
  LibcQueue.try_op (sys_send m (offer f)) = Some res -> P [] m ->
  cl m1 = cl m -> got m1 = got m -> awaiting m1 = [] -> clock m1 = S (clock m) ->
  good [op] [(Sender id, [])] m1 ->
  P [(Sender id, called app m1 (act (send_event id res) m1))] (act (send_event id res) m1).
Hypothesis P_rest : forall m m',
  P [] m -> cl m' = cl m -> got m' = got m -> awaiting m' = awaiting m -> clock m <= clock m' -> P [] m'.

Lemma keeps_table q m : P [] m -> P [] (with_table q m).
Proof using P_rest. intros HP. apply (P_rest m); [exact HP|destruct m; reflexivity..|destruct m; apply le_n]. Qed.

Lemma client_run_keeps fuel pre stack m m' :
  good pre stack m -> P stack m -> go_on fuel stack m = Some m' -> good pre [] m' /\ P [] m'.
Proof using Hkernel Happ P_turn.
  revert stack m. induction fuel as [|fuel IH]; intros [|f stack] m Hg HP; simpl; try (by intros [= <-]).
  destruct (client_turn_good f stack pre m Hg) as [Hg' _]. pose proof (P_turn pre f stack m Hg HP) as HP'.
  destruct (go f m) as [fs m1]. by apply IH.
Qed.

(** [on_ready] of a queued send. *)
Lemma write_ready_keeps fuel op wq m b m' :
  good [] [] m -> LibcQueue.write_queue (LibcQueue.entry fd (table m)) = op :: wq -> P [] m ->
  write_ready sys_send address app fd fuel op m = Some (b, m') ->
  (if b : bool then good [op] [] m' else good [] [] m') /\ P [] m' /\
  (b = false -> exists id f, awaiting m = [(op, id)] /\
     SendLock.procs (out (cl m)) !! id = Some (SendLock.Sends f) /\ LibcQueue.try_op (sys_send m (offer f)) = None).
Proof using Hkernel Happ P_turn P_ready P_rest.
  intros Hg Hq HP. destruct (queued_request m op wq Hg Hq) as [-> (id & f & Ha & Hid)].
  unfold write_ready. rewrite Ha. cbn [list_find]. rewrite decide_True, Hid by done.
  destruct (LibcQueue.try_op _) as [res|] eqn:Hres.
  - set (m0 := with_table (LibcQueue.log (LibcQueue.Ready op true) (table m)) (tick m)).
    set (m1 := with_awaiting (delete 0 (awaiting m0)) m0). cbv zeta. set (m2 := act (send_event id res) m1).
    destruct (ready_good op id f m Hg Ha Hid) as (Hcl1 & Hgot1 & Ha1 & Hk1 & Hgood1). fold m0 m1 in Hcl1, Hgot1, Ha1, Hk1, Hgood1.
    assert (Hid1 : SendLock.procs (out (cl m1)) !! id = Some (SendLock.Sends f)) by (by rewrite Hcl1).
    destruct (client_send_good m m1 id f res [] [op] Hgood1 Hcl1 Hid1 Hres) as (Hg2 & _). fold m2 in Hg2.
    destruct (run _ _ _ _ _ _ _) as [m3|] eqn:Hrun; simpl; [|done]. intros [= <- <-].
    destruct (client_run_keeps fuel [op] _ m2 m3 Hg2) as [Hg3 HP3]; [|done|done].
    by apply (P_ready op id f res m m1).
  - intros [= <- <-]. split; [|split; [|by exists id, f]].
    + destruct (tick_good _ _ _ Hg) as (Hr & Hrun & Hreg). destruct m as [c o aw g q k bs].
      split; [exact Hr|]. split; [by eapply running_same|exact Hreg].
    + apply keeps_table, (P_rest m); [done|destruct m; reflexivity..|destruct m; simpl; lia].
Qed.

Lemma write_turns_keeps n fuel m m' :
  good [] [] m -> P [] m -> write_turns sys_send address app fd n fuel m = Some m' ->
  good [] [] m' /\ P [] m' /\
  (awaiting m' <> [] -> exists m1 op id f, good [] [] m1 /\ P [] m1 /\ awaiting m1 = [(op, id)] /\
     SendLock.procs (out (cl m1)) !! id = Some (SendLock.Sends f) /\ LibcQueue.try_op (sys_send m1 (offer f)) = None).
Proof using Hkernel Happ P_turn P_ready P_rest.
  revert m. induction n as [|n IH]; intros m Hg HP; cbn [write_turns];
    destruct (LibcQueue.write_queue _) as [|op wq] eqn:Hq; try done.
  1, 2: intros [= <-]; split; [done|split; [done|]]; intros Ha; destruct Hg as (_ & _ & [_ Hwq]);
    rewrite Hq in Hwq; by destruct (awaiting m).
  destruct (write_ready _ _ _ _ fuel op m) as [[b m1]|] eqn:Hr; simpl; [|done].
  destruct (write_ready_keeps fuel op wq m b m1 Hg Hq HP Hr) as (Hg1 & HP1 & Hb). destruct b.
  - apply IH; [by apply client_pop_good|by apply keeps_table].
  - intros [= <-]. split; [done|]. split; [done|]. intros _.
    destruct (Hb eq_refl) as (id & f & ? & ? & ?). by exists m, op, id, f.
Qed.

Lemma read_turn_keeps fuel rs m m' :
  good [] [] m -> client_recvs_ok rs m -> P [] m -> read_turn sys_send address app fd fuel rs m = Some m' ->
  good [] [] m' /\ P [] m'.
Proof using Hkernel Happ P_turn P_receive P_rest.
  intros Hg Hrs HP. pose proof Hg as (Hr & Hrun & [Hro Hwq]). unfold read_turn. destruct (gone m) eqn:Hgone.
  { rewrite Hro. by intros [= <-]. }
  rewrite Hro, bool_decide_true by done.
  set (m1 := with_table (LibcQueue.log (LibcQueue.Ready (stream_op m) false) (table m)) m).
  destruct (log_good (LibcQueue.Ready (stream_op m) false) [] m Hg) as (Hg1 & Hcl1 & Hgo1). fold m1 in Hg1, Hcl1, Hgo1.
  assert (HP1 : P [] m1) by (by apply keeps_table).
  assert (Hgone1 : gone m1 = false) by congruence.
  assert (Hrs1 : Forall (Libc.recv_ok (Libc.entry_size (stream (cl m1)))) rs) by (by rewrite Hcl1).
  destruct (received_good (readable rs) [] m1 Hg1 Hgone1 Hrs1) as [_ Hok].
  pose proof (P_receive (readable rs) m1 Hg1 Hgone1 Hrs1 HP1) as HPok.
  unfold read_ready. cbv zeta in *.
  change (rs_complete (readable rs) (stream (cl m1))) with (Libc.on_ready rs (stream (cl m1))) in Hok, HPok.
  destruct (Libc.on_ready rs (stream (cl m1))).2 as [h|].
  - by apply client_run_keeps.
  - intros [= <-]. by destruct Hok.
Qed.

Lemma dispatch_keeps fuel revents rs m m' :
  good [] [] m -> client_recvs_ok rs m -> P [] m ->
  dispatch sys_send address app fd fuel revents rs m = Some m' ->
  P [] m' /\
  (awaiting m' <> [] -> LibcQueue.has_event LibcQueue.POLLOUT revents = true ->
   exists m1 op id f, good [] [] m1 /\ P [] m1 /\ awaiting m1 = [(op, id)] /\
     SendLock.procs (out (cl m1)) !! id = Some (SendLock.Sends f) /\ LibcQueue.try_op (sys_send m1 (offer f)) = None).
Proof using All.
  intros Hg Hrs HP. unfold dispatch. case_bool_decide as Hz.
  { intros [= <-]. split; [done|]. intros _ Hev. rewrite Hz in Hev. vm_compute in Hev. discriminate Hev. }
  destruct (if LibcQueue.has_event LibcQueue.POLLIN revents then _ else _) as [m1|] eqn:H1; simpl; [|done].
  assert (Hm1 : good [] [] m1 /\ P [] m1).
  { destruct (LibcQueue.has_event LibcQueue.POLLIN revents); [by eapply read_turn_keeps|by simplify_eq]. }
  destruct Hm1 as [Hg1 HP1]. destruct (LibcQueue.has_event LibcQueue.POLLOUT revents).
  - destruct (write_turns _ _ _ _ _ _ m1) as [m2|] eqn:H2; simpl; [|done]. intros [= <-].
    destruct (write_turns_keeps _ _ m1 m2 Hg1 HP1 H2) as (_ & HP2 & Hw).
    split; [by apply keeps_table|]. intros Ha _. apply Hw. by destruct m2.
  - simpl. intros [= <-]. split; [by apply keeps_table|done].
Qed.
End keeps.
End turn.
