(* ===== verification/LibcClientWait.v ===== *)
(** * The life of a client on the poll-driven queue

    A client from the end of its constructor on: the application calls [pread], [pwrite]
    and [wait], in any order, with what the kernel answers in between. What holds whenever
    the application has the control, that all three calls return, and what they did. *)

From S2P Require Import Prelude Protocol Sync RecvStream FramedReader LibcRecvStream Queue Client LibcEntry LibcClient LibcClientTurns.
From S2P Require LibcQueue SendLock.

Open Scope nat_scope.

(** What a client runs in: the kernel, the application, the allocator and the arguments of
    the constructor. *)
Record setting := Setting {
  s_send : machine -> list bytes -> sysret;
  s_address : nat -> nat;
  s_app : client Libc.t -> callback -> list app_call;
  s_fd : Z;
  s_sync : bool;
  s_buffers : gmap nat bytes;
  s_retries : list nat; (** the calls made, at most, from callbacks of requests that failed *)
  s_entry_size : nat;   (** [kRecvEntrySize] *)
  s_entries : nat;      (** [kRecvEntries] *)
}.

Definition setting_ok (S : setting) : Prop := kernel_ok (s_send S) /\ app_ok (s_buffers S) (s_retries S) (s_app S).

Section life.
Context `{NativeEndian} (S : setting).
#[local] Existing Instance Libc.stream_laws.

Definition opens (op : nat) (st : Libc.t) (fuel : nat) : option machine :=
  spawn_reader (s_send S) (s_address S) (s_app S) (s_fd S) (s_sync S) (s_buffers S) fuel op st.
Definition calls_in (a : app_call) (m : machine) (fuel : nat) : option (Z * machine) :=
  client_call (s_send S) (s_address S) (s_app S) (s_fd S) fuel a m.
Definition waits_in (p : polled) (m : machine) (fuel : nat) : option (outcome (Z * machine)) :=
  client_wait (s_send S) (s_address S) (s_app S) (s_fd S) fuel p m.

(** The stream of a new [reader_loop]: the memory of its ring, if it got any, and what the
    socket holds already. *)
Definition new_stream (st : Libc.t) : Prop :=
  exists mem rs, length mem = s_entries S * s_entry_size S /\ Forall (Libc.recv_ok (s_entry_size S)) rs /\
    Libc.make (s_entry_size S) (s_entries S) (Some mem) rs = Ok st.

(** The application calls on buffers it has, fewer than [2^64 - 1] times. *)
Definition may_call (a : app_call) (m : machine) : Prop :=
  call_ok (s_buffers S) a /\
  (Z.of_nat (Datatypes.S (length (issued (cl m))) + retries_left (s_retries S) (cl m)) < 2 ^ 64 - 1)%Z.

(** [poll] reports the descriptor only if it was given, and the socket reads as sockets do. *)
Definition polled_ok (p : polled) (m : machine) : Prop :=
  match p with
  | PollReady _ rs => LibcQueue.poll_set (table m) <> [] /\ client_recvs_ok rs m
  | _ => True
  end.

(** The client, whenever the application has the control outside of callbacks. *)
Inductive life : machine -> Prop :=
  | life_open op st m : new_stream st -> ends_in (opens op st) m -> life m
  | life_call a r m m' : life m -> may_call a m -> ends_in (calls_in a m) (r, m') -> life m'
  | life_wait p r m m' : life m -> polled_ok p m -> ends_in (waits_in p m) (Ok (r, m')) -> life m'.

(** ** What holds then *)

Abbreviation good := (good (s_sync S) (s_buffers S) (s_retries S) (s_fd S)).

Definition rest_ok (m : machine) : Prop :=
  good [] [] m /\ LibcQueue.table_ok (table m) /\
  forall fd', fd' <> s_fd S -> LibcQueue.fds (table m) !! fd' = None.

Hypothesis HS : setting_ok S.

(** Running keeps the table. *)
Lemma follows_rest m m' :
  follows (s_fd S) m m' -> good [] [] m' -> LibcQueue.table_ok (table m) ->
  (forall fd', fd' <> s_fd S -> LibcQueue.fds (table m) !! fd' = None) -> rest_ok m'.
Proof using Type.
  intros (_ & cs & Hcs & Ht) Hg Hok Helse. split; [done|]. rewrite Ht. split.
  - by apply LibcQueue.run_calls_ok.
  - intros fd' Hne. rewrite (run_calls_elsewhere (s_fd S)) by done. auto.
Qed.

(** Before [reader_loop] runs. *)
Definition opening (op : nat) (st : Libc.t) : machine :=
  Machine (client_init (s_sync S) (s_buffers S) st) op [] false
    (LibcQueue.set_read_op (s_fd S) op LibcQueue.init) 0 (Libc.queue st).

Lemma opening_good op st : new_stream st -> good [] [(Reader, [])] (opening op st).
Proof using HS.
  intros (mem & rs & Hmem & Hrs & Hmake). destruct (Libc.make_law _ _ _ _ _ Hmem Hrs Hmake) as [Hst Hw].
  split; [|split].
  - exists st, []. rewrite app_nil_r. split_and!; try done. constructor.
  - split; simpl; auto; try done.
    + apply NoDup_singleton.
    + intros f [?%not_elem_of_nil|[->%list_elem_of_singleton ?]]; done.
    + by intros id ?%list_elem_of_singleton.
    + intros [| |id] Hin; simpl; [done|exfalso; apply Hin; left|done].
    + change (Z.of_nat (sum_list (s_retries S)) < 2 ^ 64 - 1)%Z. apply (ao_total _ _ _ (proj2 HS)).
  - unfold registered. simpl. by apply (set_read_entry _ _ None).
Qed.

Lemma opens_ok op st : new_stream st -> exists m, ends_in (opens op st) m /\ rest_ok m.
Proof using HS.
  intros Hg%(opening_good op).
  destruct (client_run_ok _ (s_address S) _ (s_fd S) _ _ _ (proj1 HS) (proj2 HS) [] _ _ Hg)
    as (n & m & Hn & Hg' & Hf & _).
  exists m. split; [by exists n|]. apply (follows_rest (opening op st)); try done.
  - by apply LibcQueue.set_read_op_ok, map_Forall_empty.
  - intros fd' Hne. simpl. by rewrite lookup_insert_ne.
Qed.

(** The application is on the stack. *)
Lemma running_main a m :
  running (s_buffers S) (s_retries S) [] m -> may_call a m ->
  running (s_buffers S) (s_retries S) [(Main, [a])] m.
Proof using Type.
  intros [_ _ _ _ Hre Hw Hg _ _] [Ha Hn]. split; simpl; auto.
  - apply NoDup_singleton.
  - intros f [?%not_elem_of_nil|[->%list_elem_of_singleton ?]]; done.
  - by intros ?%list_elem_of_singleton.
  - by intros id ?%list_elem_of_singleton.
  - intros co _. apply Hre, not_elem_of_nil.
  - destruct Hw as [?|(op & id & f & Haw & _ & Hid)]; [by left|right]. exists op, id, f. split_and!; try done.
    by intros ?%list_elem_of_singleton.
  - repeat constructor. exact Ha.
  - unfold calls_left. simpl. lia.
Qed.

Lemma calls_ok a m : rest_ok m -> may_call a m -> exists r m', ends_in (calls_in a m) (r, m') /\ rest_ok m'.
Proof using HS.
  intros ((Hr & Hrun & Hreg) & Ht & Helse) Ha.
  destruct (client_run_ok _ (s_address S) _ (s_fd S) (s_sync S) (s_buffers S) (s_retries S) (proj1 HS) (proj2 HS) [] [(Main, [a])] m)
    as (n & m' & Hn & Hg' & Hf & _); [split; [done|split; [by apply running_main|done]]|].
  exists (call_result a m), m'. split; [|by apply (follows_rest m)].
  exists n. intros fuel Hfuel. unfold calls_in, client_call. by rewrite Hn.
Qed.

(** The answer of [poll] as [LibcQueue] has it. *)
Definition reaction_to (p : polled) (p' : LibcQueue.poll_result) : Prop :=
  match p, p' with
  | PollError e, LibcQueue.PollError e' => e = e'
  | PollTimeout, LibcQueue.PollTimeout => True
  | PollReady revents _, LibcQueue.PollReady pfds => exists rr wr, pfds = [(s_fd S, revents, rr, wr)]
  | _, _ => False
  end.

(** Only the client's descriptor is polled. *)
Lemma rest_poll_set m : rest_ok m -> (LibcQueue.poll_set (table m)).*1 `suffix_of` [s_fd S].
Proof using Type.
  intros (_ & Ht & Helse). rewrite LibcQueue.poll_set_all by done.
  destruct (LibcQueue.fds (table m) !! s_fd S) as [st|] eqn:Hst.
  - assert (LibcQueue.fds (table m) = {[s_fd S := st]}) as ->; [|rewrite map_to_list_singleton; by exists []].
    apply map_eq. intros fd'. destruct (decide (fd' = s_fd S)) as [->|Hne].
    + by rewrite Hst, lookup_singleton_eq.
    + rewrite lookup_singleton_ne by done. auto.
  - assert (LibcQueue.fds (table m) = ∅) as ->; [|rewrite map_to_list_empty; by exists [s_fd S]].
    apply map_eq. intros fd'. rewrite lookup_empty. destruct (decide (fd' = s_fd S)) as [->|]; auto.
Qed.

Lemma waits_ok p m :
  rest_ok m -> polled_ok p m ->
  exists r p', ends_in (waits_in p m) r /\ reaction_to p p' /\ LibcQueue.poll_ok p' (table m) /\
    LibcQueue.step p' (table m) = match r with Ok (_, m') => Ok (table m') | Throw e => Throw e end /\
    match r with
    | Ok (k, m') => rest_ok m' /\ k = to_int (u64 (total_dispatched (cl m') - total_dispatched (cl m)))
    | Throw e => True
    end /\
    match p, r with
    | PollReady _ _, Throw _ => False
    | PollReady _ _, Ok _ => True
    | PollTimeout, r => r = Ok (0%Z, m)
    | PollError e, r => r = if bool_decide (e = EINTR) then Ok (0%Z, m) else Throw (system_error e)
    end.
Proof using HS.
  intros Hok Hp. unfold waits_in, client_wait. destruct p as [e| |revents rs].
  - exists (if bool_decide (e = EINTR) then Ok (0%Z, m) else Throw (system_error e)), (LibcQueue.PollError e).
    unfold LibcQueue.step. simpl. case_bool_decide; (split; [exists 0; intros fuel _; by rewrite ?Z.sub_diag|]);
      split_and!; try done; try apply Hok; by rewrite Z.sub_diag.
  - exists (Ok (0%Z, m)), LibcQueue.PollTimeout. split; [exists 0; intros fuel _; simpl; by rewrite Z.sub_diag|].
    split_and!; try done; try apply Hok; by rewrite Z.sub_diag.
  - destruct Hp as [Hset Hrs]. pose proof (rest_poll_set m Hok) as Hfd. destruct Hok as (Hg & Ht & Helse).
    destruct (client_dispatch_rests _ (s_address S) _ _ _ _ _ (proj1 HS) (proj2 HS) revents rs m Hg Hrs)
      as (N & m' & rr & wr & Hrun & Hg' & Hrr & Hwr & Htab).
    exists (Ok (to_int (u64 (total_dispatched (cl m') - total_dispatched (cl m))), m')),
      (LibcQueue.PollReady [(s_fd S, revents, rr, wr)]).
    assert (Hstep : LibcQueue.step (LibcQueue.PollReady [(s_fd S, revents, rr, wr)]) (table m) = Ok (table m'))
      by (simpl; by rewrite Htab).
    split; [exists N; intros fuel Hfuel; simpl; by rewrite Hrun|]. split; [by exists rr, wr|].
    split; [|split; [done|split; [split; [split; [done|split]|done]|done]]].
    + simpl. destruct Hfd as [l Hl]. destruct (LibcQueue.poll_set (table m)) as [|x l']; [done|].
      destruct l as [|y l]; [done|]. simpl in Hl. injection Hl as _ Hl. by destruct l.
    + by eapply LibcQueue.libc_step_ok.
    + intros fd' Hne. rewrite Htab, (dispatch_elsewhere (s_fd S)) by done. auto.
Qed.

Lemma life_ok m : life m -> rest_ok m.
Proof using HS.
  induction 1 as [op st m Hst Hends|a r m m' _ IH Ha Hends|p r m m' _ IH Hp Hends].
  - destruct (opens_ok op st Hst) as (m1 & Hends1 & Hok). by rewrite (ends_in_unique _ _ _ Hends Hends1).
  - destruct (calls_ok a m IH Ha) as (r1 & m1 & Hends1 & Hok).
    pose proof (ends_in_unique _ _ _ Hends Hends1). by simplify_eq.
  - destruct (waits_ok p m IH Hp) as (r1 & p1 & Hends1 & _ & _ & _ & Hok & _).
    pose proof (ends_in_unique _ _ _ Hends Hends1). subst r1. apply Hok.
Qed.
End life.

(** A request is being sent, and its send would block. *)
Definition sending (m : machine) : Prop := exists id f, SendLock.procs (out (cl m)) !! id = Some (SendLock.Sends f).

Section rest.
Context `{NativeEndian} (S : setting).
#[local] Existing Instance Libc.stream_laws.
Hypothesis HS : setting_ok S.

Abbreviation good := (good (s_sync S) (s_buffers S) (s_retries S) (s_fd S)).

(** Whoever waits for the lock, waits for the one send in the table. *)
Lemma rest_sending pre m :
  good pre [] m ->
  (sending m /\ exists op id, awaiting m = [(op, id)]) \/
  (~ sending m /\ awaiting m = [] /\ SendLock.procs (out (cl m)) = ∅).
Proof using Type.
  intros (Hr & Hrun & _). destruct (running_inv _ _ _ _ _ Hr Hrun) as (_ & (_ & _ & q & Hl & _) & _).
  assert (Hrest : forall id, sender_rests m id) by (intros id; apply (rn_rests Hrun (Sender id)), not_elem_of_nil).
  destruct (rn_waits Hrun) as [Ha|(op & id & f & Ha & _ & Hid)]; [right|left].
  2:{ split; [by exists id, f|by exists op, id]. }
  assert (Hns : ~ sending m).
  { intros (id & f & Hid). specialize (Hrest id). unfold sender_rests in Hrest. rewrite Hid, Ha in Hrest. by destruct Hrest. }
  split; [done|]. split; [done|]. destruct q as [|h q].
  - apply map_empty. intros id. pose proof (SendLock.li_queue Hl id) as Hq. unfold SendLock.queue_ok in Hq.
    destruct (SendLock.procs (out (cl m)) !! id) as [[]|]; simpl in Hq; try done. by apply not_elem_of_nil in Hq.
  - exfalso. pose proof (SendLock.li_queue Hl h) as Hq. specialize (Hrest h). unfold sender_rests, SendLock.queue_ok in *.
    destruct (SendLock.procs (out (cl m)) !! h) as [[msg|f| |]|] eqn:Hh; simpl in Hq; try done.
    + by apply (proj1 (proj1 (list.NoDup_cons _ _) (SendLock.li_nodup Hl))).
    + apply Hns. by exists h, f.
    + apply Hq. left.
Qed.

(** *** The end of the connection *)

(** Once the reader is on its way out nothing is pending, and nobody calls. *)
Definition closing (stack : list frame) (m : machine) : Prop :=
  match pc (cl m) with
  | RFailing _ | REnd => pending (cl m) = ∅ /\ calls_left stack = 0
  | _ => True
  end.

Lemma closing_same stack stack' m m' :
  closing stack m -> pc (cl m') = pc (cl m) -> (pending (cl m) = ∅ -> pending (cl m') = ∅) ->
  calls_left stack' <= calls_left stack -> closing stack' m'.
Proof using Type.
  unfold closing. intros HP Hpc Hp Hl. rewrite Hpc.
  destruct (pc (cl m)); try done; destruct HP as [? ?]; (split; [auto|lia]).
Qed.

Lemma closing_reads l m m' :
  reads (cl m) (cl m') -> (l <> [] -> pc (cl m') = RTop) -> closing [(Reader, l)] m'.
Proof using Type.
  intros (_ & _ & Hc) Hl. unfold closing. destruct (pc (cl m')) eqn:Hpc; try done.
  split; [apply Hc|]. destruct l; [done|]. discriminate (Hl ltac:(done)).
Qed.

Lemma send_pending id res m :
  pending (cl m) = ∅ -> pending (cl (act (send_event id res) m)) = ∅.
Proof using Type.
  intros Hp. rewrite act_cl. unfold send_event. destruct (LibcQueue.op_end res); simpl; [done|].
  unfold send_failed. repeat case_match; simpl in *; rewrite ?Hp; done.
Qed.

(** The end of a send concerns its request only. *)
Lemma send_event_pc id res c : pc (Client.apply (send_event id res) c) = pc c.
Proof. unfold send_event. destruct (LibcQueue.op_end res); simpl; [done|]. unfold send_failed. by repeat case_match. Qed.

(** An application that makes no call from the callback of a request that failed. *)
Section closing.
Hypothesis Hquiet : s_retries S = [].

Lemma called_quiet m m' :
  (calls (cl m') = calls (cl m) \/ exists ca, calls (cl m') = calls (cl m) ++ [ca] /\ ca_resp ca = None) ->
  called (s_app S) m m' = [].
Proof using HS Hquiet.
  intros Hc. destruct (called_failed _ _ _ (proj2 HS) m m' Hc) as [_ Hl]. rewrite Hquiet in Hl.
  unfold retries_left in Hl. rewrite !drop_nil in Hl. simpl in Hl. apply nil_length_inv. lia.
Qed.

Lemma send_calls id f res m0 m :
  cl m = cl m0 -> SendLock.procs (out (cl m0)) !! id = Some (SendLock.Sends f) ->
  called (s_app S) m0 (act (send_event id res) m) = [].
Proof using HS Hquiet.
  intros Hcl Hid. apply called_quiet. rewrite act_cl, Hcl. unfold send_event. destruct (LibcQueue.op_end res); [by left|].
  by destruct (send_failed_fails id f (cl m0) Hid) as (_ & _ & _ & _ & _ & _ & Hc).
Qed.

Lemma closing_turn pre f stack m :
  good pre (f :: stack) m -> closing (f :: stack) m ->
  let r := turn (s_send S) (s_address S) (s_app S) (s_fd S) f m in closing (r.1 ++ stack) r.2.
Proof using HS Hquiet.
  intros Hg HP. pose proof Hg as (Hr & Hrun & _). unfold turn. cbv zeta. destruct f as [co [|a cs]]; cbn [fst snd].
  2:{ destruct (running_inv _ _ _ _ _ Hr Hrun) as (_ & Hinv & _).
    destruct (call_issues a _ (cl m) Hinv) as (Hpc & _); [apply length_fmap|]. rewrite <- act_cl in Hpc.
    unfold closing in *. rewrite Hpc. destruct (pc (cl m)); try done; by destruct HP as [_ HP]. }
  assert (Hpop : forall m', cl m' = cl m -> closing ([] ++ stack) m').
  { intros m' Hcl. apply (closing_same ((co, []) :: stack) _ m); rewrite ?Hcl; try done. }
  destruct co as [| |id]; simpl; [by apply Hpop|..].
  - destruct (pc (cl m)) as [| |resp pd|l| | |resp pd] eqn:Hpc; simpl; auto.
    + pose proof (reader_alone _ _ _ _ _ Hrun) as ->. pose proof (reader_run_reads _ Hpc) as Hreads.
      change (reader_run (cl m)) with (Client.apply Run (cl m)) in Hreads. rewrite <- act_cl in Hreads.
      destruct (called_reads _ _ _ (proj2 HS) _ _ Hreads (stack_few _ _ _ _ Hrun)) as [Hc _].
      by apply (closing_reads _ m).
    + destruct (fail_next_fails l _ Hpc) as (_ & _ & Hp & Hl).
      change (fail_next (cl m)) with (Client.apply FailNext (cl m)) in *. rewrite <- act_cl in *.
      rewrite (called_quiet m (act FailNext m)) by (destruct l; [left|right]; apply Hl).
      unfold closing in *. rewrite Hpc in HP. rewrite Hp. by destruct l; destruct Hl as [-> _].
    + apply Hpop. by destruct m.
  - destruct (SendLock.procs (out (cl m)) !! id) as [[msg|f| |]|] eqn:Hid; simpl; auto.
    + destruct (LibcQueue.try_op _) as [res|] eqn:Hres; simpl; [|apply Hpop; by destruct m].
      assert (called (s_app S) m (act (send_event id res) (tick m)) = []) as ->
        by (apply (send_calls id f res); [by destruct m|done]).
      apply (closing_same ((Sender id, []) :: stack) _ m); [done|rewrite act_cl, send_event_pc; by destruct m| |done].
      intros Hp. apply send_pending. by destruct m.
    + apply (closing_same ((Sender id, []) :: stack) _ m); [done|by rewrite act_cl|by rewrite act_cl|].
      unfold calls_left. rewrite sum_list_with_app. simpl. by destruct (Mutex.unlock _).1.
Qed.

Lemma closing_receive (ev : rs_event) m :
  good [] [] m -> gone m = false -> rs_event_ok ev (stream (cl m)) ->
  let m' := act (Receive ev) m in
  match (rs_complete ev (stream (cl m))).2 with
  | Some _ => closing [(Reader, called (s_app S) m m')] m'
  | None => closing [] m'
  end.
Proof using HS Hquiet.
  intros Hg Hgone Hev m'. pose proof (client_rest_pc _ _ _ _ _ _ Hg Hgone) as Hpc.
  destruct (received_good (s_app S) (s_fd S) (s_sync S) (s_buffers S) (s_retries S) (proj2 HS) ev [] m Hg Hgone Hev) as [_ Hok]. fold m' in Hok.
  destruct (rs_complete ev (stream (cl m))).2 as [h|] eqn:Hw.
  - destruct Hpc as [Hpc|[Hpc|(resp & pd & Hpc)]].
    3:{ exfalso. destruct Hg as (Hr & Hrun & _). destruct (running_inv _ _ _ _ _ Hr Hrun) as (_ & _ & Hst & rest & _ & Hconn).
        rewrite Hpc in Hconn. pose proof (rs_complete_law ev _ Hst Hev) as Hlaw.
        destruct (rs_complete ev (stream (cl m))) as [st w]. simpl in Hw. subst w.
        destruct Hlaw as (_ & _ & _ & _ & Hwk & _). destruct (proj1 (Hwk h) eq_refl) as [Hx _]. destruct Hconn as [? _]. congruence. }
    1: pose proof (receive_reads ev (cl m) (or_introl Hpc)) as Hreads.
    2: pose proof (receive_reads ev (cl m) (or_intror Hpc)) as Hreads.
    all: rewrite Hw in Hreads; change (receive ev (cl m)) with (Client.apply (Receive ev) (cl m)) in Hreads.
    all: rewrite <- act_cl in Hreads; fold m' in Hreads.
    all: destruct (called_reads _ _ _ (proj2 HS) _ _ Hreads (stack_few _ _ _ _ (proj1 (proj2 Hg)))) as [Hc _].
    all: by apply (closing_reads _ m).
  - destruct Hok as (_ & Hpc' & _). unfold closing. rewrite Hpc'.
    by destruct Hpc as [-> |[(? & ? & ->)|(? & ? & ->)]].
Qed.

Lemma closing_ready op id f res m m1 :
  good [] [] m -> awaiting m = [(op, id)] -> SendLock.procs (out (cl m)) !! id = Some (SendLock.Sends f) ->
  LibcQueue.try_op (s_send S m (offer f)) = Some res -> closing [] m ->
  cl m1 = cl m -> got m1 = got m -> awaiting m1 = [] -> clock m1 = Datatypes.S (clock m) ->
  good [op] [(Sender id, [])] m1 ->
  closing [(Sender id, called (s_app S) m1 (act (send_event id res) m1))] (act (send_event id res) m1).
Proof using HS Hquiet.
  intros _ _ Hid _ HP Hcl _ _ _ _. rewrite (send_calls id f res) by (done || by rewrite Hcl). apply (closing_same [] _ m); [done| | |done].
  - by rewrite act_cl, send_event_pc, Hcl.
  - intros Hp. apply send_pending. by rewrite Hcl.
Qed.

End closing.

Lemma closing_rest m m' :
  closing [] m -> cl m' = cl m -> got m' = got m -> awaiting m' = awaiting m -> clock m <= clock m' -> closing [] m'.
Proof using Type. intros HP Hcl _ _ _. unfold closing. by rewrite Hcl. Qed.

(** *** What happened since *)

(** The client made a run of [Client], receiving what is new in [got]. *)
Definition came (m0 m : machine) : Prop :=
  exists d, reach (cl m0) d (cl m) /\ got m = got m0 ++ d.

Lemma came_refl m : came m m.
Proof using Type. exists []. split; [constructor|by rewrite app_nil_r]. Qed.

Lemma came_acted m0 m m' : came m0 m -> acted m m' -> came m0 m'.
Proof using Type.
  intros (d & Hd & Hgot) [[Hcl Hg]|(e & He & Hcl & Hg)].
  - exists d. by rewrite Hcl, Hg.
  - exists (d ++ Client.received e (cl m)). rewrite Hcl, Hg, Hgot, app_assoc. split; [by constructor|done].
Qed.

Lemma came_turn m0 pre f stack m :
  good pre (f :: stack) m -> came m0 m ->
  came m0 (turn (s_send S) (s_address S) (s_app S) (s_fd S) f m).2.
Proof using HS. intros Hg Hm. eapply came_acted; [done|]. by eapply (client_turn_acted _ _ _ _ _ _ _ (proj1 HS)). Qed.

Lemma came_receive m0 (ev : rs_event) m :
  good [] [] m -> gone m = false -> rs_event_ok ev (stream (cl m)) -> came m0 m -> came m0 (act (Receive ev) m).
Proof using Type.
  intros Hg Hgone Hev Hm. eapply came_acted; [done|]. apply act_acted; [|done..]. split; [|done].
  destruct (client_rest_pc _ _ _ _ _ _ Hg Hgone) as [-> |[(? & ? & ->)|(? & ? & ->)]]; done.
Qed.

Lemma came_ready m0 op id f res m m1 :
  good [] [] m -> SendLock.procs (out (cl m)) !! id = Some (SendLock.Sends f) ->
  LibcQueue.try_op (s_send S m (offer f)) = Some res -> came m0 m ->
  cl m1 = cl m -> got m1 = got m -> good [op] [(Sender id, [])] m1 -> came m0 (act (send_event id res) m1).
Proof using HS.
  intros (Hr & Hrun & _) Hid Hres Hm Hcl Hgot _. eapply came_acted; [done|]. apply act_acted; [|done..].
  apply (send_enabled _ (proj1 HS) m m id f res eq_refl Hid); [|done]. by eapply client_sender_frame.
Qed.
End rest.
