(* ===== verification/LibcClientLife.v ===== *)
(** * What an application can count on, on the poll-driven queue

    The theorems about the life of a client ([LibcClientWait]): what [wait] polls, that it
    returns and what it returns, that it is a [wait] of [Client] and a [step] of
    [LibcQueue], and what a client with nothing to send, a socket that flows, and the end
    of the connection mean for the requests. *)

From S2P Require Import Prelude Protocol Sync RecvStream FramedReader LibcRecvStream Queue Wire Client ClientTeardown LibcEntry LibcClient LibcClientTurns LibcClientWait.
From S2P Require LibcQueue SendLock.

Open Scope nat_scope.

Section waits.
Context `{NativeEndian} (S : setting).
#[local] Existing Instance Libc.stream_laws.
Hypothesis HS : setting_ok S.

Abbreviation good := (good (s_sync S) (s_buffers S) (s_retries S) (s_fd S)).

(** [wait] on a ready descriptor is [dispatch]. *)
Lemma waits_dispatch revents rs m k m' :
  ends_in (waits_in S (PollReady revents rs) m) (Ok (k, m')) ->
  exists fuel, dispatch (s_send S) (s_address S) (s_app S) (s_fd S) fuel revents rs m = Some m'.
Proof using Type.
  intros [N HN]. exists N. specialize (HN N ltac:(lia)). unfold waits_in, client_wait, step in HN.
  destruct (dispatch _ _ _ _ N revents rs m); by simplify_eq/=.
Qed.

(** What a call does, and a [wait], is a run of [Client]. *)
Lemma calls_came a m r m' :
  rest_ok S m -> may_call S a m -> ends_in (calls_in S a m) (r, m') ->
  enabled (call_event a) (cl m) /\ came (act (call_event a) m) m' /\ r = call_result a m.
Proof using HS.
  intros ((Hr & Hrun & Hreg) & _ & _) Ha [N HN]. specialize (HN (1 + N) ltac:(lia)).
  unfold calls_in, client_call in HN. cbn [run Nat.add turn fst snd] in HN.
  assert (Hg : good [] [(Main, [a])] m) by (split; [done|split; [by apply (running_main S)|done]]).
  destruct (call_good (s_fd S) _ _ _ Main a [] [] [] m Hg) as [Hg1 _].
  rewrite app_nil_r in *. set (m1 := act (call_event a) m) in *.
  destruct (run _ _ _ _ N _ m1) as [m2|] eqn:Hm2; simplify_eq/=.
  split; [by eapply call_enabled; [|apply Ha]|]. split; [|done].
  apply (client_run_keeps _ (s_address S) _ _ _ _ _ (proj1 HS) (proj2 HS) (fun _ => came m1)
    (fun pre f st m0 Hm0 => came_turn S HS m1 pre f st m0 Hm0) N [] _ m1 m' Hg1 (came_refl m1) Hm2).
Qed.

Lemma waits_came p m k m' :
  rest_ok S m -> polled_ok p m -> ends_in (waits_in S p m) (Ok (k, m')) -> came m m'.
Proof using HS.
  intros (Hg & _) Hp Hends. destruct p as [e| |revents rs].
  1, 2: destruct Hends as [N HN]; specialize (HN N ltac:(lia)); unfold waits_in, client_wait, step in HN;
    simpl in HN; try case_bool_decide; simplify_eq; apply came_refl.
  destruct (waits_dispatch _ _ _ _ _ Hends) as [fuel Hd]. destruct Hp as [_ Hrs].
  eapply (dispatch_keeps _ (s_address S) _ _ _ _ _ (proj1 HS) (proj2 HS) (fun _ => came m)); [..|exact Hg|exact Hrs|apply came_refl|exact Hd].
  - intros pre f st m0 Hm0. by apply (came_turn S HS m pre f st).
  - intros ev m0 Hm0 Hgone Hev HP. destruct (rs_complete ev (stream (cl m0))).2; by apply (came_receive S).
  - intros op id f res m0 m1 Hm0 _ Hid Hres HP Hcl Hgot _ _ Hm1. by apply (came_ready S HS m op id f res m0).
  - intros m0 m1 HP Hcl Hgot _ _. destruct HP as (d & Hd' & Hg'). exists d. by rewrite Hcl, Hgot.
Qed.
End waits.

(** *** What is polled *)

Section polls.
Context `{NativeEndian} (S : setting).
#[local] Existing Instance Libc.stream_laws.
Hypothesis HS : setting_ok S.

(** The reader waits for its stream, with the whole ring free, or it is gone. *)
Lemma rest_reader m :
  rest_ok S m ->
  match pc (cl m) with
  | RHeader | RBody _ _ =>
      gone m = false /\ Libc.inv (stream (cl m)) /\ Libc.waiter (stream (cl m)) = Some me /\
      Libc.something (stream (cl m)) = false /\ Libc.lent (stream (cl m)) = []
  | REnd => gone m = true
  | ROverflow _ _ => gone m = false
  | _ => False
  end.
Proof using Type.
  intros ((Hr & Hrun & _) & _). destruct (running_inv _ _ _ _ _ Hr Hrun) as (_ & _ & Hst & rest & _ & Hconn).
  pose proof (rn_rests Hrun Reader (not_elem_of_nil _)) as Hre. pose proof (rn_gone Hrun) as Hg.
  unfold rests, reader_rests in Hre. change (Libc.inv (stream (cl m))) in Hst.
  destruct (pc (cl m)) eqn:Hpc; try done.
  - destruct Hconn as (_ & _ & _ & Hw). change (Libc.waiter (stream (cl m)) = Some me) in Hw.
    split; [by destruct (gone m); [specialize (Hg eq_refl)|]|]. split; [done|]. split; [done|].
    apply (proj2 Hst). by rewrite Hw.
  - destruct Hconn as (_ & _ & _ & _ & _ & _ & _ & Hw). change (Libc.waiter (stream (cl m)) = Some me) in Hw.
    split; [by destruct (gone m); [specialize (Hg eq_refl)|]|]. split; [done|]. split; [done|].
    apply (proj2 Hst). by rewrite Hw.
  - by destruct (gone m); [specialize (Hg eq_refl)|].
Qed.

Lemma rest_gone m : rest_ok S m -> gone m = true <-> pc (cl m) = REnd.
Proof using Type. intros Hm%rest_reader. destruct (pc (cl m)); try done; destruct_and?; (split; [congruence|done]). Qed.

Lemma rest_polls m :
  rest_ok S m ->
  exists r s : bool, (r = true <-> pc (cl m) <> REnd) /\ (s = true <-> sending m) /\
    LibcQueue.poll_set (table m) =
      if r || s then [(s_fd S, Z.lor (if r then LibcQueue.POLLIN else 0) (if s then LibcQueue.POLLOUT else 0))] else [].
Proof using Type.
  intros Hok. pose proof (rest_gone m Hok) as Hgone. destruct Hok as (Hg & Ht & Helse).
  pose proof Hg as (_ & _ & [Hro Hwq]). simpl in Hwq.
  exists (negb (gone m)), (negb (bool_decide (awaiting m = []))). split; [|split].
  - rewrite negb_true_iff, <- Hgone. by destruct (gone m).
  - rewrite negb_true_iff, bool_decide_eq_false.
    destruct (rest_sending S [] m Hg) as [[Hs (op & id & ->)]|(Hs & -> & _)]; split; try done; by intros [].
  - assert (Hfds : LibcQueue.fds (table m) = match LibcQueue.fds (table m) !! s_fd S with Some st => {[s_fd S := st]} | None => ∅ end).
    { apply map_eq. intros fd'. destruct (decide (fd' = s_fd S)) as [->|Hne].
      - destruct (LibcQueue.fds (table m) !! s_fd S); [by rewrite lookup_singleton_eq|done].
      - rewrite Helse by done. destruct (LibcQueue.fds (table m) !! s_fd S); [by rewrite lookup_singleton_ne|done]. }
    unfold LibcQueue.poll_set. rewrite Hfds. unfold LibcQueue.entry in Hro, Hwq.
    destruct (LibcQueue.fds (table m) !! s_fd S) as [[ro g wq]|] eqn:Hst; simpl in Hro, Hwq; subst.
    + rewrite map_to_list_singleton. cbn [fmap list_fmap LibcQueue.events LibcQueue.read_op LibcQueue.write_queue].
      pose proof (Ht _ _ Hst) as He. unfold LibcQueue.fd_empty, LibcQueue.events in *. simpl in *.
      destruct (gone m), (awaiting m) as [|[op id] aw]; simpl in *; done.
    + rewrite map_to_list_empty. by destruct (gone m), (awaiting m).
Qed.
End polls.

(** *** The counting of callbacks *)

Lemma to_int_u64 z : to_int (u64 z) = to_int z.
Proof.
  unfold to_int, u64. assert ((z mod 2 ^ 64) mod 2 ^ 32 = z mod 2 ^ 32)%Z as ->; [|done].
  apply Z.mod_mod_divide. by exists (2 ^ 32)%Z.
Qed.

Lemma to_int_small z : (0 <= z < 2 ^ 31)%Z -> to_int z = z.
Proof. intros Hz. unfold to_int. rewrite Z.mod_small by lia. rewrite bool_decide_true; lia. Qed.

Section counts.
Context `{NativeEndian} (S : setting).
#[local] Existing Instance Libc.stream_laws.
Hypothesis HS : setting_ok S.

Lemma rest_total m : rest_ok S m -> total_dispatched (cl m) = u64 (Z.of_nat (length (calls (cl m)))).
Proof using Type. intros ((Hr & Hrun & _) & _). by destruct (running_inv _ _ _ _ _ Hr Hrun) as ([] & _). Qed.

Lemma came_calls m m' : came m m' -> calls (cl m) `prefix_of` calls (cl m').
Proof using Type. intros (d & Hd & _). by eapply reach_calls. Qed.

(** The difference [wait] returns. *)
Lemma rest_counts m m' :
  rest_ok S m -> rest_ok S m' -> came m m' ->
  exists cs, calls (cl m') = calls (cl m) ++ cs /\
    to_int (u64 (total_dispatched (cl m') - total_dispatched (cl m))) = to_int (Z.of_nat (length cs)).
Proof using Type.
  intros Hm Hm' [cs Hcs]%came_calls. exists cs. split; [done|].
  rewrite (rest_total m Hm), (rest_total m' Hm'), Hcs, length_app. rewrite to_int_u64.
  rewrite <- (to_int_u64 (Z.of_nat (length cs))), <- (to_int_u64 (_ - _)). f_equal.
  unfold u64. rewrite <- Zminus_mod. f_equal. lia.
Qed.
End counts.

(** C10: nothing hangs for want of a wakeup. Whenever the application has the control (after
    the constructor, any calls and any [wait]s), the set the next [wait] will poll is exactly
    the socket: for reading unless [reader_loop] has returned, and for writing if and only if
    a request is being sent; with neither, it is empty. Every [send_request] that has not
    returned waits for a lock whose holder is in that table. And the reader, unless it
    returned, is registered as the waiter of a stream that has neither data nor an end for
    it and whose whole ring is free, so whatever the socket gets next wakes it. *)
Theorem client_no_lost_wakeup `{NativeEndian} (S : setting) (m : machine) :
  setting_ok S -> life S m ->
  (exists r s : bool, (r = true <-> pc (cl m) <> REnd) /\ (s = true <-> sending m) /\
     LibcQueue.poll_set (table m) =
       if r || s then [(s_fd S, Z.lor (if r then LibcQueue.POLLIN else 0) (if s then LibcQueue.POLLOUT else 0))] else []) /\
  (SendLock.procs (out (cl m)) <> ∅ -> sending m) /\
  match pc (cl m) with
  | RHeader | RBody _ _ =>
      Libc.waiter (stream (cl m)) = Some me /\ Libc.something (stream (cl m)) = false /\
      Libc.lent (stream (cl m)) = []
  | REnd | ROverflow _ _ => True
  | _ => False
  end.
Proof.
  intros HS Hm%(life_ok S HS). split; [by apply rest_polls|]. split.
  - intros Hne. by destruct (rest_sending S [] m (proj1 Hm)) as [[? _]|(_ & _ & ?)].
  - apply rest_reader in Hm. destruct (pc (cl m)); destruct_and?; by split_and?.
Qed.

(** C11: the client never blocks its application but in [poll]. The end of the constructor
    returns, with [reader_loop] at its first suspension; every [pread] and [pwrite] returns;
    and every [wait] does, whatever [poll] answers: with [0] and nothing done at a timeout
    or [EINTR], with the exception of any other error of [poll], and otherwise with the
    number of callbacks made meanwhile, as an [int]. All this with callbacks that call
    [pread] and [pwrite] again, short writes, and senders that hand over the lock. The
    callback of a response may make any calls; that of a request which failed may too, at
    most [s_retries] of them, one bound for each failure in turn. Requests are fewer than
    [2^64 - 1] in all. The bound is needed: an application that always asks again over a
    connection that is gone never gets back from [pread]
    ([LibcClientExamples.retry_spins]). *)
Theorem client_wait_returns `{NativeEndian} (S : setting) :
  setting_ok S ->
  (forall op st, new_stream S st -> exists m, ends_in (opens S op st) m /\ life S m) /\
  (forall a m, life S m -> may_call S a m ->
     exists m', ends_in (calls_in S a m) (call_result a m, m') /\ life S m') /\
  forall p m, life S m -> polled_ok p m ->
    exists r, ends_in (waits_in S p m) r /\
      match p, r with
      | PollError e, Ok r => e = EINTR /\ r = (0%Z, m)
      | PollError e, Throw x => e <> EINTR /\ x = system_error e
      | PollTimeout, r => r = Ok (0%Z, m)
      | PollReady _ _, Ok (k, m') =>
          life S m' /\ exists cs, calls (cl m') = calls (cl m) ++ cs /\ k = to_int (Z.of_nat (length cs))
      | PollReady _ _, Throw _ => False
      end.
Proof.
  intros HS. split; [|split].
  - intros op st Hst. destruct (opens_ok S HS op st Hst) as (m & Hm & _). exists m. split; [done|]. by econstructor.
  - intros a m Hm Ha. destruct (calls_ok S HS a m (life_ok S HS m Hm) Ha) as (r & m' & Hends & Hok).
    destruct (calls_came S HS a m r m' (life_ok S HS m Hm) Ha Hends) as (_ & _ & ->).
    exists m'. split; [done|]. by eapply life_call.
  - intros p m Hm Hp. pose proof (life_ok S HS m Hm) as Hok.
    destruct (waits_ok S HS p m Hok Hp) as (r & p' & Hends & _ & _ & _ & Hr & Hcase). exists r. split; [done|].
    destruct p as [e| |revents rs]; [case_bool_decide; by subst r|done|].
    destruct r as [[k m']|]; [|done]. split; [by eapply life_wait|]. destruct Hr as [Hok' ->].
    apply (rest_counts S); [done..|]. by eapply waits_came.
Qed.

(** C12: the composed client does what the separate models say. Whenever the application has
    the control, the client is in a reachable state of [Client] over the poll-driven
    stream, having received [got]; a call of the application is that call of [Client],
    followed by steps of its coroutines; and a [wait] is a [Client.wait] over some events
    that [Client] allows, returns its result (as an [int]), and changes the table as
    [LibcQueue.step] does when it is given the answer of [poll] for the one descriptor
    polled. So every theorem about [Client], [ClientTeardown], [EndToEnd] and [LibcQueue] is
    about this program. *)
Theorem client_refines `{NativeEndian} (S : setting) (m : machine) :
  setting_ok S -> life S m ->
  (exists st recv, Libc.inv st /\ Libc.waiter st = None /\ got m = Libc.queue st ++ recv /\
     reach (H1 := Libc.stream_laws) (client_init (s_sync S) (s_buffers S) st) recv (cl m)) /\
  (forall a r m', may_call S a m -> ends_in (calls_in S a m) (r, m') ->
     exists es recv, exec_ok (H1 := Libc.stream_laws) (call_event a :: es) (cl m) /\
       exec (H1 := Libc.stream_laws) (call_event a :: es) (cl m) = (recv, cl m') /\ got m' = got m ++ recv) /\
  forall p k m', polled_ok p m -> ends_in (waits_in S p m) (Ok (k, m')) ->
    exists es n p', exec_ok (H1 := Libc.stream_laws) es (cl m) /\
      Client.wait (H1 := Libc.stream_laws) es (cl m) = (n, cl m') /\ k = to_int n /\
      reaction_to S p p' /\ LibcQueue.poll_ok p' (table m) /\ LibcQueue.step p' (table m) = Ok (table m').
Proof.
  intros HS Hm. pose proof (life_ok S HS m Hm) as Hok. pose proof Hok as ((Hr & _) & _). split; [exact Hr|]. split.
  - intros a r m' Ha Hends. destruct (calls_came S HS a m r m' Hok Ha Hends) as (He & (d & Hd & Hgot) & _).
    apply ts_reach_exec in Hd as (es & Hes & Hrun). rewrite act_cl in Hes, Hrun.
    exists es, (Client.received (H1 := Libc.stream_laws) (call_event a) (cl m) ++ d). split; [by split|]. split.
    + unfold exec. cbn [ts_exec]. by rewrite Hrun.
    + by rewrite Hgot, act_got, app_assoc.
  - intros p k m' Hp Hends. pose proof (waits_came S HS p m k m' Hok Hp Hends) as (d & Hd & _).
    apply ts_reach_exec in Hd as (es & Hes & Hrun).
    destruct (waits_ok S HS p m Hok Hp) as (r & p' & Hends' & Hp' & Hpoll & Hstep & Hr' & _).
    pose proof (ends_in_unique _ _ _ Hends Hends') as <-. destruct Hr' as [_ Hk].
    exists es, (u64 (total_dispatched (cl m') - total_dispatched (cl m))), p'. split; [done|]. split; [|done].
    unfold Client.wait. rewrite <- ts_exec_foldl with (received := Client.received (H1 := Libc.stream_laws)).
    unfold exec in *. by rewrite Hrun.
Qed.

(** *** The senders, when the socket takes everything *)

Section serves.
Context `{NativeEndian} (S : setting).
#[local] Existing Instance Libc.stream_laws.
Hypothesis HS : setting_ok S.

Abbreviation good := (good (s_sync S) (s_buffers S) (s_retries S) (s_fd S)).

(** With nothing being sent, everything was. *)
Lemma rest_quiet m :
  rest_ok S m -> ~ sending m ->
  SendLock.procs (out (cl m)) = ∅ /\
  SendLock.begun (out (cl m)) = zip (seq 0 (length (issued (cl m)))) (request_image <$> issued (cl m)) /\
  wire_ok None (SendLock.begun (out (cl m))) (SendLock.failed (out (cl m))) (SendLock.wire (out (cl m))).
Proof using Type.
  intros ((Hr & Hrun & Hreg) & Ht) Hns.
  assert (Hp : SendLock.procs (out (cl m)) = ∅)
    by (by destruct (rest_sending S [] m) as [[? _]|(_ & _ & ?)]).
  destruct (running_inv _ _ _ _ _ Hr Hrun) as (Hb & Hlock & _).
  destruct (SendLock.inv_quiet _ _ Hlock Hp) as [Hbeg Hw]. split; [done|]. split; [|done].
  rewrite Hbeg, length_fmap. f_equal. rewrite <- list_fmap_compose. apply list_fmap_ext.
  intros i req Hi. apply request_message_image. by apply (bk_issued Hb i).
Qed.

(** From [since] on the socket does not block. *)
Context (since : nat).
Hypothesis flows : forall m iov, since <= clock m -> s_send S m iov <> Errno EAGAIN.

Lemma client_flows_try m iov : since <= clock m -> LibcQueue.try_op (s_send S m iov) <> None.
Proof using flows.
  intros Hk. specialize (flows m iov Hk). unfold LibcQueue.try_op.
  destruct (s_send S m iov) as [v|e]; [done|]. case_bool_decide; [congruence|done].
Qed.

(** Then no send suspends. [A]: nor did one before. *)
Definition flowing (A : Prop) (m : machine) : Prop := since <= clock m /\ (A -> awaiting m = []).

Lemma flowing_turn A f m :
  flowing A m -> flowing A (turn (s_send S) (s_address S) (s_app S) (s_fd S) f m).2.
Proof using flows.
  intros [Hk HA]. assert (Hsame : forall m', clock m <= clock m' -> awaiting m' = awaiting m -> flowing A m').
  { intros m' Hk' Ha. split; [lia|by rewrite Ha]. }
  unfold turn. destruct f as [[| |id] [|a cs]]; cbn [fst snd resume]; try (by apply Hsame; destruct m).
  - destruct (pc (cl m)); by apply Hsame; destruct m.
  - destruct (SendLock.procs (out (cl m)) !! id) as [[]|]; try (by apply Hsame; destruct m).
    destruct (LibcQueue.try_op _) as [res|] eqn:Hres; [|by destruct (client_flows_try _ _ Hk Hres)].
    apply Hsame; destruct m; simpl; [lia|done].
Qed.

Lemma waits_flow revents rs m k m' :
  rest_ok S m -> polled_ok (PollReady revents rs) m -> since <= clock m ->
  (sending m -> LibcQueue.has_event LibcQueue.POLLOUT revents = true) ->
  ends_in (waits_in S (PollReady revents rs) m) (Ok (k, m')) -> awaiting m' = [].
Proof using HS flows.
  intros (Hg & _) [_ Hrs] Hk Hout Hends. destruct (waits_dispatch _ _ _ _ _ _ Hends) as [fuel Hd].
  set (A := LibcQueue.has_event LibcQueue.POLLOUT revents = false).
  assert (HA : A -> awaiting m = []).
  { unfold A. intros Hno. destruct (rest_sending S [] m Hg) as [[Hs _]|(_ & ? & _)]; [|done].
    rewrite (Hout Hs) in Hno. done. }
  destruct (dispatch_keeps _ (s_address S) _ (s_fd S) (s_sync S) _ _ (proj1 HS) (proj2 HS) (fun _ => flowing A)) with
    (fuel := fuel) (revents := revents) (rs := rs) (m := m) (m' := m') as [[Hk' HA'] Hblocked]; try done.
  - intros. by apply flowing_turn.
  - intros ev m0 _ _ _ [Hk0 HA0]. destruct (rs_complete ev (stream (cl m0))).2; by split; destruct m0.
  - intros op id f res m0 m1 _ _ _ _ [Hk0 _] _ _ Ha1 Hk1 _.
    split; [destruct m1; simpl in *; lia|]. by destruct m1.
  - intros m0 m1 [Hk0 HA0] _ _ Ha Hk1. split; [lia|by rewrite Ha].
  - destruct (awaiting m') as [|x aw] eqn:Haw; [done|]. exfalso.
    destruct (LibcQueue.has_event LibcQueue.POLLOUT revents) eqn:Hev.
    + destruct Hblocked as (m1 & op & id & f & _ & [Hk1 _] & _ & _ & Hnone); [done|done|].
      by apply (client_flows_try m1 (offer f)).
    + discriminate HA'. done.
Qed.
End serves.

(** *** The end of the connection *)

Section ends.
Context `{NativeEndian} (S : setting).
#[local] Existing Instance Libc.stream_laws.
Hypothesis HS : setting_ok S.

Abbreviation good := (good (s_sync S) (s_buffers S) (s_retries S) (s_fd S)).

Lemma came_entries m m' :
  came m m' -> Libc.entries (stream (cl m')) = Libc.entries (stream (cl m)).
Proof using Type.
  intros (d & Hd & _). set (n := Libc.entries (stream (cl m))).
  apply (reach_stream_keeps (fun s => Libc.entries s = n) (cl m) d (cl m')); try done.
  - intros cap max s <-. apply Libc.take_batch_entries.
  - intros ev s <-. apply Libc.complete_entries.
Qed.

Lemma opens_came op st m : new_stream S st -> ends_in (opens S op st) m -> came (opening S op st) m.
Proof using HS.
  intros Hst [N HN]. specialize (HN N ltac:(lia)). pose proof (opening_good S HS op st Hst) as Hg.
  apply (client_run_keeps _ (s_address S) _ _ _ _ _ (proj1 HS) (proj2 HS) (fun _ => came (opening S op st))
    (fun pre f stk m0 Hm0 => came_turn S HS (opening S op st) pre f stk m0 Hm0) N [] _ (opening S op st) m Hg
    (came_refl _) HN).
Qed.

(** The ring has the size it was made with. *)
Lemma life_entries m : life S m -> Libc.entries (stream (cl m)) = s_entries S.
Proof using HS.
  induction 1 as [op st m Hst Hends|a r m m' Hm IH Ha Hends|p r m m' Hm IH Hp Hends].
  - rewrite (came_entries _ _ (opens_came op st m Hst Hends)). destruct Hst as (mem & rs & _ & _ & [= <-]).
    exact (Libc.complete_entries (Libc.EvReady rs) _).
  - destruct (calls_came S HS a m r m' (life_ok S HS m Hm) Ha Hends) as (He & Hc & _).
    rewrite (came_entries _ _ Hc), <- IH. rewrite act_cl. destruct a as [b size offset k|data offset k]; simpl;
      unfold pread, pwrite; by case_bool_decide.
  - by rewrite (came_entries _ _ (waits_came S HS p m r m' (life_ok S HS m Hm) Hp Hends)).
Qed.

(** The reader is on its way out, and all that is called are the requests it fails. *)
Definition over_pc (p : reader_pc) : Prop := match p with RFailing _ | REnd => True | _ => False end.

Definition ended (c0 : client Libc.t) (stack : list frame) (m : machine) : Prop :=
  over_pc (pc (cl m)) /\ closing stack m /\ issued (cl m) = issued c0 /\
  exists more, calls (cl m) = calls c0 ++ more /\ Forall (fun ca => ca_res ca = (- ECONNRESET)%Z) more.

Lemma ended_quiet c0 stack stack' m m' :
  ended c0 stack m -> closing stack' m' -> cl m' = cl m -> ended c0 stack' m'.
Proof using Type. intros (Hpc & _ & Hi & Hm) Hc Hcl. unfold ended. by rewrite Hcl. Qed.

(** What the coroutines still do then. *)
Lemma ended_act c0 stack stack' e m :
  ended c0 stack m -> closing stack' (act e m) ->
  match e with FailNext | Accept _ _ | SendFails _ | Client.Leave _ => True | _ => False end ->
  ended c0 stack' (act e m).
Proof using Type.
  intros (Hpc & _ & Hi & more & Hc & Hmore) Hcl He. unfold ended. split; [|split; [done|]].
  - rewrite act_cl. destruct e; simpl; try done.
    + revert Hpc. unfold fail_next. by destruct (pc (cl m)) as [| | |[|[]]| | |] eqn:Heq; simpl; rewrite ?Heq.
    + unfold send_failed. by repeat case_match.
  - rewrite act_cl. assert (Hadd : forall ca, ca_res ca = (- ECONNRESET)%Z ->
      exists more', calls (cl m) ++ [ca] = calls c0 ++ more' /\ Forall (fun ca => ca_res ca = (- ECONNRESET)%Z) more').
    { intros ca Hca. exists (more ++ [ca]). rewrite Hc, app_assoc. split; [done|]. apply Forall_app. by repeat constructor. }
    destruct e; simpl; try done; try (by split; [|exists more]).
    + unfold fail_next. destruct (pc (cl m)) as [| | |[|[]]| | |]; simpl; try (by split; [|exists more]).
      split; [done|]. by apply Hadd.
    + unfold send_failed. repeat case_match; simpl in *; try (by split; [|exists more]).
      split; [done|]. by apply Hadd.
Qed.

(** The callbacks of the requests that fail call nothing. *)
Hypothesis Hquiet : s_retries S = [].

Lemma ended_turn c0 pre f stack m :
  good pre (f :: stack) m -> ended c0 (f :: stack) m ->
  let r := turn (s_send S) (s_address S) (s_app S) (s_fd S) f m in ended c0 (r.1 ++ stack) r.2.
Proof using HS Hquiet.
  intros Hg He. pose proof He as (Hover & Hclose & _). pose proof (closing_turn S HS Hquiet pre f stack m Hg Hclose) as Hc.
  cbv zeta in *. unfold turn in *. destruct f as [co [|a cs]]; cbn [fst snd] in *.
  2:{ exfalso. unfold closing in Hclose. destruct (pc (cl m)); try done; by destruct Hclose as [_ ?]. }
  destruct co as [| |id]; cbn [resume] in *.
  - by eapply ended_quiet.
  - destruct (pc (cl m)) eqn:Hpc; try done; [by eapply ended_act|]. eapply ended_quiet; [done..|by destruct m].
  - destruct (SendLock.procs (out (cl m)) !! id) as [[]|]; try (by eapply ended_quiet).
    + destruct (LibcQueue.try_op _) as [res|]; [|eapply ended_quiet; [done..|by destruct m]].
      eapply (ended_act _ ((Sender id, []) :: stack)); [|done|unfold send_event; by destruct (LibcQueue.op_end res)].
      eapply ended_quiet; [done| |by destruct m]. by apply (closing_same ((Sender id, []) :: stack) _ m); [|destruct m..|].
    + by eapply ended_act.
Qed.
End ends.

Section ends_wait.
Context `{NativeEndian} (S : setting).
#[local] Existing Instance Libc.stream_laws.
Hypothesis HS : setting_ok S.
Hypothesis Hquiet : s_retries S = [].

Abbreviation good := (good (s_sync S) (s_buffers S) (s_retries S) (s_fd S)).
Abbreviation readable rs := (Libc.EvReady rs : rs_event (RecvStreamLaws := Libc.stream_laws)).

(** The stream ends: the reader gets out of its loop. *)
Lemma read_turn_ended fuel r rs m m' :
  rest_ok S m -> (pc (cl m) = RHeader \/ exists resp pd, pc (cl m) = RBody resp pd) ->
  client_recvs_ok (r :: rs) m -> Libc.is_end r -> 0 < Libc.entries (stream (cl m)) ->
  read_turn (s_send S) (s_address S) (s_app S) (s_fd S) fuel (r :: rs) m = Some m' ->
  good [] [] m' /\ ended (cl m) [] m'.
Proof using HS Hquiet.
  unfold client_recvs_ok. intros Hok Hpc Hrs Hr Hn. pose proof (rest_reader S m Hok) as Hread. pose proof Hok as (Hg & _).
  assert (Hw : gone m = false /\ Libc.inv (stream (cl m)) /\ Libc.waiter (stream (cl m)) = Some me)
    by (destruct Hpc as [Hpc|(? & ? & Hpc)]; rewrite Hpc in Hread; destruct_and?; by split_and?).
  destruct Hw as (Hgone & Hst & Hw). pose proof Hg as (_ & _ & [Hro _]). unfold read_turn. rewrite Hro, Hgone.
  rewrite bool_decide_true by done. set (m0 := with_table _ m).
  destruct (log_good (s_fd S) (s_sync S) (s_buffers S) (s_retries S) (LibcQueue.Ready (stream_op m) false) [] m Hg) as (Hg0 & Hcl & Hgo0).
  fold m0 in Hg0, Hcl, Hgo0.
  destruct (Libc.on_ready_end r rs _ Hst ltac:(rewrite Hw; by eexists) Hn Hr) as [Hq Hf].
  assert (Hwoken : (Libc.on_ready (r :: rs) (stream (cl m))).2 = Some me).
  { pose proof (rs_complete_law (readable (r :: rs)) _ Hst Hrs) as Hlaw.
    change (rs_complete (readable (r :: rs)) (stream (cl m))) with (Libc.on_ready (r :: rs) (stream (cl m))) in Hlaw.
    destruct (Libc.on_ready (r :: rs) (stream (cl m))) as [st w]. destruct Hlaw as (_ & _ & _ & _ & Hwk & _).
    apply Hwk. by split; [|right]. }
  unfold read_ready. rewrite Hcl, Hwoken. intros Hrun. rewrite <- Hcl in Hwoken, Hpc, Hrs.
  pose proof (received_good (s_app S) (s_fd S) (s_sync S) (s_buffers S) (s_retries S) (proj2 HS) (readable (r :: rs)) [] m0 Hg0 ltac:(congruence) Hrs)
    as [_ Hg1].
  pose proof (closing_receive S HS Hquiet (readable (r :: rs)) m0 Hg0 ltac:(congruence) Hrs) as Hc1. cbv zeta in Hg1, Hc1.
  change (rs_complete (readable (r :: rs)) (stream (cl m0))) with (Libc.on_ready (r :: rs) (stream (cl m0))) in *.
  rewrite Hwoken in Hg1, Hc1. set (m1 := act (Receive (readable (r :: rs))) m0) in *.
  assert (He1 : ended (cl m) [(Reader, called (s_app S) m0 m1)] m1).
  { destruct Hg0 as (Hr0 & Hrun0 & _). pose proof (running_inv _ _ _ _ _ Hr0 Hrun0) as Hinv. rewrite <- Hcl in Hq, Hf.
    destruct (receive_ended (got m0) (Libc.EvReady (r :: rs)) (cl m0) Hinv Hpc Hrs Hq Hf) as (Hpc1 & _ & [_ Hi1] & Hc).
    pose proof (act_cl (Receive (readable (r :: rs))) m0) as Hcl1. fold m1 in Hcl1. cbn [Client.apply] in Hcl1.
    unfold ended. split; [by rewrite Hcl1, Hpc1|]. split; [done|]. rewrite Hcl1, Hi1, Hc, Hcl.
    split; [done|]. exists []. by rewrite app_nil_r. }
  by apply (client_run_keeps _ (s_address S) _ _ _ _ _ (proj1 HS) (proj2 HS) (ended (cl m)) (ended_turn S HS Hquiet (cl m)) fuel [] _ m1 m' Hg1 He1 Hrun).
Qed.

Lemma write_turns_ended c0 n fuel m m' :
  good [] [] m -> ended c0 [] m ->
  write_turns (s_send S) (s_address S) (s_app S) (s_fd S) n fuel m = Some m' -> ended c0 [] m'.
Proof using HS Hquiet.
  intros Hg He Hrun.
  apply (write_turns_keeps _ (s_address S) _ _ _ _ _ (proj1 HS) (proj2 HS) (ended c0) (ended_turn S HS Hquiet c0)) in Hrun; try done.
  - apply Hrun.
  - intros op id f res m0 m1 Hg0 Ha Hid Hres He0 Hcl Hgot Ha1 Hk1 Hg1.
    rewrite (send_calls S HS Hquiet id f res m1 m1 eq_refl) by (by rewrite Hcl). apply (ended_act _ [] _ _ m1).
    + eapply ended_quiet; [exact He0| |exact Hcl]. apply (closing_same [] _ m0); [apply He0|by rewrite Hcl..|done].
    + rewrite <- (send_calls S HS Hquiet id f res m1 m1 eq_refl) by (by rewrite Hcl).
      by apply (closing_ready S HS Hquiet op id f res m0 m1); [..|apply He0| | | | |].
    + unfold send_event. by destruct (LibcQueue.op_end res).
  - intros m0 m1 He0 Hcl _ _ _. eapply ended_quiet; [exact He0| |exact Hcl]. unfold closing. rewrite Hcl. apply He0.
Qed.

Lemma waits_end revents r rs m k m' :
  rest_ok S m -> (pc (cl m) = RHeader \/ exists resp pd, pc (cl m) = RBody resp pd) ->
  polled_ok (PollReady revents (r :: rs)) m -> Libc.is_end r -> 0 < Libc.entries (stream (cl m)) ->
  LibcQueue.has_event LibcQueue.POLLIN revents = true ->
  ends_in (waits_in S (PollReady revents (r :: rs)) m) (Ok (k, m')) -> ended (cl m) [] m'.
Proof using HS Hquiet.
  intros Hok Hpc [_ Hrs] Hr Hn Hin Hends. destruct (waits_dispatch _ _ _ _ _ _ Hends) as [fuel Hd].
  unfold dispatch in Hd. rewrite Hin in Hd. case_bool_decide as Hz; [rewrite Hz in Hin; discriminate Hin|].
  destruct (read_turn _ _ _ _ fuel _ m) as [m1|] eqn:H1; simpl in Hd; [|done].
  destruct (read_turn_ended fuel r rs m m1 Hok Hpc Hrs Hr Hn H1) as [Hg1 He1].
  assert (Htable : forall q m2, ended (cl m) [] m2 -> ended (cl m) [] (with_table q m2)).
  { intros q m2 He. eapply ended_quiet; [exact He| |by destruct m2].
    unfold closing. assert (cl (with_table q m2) = cl m2) as -> by (by destruct m2). apply He. }
  destruct (LibcQueue.has_event LibcQueue.POLLOUT revents).
  - destruct (write_turns _ _ _ _ _ _ m1) as [m2|] eqn:H2; simpl in Hd; simplify_eq.
    apply Htable. by apply (write_turns_ended _ fuel fuel m1).
  - simpl in Hd. simplify_eq. by apply Htable.
Qed.
End ends_wait.

(** A client with nothing being sent has sent everything. Whenever the application has
    the control and no request is being sent, no [send_request] is left; the requests of
    all its calls were begun, in the order of the calls, and each is on the wire whole,
    unless its own send failed and cut it. And what was received is used up: the responses
    answered are all the bytes but the beginning of one response, if the reader still
    reads. *)
Theorem client_quiet `{NativeEndian} (S : setting) (m : machine) :
  setting_ok S -> life S m -> ~ sending m ->
  SendLock.procs (out (cl m)) = ∅ /\
  SendLock.begun (out (cl m)) = zip (seq 0 (length (issued (cl m)))) (request_image <$> issued (cl m)) /\
  (exists parts, SendLock.wire (out (cl m)) = mjoin parts /\
     Forall2 (part_ok (SendLock.failed (out (cl m)))) (SendLock.begun (out (cl m))) parts) /\
  exists rest, got m = mjoin (response_image <$> answered (cl m)) ++ rest /\
    match pc (cl m) with
    | RHeader => length rest < sizeof_response
    | RBody resp pd =>
        exists part, rest = encode_response resp ++ part /\ (Z.of_nat (length part) < resp_res resp)%Z
    | _ => True
    end.
Proof.
  intros HS Hm%(life_ok S HS) Hns. destruct (rest_quiet S m Hm Hns) as (Hp & Hb & prev & parts & Hall & Hprev & Hw).
  split; [done|]. split; [done|]. split; [exists parts; by rewrite Hprev|].
  destruct Hm as ((Hr & Hrun & _) & _). destruct (running_inv _ _ _ _ _ Hr Hrun) as (_ & _ & _ & rest & Hgot & Hconn).
  exists rest. split; [done|]. destruct (pc (cl m)); try done; [apply Hconn|].
  destruct Hconn as (-> & Hwf & _ & _ & Hpos & Hlt & _). eexists. split; [done|]. lia.
Qed.

(** C13: a socket that flows drains the senders. When [poll] reports the descriptor, for
    writing if a request was being sent, and the socket takes something of every send from
    then on, then at the end of that [wait] nothing is being sent any more: every request
    issued, by the callbacks of that [wait] too, is on its way, and nobody holds or waits
    for the lock. *)
Theorem client_serves `{NativeEndian} (S : setting) (m m' : machine) (revents k : Z)
    (rs : list recv_result) :
  setting_ok S -> life S m -> polled_ok (PollReady revents rs) m ->
  (forall m1 iov, clock m <= clock m1 -> s_send S m1 iov <> Errno EAGAIN) ->
  (sending m -> LibcQueue.has_event LibcQueue.POLLOUT revents = true) ->
  ends_in (waits_in S (PollReady revents rs) m) (Ok (k, m')) ->
  ~ sending m' /\ SendLock.procs (out (cl m')) = ∅ /\
  SendLock.begun (out (cl m')) = zip (seq 0 (length (issued (cl m')))) (request_image <$> issued (cl m')).
Proof.
  intros HS Hm Hp Hflows Hout Hends. pose proof (life_ok S HS m Hm) as Hok.
  assert (Hok' : rest_ok S m') by (apply (life_ok S HS); by eapply life_wait).
  pose proof (waits_flow S HS (clock m) Hflows revents rs m k m' Hok Hp (le_n _) Hout Hends) as Ha.
  assert (Hns : ~ sending m').
  { destruct (rest_sending S [] m' (proj1 Hok')) as [[_ (op & id & Ha')]|[? _]]; [congruence|done]. }
  split; [done|]. destruct (rest_quiet S m' Hok' Hns) as (? & ? & _). done.
Qed.

(** C14: the end of the connection reaches every caller. When [poll] reports the socket to a
    client whose reader waits, and [recv] gives the end of the stream or an error, then that
    [wait] calls back exactly the requests that were pending, once each, with
    [-ECONNRESET], and returns their number; nothing is left pending and no request was
    made meanwhile; and the client no longer reads. This is for an application that calls
    nothing from the callbacks of requests that failed ([s_retries S = []]): a request made
    there is pending, and its callback need not come in this [wait]. *)
Theorem client_end_calls_back `{NativeEndian} (S : setting) (m m' : machine) (revents k : Z)
    (r : recv_result) (rs : list recv_result) :
  setting_ok S -> s_retries S = [] -> 0 < s_entries S -> life S m ->
  (pc (cl m) = RHeader \/ exists resp pd, pc (cl m) = RBody resp pd) ->
  polled_ok (PollReady revents (r :: rs)) m -> LibcQueue.has_event LibcQueue.POLLIN revents = true ->
  Libc.is_end r -> ends_in (waits_in S (PollReady revents (r :: rs)) m) (Ok (k, m')) ->
  pc (cl m') = REnd /\ pending (cl m') = ∅ /\ issued (cl m') = issued (cl m) /\
  exists more, calls (cl m') = calls (cl m) ++ more /\ k = to_int (Z.of_nat (length more)) /\
    ca_cid <$> more ≡ₚ (map_to_list (pending (cl m))).*1 /\
    Forall (fun ca => ca_res ca = (- ECONNRESET)%Z) more.
Proof.
  intros HS Hquiet Hn Hm Hpc Hp Hin Hr Hends. pose proof (life_ok S HS m Hm) as Hok.
  assert (Hok' : rest_ok S m') by (apply (life_ok S HS); by eapply life_wait).
  rewrite <- (life_entries S HS m Hm) in Hn.
  destruct (waits_end S HS Hquiet revents r rs m k m' Hok Hpc Hp Hr Hn Hin Hends) as (Hover & Hclose & Hi & more & Hc & Hmore).
  pose proof (rest_reader S m' Hok') as Hend. unfold closing in Hclose.
  destruct (pc (cl m')) eqn:Hpc'; try done. destruct Hclose as [Hp' _].
  split; [done|]. split; [done|]. split; [done|]. exists more. split; [done|].
  destruct (waits_ok S HS _ m Hok Hp) as (r1 & _ & Hends1 & _ & _ & _ & Hk & _).
  pose proof (ends_in_unique _ _ _ Hends Hends1) as <-. destruct Hk as [_ ->].
  destruct (rest_counts S m m' Hok Hok') as (cs & Hcs & ->); [by eapply waits_came|].
  rewrite Hc in Hcs. apply app_inv_head in Hcs as <-. split; [done|]. split; [|done].
  destruct Hok as ((Hr0 & Hrun0 & _) & _), Hok' as ((Hr1 & Hrun1 & _) & _).
  destruct (running_inv _ _ _ _ _ Hr0 Hrun0) as (Hb0 & _), (running_inv _ _ _ _ _ Hr1 Hrun1) as (Hb1 & _).
  pose proof (bk_where Hb0) as Hw0. pose proof (bk_where Hb1) as Hw1.
  rewrite Hpc', Hp', map_to_list_empty, Hi, Hc, fmap_app in Hw1. rewrite <- Hw0 in Hw1.
  assert (Hfail : failing (pc (cl m)) = []) by (by destruct Hpc as [-> |(? & ? & ->)]). rewrite Hfail in Hw1.
  simpl in Hw1. rewrite (Permutation_app_comm (ca_cid <$> calls (cl m))) in Hw1. by apply Permutation_app_inv_r in Hw1.
Qed.

(** What [ClientTeardown.client_destroyed_libc] assumes of the client it destroys, it always
    has, unless a response overran a buffer. *)
Lemma life_at_rest `{NativeEndian} (S : setting) (m : machine) :
  setting_ok S -> life S m -> (forall resp pd, pc (cl m) <> ROverflow resp pd) -> at_rest (cl m).
Proof.
  intros HS Hm%(life_ok S HS) Hover. pose proof (rest_reader S m Hm) as Hread. destruct Hm as ((_ & Hrun & _) & _). split.
  - destruct (pc (cl m)) as [| |resp pd| | | |resp pd] eqn:Hpc; try done; [by left|right; left; by eexists _, _|by right; right|].
    by destruct (Hover resp pd).
  - intros id Hid. pose proof (rn_rests Hrun (Sender id) (not_elem_of_nil _)) as Hre.
    simpl in Hre. unfold sender_rests in Hre. by rewrite Hid in Hre.
Qed.
