(* ===== verification/EndToEnd.v ===== *)
(** * Both ends of a connection

    The client's wire read by the server: what [send_request] writes is what
    [handle_connection] parses, and what its handlers answer is what the callbacks of the
    client's calls are given. *)

From S2P Require Import Prelude Protocol Sync RecvStream FramedReader Queue Wire Handlers.
From S2P Require SendLock Session Client.

Open Scope nat_scope.

Section prefixes.
Context `{NativeEndian}.

(** A message cut short is one the server waits for. *)
Lemma next_request_cut req part rest :
  request_ok req -> rest <> [] -> request_image req = part ++ rest ->
  Session.next_request part = Session.NeedMore.
Proof.
  intros Hok Hne Himg. pose proof (Session.next_image req [] Hok) as Hnext.
  rewrite app_nil_r, Himg in Hnext.
  destruct (Session.next_request part) as [| |r tl] eqn:Hp; [done| |].
  - by rewrite (Session.next_refused_app _ rest Hp) in Hnext.
  - apply Session.next_got in Hp as [-> Hr]. rewrite <- app_assoc, Session.next_image in Hnext by done.
    injection Hnext as _ Htl. by apply app_eq_nil in Htl as [_ ?].
Qed.

(** The wire of a client none of whose sends failed: whole requests, then a cut one. *)
Lemma client_wire (l : SendLock.t) (reqs : list request) k :
  Forall request_ok reqs -> SendLock.wire_holds l -> SendLock.failed l = [] ->
  k <= length reqs -> SendLock.begun l = zip (seq 0 k) (request_image <$> take k reqs) ->
  exists n part, n <= k /\ SendLock.wire l = images (take n reqs) ++ part /\
    (part = [] /\ n = k \/ S n = k /\ exists req rest, reqs !! n = Some req /\ rest <> [] /\
       request_image req = part ++ rest).
Proof.
  intros Hok (prev & last & parts & Hbegun & Hall & Hlast) Hfail Hk Hzip.
  rewrite Hfail in Hall. apply parts_whole in Hall as ->.
  assert (Hsnd : (SendLock.begun l).*2 = request_image <$> take k reqs).
  { rewrite Hzip. apply snd_zip. rewrite length_seq, length_fmap, length_take. lia. }
  assert (Hlen : length (SendLock.begun l) = k).
  { rewrite <- (length_fmap snd), Hsnd, length_fmap, length_take. lia. }
  destruct last as [[id msg]|].
  - destruct Hlast as (part & f & Hwire & Hmsg & Hne & _). exists (length prev), part.
    rewrite Hbegun, length_app in Hlen. simpl in Hlen. split; [lia|].
    rewrite Hbegun, fmap_app in Hsnd. simpl in Hsnd.
    assert (Htk : take k reqs = take (length prev) reqs ++ drop (length prev) (take k reqs)).
    { rewrite <- (take_drop (length prev) (take k reqs)) at 1. by rewrite take_take, Nat.min_l by lia. }
    rewrite Htk, fmap_app in Hsnd. apply app_inj_1 in Hsnd as [Hpre Hmsgs].
    2:{ rewrite !length_fmap, length_take. lia. }
    rewrite Hwire, Hpre. split; [done|]. right. split; [lia|].
    destruct (lookup_lt_is_Some_2 reqs (length prev)) as [req Hreq]; [lia|].
    exists req, (mjoin (offer f)). split_and!; [done|done|]. rewrite <- Hmsg.
    assert (Hd : drop (length prev) (take k reqs) !! 0 = Some req).
    { by rewrite lookup_drop, Nat.add_0_r, lookup_take_lt by lia. }
    destruct (drop (length prev) (take k reqs)) as [|r rs]; [done|]. simplify_eq/=. done.
  - destruct Hlast as [Hwire _]. exists k, []. split; [done|]. rewrite app_nil_r in *.
    rewrite Hwire, <- Hbegun, Hsnd. auto.
Qed.
End prefixes.

(** ** Responses *)

Section responses.
Context `{NativeEndian}.

(** What the response to [req] says, given the file operation of its handler: its result,
    and the data that follow. *)
Definition owed (req : request) (ios : list io_result) (res : Z) (body : bytes) : Prop :=
  if oversize req then ios = [] /\ res = (- EMSGSIZE)%Z /\ body = []
  else
    match ios with
    | [IoWrite (Ok n)] => res = Z.of_nat n /\ body = []
    | [IoRead (Ok data)] => res = Z.of_nat (length data) /\ body = data
    | [IoWrite (Throw (system_error e))] | [IoRead (Throw (system_error e))] =>
        res = (- e)%Z /\ body = []
    | _ => False
    end.

Definition body_length (req : request) (res : Z) : nat :=
  if is_write (req_op (rq_header req)) then 0 else Z.to_nat res.

Lemma answers_owed req ios msg :
  request_ok req -> answers req ios msg ->
  exists resp body, response_wf resp /\ msg = encode_response resp ++ body /\
    resp_cid resp = req_cid (rq_header req) /\ owed req ios (resp_res resp) body /\
    length body = body_length req (resp_res resp) /\
    (is_write (req_op (rq_header req)) = false -> (0 <= req_size (rq_header req))%Z ->
       (resp_res resp <= req_size (rq_header req))%Z).
Proof.
  intros [Hwf Hreq]. unfold answers, owed, body_length.
  assert (Hresp : forall res, (- 2 ^ 31 < res < 2 ^ 31)%Z ->
    response_wf {| resp_cid := req_cid (rq_header req); resp_res := res |}).
  { intros res Hres. split; simpl; [apply Hwf|lia]. }
  destruct (oversize req) eqn:Hover.
  - intros [-> ->]. exists {| resp_cid := req_cid (rq_header req); resp_res := - EMSGSIZE |}, [].
    split; [by apply Hresp|]. rewrite app_nil_r. split_and!; try done; simpl; [by destruct (is_write _)|].
    intros. unfold EMSGSIZE. lia.
  - assert (Hmax : (req_size (rq_header req) <= 4194304)%Z).
    { unfold oversize in Hover. apply bool_decide_eq_false in Hover.
      change EASYBD_MAX_PAYLOAD_SIZE with 4194304%Z in Hover. lia. }
    intros (r & -> & Hr & Hmsg).
    assert (Hthrow : forall e, (r = IoWrite (Throw e) \/ r = IoRead (Throw e)) ->
      (forall code, e = system_error code -> (0 < code < 2 ^ 31)%Z) ->
      exists code, e = system_error code /\ (0 < code < 2 ^ 31)%Z /\ msg = encode_response
        {| resp_cid := req_cid (rq_header req); resp_res := - code |}).
    { intros e [->| ->] He; destruct e; simplify_eq/=; eauto. }
    destruct r as [[n|e]|[data|e]]; simpl in Hr, Hmsg.
    + destruct Hr as [Hw Hn]. injection Hmsg as <-. rewrite Hw in *. destruct Hreq as [_ Hlen].
      exists {| resp_cid := req_cid (rq_header req); resp_res := Z.of_nat n |}, [].
      split; [apply Hresp; lia|]. rewrite app_nil_r. by split_and!.
    + destruct (Hthrow e ltac:(auto) ltac:(apply Hr)) as (code & -> & Hc & ->).
      exists {| resp_cid := req_cid (rq_header req); resp_res := - code |}, [].
      split; [apply Hresp; lia|]. rewrite app_nil_r. destruct Hr as [-> _]. by split_and!.
    + destruct Hr as [Hw Hn]. injection Hmsg as <-. rewrite Hw in *.
      exists {| resp_cid := req_cid (rq_header req); resp_res := Z.of_nat (length data) |}, data.
      split; [apply Hresp; lia|]. split_and!; try done; simpl. lia.
    + destruct (Hthrow e ltac:(auto) ltac:(apply Hr)) as (code & -> & Hc & ->).
      exists {| resp_cid := req_cid (rq_header req); resp_res := - code |}, [].
      split; [apply Hresp; lia|]. rewrite app_nil_r. destruct Hr as [-> _].
      split_and!; try done; simpl; lia.
Qed.

(** A whole response to one of the requests [reqs], which are numbered from 1. *)
Definition framed (reqs : list request) (msg : bytes) : Prop :=
  exists resp body req, response_wf resp /\ msg = encode_response resp ++ body /\
    (1 <= resp_cid resp)%Z /\ reqs !! Z.to_nat (resp_cid resp - 1) = Some req /\
    length body = body_length req (resp_res resp).

Lemma encode_response_inj resp resp' body body' :
  response_wf resp -> response_wf resp' ->
  encode_response resp ++ body = encode_response resp' ++ body' -> resp = resp' /\ body = body'.
Proof.
  intros Hr Hr' Heq. apply app_inj_1 in Heq as [Heq ->]; [|by rewrite !length_encode_response].
  split; [|done]. by rewrite <- (decode_encode_response resp), Heq, decode_encode_response.
Qed.

(** The requests tell where a response ends. *)
Lemma framed_inj reqs m m' x y : framed reqs m -> framed reqs m' -> m ++ x = m' ++ y -> m = m' /\ x = y.
Proof.
  intros (resp & body & req & Hwf & -> & _ & Hreq & Hlen) (resp' & body' & req' & Hwf' & -> & _ & Hreq' & Hlen').
  rewrite <- !app_assoc. intros Heq. apply encode_response_inj in Heq as [<- Heq]; [|done..].
  rewrite Hreq in Hreq'. simplify_eq. by apply app_inj_1 in Heq as [-> ->]; [|congruence].
Qed.

Lemma framed_prefix reqs ms ms' rest :
  Forall (framed reqs) ms -> Forall (framed reqs) ms' -> mjoin ms ++ rest `prefix_of` mjoin ms' ->
  ms `prefix_of` ms'.
Proof.
  intros Hms. revert ms'. induction Hms as [|m ms Hm _ IH]; intros ms' Hms' [d Hd]; [apply prefix_nil|].
  destruct Hms' as [|m' ms' Hm' Hms'].
  - exfalso. destruct Hm as (resp & ? & ? & ? & -> & _). apply (f_equal length) in Hd.
    simpl in Hd. rewrite !length_app, length_encode_response in Hd. by vm_compute in Hd.
  - simpl in Hd. rewrite <- !app_assoc in Hd. symmetry in Hd.
    destruct (framed_inj reqs m m' _ _ Hm Hm' Hd) as [-> Hd'].
    apply prefix_cons, IH; [done|]. exists d. by rewrite <- Hd', <- app_assoc.
Qed.
End responses.

(** ** The connection *)

(** What TCP promises of a connection: the receiver has got, in order, some first part of
    the bytes the sender's socket accepted. *)
Definition tcp_delivers (accepted received : bytes) : Prop := received `prefix_of` accepted.

(** Any client, whose sends did not fail so far, and any server connection, over any two
    backends, in any state, the server having received a prefix of the bytes the client's
    socket accepted. *)
Section connection.
Context `{NativeEndian} `{RecvStreamLaws St} `{RecvStreamLaws St'}.
Context (sync : bool) (buffers : gmap nat bytes) (cst : St) (crecv : bytes) (c : Client.client St).
Context (posix_memalign : nat -> nat -> option bytes) (sst : St') (srecv : bytes) (s : Session.session St').

Hypothesis client_stream : rs_inv cst /\ rs_waiter cst = None.
Hypothesis client_reached : Client.reach (Client.client_init sync buffers cst) crecv c.
Hypothesis client_calls : (Z.of_nat (length (Client.issued c)) < 2 ^ 64 - 1)%Z.
Hypothesis client_sends : SendLock.failed (Client.out c) = [].
Hypothesis memalign_sizes : forall id n m, posix_memalign id n = Some m -> length m = n.
Hypothesis server_stream : rs_inv sst /\ rs_waiter sst = None.
Hypothesis server_reached : Session.reach posix_memalign (Session.session_init sst) srecv s.
Hypothesis requests_delivered : tcp_delivers (SendLock.wire (Client.out c)) (rs_queue sst ++ srecv).

Lemma spawned_issued : spawned (Session.ss_pool s) `prefix_of` Client.issued c.
Proof.
  destruct client_stream as [Hcst Hcw], server_stream as [Hsst Hsw], requests_delivered as [d Hd].
  destruct (Session.reach_ok posix_memalign memalign_sizes sst srecv s Hsst Hsw server_reached) as (_ & Hconn & q & [Hp _]).
  pose proof (pi_req Hp) as Hreqs.
  assert (Hall : exists rest, rs_queue sst ++ srecv = images (spawned (Session.ss_pool s)) ++ rest).
  { destruct s. destruct Hconn as (rest & ? & _). by exists rest. }
  destruct Hall as [rest Hall]. rewrite Hall, <- app_assoc in Hd.
  destruct (Client.client_reach_ok _ _ _ _ _ Hcst Hcw client_reached client_calls) as (Hb & Hlock & _).
  destruct (SendLock.inv_wire _ _ Hlock) as (Hholds & k & Hk & Hbegun). rewrite length_fmap in Hk.
  assert (Hok : Forall request_ok (Client.issued c)).
  { apply Forall_lookup. intros i req Hi. by apply (Client.bk_issued Hb i). }
  assert (Hbegun' : SendLock.begun (Client.out c) =
    zip (seq 0 k) (request_image <$> take k (Client.issued c))).
  { rewrite Hbegun. f_equal. rewrite <- fmap_take, <- list_fmap_compose. apply list_fmap_ext.
    intros i req Hi. apply Client.request_message_image. apply lookup_take_Some in Hi as [Hi _].
    by apply (proj1 (Forall_lookup _ _) Hok i). }
  destruct (client_wire _ _ k Hok Hholds client_sends Hk Hbegun') as (n & part & Hnk & Hwire & Hpart).
  pose proof (Session.parse_images _ (rest ++ d) Hreqs) as Hparse. rewrite <- Hd, Hwire in Hparse.
  rewrite (Session.parse_images (take n (Client.issued c))) in Hparse by (by apply Forall_take).
  assert (Hnil : Session.parse part = []).
  { destruct Hpart as [[-> _]|(_ & req & rest' & Hreq & Hne & Himg)]; [done|].
    apply Session.parse_stop. left. eapply next_request_cut; eauto.
    by apply (proj1 (Forall_lookup _ _) Hok n). }
  rewrite Hnil, app_nil_r in Hparse.
  transitivity (take n (Client.issued c)); [|apply prefix_take]. rewrite Hparse. by eexists.
Qed.

(** The messages of the server are responses to requests of the client. *)
Lemma begun_framed id msg :
  (id, msg) ∈ begun (Session.ss_pool s) ->
  exists req resp body, Client.issued c !! id = Some req /\ response_wf resp /\
    msg = encode_response resp ++ body /\ resp_cid resp = (Z.of_nat id + 1)%Z /\
    owed req (of_id id (io_log (Session.ss_pool s))) (resp_res resp) body /\
    length body = body_length req (resp_res resp) /\
    (is_write (req_op (rq_header req)) = false -> (resp_res resp <= req_size (rq_header req))%Z).
Proof.
  intros Hmsg. destruct server_stream as [Hsst Hsw].
  destruct (Session.reach_ok posix_memalign memalign_sizes sst srecv s Hsst Hsw server_reached)
    as (_ & _ & q & Hinv).
  apply of_id_elem in Hmsg.
  destruct (begun_answers posix_memalign q _ id _ Hinv eq_refl) as [Hn|(req & msg' & Hn & Hreq & Hans)];
    rewrite Hn in Hmsg; [by apply not_elem_of_nil in Hmsg|].
  apply list_elem_of_singleton in Hmsg as <-.
  pose proof (prefix_lookup_Some _ _ _ _ Hreq spawned_issued) as Hreq'.
  destruct client_stream as [Hcst Hcw].
  destruct (Client.client_reach_ok _ _ _ _ _ Hcst Hcw client_reached client_calls) as (Hb & _).
  destruct (Client.bk_issued Hb id req Hreq') as [Hcid Hok].
  destruct (answers_owed _ _ _ Hok Hans) as (resp & body & Hwf & Hmsg' & Hrc & Howed & Hlen & Hsize).
  exists req, resp, body. split_and!; try done; [congruence|]. intros Hr. apply Hsize; [done|apply Hok].
Qed.

Hypothesis server_sends : failed (Session.ss_pool s) = [].
Hypothesis responses_delivered : tcp_delivers (wire (Session.ss_pool s)) (rs_queue cst ++ crecv).

(** Responses the client read whole, at the head of what it received, are the server's. *)
Lemma read_is_begun msgs rest :
  rs_queue cst ++ crecv = mjoin msgs ++ rest -> Forall (framed (Client.issued c)) msgs ->
  forall msg, msg ∈ msgs -> exists id, (id, msg) ∈ begun (Session.ss_pool s).
Proof.
  intros Hrecv Hmsgs msg Hmsg. destruct server_stream as [Hsst Hsw].
  destruct (Session.reach_ok posix_memalign memalign_sizes sst srecv s Hsst Hsw server_reached)
    as (_ & _ & q & _ & Hwire).
  assert (Hpre : msgs `prefix_of` (begun (Session.ss_pool s)).*2).
  { apply (framed_prefix (Client.issued c) _ _ rest); [done| |].
    - apply Forall_fmap, list.Forall_forall. intros [id m'] Hi. destruct (begun_framed id m' Hi)
        as (req & resp & body & Hreq & Hwf & Hm & Hcid & _ & Hlen & _).
      exists resp, body, req. split_and!; try done; [lia|]. rewrite Hcid.
      by replace (Z.to_nat (Z.of_nat id + 1 - 1)) with id by lia.
    - rewrite <- Hrecv. etrans; [exact responses_delivered|]. unfold pool_wire in Hwire. rewrite server_sends in Hwire. by eapply wire_prefix. }
  destruct Hpre as [tl Htl].
  assert (Hin : msg ∈ (begun (Session.ss_pool s)).*2) by (rewrite Htl, elem_of_app; by left).
  apply list_elem_of_fmap in Hin as ([id m] & -> & Hin). by exists id.
Qed.

Lemma read_is_owed resp body req :
  response_wf resp -> Client.request_of c (resp_cid resp) = Some req ->
  (exists id, (id, encode_response resp ++ body) ∈ begun (Session.ss_pool s)) ->
  owed req (of_id (Z.to_nat (resp_cid resp - 1)) (io_log (Session.ss_pool s))) (resp_res resp) body /\
  (is_write (req_op (rq_header req)) = false -> (resp_res resp <= req_size (rq_header req))%Z).
Proof.
  intros Hwf Hreq [id Hid]. apply Client.request_of_issued in Hreq as [Hreq Hge].
  destruct (begun_framed id _ Hid) as (req' & resp' & body' & Hreq' & Hwf' & Heq & Hcid & Howed & _ & Hsize).
  apply encode_response_inj in Heq as [<- <-]; [|done..].
  rewrite Hcid in *. replace (Z.to_nat (Z.of_nat id + 1 - 1)) with id in * by lia.
  rewrite Hreq in Hreq'. by simplify_eq.
Qed.

(** The responses the client took are whole responses to its requests. *)
Lemma answered_framed : Forall (framed (Client.issued c)) (Client.response_image <$> Client.answered c).
Proof using client_stream client_reached client_calls.
  destruct client_stream as [Hcst Hcw].
  destruct (Client.client_reach_ok _ _ _ _ _ Hcst Hcw client_reached client_calls) as (Hb & _).
  apply Forall_fmap, list.Forall_forall. intros [resp body] Hin.
  apply list_elem_of_omap in Hin as (ca & Hin & Hca).
  destruct (Forall_elem _ _ _ (Client.bk_calls Hb) Hin) as (req & Hreq & Hok).
  rewrite Hca in Hok. destruct Hok as (Hwf & Hcid & Hres & Hbody). rewrite <- Hcid in Hreq.
  apply Client.request_of_issued in Hreq as [Hreq Hge]. exists resp, body, req.
  split_and!; try done. unfold body_length. unfold Client.is_write_req in Hbody.
  destruct (is_write _); [by subst|]. apply Hbody.
Qed.

Lemma callback_owed ca resp body :
  ca ∈ Client.calls c -> Client.ca_resp ca = Some (resp, body) ->
  exists req, Client.request_of c (Client.ca_cid ca) = Some req /\
    owed req (of_id (Z.to_nat (Client.ca_cid ca - 1)) (io_log (Session.ss_pool s))) (Client.ca_res ca) body /\
    take (length body) (Client.ca_buf ca) = body.
Proof.
  intros Hin Hca. destruct client_stream as [Hcst Hcw].
  destruct (Client.client_reach_ok _ _ _ _ _ Hcst Hcw client_reached client_calls) as (Hb & _ & _ & rest & Hrecv & _).
  destruct (Forall_elem _ _ _ (Client.bk_calls Hb) Hin) as (req & Hreq & Hok).
  rewrite Hca in Hok. destruct Hok as (Hwf & Hcid & Hres & Hbody). exists req. split; [done|].
  rewrite <- Hcid in Hreq |- *. rewrite Hres. split.
  - apply read_is_owed; [done..|]. apply (read_is_begun _ rest Hrecv answered_framed).
    apply (list_elem_of_fmap_2 Client.response_image _ (resp, body)).
    apply list_elem_of_omap. by exists ca.
  - unfold Client.is_write_req in Hbody. destruct (is_write _); [by subst|apply Hbody].
Qed.

(** An honest server never overruns a buffer. *)
Lemma never_overflows resp pd : Client.pc c <> Client.ROverflow resp pd.
Proof.
  intros Eq. destruct client_stream as [Hcst Hcw].
  destruct (Client.client_reach_ok _ _ _ _ _ Hcst Hcw client_reached client_calls) as (_ & _ & _ & rest & Hrecv & Hpc).
  rewrite Eq in Hpc. destruct Hpc as (_ & Hwf & (body & rest' & -> & Hlen) & req & Hreq & Hr & Hover).
  assert (Hsize : (resp_res resp <= req_size (rq_header req))%Z); [|lia].
  apply (read_is_owed resp body req); [done..| |done].
  eapply (read_is_begun ((Client.response_image <$> Client.answered c) ++ [encode_response resp ++ body]) rest').
  - rewrite Hrecv, join_app. simpl. by rewrite app_nil_r, <- !app_assoc.
  - apply Forall_app. split; [exact answered_framed|]. constructor; [|done].
    pose proof (Client.request_of_issued _ _ _ Hreq) as [Hreq' Hge]. exists resp, body, req.
    split_and!; try done. unfold body_length. unfold Client.is_write_req in Hr. by rewrite Hr.
  - rewrite elem_of_app, list_elem_of_singleton. by right.
Qed.

(** C17: a call gets the result of its own request. Take such a client and server, whose
    responses too were all sent without failure and delivered in part. Every callback made
    for a response is given what the server owes the request of that very call: the result of the one file
    operation of its handler, the count or minus the [errno], and after a read the bytes
    the file operation returned are in the caller's buffer. However the two directions are
    cut into chunks, batches and short writes, and whatever order the handlers finish in,
    no response is taken for another, and none overruns the caller's buffer. *)
Theorem callbacks_get_server_results :
  (forall ca resp body, ca ∈ Client.calls c -> Client.ca_resp ca = Some (resp, body) ->
     exists req, Client.request_of c (Client.ca_cid ca) = Some req /\
       owed req (of_id (Z.to_nat (Client.ca_cid ca - 1)) (io_log (Session.ss_pool s)))
         (Client.ca_res ca) body /\
       take (length body) (Client.ca_buf ca) = body) /\
  (forall resp pd, Client.pc c <> Client.ROverflow resp pd).
Proof. split; [exact callback_owed|exact never_overflows]. Qed.
End connection.

(** C16: the server serves what the client asked for. Take any client whose sends did not
    fail so far and any server connection, over any two backends and in any state, TCP
    having delivered some first part of what the client's socket accepted. The requests the server spawned
    handlers for are a prefix of the requests of the client's calls: same [cid]s, offsets,
    sizes and payloads, in the order of the calls, nothing invented, dropped, merged or
    reordered by chunking on either side. *)
Theorem server_serves_client_calls `{NativeEndian} `{RecvStreamLaws St} `{RecvStreamLaws St'}
    (sync : bool) (buffers : gmap nat bytes) (cst : St) (crecv : bytes) (c : Client.client St)
    (posix_memalign : nat -> nat -> option bytes) (sst : St') (srecv : bytes) (s : Session.session St') :
  rs_inv cst /\ rs_waiter cst = None ->
  Client.reach (Client.client_init sync buffers cst) crecv c ->
  (Z.of_nat (length (Client.issued c)) < 2 ^ 64 - 1)%Z ->
  SendLock.failed (Client.out c) = [] ->
  (forall id n m, posix_memalign id n = Some m -> length m = n) ->
  rs_inv sst /\ rs_waiter sst = None ->
  Session.reach posix_memalign (Session.session_init sst) srecv s ->
  tcp_delivers (SendLock.wire (Client.out c)) (rs_queue sst ++ srecv) ->
  spawned (Session.ss_pool s) `prefix_of` Client.issued c.
Proof. intros. by eapply (spawned_issued sync buffers cst crecv c posix_memalign sst srecv s). Qed.
