(* ===== verification/LibcEndToEnd.v ===== *)
(** * A client and a worker, both on the poll-driven queue

    The two composed programs, [LibcClientWait.life] and [LibcWorker.polls], joined by the
    two byte streams of a connection: when neither end has anything to send and TCP has
    delivered everything, every call was answered. *)

From S2P Require Import Prelude Protocol Sync RecvStream FramedReader LibcRecvStream Queue Wire Handlers EndToEnd.
From S2P Require SendLock Session Client LibcClient LibcClientTurns LibcClientWait LibcClientLife LibcConnection LibcTurns LibcWorker.

Open Scope nat_scope.

Section joined.
Context `{NativeEndian}.
#[local] Existing Instance Libc.stream_laws.
Context (S : LibcClientWait.setting) (m : LibcClient.machine).
Context (K : LibcWorker.kernel) (es n : nat) (listen_fd : Z) (shutdown : nat -> bool)
  (w : LibcWorker.worker) (fd : Z) (c : LibcConnection.conn).

(** The client and its connection at the server, quiet and with nothing on the way. *)
Record settled : Prop := {
  st_setting : LibcClientWait.setting_ok S;
  st_life : LibcClientWait.life S m;
  st_client : ~ LibcClientWait.sending m;
  st_kernel : LibcWorker.kernel_ok K es n;
  st_polls : LibcWorker.polls K es n listen_fd shutdown w;
  st_conn : LibcWorker.conns w !! fd = Some c;
  st_server : ~ LibcWorker.sends c;
  (** no send failed *)
  st_sent : SendLock.failed (Client.out (LibcClient.cl m)) = [];
  st_answered : failed (Session.ss_pool (LibcConnection.sess c)) = [];
  (** everything was delivered *)
  st_requests : LibcConnection.got c = SendLock.wire (Client.out (LibcClient.cl m));
  st_responses : LibcClient.got m = wire (Session.ss_pool (LibcConnection.sess c));
  (** the server had memory *)
  st_memory id req : spawned (Session.ss_pool (LibcConnection.sess c)) !! id = Some req ->
    ~ dropped (LibcConnection.memory c) id req (of_id id (io_log (Session.ss_pool (LibcConnection.sess c))));
}.

Hypothesis Hs : settled.
Local Abbreviation client := (LibcClient.cl m).
Local Abbreviation pool := (Session.ss_pool (LibcConnection.sess c)).

(** The server read every request of the client, and began a response to each. *)
Lemma settled_spawned : spawned pool = Client.issued client.
Proof using Hs.
  destruct Hs as [HS Hm Hns HK Hw Hc Hsq Hf _ Hreq _ _].
  pose proof (LibcClientWait.life_ok S HS m Hm) as Hok.
  destruct (LibcClientLife.rest_quiet S m Hok Hns) as (_ & Hb & prev & parts & Hall & Hprev & Hwire).
  destruct (LibcWorker.polls_ok K es n listen_fd shutdown HK w Hw) as (Hcs & _).
  destruct (LibcWorker.co_conn listen_fd w Hcs fd c Hc) as (_ & Hgone & Hg).
  destruct (LibcWorker.quiet_answers fd c _ _ Hg Hgone Hsq) as (-> & _).
  destruct Hok as ((Hr & Hrun & _) & _). destruct (LibcClient.running_inv _ _ _ _ _ Hr Hrun) as (Hbk & _).
  rewrite Hreq, Hwire. rewrite Hf in Hall. apply parts_whole in Hall as ->. rewrite <- Hprev, Hb.
  rewrite snd_zip by (rewrite length_seq, length_fmap; lia).
  assert (Hok : Forall request_ok (Client.issued client)).
  { apply Forall_lookup. intros i req Hi. by apply (Client.bk_issued Hbk i). }
  pose proof (Session.parse_images _ [] Hok) as Hparse. rewrite !app_nil_r in Hparse. exact Hparse.
Qed.

(** [begun] of the server: one response to each request, all of them on the wire. *)
Lemma settled_begun :
  wire pool = mjoin (begun pool).*2 /\ length (Client.issued client) <= length (begun pool).
Proof using Hs.
  pose proof settled_spawned as Hsp.
  destruct Hs as [HS Hm Hns HK Hw Hc Hsq _ Hf _ _ Hmem].
  destruct (LibcWorker.polls_ok K es n listen_fd shutdown HK w Hw) as (Hcs & _).
  destruct (LibcWorker.co_conn listen_fd w Hcs fd c Hc) as (_ & Hgone & Hg).
  destruct (LibcWorker.quiet_answers fd c _ _ Hg Hgone Hsq) as (_ & _ & Hans & parts & -> & Hall). split.
  - f_equal. apply parts_whole. rewrite Hf in Hall. eapply list.Forall2_impl; [exact Hall|]. by intros [id msg] part.
  - rewrite <- Hsp, <- (length_seq (length (spawned pool)) 0), <- (length_fmap fst (begun pool)).
    apply submseteq_length, NoDup_submseteq; [apply NoDup_seq|].
    intros id [_ Hlt]%elem_of_seq. destruct (lookup_lt_is_Some_2 (spawned pool) id) as [req Hreq]; [lia|].
    destruct (Hans id req Hreq) as [(msg & Hone & _)|(_ & Hdrop)]; [|by destruct (Hmem id req Hreq)].
    apply list_elem_of_fmap. exists (id, msg). split; [done|]. apply elem_of_id. rewrite Hone. left.
Qed.

(** The two as [EndToEnd] has them. *)
Lemma settled_linked :
  exists cst crecv sst srecv,
    (rs_inv cst /\ rs_waiter cst = None) /\
    Client.reach (Client.client_init (LibcClientWait.s_sync S) (LibcClientWait.s_buffers S) cst) crecv client /\
    (Z.of_nat (length (Client.issued client)) < 2 ^ 64 - 1)%Z /\
    (forall id n m, LibcConnection.memory c id n = Some m -> length m = n) /\
    (rs_inv sst /\ rs_waiter sst = None) /\
    Session.reach (LibcConnection.memory c) (Session.session_init sst) srecv (LibcConnection.sess c) /\
    tcp_delivers (SendLock.wire (Client.out client)) (rs_queue sst ++ srecv) /\
    tcp_delivers (wire pool) (rs_queue cst ++ crecv) /\ LibcClient.got m = rs_queue cst ++ crecv.
Proof using Hs.
  destruct Hs as [HS Hm _ HK Hw Hc _ _ _ Hreq Hresp _].
  destruct (LibcClientWait.life_ok S HS m Hm) as ((Hr & Hrun & _) & _).
  pose proof (LibcClient.rn_few Hrun) as Hfew. destruct Hr as (cst & crecv & Hcst & Hcw & Hgot & Hreach).
  destruct (LibcWorker.polls_ok K es n listen_fd shutdown HK w Hw) as (Hcs & _).
  destruct (LibcWorker.co_conn listen_fd w Hcs fd c Hc) as (_ & _ & (Hmem & sst & srecv & Hsst & Hsw & Hsgot & Hsreach) & _).
  simpl in *. exists cst, crecv, sst, srecv. split; [done|]. split; [done|].
  split; [unfold LibcClient.calls_left in Hfew; simpl in Hfew; lia|].
  split; [done|]. split; [done|]. split; [done|].
  change (rs_queue sst) with (Libc.queue sst). change (rs_queue cst) with (Libc.queue cst).
  rewrite <- Hsgot, <- Hgot, Hreq, Hresp. unfold tcp_delivers. by split_and!.
Qed.

(** The client took them all: what it has not dispatched is not a response. *)
Lemma settled_answered :
  Client.pc client <> Client.REnd -> length (begun pool) <= length (Client.answered client).
Proof using Hs.
  intros Hend. destruct settled_begun as [Hwire _].
  destruct settled_linked as (cst & crecv & sst & srecv & Hcs & Hcr & Hn & Hmem & Hss & Hsr & Hreq & Hresp & Hgot).
  pose proof (st_sent Hs) as Hf. pose proof (st_answered Hs) as Hsf. pose proof (st_responses Hs) as Hall.
  pose proof (answered_framed _ _ _ _ _ Hcs Hcr Hn) as Hans.
  pose proof (LibcClientWait.life_ok S (st_setting Hs) m (st_life Hs)) as Hok.
  pose proof (LibcClientLife.rest_reader S m Hok) as Hread.
  destruct Hok as ((Hr & Hrun & _) & _). destruct (LibcClient.running_inv _ _ _ _ _ Hr Hrun) as (Hb & _ & _ & rest & Hrecv & Hconn).
  assert (Hbeg : Forall (framed (Client.issued client)) (begun pool).*2).
  { apply Forall_fmap, list.Forall_forall. intros [id msg] Hi.
    destruct (begun_framed _ _ _ _ _ _ _ _ _ Hcs Hcr Hn Hf Hmem Hss Hsr Hreq id msg Hi)
      as (req & resp & body & Hq & Hwf & Hm & Hcid & _ & Hlen & _).
    exists resp, body, req. split_and!; try done; [lia|]. rewrite Hcid.
    by replace (Z.to_nat (Z.of_nat id + 1 - 1)) with id by lia. }
  rewrite Hall, Hwire in Hrecv.
  destruct (framed_prefix _ _ _ rest Hans Hbeg) as [tl Htl]; [by rewrite Hrecv|].
  rewrite Htl, join_app in Hrecv. apply app_inv_head in Hrecv.
  destruct tl as [|msg tl].
  { rewrite app_nil_r in Htl. apply (f_equal length) in Htl. rewrite !length_fmap in Htl. lia. }
  exfalso. rewrite Htl in Hbeg. apply Forall_app in Hbeg as [_ Hbeg]. apply list.Forall_cons in Hbeg as [Hmsg _].
  destruct Hmsg as (resp & body & req & Hwf & -> & Hge & Hlk & Hlen). simpl in Hrecv.
  destruct (Client.pc client) as [| |resp0 pd| | | |resp0 pd] eqn:Hpc; try done.
  - destruct Hconn as (_ & Hlt & _). rewrite <- Hrecv, !length_app, length_encode_response in Hlt.
    unfold sizeof_response in Hlt. lia.
  - destruct Hconn as (-> & Hwf0 & Hpd & Hrd & Hpos & Hlt & _). rewrite <- app_assoc in Hrecv.
    apply encode_response_inj in Hrecv as [<- Hu]; [|done..].
    destruct (Client.bk_pending Hb _ _ (or_introl Hpd)) as (req' & Hreq' & Hrd' & _).
    apply Client.request_of_issued in Hreq' as [Hreq' _]. rewrite Hlk in Hreq'. simplify_eq.
    rewrite <- Hu, length_app, Hlen in Hlt. unfold body_length in Hlt.
    rewrite Hrd in Hrd'. unfold Client.is_write_req in Hrd'. destruct (is_write _); [done|]. lia.
  - by apply (never_overflows _ _ _ _ _ _ _ _ _ Hcs Hcr Hn Hf Hmem Hss Hsr Hreq Hsf Hresp resp0 pd).
Qed.
End joined.
Arguments st_setting {_ S m K es n listen_fd shutdown w fd c}.
Arguments st_life {_ S m K es n listen_fd shutdown w fd c}.
Arguments st_sent {_ S m K es n listen_fd shutdown w fd c}.
Arguments st_answered {_ S m K es n listen_fd shutdown w fd c}.

(** C9: every call is answered in the end. Take a client and a worker, both on the
    poll-driven queue, whenever the application has the control and the worker polls, with
    one of the worker's connections being the client's. If neither has anything left to
    send, TCP has delivered everything, no send failed, the client still reads, and the
    server was not short of memory, then nothing is pending at the client: each call ever
    made has had its callback, exactly once, with the result of the one file operation the
    server ran for it and, for a read, the bytes of that operation in the caller's buffer.
    So a request can only be outstanding while somebody has something to send or TCP
    something to deliver: nothing hangs. *)
Theorem settled_calls_answered `{NativeEndian} (S : LibcClientWait.setting) (m : LibcClient.machine)
    (K : LibcWorker.kernel) (es n : nat) (listen_fd : Z) (shutdown : nat -> bool)
    (w : LibcWorker.worker) (fd : Z) (c : LibcConnection.conn) :
  settled S m K es n listen_fd shutdown w fd c ->
  let client := LibcClient.cl m in
  let pool := Session.ss_pool (LibcConnection.sess c) in
  Client.pc client <> Client.REnd ->
  Client.pending client = ∅ /\
  Client.ca_cid <$> Client.calls client ≡ₚ seqZ 1 (Z.of_nat (length (Client.issued client))) /\
  Forall (fun ca => exists req resp body,
    Client.request_of client (Client.ca_cid ca) = Some req /\ Client.ca_resp ca = Some (resp, body) /\
    owed req (of_id (Z.to_nat (Client.ca_cid ca - 1)) (io_log pool)) (Client.ca_res ca) body /\
    take (length body) (Client.ca_buf ca) = body) (Client.calls client).
Proof.
  intros Hs client pool Hend. pose proof (settled_answered _ _ _ _ _ _ _ _ _ _ Hs Hend) as Hans.
  destruct (settled_begun _ _ _ _ _ _ _ _ _ _ Hs) as [_ Hbeg].
  destruct (settled_linked _ _ _ _ _ _ _ _ _ _ Hs) as (cst & crecv & sst & srecv & Hcs & Hcr & Hn & Hmem & Hss & Hsr & Hreq & Hresp & _).
  pose proof (LibcClientWait.life_ok S (st_setting Hs) m (st_life Hs)) as ((Hr & Hrun & _) & _).
  destruct (LibcClient.running_inv _ _ _ _ _ Hr Hrun) as (Hb & _). pose proof (Client.bk_where Hb) as Hwhere.
  pose proof (Permutation_length Hwhere) as Hlen. rewrite !length_app, !length_fmap, length_seqZ, Nat2Z.id in Hlen.
  fold client in Hans, Hbeg, Hcr, Hn, Hreq, Hb, Hwhere, Hlen. fold pool in Hans, Hbeg, Hresp.
  pose proof (length_omap_le Client.ca_resp (Client.calls client)) as Hsome.
  fold (Client.answered client) in Hsome.
  assert (Hnil : map_to_list (Client.pending client) = [] /\ Client.failing (Client.pc client) = [])
    by (split; apply nil_length_inv; lia).
  destruct Hnil as [Hp%map_to_list_empty_iff Hf]. rewrite Hp, map_to_list_empty, Hf in Hwhere.
  split; [done|]. split; [exact Hwhere|]. apply list.Forall_forall. intros ca Hin.
  assert (Hall : Forall (fun ca => is_Some (Client.ca_resp ca)) (Client.calls client))
    by (apply omap_full; fold (Client.answered client); lia).
  destruct (Forall_elem _ _ _ Hall Hin) as [[resp body] Hca].
  destruct (callback_owed _ _ _ _ _ _ _ _ _ Hcs Hcr Hn (st_sent Hs) Hmem Hss Hsr Hreq (st_answered Hs) Hresp ca resp body Hin Hca)
    as (req & Hrq & Howed & Hbuf).
  by exists req, resp, body.
Qed.
