(* ===== verification/Examples.v ===== *)
(** * Concrete executions

    A connection over the libc stream serves a read and a durable write that arrive in one
    piece, with the socket taking the first response in two pieces; a client makes these
    two calls, gets the responses, and calls again after its connection ended. The theorems
    about both ends are applied to them. *)

From S2P Require Import Prelude Protocol Sync RecvStream FramedReader LibcRecvStream Queue Handlers Session.
From S2P Require SendLock Client EndToEnd ClientTeardown.

Open Scope nat_scope.

#[local] Instance native : NativeEndian := little_endian.

(** Every allocation of the examples succeeds. *)
Definition memalign (id n : nat) : option bytes := Some (replicate n Byte.x00).

Lemma memalign_size id n mem : memalign id n = Some mem -> length mem = n.
Proof. unfold memalign. intros. simplify_eq. apply length_replicate. Qed.

Definition idle_stream : Libc.t :=
  (Libc.on_ready [] (Libc.Mk 64 4 (replicate 256 Byte.x00) 0 [] 0 false 0 None [])).1.

Lemma idle_stream_inv : Libc.inv idle_stream.
Proof. by apply (Libc.make_inv 64 4 (replicate 256 Byte.x00) []). Qed.

Definition example_read : request :=
  Req {| req_cid := 7; req_offset := 4096; req_size := 2; req_op := EASYBD_OP_READ |} [].
Definition example_write : request :=
  Req {| req_cid := 8; req_offset := 0; req_size := 1; req_op := EASYBD_OP_WRITE_SYNC |} [Byte.x2a].

Definition example_events : list (event (St := Libc.t)) :=
  [ Run;
    Receive (Libc.EvReady [RecvData (request_image example_read ++ request_image example_write); RecvEof]
      : rs_event (RecvStreamLaws := Libc.stream_laws));
    Run; Run;
    Io 0 (IoRead (Ok [Byte.x01; Byte.x02])); Io 1 (IoWrite (Ok 1));
    Accept 0 10; Accept 0 8; Release 0; Accept 1 16; Release 1; Finish 0 ].

(** A step of the examples can happen, by evaluation. *)
Ltac enabled :=
  cbn [Session.enabled Client.enabled];
  repeat (match goal with
  | |- _ /\ _ => split
  | |- exists _, _ => eexists
  | |- _ = _ => vm_compute; reflexivity
  | |- _ <= _ => vm_compute; lia
  | |- (_ <= _)%Z => vm_compute; congruence
  | |- (_ < _)%Z => vm_compute; congruence
  | |- forall _, _ => let H := fresh in intros * H; vm_compute in H; congruence
  | |- _ <> _ => by vm_compute
  | |- io_call_ok _ _ => vm_compute; lia
  | |- rs_event_ok _ _ => repeat constructor; vm_compute; lia
  end).

Lemma example_exec_ok : exec_ok memalign example_events (session_init idle_stream).
Proof. unfold example_events. cbn [exec_ok ts_exec_ok]. split_and!; try exact I; enabled. Qed.

Definition example_end : session Libc.t := (exec memalign example_events (session_init idle_stream)).2.
Definition example_recv : bytes := (exec memalign example_events (session_init idle_stream)).1.

Lemma example_reach : reach memalign (session_init idle_stream) example_recv example_end.
Proof. apply exec_reach, example_exec_ok. Qed.

Lemma session_parses_witness :
  ss_pc example_end = CWait /\
  spawned (ss_pool example_end) = [example_read; example_write] /\
  parse example_recv = [example_read; example_write].
Proof.
  pose proof (session_parses (H1 := Libc.stream_laws) memalign idle_stream example_recv example_end
    memalign_size idle_stream_inv eq_refl example_reach) as [Hprefix _].
  split; [by vm_compute|]. split; [by vm_compute|]. by vm_compute.
Defined.

Lemma session_responses_witness :
  wire (ss_pool example_end) =
    encode_response {| resp_cid := 7; resp_res := 2 |} ++ [Byte.x01; Byte.x02] ++
    encode_response {| resp_cid := 8; resp_res := 1 |} /\
  NoDup (begun (ss_pool example_end)).*1.
Proof.
  split; [by vm_compute|].
  exact (proj1 (proj2 (session_responses (H1 := Libc.stream_laws) memalign idle_stream example_recv
    example_end memalign_size idle_stream_inv eq_refl example_reach))).
Defined.

(** One more step ends the connection. *)
Lemma session_drains_witness :
  ss_pc (exec memalign [Finish 1] example_end).2 = CEnd /\
  1 <= steps_left (ss_pool example_end).
Proof.
  assert (Hrun : drain_run memalign [Finish 1] example_end).
  { split; [|done]. split; [|done]. enabled. }
  split; [by vm_compute|].
  exact (proj1 (proj2 (session_drains (H1 := Libc.stream_laws) memalign idle_stream example_recv
    example_end memalign_size idle_stream_inv eq_refl example_reach (or_introl eq_refl))
    [Finish 1] Hrun)).
Defined.

(** ** A client *)

Import Client.

Definition example_buffers : gmap nat bytes := {[ 0 := [Byte.x00; Byte.x00] ]}.
Definition fresh_client : client Libc.t := client_init true example_buffers idle_stream.

Definition client_ev := Client.event (H1 := Libc.stream_laws).

(** Two calls, sent in pieces. *)
Definition client_calls : list client_ev :=
  [ Client.Run; Pread 0 2 4096 100; Pwrite [Byte.x2a] 0 101;
    Client.Accept 0 10; Client.Accept 0 15; Leave 0; Client.Accept 1 26; Leave 1 ].

(** The responses, then the end of the stream. *)
Definition client_answers : list client_ev :=
  [ Client.Receive (Libc.EvReady [RecvData (encode_response {| resp_cid := 1; resp_res := 2 |} ++
        [Byte.x01; Byte.x02] ++ encode_response {| resp_cid := 2; resp_res := 1 |})]
      : rs_event (RecvStreamLaws := Libc.stream_laws));
    Client.Run; Client.Run;
    Client.Receive (Libc.EvReady [RecvEof] : rs_event (RecvStreamLaws := Libc.stream_laws)); FailNext ].

(** A call after that, which is sent. *)
Definition client_late : list client_ev := [Pread 0 2 0 102; Client.Accept 2 25; Leave 2].

Definition client_after (es : list client_ev) : client Libc.t := (Client.exec es fresh_client).2.
Definition client_recv (es : list client_ev) : bytes := (Client.exec es fresh_client).1.

Lemma client_reach es :
  Client.exec_ok es fresh_client -> Client.reach fresh_client (client_recv es) (client_after es).
Proof. apply Client.client_exec_reach. Qed.

Lemma client_calls_ok : Client.exec_ok client_calls fresh_client.
Proof. unfold client_calls. cbn [Client.exec_ok ts_exec_ok]. split_and!; try exact I; enabled. Qed.

Lemma client_answers_ok : Client.exec_ok (client_calls ++ client_answers) fresh_client.
Proof.
  unfold client_calls, client_answers. cbn [app Client.exec_ok ts_exec_ok].
  split_and!; try exact I; enabled.
Qed.

Lemma client_all_ok : Client.exec_ok (client_calls ++ client_answers ++ client_late) fresh_client.
Proof.
  unfold client_calls, client_answers, client_late. cbn [app Client.exec_ok ts_exec_ok].
  split_and!; try exact I; enabled.
Qed.

(** Both callbacks were made, in the order of the responses. *)
Lemma client_accounts_witness :
  let c := client_after (client_calls ++ client_answers) in
  (ca_cid <$> calls c) = [1; 2]%Z /\ (ca_res <$> calls c) = [2; 1]%Z /\
  Forall (callback_ok c) (calls c).
Proof.
  split; [by vm_compute|]. split; [by vm_compute|].
  exact (proj1 (proj2 (client_accounts (H0 := _) (H1 := Libc.stream_laws) true example_buffers idle_stream _ _
    idle_stream_inv eq_refl (client_reach _ client_answers_ok) ltac:(by vm_compute)))).
Defined.

Lemma client_reads_responses_witness :
  let c := client_after (client_calls ++ client_answers) in
  pc c = REnd /\ exists rest, rs_queue (RecvStreamLaws := Libc.stream_laws) idle_stream ++
    client_recv (client_calls ++ client_answers) =
    mjoin (response_image <$> answered c) ++ rest.
Proof.
  split; [by vm_compute|].
  pose proof (client_reads_responses (H1 := Libc.stream_laws) true example_buffers idle_stream _ _
    idle_stream_inv eq_refl (client_reach _ client_answers_ok) ltac:(by vm_compute)) as (rest & Hrecv & _).
  exists rest. exact Hrecv.
Defined.

Lemma client_sends_in_order_witness :
  let c := client_after client_calls in
  SendLock.wire (out c) = images (issued c) /\ SendLock.wire_holds (out c).
Proof.
  split; [by vm_compute|].
  exact (proj1 (client_sends_in_order (H1 := Libc.stream_laws) true example_buffers idle_stream _ _
    idle_stream_inv eq_refl (client_reach _ client_calls_ok) ltac:(by vm_compute))).
Defined.

(** The third call never gets its callback. *)
Lemma client_strands_late_requests_witness :
  let c := client_after (client_calls ++ client_answers ++ client_late) in
  total_dispatched c = 2%Z /\ (3%Z ∉ ca_cid <$> calls c).
Proof.
  split; [by vm_compute|].
  exact (proj2 (client_strands_late_requests (H1 := Libc.stream_laws) true example_buffers idle_stream _ []
    _ _ 2 (Req {| req_cid := 3; req_offset := 0; req_size := 2; req_op := EASYBD_OP_READ |} [])
    (MkPending true 0 102) idle_stream_inv eq_refl (client_reach _ client_all_ok)
    ltac:(by vm_compute) ltac:(by vm_compute) ltac:(by vm_compute) ltac:(by vm_compute)
    (ts_refl _ _ _ _) ltac:(by vm_compute))).
Defined.

(** A server that answers a 2-byte read with 3 bytes makes the client write past the
    buffer of the caller. *)
Definition client_overflow : list client_ev :=
  [ Client.Run; Pread 0 2 4096 100; Client.Accept 0 25; Leave 0;
    Client.Receive (Libc.EvReady [RecvData (encode_response {| resp_cid := 1; resp_res := 3 |} ++
        [Byte.x01; Byte.x02; Byte.x03])] : rs_event (RecvStreamLaws := Libc.stream_laws)) ].

Lemma client_overflow_reached :
  Client.exec_ok client_overflow fresh_client /\
  pc (client_after client_overflow) = ROverflow {| resp_cid := 1; resp_res := 3 |} (MkPending true 0 100).
Proof.
  split; [|by vm_compute]. unfold client_overflow. cbn [Client.exec_ok ts_exec_ok].
  split_and!; try exact I; enabled.
Qed.

(** ** Both ends *)

(** The server of the first example, having received what this client sent. *)
Definition pair_events : list (Session.event (St := Libc.t)) :=
  [ Session.Run;
    Session.Receive (Libc.EvReady [RecvData (SendLock.wire (out (client_after client_calls)))]
      : rs_event (RecvStreamLaws := Libc.stream_laws));
    Session.Run; Session.Run ].

Lemma pair_ok : Session.exec_ok memalign pair_events (session_init idle_stream).
Proof. unfold pair_events. cbn [Session.exec_ok ts_exec_ok]. split_and!; try exact I; enabled. Qed.

Lemma server_serves_client_calls_witness :
  let s := (Session.exec memalign pair_events (session_init idle_stream)).2 in
  length (spawned (ss_pool s)) = 2 /\
  spawned (ss_pool s) `prefix_of` issued (client_after client_calls).
Proof.
  split; [by vm_compute|].
  apply (EndToEnd.server_serves_client_calls (H1 := Libc.stream_laws) (H3 := Libc.stream_laws) true
    example_buffers idle_stream _ _ memalign idle_stream
    (Session.exec memalign pair_events (session_init idle_stream)).1 _ (conj idle_stream_inv eq_refl)
    (client_reach _ client_calls_ok) ltac:(by vm_compute) ltac:(by vm_compute) memalign_size
    (conj idle_stream_inv eq_refl) (Session.exec_reach memalign _ _ pair_ok)).
  exists []. by vm_compute.
Defined.

(** The server reads two bytes and writes one, answers the write first, and the client
    gets both responses in two pieces. *)
Definition served_events : list (Session.event (St := Libc.t)) :=
  pair_events ++
  [ Io 1 (IoWrite (Ok 1)); Io 0 (IoRead (Ok [Byte.x01; Byte.x02]));
    Session.Accept 1 16; Release 1; Session.Accept 0 18; Release 0 ].

Lemma served_ok : Session.exec_ok memalign served_events (session_init idle_stream).
Proof.
  unfold served_events, pair_events. cbn [app Session.exec_ok ts_exec_ok].
  split_and!; try exact I; enabled.
Qed.

Definition server_end : session Libc.t := (Session.exec memalign served_events (session_init idle_stream)).2.

(** What it sent. *)
Definition served_wire : bytes :=
  encode_response {| resp_cid := 2; resp_res := 1 |} ++
  encode_response {| resp_cid := 1; resp_res := 2 |} ++ [Byte.x01; Byte.x02].

Definition client_served : list client_ev :=
  client_calls ++
  [ Client.Receive (Libc.EvReady [RecvData (take 20 served_wire)]
      : rs_event (RecvStreamLaws := Libc.stream_laws));
    Client.Run;
    Client.Receive (Libc.EvReady [RecvData (drop 20 served_wire)]
      : rs_event (RecvStreamLaws := Libc.stream_laws)) ].

Lemma client_served_ok : Client.exec_ok client_served fresh_client.
Proof.
  unfold client_served, client_calls. cbn [app Client.exec_ok ts_exec_ok].
  split_and!; try exact I; enabled.
Qed.

Lemma callbacks_get_server_results_witness :
  let c := client_after client_served in
  (fun ca => (ca_cid ca, ca_res ca)) <$> calls c = [(2, 1); (1, 2)]%Z /\
  ca_buf <$> calls c !! 1 = Some [Byte.x01; Byte.x02] /\
  forall resp pd, pc c <> ROverflow resp pd.
Proof.
  split; [by vm_compute|]. split; [by vm_compute|].
  apply (EndToEnd.callbacks_get_server_results (H1 := Libc.stream_laws) (H3 := Libc.stream_laws) true
    example_buffers idle_stream (client_recv client_served) _ memalign idle_stream
    (Session.exec memalign served_events (session_init idle_stream)).1 server_end (conj idle_stream_inv eq_refl)
    (client_reach _ client_served_ok) ltac:(by vm_compute) ltac:(by vm_compute) memalign_size
    (conj idle_stream_inv eq_refl) (Session.exec_reach memalign _ _ served_ok)).
  - exists []. by vm_compute.
  - by vm_compute.
  - exists []. by vm_compute.
Defined.

(** A connection waiting for a request ends when its queue is destroyed: the cancellation
    resumes it, and it runs to its end, where its receive stream is destroyed. *)
Lemma cancelled_connection_ends :
  ss_pc (Session.exec memalign [Session.Run] (session_init idle_stream)).2 = CHeader /\
  ss_pc (Session.exec memalign [Session.Run; Session.Receive (Libc.EvCancel : rs_event (RecvStreamLaws := Libc.stream_laws))]
           (session_init idle_stream)).2 = CEnd.
Proof. by vm_compute. Qed.

(** Two writes, the first of which waits for the socket. *)
Definition client_busy : list client_ev :=
  [ Client.Run; Pwrite [Byte.x2a] 0 100; Pwrite [Byte.x2b] 512 101; Client.Accept 0 10 ].

Lemma client_busy_ok : Client.exec_ok client_busy fresh_client.
Proof. unfold client_busy. cbn [Client.exec_ok ts_exec_ok]. split_and!; try exact I; enabled. Qed.

Lemma client_busy_rest : ClientTeardown.at_rest (client_after client_busy).
Proof.
  split; [left; by vm_compute|]. intros id Hid%elem_of_map_to_list.
  assert (Hall : Forall (fun x => x.2 <> SendLock.Leaves)
    (map_to_list (SendLock.procs (out (client_after client_busy)))))
    by (vm_compute; repeat constructor; discriminate).
  by apply (Forall_elem _ _ _ Hall Hid).
Qed.

(** The second write is left behind, holding the lock. *)
Lemma client_destroyed_libc_witness :
  let c' := ClientTeardown.Client_dtor [] (client_after client_busy) in
  pc c' = REnd /\ (fun ca => (ca_cid ca, ca_res ca)) <$> calls c' = [(2, -104); (1, -104)]%Z /\
  exists id f m, SendLock.procs (out (client_after client_busy)) !! id = Some (SendLock.Waits m) /\
    SendLock.procs (out c') !! id = Some (SendLock.Sends f).
Proof.
  destruct (ClientTeardown.client_destroyed_libc true example_buffers idle_stream
    (client_recv client_busy) (client_after client_busy) [] idle_stream_inv eq_refl
    (client_reach _ client_busy_ok) ltac:(by vm_compute) client_busy_rest ltac:(by vm_compute))
    as (Hpc & _ & _ & _ & _ & Hleft).
  split; [exact Hpc|]. split; [by vm_compute|].
  destruct (Hleft I) as (id & f & m & Hid & Hid' & _).
  - eexists 1, _. by vm_compute.
  - exists id, f, m. split; [exact Hid|exact Hid'].
Defined.
