(* ===== verification/LibcExamples.v ===== *)
(** * A worker on the libc backend, executed

    One connection is accepted with a read and a durable write in its socket; the first
    response would block, the second waits for the lock; then the socket becomes writable
    and both go out. The theorems of [LibcWorker] are applied to these states. Behind them,
    executions that show what the resumptions of [easyio] cost. *)

From S2P Require Import Prelude Protocol Sync RecvStream FramedReader LibcRecvStream Queue Handlers Session LibcEntry LibcConnection LibcTurns LibcWorker Examples.
From S2P Require LibcQueue.

Open Scope nat_scope.

#[local] Instance libc_native : NativeEndian := little_endian.

(** The second system call of a connection, the first [send], would block. *)
Definition example_send (fd : Z) (k : nat) (iov : list bytes) : sysret :=
  if bool_decide (k = 1) then Errno EAGAIN else Ret (Z.of_nat (length (mjoin iov))).

Definition example_file (k : nat) (call : io_call) : io_result :=
  match call with
  | Pread size _ => IoRead (Ok (replicate size Byte.x01))
  | Pwrite data _ | PwriteDsync data _ => IoWrite (Ok (length data))
  end.

Definition example_setup : setup :=
  Setup (Ret 0) (fun _ => Ret 0%Z) (Ret 0) (Some (replicate 256 Byte.x00))
    [RecvData (request_image example_read ++ request_image example_write)] 100 memalign.

(** Descriptor 5 is accepted once. *)
Definition example_accept (k : nat) (open : list Z) : accept_answer :=
  if bool_decide (k = 0) && bool_decide (5%Z ∉ open) then Connected 5 example_setup else Refused EAGAIN.

Definition example_kernel : kernel :=
  Kernel example_send example_file (fun _ _ => Ret 0%Z) (fun k => 200 + k) example_accept (fun _ => 50).

Definition never (k : nat) : bool := false.

Lemma example_kernel_ok : kernel_ok example_kernel 64 4.
Proof.
  split; simpl.
  - intros fd k iov Hiov. unfold example_send. case_bool_decide; [done|].
    destruct (mjoin iov); [done|]. simpl. lia.
  - intros k [size off|data off|data off]; simpl; [|lia..]. by rewrite length_replicate.
  - intros k open fd su. unfold example_accept. case_bool_decide; [|done].
    case_bool_decide; [|done]. intros [= <- <-]. split_and!; [done|done|]. split.
    + by intros mem [= <-].
    + repeat constructor; vm_compute; lia.
    + apply memalign_size.
  - intros k open e. unfold example_accept. destruct (_ && _); [done|]. by intros [= <-].
  - intros k. exists (S k). split; [lia|]. done.
Qed.

Definition worker_of (r : option worker) : worker := default (Worker LibcQueue.init 0 0 ∅ None []) r.

(** The worker polls for the first time. *)
Definition example_started : worker := worker_of (start example_kernel 64 4 3 never 40).

Lemma example_started_polls : polls example_kernel 64 4 3 never example_started.
Proof.
  apply polls_start. exists 40. intros fuel Hfuel. replace fuel with (40 + (fuel - 40)) by lia.
  generalize (fuel - 40). intros k. vm_compute. reflexivity.
Qed.

Definition example_poll : polled := PollReady ((fun p => (p.1, if bool_decide (p.1 = 5%Z) then LibcQueue.POLLOUT else 0%Z, [])) <$>
    LibcQueue.poll_set (queue example_started)).

Lemma example_polled_ok : polled_ok example_poll example_started.
Proof.
  split; [by vm_compute|]. intros fd revents rs c Hin _. vm_compute in Hin.
  repeat (apply list.elem_of_cons in Hin as [[= -> -> ->]|Hin]; [constructor|]). by apply not_elem_of_nil in Hin.
Qed.

Definition example_served : worker :=
  match step example_kernel 64 4 3 never 60 example_poll example_started with
  | Some (Ok w) => w
  | _ => worker_of None
  end.

Lemma example_step : ends_in (fun fuel => step example_kernel 64 4 3 never fuel example_poll example_started) (Ok example_served).
Proof.
  exists 60. intros fuel Hfuel. replace fuel with (60 + (fuel - 60)) by lia.
  generalize (fuel - 60). intros k. vm_compute. reflexivity.
Qed.

Lemma example_served_polls : polls example_kernel 64 4 3 never example_served.
Proof. exact (polls_step _ _ _ _ _ _ _ _ example_started_polls example_polled_ok example_step). Qed.

(** The first response waits for the socket, and the second behind it: the connection is
    polled in both directions. *)
Lemma worker_no_lost_wakeup_witness :
  (5%Z, Z.lor LibcQueue.POLLIN LibcQueue.POLLOUT) ∈ LibcQueue.poll_set (queue example_started) /\
  (3%Z, LibcQueue.POLLIN) ∈ LibcQueue.poll_set (queue example_started).
Proof.
  destruct (worker_no_lost_wakeup example_kernel 64 4 3 never example_started example_kernel_ok
    example_started_polls) as (Hpoll & _). split; apply Hpoll.
  - right. eexists. split; [vm_compute; reflexivity|]. left. split; [|done].
    eexists 0, _, _. vm_compute. reflexivity.
  - left. split; [done|]. split; [by eexists|done].
Defined.

(** Once the socket took both, the connection is quiet. *)
Lemma worker_answers_witness :
  exists c, conns example_served !! 5%Z = Some c /\ parse (got c) = [example_read; example_write] /\
    spawned (ss_pool (sess c)) = parse (got c) /\ handlers (ss_pool (sess c)) = ∅ /\
    wire (ss_pool (sess c)) =
      encode_response {| resp_cid := 7; resp_res := 2 |} ++ [Byte.x01; Byte.x01] ++
      encode_response {| resp_cid := 8; resp_res := 1 |}.
Proof.
  eexists. split; [vm_compute; reflexivity|].
  destruct (worker_answers example_kernel 64 4 3 never example_served 5
    _ example_kernel_ok example_served_polls ltac:(vm_compute; reflexivity)) as (Hspawned & Hempty & _).
  { intros (id & j & f & Hid). vm_compute in Hid. congruence. }
  split_and!; [by vm_compute|exact Hspawned|exact Hempty|by vm_compute].
Defined.

(** Its step is a step of the table. *)
Lemma worker_refines_witness :
  exists p', reacts example_poll p' /\
    LibcQueue.step p' (queue example_started) = Ok (queue example_served).
Proof.
  destruct (worker_refines example_kernel 64 4 3 never example_started example_kernel_ok
    example_started_polls) as (_ & _ & Hstep).
  destruct (Hstep example_poll (Ok example_served) example_polled_ok example_step) as (p' & Hp & _ & Hq).
  exists p'. by split.
Defined.

(** It was the step in which the socket was writable that made it quiet. *)
Lemma worker_serves_witness :
  match conns example_served !! 5%Z with
  | Some c => ~ sends c /\ spawned (ss_pool (sess c)) = parse (got c) /\ handlers (ss_pool (sess c)) = ∅
  | None => True
  end.
Proof.
  apply (worker_serves example_kernel 64 4 3 never example_started example_served
    (match example_poll with PollReady pfds => pfds | _ => [] end) 5 LibcQueue.POLLOUT []
    (default (Conn (session_init idle_stream) 0 [] false memalign []) (conns example_started !! 5%Z))).
  - exact example_kernel_ok.
  - exact example_started_polls.
  - exact example_polled_ok.
  - apply list_elem_of_In. vm_compute. auto.
  - by vm_compute.
  - intros k iov Hk. vm_compute in Hk. simpl. unfold example_send. by rewrite bool_decide_false by lia.
  - done.
  - exact example_step.
Defined.

(** The same connection, when the worker exits then. *)
Lemma worker_exit_undefined_witness :
  exists c, conns example_served !! 5%Z = Some c /\
    LibcQueue.destroy_fd 5 [[LibcQueue.ClearRead 5 (stream_op c)]] (LibcQueue.entry 5 (queue example_served))
      (queue example_served) = None.
Proof.
  eexists. split; [vm_compute; reflexivity|].
  apply (worker_exit_undefined example_kernel 64 4 3 never example_served 5 _ example_kernel_ok
    example_served_polls ltac:(vm_compute; reflexivity)); [|done].
  intros (id & j & f & Hid). vm_compute in Hid. congruence.
Defined.

(** An interrupted [poll] changes nothing. *)
Lemma worker_step_returns_witness :
  exists r, ends_in (fun fuel => step example_kernel 64 4 3 never fuel (PollError EINTR) example_started) r /\
    r = Ok example_started.
Proof.
  destruct (worker_step_returns example_kernel 64 4 3 never example_kernel_ok) as [_ Hstep].
  destruct (Hstep example_started (PollError EINTR) example_started_polls I) as (r & Hends & Hr).
  exists r. split; [exact Hends|]. by destruct r as [w|x]; [destruct Hr as [_ ->]|destruct Hr as []].
Defined.

(** ** The depth of the stack *)

(** A socket that takes everything. *)
Definition takes_all (k : nat) (iov : list bytes) : sysret := Ret (Z.of_nat (length (mjoin iov))).

(** The highest the stack gets in [run]. *)
Fixpoint height (fuel : nat) (stack : list coroutine) (m : machine) : nat :=
  match stack, fuel with
  | c :: rest, S fuel =>
      let '(cs, m') := turn takes_all example_file (fun k => 200 + k) 5 c m in
      max (length stack) (height fuel (cs ++ rest) m')
  | _, _ => length stack
  end.

(** An oversized read, answered without any file operation. *)
Definition refused_read (cid : Z) : request :=
  Req {| req_cid := cid; req_offset := 0; req_size := 2 ^ 31; req_op := EASYBD_OP_READ |} [].

(** A connection that received [n] of them while its socket takes nothing. *)
Definition stalled (n : nat) : machine :=
  let reqs := (fun i => refused_read (Z.of_nat i)) <$> seq 0 n in
  let st := (Libc.on_ready [RecvData (mjoin (request_image <$> reqs))]
    (Libc.Mk 1024 4 (replicate 4096 Byte.x00) 0 [] 0 false 0 None [])).1 in
  let m := Machine (Conn (session_init st) 100 [] false memalign (Libc.queue st))
    (LibcQueue.set_read_op 5 100 LibcQueue.init) 1 in
  default m (run (fun _ _ => Errno EAGAIN) example_file (fun k => 200 + k) 5 (10 * n + 10) [Reader] m).

(** When the socket takes everything again, each [unlock()] resumes the next handler inside
    the previous one: one frame more for every request the peer pipelined. *)
Lemma unlock_nests :
  (fun n => height 1000 [Handler 0] (stalled n)) <$> [1; 2; 10; 40] = [1; 2; 10; 40].
Proof. by vm_compute. Qed.

(** ** A drained stream is still polled *)

(** After the end of its stream, a connection that waits for its handlers is woken by the
    stream's descriptor for nothing: [on_ready] reads nothing and resumes nothing. *)
Lemma ended_stream_spins rs (st : Libc.t) :
  Libc.inv st -> Libc.waiter st = None -> is_Some (Libc.final st) -> Libc.on_ready rs st = (st, None).
Proof.
  intros [Hok _] Hw Hf. unfold Libc.on_ready.
  assert (Hd : Libc.drain rs st = st).
  { apply Libc.final_Some in Hf. unfold Libc.some_end in Hf.
    assert (Hstop : bool_decide (Libc.err st = 0%Z) && negb (Libc.eof st) = false).
    { destruct (Libc.eof st); [apply andb_false_r|]. apply bool_decide_eq_true in Hf.
      by rewrite bool_decide_false. }
    destruct rs; simpl; by rewrite Hstop. }
  rewrite Hd. rewrite (proj2 (Libc.something_iff st Hok) (or_intror Hf)).
  destruct st. simpl in *. by subst.
Qed.
