(* ===== verification/LibcClientExamples.v ===== *)
(** * A client on the poll-driven queue, executed

    A read whose first [sendmsg] would block; the socket becomes writable; the response
    arrives, and its callback makes a write; then the connection ends. The theorems of
    [LibcClientLife] are applied to these states, and that of [LibcEndToEnd] to the client
    and the server that answered it. Behind them, executions that show what callbacks made
    outside of [wait] cost. *)

From S2P Require Import Prelude Protocol Sync RecvStream FramedReader LibcRecvStream Queue Wire Handlers Client LibcEntry LibcClient LibcClientTurns LibcClientWait LibcClientLife.
From S2P Require EndToEnd Session LibcQueue SendLock LibcConnection LibcWorker LibcEndToEnd Examples LibcExamples.

Open Scope nat_scope.

#[local] Instance libc_client_native : NativeEndian := little_endian.
#[local] Existing Instance Libc.stream_laws.

(** The first system call would block; afterwards the socket takes everything. *)
Definition example_send (m : machine) (iov : list bytes) : sysret :=
  if bool_decide (clock m = 0) then Errno EAGAIN else Ret (Z.of_nat (length (mjoin iov))).

(** The callback of the first request writes. *)
Definition example_app (c : client Libc.t) (ca : callback) : list app_call :=
  match ca_resp ca with
  | Some _ => if bool_decide (ca_cid ca = 1%Z) && bool_decide (length (issued c) = 1) then [CallWrite [Byte.x2a] 0 2] else []
  | None => []
  end.

Definition no_calls (c : client Libc.t) (ca : callback) : list app_call := [].

Definition example_setting (app : client Libc.t -> callback -> list app_call) : setting :=
  Setting example_send (fun k => 300 + k) app 7 false {[0 := replicate 8 Byte.x00]} [] 64 4.

Lemma example_client_kernel_ok : kernel_ok example_send.
Proof.
  split.
  - intros m iov Hiov. unfold example_send. case_bool_decide; [done|].
    destruct (mjoin iov); [done|]. simpl. lia.
  - intros m id f e resp pd req _ Hsend Hne. exfalso. unfold example_send in Hsend.
    case_bool_decide; congruence.
Qed.

Lemma example_setting_ok app : app = example_app \/ app = no_calls -> setting_ok (example_setting app).
Proof.
  intros Happ. split; [exact example_client_kernel_ok|]. simpl.
  destruct Happ as [-> | ->]; [|split; try done; intros; simpl; lia].
  unfold example_app. split; [|done| |by intros c ca ->].
  - intros c ca. destruct (ca_resp ca); [|done]. destruct (_ && _); [|done]. repeat constructor; simpl; lia.
  - intros c ca. destruct (ca_resp ca); [|done]. destruct (_ && _) eqn:H; [|done]. intros _ _.
    apply andb_prop in H as [_ H%bool_decide_eq_true]. rewrite H. unfold retries_left. rewrite drop_nil.
    vm_compute. reflexivity.
Qed.

(** The end of a computation, with any more fuel. *)
Ltac runs n :=
  exists n; let fuel := fresh "fuel" in let Hfuel := fresh in intros fuel Hfuel;
  replace fuel with (n + (fuel - n)) by lia; generalize (fuel - n); intros ?; vm_compute; reflexivity.

Definition machine_of (r : option machine) : machine :=
  default (Machine (client_init false ∅ Examples.idle_stream) 0 [] false LibcQueue.init 0 []) r.
Definition after_call (r : option (Z * machine)) : machine := machine_of (snd <$> r).
Definition after_wait (r : option (outcome (Z * machine))) : machine :=
  machine_of (r ← r; match r with Ok (_, m) => Some m | Throw _ => None end).

Definition example_read_call : app_call := CallRead 0 2 4096 1.
Definition response : bytes := encode_response {| resp_cid := 1; resp_res := 2 |} ++ [Byte.x01; Byte.x01].

Section run.
Context (app : client Libc.t -> callback -> list app_call).
Definition opened : machine := machine_of (opens (example_setting app) 100 Examples.idle_stream 40).
Definition asked : machine := after_call (calls_in (example_setting app) example_read_call opened 40).
Definition sent : machine := after_wait (waits_in (example_setting app) (PollReady LibcQueue.POLLOUT []) asked 40).
Definition answered_once : machine :=
  after_wait (waits_in (example_setting app) (PollReady LibcQueue.POLLIN [RecvData response]) sent 40).
Definition hung_up : machine :=
  after_wait (waits_in (example_setting app) (PollReady LibcQueue.POLLIN [RecvEof]) answered_once 40).
End run.

Lemma opened_life app : app = example_app \/ app = no_calls -> life (example_setting app) (opened app).
Proof.
  intros Happ. apply (life_open _ 100 Examples.idle_stream).
  - exists (replicate 256 Byte.x00), []. split; [by vm_compute|]. split; [constructor|]. by vm_compute.
  - destruct Happ as [-> | ->]; runs 40.
Qed.

Lemma asked_life app : app = example_app \/ app = no_calls -> life (example_setting app) (asked app).
Proof.
  intros Happ. apply (life_call _ example_read_call 0%Z (opened app)); [by apply opened_life| |].
  - split; [|destruct Happ as [-> | ->]; by vm_compute].
    split; [done|]. split; [done|]. exists (replicate 8 Byte.x00). by vm_compute.
  - destruct Happ as [-> | ->]; runs 40.
Qed.

Lemma asked_polled app : app = example_app \/ app = no_calls -> polled_ok (PollReady LibcQueue.POLLOUT []) (asked app).
Proof. intros [-> | ->]; (split; [by vm_compute|constructor]). Qed.

Lemma asked_sent app :
  app = example_app \/ app = no_calls ->
  ends_in (waits_in (example_setting app) (PollReady LibcQueue.POLLOUT []) (asked app)) (Ok (0%Z, sent app)).
Proof. intros [-> | ->]; runs 40. Qed.

Lemma sent_life app : app = example_app \/ app = no_calls -> life (example_setting app) (sent app).
Proof. intros Happ. eapply life_wait; [by apply asked_life|by apply asked_polled|by apply asked_sent]. Qed.

Lemma answered_life app : app = example_app \/ app = no_calls -> life (example_setting app) (answered_once app).
Proof.
  intros Happ. apply (life_wait _ (PollReady LibcQueue.POLLIN [RecvData response]) 1%Z (sent app)); [by apply sent_life| |].
  - destruct Happ as [-> | ->]; (split; [by vm_compute|]; repeat constructor; vm_compute; lia).
  - destruct Happ as [-> | ->]; runs 40.
Qed.

(** ** The theorems, there *)

(** While the request waits for the socket, the client is polled in both directions. *)
Lemma client_no_lost_wakeup_witness :
  LibcQueue.poll_set (table (asked example_app)) = [(7%Z, Z.lor LibcQueue.POLLIN LibcQueue.POLLOUT)] /\
  Libc.waiter (stream (cl (asked example_app))) = Some me.
Proof.
  destruct (client_no_lost_wakeup (example_setting example_app) (asked example_app) (example_setting_ok _ (or_introl eq_refl))
    (asked_life _ (or_introl eq_refl))) as ((r & s & Hr & Hs & Hpoll) & _ & Hw).
  assert (Hpc : pc (cl (asked example_app)) = RHeader) by (vm_compute; reflexivity).
  rewrite Hpc in Hr, Hw. split; [|apply Hw].
  assert (Hsend : sending (asked example_app)) by (eexists 0, _; vm_compute; reflexivity).
  apply Hs in Hsend. assert (r = true) as -> by (by apply Hr). rewrite Hsend in Hpoll. exact Hpoll.
Defined.

(** A connection that was reset: every send fails at once, unless its response is being
    read. *)
Definition reset_send (m : machine) (iov : list bytes) : sysret :=
  match pc (cl m) with RBody _ _ => Ret (Z.of_nat (length (mjoin iov))) | _ => Errno 32 end.

Definition reset_setting (retries : list nat) (app : client Libc.t -> callback -> list app_call) : setting :=
  Setting reset_send (fun k => 300 + k) app 7 false {[0 := replicate 8 Byte.x00]} retries 64 4.

(** The application asks again when a request fails, twice in all. *)
Definition asks_again (c : client Libc.t) (ca : callback) : list app_call :=
  match ca_resp ca with
  | Some _ => []
  | None => if bool_decide (failures c <= 2) then [example_read_call] else []
  end.

Lemma reset_setting_ok : setting_ok (reset_setting [1; 1] asks_again).
Proof.
  split; simpl.
  - split.
    + intros m iov Hiov. unfold reset_send. destruct (pc (cl m)); try done.
      destruct (mjoin iov); [done|]. simpl. lia.
    + intros m id f e resp pd req _ Hsend _ Hpc. unfold reset_send in Hsend. by rewrite Hpc in Hsend.
  - unfold asks_again. split; [|done|by intros c ca [r ->]|].
    + intros c ca. destruct (ca_resp ca); [done|]. case_bool_decide; [|done]. constructor; [|done].
      split; [done|]. split; [done|]. exists (replicate 8 Byte.x00). by vm_compute.
    + intros c ca ->. case_bool_decide; [|simpl; lia]. destruct (failures c) as [|[|[|n]]]; simpl; lia.
Qed.

Definition reset_opened : machine := machine_of (opens (reset_setting [1; 1] asks_again) 100 Examples.idle_stream 40).

Lemma reset_opened_life : life (reset_setting [1; 1] asks_again) reset_opened.
Proof.
  apply (life_open _ 100 Examples.idle_stream); [|runs 40].
  exists (replicate 256 Byte.x00), []. split; [by vm_compute|]. split; [constructor|]. by vm_compute.
Qed.

(** A [wait] on the writable socket returns; and a [pread] over the reset connection does,
    with three callbacks made inside it. *)
Lemma client_wait_returns_witness :
  (exists k m', ends_in (waits_in (example_setting example_app) (PollReady LibcQueue.POLLOUT []) (asked example_app)) (Ok (k, m')) /\
     life (example_setting example_app) m') /\
  exists m', ends_in (calls_in (reset_setting [1; 1] asks_again) example_read_call reset_opened) (0%Z, m') /\
    ca_cid <$> calls (cl m') = [1%Z; 2%Z; 3%Z].
Proof.
  split.
  - destruct (client_wait_returns (example_setting example_app) (example_setting_ok _ (or_introl eq_refl))) as (_ & _ & Hwait).
    destruct (Hwait (PollReady LibcQueue.POLLOUT []) (asked example_app) (asked_life _ (or_introl eq_refl))
      (asked_polled _ (or_introl eq_refl))) as (r & Hends & Hr).
    destruct r as [[k m']|]; [|done]. exists k, m'. split; [exact Hends|apply Hr].
  - destruct (client_wait_returns (reset_setting [1; 1] asks_again) reset_setting_ok) as (_ & Hcall & _).
    destruct (Hcall example_read_call reset_opened reset_opened_life) as (m' & Hends & _).
    { split; [|by vm_compute]. split; [done|]. split; [done|]. exists (replicate 8 Byte.x00). by vm_compute. }
    exists m'. split; [exact Hends|].
    assert (Hcalled : ends_in (calls_in (reset_setting [1; 1] asks_again) example_read_call reset_opened)
      (0%Z, after_call (calls_in (reset_setting [1; 1] asks_again) example_read_call reset_opened 40))) by runs 40.
    pose proof (f_equal snd (ends_in_unique _ _ _ Hends Hcalled)) as Heq. cbn [snd] in Heq. rewrite Heq. vm_compute. reflexivity.
Defined.

Lemma client_refines_witness :
  exists es n, Client.wait es (cl (asked example_app)) = (n, cl (sent example_app)) /\ to_int n = 0%Z.
Proof.
  destruct (client_refines (example_setting example_app) (asked example_app) (example_setting_ok _ (or_introl eq_refl))
    (asked_life _ (or_introl eq_refl))) as (_ & _ & Hwait).
  destruct (Hwait _ 0%Z (sent example_app) (asked_polled _ (or_introl eq_refl)) (asked_sent _ (or_introl eq_refl)))
    as (es & n & p' & _ & Hes & Hn & _). exists es, n. by split.
Defined.

(** After the callback made its write, both requests are on the wire. *)
Lemma client_quiet_witness :
  SendLock.procs (out (cl (answered_once example_app))) = ∅ /\
  length (SendLock.begun (out (cl (answered_once example_app)))) = 2.
Proof.
  assert (Hquiet : ~ sending (answered_once example_app)).
  { intros (id & f & Hid). vm_compute in Hid. congruence. }
  destruct (client_quiet (example_setting example_app) (answered_once example_app) (example_setting_ok _ (or_introl eq_refl))
    (answered_life _ (or_introl eq_refl)) Hquiet) as (Hp & Hb & _).
  split; [exact Hp|]. rewrite Hb. vm_compute. reflexivity.
Defined.

Lemma client_serves_witness : ~ sending (sent example_app) /\ SendLock.procs (out (cl (sent example_app))) = ∅.
Proof.
  destruct (client_serves (example_setting example_app) (asked example_app) (sent example_app) LibcQueue.POLLOUT 0 []
    (example_setting_ok _ (or_introl eq_refl)) (asked_life _ (or_introl eq_refl)) (asked_polled _ (or_introl eq_refl)))
    as (Hns & Hp & _).
  - intros m1 iov Hk. simpl. unfold example_send.
    rewrite bool_decide_false; [done|]. intros Hz. rewrite Hz in Hk. vm_compute in Hk. lia.
  - intros _. vm_compute. reflexivity.
  - exact (asked_sent _ (or_introl eq_refl)).
  - by split.
Defined.

(** The server hangs up before it answered the write. *)
Lemma client_end_calls_back_witness :
  pending (cl (hung_up example_app)) = ∅ /\
  exists more, calls (cl (hung_up example_app)) = calls (cl (answered_once example_app)) ++ more /\
    ca_cid <$> more ≡ₚ [2%Z].
Proof.
  destruct (client_end_calls_back (example_setting example_app) (answered_once example_app) (hung_up example_app)
    LibcQueue.POLLIN 1 RecvEof [] (example_setting_ok _ (or_introl eq_refl)) eq_refl ltac:(simpl; lia)
    (answered_life _ (or_introl eq_refl))) as (_ & Hp & _ & more & Hc & _ & Hcid & _).
  - left. vm_compute. reflexivity.
  - split; [by vm_compute|]. repeat constructor.
  - vm_compute. reflexivity.
  - exact I.
  - runs 40.
  - split; [exact Hp|]. exists more. split; [exact Hc|]. rewrite Hcid. vm_compute. reflexivity.
Defined.

(** *** With the server that answered *)

Definition served_request : request :=
  Req {| req_cid := 1; req_offset := 4096; req_size := 2; req_op := EASYBD_OP_READ |} [].

Definition server_setup : LibcWorker.setup :=
  LibcWorker.Setup (Ret 0) (fun _ => Ret 0%Z) (Ret 0) (Some (replicate 256 Byte.x00))
    [RecvData (request_image served_request)] 100 Examples.memalign.

Definition server_kernel : LibcWorker.kernel :=
  LibcWorker.Kernel (fun _ => LibcExamples.takes_all) LibcExamples.example_file (fun _ _ => Ret 0%Z) (fun k => 200 + k)
    (fun k open => if bool_decide (k = 0) && bool_decide (5%Z ∉ open) then LibcWorker.Connected 5 server_setup
                   else LibcWorker.Refused EAGAIN) (fun _ => 50).

Lemma server_kernel_ok : LibcWorker.kernel_ok server_kernel 64 4.
Proof.
  split; simpl.
  - intros fd k iov Hiov. unfold LibcExamples.takes_all. destruct (mjoin iov); [done|]. simpl. lia.
  - intros k [size off|data off|data off]; simpl; [|lia..]. by rewrite length_replicate.
  - intros k open fd su. case_bool_decide; [|done]. case_bool_decide; [|done].
    intros [= <- <-]. split_and!; [done|done|]. split.
    + by intros mem [= <-].
    + repeat constructor; vm_compute; lia.
    + apply Examples.memalign_size.
  - intros k open e. destruct (_ && _); [done|]. by intros [= <-].
  - intros k. exists (S k). split; [lia|]. done.
Qed.

Definition server : LibcWorker.worker :=
  LibcExamples.worker_of (LibcWorker.start server_kernel 64 4 3 LibcExamples.never 40).

Lemma server_polls : LibcWorker.polls server_kernel 64 4 3 LibcExamples.never server.
Proof. apply LibcWorker.polls_start. runs 40. Qed.

Lemma answered_settled :
  exists c, LibcEndToEnd.settled (example_setting no_calls) (answered_once no_calls) server_kernel 64 4 3
    LibcExamples.never server 5 c.
Proof.
  eexists. split.
  - exact (example_setting_ok _ (or_intror eq_refl)).
  - exact (answered_life _ (or_intror eq_refl)).
  - intros (id & f & Hid). vm_compute in Hid. congruence.
  - exact server_kernel_ok.
  - exact server_polls.
  - vm_compute. reflexivity.
  - intros (id & j & f & Hid). vm_compute in Hid. congruence.
  - by vm_compute.
  - by vm_compute.
  - by vm_compute.
  - by vm_compute.
  - intros [|id] req; [|done]. intros [= <-] [_ [[Hio _]|(r & Hio & Hr)]]; [discriminate Hio|].
    vm_compute in Hio. injection Hio as <-. discriminate Hr.
Qed.

(** The one call was called back, with the two bytes the server read. *)
Lemma settled_calls_answered_witness :
  pending (cl (answered_once no_calls)) = ∅ /\ ca_cid <$> calls (cl (answered_once no_calls)) ≡ₚ [1%Z].
Proof.
  destruct answered_settled as [c Hs].
  destruct (LibcEndToEnd.settled_calls_answered _ _ _ _ _ _ _ _ _ _ Hs) as (Hp & Hc & _); [by vm_compute|].
  split; [exact Hp|]. rewrite Hc. vm_compute. reflexivity.
Defined.

(** ** Callbacks outside of [wait] *)

(** [pread] returns [0], for queued, and its callback was made inside it: no [wait] will
    count it. *)
Lemma callback_inside_pread :
  let r := calls_in (reset_setting [] no_calls) example_read_call (opened no_calls) 40 in
  (fst <$> r) = Some 0%Z /\ (fun ca => (ca_cid ca, ca_res ca)) <$> calls (cl (after_call r)) = [(1%Z, (- ECONNRESET)%Z)].
Proof. by vm_compute. Qed.

(** An application that asks again whenever a request fails, which no list of retries
    allows: [pread] makes callbacks as long as it has turns. *)
Definition always_retries (c : client Libc.t) (ca : callback) : list app_call :=
  match ca_resp ca with Some _ => [] | None => [example_read_call] end.

Lemma retry_spins : calls_in (reset_setting [] always_retries) example_read_call (opened no_calls) 1000 = None.
Proof. by vm_compute. Qed.

(** Once the connection ended, nothing is polled: [wait] with a negative timeout blocks for
    ever. *)
Lemma hung_up_polls_nothing :
  pc (cl (hung_up example_app)) = REnd /\ LibcQueue.poll_set (table (hung_up example_app)) = [].
Proof. by vm_compute. Qed.
