(* ===== verification/UringExamples.v ===== *)
(** * Concrete io_uring streams

    A provided buffer ring as a list, which discharges [BufRingLaws], and runs of both
    streams that meet the hypotheses of their theorems. *)

From coqutil Require Import Byte.
From S2P Require Import Prelude RecvStream UringSink LibcRecvStream UringSingleShot UringMultishot.

Open Scope nat_scope.

(** The entries available, and those added and not yet advanced over, by offset. *)
Record list_ring := MkRing { lr_avail : list ring_entry; lr_staged : list ring_entry }.

#[global] Instance ring_entry_eq_dec : EqDecision ring_entry.
Proof. solve_decision. Defined.

Fixpoint remove_first (e : ring_entry) (l : list ring_entry) : list ring_entry :=
  match l with
  | [] => []
  | x :: l => if decide (x = e) then l else x :: remove_first e l
  end.

(** Adding at an offset replaces what was staged there. *)
#[global] Instance list_buf_ring : BufRing list_ring := {
  ring_init := MkRing [] [];
  ring_mask n := n - 1;
  ring_add e _ off r := MkRing (lr_avail r) (take off (lr_staged r) ++ [e]);
  ring_advance n r := MkRing (lr_avail r ++ take n (lr_staged r)) (drop n (lr_staged r));
  ring_select e r := MkRing (remove_first e (lr_avail r)) (lr_staged r);
}.

Lemma remove_first_perm e l : e ∈ l -> l ≡ₚ e :: remove_first e l.
Proof.
  induction l as [|x l IH]; [by intros ?%not_elem_of_nil|]. simpl.
  intros [->|Hin]%list.elem_of_cons; [by rewrite decide_True|].
  case_decide; [by subst|]. rewrite IH at 1 by done. apply Permutation_swap.
Qed.

Lemma add_all_staged m es r pre :
  take (length pre) (lr_staged r) = pre ->
  ring_add_all m (length pre) es r =
    MkRing (lr_avail r) (match es with [] => lr_staged r | _ => pre ++ es end).
Proof.
  revert r pre. induction es as [|e es IH]; intros r pre Hpre; [by destruct r as [a st]|].
  cbn [ring_add_all ring_add list_buf_ring]. rewrite Hpre.
  replace (S (length pre)) with (length (pre ++ [e])) by (rewrite length_app; simpl; lia).
  rewrite IH by (simpl; by rewrite take_ge by lia). simpl.
  destruct es; [done|]. by rewrite <- app_assoc.
Qed.

#[global] Program Instance list_ring_laws : BufRingLaws list_ring := { avail := lr_avail }.
Next Obligation. done. Qed.
Next Obligation.
  intros n r es _ _. rewrite (add_all_staged _ es r []) by done.
  destruct es; simpl; [by rewrite ?take_0|]. f_equal; f_equal; by apply take_ge.
Qed.
Next Obligation. intros e r He. by apply remove_first_perm. Qed.

(** ** A multishot stream of 2 buffers of 4 bytes *)

Definition multishot0 : Multishot.t list_ring :=
  match (Multishot.make 4 2 1 true true 0 None).1 with
  | Ok s => s
  | Throw _ => Multishot.Mk 0 0 [] (MkRing [] []) false [] [] false 0 false None 0 []
  end.

(** The kernel fills buffer [bid]; [m] is whether it says there is more to come. *)
Definition fill (bid : nat) (bs : list Z) (m : bool) : cqe :=
  MkCqe (Z.of_nat (length bs))
    (Z.shiftl (Z.of_nat bid) 16 + (if m then 3 else 1))
    (byte_of <$> bs) (Some (MkEntry (bid * 4) 4 bid)).

(** Its reader suspends; the first buffer is filled, and the woken reader takes the chunk;
    while it works on it the second is filled, by a completion saying the ring is dry. *)
Definition multishot1 : Multishot.t list_ring := (await_next 7 multishot0).2.
Definition multishot2 : Multishot.t list_ring :=
  (Multishot.complete (fill 0 [1; 2; 3]%Z true) multishot1).1.
Definition multishot3 : Multishot.t list_ring := (Multishot.take multishot2).2.
Definition multishot_dry : Multishot.t list_ring :=
  (Multishot.complete (fill 1 [4; 5]%Z false) multishot3).1.

Lemma multishot0_inv : Multishot.inv multishot0.
Proof.
  apply (Multishot.make_ok 4 2 1 true true 0 None multishot0
    [Multishot.Mapped (Multishot.huge_len (Multishot.mmap_len 4 2)); Multishot.Registered 1]); [by exists 1|].
  by vm_compute.
Qed.

Lemma multishot_dry_use : rtc use multishot0 multishot_dry.
Proof.
  apply (rtc_l _ _ multishot1); [by apply (use_next 7)|].
  apply (rtc_l _ _ multishot2).
  { refine (use_complete (H0 := Multishot.stream_laws) (fill 0 [1; 2; 3]%Z true) multishot1 _).
    split; [by vm_compute|]. simpl. split_and!; try (by vm_compute); try lia. vm_compute. left. }
  apply (rtc_l _ _ multishot3).
  { refine (use_take (H0 := Multishot.stream_laws) multishot2 _ (or_introl _));
      [by vm_compute|vm_compute; discriminate]. }
  apply rtc_once.
  refine (use_complete (H0 := Multishot.stream_laws) (fill 1 [4; 5]%Z false) multishot3 _).
  split; [by vm_compute|]. simpl. split_and!; try (by vm_compute); try lia. vm_compute. left.
Qed.

(** Buffer 0 is in the reader's hands, buffer 1 queued, the ring empty. *)
Lemma multishot_buffers_conserved_witness :
  (re_bid <$> avail (Multishot.ring multishot_dry)) ++ (Multishot.pending multishot_dry).*1 ++
    Multishot.checked_out multishot_dry ≡ₚ seq 0 2.
Proof.
  exact (proj1 (multishot_buffers_conserved multishot0 multishot_dry multishot0_inv multishot_dry_use)).
Defined.

(** The receive is paused, and the next call of the reader submits it again. *)
Lemma multishot_reader_never_stalls_witness :
  Multishot.live multishot_dry = false /\ Multishot.final multishot_dry = None /\
  Multishot.live (Multishot.return_checked_out multishot_dry) = true.
Proof.
  assert (Hl : Multishot.live multishot_dry = false) by (by vm_compute).
  assert (Hf : Multishot.final multishot_dry = None) by (by vm_compute).
  split; [exact Hl|]. split; [exact Hf|].
  destruct (proj2 (multishot_reader_never_stalls multishot0 multishot_dry multishot0_inv multishot_dry_use))
    as [Hlive|[Hfin|[_ Hlive]]].
  - rewrite Hl in Hlive. discriminate Hlive.
  - rewrite Hf in Hfin. destruct Hfin as [? [=]].
  - exact Hlive.
Defined.

(** Four entries of a page each, in huge pages. *)
Lemma multishot_construction_witness :
  match Multishot.make (R := list_ring) 4096 4 7 true true 0 None with
  | (Ok s, held) => re_bid <$> avail (Multishot.ring s) = [0; 1; 2; 3] /\ length held = 2
  | _ => False
  end.
Proof.
  pose proof (multishot_construction (R := list_ring) 4096 4 7 0 true true None
    ltac:(by exists 2) ltac:(change Multishot.kHugePageSize with 2097152%Z; lia)) as Hmake.
  destruct (Multishot.make 4096 4 7 true true 0 None) as [[s|e] held] eqn:He.
  - destruct Hmake as (_ & _ & _ & _ & _ & Ha & len & -> & _). split; [exact Ha|reflexivity].
  - destruct Hmake as [[_ Hh]|[[_ Hh]|(? & ? & [=] & _)]]; subst held; vm_compute in He; discriminate He.
Defined.

(** ** A single-shot stream with a buffer of 4 bytes *)

Definition single0 : SingleShot.t :=
  SingleShot.submit_recv (SingleShot.Mk 4 (replicate 4 Byte.x00) false 0 false false false 0 None 0).

Definition plain_cqe (bs : list Z) : cqe :=
  MkCqe (Z.of_nat (length bs)) 0 (byte_of <$> bs) None.

(** A chunk arrived and is in the reader's hands. *)
Definition single1 : SingleShot.t := (await_next 7 single0).2.
Definition single2 : SingleShot.t := (SingleShot.complete (plain_cqe [1; 2; 3]%Z) single1).1.
Definition single_lent : SingleShot.t := (SingleShot.take single2).2.

Lemma single0_inv : SingleShot.inv single0.
Proof.
  by apply (SingleShot.ss_make_inv 4 (replicate 4 Byte.x00)).
Qed.

Lemma single_lent_use : rtc use single0 single_lent.
Proof.
  apply (rtc_l _ _ single1); [by apply (use_next 7)|]. apply (rtc_l _ _ single2).
  { refine (use_complete (H0 := SingleShot.stream_laws) (plain_cqe [1; 2; 3]%Z) single1 _).
    split; [by vm_compute|]. split_and!; try (by vm_compute). simpl. lia. }
  apply rtc_once. refine (use_take (H0 := SingleShot.stream_laws) single2 _ (or_introl _));
    [by vm_compute|vm_compute; discriminate].
Qed.

Lemma single_shot_exclusive_witness :
  SingleShot.lent single_lent = [byte_of <$> [1; 2; 3]%Z] /\
  SingleShot.live single_lent = false /\ SingleShot.live (SingleShot.ready single_lent).2 = true.
Proof.
  destruct (proj1 (proj2 (single_shot_exclusive single0 single_lent single0_inv single_lent_use)))
    as [_ Hl]; [by vm_compute|].
  split; [by vm_compute|]. split; [by vm_compute|]. exact Hl.
Defined.

(** ** A stream destroyed with completions on their way *)

(** The kernel completes twice; the first completion is dispatched, and the reader it wakes
    destroys the stream before the second, in the same batch, is. *)
Definition orphaned : world (Multishot.t list_ring) :=
  MkWorld (Orphan true true) 0 [fill 1 [4; 5]%Z true; MkCqe (- ECANCELED) 0 [] None].

Lemma orphaned_reached : rtc step (built multishot0) orphaned.
Proof.
  eapply rtc_l; [apply (kernel_posts (fill 0 [1; 2; 3]%Z true)); simpl; [lia|by vm_compute]|].
  eapply rtc_l; [apply (kernel_posts (fill 1 [4; 5]%Z true)); simpl; [lia|by vm_compute]|].
  eapply rtc_l; [eapply dispatches; [reflexivity|reflexivity]|].
  eapply rtc_l; [eapply (stream_dies true); reflexivity|].
  eapply rtc_l; [apply (kernel_posts (MkCqe (- ECANCELED) 0 [] None)); simpl; [lia|by vm_compute]|].
  match goal with |- rtc _ ?w _ =>
    assert (Hw : w = orphaned) by (vm_compute; reflexivity); rewrite Hw; apply rtc_refl end.
Qed.

Lemma uring_sink_lifetime_witness :
  dispatch [fill 1 [4; 5]%Z true; MkCqe (- ECANCELED) 0 [] None]
    (Orphan (St := Multishot.t list_ring) true true) = Some Freed.
Proof.
  exact (proj2 (proj2 (proj2 (uring_sink_lifetime multishot0 orphaned
    (Multishot.inv_flow _ multishot0_inv) ltac:(by vm_compute) orphaned_reached))) true true eq_refl eq_refl).
Defined.
